(* ===== verification/_CoqProject ===== *)
-Q . S2P
Prelude.v
Errors.v
Sequence.v
Datatype.v
Packet.v
PacketCodec.v
Frame.v
FrameCodec.v
Fragment.v
AckSet.v
RecvQ.v
Log.v
Delivery.v
SendOptions.v
SendQ.v
SendQInv.v
SendQInsert.v
SendQFlow.v
SendQRun.v
SendQWire.v
SendLog.v
SendQTimer.v
SendQSched.v
Sending.v
SendQWait.v
SendQProgress.v
Waiting.v
Runtime.v
Udp.v
Input.v
Server.v
ServerInv.v
Shards.v
Connect.v
Socket.v
Loss.v
Bulk.v
Handshake.v
Ticker.v
Deadline.v
SocketRun.v
SocketAcks.v
SocketWire.v
Api.v
Blocking.v
EndToEnd.v
Conversation.v
Spoken.v
Dialogue.v
