(* ===== verification/Prelude.v ===== *)
(** * A verification development of rust-raknet

    rust-raknet ([src/src/]) implements the RakNet protocol over UDP: reliable, ordered and
    sequenced messages on up to 256 channels, with fragmentation, acknowledgements,
    retransmission and optional pacing. This library models the protocol, the connections
    and the listener, and proves them correct. The development declares no axioms. Code
    outside the repository is a class with laws that state its documented behaviour, and
    with an instance: tokio's bounded channels ([Runtime.Mpsc]) and the unstable sort of the
    standard library ([SendQ.UnstableSort]).

    ** The program and the files that model it

    A datagram received by a socket is decoded into frames, which go through the receive
    queue to the application; messages sent go through the send queue, which splits them,
    numbers them, keeps them until they are acknowledged and sends them again when they are
    lost. Acknowledgements of the frames received go back as ACK and NACK packets. A client
    and a listener first negotiate a session with offline packets; the listener then hands
    every datagram of the UDP socket to the connection of its sender, and offers new
    connections to the application. The asynchronous interface has a blocking one on top.

    - [Prelude] (this file): machine integers with their wrap-around, record update
      notation, the tactics [b2p], [blia] and [case_if], sums over lists and finite maps.
    - [Errors] ([error.rs]): the error enumeration, [Result], and the state-and-error monad
      [SE S A := S -> Result A * S] in which every [&mut self] method that can fail is
      written: the state survives the error, as in the code.
    - [Sequence] ([sequence.rs]): 24-bit serial numbers, and [ReliableWindow], which
      suppresses duplicates.
    - [Datatype] ([datatype.rs], [Endian] of [utils.rs]): the byte readers and writers, with
      a small logic ([writes], [reads]) in which all the codecs are verified.
    - [Packet], [PacketCodec] ([packet.rs]): every packet of the offline negotiation, the
      handshake and the acknowledgements.
    - [Frame], [FrameCodec] ([arq.rs], [FrameSetPacket] and [FrameVec]): frames, their
      payload representations, and the encoders and decoders of datagrams.
    - [Fragment] ([fragment.rs]): [Fragment] and [FragmentQ], the reassembly of messages.
    - [AckSet] ([arq.rs], [ACKSet]): the ranges to acknowledge and to report missing.
    - [RecvQ] ([arq.rs], [ChannelIndexes] and [RecvQ], and the receive loop of [socket.rs]).
    - [Log]: what a sender has accepted, message by message, with unbounded positions: the
      specification that both ends are compared with. [Delivery]: what the receive queue
      makes of arrivals of the log's frames. [SendLog]: the log of a history of the send queue.
    - [SendOptions] ([send_options.rs], [recovery_options.rs]).
    - [SendQ] ([arq.rs], [SendQ]): all the operations of the send queue. The cargo features
      are the class [Features], so every theorem holds of the four builds. [sort_unstable]
      is the class [UnstableSort]: any sorted permutation, with merge sort as an instance.
    - [SendQInv], [SendQInsert], [SendQFlow], [SendQTimer], [SendQSched], [SendQWire],
      [SendQWait], [SendQProgress]: the lemmas on the send queue, by concern: accounting,
      admission and fragmentation, acknowledgement and transmission, timers, windows and
      budgets, what the frames handed out look like, which operations make room, and that a
      flush makes progress.
    - [SendQRun]: histories of the send queue, as lists of events in any order.
    - [Sending] ([socket.rs]): what [send_payload] and [send_batch_payload] do while they
      hold the lock on the send queue.
    - [Waiting] ([socket.rs]): the same calls and [flush] step by step, as they wait for the
      queue on a [Notify] and are woken or dropped, the critical sections of the tasks in
      between.
    - [Runtime]: tokio's bounded channels, as the program uses them.
    - [Udp] ([udp.rs]): batches of datagrams received and sent with one system call.
    - [Input] ([socket.rs], [DatagramInput]): where a connection takes its datagrams from.
    - [Server], [ServerInv] ([server.rs]): the listener, its dispatch cache, its receiving
      task with every arm of its [select!] and its collecting task; its histories, invariant
      and theorems. [Shards]: groups of listeners on one address, which share the backlog and
      the MOTD through handles into a store of channels, with the constructors and methods of
      the group.
    - [Connect] ([socket.rs], [connect_with_version_and_mtu] and [ping]): the client's
      negotiation, and its agreement with the listener.
    - [Socket], [SocketRun], [SocketAcks], [SocketWire] ([socket.rs], [RaknetSocket]): the
      receiving and the ticking task of a connection, the handshake, the ways frames are
      transmitted, and the methods of the application; then histories of a connection, with
      what reaches the application, what is acknowledged and what is on the wire.
    - [Loss] ([set_loss_rate], [sendto], [send_frame]): the way of a datagram to the operating
      system, with the simulated loss. [Bulk] ([transmit_replies]): the task that sends bulk
      replies, and its channel. [Handshake]: what the client's handshake needs of the path.
    - [Ticker], [Deadline] ([start_tick] and [Maintenance]): how the ticking task sleeps and is
      woken, one atomic operation or critical section at a time.
    - [Api] ([socket.rs]): the methods of a connection as futures, suspended where the code
      awaits. [Blocking] ([blocking.rs]): the blocking interface, which polls these futures.
    - [EndToEnd]: the send queue of one end, the encoders, the network, the decoder and the
      receive queue of the other end, composed. [Conversation]: the same with a whole
      connection at the other end. [Spoken]: the messages a connection's queue accepts over a
      history of its turns and calls, and that only these are on its wire. [Dialogue]: two
      whole connections, from one application to the other.

    ** How the code is represented

    Integers are [Z] with explicit ranges ([in_range w]); wrapping operations, [as] casts
    and [usize] subtractions are [wrap], [usize_sub] and the like, saturating ones [sat_i64]
    and [sat_usize]. Bytes are [Z], buffers are lists. [HashMap] and [HashSet] are stdpp's
    [gmap] and [gset]; the code iterates over one only where order does not matter. Clock
    readings are arguments. [Arc<SharedPayload>], which the fragments of a message share, is
    a key into a store of the queue, so that aliasing is kept; the handles of a connection
    that the listener, its cache and the application share are keys into a store of peers.
    Tasks are functions from a state to the state after one iteration of their loop; the
    turns of tasks and the calls of the application are events, in any order. What [select!]
    chooses among ready branches, and what the clock, the network and the operating system
    answer, are arguments. Loops are structural recursion over their range, or recursion on
    fuel where they are [while] or [loop]:
    - [ReliableWindow.drain] and [RecvQ.drain_ordered] take an element out of a finite
      set in each iteration, and their fuel is its size;
    - the decoder's loop consumes at least three bytes an iteration, and its fuel is the
      length of the datagram;
    - the rounds of [flush_scheduled] and the loops of its lanes have one more than the number
      of frames waiting as fuel, and report by which exit they end:
      [SendQSched.scheduled_rounds_terminate] shows that it is always one of the code's own;
    - [chunks] has the length of the buffer, at least one byte an iteration;
    - [send_groups] and [Udp.send_frames] take at least one frame an iteration, and their
      fuel is the number of frames.

    ** What is proved

    - End to end: over a network that loses, repeats and reorders, the application at the
      other end gets on every ordered channel a prefix of what was accepted on it, and
      everything once all frames have arrived ([EndToEnd.ordered_messages_arrive]). With whole
      connections at both ends, amid all their turns and calls, the application of one
      receives the messages the application of the other was accepted, in order, and all of
      them once the two ends agree on the next index
      ([Dialogue.applications_converse], and [Conversation.application_receives_what_was_sent]
      for any history of a send queue).
    - Codecs: what is written is read back, for packets ([PacketCodec.messages_roundtrip],
      [control_ranges_roundtrip]) and for datagrams of frames ([FrameCodec.datagram_roundtrip]);
      the decoder is canonical ([decoded_datagram_reencodes]); its two variants and the
      three encoders agree. One packet does not round-trip, as [messages_roundtrip] and
      [incompatible_version_never_parses] say: writer and reader disagree on a field's place.
    - Refinement: the 24-bit window implements the duplicate filter over unbounded indexes
      ([Sequence.ReliableWindow.window_refines_unbounded_receiver], [window_accepts_exactly_once]),
      and the range lists implement the set of received and of missing datagrams
      ([AckSet.ackset_refines_tracker]), across wrap-around.
    - Receiving: fragments reassemble in any order ([Fragment.fragments_reassemble]), ordered
      channels deliver in order and completely ([ordered_delivery_in_order]), sequenced ones
      deliver only newer frames, and whatever a peer sends, memory is bounded
      ([reassembly_memory_bounded], [receive_memory_bounded]).
    - Sending: after any history, the byte accounting is exact ([SendQRun.buffered_bytes_exact]),
      a message is admitted exactly within the limits ([admission_exact]), a split message is
      one the peer reassembles ([split_message_reassembles]), a reliable frame leaves only
      when acknowledged ([reliable_frames_leave_only_acked]), overdue frames are sent again
      ([SendQTimer.overdue_frames_are_resent]) at a deadline that is never late
      ([deadline_covers_flight]), flushes keep to their window and budget and end
      ([SendQSched]) and never hold back what could be sent
      ([SendQProgress.flush_is_work_conserving]), and batches are atomic ([Sending.batches_are_atomic]). A call that waits
      for the queue is woken when it can go on ([Waiting.no_wakeup_lost]);
      [Waiting.unconfigured_reply_strands_flush] evaluates the one case in which it is not.
      A call that is dropped, as by a deadline of the blocking interface, has queued a prefix
      of its messages and withdraws nothing ([Blocking.deadlines_cancel_only_the_wait]).
    - The listener, after any history: its tables are bounded and agree, and its receiving task
      ends by a failed receive only ([ServerInv.listener_tables_bounded]), after which the
      listener is deaf ([deaf_listener]); the dispatch cache is not observable
      ([dispatch_cache_is_transparent]), an acknowledged negotiation has a session
      ([reply_2_is_backed_by_session]) and its connection is offered once
      ([connections_offered_once]), datagrams go to the connection of their sender
      ([datagrams_reach_their_connection]), sessions end only for cause
      ([sessions_end_only_when]) and all of them when it closes ([closing_ends_every_session]). A group of
      listeners serves as one ([Shards.group_serves_as_one]) and closes together
      ([group_closes_together]).
    - Negotiation: client and listener agree whatever the network does
      ([Connect.negotiation_agrees]), and succeed when nothing disturbs them
      ([negotiation_completes]).
    - A connection: no datagram of the peer is lost or reordered on the way to the receiving
      task ([Input.input_preserves_datagrams]) nor by batching
      ([Udp.receive_batching_is_transparent], [batched_send_equals_sequential]), and messages
      reach the application in order, under back-pressure too
      ([SocketRun.messages_reach_application_in_order]); what is taken in is acknowledged,
      and nothing else ([SocketAcks.acknowledgements_sound_and_prompt]). Every datagram sent
      is one a peer acts on, and its reliable frames carry, field by field, what the
      connection accepted ([Dialogue.wire_always_legible]); what a flush hands out is
      what the peer decodes ([SocketWire.flushed_frames_decode]). [SocketRun.tick_splits_coalesced_datagram]
      evaluates a build in which a tick splits a datagram it should not. Simulated loss only
      loses ([Loss.simulated_loss_only_drops]), the bulk sending task keeps the order and
      never blocks the receiving task for good ([Bulk.bulk_replies_leave_in_order]), and the
      handshake of a client needs a path of 69 bytes
      ([Handshake.handshake_needs_69_bytes]), more than negotiation asks for.
    - The ticking task: when it sleeps idle, whoever makes work for it wakes it
      ([Ticker.idle_ticker_is_woken]); with stores visible at once its timer is never later
      than the published deadline ([Deadline.armed_timer_covers_deadline]), and
      [Deadline.buffered_stores_miss_the_deadline] evaluates that the memory order of the
      code does not suffice for it.

    The theorems on histories quantify over all lists of events from an empty queue; a
    hypothesis such as [in_range 16 mtu] or a non-negative clock states the range of a
    machine type or of the monotonic clock. [SendOptions.built_options_valid] discharges the
    hypothesis of [Sending] that options come from the builders.

    ** What is not modelled

    The wake-ups of callers that wait for the handshake: such a call is one that does not
    return yet. Interleavings inside a turn, but in [Waiting], [Api], [Ticker] and [Deadline]:
    elsewhere the critical sections of one iteration follow each other without those of
    another task between them. The weak memory order of atomics, but for the two in
    [Deadline]. Closing a listener or a group is one operation that follows a history
    ([Server.close_listener], [Shards.close]), with the last turns of the tasks inside it, and
    so is dropping a listener ([Server.drop_listener]; a group drops its members one by one);
    [listen] on a socket whose address cannot be read. The options of UDP sockets and the raw pointers of the system calls, the
    shutdown of the blocking interface's runtime with its last owner, plain accessors, the
    periodic report to the log, and logging. Floating-point back-off ([timeout as f64 * 1.5])
    is integer arithmetic: for timeouts up to 12 s the product is exact. *)

From stdpp Require Export base numbers list option gmap fin_maps fin_sets sorting tactics.
From Stdlib Require Export ZArith Lia.

#[global] Open Scope Z_scope.

(** ** Machine integers

    A [w]-bit unsigned integer is a [Z] in [[0, 2^w)]; [wrap w] is what Rust's
    [wrapping_*] operations and [as] casts do to a value that leaves the range. *)

Definition wrap (w : Z) (z : Z) : Z := z `mod` 2 ^ w.

Definition in_range (w : Z) (z : Z) : Prop := 0 <= z < 2 ^ w.

Definition in_rangeb (w : Z) (z : Z) : bool := (0 <=? z) && (z <? 2 ^ w).

(** Two's complement: the signed reading of a [w]-bit pattern. *)
Definition signed (w : Z) (z : Z) : Z :=
  let u := wrap w z in if u <? 2 ^ (w - 1) then u else u - 2 ^ w.

Definition in_range_signed (w : Z) (z : Z) : Prop := - 2 ^ (w - 1) <= z < 2 ^ (w - 1).

Definition I64_MAX : Z := 2 ^ 63 - 1.
Definition I64_MIN : Z := - 2 ^ 63.
Definition U64_MAX : Z := 2 ^ 64 - 1.

(** [saturating_add]/[saturating_sub]/[saturating_mul] of [i64]. *)
Definition sat_i64 (z : Z) : Z := Z.max I64_MIN (Z.min I64_MAX z).

(** [saturating_add] and [saturating_sub] of [usize] (64-bit targets). *)
Definition sat_usize (z : Z) : Z := Z.max 0 (Z.min U64_MAX z).

(** [-=] on [usize]: a release build wraps, a debug build panics. The
    development proves of each use that neither happens. *)
Definition usize_sub (a b : Z) : Z := wrap 64 (a - b).

(** [usize::div_ceil]. *)
Definition div_ceil (a b : Z) : Z := (a + (b - 1)) / b.

(** ** Field updates

    [r <| f := v |>] is the record [r] with its field [f] set to [v]: an assignment
    [self.f = v] of the source. Each record declares one [Setter] per field. *)

Class Setter {R T : Type} (proj : R -> T) : Type := set_field : (T -> T) -> R -> R.

Declare Scope record_scope.
#[global] Open Scope record_scope.
Notation "r <| f := v |>" := (set_field (proj := f) (fun _ => v) r)
  (at level 12, left associativity, format "r  <| f  :=  v |>") : record_scope.

(** ** Tactics *)

(** Case analysis on the scrutinee of an [if] or [match], keeping the equation. *)
Ltac case_if :=
  match goal with
  | |- context [if ?b then _ else _] => destruct b eqn:?
  end.

Ltac case_if_in H :=
  match type of H with
  | context [if ?b then _ else _] => destruct b eqn:?
  end.

(** Turn the boolean comparisons of the context into propositions. *)
Ltac b2p :=
  repeat match goal with
  | H : _ && _ = true |- _ => apply andb_true_iff in H as [? ?]
  | H : _ && _ = false |- _ => apply andb_false_iff in H
  | H : _ || _ = true |- _ => apply orb_true_iff in H
  | H : _ || _ = false |- _ => apply orb_false_iff in H as [? ?]
  | H : negb _ = true |- _ => apply negb_true_iff in H
  | H : negb _ = false |- _ => apply negb_false_iff in H
  | H : context [(_ <? _) = true] |- _ => rewrite Z.ltb_lt in H
  | H : context [(_ <? _) = false] |- _ => rewrite Z.ltb_ge in H
  | H : context [(_ <=? _) = true] |- _ => rewrite Z.leb_le in H
  | H : context [(_ <=? _) = false] |- _ => rewrite Z.leb_gt in H
  | H : context [(_ =? _) = true] |- _ => rewrite Z.eqb_eq in H
  | H : context [(_ =? _) = false] |- _ => rewrite Z.eqb_neq in H
  | H : bool_decide _ = true |- _ => apply bool_decide_eq_true_1 in H
  | H : bool_decide _ = false |- _ => apply bool_decide_eq_false_1 in H
  end.

Ltac blia := b2p; lia.

(** Break conjunctions and existentials of the context. *)
Ltac destruct_all :=
  repeat match goal with
  | H : _ /\ _ |- _ => destruct H
  | H : exists _, _ |- _ => destruct H
  end.

(** ** Hint databases

    [rk] resolves side conditions on ranges and well-formedness predicates. *)
Create HintDb rk discriminated.
#[export] Hint Constants Opaque : rk.
#[export] Hint Extern 5 (_ <= _ < _) => lia : rk.
#[export] Hint Extern 5 (_ <= _) => lia : rk.
#[export] Hint Extern 5 (_ < _) => lia : rk.

(** ** Integers *)

Section Integers.
Implicit Types (w z a b n : Z).

Lemma wrap_small w z : in_range w z -> wrap w z = z.
Proof. intros H. apply Z.mod_small, H. Qed.

Lemma wrap_range w z : 0 <= w -> in_range w (wrap w z).
Proof. intros. unfold in_range, wrap. apply Z.mod_pos_bound. lia. Qed.

Lemma in_rangeb_spec w z : in_rangeb w z = true <-> in_range w z.
Proof. unfold in_rangeb, in_range. lia. Qed.

Lemma signed_wrap w z : 0 < w -> in_range_signed w z -> signed w (wrap w z) = z.
Proof.
  unfold signed, in_range_signed, wrap. intros Hw Hz.
  rewrite Z.mod_mod by lia.
  assert (2 ^ w = 2 * 2 ^ (w - 1)) as E
    by (rewrite <- Z.pow_succ_r by lia; f_equal; lia).
  assert (0 < 2 ^ (w - 1)) by lia.
  destruct (decide (0 <= z)).
  - rewrite Z.mod_small by lia. case_if; lia.
  - replace (z `mod` 2 ^ w) with (z + 2 ^ w); [case_if; lia|].
    apply Z.mod_unique with (q := -1); lia.
Qed.

(** Masking with [2^n - 1] is reduction modulo [2^n]. *)
Lemma land_mask z n : 0 <= n -> Z.land z (Z.ones n) = z `mod` 2 ^ n.
Proof. apply Z.land_ones. Qed.

Lemma usize_sub_exact a b : 0 <= b <= a -> a < 2 ^ 64 -> usize_sub a b = a - b.
Proof. intros. unfold usize_sub. apply wrap_small. unfold in_range. lia. Qed.

Lemma div_ceil_bounds a b :
  0 < b -> 0 < a -> (div_ceil a b - 1) * b < a <= div_ceil a b * b.
Proof.
  intros. unfold div_ceil.
  pose proof (Z.div_mod (a + (b - 1)) b ltac:(lia)).
  pose proof (Z.mod_pos_bound (a + (b - 1)) b ltac:(lia)). nia.
Qed.
End Integers.

(** ** Lists *)

(** The number of elements, as the [usize] the code computes with. *)
Abbreviation zlen l := (Z.of_nat (length l)).

(** Iterator adaptors of the source's standard library. *)
Definition sumZ {A} (f : A -> Z) (l : list A) : Z := foldr (fun x acc => f x + acc) 0 l.

Definition anyb {A} (f : A -> bool) (l : list A) : bool := existsb f l.

Section Lists.
Context {A : Type}.
Implicit Types (f g : A -> Z) (l k : list A).

Lemma sumZ_app f l k : sumZ f (l ++ k) = sumZ f l + sumZ f k.
Proof. induction l; simpl; lia. Qed.

Lemma sumZ_perm f l k : l ≡ₚ k -> sumZ f l = sumZ f k.
Proof. induction 1; simpl; lia. Qed.

Lemma sumZ_nonneg f l : (forall x, x ∈ l -> 0 <= f x) -> 0 <= sumZ f l.
Proof.
  induction l as [|x l IH]; simpl; intros H; [lia|].
  specialize (IH (fun y Hy => H y (list_elem_of_further _ _ _ Hy))).
  specialize (H x (list_elem_of_here _ _)). lia.
Qed.

Lemma sumZ_zero f l : (forall x, x ∈ l -> f x = 0) -> sumZ f l = 0.
Proof.
  induction l as [|x l IH]; intros H; simpl; [done|]. rewrite H by apply list_elem_of_here.
  apply IH. intros y Hy. apply H. by apply list_elem_of_further.
Qed.

Lemma sumZ_ext f g l : (forall x, x ∈ l -> f x = g x) -> sumZ f l = sumZ g l.
Proof.
  induction l as [|x l IH]; simpl; intros H; [done|].
  rewrite (H x (list_elem_of_here _ _)), IH; [done|].
  intros y Hy. apply H. by apply list_elem_of_further.
Qed.

Lemma sumZ_elem_le f l x :
  (forall y, y ∈ l -> 0 <= f y) -> x ∈ l -> f x <= sumZ f l.
Proof.
  intros Hf Hx. apply list_elem_of_split in Hx as (l1 & l2 & ->).
  rewrite sumZ_app. simpl.
  assert (0 <= sumZ f l1) by (apply sumZ_nonneg; set_solver).
  assert (0 <= sumZ f l2) by (apply sumZ_nonneg; set_solver). lia.
Qed.

Lemma take_app_zlen l k : take (length l) (l ++ k) = l.
Proof. apply take_app_length. Qed.
End Lists.

Lemma filter_ext_in {A} (P Q : A -> Prop) `{!forall x, Decision (P x), !forall x, Decision (Q x)} (l : list A) :
  (forall x, x ∈ l -> P x <-> Q x) -> filter P l = filter Q l.
Proof.
  induction l as [|x l IH]; intros HP; [done|].
  rewrite !filter_cons, IH by (intros; apply HP; by apply list_elem_of_further).
  pose proof (HP x (list_elem_of_here _ _)). repeat case_decide; tauto.
Qed.

Lemma filter_none {A} (P : A -> Prop) `{!forall x, Decision (P x)} (l : list A) :
  (forall x, x ∈ l -> ~ P x) -> filter P l = [].
Proof.
  induction l as [|x l IH]; intros HP; [done|].
  rewrite filter_cons_False by (apply HP, list_elem_of_here).
  apply IH. intros. apply HP. by apply list_elem_of_further.
Qed.

Lemma sumZ_map {A B} (g : A -> B) (f : B -> Z) l : sumZ f (map g l) = sumZ (f ∘ g) l.
Proof. induction l; simpl; congruence. Qed.

(** ** Finite sets *)

Lemma size_set_map_inj `{Countable A, Countable B} (f : A -> B) (X : gset A) :
  (forall a b, a ∈ X -> b ∈ X -> f a = f b -> a = b) ->
  size (set_map f X : gset B) = size X.
Proof.
  induction X as [|x X Hx IH] using set_ind_L; intros Hinj.
  { by rewrite set_map_empty. }
  rewrite set_map_union_L, set_map_singleton_L, !size_union, !size_singleton, IH; [done|..].
  - set_solver.
  - set_solver.
  - intros y ->%elem_of_singleton (z & Hz & Hin)%elem_of_map.
    apply Hx. rewrite (Hinj x z); set_solver.
Qed.

(** ** Finite maps

    The sum of a measure over the values of a map: the quantity the byte counters of the
    queues account for. *)

Definition map_sum `{Countable K} {A} (f : A -> Z) (m : gmap K A) : Z :=
  sumZ (f ∘ snd) (map_to_list m).

Section MapSum.
Context `{Countable K} {A : Type} (f : A -> Z).
Implicit Types (m : gmap K A) (i : K) (x y : A).

Lemma map_sum_empty : map_sum f (∅ : gmap K A) = 0.
Proof. unfold map_sum. by rewrite map_to_list_empty. Qed.

Lemma map_sum_insert m i x : m !! i = None -> map_sum f (<[i := x]> m) = f x + map_sum f m.
Proof.
  intros Hx. unfold map_sum. by rewrite (sumZ_perm _ _ _ (map_to_list_insert m i x Hx)).
Qed.

Lemma map_sum_delete m i x : m !! i = Some x -> map_sum f (delete i m) = map_sum f m - f x.
Proof.
  intros Hx. unfold map_sum. rewrite <- (sumZ_perm _ _ _ (map_to_list_delete m i x Hx)).
  simpl. lia.
Qed.

Lemma map_sum_replace m i x y :
  m !! i = Some x -> map_sum f (<[i := y]> m) = map_sum f m - f x + f y.
Proof.
  intros Hx. rewrite <- insert_delete_eq, map_sum_insert by apply lookup_delete_eq.
  rewrite (map_sum_delete m i x Hx). lia.
Qed.

Lemma map_sum_nonneg m : (forall i x, m !! i = Some x -> 0 <= f x) -> 0 <= map_sum f m.
Proof.
  intros Hf. apply sumZ_nonneg. intros [i x] Hx%elem_of_map_to_list. by apply (Hf i).
Qed.

Lemma map_sum_lookup_le m i x :
  (forall i x, m !! i = Some x -> 0 <= f x) -> m !! i = Some x -> f x <= map_sum f m.
Proof.
  intros Hf Hx. apply (sumZ_elem_le (f ∘ snd) _ (i, x)).
  - intros [j y] Hy%elem_of_map_to_list. by apply (Hf j).
  - by apply elem_of_map_to_list.
Qed.
End MapSum.

(** A map with [n] keys below [n] has them all. *)
Lemma map_full {A} (m : gmap Z A) n :
  (forall i x, m !! i = Some x -> 0 <= i < n) -> Z.of_nat (size m) = n ->
  forall i, 0 <= i < n -> is_Some (m !! i).
Proof.
  intros Hdom Hsize i Hi.
  assert (size (list_to_set (seqZ 0 n) : gset Z) = Z.to_nat n) as Hseq
    by (rewrite size_list_to_set by apply NoDup_seqZ; apply length_seqZ).
  assert (dom m = list_to_set (seqZ 0 n)) as Heq.
  { apply set_subseteq_size_eq.
    - intros j [x Hx]%elem_of_dom. apply elem_of_list_to_set, elem_of_seqZ.
      specialize (Hdom _ _ Hx). lia.
    - rewrite Hseq, size_dom. lia. }
  apply elem_of_dom. rewrite Heq. apply elem_of_list_to_set, elem_of_seqZ. lia.
Qed.

Lemma map_full_size {A} (m : gmap Z A) n :
  (forall i x, m !! i = Some x -> 0 <= i < n) -> 0 <= n ->
  (forall i, 0 <= i < n -> is_Some (m !! i)) -> Z.of_nat (size m) = n.
Proof.
  intros Hdom Hn Hall. rewrite <- (size_dom (D := gset Z)).
  assert (dom m = (list_to_set (seqZ 0 n) : gset Z)) as ->.
  { apply set_eq. intros j. rewrite elem_of_dom, elem_of_list_to_set, elem_of_seqZ. split.
    - intros [x Hx]. specialize (Hdom _ _ Hx). lia.
    - intros. apply Hall. lia. }
  rewrite size_list_to_set by apply NoDup_seqZ. rewrite length_seqZ. lia.
Qed.
