(* ===== verification/Errors.v ===== *)
(** * Errors and the effects of fallible code

    [src/src/error.rs]: the error enumeration, its messages, and the [Result]
    alias. The two monads every other file is written in: [result E] for code
    that returns a [Result], and [SE S] for a [&mut self] method, which may have
    changed its receiver before it returns an error. *)

From Stdlib Require Import String.
From S2P Require Import Prelude.

Inductive RaknetError : Set :=
  | SetRaknetRawSocketError
  | NotListen
  | BindAddressError
  | ConnectionClosed
  | NotSupportVersion
  | IncorrectReply
  | PacketParseError
  | SocketError
  | IncorrectReliability
  | IncorrectPacketID
  | ReadPacketBufferError
  | PacketSizeExceedMTU
  | PacketHeaderError
  | SetMotdError.

#[export] Instance RaknetError_eq_dec : EqDecision RaknetError.
Proof. solve_decision. Defined.

(** [impl Display for RaknetError]. *)
Definition fmt (e : RaknetError) : string :=
  match e with
  | SetRaknetRawSocketError => "failed to initialize RakNet from the supplied UDP socket"
  | NotListen => "the RakNet listener is not listening"
  | BindAddressError => "failed to bind the UDP socket"
  | ConnectionClosed => "the RakNet connection is closed"
  | NotSupportVersion => "the RakNet protocol version is not supported"
  | IncorrectReply => "received an incorrect RakNet reply"
  | PacketParseError => "failed to parse a RakNet packet"
  | SocketError => "a UDP socket operation failed"
  | IncorrectReliability => "the packet reliability is invalid"
  | IncorrectPacketID => "the RakNet packet identifier is invalid"
  | ReadPacketBufferError => "the packet buffer ended unexpectedly"
  | PacketSizeExceedMTU => "the packet exceeds the connection MTU"
  | PacketHeaderError => "the packet has an invalid header"
  | SetMotdError => "failed to update the server MOTD"
  end%string.

(** [std::result::Result]. *)
Inductive result (E A : Type) : Type :=
  | Ok (a : A)
  | Err (e : E).
Arguments Ok {_ _} _.
Arguments Err {_ _} _.

#[export] Instance result_eq_dec {E A} `{EqDecision E, EqDecision A} : EqDecision (result E A).
Proof. solve_decision. Defined.

(** [pub type Result<T>] of error.rs. *)
Abbreviation Result := (result RaknetError).

#[export] Instance result_ret {E} : MRet (result E) := fun A a => Ok a.
#[export] Instance result_bind {E} : MBind (result E) := fun A B f m =>
  match m with Ok a => f a | Err e => Err e end.

(** [Option::ok_or] and the postfix [?] on it. *)
Definition ok_or {E A} (o : option A) (e : E) : result E A :=
  match o with Some a => Ok a | None => Err e end.

Definition is_ok {E A} (r : result E A) : bool :=
  match r with Ok _ => true | Err _ => false end.

(** A method on [&mut S] returning [Result<A>]: the outcome and the state left
    behind, also on the error path. *)
Definition SE (S A : Type) : Type := S -> Result A * S.

#[export] Instance SE_ret {S} : MRet (SE S) := fun A a s => (Ok a, s).
#[export] Instance SE_bind {S} : MBind (SE S) := fun A B f m s =>
  match m s with
  | (Ok a, s') => f a s'
  | (Err e, s') => (Err e, s')
  end.

Section StateErrors.
Context {S : Type}.

Definition throw {A} (e : RaknetError) : SE S A := fun s => (Err e, s).
Definition get : SE S S := fun s => (Ok s, s).
Definition put (s : S) : SE S unit := fun _ => (Ok tt, s).
Definition modify (f : S -> S) : SE S unit := fun s => (Ok tt, f s).
Definition lift {A} (r : Result A) : SE S A := fun s => (r, s).

(** An early [return Err(e)] taken when the condition holds. *)
Definition fail_if (b : bool) (e : RaknetError) : SE S unit :=
  if b then throw e else mret tt.
End StateErrors.

Section StateErrorLemmas.
Context {S A B : Type}.

Lemma SE_bind_ok (m : SE S A) (k : A -> SE S B) s a s' :
  m s = (Ok a, s') -> (m ≫= k) s = k a s'.
Proof. intros E. unfold mbind, SE_bind. by rewrite E. Qed.

Lemma SE_bind_err (m : SE S A) (k : A -> SE S B) s e s' :
  m s = (Err e, s') -> (m ≫= k) s = (Err e, s').
Proof. intros E. unfold mbind, SE_bind. by rewrite E. Qed.

Lemma SE_bind_err_fst (m : SE S A) (k : A -> SE S B) s e :
  (m s).1 = Err e -> ((m ≫= k) s).1 = Err e.
Proof. unfold mbind, SE_bind. destruct (m s) as [[|] ?]; simpl; congruence. Qed.

Lemma SE_bind_inv (m : SE S A) (k : A -> SE S B) s b s' :
  (m ≫= k) s = (Ok b, s') -> exists a s1, m s = (Ok a, s1) /\ k a s1 = (Ok b, s').
Proof.
  unfold mbind, SE_bind. destruct (m s) as [[a|e] s1] eqn:E; [eauto|congruence].
Qed.
End StateErrorLemmas.

(** Step through a monadic goal whose head operation is known to succeed. *)
Ltac se_step lem := erewrite SE_bind_ok by (apply lem; auto with rk; lia).

(** ** State invariants of monadic code

    [preserves P m]: [m] takes states that satisfy [P] to such states, on its error paths
    too. *)

Definition preserves {S A} (P : S -> Prop) (m : SE S A) : Prop := forall s, P s -> P (m s).2.

Section Preserves.
Context {S : Type} (P : S -> Prop).

Lemma preserves_ret {A} (a : A) : preserves P (mret a : SE S A).
Proof. by intros s. Qed.

Lemma preserves_lift {A} (r : Result A) : preserves P (lift r).
Proof. by intros s. Qed.

Lemma preserves_get : preserves P get.
Proof. by intros s. Qed.

Lemma preserves_fail_if b e : preserves P (fail_if b e).
Proof. destruct b; by intros s. Qed.

Lemma preserves_modify f : (forall s, P s -> P (f s)) -> preserves P (modify f).
Proof. intros H s. apply H. Qed.

Lemma preserves_bind {A B} (m : SE S A) (k : A -> SE S B) :
  preserves P m -> (forall a, preserves P (k a)) -> preserves P (m ≫= k).
Proof.
  intros Hm Hk s Hs. specialize (Hm s Hs). unfold mbind, SE_bind.
  destruct (m s) as [[a|e] s']; [by apply Hk|done].
Qed.
End Preserves.

Create HintDb preserves.
#[export] Hint Resolve preserves_ret preserves_lift preserves_get preserves_fail_if : preserves.
