(* ===== verification/Sequence.v ===== *)
(** * Serial numbers

    [src/src/sequence.rs]: arithmetic on RakNet's 24-bit serial numbers and the
    duplicate-suppressing [ReliableWindow]. The window is specified by an abstract
    receiver over unbounded indexes, and shown to refine it. *)

From S2P Require Import Prelude Errors.

Definition MASK : Z := 0x00ffffff.
Definition HALF : Z := 0x00800000.
Definition RECEIVE_WINDOW : Z := 65536.

Definition next (value : Z) : Z := Z.land (wrap 32 (value + 1)) MASK.

Definition distance (value base : Z) : Z := Z.land (wrap 32 (value - base)) MASK.

Definition newer (value base : Z) : bool :=
  let delta := distance value base in negb (delta =? 0) && (delta <? HALF).

(** A 24-bit serial number, the wire form of an unbounded index. *)
Definition serial (n : Z) : Z := n `mod` 2 ^ 24.

Section Arithmetic.
Implicit Types (v b n m : Z).

Lemma next_mod v : next v = serial (v + 1).
Proof.
  unfold next, serial, wrap. change MASK with (Z.ones 24). rewrite land_mask by lia.
  apply Z.mod_mod_divide. exists (2 ^ 8). lia.
Qed.

Lemma distance_mod v b : distance v b = serial (v - b).
Proof.
  unfold distance, serial, wrap. change MASK with (Z.ones 24). rewrite land_mask by lia.
  apply Z.mod_mod_divide. exists (2 ^ 8). lia.
Qed.

Lemma serial_range n : 0 <= serial n < 2 ^ 24.
Proof. apply Z.mod_pos_bound. lia. Qed.

Lemma serial_small n : 0 <= n < 2 ^ 24 -> serial n = n.
Proof. apply Z.mod_small. Qed.

Lemma serial_idemp n : serial (serial n) = serial n.
Proof. apply serial_small, serial_range. Qed.

Lemma next_serial n : next (serial n) = serial (n + 1).
Proof. rewrite next_mod. unfold serial. by rewrite Zplus_mod_idemp_l. Qed.

Lemma distance_serial n m : distance (serial n) (serial m) = serial (n - m).
Proof.
  rewrite distance_mod. unfold serial.
  by rewrite Zminus_mod_idemp_l, Zminus_mod_idemp_r.
Qed.

(** Serials of indexes less than [2^24] apart are distinct. *)
Lemma serial_inj n m : - 2 ^ 24 < n - m < 2 ^ 24 -> serial n = serial m -> n = m.
Proof.
  unfold serial. intros Hd Heq.
  pose proof (Z.div_mod n (2 ^ 24) ltac:(lia)).
  pose proof (Z.div_mod m (2 ^ 24) ltac:(lia)). nia.
Qed.

Lemma serial_ahead d : 0 <= d < 2 ^ 24 -> serial d = d.
Proof. apply serial_small. Qed.

Lemma serial_behind d : - 2 ^ 24 <= d < 0 -> serial d = d + 2 ^ 24.
Proof. intros. unfold serial. symmetry. apply Z.mod_unique with (q := -1); lia. Qed.

Lemma next_range v : 0 <= next v < 2 ^ 24.
Proof. rewrite next_mod. apply serial_range. Qed.

Lemma distance_range v b : 0 <= distance v b < 2 ^ 24.
Proof. rewrite distance_mod. apply serial_range. Qed.

Lemma distance_0 v b :
  0 <= v < 2 ^ 24 -> 0 <= b < 2 ^ 24 -> distance v b = 0 <-> v = b.
Proof.
  intros Hv Hb. rewrite distance_mod. split; [|intros ->; by rewrite Z.sub_diag].
  intros H. destruct (decide (b <= v)).
  - rewrite serial_ahead in H by lia. lia.
  - rewrite serial_behind in H by lia. lia.
Qed.

Lemma newer_serial n m :
  - HALF <= n - m < HALF -> newer (serial n) (serial m) = (m <? n).
Proof.
  unfold newer, HALF. intros H. rewrite distance_serial.
  destruct (decide (0 <= n - m)).
  - rewrite serial_ahead by lia. lia.
  - rewrite serial_behind by lia. lia.
Qed.
End Arithmetic.

#[export] Hint Resolve next_range distance_range serial_range : rk.

(** ** The reliable window *)

Module ReliableWindow.

Record ReliableWindow := mk { next_index : Z; pending : gset Z }.

(** [#[derive(Default)]] *)
Definition default : ReliableWindow := mk 0 ∅.

(** [while self.pending.remove(&self.next) { self.next = next(self.next) }]. Every
    iteration removes an element, so [size pending] iterations are enough. *)
Fixpoint drain (fuel : nat) (w : ReliableWindow) : ReliableWindow :=
  match fuel with
  | O => w
  | S fuel =>
      if bool_decide (next_index w ∈ pending w)
      then drain fuel (mk (next (next_index w)) (pending w ∖ {[next_index w]}))
      else w
  end.

Definition accept (w : ReliableWindow) (index : Z) : Result bool * ReliableWindow :=
  let delta := distance index (next_index w) in
  if HALF <=? delta then (Ok false, w)
  else if RECEIVE_WINDOW <=? delta then (Err PacketParseError, w)
  else if negb (delta =? 0) then
    (* [HashSet::insert] returns whether the value was absent. *)
    (Ok (bool_decide (index ∉ pending w)), mk (next_index w) ({[index]} ∪ pending w))
  else
    let w := mk (next (next_index w)) (pending w) in
    (Ok true, drain (size (pending w)) w).

(** ** The abstract receiver

    An unbounded index is fresh when it is not below [base] and not in [ahead];
    indexes below [base] have all been accepted. *)

Record spec := mk_spec { base : Z; ahead : gset Z }.

Definition spec_default : spec := mk_spec 0 ∅.

Definition received (s : spec) (n : Z) : Prop := n < base s \/ n ∈ ahead s.

#[export] Instance received_dec s n : Decision (received s n).
Proof. unfold received. apply _. Defined.

Fixpoint spec_advance (fuel : nat) (s : spec) : spec :=
  match fuel with
  | O => s
  | S fuel =>
      if bool_decide (base s ∈ ahead s)
      then spec_advance fuel (mk_spec (base s + 1) (ahead s ∖ {[base s]}))
      else s
  end.

Definition spec_accept (s : spec) (n : Z) : Result bool * spec :=
  if bool_decide (received s n) then (Ok false, s)
  else if base s + RECEIVE_WINDOW <=? n then (Err PacketParseError, s)
  else if n =? base s
  then (Ok true, spec_advance (size (ahead s)) (mk_spec (base s + 1) (ahead s)))
  else (Ok true, mk_spec (base s) ({[n]} ∪ ahead s)).

(** The window holds the serials of the abstract receiver's indexes. *)
Definition spec_wf (s : spec) : Prop :=
  forall n, n ∈ ahead s -> base s < n < base s + RECEIVE_WINDOW.

Record represents (w : ReliableWindow) (s : spec) : Prop := {
  rep_next : next_index w = serial (base s);
  rep_pending : pending w = set_map serial (ahead s);
}.

(** An intermediate state of [drain]: [base] itself may be in [ahead]. *)
Definition spec_wf_le (s : spec) : Prop :=
  forall n, n ∈ ahead s -> base s <= n < base s + RECEIVE_WINDOW.

Lemma represents_elem w s n :
  represents w s -> spec_wf_le s -> - HALF <= n - base s < HALF ->
  serial n ∈ pending w <-> n ∈ ahead s.
Proof.
  intros [_ Hp] Hwf Hn. rewrite Hp, elem_of_map. split.
  - intros (m & Heq & Hm). specialize (Hwf m Hm). unfold RECEIVE_WINDOW, HALF in *.
    apply serial_inj in Heq; [by subst|lia].
  - eauto.
Qed.

Lemma represents_remove w s :
  represents w s -> spec_wf_le s -> base s ∈ ahead s ->
  represents (mk (next (next_index w)) (pending w ∖ {[next_index w]}))
    (mk_spec (base s + 1) (ahead s ∖ {[base s]})).
Proof.
  intros Hr Hwf Hin. pose proof Hr as [Hn Hp]. constructor; simpl.
  - by rewrite Hn, next_serial.
  - rewrite Hn, Hp. apply set_eq. intros x. rewrite elem_of_difference, !elem_of_map. split.
    + intros ((m & -> & Hm) & Hne). exists m. split; [done|].
      apply elem_of_difference. split; [done|]. set_solver.
    + intros (m & -> & (Hm & Hmne)%elem_of_difference). split; [eauto|].
      rewrite elem_of_singleton. intros Heq. specialize (Hwf m Hm).
      unfold RECEIVE_WINDOW in *. apply serial_inj in Heq; [set_solver|lia].
Qed.

Lemma drain_refines fuel w s :
  represents w s -> spec_wf_le s ->
  represents (drain fuel w) (spec_advance fuel s) /\ spec_wf_le (spec_advance fuel s).
Proof.
  revert w s. induction fuel as [|fuel IH]; intros w s Hr Hwf; simpl; [done|].
  pose proof (represents_elem w s (base s) Hr Hwf ltac:(unfold HALF; lia)) as Hiff.
  rewrite <- (rep_next _ _ Hr) in Hiff.
  destruct (bool_decide (base s ∈ ahead s)) eqn:Eb.
  - apply bool_decide_eq_true_1 in Eb. rewrite bool_decide_eq_true_2 by tauto.
    apply IH; [by apply represents_remove|].
    intros n (Hn & Hne)%elem_of_difference. specialize (Hwf n Hn). simpl in *. set_solver by lia.
  - apply bool_decide_eq_false_1 in Eb. rewrite bool_decide_eq_false_2 by tauto. done.
Qed.

(** Advancing by the number of pending indexes leaves no accepted index at [base]. *)
Lemma spec_advance_done fuel s :
  spec_wf_le s -> (size (ahead s) <= fuel)%nat ->
  base (spec_advance fuel s) ∉ ahead (spec_advance fuel s).
Proof.
  revert s. induction fuel as [|fuel IH]; intros s Hwf Hf; simpl.
  - assert (ahead s = ∅) as -> by (apply leibniz_equiv, size_empty_iff; lia). set_solver.
  - case_bool_decide as Hin; [|done]. apply IH; simpl.
    + intros n (Hn & Hne)%elem_of_difference. specialize (Hwf n Hn). simpl. set_solver by lia.
    + rewrite size_difference by set_solver. rewrite size_singleton. lia.
Qed.

Lemma spec_advance_received fuel s n :
  received (spec_advance fuel s) n <-> received s n.
Proof.
  revert s. induction fuel as [|fuel IH]; intros s; simpl; [done|].
  case_bool_decide as Hin; [|done]. rewrite IH. unfold received. simpl.
  destruct (decide (n = base s)) as [->|]; set_solver by lia.
Qed.

Lemma spec_wf_strict s : spec_wf_le s -> base s ∉ ahead s -> spec_wf s.
Proof.
  intros Hwf Hb n Hn. specialize (Hwf n Hn).
  destruct (decide (n = base s)) as [->|]; [done|lia].
Qed.

Lemma spec_wf_weaken s : spec_wf s -> spec_wf_le s.
Proof. intros H n Hn. specialize (H n Hn). lia. Qed.
#[export] Hint Resolve spec_wf_weaken : rk.

Lemma spec_wf_step s : spec_wf s -> spec_wf_le (mk_spec (base s + 1) (ahead s)).
Proof. intros H n Hn. specialize (H n Hn). simpl. lia. Qed.

Lemma spec_accept_wf s n : spec_wf s -> spec_wf (spec_accept s n).2.
Proof.
  intros Hwf. unfold spec_accept. case_bool_decide as Hrec; [done|].
  case_if; [done|]. unfold received in Hrec. case_if; simpl.
  - apply spec_wf_strict; [|apply spec_advance_done; [|done]]; [|by apply spec_wf_step].
    apply (drain_refines _ (mk (serial (base s + 1)) (set_map serial (ahead s)))); [done|].
    by apply spec_wf_step.
  - intros m. simpl. rewrite elem_of_union, elem_of_singleton. intros [->|Hm]; [lia|].
    by apply Hwf.
Qed.

(** One step of the window is one step of the abstract receiver. *)
Lemma accept_simulates w s n :
  represents w s -> spec_wf s -> - HALF <= n - base s < HALF ->
  (accept w (serial n)).1 = (spec_accept s n).1 /\
  represents (accept w (serial n)).2 (spec_accept s n).2.
Proof.
  intros Hr Hwf Hn. pose proof Hr as [Hnext Hpend].
  pose proof (represents_elem w s n Hr (spec_wf_weaken _ Hwf) Hn) as Helem.
  unfold accept, spec_accept. rewrite Hnext, distance_serial.
  unfold received, RECEIVE_WINDOW, HALF in *.
  destruct (decide (n < base s)) as [Hlt|Hge].
  { rewrite serial_behind by lia. rewrite (bool_decide_eq_true_2 (n < base s ∨ _)) by auto.
    case_if; [done|lia]. }
  rewrite serial_ahead by lia.
  destruct (decide (n ∈ ahead s)) as [Hin|Hnin].
  { specialize (Hwf n Hin). unfold RECEIVE_WINDOW in Hwf.
    rewrite (bool_decide_eq_true_2 (n < base s ∨ _)) by auto.
    repeat (case_if; [lia|]). case_if; [|lia].
    rewrite bool_decide_eq_false_2 by (rewrite Helem; tauto). split; [done|].
    replace ({[serial n]} ∪ pending w) with (pending w) by set_solver.
    rewrite <- Hnext. by destruct w. }
  rewrite (bool_decide_eq_false_2 (n < base s ∨ _)) by tauto.
  case_if; [lia|]. case_if; [by rewrite (proj2 (Z.leb_le _ n)) by lia|].
  rewrite (proj2 (Z.leb_gt _ n)) by lia.
  destruct (n =? base s) eqn:En; case_if; try lia; simpl.
  - split; [done|].
    assert (size (pending w) = size (ahead s)) as ->.
    { rewrite Hpend. apply size_set_map_inj. intros a b Ha Hb.
      specialize (Hwf a Ha) as Ha'. specialize (Hwf b Hb) as Hb'.
      unfold RECEIVE_WINDOW in *. apply serial_inj. lia. }
    rewrite next_serial. apply drain_refines; [done|]. by apply spec_wf_step.
  - rewrite bool_decide_eq_true_2 by tauto. split; [done|]. constructor; simpl; [done|].
    rewrite Hpend. by rewrite set_map_union_L, set_map_singleton_L.
Qed.

(** ** Runs *)

Fixpoint run (w : ReliableWindow) (indexes : list Z) : list (Result bool) * ReliableWindow :=
  match indexes with
  | [] => ([], w)
  | i :: indexes =>
      let '(r, w) := accept w i in
      let '(rs, w) := run w indexes in (r :: rs, w)
  end.

Fixpoint spec_run (s : spec) (ns : list Z) : list (Result bool) * spec :=
  match ns with
  | [] => ([], s)
  | n :: ns =>
      let '(r, s) := spec_accept s n in
      let '(rs, s) := spec_run s ns in (r :: rs, s)
  end.

(** Every arrival is less than half the serial space away from the first index
    still missing when it arrives: the network neither delays nor runs ahead by
    more than [2^23] frames. *)
Fixpoint in_horizon (s : spec) (ns : list Z) : Prop :=
  match ns with
  | [] => True
  | n :: ns => (- HALF <= n - base s < HALF) /\ in_horizon (spec_accept s n).2 ns
  end.

#[export] Instance in_horizon_dec s ns : Decision (in_horizon s ns).
Proof. revert s. induction ns as [|n ns IH]; intros s; simpl; apply _. Defined.

Lemma run_simulates w s ns :
  represents w s -> spec_wf s -> in_horizon s ns ->
  (run w (map serial ns)).1 = (spec_run s ns).1 /\
  represents (run w (map serial ns)).2 (spec_run s ns).2.
Proof.
  revert w s. induction ns as [|n ns IH]; intros w s Hr Hwf Hh; simpl; [done|].
  destruct Hh as [Hn Hh].
  destruct (accept_simulates w s n Hr Hwf Hn) as [Hres Hr'].
  pose proof (spec_accept_wf s n Hwf) as Hwf'.
  destruct (accept w (serial n)) as [r w'], (spec_accept s n) as [r' s']. simpl in *. subst.
  specialize (IH w' s' Hr' Hwf' Hh).
  destruct (run w' _) as [rs w''], (spec_run s' ns) as [rs' s'']. simpl in *.
  destruct IH as [-> IH]. done.
Qed.

Lemma spec_accept_received s n m :
  received (spec_accept s n).2 m <->
  received s m \/ (m = n /\ (spec_accept s n).1 = Ok true).
Proof.
  unfold spec_accept. case_bool_decide as Hrec; simpl; [naive_solver|].
  case_if; simpl; [naive_solver|]. case_if; simpl.
  - rewrite spec_advance_received. unfold received. simpl. split; [|naive_solver lia].
    intros [?|?]; [|naive_solver]. destruct (decide (m = n)); [naive_solver|left; left; lia].
  - unfold received. simpl. set_solver.
Qed.

(** What a run answers at position [i] depends only on what was accepted before. *)
Lemma spec_run_lookup s ns i n r :
  ns !! i = Some n -> (spec_run s ns).1 !! i = Some r ->
  r = (spec_accept (spec_run s (take i ns)).2 n).1.
Proof.
  revert s i. induction ns as [|m ns IH]; intros s i Hn Hr; [done|].
  destruct i as [|i]; simpl in *.
  - destruct (spec_accept s m) as [r0 s0] eqn:E. destruct (spec_run s0 ns). simpl in *.
    simplify_eq. by rewrite E.
  - destruct (spec_accept s m) as [r0 s0] eqn:E.
    destruct (spec_run s0 ns) as [rs s'] eqn:E'. simpl in *.
    specialize (IH s0 i). rewrite E' in IH. simpl in IH. rewrite (IH Hn Hr).
    by destruct (spec_run s0 (take i ns)).
Qed.

Lemma spec_run_length s ns : length (spec_run s ns).1 = length ns.
Proof.
  revert s. induction ns as [|n ns IH]; intros s; simpl; [done|].
  destruct (spec_accept s n) as [r s0]. specialize (IH s0).
  destruct (spec_run s0 ns). simpl in *. lia.
Qed.

Lemma spec_run_app s ns n :
  spec_run s (ns ++ [n]) =
  let '(rs, s1) := spec_run s ns in
  let '(r, s2) := spec_accept s1 n in (rs ++ [r], s2).
Proof.
  revert s. induction ns as [|m ns IH]; intros s; simpl.
  - by destruct (spec_accept s n).
  - destruct (spec_accept s m) as [r s0]. rewrite IH.
    destruct (spec_run s0 ns) as [rs s1]. by destruct (spec_accept s1 n).
Qed.

Lemma spec_run_take s ns i k :
  (i < k)%nat -> (spec_run s (take k ns)).1 !! i = (spec_run s ns).1 !! i.
Proof.
  revert s i k. induction ns as [|n ns IH]; intros s i k Hik; [by destruct k|].
  destruct k as [|k]; [lia|]. simpl. destruct (spec_accept s n) as [r s0].
  specialize (IH s0 (pred i) k).
  destruct (spec_run s0 ns), (spec_run s0 (take k ns)). simpl in *.
  destruct i as [|i]; [done|]. simpl. apply IH. lia.
Qed.

(** After a run, the received indexes are those it accepted. *)
Lemma spec_run_received s ns m :
  received (spec_run s ns).2 m <->
  received s m \/ exists i, ns !! i = Some m /\ (spec_run s ns).1 !! i = Some (Ok true).
Proof.
  induction ns as [|n ns IH] using rev_ind.
  { simpl. split; [auto|]. intros [?|(i & Hi & _)]; [done|]. by rewrite lookup_nil in Hi. }
  rewrite spec_run_app. pose proof (spec_run_length s ns) as Hlen.
  destruct (spec_run s ns) as [rs s1] eqn:E1.
  pose proof (spec_accept_received s1 n m) as Hacc.
  destruct (spec_accept s1 n) as [r s2] eqn:E2. simpl in *. rewrite Hacc, IH. clear Hacc IH.
  split.
  - intros [[?|(i & Hi & Hr)]|[-> ->]]; [auto| |].
    + right. exists i. split; by apply lookup_app_l_Some.
    + right. exists (length ns). split; by apply list_lookup_middle.
  - intros [?|(i & Hi & Hr)]; [auto|].
    apply lookup_app_Some in Hi as [Hi|[Hge Hi]].
    + left. right. exists i. split; [done|].
      apply lookup_lt_Some in Hi. by rewrite lookup_app_l in Hr by lia.
    + right. apply list_lookup_singleton_Some in Hi as [Hi ->].
      rewrite lookup_app_r in Hr by lia.
      by apply list_lookup_singleton_Some in Hr as [_ ->].
Qed.

Lemma default_represents : represents default spec_default.
Proof. constructor; simpl; [done|]. by rewrite set_map_empty. Qed.

Lemma spec_default_wf : spec_wf spec_default.
Proof. intros n Hn. set_solver. Qed.

(** C4: the reliable window refines the abstract receiver over unbounded indexes:
    along every run whose arrivals stay within half the serial space of the first
    missing index, the 24-bit window gives exactly the abstract answers (accepted,
    duplicate, or out of the receive window) and keeps representing its state. *)
Theorem window_refines_unbounded_receiver (ns : list Z) :
  in_horizon spec_default ns ->
  (run default (map serial ns)).1 = (spec_run spec_default ns).1 /\
  represents (run default (map serial ns)).2 (spec_run spec_default ns).2.
Proof.
  intros Hh. apply run_simulates; [apply default_represents|apply spec_default_wf|done].
Qed.

Lemma window_refines_unbounded_receiver_witness :
  in_horizon spec_default [2; 0; 2; 1; 0; 70000] /\
  (run default (map serial [2; 0; 2; 1; 0; 70000])).1
    = (spec_run spec_default [2; 0; 2; 1; 0; 70000]).1.
Proof.
  assert (in_horizon spec_default [2; 0; 2; 1; 0; 70000]) as H
    by (apply (bool_decide_eq_true_1 (in_horizon _ _)); vm_compute; reflexivity).
  split; [exact H|]. exact (proj1 (window_refines_unbounded_receiver _ H)).
Defined.

(** Exactly-once acceptance. In such a run the window answers [Ok true] for an
    index at most once, and answers [Ok false] for a non-negative index only when it
    answered [Ok true] for the same index before. *)
Theorem window_accepts_exactly_once (ns : list Z) :
  in_horizon spec_default ns ->
  let answers := (run default (map serial ns)).1 in
  (forall i j n, ns !! i = Some n -> ns !! j = Some n ->
     answers !! i = Some (Ok true) -> answers !! j = Some (Ok true) -> i = j) /\
  (forall j n, ns !! j = Some n -> 0 <= n -> answers !! j = Some (Ok false) ->
     exists i, (i < j)%nat /\ ns !! i = Some n /\ answers !! i = Some (Ok true)).
Proof.
  intros Hh answers.
  assert (answers = (spec_run spec_default ns).1) as ->.
  { apply run_simulates; [apply default_represents|apply spec_default_wf|done]. }
  split.
  - assert (forall i j n, ns !! i = Some n -> ns !! j = Some n -> (i < j)%nat ->
      (spec_run spec_default ns).1 !! i = Some (Ok true) ->
      (spec_run spec_default ns).1 !! j = Some (Ok true) -> False) as Hlt.
    { intros i j n Hi Hj Hij Hri Hrj. eapply spec_run_lookup in Hrj; [|done].
      assert (received (spec_run spec_default (take j ns)).2 n) as Hrec.
      { apply spec_run_received. right. exists i.
        rewrite lookup_take_lt by lia. split; [done|]. by rewrite spec_run_take. }
      revert Hrj. unfold spec_accept. by rewrite bool_decide_eq_true_2. }
    intros i j n Hi Hj Hri Hrj.
    destruct (lt_eq_lt_dec i j) as [[?|?]|?]; [|done|]; exfalso; eauto.
  - intros j n Hj Hn Hr. eapply spec_run_lookup in Hr; [|done].
    assert (received (spec_run spec_default (take j ns)).2 n) as Hrec.
    { revert Hr. unfold spec_accept. case_bool_decide; [done|].
      repeat case_if; discriminate. }
    apply spec_run_received in Hrec as [[Hneg|Hin]|(i & Hi & Hri)];
      [simpl in Hneg; lia|set_solver|].
    exists i. apply lookup_take_Some in Hi as [Hi Hij]. split; [done|]. split; [done|].
    by rewrite spec_run_take in Hri.
Qed.

Lemma window_accepts_exactly_once_witness :
  exists i, (i < 3)%nat /\ [1; 0; 2; 1] !! i = Some 1 /\
    (run default (map serial [1; 0; 2; 1])).1 !! i = Some (Ok true).
Proof.
  assert (in_horizon spec_default [1; 0; 2; 1]) as H
    by (apply (bool_decide_eq_true_1 (in_horizon _ _)); vm_compute; reflexivity).
  apply (proj2 (window_accepts_exactly_once _ H) 3%nat 1); [reflexivity|lia|].
  vm_compute; reflexivity.
Defined.

End ReliableWindow.
