(* ===== verification/Datatype.v ===== *)
(** * The wire data types

    [src/src/datatype.rs]: [RaknetWriter] and [RaknetReader], the byte-level
    encoders and decoders of every RakNet packet, and [Endian] of utils.rs.

    A writer is the list of bytes written so far. A reader ([Cursor<&[u8]>]) is the
    unread suffix of its buffer with its position. Bytes are [Z]s in [[0, 256)]. *)

From S2P Require Import Prelude Errors.

Inductive Endian : Set := Big | Little.

(** ** Socket addresses ([std::net]) *)

Record Ipv4Addr := mk_ipv4 { octet0 : Z; octet1 : Z; octet2 : Z; octet3 : Z }.

Definition octets_v4 (ip : Ipv4Addr) : list Z := [octet0 ip; octet1 ip; octet2 ip; octet3 ip].

(** [Ipv6Addr] is its sixteen octets. *)
Inductive SocketAddr : Set :=
  | V4 (ip : Ipv4Addr) (port : Z)
  | V6 (octets : list Z) (port flowinfo scope_id : Z).

#[export] Instance Ipv4Addr_eq_dec : EqDecision Ipv4Addr.
Proof. solve_decision. Defined.
#[export] Instance SocketAddr_eq_dec : EqDecision SocketAddr.
Proof. solve_decision. Defined.

Definition port (a : SocketAddr) : Z :=
  match a with V4 _ p => p | V6 _ p _ _ => p end.

(** What the wire format carries: it drops the flow label and scope of IPv6. *)
Definition wire_address (a : SocketAddr) : SocketAddr :=
  match a with V4 ip p => V4 ip p | V6 o p _ _ => V6 o p 0 0 end.

Definition SocketAddr_wf (a : SocketAddr) : Prop :=
  match a with
  | V4 ip p => Forall (in_range 8) (octets_v4 ip) /\ in_range 16 p
  | V6 o p _ _ => length o = 16%nat /\ in_range 16 p
  end.

(** ** Byte order ([to_le_bytes], [from_le_bytes], ... and the [Buf]/[BufMut] accessors) *)

Fixpoint le_bytes (n : nat) (v : Z) : list Z :=
  match n with
  | O => []
  | S n => wrap 8 v :: le_bytes n (v / 2 ^ 8)
  end.

Definition be_bytes (n : nat) (v : Z) : list Z := rev (le_bytes n v).

Definition to_bytes (n : nat) (e : Endian) (v : Z) : list Z :=
  match e with Big => be_bytes n v | Little => le_bytes n v end.

Fixpoint of_le (l : list Z) : Z :=
  match l with
  | [] => 0
  | b :: l => b + 2 ^ 8 * of_le l
  end.

Definition of_be (l : list Z) : Z := of_le (rev l).

Definition of_bytes (e : Endian) (l : list Z) : Z :=
  match e with Big => of_be l | Little => of_le l end.

(** ** UTF-8 validation ([String::from_utf8])

    The well-formed byte sequences of the Unicode standard, which [from_utf8] accepts. *)

Definition between (lo hi b : Z) : bool := (lo <=? b) && (b <=? hi).
Definition continuation (b : Z) : bool := between 0x80 0xbf b.

Fixpoint utf8_valid (s : list Z) : bool :=
  match s with
  | [] => true
  | b0 :: s1 =>
      if between 0 0x7f b0 then utf8_valid s1
      else match s1 with
      | [] => false
      | b1 :: s2 =>
          if between 0xc2 0xdf b0 then continuation b1 && utf8_valid s2
          else match s2 with
          | [] => false
          | b2 :: s3 =>
              if between 0xe0 0xef b0 then
                (if b0 =? 0xe0 then between 0xa0 0xbf b1
                 else if b0 =? 0xed then between 0x80 0x9f b1
                 else continuation b1)
                && continuation b2 && utf8_valid s3
              else match s3 with
              | [] => false
              | b3 :: s4 =>
                  if between 0xf0 0xf4 b0 then
                    (if b0 =? 0xf0 then between 0x90 0xbf b1
                     else if b0 =? 0xf4 then between 0x80 0x8f b1
                     else continuation b1)
                    && continuation b2 && continuation b3 && utf8_valid s4
                  else false
              end
          end
      end
  end.

(** The sixteen bytes that mark an offline message. *)
Definition magic : list Z :=
  [0x00; 0xff; 0xff; 0x00; 0xfe; 0xfe; 0xfe; 0xfe;
   0xfd; 0xfd; 0xfd; 0xfd; 0x12; 0x34; 0x56; 0x78].

(** ** [RaknetWriter] *)

Module RaknetWriter.

(** The bytes written so far, the [buf] field. *)
Abbreviation Writer := (SE (list Z)).

Definition new : list Z := [].

Definition get_raw_payload (buf : list Z) : list Z := buf.

(** [remaining_mut] of a writer over a fixed buffer of [capacity] bytes. *)
Definition remaining_mut (capacity : Z) (buf : list Z) : Z := capacity - zlen buf.

Definition write (v : list Z) : Writer unit := modify (fun buf => buf ++ v).
Definition write_u8 (v : Z) : Writer unit := write [v].
Definition write_i16 (v : Z) (n : Endian) : Writer unit := write (to_bytes 2 n v).
Definition write_u16 (v : Z) (n : Endian) : Writer unit := write (to_bytes 2 n v).

(** A [for] loop whose body writes. *)
Fixpoint for_each {A} (body : A -> Writer unit) (l : list A) : Writer unit :=
  match l with
  | [] => mret tt
  | x :: l => _ ← body x; for_each body l
  end.

(** The three low bytes of the [u32]: [a[1..]] big-endian, [a[..3]] little-endian. *)
Definition write_u24 (v : Z) (n : Endian) : Writer unit :=
  match n with
  | Big => for_each write_u8 (drop 1 (be_bytes 4 v))
  | Little => for_each write_u8 (take 3 (le_bytes 4 v))
  end.

Definition write_u32 (v : Z) (n : Endian) : Writer unit := write (to_bytes 4 n v).
Definition write_i32 (v : Z) (n : Endian) : Writer unit := write (to_bytes 4 n v).
Definition write_i64 (v : Z) (n : Endian) : Writer unit := write (to_bytes 8 n v).
Definition write_u64 (v : Z) (n : Endian) : Writer unit := write (to_bytes 8 n v).

Definition write_magic : Writer Z := _ ← write magic; mret (zlen magic).

(** Strings are their UTF-8 bytes; [u16::try_from] fails past 65535. *)
Definition write_string (body : list Z) : Writer unit :=
  _ ← fail_if (2 ^ 16 <=? zlen body) PacketParseError;
  _ ← write (be_bytes 2 (zlen body));
  write body.

Definition write_address (address : SocketAddr) : Writer unit :=
  match address with
  | V4 ip port =>
      _ ← write_u8 4;
      _ ← for_each (fun octet => write_u8 (0xff - octet)) (octets_v4 ip);
      write_u16 port Big
  | V6 octets port _ _ =>
      _ ← write_u8 6;
      _ ← write_i16 23 Little;
      _ ← write_u16 port Big;
      _ ← write_i32 0 Big;
      _ ← write octets;
      write_i32 0 Big
  end.

End RaknetWriter.

(** ** [RaknetReader] *)

Module RaknetReader.

Record RaknetReader := mk { unread : list Z; position : Z }.

Abbreviation Reader := (SE RaknetReader).

Definition new (buf : list Z) : RaknetReader := mk buf 0.

Definition remaining (r : RaknetReader) : Z := zlen (unread r).

Definition pos (r : RaknetReader) : Z := position r.

(** Consume [n] bytes that are known to be there ([Buf::get_*], [copy]). *)
Definition advance (n : Z) (r : RaknetReader) : RaknetReader :=
  mk (drop (Z.to_nat n) (unread r)) (position r + n).

Definition get_bytes (n : Z) : Reader (list Z) := fun r =>
  (Ok (take (Z.to_nat n) (unread r)), advance n r).

(** [if self.buf.remaining() < n { return Err(ReadPacketBufferError) }] *)
Definition need (n : Z) : Reader unit := fun r =>
  fail_if (remaining r <? n) ReadPacketBufferError r.

(** [Read::read_exact] into a buffer of [n] bytes: a short cursor ends at its end. *)
Definition read (n : Z) : Reader (list Z) := fun r =>
  if remaining r <? n then (Err ReadPacketBufferError, advance (remaining r) r)
  else get_bytes n r.

Definition read_slice (length : Z) : Reader (list Z) := fun r =>
  let start := position r in
  if 2 ^ 64 <=? start + length then (Err ReadPacketBufferError, r)
  else if remaining r <? length then (Err ReadPacketBufferError, r)
  else get_bytes length r.

Definition read_u8 : Reader Z := _ ← need 1; b ← get_bytes 1; mret (of_le b).

Definition read_u16 (n : Endian) : Reader Z := _ ← need 2; b ← get_bytes 2; mret (of_bytes n b).

Definition read_u24 (n : Endian) : Reader Z :=
  _ ← need 3;
  a ← get_bytes 1; b ← get_bytes 1; c ← get_bytes 1;
  match n with
  | Big => mret (of_be ([0] ++ a ++ b ++ c))
  | Little => mret (of_le (a ++ b ++ c ++ [0]))
  end.

Definition read_u32 (n : Endian) : Reader Z := _ ← need 4; b ← get_bytes 4; mret (of_bytes n b).
Definition read_u64 (n : Endian) : Reader Z := _ ← need 8; b ← get_bytes 8; mret (of_bytes n b).
Definition read_i64 (n : Endian) : Reader Z :=
  _ ← need 8; b ← get_bytes 8; mret (signed 64 (of_bytes n b)).

Definition read_string : Reader (list Z) :=
  _ ← need 2;
  size ← read_u16 Big;
  buf ← read size;
  _ ← fail_if (negb (utf8_valid buf)) PacketParseError;
  mret buf.

Definition read_magic : Reader bool :=
  _ ← need 16;
  m ← read 16;
  mret (bool_decide (m = magic)).

Definition skip (n : Z) : Reader unit := _ ← need n; modify (advance n).

Definition read_address : Reader SocketAddr :=
  ip_ver ← read_u8;
  if ip_ver =? 4 then
    _ ← need 6;
    a ← read_u8; b ← read_u8; c ← read_u8; d ← read_u8;
    let ip := mk_ipv4 (0xff - a) (0xff - b) (0xff - c) (0xff - d) in
    port ← read_u16 Big;
    mret (V4 ip port)
  else if (ip_ver =? 6) || (ip_ver =? 23) then
    _ ← (if ip_ver =? 6 then skip 2 else skip 1);
    port ← read_u16 Big;
    _ ← skip 4;
    address_bytes ← read 16;
    _ ← skip 4;
    mret (V6 address_bytes port 0 0)
  else throw PacketHeaderError.

End RaknetReader.

(** ** What is read back is what was written

    [writes w bs]: the writer appends exactly [bs]. [reads m bs a]: on any input that
    starts with [bs], the reader consumes exactly [bs] and returns [a]. *)

Import RaknetWriter RaknetReader.

Definition writes {A} (w : Writer A) (bs : list Z) (a : A) : Prop :=
  forall buf, w buf = (Ok a, buf ++ bs).

Definition reads {A} (m : Reader A) (bs : list Z) (a : A) : Prop :=
  forall rest p, 0 <= p -> p + zlen (bs ++ rest) < 2 ^ 64 ->
    m (mk (bs ++ rest) p) = (Ok a, mk rest (p + zlen bs)).

Section Bytes.
Implicit Types (n : nat) (v : Z) (e : Endian) (l : list Z).

Lemma le_bytes_length n v : length (le_bytes n v) = n.
Proof. revert v. induction n; intros; simpl; auto. Qed.

Lemma to_bytes_length n e v : length (to_bytes n e v) = n.
Proof. destruct e; simpl; unfold be_bytes; rewrite ?length_rev; apply le_bytes_length. Qed.

Lemma of_le_le_bytes n v : of_le (le_bytes n v) = wrap (8 * Z.of_nat n) v.
Proof.
  revert v. induction n as [|n IH]; intros v; [symmetry; apply Z.mod_1_r|].
  change (le_bytes (S n) v) with (wrap 8 v :: le_bytes n (v / 2 ^ 8)). cbn [of_le].
  rewrite IH. unfold wrap. replace (8 * Z.of_nat (S n)) with (8 + 8 * Z.of_nat n) by lia.
  rewrite Z.pow_add_r by lia. by rewrite Z.rem_mul_r by lia.
Qed.

Lemma of_bytes_to_bytes n e v : of_bytes e (to_bytes n e v) = wrap (8 * Z.of_nat n) v.
Proof.
  destruct e; simpl; [|apply of_le_le_bytes].
  unfold of_be, be_bytes. rewrite rev_involutive. apply of_le_le_bytes.
Qed.

Lemma le_bytes_range n v : Forall (in_range 8) (le_bytes n v).
Proof.
  revert v. induction n; intros; simpl; constructor; [apply wrap_range; lia|auto].
Qed.

Lemma of_le_range l : Forall (in_range 8) l -> 0 <= of_le l < 2 ^ (8 * zlen l).
Proof.
  induction 1 as [|b l Hb _ IH]; cbn [of_le length]; [lia|].
  replace (8 * Z.of_nat (S (length l))) with (8 + 8 * zlen l) by lia.
  rewrite Z.pow_add_r by lia. unfold in_range in Hb. nia.
Qed.


Lemma be_bytes_length n v : length (be_bytes n v) = n.
Proof. apply (to_bytes_length n Big). Qed.
End Bytes.

#[global] Arguments le_bytes : simpl never.
#[global] Arguments be_bytes : simpl never.
#[global] Arguments to_bytes : simpl never.

Lemma reads_ret {A} (a : A) : reads (mret a) [] a.
Proof. intros rest p _ _. rewrite Z.add_0_r. done. Qed.

Section WireLogic.
Context {A B : Type}.

Lemma writes_bind (w : Writer A) (k : A -> Writer B) bs1 bs2 a b :
  writes w bs1 a -> writes (k a) bs2 b -> writes (w ≫= k) (bs1 ++ bs2) b.
Proof.
  intros H1 H2 buf. erewrite SE_bind_ok by apply H1. rewrite H2. by rewrite app_assoc.
Qed.

Lemma writes_ret (a : A) : writes (mret a) [] a.
Proof. intros buf. by rewrite app_nil_r. Qed.

Lemma reads_bind (m : Reader A) (k : A -> Reader B) bs1 bs2 a b :
  reads m bs1 a -> reads (k a) bs2 b -> reads (m ≫= k) (bs1 ++ bs2) b.
Proof.
  intros H1 H2 rest p Hp Hlen. rewrite <- app_assoc in Hlen |- *.
  erewrite SE_bind_ok by (apply H1; [done|by rewrite !length_app in *]).
  rewrite H2; [|lia|rewrite !length_app in *; lia].
  rewrite length_app. do 2 f_equal. lia.
Qed.

(** The continuation consumes nothing. *)
Lemma reads_bind_last (m : Reader A) (k : A -> Reader B) bs a b :
  reads m bs a -> reads (k a) [] b -> reads (m ≫= k) bs b.
Proof. intros H1 H2. rewrite <- (app_nil_r bs). by eapply reads_bind. Qed.

(** A pure step, and a guard that lets the code pass. *)
Lemma reads_ret_bind (a : A) (k : A -> Reader B) bs b :
  reads (k a) bs b -> reads (mret a ≫= k) bs b.
Proof. intros H. exact (reads_bind (mret a) k [] bs a b (reads_ret a) H). Qed.

Lemma reads_pass c e (k : unit -> Reader B) bs b :
  c = false -> reads (k tt) bs b -> reads (fail_if c e ≫= k) bs b.
Proof. intros -> H. exact H. Qed.

Lemma writes_bind_last (w : Writer A) (k : A -> Writer B) bs a b :
  writes w bs a -> writes (k a) [] b -> writes (w ≫= k) bs b.
Proof. intros H1 H2. rewrite <- (app_nil_r bs). by eapply writes_bind. Qed.
End WireLogic.

Section WirePrimitives.
Implicit Types (v : Z) (e : Endian) (bs : list Z).

Lemma writes_write bs : writes (write bs) bs tt.
Proof. intros buf. done. Qed.

Lemma writes_for_each_u8 bs : writes (for_each write_u8 bs) bs tt.
Proof.
  induction bs as [|b bs IH]; [apply writes_ret|].
  apply (writes_bind _ _ [b] bs tt); [apply writes_write|done].
Qed.

Lemma writes_u8 v : writes (write_u8 v) [v] tt.
Proof. apply writes_write. Qed.

Lemma writes_u16 v e : writes (write_u16 v e) (to_bytes 2 e v) tt.
Proof. apply writes_write. Qed.

Lemma writes_u24 v e : writes (write_u24 v e) (to_bytes 3 e v) tt.
Proof.
  destruct e.
  - exact (writes_for_each_u8 (drop 1 (be_bytes 4 v))).
  - exact (writes_for_each_u8 (take 3 (le_bytes 4 v))).
Qed.

Lemma writes_u32 v e : writes (write_u32 v e) (to_bytes 4 e v) tt.
Proof. apply writes_write. Qed.

Lemma writes_i64 v e : writes (write_i64 v e) (to_bytes 8 e v) tt.
Proof. apply writes_write. Qed.

Lemma writes_u64 v e : writes (write_u64 v e) (to_bytes 8 e v) tt.
Proof. apply writes_write. Qed.

Lemma writes_magic : writes write_magic magic 16.
Proof. intros buf. done. Qed.

Lemma need_ok n r : n <= remaining r -> need n r = (Ok tt, r).
Proof. intros. unfold need, fail_if. case_if; [lia|done]. Qed.

Lemma reads_get_bytes bs n : n = zlen bs -> reads (get_bytes n) bs bs.
Proof.
  intros -> rest p _ _. unfold get_bytes, advance. simpl.
  by rewrite Nat2Z.id, take_app_length, drop_app_length.
Qed.

(** A guarded fixed-width read: enough bytes are there, and the guard passes. *)
Lemma reads_need {A} n (m : Reader A) bs a :
  n <= zlen bs -> reads m bs a -> reads (need n ≫= fun _ => m) bs a.
Proof.
  intros Hn Hm rest p Hp Hlen. erewrite SE_bind_ok; [by apply Hm|].
  apply need_ok. unfold remaining. simpl. rewrite length_app. lia.
Qed.

Lemma reads_read bs n : n = zlen bs -> reads (read n) bs bs.
Proof.
  intros Hn rest p Hp Hlen. unfold read, remaining. simpl. rewrite length_app.
  case_if; [blia|]. by apply reads_get_bytes.
Qed.

Lemma reads_read_slice bs n : n = zlen bs -> reads (read_slice n) bs bs.
Proof.
  intros Hn rest p Hp Hlen. unfold read_slice, remaining. simpl in *.
  rewrite length_app in *. case_if; [blia|]. case_if; [blia|].
  apply reads_get_bytes; [done..|]. rewrite length_app. lia.
Qed.

Lemma reads_fixed n (f : list Z -> Z) bs v :
  n = zlen bs -> f bs = v ->
  reads (need n ≫= fun _ => get_bytes n ≫= fun b => mret (f b)) bs v.
Proof.
  intros Hn <-. apply reads_need; [lia|].
  eapply reads_bind_last; [by apply reads_get_bytes|]. apply reads_ret.
Qed.

Lemma reads_u8 v : in_range 8 v -> reads read_u8 [v] v.
Proof. intros Hv. apply reads_fixed; [done|]. unfold of_le. lia. Qed.

Lemma reads_u8_bind {A} v (k : Z -> Reader A) bs a :
  in_range 8 v -> reads (k v) bs a -> reads (read_u8 ≫= k) (v :: bs) a.
Proof. intros Hv Hk. apply (reads_bind _ _ [v] bs v); [by apply reads_u8|done]. Qed.

Lemma reads_u16 v e : in_range 16 v -> reads (read_u16 e) (to_bytes 2 e v) v.
Proof.
  intros Hv. apply reads_fixed; [by rewrite to_bytes_length|].
  rewrite of_bytes_to_bytes. by apply wrap_small.
Qed.

Lemma reads_u32 v e : in_range 32 v -> reads (read_u32 e) (to_bytes 4 e v) v.
Proof.
  intros Hv. apply reads_fixed; [by rewrite to_bytes_length|].
  rewrite of_bytes_to_bytes. by apply wrap_small.
Qed.

Lemma reads_u64 v e : in_range 64 v -> reads (read_u64 e) (to_bytes 8 e v) v.
Proof.
  intros Hv. apply reads_fixed; [by rewrite to_bytes_length|].
  rewrite of_bytes_to_bytes. by apply wrap_small.
Qed.

Lemma reads_i64 v e : in_range_signed 64 v -> reads (read_i64 e) (to_bytes 8 e v) v.
Proof.
  intros Hv. apply (reads_fixed 8 (fun b => signed 64 (of_bytes e b)));
    [by rewrite to_bytes_length|].
  rewrite of_bytes_to_bytes. by apply signed_wrap.
Qed.

Lemma reads_u24 v e : in_range 24 v -> reads (read_u24 e) (to_bytes 3 e v) v.
Proof.
  intros Hv. apply reads_need; [by rewrite to_bytes_length|].
  pose proof (of_bytes_to_bytes 3 e v) as Hof. rewrite wrap_small in Hof by done.
  pose proof (to_bytes_length 3 e v) as Hlen.
  destruct (to_bytes 3 e v) as [|a [|b [|c [|]]]]; try discriminate Hlen.
  apply (reads_bind _ _ [a] [b; c] [a]); [by apply reads_get_bytes|].
  apply (reads_bind _ _ [b] [c] [b]); [by apply reads_get_bytes|].
  apply (reads_bind _ _ [c] [] [c]); [by apply reads_get_bytes|].
  rewrite <- Hof. destruct e; simpl.
  - unfold of_be. simpl.
    replace (a + 2 ^ 8 * 0) with (a + 2 ^ 8 * (0 + 2 ^ 8 * 0)) by lia. apply reads_ret.
  - replace (c + 2 ^ 8 * 0) with (c + 2 ^ 8 * (0 + 2 ^ 8 * 0)) by lia. apply reads_ret.
Qed.

Lemma reads_magic : reads read_magic magic true.
Proof.
  apply reads_need; [done|]. apply (reads_bind _ _ magic [] magic); [by apply reads_read|].
  rewrite bool_decide_eq_true_2 by done. apply reads_ret.
Qed.

Lemma reads_skip bs n : n = zlen bs -> reads (skip n) bs tt.
Proof.
  intros Hn. apply reads_need; [lia|]. intros rest p _ _. unfold modify, advance. simpl.
  subst n. by rewrite Nat2Z.id, drop_app_length.
Qed.
End WirePrimitives.

(** ** Strings and addresses *)

Lemma writes_string s :
  zlen s < 2 ^ 16 -> writes (write_string s) (be_bytes 2 (zlen s) ++ s) tt.
Proof.
  intros Hs buf. unfold write_string, fail_if. case_if; [blia|].
  unfold mbind, SE_bind, mret, SE_ret, write, modify. by rewrite app_assoc.
Qed.

Lemma write_string_too_long s buf :
  2 ^ 16 <= zlen s -> write_string s buf = (Err PacketParseError, buf).
Proof. intros Hs. unfold write_string, fail_if. by rewrite (proj2 (Z.leb_le _ _)). Qed.

Lemma reads_string s :
  zlen s < 2 ^ 16 -> utf8_valid s = true ->
  reads read_string (be_bytes 2 (zlen s) ++ s) s.
Proof.
  intros Hs Hu. apply reads_need.
  { rewrite length_app, be_bytes_length. lia. }
  eapply reads_bind; [apply (reads_u16 (zlen s) Big); unfold in_range; lia|].
  eapply reads_bind_last; [by apply reads_read|].
  rewrite Hu. simpl. eapply reads_bind_last; apply reads_ret.
Qed.

(** The bytes of an address. *)
Definition address_bytes (a : SocketAddr) : list Z :=
  match a with
  | V4 ip p => [4] ++ map (fun o => 0xff - o) (octets_v4 ip) ++ be_bytes 2 p
  | V6 o p _ _ =>
      [6] ++ le_bytes 2 23 ++ be_bytes 2 p ++ be_bytes 4 0 ++ o ++ be_bytes 4 0
  end.

Lemma writes_address a : writes (write_address a) (address_bytes a) tt.
Proof.
  destruct a as [[a b c d] p|o p fl sc]; intros buf; simpl;
    unfold write_u16, write_i16, write_i32, write_u8, write, modify, mbind, SE_bind,
      mret, SE_ret; simpl; by rewrite <- !app_assoc.
Qed.

Lemma reads_address a :
  SocketAddr_wf a -> reads read_address (address_bytes a) (wire_address a).
Proof.
  destruct a as [[a b c d] p|o p fl sc]; cbn [address_bytes wire_address SocketAddr_wf].
  - simpl. intros [Hoct Hp]. unfold octets_v4 in Hoct. simpl in Hoct.
    repeat match goal with H : Forall _ (_ :: _) |- _ => inv H end.
    assert (forall x, in_range 8 x -> in_range 8 (255 - x)) as Hsub
      by (unfold in_range; lia).
    apply reads_u8_bind; [done|]. simpl.
    apply reads_need; [done|].
    do 4 (apply reads_u8_bind; [by apply Hsub|]).
    eapply reads_bind_last; [by apply (reads_u16 p Big)|].
    assert (forall x, 255 - (255 - x) = x) as Hinv by lia. rewrite !Hinv.
    apply reads_ret.
  - intros [Ho Hp].
    eapply reads_bind; [by apply reads_u8|].
    eapply reads_bind; [by apply reads_skip|].
    eapply reads_bind; [by apply (reads_u16 p Big)|].
    eapply reads_bind; [by apply reads_skip|].
    eapply reads_bind; [by apply reads_read; rewrite Ho|].
    eapply reads_bind_last; [by apply reads_skip|]. apply reads_ret.
Qed.

Create HintDb wire.
#[export] Hint Resolve writes_u8 writes_u16 writes_u24 writes_u32 writes_i64 writes_u64
  writes_magic writes_address writes_write writes_ret : wire.
#[export] Hint Resolve reads_u8 reads_u16 reads_u24 reads_u32 reads_i64 reads_u64
  reads_magic reads_address reads_ret : wire.

(** Decompose a sequence of writes, or of reads of what was written. *)
Ltac wire_writes := repeat (eapply writes_bind; [solve [eauto with wire]|]); eauto with wire.
Ltac wire_reads := repeat (eapply reads_bind; [solve [eauto with wire]|]); eauto with wire.

(** ** What a successful read says about its input *)

Definition bytes_ok (r : RaknetReader) : Prop := Forall (in_range 8) (unread r).

(** [consumes n r r']: [r'] is [r] after [n] available bytes. *)
Definition consumes (n : Z) (r r' : RaknetReader) : Prop :=
  0 <= n <= remaining r /\ r' = advance n r.

Section Inversion.
Implicit Types (r : RaknetReader).

Lemma consumes_remaining n r r' : consumes n r r' -> remaining r' = remaining r - n.
Proof.
  intros [Hn ->]. unfold remaining, advance in *. simpl. rewrite length_drop. lia.
Qed.

Lemma consumes_position n r r' : consumes n r r' -> position r' = position r + n.
Proof. by intros [_ ->]. Qed.

Lemma consumes_bytes_ok n r r' : consumes n r r' -> bytes_ok r -> bytes_ok r'.
Proof. intros [_ ->] H. unfold bytes_ok. simpl. by apply Forall_drop. Qed.

Lemma consumes_trans n m r r1 r2 :
  consumes n r r1 -> consumes m r1 r2 -> consumes (n + m) r r2.
Proof.
  intros H1 H2. pose proof (consumes_remaining _ _ _ H1) as Hr.
  destruct H1 as [Hn ->], H2 as [Hm ->]. rewrite Hr in Hm. split; [lia|].
  unfold advance. simpl. rewrite drop_drop, <- Z2Nat.inj_add by lia.
  f_equal. lia.
Qed.

Lemma need_inv n r v r' : need n r = (Ok v, r') -> n <= remaining r /\ r' = r.
Proof.
  unfold need, fail_if. case_if; intros H; inversion H; subst. split; [blia|done].
Qed.

Lemma get_bytes_inv n r b r' :
  0 <= n <= remaining r -> get_bytes n r = (Ok b, r') ->
  consumes n r r' /\ b = take (Z.to_nat n) (unread r) /\ zlen b = n.
Proof.
  unfold get_bytes. intros Hn H. inversion H. subst. split; [done|]. split; [done|].
  unfold remaining in Hn. rewrite length_take. lia.
Qed.

Lemma read_slice_inv n r b r' :
  0 <= n -> read_slice n r = (Ok b, r') ->
  consumes n r r' /\ b = take (Z.to_nat n) (unread r) /\ zlen b = n.
Proof.
  intros Hn. unfold read_slice. case_if; [discriminate|]. case_if; [discriminate|].
  apply get_bytes_inv. blia.
Qed.

Lemma read_fixed_inv n (f : list Z -> Z) r v (r' : RaknetReader) :
  0 <= n ->
  (need n ≫= fun _ => get_bytes n ≫= fun b => mret (f b)) r = (Ok v, r') ->
  consumes n r r' /\ v = f (take (Z.to_nat n) (unread r)).
Proof.
  intros Hn H. apply SE_bind_inv in H as (u & r1 & [Hle ->]%need_inv & H).
  apply SE_bind_inv in H as (b & r2 & Hb & H). inversion H; subst.
  apply get_bytes_inv in Hb as (? & -> & _); [done|lia].
Qed.

Lemma of_bytes_range e l : Forall (in_range 8) l -> 0 <= of_bytes e l < 2 ^ (8 * zlen l).
Proof.
  intros Hl. destruct e; simpl; [unfold of_be; rewrite <- length_rev|]; apply of_le_range;
    [|done]. by apply Forall_rev.
Qed.

Lemma take_of_bytes_range n e r :
  bytes_ok r -> 0 <= n <= remaining r ->
  0 <= of_bytes e (take (Z.to_nat n) (unread r)) < 2 ^ (8 * n).
Proof.
  unfold bytes_ok, remaining. intros Hb Hn.
  pose proof (of_bytes_range e (take (Z.to_nat n) (unread r)) ltac:(by apply Forall_take)) as H.
  rewrite length_take in H. replace (Z.to_nat n `min` length (unread r))%nat with (Z.to_nat n) in H by lia.
  by rewrite Z2Nat.id in H by lia.
Qed.

Lemma read_u8_inv r v r' :
  read_u8 r = (Ok v, r') -> consumes 1 r r' /\ (bytes_ok r -> in_range 8 v).
Proof.
  intros [Hc ->]%(read_fixed_inv 1); [|lia]. split; [done|].
  intros Hb. apply (take_of_bytes_range 1 Little); [done|apply Hc].
Qed.

Lemma read_u16_inv e r v r' :
  read_u16 e r = (Ok v, r') -> consumes 2 r r' /\ (bytes_ok r -> in_range 16 v).
Proof.
  intros [Hc ->]%(read_fixed_inv 2 (of_bytes e)); [|lia]. split; [done|].
  intros Hb. apply (take_of_bytes_range 2); [done|apply Hc].
Qed.

Lemma read_u32_inv e r v r' :
  read_u32 e r = (Ok v, r') -> consumes 4 r r' /\ (bytes_ok r -> in_range 32 v).
Proof.
  intros [Hc ->]%(read_fixed_inv 4 (of_bytes e)); [|lia]. split; [done|].
  intros Hb. apply (take_of_bytes_range 4); [done|apply Hc].
Qed.

Lemma read_u24_inv e r v r' :
  read_u24 e r = (Ok v, r') -> consumes 3 r r' /\ (bytes_ok r -> in_range 24 v).
Proof.
  intros H. apply SE_bind_inv in H as (u & r1 & [Hle ->]%need_inv & H).
  destruct r as [[|a [|b [|c rest]]] p]; unfold remaining in Hle; simpl in Hle; try lia.
  set (r := mk (a :: b :: c :: rest) p) in *.
  assert (consumes 3 r (advance 1 (advance 1 (advance 1 r)))) as Hc.
  { split; [unfold remaining; simpl; lia|]. unfold advance. simpl. f_equal. lia. }
  destruct e; inversion H; subst; clear H;
    (split; [exact Hc|]);
    unfold bytes_ok, in_range; simpl; intros Hb;
    repeat match goal with H : Forall _ (_ :: _) |- _ => inv H end; unfold in_range in *;
    unfold of_be; simpl; lia.
Qed.
End Inversion.

(** ** Reading is injective

    [parsed r bs r']: the reader went from [r] to [r'] over the bytes [bs]. A fixed-width
    read went over the encoding of the value it returned. *)

Definition parsed (r : RaknetReader) (bs : list Z) (r' : RaknetReader) : Prop :=
  unread r = bs ++ unread r' /\ position r' = position r + zlen bs.

Section Parsed.
Implicit Types (r : RaknetReader) (e : Endian) (bs : list Z).

Lemma le_bytes_of_le l : Forall (in_range 8) l -> le_bytes (length l) (of_le l) = l.
Proof.
  unfold le_bytes. induction 1 as [|b l Hb Hl IH]; [done|]. cbn [length of_le].
  assert ((b + 2 ^ 8 * of_le l) / 2 ^ 8 = of_le l) as ->
    by (symmetry; apply Z.div_unique with b; unfold in_range in Hb; lia).
  f_equal; [|exact IH]. unfold wrap.
  symmetry. apply Z.mod_unique with (of_le l); unfold in_range in Hb; lia.
Qed.

Lemma to_bytes_of_bytes e l n :
  Forall (in_range 8) l -> length l = n -> to_bytes n e (of_bytes e l) = l.
Proof.
  intros Hl <-. destruct e; [|by apply le_bytes_of_le].
  unfold to_bytes, of_bytes, of_be, be_bytes.
  rewrite <- (length_rev l), le_bytes_of_le by (by apply Forall_rev). apply rev_involutive.
Qed.

Lemma parsed_nil r : parsed r [] r.
Proof. split; [done|]. simpl. lia. Qed.

Lemma parsed_trans r r1 r2 bs1 bs2 :
  parsed r bs1 r1 -> parsed r1 bs2 r2 -> parsed r (bs1 ++ bs2) r2.
Proof.
  intros [E1 P1] [E2 P2]. split; [by rewrite E1, E2, app_assoc|].
  rewrite P2, P1, length_app. lia.
Qed.

Lemma parsed_bytes_ok r bs r' : parsed r bs r' -> bytes_ok r -> bytes_ok r'.
Proof. intros [E _]. unfold bytes_ok. rewrite E. by intros [_ ?]%Forall_app. Qed.

Lemma consumes_parsed n r r' :
  consumes n r r' -> parsed r (take (Z.to_nat n) (unread r)) r'.
Proof.
  intros [Hn ->]. unfold remaining in Hn. split; simpl; [by rewrite take_drop|].
  rewrite length_take. lia.
Qed.

Lemma parsed_read_slice n r b r' :
  0 <= n -> read_slice n r = (Ok b, r') -> parsed r b r' /\ zlen b = n.
Proof.
  intros Hn (Hc & -> & Hl)%read_slice_inv; [|done]. by split; [apply consumes_parsed|].
Qed.

Lemma parsed_fixed n e r v r' :
  0 <= n -> bytes_ok r ->
  (need n ≫= fun _ => get_bytes n ≫= fun b => mret (of_bytes e b)) r = (Ok v, r') ->
  parsed r (to_bytes (Z.to_nat n) e v) r' /\ in_range (8 * n) v.
Proof.
  intros Hn Hr [Hc ->]%(read_fixed_inv n (of_bytes e)); [|done]. pose proof Hc as [Hrem _].
  split; [|apply take_of_bytes_range; [done|lia]].
  rewrite to_bytes_of_bytes; [by apply consumes_parsed|by apply Forall_take|].
  unfold remaining in Hrem. rewrite length_take. lia.
Qed.

Lemma parsed_u8 r v r' :
  bytes_ok r -> read_u8 r = (Ok v, r') -> parsed r [v] r' /\ in_range 8 v.
Proof.
  intros Hr H. pose proof (read_u8_inv _ _ _ H) as [_ Hv]. specialize (Hv Hr).
  apply (parsed_fixed 1 Little) in H as [Hp _]; [|lia|done].
  split; [|done]. change (to_bytes (Z.to_nat 1) Little v) with [wrap 8 v] in Hp.
  by rewrite wrap_small in Hp.
Qed.

Lemma parsed_u16 e r v r' :
  bytes_ok r -> read_u16 e r = (Ok v, r') -> parsed r (to_bytes 2 e v) r' /\ in_range 16 v.
Proof. intros Hr H. by apply (parsed_fixed 2) in H. Qed.

Lemma parsed_u32 e r v r' :
  bytes_ok r -> read_u32 e r = (Ok v, r') -> parsed r (to_bytes 4 e v) r' /\ in_range 32 v.
Proof. intros Hr H. by apply (parsed_fixed 4) in H. Qed.

Lemma parsed_u24 e r v r' :
  bytes_ok r -> read_u24 e r = (Ok v, r') -> parsed r (to_bytes 3 e v) r' /\ in_range 24 v.
Proof.
  intros Hr H. pose proof (read_u24_inv _ _ _ _ H) as [Hc Hv]. split; [|auto].
  apply SE_bind_inv in H as (u & r1 & [Hle ->]%need_inv & H).
  destruct r as [[|a [|b [|c rest]]] p]; unfold remaining in Hle; simpl in Hle; try lia.
  assert (v = of_bytes e [a; b; c]) as ->.
  { destruct e; inversion H; unfold of_bytes, of_be; simpl; lia. }
  rewrite to_bytes_of_bytes; [by apply consumes_parsed in Hc| |done].
  unfold bytes_ok in Hr. simpl in Hr. by apply (Forall_take _ 3) in Hr.
Qed.
End Parsed.
