(* ===== verification/Packet.v ===== *)
(** * Packets

    [src/src/packet.rs]: the packet identifiers, the packet structures, and the
    reader and writer of each. Writers start from an empty [RaknetWriter], readers
    from the start of the datagram. *)

From S2P Require Import Prelude Errors Datatype.
Import RaknetWriter RaknetReader.

Module PacketID.

Inductive PacketID : Set :=
  | ConnectedPing
  | UnconnectedPing1
  | UnconnectedPing2
  | ConnectedPong
  | UnconnectedPong
  | OpenConnectionRequest1
  | OpenConnectionReply1
  | OpenConnectionRequest2
  | OpenConnectionReply2
  | ConnectionRequest
  | ConnectionRequestAccepted
  | AlreadyConnected
  | NewIncomingConnection
  | Disconnect
  | IncompatibleProtocolVersion
  | FrameSetPacketBegin
  | FrameSetPacketEnd
  | Nack
  | Ack
  | Game.

#[export] Instance PacketID_eq_dec : EqDecision PacketID.
Proof. solve_decision. Defined.

Definition to_u8 (id : PacketID) : Z :=
  match id with
  | ConnectedPing => 0x00
  | UnconnectedPing1 => 0x01
  | UnconnectedPing2 => 0x02
  | ConnectedPong => 0x03
  | UnconnectedPong => 0x1c
  | OpenConnectionRequest1 => 0x05
  | OpenConnectionReply1 => 0x06
  | OpenConnectionRequest2 => 0x07
  | OpenConnectionReply2 => 0x08
  | ConnectionRequest => 0x09
  | ConnectionRequestAccepted => 0x10
  | AlreadyConnected => 0x12
  | NewIncomingConnection => 0x13
  | Disconnect => 0x15
  | IncompatibleProtocolVersion => 0x19
  | FrameSetPacketBegin => 0x80
  | FrameSetPacketEnd => 0x8d
  | Nack => 0xa0
  | Ack => 0xc0
  | Game => 0xfe
  end.

Definition try_from (id : Z) : Result PacketID :=
  if (0x80 <=? id) && (id <=? 0x8d) then Ok FrameSetPacketBegin
  else match id with
  | 0x00 => Ok ConnectedPing
  | 0x01 => Ok UnconnectedPing1
  | 0x02 => Ok UnconnectedPing2
  | 0x03 => Ok ConnectedPong
  | 0x1c => Ok UnconnectedPong
  | 0x05 => Ok OpenConnectionRequest1
  | 0x06 => Ok OpenConnectionReply1
  | 0x07 => Ok OpenConnectionRequest2
  | 0x08 => Ok OpenConnectionReply2
  | 0x09 => Ok ConnectionRequest
  | 0x10 => Ok ConnectionRequestAccepted
  | 0x12 => Ok AlreadyConnected
  | 0x13 => Ok NewIncomingConnection
  | 0x15 => Ok Disconnect
  | 0x19 => Ok IncompatibleProtocolVersion
  | 0x80 => Ok FrameSetPacketBegin
  | 0x8d => Ok FrameSetPacketEnd
  | 0xa0 => Ok Nack
  | 0xc0 => Ok Ack
  | 0xfe => Ok Game
  | _ => Err IncorrectPacketID
  end.

(** [PacketID::from]. *)
Definition from (id : Z) : Result PacketID := try_from id.

End PacketID.

(** ** Structures *)

Record ConnectedPing := mk_ConnectedPing { ping_client_timestamp : Z }.
Record PacketUnconnectedPing := mk_PacketUnconnectedPing { uping_time : Z; uping_guid : Z }.
Record PacketUnconnectedPong := mk_PacketUnconnectedPong {
  upong_time : Z; upong_guid : Z; upong_motd : list Z }.
Record ConnectedPong := mk_ConnectedPong {
  pong_client_timestamp : Z; pong_server_timestamp : Z }.
Record OpenConnectionRequest1 := mk_OpenConnectionRequest1 {
  req1_protocol_version : Z; req1_mtu_size : Z }.
Record OpenConnectionRequest2 := mk_OpenConnectionRequest2 {
  req2_address : SocketAddr; req2_mtu : Z; req2_guid : Z }.
Record OpenConnectionReply1 := mk_OpenConnectionReply1 {
  rep1_guid : Z; rep1_use_encryption : Z; rep1_mtu_size : Z }.
Record OpenConnectionReply2 := mk_OpenConnectionReply2 {
  rep2_guid : Z; rep2_address : SocketAddr; rep2_mtu : Z; rep2_encryption_enabled : Z }.
Record ConnectionRequest := mk_ConnectionRequest {
  creq_guid : Z; creq_time : Z; creq_use_encryption : Z }.
Record ConnectionRequestAccepted := mk_ConnectionRequestAccepted {
  acc_client_address : SocketAddr; acc_system_index : Z;
  acc_request_timestamp : Z; acc_accepted_timestamp : Z }.
Record NewIncomingConnection := mk_NewIncomingConnection {
  nic_server_address : SocketAddr; nic_request_timestamp : Z; nic_accepted_timestamp : Z }.
Record IncompatibleProtocolVersion := mk_IncompatibleProtocolVersion {
  ipv_server_protocol : Z; ipv_server_guid : Z }.
Record AlreadyConnected := mk_AlreadyConnected { ac_guid : Z }.
Record Nack := mk_Nack { nack_record_count : Z; nack_sequences : list (Z * Z) }.
Record Ack := mk_Ack { ack_record_count : Z; ack_sequences : list (Z * Z) }.

(** ** Readers and writers *)

Definition run_writer (w : Writer unit) : Result (list Z) :=
  match w RaknetWriter.new with
  | (Ok _, buf) => Ok (get_raw_payload buf)
  | (Err e, _) => Err e
  end.

Definition run_reader {A} (buf : list Z) (m : Reader A) : Result A :=
  (m (RaknetReader.new buf)).1.

(** packet.rs's own [read_magic]: a wrong magic is an error. *)
Definition read_magic : Reader unit :=
  b ← RaknetReader.read_magic;
  if (b : bool) then mret tt else throw PacketHeaderError.

Definition read_packet_ping (buf : list Z) : Result PacketUnconnectedPing :=
  run_reader buf (
    _ ← read_u8;
    time ← read_i64 Big;
    _ ← read_magic;
    guid ← read_u64 Big;
    mret (mk_PacketUnconnectedPing time guid)).

Definition write_packet_ping (packet : PacketUnconnectedPing) : Result (list Z) :=
  run_writer (
    _ ← write_u8 (PacketID.to_u8 PacketID.UnconnectedPing1);
    _ ← write_i64 (uping_time packet) Big;
    _ ← write_magic;
    write_u64 (uping_guid packet) Big).

Definition read_packet_pong (buf : list Z) : Result PacketUnconnectedPong :=
  run_reader buf (
    _ ← read_u8;
    time ← read_i64 Big;
    guid ← read_u64 Big;
    _ ← read_magic;
    motd ← read_string;
    mret (mk_PacketUnconnectedPong time guid motd)).

Definition write_packet_pong (packet : PacketUnconnectedPong) : Result (list Z) :=
  run_writer (
    _ ← write_u8 (PacketID.to_u8 PacketID.UnconnectedPong);
    _ ← write_i64 (upong_time packet) Big;
    _ ← write_u64 (upong_guid packet) Big;
    _ ← write_magic;
    write_string (upong_motd packet)).

(** The reported MTU includes the IPv4 and UDP headers; it must fit a [u16]. *)
Definition read_packet_connection_open_request_1 (buf : list Z) : Result OpenConnectionRequest1 :=
  run_reader buf (
    _ ← read_u8;
    _ ← read_magic;
    protocol_version ← read_u8;
    _ ← fail_if (2 ^ 16 <=? zlen buf + 28) PacketSizeExceedMTU;
    mret (mk_OpenConnectionRequest1 protocol_version (zlen buf + 28))).

Definition write_packet_connection_open_request_1
    (packet : OpenConnectionRequest1) : Result (list Z) :=
  run_writer (
    _ ← write_u8 (PacketID.to_u8 PacketID.OpenConnectionRequest1);
    _ ← write_magic;
    _ ← write_u8 (req1_protocol_version packet);
    _ ← fail_if (req1_mtu_size packet <? 46) PacketSizeExceedMTU;
    write (repeat 0 (Z.to_nat (req1_mtu_size packet - 46)))).

Definition read_packet_connection_open_request_2 (buf : list Z) : Result OpenConnectionRequest2 :=
  run_reader buf (
    _ ← read_u8;
    _ ← read_magic;
    address ← read_address;
    mtu ← read_u16 Big;
    guid ← read_u64 Big;
    mret (mk_OpenConnectionRequest2 address mtu guid)).

Definition write_packet_connection_open_request_2
    (packet : OpenConnectionRequest2) : Result (list Z) :=
  run_writer (
    _ ← write_u8 (PacketID.to_u8 PacketID.OpenConnectionRequest2);
    _ ← write_magic;
    _ ← write_address (req2_address packet);
    _ ← write_u16 (req2_mtu packet) Big;
    write_u64 (req2_guid packet) Big).

Definition read_packet_connection_open_reply_1 (buf : list Z) : Result OpenConnectionReply1 :=
  run_reader buf (
    _ ← read_u8;
    _ ← read_magic;
    guid ← read_u64 Big;
    use_encryption ← read_u8;
    mtu_size ← read_u16 Big;
    mret (mk_OpenConnectionReply1 guid use_encryption mtu_size)).

Definition write_packet_connection_open_reply_1
    (packet : OpenConnectionReply1) : Result (list Z) :=
  run_writer (
    _ ← write_u8 (PacketID.to_u8 PacketID.OpenConnectionReply1);
    _ ← write_magic;
    _ ← write_u64 (rep1_guid packet) Big;
    _ ← write_u8 (rep1_use_encryption packet);
    write_u16 (rep1_mtu_size packet) Big).

Definition read_packet_connection_open_reply_2 (buf : list Z) : Result OpenConnectionReply2 :=
  run_reader buf (
    _ ← read_u8;
    _ ← read_magic;
    guid ← read_u64 Big;
    address ← read_address;
    mtu ← read_u16 Big;
    encryption_enabled ← read_u8;
    mret (mk_OpenConnectionReply2 guid address mtu encryption_enabled)).

Definition write_packet_connection_open_reply_2
    (packet : OpenConnectionReply2) : Result (list Z) :=
  run_writer (
    _ ← write_u8 (PacketID.to_u8 PacketID.OpenConnectionReply2);
    _ ← write_magic;
    _ ← write_u64 (rep2_guid packet) Big;
    _ ← write_address (rep2_address packet);
    _ ← write_u16 (rep2_mtu packet) Big;
    write_u8 (rep2_encryption_enabled packet)).

Definition _read_packet_already_connected (buf : list Z) : Result AlreadyConnected :=
  run_reader buf (
    _ ← read_u8;
    _ ← read_magic;
    guid ← read_u64 Big;
    mret (mk_AlreadyConnected guid)).

Definition write_packet_already_connected (packet : AlreadyConnected) : Result (list Z) :=
  run_writer (
    _ ← write_u8 (PacketID.to_u8 PacketID.AlreadyConnected);
    _ ← write_magic;
    write_u64 (ac_guid packet) Big).

Definition read_packet_incompatible_protocol_version
    (buf : list Z) : Result IncompatibleProtocolVersion :=
  run_reader buf (
    _ ← read_u8;
    _ ← read_magic;
    server_protocol ← read_u8;
    server_guid ← read_u64 Big;
    mret (mk_IncompatibleProtocolVersion server_protocol server_guid)).

Definition write_packet_incompatible_protocol_version
    (packet : IncompatibleProtocolVersion) : Result (list Z) :=
  run_writer (
    _ ← write_u8 (PacketID.to_u8 PacketID.IncompatibleProtocolVersion);
    _ ← write_u8 (ipv_server_protocol packet);
    _ ← write_magic;
    write_u64 (ipv_server_guid packet) Big).

(** ** Acknowledgement records *)

(** The body of the loop of [read_sequence_records]. *)
Definition read_sequence_record : Reader (Z * Z) :=
  is_single ← read_u8;
  _ ← fail_if (1 <? is_single) PacketParseError;
  start ← read_u24 Little;
  end_ ← (if is_single =? 1 then mret start else read_u24 Little);
  _ ← fail_if (end_ <? start) PacketParseError;
  mret (start, end_).

(** [for _ in 0..record_count] *)
Fixpoint read_records_loop (record_count : nat) (sequences : list (Z * Z)) : Reader (list (Z * Z)) :=
  match record_count with
  | O => mret sequences
  | S record_count =>
      record ← read_sequence_record;
      read_records_loop record_count (sequences ++ [record])
  end.

(** Every record needs at least its tag and one u24: the count is checked first. *)
Definition read_sequence_records (record_count : Z) : Reader (list (Z * Z)) :=
  cursor ← get;
  _ ← fail_if (remaining cursor / 4 <? record_count) PacketParseError;
  read_records_loop (Z.to_nat record_count) [].

Definition write_sequence_records (sequences : list (Z * Z)) : Writer unit :=
  for_each (fun '(start, end_) =>
    let is_single := if start =? end_ then 1 else 0 in
    _ ← write_u8 is_single;
    _ ← write_u24 start Little;
    if is_single =? 0 then write_u24 end_ Little else mret tt) sequences.

(** The buffer [output] is cleared first, unless the count does not fit. *)
Definition write_control_ranges_into (kind : PacketID.PacketID) (sequences : list (Z * Z))
    : Writer unit :=
  _ ← fail_if (2 ^ 16 <=? zlen sequences) PacketParseError;
  _ ← put [];
  _ ← write_u8 (PacketID.to_u8 kind);
  _ ← write_u16 (zlen sequences) Big;
  write_sequence_records sequences.

Definition read_packet_nack (buf : list Z) : Result Nack :=
  run_reader buf (
    _ ← read_u8;
    record_count ← read_u16 Big;
    sequences ← read_sequence_records record_count;
    mret (mk_Nack record_count sequences)).

Definition write_packet_nack (packet : Nack) : Result (list Z) :=
  run_writer (
    _ ← fail_if (negb (nack_record_count packet =? zlen (nack_sequences packet)))
          PacketParseError;
    _ ← write_u8 (PacketID.to_u8 PacketID.Nack);
    _ ← write_u16 (nack_record_count packet) Big;
    write_sequence_records (nack_sequences packet)).

Definition read_packet_ack (buf : list Z) : Result Ack :=
  run_reader buf (
    _ ← read_u8;
    record_count ← read_u16 Big;
    sequences ← read_sequence_records record_count;
    mret (mk_Ack record_count sequences)).

Definition write_packet_ack (packet : Ack) : Result (list Z) :=
  run_writer (
    _ ← fail_if (negb (ack_record_count packet =? zlen (ack_sequences packet)))
          PacketParseError;
    _ ← write_u8 (PacketID.to_u8 PacketID.Ack);
    _ ← write_u16 (ack_record_count packet) Big;
    write_sequence_records (ack_sequences packet)).

(** ** Connected handshake *)

Definition read_packet_connection_request (buf : list Z) : Result ConnectionRequest :=
  run_reader buf (
    _ ← read_u8;
    guid ← read_u64 Big;
    time ← read_i64 Big;
    use_encryption ← read_u8;
    mret (mk_ConnectionRequest guid time use_encryption)).

Definition write_packet_connection_request (packet : ConnectionRequest) : Result (list Z) :=
  run_writer (
    _ ← write_u8 (PacketID.to_u8 PacketID.ConnectionRequest);
    _ ← write_u64 (creq_guid packet) Big;
    _ ← write_i64 (creq_time packet) Big;
    write_u8 (creq_use_encryption packet)).

(** [while cursor.remaining() > 16 && count < 20]: at most twenty iterations. *)
Fixpoint read_internal_loop (budget : nat) : Reader unit :=
  match budget with
  | O => mret tt
  | S budget =>
      cursor ← get;
      if 16 <? remaining cursor
      then _ ← read_address; read_internal_loop budget
      else mret tt
  end.

Definition read_internal_addresses : Reader unit :=
  _ ← read_internal_loop 20;
  cursor ← get;
  fail_if (negb (remaining cursor =? 16)) PacketParseError.

Definition read_packet_connection_request_accepted
    (buf : list Z) : Result ConnectionRequestAccepted :=
  run_reader buf (
    _ ← read_u8;
    client_address ← read_address;
    system_index ← read_u16 Big;
    _ ← read_internal_addresses;
    request_timestamp ← read_i64 Big;
    accepted_timestamp ← read_i64 Big;
    mret (mk_ConnectionRequestAccepted client_address system_index
            request_timestamp accepted_timestamp)).

(** [for _ in 0..10 { cursor.write_address(tmp_address)?; }] *)
Definition write_internal_addresses (tmp_address : SocketAddr) : Writer unit :=
  for_each (fun _ => write_address tmp_address) (seq 0 10).

Definition write_packet_connection_request_accepted
    (packet : ConnectionRequestAccepted) : Result (list Z) :=
  run_writer (
    _ ← write_u8 (PacketID.to_u8 PacketID.ConnectionRequestAccepted);
    _ ← write_address (acc_client_address packet);
    _ ← write_u16 (acc_system_index packet) Big;
    let tmp_address := V4 (mk_ipv4 255 255 255 255) 19132 in
    _ ← write_internal_addresses tmp_address;
    _ ← write_i64 (acc_request_timestamp packet) Big;
    write_i64 (acc_accepted_timestamp packet) Big).

Definition read_packet_new_incomming_connection (buf : list Z) : Result NewIncomingConnection :=
  run_reader buf (
    _ ← read_u8;
    server_address ← read_address;
    _ ← read_internal_addresses;
    request_timestamp ← read_i64 Big;
    accepted_timestamp ← read_i64 Big;
    mret (mk_NewIncomingConnection server_address request_timestamp accepted_timestamp)).

Definition write_packet_new_incomming_connection
    (packet : NewIncomingConnection) : Result (list Z) :=
  run_writer (
    _ ← write_u8 (PacketID.to_u8 PacketID.NewIncomingConnection);
    _ ← write_address (nic_server_address packet);
    let tmp_address := V4 (mk_ipv4 0 0 0 0) 0 in
    _ ← write_internal_addresses tmp_address;
    _ ← write_i64 (nic_request_timestamp packet) Big;
    write_i64 (nic_accepted_timestamp packet) Big).

Definition read_packet_connected_ping (buf : list Z) : Result ConnectedPing :=
  run_reader buf (
    _ ← read_u8;
    client_timestamp ← read_i64 Big;
    mret (mk_ConnectedPing client_timestamp)).

Definition write_packet_connected_ping (packet : ConnectedPing) : Result (list Z) :=
  run_writer (
    _ ← write_u8 (PacketID.to_u8 PacketID.ConnectedPing);
    write_i64 (ping_client_timestamp packet) Big).

Definition _read_packet_connected_pong (buf : list Z) : Result ConnectedPong :=
  run_reader buf (
    _ ← read_u8;
    client_timestamp ← read_i64 Big;
    server_timestamp ← read_i64 Big;
    mret (mk_ConnectedPong client_timestamp server_timestamp)).

Definition write_packet_connected_pong (packet : ConnectedPong) : Result (list Z) :=
  run_writer (
    _ ← write_u8 (PacketID.to_u8 PacketID.ConnectedPong);
    _ ← write_i64 (pong_client_timestamp packet) Big;
    write_i64 (pong_server_timestamp packet) Big).
