(* ===== verification/PacketCodec.v ===== *)
(** * Packet codecs

    Round trips of the packets of [Packet.v]: what a peer decodes from an encoded
    packet is that packet. *)

From S2P Require Import Prelude Errors Datatype Packet.
Import RaknetWriter RaknetReader.

(** ** From the wire logic to whole packets *)

Lemma run_writes w bs : writes w bs tt -> run_writer w = Ok bs.
Proof. intros H. unfold run_writer. by rewrite H. Qed.

Lemma run_reads {A} (m : Reader A) bs rest a :
  reads m bs a -> zlen (bs ++ rest) < 2 ^ 64 -> run_reader (bs ++ rest) m = Ok a.
Proof. intros H Hlen. unfold run_reader, RaknetReader.new. by rewrite H by lia. Qed.

(** [reads_all m bs a]: on exactly the input [bs] the reader returns [a]. *)
Definition reads_all {A} (m : Reader A) (bs : list Z) (a : A) : Prop :=
  forall p, 0 <= p -> p + zlen bs < 2 ^ 64 -> (m (mk bs p)).1 = Ok a.

Lemma reads_reads_all {A} (m : Reader A) bs a : reads m bs a -> reads_all m bs a.
Proof.
  intros H p Hp Hlen. specialize (H [] p). rewrite app_nil_r in H. by rewrite H.
Qed.

Lemma reads_all_bind {A B} (m : Reader A) (k : A -> Reader B) bs1 bs2 a b :
  reads m bs1 a -> reads_all (k a) bs2 b -> reads_all (m ≫= k) (bs1 ++ bs2) b.
Proof.
  intros H1 H2 p Hp Hlen. erewrite SE_bind_ok by (by apply H1).
  apply H2; [lia|]. rewrite length_app in Hlen. lia.
Qed.

Lemma run_reads_all {A} (m : Reader A) bs a :
  reads_all m bs a -> zlen bs < 2 ^ 64 -> run_reader bs m = Ok a.
Proof. intros H Hlen. apply H; lia. Qed.

Lemma reads_checked_magic : reads Packet.read_magic magic tt.
Proof. eapply reads_bind_last; [apply reads_magic|]. apply reads_ret. Qed.

Lemma write_magic_writes {A} (k : Z -> Writer A) bs a :
  writes (k 16) bs a -> writes (write_magic ≫= k) (magic ++ bs) a.
Proof. intros H. eapply writes_bind; [apply writes_magic|done]. Qed.

#[export] Hint Resolve reads_checked_magic : wire.

Lemma address_bytes_bounds a :
  SocketAddr_wf a -> 7 <= zlen (address_bytes a) <= 29.
Proof.
  destruct a as [ip p|o p fl sc]; simpl; [intros _|intros [Ho _]];
    rewrite ?length_app, ?be_bytes_length, ?Ho; simpl; lia.
Qed.

(** ** Internal addresses *)

Lemma writes_internal_addresses a :
  writes (write_internal_addresses a) (concat (replicate 10 (address_bytes a))) tt.
Proof.
  unfold write_internal_addresses. change 10%nat with (length (seq 0 10)) at 2.
  induction (seq 0 10) as [|i l IH]; [apply writes_ret|].
  simpl. eapply writes_bind; [apply writes_address|done].
Qed.

Lemma read_internal_loop_spec a k budget tail p :
  SocketAddr_wf a -> (k <= budget)%nat -> length tail = 16%nat ->
  0 <= p -> p + zlen (concat (replicate k (address_bytes a)) ++ tail) < 2 ^ 64 ->
  read_internal_loop budget (mk (concat (replicate k (address_bytes a)) ++ tail) p)
  = (Ok tt, mk tail (p + zlen (concat (replicate k (address_bytes a))))).
Proof.
  intros Hwf Hk Htail. pose proof (address_bytes_bounds a Hwf) as Hb.
  revert budget Hk p. induction k as [|k IH]; intros budget Hk p Hp Hlen; simpl in *.
  - rewrite Z.add_0_r. destruct budget as [|budget]; [done|]. simpl.
    unfold mbind, SE_bind, get, remaining. simpl. by rewrite Htail.
  - destruct budget as [|budget]; [lia|]. simpl.
    unfold get at 1. unfold mbind at 1, SE_bind at 1. unfold remaining. simpl.
    rewrite <- app_assoc in *. rewrite !length_app in *. case_if; [|blia].
    erewrite SE_bind_ok by (apply reads_address; [done..|rewrite !length_app; lia]).
    rewrite IH by lia. do 2 f_equal. lia.
Qed.

Lemma reads_all_internal {B} a (k : unit -> Reader B) tail b :
  SocketAddr_wf a -> length tail = 16%nat -> reads_all (k tt) tail b ->
  reads_all (read_internal_addresses ≫= k)
    (concat (replicate 10 (address_bytes a)) ++ tail) b.
Proof.
  intros Hwf Htail Hk p Hp Hlen. rewrite !length_app in Hlen.
  assert (read_internal_addresses (mk (concat (replicate 10 (address_bytes a)) ++ tail) p)
    = (Ok tt, mk tail (p + zlen (concat (replicate 10 (address_bytes a)))))) as E.
  { unfold read_internal_addresses. erewrite SE_bind_ok
      by (apply read_internal_loop_spec; [done|lia|done|done|rewrite !length_app; lia]).
    unfold mbind, SE_bind, get, remaining. simpl. by rewrite Htail. }
  erewrite SE_bind_ok by exact E. apply Hk; lia.
Qed.

(** ** Messages

    The packets that have both a reader and a writer and carry a fixed structure. *)

Inductive Message :=
  | MUnconnectedPing (p : PacketUnconnectedPing)
  | MUnconnectedPong (p : PacketUnconnectedPong)
  | MOpenConnectionRequest1 (p : OpenConnectionRequest1)
  | MOpenConnectionReply1 (p : OpenConnectionReply1)
  | MOpenConnectionRequest2 (p : OpenConnectionRequest2)
  | MOpenConnectionReply2 (p : OpenConnectionReply2)
  | MAlreadyConnected (p : AlreadyConnected)
  | MConnectionRequest (p : ConnectionRequest)
  | MConnectionRequestAccepted (p : ConnectionRequestAccepted)
  | MNewIncomingConnection (p : NewIncomingConnection)
  | MConnectedPing (p : ConnectedPing)
  | MConnectedPong (p : ConnectedPong)
  | MIncompatibleProtocolVersion (p : IncompatibleProtocolVersion).

Definition kind (m : Message) : PacketID.PacketID :=
  match m with
  | MUnconnectedPing _ => PacketID.UnconnectedPing1
  | MUnconnectedPong _ => PacketID.UnconnectedPong
  | MOpenConnectionRequest1 _ => PacketID.OpenConnectionRequest1
  | MOpenConnectionReply1 _ => PacketID.OpenConnectionReply1
  | MOpenConnectionRequest2 _ => PacketID.OpenConnectionRequest2
  | MOpenConnectionReply2 _ => PacketID.OpenConnectionReply2
  | MAlreadyConnected _ => PacketID.AlreadyConnected
  | MConnectionRequest _ => PacketID.ConnectionRequest
  | MConnectionRequestAccepted _ => PacketID.ConnectionRequestAccepted
  | MNewIncomingConnection _ => PacketID.NewIncomingConnection
  | MConnectedPing _ => PacketID.ConnectedPing
  | MConnectedPong _ => PacketID.ConnectedPong
  | MIncompatibleProtocolVersion _ => PacketID.IncompatibleProtocolVersion
  end.

Definition write_message (m : Message) : Result (list Z) :=
  match m with
  | MUnconnectedPing p => write_packet_ping p
  | MUnconnectedPong p => write_packet_pong p
  | MOpenConnectionRequest1 p => write_packet_connection_open_request_1 p
  | MOpenConnectionReply1 p => write_packet_connection_open_reply_1 p
  | MOpenConnectionRequest2 p => write_packet_connection_open_request_2 p
  | MOpenConnectionReply2 p => write_packet_connection_open_reply_2 p
  | MAlreadyConnected p => write_packet_already_connected p
  | MConnectionRequest p => write_packet_connection_request p
  | MConnectionRequestAccepted p => write_packet_connection_request_accepted p
  | MNewIncomingConnection p => write_packet_new_incomming_connection p
  | MConnectedPing p => write_packet_connected_ping p
  | MConnectedPong p => write_packet_connected_pong p
  | MIncompatibleProtocolVersion p => write_packet_incompatible_protocol_version p
  end.

(** The reader a peer runs on a datagram of this kind. *)
Definition read_message (id : PacketID.PacketID) (buf : list Z) : Result Message :=
  match id with
  | PacketID.UnconnectedPing1 => p ← read_packet_ping buf; Ok (MUnconnectedPing p)
  | PacketID.UnconnectedPong => p ← read_packet_pong buf; Ok (MUnconnectedPong p)
  | PacketID.OpenConnectionRequest1 =>
      p ← read_packet_connection_open_request_1 buf; Ok (MOpenConnectionRequest1 p)
  | PacketID.OpenConnectionReply1 =>
      p ← read_packet_connection_open_reply_1 buf; Ok (MOpenConnectionReply1 p)
  | PacketID.OpenConnectionRequest2 =>
      p ← read_packet_connection_open_request_2 buf; Ok (MOpenConnectionRequest2 p)
  | PacketID.OpenConnectionReply2 =>
      p ← read_packet_connection_open_reply_2 buf; Ok (MOpenConnectionReply2 p)
  | PacketID.AlreadyConnected => p ← _read_packet_already_connected buf; Ok (MAlreadyConnected p)
  | PacketID.ConnectionRequest => p ← read_packet_connection_request buf; Ok (MConnectionRequest p)
  | PacketID.ConnectionRequestAccepted =>
      p ← read_packet_connection_request_accepted buf; Ok (MConnectionRequestAccepted p)
  | PacketID.NewIncomingConnection =>
      p ← read_packet_new_incomming_connection buf; Ok (MNewIncomingConnection p)
  | PacketID.ConnectedPing => p ← read_packet_connected_ping buf; Ok (MConnectedPing p)
  | PacketID.ConnectedPong => p ← _read_packet_connected_pong buf; Ok (MConnectedPong p)
  | PacketID.IncompatibleProtocolVersion =>
      p ← read_packet_incompatible_protocol_version buf; Ok (MIncompatibleProtocolVersion p)
  | _ => Err IncorrectPacketID
  end.

(** Fields within their Rust types; the strings and sizes the wire can carry. *)
Definition Message_wf (m : Message) : Prop :=
  match m with
  | MUnconnectedPing p => in_range_signed 64 (uping_time p) /\ in_range 64 (uping_guid p)
  | MUnconnectedPong p =>
      in_range_signed 64 (upong_time p) /\ in_range 64 (upong_guid p) /\
      utf8_valid (upong_motd p) = true /\ zlen (upong_motd p) < 2 ^ 16
  | MOpenConnectionRequest1 p =>
      in_range 8 (req1_protocol_version p) /\ 46 <= req1_mtu_size p < 2 ^ 16
  | MOpenConnectionReply1 p =>
      in_range 64 (rep1_guid p) /\ in_range 8 (rep1_use_encryption p) /\
      in_range 16 (rep1_mtu_size p)
  | MOpenConnectionRequest2 p =>
      SocketAddr_wf (req2_address p) /\ in_range 16 (req2_mtu p) /\ in_range 64 (req2_guid p)
  | MOpenConnectionReply2 p =>
      in_range 64 (rep2_guid p) /\ SocketAddr_wf (rep2_address p) /\
      in_range 16 (rep2_mtu p) /\ in_range 8 (rep2_encryption_enabled p)
  | MAlreadyConnected p => in_range 64 (ac_guid p)
  | MConnectionRequest p =>
      in_range 64 (creq_guid p) /\ in_range_signed 64 (creq_time p) /\
      in_range 8 (creq_use_encryption p)
  | MConnectionRequestAccepted p =>
      SocketAddr_wf (acc_client_address p) /\ in_range 16 (acc_system_index p) /\
      in_range_signed 64 (acc_request_timestamp p) /\
      in_range_signed 64 (acc_accepted_timestamp p)
  | MNewIncomingConnection p =>
      SocketAddr_wf (nic_server_address p) /\
      in_range_signed 64 (nic_request_timestamp p) /\
      in_range_signed 64 (nic_accepted_timestamp p)
  | MConnectedPing p => in_range_signed 64 (ping_client_timestamp p)
  | MConnectedPong p =>
      in_range_signed 64 (pong_client_timestamp p) /\
      in_range_signed 64 (pong_server_timestamp p)
  | MIncompatibleProtocolVersion p => in_range 8 (ipv_server_protocol p) /\ in_range 64 (ipv_server_guid p)
  end.

(** What arrives: the message, with the IPv6 flow label and scope erased. *)
Definition carried (m : Message) : Message :=
  match m with
  | MOpenConnectionRequest2 p => MOpenConnectionRequest2
      (mk_OpenConnectionRequest2 (wire_address (req2_address p)) (req2_mtu p) (req2_guid p))
  | MOpenConnectionReply2 p => MOpenConnectionReply2
      (mk_OpenConnectionReply2 (rep2_guid p) (wire_address (rep2_address p)) (rep2_mtu p)
         (rep2_encryption_enabled p))
  | MConnectionRequestAccepted p => MConnectionRequestAccepted
      (mk_ConnectionRequestAccepted (wire_address (acc_client_address p)) (acc_system_index p)
         (acc_request_timestamp p) (acc_accepted_timestamp p))
  | MNewIncomingConnection p => MNewIncomingConnection
      (mk_NewIncomingConnection (wire_address (nic_server_address p))
         (nic_request_timestamp p) (nic_accepted_timestamp p))
  | m => m
  end.

(** What the reader makes of it. The reader of [IncompatibleProtocolVersion] looks for the
    magic where the writer puts the version. *)
Definition arrives (m : Message) : Result Message :=
  match m with
  | MIncompatibleProtocolVersion _ => Err PacketHeaderError
  | m => Ok (carried m)
  end.

(** The writer succeeds with a datagram that starts with its identifier and from
    which the reader obtains [a]. *)
Definition codec {A} (encoded : Result (list Z)) (decode : list Z -> Result A)
    (a : A) (id : Z) : Prop :=
  exists bs, encoded = Ok bs /\ head bs = Some id /\ decode bs = Ok a.

Lemma codec_intro {A} w (m : Reader A) bs a id :
  writes w bs tt -> reads_all m bs a -> zlen bs < 2 ^ 64 -> head bs = Some id ->
  codec (run_writer w) (fun buf => run_reader buf m) a id.
Proof.
  intros Hw Hr Hlen Hid. exists bs. split; [by apply run_writes|].
  split; [done|]. by apply run_reads_all.
Qed.

Lemma to_u8_range id : in_range 8 (PacketID.to_u8 id).
Proof. destruct id; unfold in_range; simpl; lia. Qed.
#[export] Hint Resolve to_u8_range : wire.

(** The length of a datagram whose parts have known lengths. *)
Ltac wire_length :=
  repeat match goal with
  | H : SocketAddr_wf _ |- _ => apply address_bytes_bounds in H
  end;
  rewrite ?length_app, ?to_bytes_length, ?be_bytes_length; simpl;
  rewrite ?length_app, ?to_bytes_length, ?be_bytes_length; simpl; lia.

Ltac wire_reads_to_end :=
  wire_reads; try (eapply reads_bind_last; [solve [eauto with wire]|]); apply reads_ret.

(** A packet whose fields follow each other at fixed widths. *)
Ltac codec_fixed :=
  eapply codec_intro;
  [ solve [wire_writes]
  | apply reads_reads_all; solve [wire_reads_to_end]
  | solve [wire_length]
  | reflexivity ].

Section Codecs.

Lemma codec_unconnected_ping p :
  Message_wf (MUnconnectedPing p) -> codec (write_packet_ping p) read_packet_ping p 0x01.
Proof. destruct p. simpl. intros [? ?]. codec_fixed. Qed.

Lemma codec_unconnected_pong p :
  Message_wf (MUnconnectedPong p) -> codec (write_packet_pong p) read_packet_pong p 0x1c.
Proof.
  destruct p as [t g motd]. simpl. intros (? & ? & Hu & Hl).
  eapply codec_intro.
  - repeat (eapply writes_bind; [solve [eauto with wire]|]). by apply writes_string.
  - apply reads_reads_all. wire_reads.
    eapply reads_bind_last; [by apply reads_string|]. apply reads_ret.
  - wire_length.
  - reflexivity.
Qed.

Lemma codec_open_connection_request_1 p :
  Message_wf (MOpenConnectionRequest1 p) ->
  codec (write_packet_connection_open_request_1 p) read_packet_connection_open_request_1 p 0x05.
Proof.
  destruct p as [v mtu]. simpl. intros [Hv Hm].
  exists (([0x05] ++ magic ++ [v]) ++ repeat 0 (Z.to_nat (mtu - 46))).
  split; [|split; [done|]].
  - apply run_writes. rewrite <- !app_assoc.
    repeat (eapply writes_bind; [solve [eauto with wire]|]). simpl.
    unfold fail_if. case_if; [blia|]. apply (writes_bind _ _ [] _ tt); [apply writes_ret|apply writes_write].
  - unfold read_packet_connection_open_request_1.
    assert (zlen (([0x05] ++ magic ++ [v]) ++ repeat 0 (Z.to_nat (mtu - 46))) + 28 = mtu) as ->
      by (rewrite length_app, repeat_length; simpl; lia).
    apply run_reads.
    + eapply reads_bind; [by apply reads_u8|]. wire_reads.
      eapply reads_bind_last; [by apply reads_u8|].
      unfold fail_if. case_if; [blia|].
      eapply reads_bind_last; apply reads_ret.
    + rewrite length_app, repeat_length. simpl. lia.
Qed.

Lemma codec_open_connection_reply_1 p :
  Message_wf (MOpenConnectionReply1 p) ->
  codec (write_packet_connection_open_reply_1 p) read_packet_connection_open_reply_1 p 0x06.
Proof. destruct p. simpl. intros (? & ? & ?). codec_fixed. Qed.

Lemma codec_open_connection_request_2 p :
  Message_wf (MOpenConnectionRequest2 p) ->
  codec (write_packet_connection_open_request_2 p) read_packet_connection_open_request_2
    (mk_OpenConnectionRequest2 (wire_address (req2_address p)) (req2_mtu p) (req2_guid p)) 0x07.
Proof. destruct p. simpl. intros (? & ? & ?). codec_fixed. Qed.

Lemma codec_open_connection_reply_2 p :
  Message_wf (MOpenConnectionReply2 p) ->
  codec (write_packet_connection_open_reply_2 p) read_packet_connection_open_reply_2
    (mk_OpenConnectionReply2 (rep2_guid p) (wire_address (rep2_address p)) (rep2_mtu p)
       (rep2_encryption_enabled p)) 0x08.
Proof. destruct p. simpl. intros (? & ? & ? & ?). codec_fixed. Qed.

Lemma codec_already_connected p :
  Message_wf (MAlreadyConnected p) ->
  codec (write_packet_already_connected p) _read_packet_already_connected p 0x12.
Proof. destruct p. simpl. intros ?. codec_fixed. Qed.

Lemma codec_connection_request p :
  Message_wf (MConnectionRequest p) ->
  codec (write_packet_connection_request p) read_packet_connection_request p 0x09.
Proof. destruct p. simpl. intros (? & ? & ?). codec_fixed. Qed.

Lemma codec_connected_ping p :
  Message_wf (MConnectedPing p) ->
  codec (write_packet_connected_ping p) read_packet_connected_ping p 0x00.
Proof. destruct p. simpl. intros ?. codec_fixed. Qed.

Lemma codec_connected_pong p :
  Message_wf (MConnectedPong p) ->
  codec (write_packet_connected_pong p) _read_packet_connected_pong p 0x03.
Proof. destruct p. simpl. intros (? & ?). codec_fixed. Qed.

Lemma timestamps_length a b : length (to_bytes 8 Big a ++ to_bytes 8 Big b) = 16%nat.
Proof. by rewrite length_app, !to_bytes_length. Qed.

Lemma internal_length a :
  SocketAddr_wf a -> zlen (concat (replicate 10 (address_bytes a))) <= 290.
Proof.
  intros H%address_bytes_bounds. simpl. rewrite !length_app. simpl. lia.
Qed.

Lemma reads_all_timestamps {A} (f : Z -> Z -> A) a b :
  in_range_signed 64 a -> in_range_signed 64 b ->
  reads_all (x ← read_i64 Big; y ← read_i64 Big; mret (f x y))
    (to_bytes 8 Big a ++ to_bytes 8 Big b) (f a b).
Proof. intros. apply reads_reads_all. wire_reads_to_end. Qed.

Lemma codec_connection_request_accepted p :
  Message_wf (MConnectionRequestAccepted p) ->
  codec (write_packet_connection_request_accepted p) read_packet_connection_request_accepted
    (mk_ConnectionRequestAccepted (wire_address (acc_client_address p)) (acc_system_index p)
       (acc_request_timestamp p) (acc_accepted_timestamp p)) 0x10.
Proof.
  destruct p as [addr idx rt at_]. simpl. intros (Ha & ? & ? & ?).
  assert (SocketAddr_wf (V4 (mk_ipv4 255 255 255 255) 19132)) as Hi
    by (simpl; repeat constructor; done).
  pose proof (internal_length _ Hi). eapply codec_intro.
  - repeat (eapply writes_bind; [solve [eauto using writes_internal_addresses with wire]|]).
    eauto with wire.
  - do 3 (eapply reads_all_bind; [solve [eauto with wire]|]).
    apply reads_all_internal; [done|apply timestamps_length|].
    by apply reads_all_timestamps.
  - apply address_bytes_bounds in Ha. rewrite !length_app, !to_bytes_length. simpl length in *. lia.
  - reflexivity.
Qed.

Lemma codec_new_incoming_connection p :
  Message_wf (MNewIncomingConnection p) ->
  codec (write_packet_new_incomming_connection p) read_packet_new_incomming_connection
    (mk_NewIncomingConnection (wire_address (nic_server_address p))
       (nic_request_timestamp p) (nic_accepted_timestamp p)) 0x13.
Proof.
  destruct p as [addr rt at_]. simpl. intros (Ha & ? & ?).
  assert (SocketAddr_wf (V4 (mk_ipv4 0 0 0 0) 0)) as Hi
    by (simpl; repeat constructor; done).
  pose proof (internal_length _ Hi). eapply codec_intro.
  - repeat (eapply writes_bind; [solve [eauto using writes_internal_addresses with wire]|]).
    eauto with wire.
  - do 2 (eapply reads_all_bind; [solve [eauto with wire]|]).
    apply reads_all_internal; [done|apply timestamps_length|].
    by apply reads_all_timestamps.
  - apply address_bytes_bounds in Ha. rewrite !length_app, !to_bytes_length. simpl length in *. lia.
  - reflexivity.
Qed.

End Codecs.

(** The two sides disagree on the incompatible-version packet. The writer puts the
    protocol byte before the magic, the reader expects it after: whatever the server
    sends, the client's reader rejects it with [PacketHeaderError]. *)
Theorem incompatible_version_never_parses (p : IncompatibleProtocolVersion) :
  exists bs, write_packet_incompatible_protocol_version p = Ok bs /\ head bs = Some 0x19 /\
    read_packet_incompatible_protocol_version bs = Err PacketHeaderError.
Proof.
  destruct p as [v g].
  exists ([0x19] ++ [v] ++ magic ++ to_bytes 8 Big g). split; [|split; [done|]].
  - apply run_writes. wire_writes.
  - unfold read_packet_incompatible_protocol_version, run_reader.
    erewrite SE_bind_ok by (apply (reads_u8 0x19); [done|lia|wire_length]).
    apply SE_bind_err_fst. unfold Packet.read_magic, RaknetReader.read_magic.
    unfold mbind, SE_bind, need, fail_if, read. simpl.
    by rewrite bool_decide_eq_false_2 by done.
Qed.

(** C40: every packet round-trips, but one. For each packet with fields in range, the writer
    produces a datagram whose first byte is recognised as that packet's identifier, and the
    reader for that identifier returns the packet (IPv6 flow label and scope, which the format
    does not carry, erased); except [IncompatibleProtocolVersion], which the reader always
    refuses with [PacketHeaderError]. *)
Theorem messages_roundtrip (m : Message) :
  Message_wf m ->
  exists bs, write_message m = Ok bs /\ head bs = Some (PacketID.to_u8 (kind m)) /\
    PacketID.from (PacketID.to_u8 (kind m)) = Ok (kind m) /\
    read_message (kind m) bs = arrives m.
Proof.
  destruct m; intros Hwf;
    [ apply codec_unconnected_ping in Hwf
    | apply codec_unconnected_pong in Hwf
    | apply codec_open_connection_request_1 in Hwf
    | apply codec_open_connection_reply_1 in Hwf
    | apply codec_open_connection_request_2 in Hwf
    | apply codec_open_connection_reply_2 in Hwf
    | apply codec_already_connected in Hwf
    | apply codec_connection_request in Hwf
    | apply codec_connection_request_accepted in Hwf
    | apply codec_new_incoming_connection in Hwf
    | apply codec_connected_ping in Hwf
    | apply codec_connected_pong in Hwf
    | clear Hwf; destruct (incompatible_version_never_parses p) as (bs & Hw & Hid & Hr) ];
    try destruct Hwf as (bs & Hw & Hid & Hr); exists bs; simpl; by rewrite Hr.
Qed.

Lemma messages_roundtrip_witness :
  let m := MConnectionRequestAccepted
    (mk_ConnectionRequestAccepted (V4 (mk_ipv4 127 0 0 1) 19132) 0 123 (-456)) in
  exists bs, write_message m = Ok bs /\ read_message (kind m) bs = Ok m.
Proof.
  intros m. destruct (messages_roundtrip m) as (bs & Hw & _ & _ & Hr).
  - repeat constructor; done.
  - exists bs. split; [exact Hw|exact Hr].
Defined.

(** ** Acknowledgement ranges *)

(** A range of sequence numbers as the wire can carry it. *)
Definition range_wf (r : Z * Z) : Prop := 0 <= r.1 <= r.2 /\ r.2 < 2 ^ 24.

Definition record_bytes (r : Z * Z) : list Z :=
  if r.1 =? r.2 then [1] ++ to_bytes 3 Little r.1
  else [0] ++ to_bytes 3 Little r.1 ++ to_bytes 3 Little r.2.

Section AckRecords.
Implicit Types (seqs : list (Z * Z)).

Lemma writes_records seqs :
  writes (write_sequence_records seqs) (concat (map record_bytes seqs)) tt.
Proof.
  induction seqs as [|[s e] seqs IH]; [apply writes_ret|].
  cbn [map concat write_sequence_records for_each].
  apply (writes_bind _ _ _ _ tt); [|exact IH]. unfold record_bytes. cbn [fst snd].
  destruct (s =? e); cbn [Z.eqb]; wire_writes.
  eapply writes_bind_last; [apply writes_u24|apply writes_ret].
Qed.

Lemma reads_record r : range_wf r -> reads read_sequence_record (record_bytes r) r.
Proof.
  destruct r as [s e]. unfold range_wf, record_bytes, read_sequence_record. cbn [fst snd].
  intros [Hs He]. assert (in_range 24 s /\ in_range 24 e) as [] by (unfold in_range; lia).
  destruct (s =? e) eqn:E; (eapply reads_bind; [by apply reads_u8|]); apply reads_pass; try done.
  - b2p. subst e. eapply reads_bind_last; [by apply reads_u24|].
    apply reads_ret_bind, reads_pass; [apply Z.ltb_irrefl|]. apply reads_ret.
  - eapply reads_bind; [by apply reads_u24|].
    eapply reads_bind_last; [by apply reads_u24|].
    apply reads_pass; [apply Z.ltb_ge; lia|]. apply reads_ret.
Qed.

Lemma reads_records_loop seqs acc :
  Forall range_wf seqs ->
  reads (read_records_loop (length seqs) acc) (concat (map record_bytes seqs)) (acc ++ seqs).
Proof.
  intros H. revert acc. induction H as [|r seqs Hr _ IH]; intros acc; simpl.
  - rewrite app_nil_r. apply reads_ret.
  - eapply reads_bind; [by apply reads_record|].
    replace (acc ++ r :: seqs) with ((acc ++ [r]) ++ seqs) by by rewrite <- app_assoc.
    apply IH.
Qed.

Lemma records_length seqs : 4 * zlen seqs <= zlen (concat (map record_bytes seqs)) <= 7 * zlen seqs.
Proof.
  induction seqs as [|r seqs IH]; simpl; [lia|]. rewrite length_app.
  assert (4 <= zlen (record_bytes r) <= 7); [|lia].
  unfold record_bytes. case_if; rewrite !length_app, !to_bytes_length; simpl; lia.
Qed.

Lemma reads_records seqs :
  Forall range_wf seqs ->
  reads (read_sequence_records (zlen seqs)) (concat (map record_bytes seqs)) seqs.
Proof.
  intros H rest p Hp Hlen. unfold read_sequence_records.
  erewrite SE_bind_ok by reflexivity. unfold remaining, fail_if. cbn [unread].
  pose proof (records_length seqs) as Hrl.
  rewrite (proj2 (Z.ltb_ge _ _)).
  - erewrite SE_bind_ok by reflexivity. rewrite Nat2Z.id.
    by apply (reads_records_loop seqs []).
  - apply Z.div_le_lower_bound; [lia|]. rewrite length_app. lia.
Qed.

(** The encoded packet, header included. *)
Definition control_bytes (kind : PacketID.PacketID) seqs : list Z :=
  [PacketID.to_u8 kind] ++ to_bytes 2 Big (zlen seqs) ++ concat (map record_bytes seqs).

Lemma write_control_ranges_into_ok kind seqs output :
  zlen seqs < 2 ^ 16 ->
  write_control_ranges_into kind seqs output = (Ok tt, control_bytes kind seqs).
Proof.
  intros Hl. unfold write_control_ranges_into, fail_if. rewrite (proj2 (Z.leb_gt _ _)) by lia.
  erewrite SE_bind_ok by reflexivity. erewrite SE_bind_ok by reflexivity.
  assert (writes (_ ← write_u8 (PacketID.to_u8 kind); _ ← write_u16 (zlen seqs) Big;
    write_sequence_records seqs) (control_bytes kind seqs) tt) as Hw.
  { eapply writes_bind; [apply writes_u8|]. eapply writes_bind; [apply writes_u16|].
    apply writes_records. }
  apply (Hw []).
Qed.

Lemma reads_control {A} kind seqs (f : Z -> list (Z * Z) -> A) :
  zlen seqs < 2 ^ 16 -> Forall range_wf seqs ->
  run_reader (control_bytes kind seqs)
    (_ ← read_u8; n ← read_u16 Big; s ← read_sequence_records n; mret (f n s))
  = Ok (f (zlen seqs) seqs).
Proof.
  intros Hl Hf. pose proof (records_length seqs). apply run_reads_all.
  - apply reads_reads_all. eapply reads_bind; [apply reads_u8, to_u8_range|].
    eapply reads_bind; [apply reads_u16; unfold in_range; lia|].
    eapply reads_bind_last; [by apply reads_records|]. apply reads_ret.
  - unfold control_bytes. rewrite !length_app, to_bytes_length. simpl. lia.
Qed.
End AckRecords.

(** Acknowledgement packets round-trip. Whatever the reused output buffer held,
    encoding fewer than 65536 ranges replaces it by a datagram from which the peer reads
    back exactly those ranges with a matching record count, as an ACK and as a NACK; a
    longer list is refused and leaves the buffer alone. *)
Theorem control_ranges_roundtrip (kind : PacketID.PacketID) (seqs : list (Z * Z)) (output : list Z) :
  Forall range_wf seqs ->
  (zlen seqs < 2 ^ 16 ->
   exists bs, write_control_ranges_into kind seqs output = (Ok tt, bs) /\
     head bs = Some (PacketID.to_u8 kind) /\
     read_packet_ack bs = Ok (mk_Ack (zlen seqs) seqs) /\
     read_packet_nack bs = Ok (mk_Nack (zlen seqs) seqs)) /\
  (2 ^ 16 <= zlen seqs ->
   write_control_ranges_into kind seqs output = (Err PacketParseError, output)).
Proof.
  intros Hf. split; intros Hl.
  - exists (control_bytes kind seqs). split; [by apply write_control_ranges_into_ok|].
    split; [done|]. split; by apply reads_control.
  - unfold write_control_ranges_into, fail_if. by rewrite (proj2 (Z.leb_le _ _)).
Qed.

Lemma control_ranges_roundtrip_witness :
  exists bs,
    write_control_ranges_into PacketID.Ack [(0, 255); (65536, 0xffffff)] [42; 42] = (Ok tt, bs) /\
    read_packet_ack bs = Ok (mk_Ack 2 [(0, 255); (65536, 0xffffff)]).
Proof.
  destruct (control_ranges_roundtrip PacketID.Ack [(0, 255); (65536, 0xffffff)] [42; 42])
    as [H _].
  - repeat constructor; simpl; lia.
  - destruct H as (bs & Hw & _ & Hr & _); [simpl; lia|]. exists bs. split; [exact Hw|exact Hr].
Defined.

(** ** What a parsed acknowledgement satisfies *)

(** Decompose a successful sequence of reads. *)
Ltac read_inv H :=
  let a := fresh "a" in let r := fresh "r" in let Hm := fresh "Hread" in
  apply SE_bind_inv in H as (a & r & Hm & H).

Lemma fail_if_inv {S} c e (s : S) v s' : fail_if c e s = (Ok v, s') -> c = false /\ s' = s.
Proof. unfold fail_if. case_if; intros H; inversion H; done. Qed.

Lemma read_sequence_record_inv r v r' :
  bytes_ok r -> read_sequence_record r = (Ok v, r') ->
  range_wf v /\ bytes_ok r' /\ 4 <= remaining r - remaining r'.
Proof.
  intros Hb H. unfold read_sequence_record in H.
  read_inv H. apply read_u8_inv in Hread as [Hc1 _].
  read_inv H. apply fail_if_inv in Hread as [_ ->].
  pose proof (consumes_bytes_ok _ _ _ Hc1 Hb) as Hb1.
  read_inv H. apply read_u24_inv in Hread as [Hc2 Hs]. specialize (Hs Hb1).
  pose proof (consumes_bytes_ok _ _ _ Hc2 Hb1) as Hb2.
  pose proof (consumes_remaining _ _ _ Hc1). pose proof (consumes_remaining _ _ _ Hc2).
  read_inv H. destruct (a =? 1).
  - inversion Hread; subst. read_inv H. apply fail_if_inv in Hread0 as [_ ->].
    inversion H; subst. unfold range_wf, in_range in *. simpl. split; [lia|]. split; [done|lia].
  - apply read_u24_inv in Hread as [Hc3 He]. specialize (He Hb2).
    pose proof (consumes_remaining _ _ _ Hc3).
    pose proof (consumes_bytes_ok _ _ _ Hc3 Hb2).
    assert (0 <= 3) by lia.
    read_inv H. apply fail_if_inv in Hread as [Hcmp ->]. inversion H; subst. b2p.
    unfold range_wf, in_range in *. simpl. split; [lia|]. split; [done|lia].
Qed.

Lemma read_records_loop_inv n acc r v r' :
  bytes_ok r -> Forall range_wf acc -> read_records_loop n acc r = (Ok v, r') ->
  Forall range_wf v /\ length v = (length acc + n)%nat /\
  4 * Z.of_nat n <= remaining r - remaining r'.
Proof.
  revert acc r. induction n as [|n IH]; intros acc r Hb Ha H; simpl in H.
  - inversion H; subst. split; [done|]. split; lia.
  - read_inv H. apply read_sequence_record_inv in Hread as (Hr & Hb' & Hrem); [|done].
    apply IH in H as (Hv & Hl & Hrem'); [|done|by rewrite Forall_app, Forall_singleton].
    split; [done|]. rewrite length_app in Hl. simpl in Hl. split; lia.
Qed.

Lemma run_reader_inv {A} buf (m : Reader A) v :
  run_reader buf m = Ok v -> exists r', m (RaknetReader.new buf) = (Ok v, r').
Proof. unfold run_reader. destruct (m _) as [res r']. simpl. intros ->. eauto. Qed.

Lemma read_control_inv {A} (f : Z -> list (Z * Z) -> A) buf v :
  Forall (in_range 8) buf ->
  run_reader buf (_ ← read_u8; n ← read_u16 Big; s ← read_sequence_records n; mret (f n s)) = Ok v ->
  exists n seqs, v = f n seqs /\ n = zlen seqs /\ Forall range_wf seqs /\ 3 + 4 * n <= zlen buf.
Proof.
  intros Hb (r' & E)%run_reader_inv.
  assert (bytes_ok (RaknetReader.new buf)) as Hb0 by done.
  read_inv E. apply read_u8_inv in Hread as [Hc1 _].
  pose proof (consumes_bytes_ok _ _ _ Hc1 Hb0) as Hb1.
  read_inv E. apply read_u16_inv in Hread as [Hc2 Hn]. specialize (Hn Hb1).
  pose proof (consumes_bytes_ok _ _ _ Hc2 Hb1) as Hb2.
  pose proof (consumes_remaining _ _ _ Hc1). pose proof (consumes_remaining _ _ _ Hc2).
  read_inv E. unfold read_sequence_records in Hread.
  read_inv Hread. inversion Hread0; subst. read_inv Hread. apply fail_if_inv in Hread1 as [_ ->].
  apply read_records_loop_inv in Hread as (Hv & Hl & Hrem); [|done|constructor].
  inversion E; subst. exists a0, a1. unfold in_range in Hn. simpl in Hl.
  split; [done|]. split; [lia|]. split; [done|].
  unfold remaining in *. simpl in *. lia.
Qed.

(** An accepted acknowledgement is well formed. If a datagram parses as an ACK or a
    NACK, its record count equals the number of ranges returned (the worker's
    [debug_assert_eq!]), every range is ordered and within 24 bits, and the datagram
    holds at least four bytes per record, so the allocation is bounded by its length. *)
Theorem parsed_acks_are_wellformed (buf : list Z) :
  Forall (in_range 8) buf ->
  (forall a, read_packet_ack buf = Ok a ->
     ack_record_count a = zlen (ack_sequences a) /\ Forall range_wf (ack_sequences a) /\
     3 + 4 * zlen (ack_sequences a) <= zlen buf) /\
  (forall a, read_packet_nack buf = Ok a ->
     nack_record_count a = zlen (nack_sequences a) /\ Forall range_wf (nack_sequences a) /\
     3 + 4 * zlen (nack_sequences a) <= zlen buf).
Proof.
  intros Hb. split; intros a H; apply read_control_inv in H as (n & seqs & -> & -> & Hf & Hl);
    simpl; auto.
Qed.

Lemma parsed_acks_are_wellformed_witness :
  ack_record_count (mk_Ack 1 [(5, 9)]) = zlen (ack_sequences (mk_Ack 1 [(5, 9)])).
Proof.
  apply (parsed_acks_are_wellformed [0xc0; 0; 1; 0; 5; 0; 0; 9; 0; 0]).
  - repeat constructor; simpl; lia.
  - vm_compute. reflexivity.
Defined.
