(* ===== verification/Frame.v ===== *)
(** * Frames

    [src/src/arq.rs], first part: the reliability modes, the frame payload, the frame
    structure with its encoder, and the datagram decoder [FrameVec]. *)

From S2P Require Import Prelude Errors Datatype Sequence.
Import RaknetWriter RaknetReader.

Module Reliability.

Inductive Reliability : Set :=
  | Unreliable
  | UnreliableSequenced
  | Reliable
  | ReliableOrdered
  | ReliableSequenced.

#[export] Instance Reliability_eq_dec : EqDecision Reliability.
Proof. solve_decision. Defined.

Definition to_u8 (r : Reliability) : Z :=
  match r with
  | Unreliable => 0x00
  | UnreliableSequenced => 0x01
  | Reliable => 0x02
  | ReliableOrdered => 0x03
  | ReliableSequenced => 0x04
  end.

Definition try_from (flags : Z) : Result Reliability :=
  match flags with
  | 0x00 => Ok Unreliable
  | 0x01 => Ok UnreliableSequenced
  | 0x02 => Ok Reliable
  | 0x03 => Ok ReliableOrdered
  | 0x04 => Ok ReliableSequenced
  | _ => Err IncorrectReliability
  end.

Definition from (flags : Z) : Result Reliability := try_from flags.

End Reliability.
Export (hints) Reliability.
Abbreviation Reliability := Reliability.Reliability.

Definition NEEDS_B_AND_AS_FLAG : Z := 0x4.
Definition CONTINUOUS_SEND_FLAG : Z := 0x8.

(** ** Payloads *)

Module FramePayload.

(** [Shared] is a slice of an allocation several frames share. *)
Inductive FramePayload : Set :=
  | Owned (data : list Z)
  | Bytes (data : list Z)
  | Shared (owner : list Z) (start length : Z).

Definition default : FramePayload := Owned [].

(** [data.len() as u16] truncates. *)
Definition copy_shared (data : list Z) : FramePayload := Shared data 0 (wrap 16 (zlen data)).

(** [Deref]: the bytes of the payload. Slicing past the owner would panic; [wf] is what
    excludes it. *)
Definition deref (p : FramePayload) : list Z :=
  match p with
  | Owned data => data
  | Bytes data => data
  | Shared owner start length => take (Z.to_nat length) (drop (Z.to_nat start) owner)
  end.

Definition wf (p : FramePayload) : Prop :=
  match p with
  | Owned _ | Bytes _ => True
  | Shared owner start length => 0 <= start /\ 0 <= length /\ start + length <= zlen owner
  end.

(** [impl From<FramePayload> for Vec<u8>] *)
Definition into_vec (p : FramePayload) : list Z :=
  match p with Owned data => data | shared => deref shared end.

(** [impl PartialEq]: equality of the bytes, whatever holds them. *)
Definition eqb (p q : FramePayload) : bool := bool_decide (deref p = deref q).

Definition len (p : FramePayload) : Z := zlen (deref p).

Lemma deref_copy_shared data : zlen data < 2 ^ 16 -> deref (copy_shared data) = data.
Proof.
  intros H. simpl. rewrite wrap_small by (unfold in_range; lia).
  rewrite drop_0, Nat2Z.id. apply firstn_all.
Qed.

Lemma copy_shared_wf data : zlen data < 2 ^ 16 -> wf (copy_shared data).
Proof. intros H. simpl. rewrite wrap_small by (unfold in_range; lia). lia. Qed.

Lemma len_shared owner start length :
  wf (Shared owner start length) -> len (Shared owner start length) = length.
Proof.
  simpl. intros (? & ? & ?). unfold len. simpl. rewrite length_take, length_drop. lia.
Qed.

End FramePayload.
Abbreviation FramePayload := FramePayload.FramePayload.

(** ** [FrameSetPacket]

    [shared_payload] names the [Arc<SharedPayload>] of the send queue that the
    fragments of one message share. *)

Record FrameSetPacket := mk_frame {
  sequence_number : Z;
  flags : Z;
  length_in_bytes : Z;
  reliable_frame_index : Z;
  sequenced_frame_index : Z;
  ordered_frame_index : Z;
  order_channel : Z;
  compound_size : Z;
  compound_id : Z;
  fragment_index : Z;
  data : FramePayload;
  shared_payload : option Z;
}.

#[export] Instance set_sequence_number : Setter sequence_number := fun g r =>
  mk_frame (g (sequence_number r)) (flags r) (length_in_bytes r) (reliable_frame_index r)
    (sequenced_frame_index r) (ordered_frame_index r) (order_channel r) (compound_size r)
    (compound_id r) (fragment_index r) (data r) (shared_payload r).
#[export] Instance set_flags : Setter flags := fun g r =>
  mk_frame (sequence_number r) (g (flags r)) (length_in_bytes r) (reliable_frame_index r)
    (sequenced_frame_index r) (ordered_frame_index r) (order_channel r) (compound_size r)
    (compound_id r) (fragment_index r) (data r) (shared_payload r).
#[export] Instance set_length_in_bytes : Setter length_in_bytes := fun g r =>
  mk_frame (sequence_number r) (flags r) (g (length_in_bytes r)) (reliable_frame_index r)
    (sequenced_frame_index r) (ordered_frame_index r) (order_channel r) (compound_size r)
    (compound_id r) (fragment_index r) (data r) (shared_payload r).
#[export] Instance set_reliable_frame_index : Setter reliable_frame_index := fun g r =>
  mk_frame (sequence_number r) (flags r) (length_in_bytes r) (g (reliable_frame_index r))
    (sequenced_frame_index r) (ordered_frame_index r) (order_channel r) (compound_size r)
    (compound_id r) (fragment_index r) (data r) (shared_payload r).
#[export] Instance set_sequenced_frame_index : Setter sequenced_frame_index := fun g r =>
  mk_frame (sequence_number r) (flags r) (length_in_bytes r) (reliable_frame_index r)
    (g (sequenced_frame_index r)) (ordered_frame_index r) (order_channel r) (compound_size r)
    (compound_id r) (fragment_index r) (data r) (shared_payload r).
#[export] Instance set_ordered_frame_index : Setter ordered_frame_index := fun g r =>
  mk_frame (sequence_number r) (flags r) (length_in_bytes r) (reliable_frame_index r)
    (sequenced_frame_index r) (g (ordered_frame_index r)) (order_channel r) (compound_size r)
    (compound_id r) (fragment_index r) (data r) (shared_payload r).
#[export] Instance set_order_channel : Setter order_channel := fun g r =>
  mk_frame (sequence_number r) (flags r) (length_in_bytes r) (reliable_frame_index r)
    (sequenced_frame_index r) (ordered_frame_index r) (g (order_channel r)) (compound_size r)
    (compound_id r) (fragment_index r) (data r) (shared_payload r).
#[export] Instance set_compound_size : Setter compound_size := fun g r =>
  mk_frame (sequence_number r) (flags r) (length_in_bytes r) (reliable_frame_index r)
    (sequenced_frame_index r) (ordered_frame_index r) (order_channel r) (g (compound_size r))
    (compound_id r) (fragment_index r) (data r) (shared_payload r).
#[export] Instance set_compound_id : Setter compound_id := fun g r =>
  mk_frame (sequence_number r) (flags r) (length_in_bytes r) (reliable_frame_index r)
    (sequenced_frame_index r) (ordered_frame_index r) (order_channel r) (compound_size r)
    (g (compound_id r)) (fragment_index r) (data r) (shared_payload r).
#[export] Instance set_fragment_index : Setter fragment_index := fun g r =>
  mk_frame (sequence_number r) (flags r) (length_in_bytes r) (reliable_frame_index r)
    (sequenced_frame_index r) (ordered_frame_index r) (order_channel r) (compound_size r)
    (compound_id r) (g (fragment_index r)) (data r) (shared_payload r).
#[export] Instance set_data : Setter data := fun g r =>
  mk_frame (sequence_number r) (flags r) (length_in_bytes r) (reliable_frame_index r)
    (sequenced_frame_index r) (ordered_frame_index r) (order_channel r) (compound_size r)
    (compound_id r) (fragment_index r) (g (data r)) (shared_payload r).
#[export] Instance set_shared_payload : Setter shared_payload := fun g r =>
  mk_frame (sequence_number r) (flags r) (length_in_bytes r) (reliable_frame_index r)
    (sequenced_frame_index r) (ordered_frame_index r) (order_channel r) (compound_size r)
    (compound_id r) (fragment_index r) (data r) (g (shared_payload r)).

(** The payload length in bytes, [self.data.len()]. *)
Definition data_len (f : FrameSetPacket) : Z := FramePayload.len (data f).

Definition from_payload (r : Reliability) (payload : FramePayload) : FrameSetPacket :=
  let flag := Z.shiftl (Reliability.to_u8 r) 5 in
  mk_frame 0 flag (wrap 16 (FramePayload.len payload)) 0 0 0 0 0 0 0 payload None.

(** [FrameSetPacket::new] *)
Definition new_frame (r : Reliability) (bytes : list Z) : FrameSetPacket :=
  from_payload r (FramePayload.Owned bytes).

(** The frame every decoder starts from. *)
Definition empty_frame (sequence_number : Z) : FrameSetPacket :=
  mk_frame sequence_number 0 0 0 0 0 0 0 0 0 FramePayload.default None.

Definition is_fragment (f : FrameSetPacket) : bool := negb (Z.land (flags f) 16 =? 0).

Definition reliability (f : FrameSetPacket) : Result Reliability :=
  Reliability.from (Z.shiftr (Z.land (flags f) 224) 5).

Definition is_reliable (f : FrameSetPacket) : Result bool :=
  r ← Reliability.from (Z.shiftr (Z.land (flags f) 224) 5);
  Ok match r with
     | Reliability.Reliable | Reliability.ReliableOrdered | Reliability.ReliableSequenced => true
     | _ => false
     end.

Definition is_ordered (f : FrameSetPacket) : Result bool :=
  r ← Reliability.from (Z.shiftr (Z.land (flags f) 224) 5);
  Ok match r with
     | Reliability.UnreliableSequenced | Reliability.ReliableOrdered
     | Reliability.ReliableSequenced => true
     | _ => false
     end.

Definition is_sequenced (f : FrameSetPacket) : Result bool :=
  r ← Reliability.from (Z.shiftr (Z.land (flags f) 224) 5);
  Ok match r with
     | Reliability.UnreliableSequenced | Reliability.ReliableSequenced => true
     | _ => false
     end.

(** id, sequence number, flags, length; then the optional fields; then the body. *)
Definition _size (f : FrameSetPacket) : Result Z :=
  let ret := 1 + 3 + 1 + 2 in
  rel ← is_reliable f;
  let ret := if rel : bool then ret + 3 else ret in
  sqd ← is_sequenced f;
  let ret := if sqd : bool then ret + 3 else ret in
  ord ← is_ordered f;
  let ret := if ord : bool then ret + 4 else ret in
  let ret := if negb (Z.land (flags f) 16 =? 0) then ret + 10 else ret in
  Ok (ret + data_len f).

Definition validate (f : FrameSetPacket) : Result unit :=
  if negb (data_len f =? length_in_bytes f)
     || ((2 ^ 16 - 1) / 8 <? data_len f)
     || (is_fragment f && ((compound_size f =? 0) || (compound_size f <=? fragment_index f)))
  then Err PacketParseError
  else _ ← _size f; Ok tt.

Definition write_header (f : FrameSetPacket) : Writer unit :=
  let id := Z.lor 0x80 NEEDS_B_AND_AS_FLAG in
  let id := if negb (Z.land (flags f) 16 =? 0) && negb (fragment_index f =? 0)
            then Z.lor id CONTINUOUS_SEND_FLAG else id in
  _ ← write_u8 id;
  _ ← write_u24 (sequence_number f) Little;
  _ ← write_u8 (flags f);
  _ ← write_u16 (wrap 16 (length_in_bytes f * 8)) Big;
  rel ← lift (is_reliable f);
  _ ← (if rel : bool then write_u24 (reliable_frame_index f) Little else mret tt);
  sqd ← lift (is_sequenced f);
  _ ← (if sqd : bool then write_u24 (sequenced_frame_index f) Little else mret tt);
  ord ← lift (is_ordered f);
  _ ← (if ord : bool
       then _ ← write_u24 (ordered_frame_index f) Little; write_u8 (order_channel f)
       else mret tt);
  if negb (Z.land (flags f) 16 =? 0) then
    _ ← write_u32 (compound_size f) Big;
    _ ← write_u16 (compound_id f) Big;
    write_u32 (fragment_index f) Big
  else mret tt.

(** The header bytes [header[..length]] placed in the caller's 32-byte buffer. *)
Definition encode_header (f : FrameSetPacket) : Result (list Z) :=
  _ ← validate f;
  match write_header f RaknetWriter.new with
  | (Ok _, header) => Ok header
  | (Err e, _) => Err e
  end.

(** [serialize_into] clears the caller's buffer and fills it. *)
Definition serialize_into (f : FrameSetPacket) : Writer unit :=
  _ ← lift (validate f);
  size ← lift (_size f);
  _ ← put RaknetWriter.new;
  _ ← write_header f;
  write (FramePayload.deref (data f)).

Definition serialize (f : FrameSetPacket) : Result (list Z) :=
  match serialize_into f [] with
  | (Ok _, buffer) => Ok buffer
  | (Err e, _) => Err e
  end.

(** The frames of one datagram: one datagram header, the first frame's. *)
Fixpoint serialize_group_loop (index : nat) (first : FrameSetPacket) (frames : list FrameSetPacket)
    : Writer unit :=
  match frames with
  | [] => mret tt
  | frame :: frames =>
      _ ← fail_if (negb (sequence_number frame =? sequence_number first)) PacketParseError;
      header ← lift (encode_header frame);
      _ ← write (drop (if Nat.eqb index 0 then 0 else 4) header);
      _ ← write (FramePayload.deref (data frame));
      serialize_group_loop (S index) first frames
  end.

Definition serialize_group_into (frames : list FrameSetPacket) : Writer unit :=
  first ← lift (ok_or (head frames) PacketParseError);
  _ ← put [];
  serialize_group_loop 0 first frames.

(** ** Decoding *)

(** The optional index fields of a frame, in wire order. *)
Definition read_indexes (frame : FrameSetPacket) : Reader FrameSetPacket :=
  rel ← lift (is_reliable frame);
  frame ← (if rel : bool
           then v ← read_u24 Little; mret (frame <| reliable_frame_index := v |>)
           else mret frame);
  sqd ← lift (is_sequenced frame);
  frame ← (if sqd : bool
           then v ← read_u24 Little; mret (frame <| sequenced_frame_index := v |>)
           else mret frame);
  ord ← lift (is_ordered frame);
  if ord : bool
  then v ← read_u24 Little; c ← read_u8;
       mret (frame <| ordered_frame_index := v |> <| order_channel := c |>)
  else mret frame.

(** [FrameSetPacket::deserialize], the single-frame reader of the crate's tests. *)
Definition deserialize (buf : list Z) : Result (FrameSetPacket * bool) :=
  ((let ret := empty_frame 0 in
   packet_id ← read_u8;
   _ ← fail_if (negb ((0x80 <=? packet_id) && (packet_id <=? 0x8d))) PacketHeaderError;
   v ← read_u24 Little; let ret := ret <| sequence_number := v |> in
   v ← read_u8; let ret := ret <| flags := v |> in
   length_in_bits ← read_u16 Big;
   _ ← fail_if (negb (length_in_bits `mod` 8 =? 0)) PacketParseError;
   let ret := ret <| length_in_bytes := length_in_bits / 8 |> in
   ret ← read_indexes ret;
   ret ← (if is_fragment ret
          then s ← read_u32 Big; i ← read_u16 Big; x ← read_u32 Big;
               mret (ret <| compound_size := s |> <| compound_id := i |>
                         <| fragment_index := x |>)
          else mret ret);
   bytes ← read (length_in_bytes ret);
   let ret := ret <| data := FramePayload.Owned bytes |> in
   _ ← fail_if (is_fragment ret
                && ((compound_size ret =? 0) || (compound_size ret <=? fragment_index ret)))
         PacketParseError;
   reader ← get;
   mret (ret, pos reader =? zlen buf)) (RaknetReader.new buf)).1.

Module FrameVec.

(** One iteration of the loop of [FrameVec::decode], up to the payload slice. *)
Definition decode_frame (sequence_number : Z) : Reader (FrameSetPacket * list Z) :=
  let frame := empty_frame sequence_number in
  v ← read_u8; let frame := frame <| flags := v |> in
  length_in_bits ← read_u16 Big;
  _ ← fail_if (negb (length_in_bits `mod` 8 =? 0)) PacketParseError;
  let frame := frame <| length_in_bytes := length_in_bits / 8 |> in
  frame ← read_indexes frame;
  frame ← (if is_fragment frame
           then s ← read_u32 Big; i ← read_u16 Big; x ← read_u32 Big;
                let frame := frame <| compound_size := s |> <| compound_id := i |>
                                   <| fragment_index := x |> in
                _ ← fail_if ((compound_size frame =? 0)
                             || (compound_size frame <=? fragment_index frame))
                      PacketParseError;
                mret frame
           else mret frame);
  bytes ← read_slice (length_in_bytes frame);
  mret (frame, bytes).

(** [while reader.pos() < buf.len()]. A frame takes at least three bytes, so [length buf]
    iterations are enough: [decode_loop_inv] of FrameCodec.v proves it. *)
Fixpoint decode_loop (fuel : nat) (buf_len sequence_number : Z) (owned : bool)
    (frames : list FrameSetPacket) : Reader (list FrameSetPacket) :=
  match fuel with
  | O => mret frames
  | S fuel =>
      reader ← get;
      if pos reader <? buf_len then
        '(frame, bytes) ← decode_frame sequence_number;
        reader ← get;
        let frame :=
          if negb owned || negb (Nat.eqb (length frames) 0) || negb (pos reader =? buf_len)
          then frame <| data := FramePayload.Owned bytes |> else frame in
        decode_loop fuel buf_len sequence_number owned (frames ++ [frame])
      else mret frames
  end.

Definition decode (buf : list Z) (owned : bool) : Result (list FrameSetPacket) :=
  ((id ← read_u8;
   _ ← fail_if (negb ((0x80 <=? id) && (id <=? 0x8d))) PacketHeaderError;
   sequence_number ← read_u24 Little;
   reader ← get;
   _ ← fail_if (pos reader =? zlen buf) PacketParseError;
   decode_loop (length buf) (zlen buf) sequence_number owned []) (RaknetReader.new buf)).1.

Definition decode_into (buf : list Z) : Result (list FrameSetPacket) := decode buf false.

(** A single-frame datagram keeps its allocation: the body is moved to the front
    ([copy_within], then [truncate]) and becomes the payload. *)
Definition decode_owned_into (buf : list Z) : Result (list FrameSetPacket) :=
  frames ← decode buf true;
  match frames with
  | [frame] =>
      let length := length_in_bytes frame in
      let offset := usize_sub (zlen buf) length in
      Ok [frame <| data := FramePayload.Owned (take (Z.to_nat length) (drop (Z.to_nat offset) buf)) |>]
  | frames => Ok frames
  end.

End FrameVec.
