(* ===== verification/FrameCodec.v ===== *)
(** * The frame codec

    Theorems on the encoder and decoder of [Frame.v]: sizes and bounds of encoded
    frames, the round trip of packed datagrams, the equivalence of the two decoding
    paths, and what every decoded frame satisfies. *)

From S2P Require Import Prelude Errors Datatype Sequence Frame.
Import RaknetWriter RaknetReader FrameVec.

(** ** Reliability of a frame *)

Definition rel_b (r : Reliability) : bool :=
  match r with
  | Reliability.Reliable | Reliability.ReliableOrdered | Reliability.ReliableSequenced => true
  | _ => false
  end.

Definition ord_b (r : Reliability) : bool :=
  match r with
  | Reliability.UnreliableSequenced | Reliability.ReliableOrdered
  | Reliability.ReliableSequenced => true
  | _ => false
  end.

Definition sqd_b (r : Reliability) : bool :=
  match r with
  | Reliability.UnreliableSequenced | Reliability.ReliableSequenced => true
  | _ => false
  end.

Section Reliability.
Implicit Types (f : FrameSetPacket) (r : Reliability).

Lemma is_reliable_ok f r : reliability f = Ok r -> is_reliable f = Ok (rel_b r).
Proof. unfold reliability, is_reliable. intros ->. by destruct r. Qed.

Lemma is_ordered_ok f r : reliability f = Ok r -> is_ordered f = Ok (ord_b r).
Proof. unfold reliability, is_ordered. intros ->. by destruct r. Qed.

Lemma is_sequenced_ok f r : reliability f = Ok r -> is_sequenced f = Ok (sqd_b r).
Proof. unfold reliability, is_sequenced. intros ->. by destruct r. Qed.

Lemma is_reliable_inv f b : is_reliable f = Ok b -> exists r, reliability f = Ok r /\ b = rel_b r.
Proof.
  unfold reliability, is_reliable. destruct (Reliability.from _) as [r|e]; [|discriminate].
  intros [= <-]. exists r. split; [done|]. by destruct r.
Qed.

(** The mode travels in the top three bits of the flags. *)
Lemma reliability_flags f g : flags f = flags g -> reliability f = reliability g.
Proof. unfold reliability. by intros ->. Qed.

Lemma is_fragment_flags f g : flags f = flags g -> is_fragment f = is_fragment g.
Proof. unfold is_fragment. by intros ->. Qed.
End Reliability.

(** ** Sizes *)

(** The header after the four bytes of the datagram header. *)
Definition header_size (r : Reliability) (fragment : bool) : Z :=
  3 + (if rel_b r then 3 else 0) + (if sqd_b r then 3 else 0) + (if ord_b r then 4 else 0)
  + (if fragment then 10 else 0).

Lemma _size_ok f r :
  reliability f = Ok r -> _size f = Ok (4 + header_size r (is_fragment f) + data_len f).
Proof.
  intros Hr. unfold _size, header_size, is_fragment.
  rewrite (is_reliable_ok _ _ Hr), (is_sequenced_ok _ _ Hr), (is_ordered_ok _ _ Hr). simpl.
  f_equal. destruct (rel_b r), (sqd_b r), (ord_b r), (Z.land (flags f) 16 =? 0); simpl; lia.
Qed.

Lemma _size_inv f n : _size f = Ok n -> exists r, reliability f = Ok r.
Proof.
  unfold _size. destruct (is_reliable f) as [b|] eqn:E; [|discriminate]. intros _.
  apply is_reliable_inv in E as (r & ? & _). eauto.
Qed.

Lemma header_size_bounds r fragment : 3 <= header_size r fragment <= 23.
Proof. unfold header_size. destruct r, fragment; simpl; lia. Qed.

(** What [validate] checks. *)
Record validated (f : FrameSetPacket) (r : Reliability) : Prop := {
  val_reliability : reliability f = Ok r;
  val_length : data_len f = length_in_bytes f;
  val_max : data_len f <= 8191;
  val_fragment : is_fragment f = true -> 0 <> compound_size f /\ fragment_index f < compound_size f;
}.

Lemma validate_inv f : validate f = Ok tt <-> exists r, validated f r.
Proof.
  unfold validate. case_if; split.
  - discriminate.
  - intros (r & [Hr Hl Hm Hf]). change ((2 ^ 16 - 1) / 8) with 8191 in *.
    exfalso. apply orb_true_iff in Heqb as [[?|?]%orb_true_iff|[Hfr Hc]%andb_true_iff];
      [blia..|]. specialize (Hf Hfr). blia.
  - destruct (_size f) as [n|e] eqn:E; [|discriminate]. intros _.
    apply _size_inv in E as (r & Hr). exists r. change ((2 ^ 16 - 1) / 8) with 8191 in *.
    apply orb_false_iff in Heqb as [[E1 E2]%orb_false_iff E3].
    split; [done|blia|blia|]. intros Hfr. rewrite Hfr in E3. simpl in E3. blia.
  - intros (r & [Hr _ _ _]). by rewrite (_size_ok _ _ Hr).
Qed.

(** ** The bytes of a frame *)

Definition id_byte (f : FrameSetPacket) : Z :=
  if is_fragment f && negb (fragment_index f =? 0) then 0x8c else 0x84.

Definition when {A} (b : bool) (l : list A) : list A := if b then l else [].

Definition index_bytes (f : FrameSetPacket) (r : Reliability) : list Z :=
  when (rel_b r) (to_bytes 3 Little (reliable_frame_index f)) ++
  when (sqd_b r) (to_bytes 3 Little (sequenced_frame_index f)) ++
  when (ord_b r) (to_bytes 3 Little (ordered_frame_index f) ++ [order_channel f]).

Definition fragment_bytes (f : FrameSetPacket) : list Z :=
  when (is_fragment f) (to_bytes 4 Big (compound_size f) ++
    to_bytes 2 Big (compound_id f) ++ to_bytes 4 Big (fragment_index f)).

Definition body_header (f : FrameSetPacket) (r : Reliability) : list Z :=
  [flags f] ++ to_bytes 2 Big (wrap 16 (length_in_bytes f * 8)) ++ index_bytes f r ++
  fragment_bytes f.

Definition header_bytes (f : FrameSetPacket) (r : Reliability) : list Z :=
  ([id_byte f] ++ to_bytes 3 Little (sequence_number f)) ++ body_header f r.

Definition frame_bytes (f : FrameSetPacket) (r : Reliability) : list Z :=
  body_header f r ++ FramePayload.deref (data f).

Section FrameBytes.
Implicit Types (f : FrameSetPacket) (r : Reliability).

Lemma writes_when {A} (b : bool) (w : Writer A) bs (a : A) :
  writes w bs a -> writes (if b then w else mret a) (when b bs) a.
Proof. destruct b; [done|]. intros _. apply writes_ret. Qed.

Lemma writes_lift {A B} (x : Result A) (a : A) (k : A -> Writer B) bs b :
  x = Ok a -> writes (k a) bs b -> writes (lift x ≫= k) bs b.
Proof. intros -> H buf. apply (H buf). Qed.

Lemma writes_header f r :
  reliability f = Ok r -> writes (write_header f) (header_bytes f r) tt.
Proof.
  intros Hr. unfold write_header, header_bytes, body_header, index_bytes. rewrite <- !app_assoc.
  eapply writes_bind.
  { unfold id_byte, is_fragment. destruct (negb _ && negb _); apply writes_u8. }
  do 3 (eapply writes_bind; [solve [eauto with wire]|]).
  eapply writes_lift; [by apply is_reliable_ok|].
  eapply writes_bind; [apply writes_when, writes_u24|].
  eapply writes_lift; [by apply is_sequenced_ok|].
  eapply writes_bind; [apply writes_when, writes_u24|].
  eapply writes_lift; [by apply is_ordered_ok|].
  eapply writes_bind; [apply writes_when; wire_writes|].
  apply writes_when. wire_writes.
Qed.

Lemma body_header_length f r :
  zlen (body_header f r) = header_size r (is_fragment f).
Proof.
  unfold body_header, index_bytes, fragment_bytes, header_size, when.
  rewrite !length_app, !to_bytes_length.
  destruct (rel_b r), (sqd_b r), (ord_b r), (is_fragment f);
    rewrite ?length_app, ?to_bytes_length; simpl; lia.
Qed.

Lemma header_bytes_length f r :
  zlen (header_bytes f r) = 4 + header_size r (is_fragment f).
Proof.
  unfold header_bytes. rewrite length_app, Nat2Z.inj_add, body_header_length.
  rewrite length_app, to_bytes_length. simpl. lia.
Qed.

Lemma drop_header f r : drop 4 (header_bytes f r) = body_header f r.
Proof. unfold header_bytes. apply drop_app_length'. by rewrite length_app, to_bytes_length. Qed.

Lemma frame_bytes_length f r :
  zlen (frame_bytes f r) = header_size r (is_fragment f) + data_len f.
Proof. unfold frame_bytes. by rewrite length_app, Nat2Z.inj_add, body_header_length. Qed.

Lemma encode_header_ok f r : validated f r -> encode_header f = Ok (header_bytes f r).
Proof.
  intros Hv. unfold encode_header.
  rewrite (proj2 (validate_inv f)) by eauto. simpl.
  by rewrite (writes_header f r (val_reliability _ _ Hv)).
Qed.

Lemma serialize_into_ok f r buf :
  validated f r ->
  serialize_into f buf = (Ok tt, header_bytes f r ++ FramePayload.deref (data f)).
Proof.
  intros Hv. unfold serialize_into. rewrite (proj2 (validate_inv f)) by eauto.
  rewrite (_size_ok f r) by apply Hv.
  do 3 (erewrite SE_bind_ok by reflexivity).
  erewrite SE_bind_ok by (apply writes_header, Hv). done.
Qed.
End FrameBytes.

(** ** Reading a frame back *)

(** A frame whose fields are within their wire widths. *)
Record frame_wf (f : FrameSetPacket) (r : Reliability) : Prop := {
  wf_validated : validated f r;
  wf_flags : in_range 8 (flags f);
  wf_sequence : in_range 24 (sequence_number f);
  wf_reliable : in_range 24 (reliable_frame_index f);
  wf_sequenced : in_range 24 (sequenced_frame_index f);
  wf_ordered : in_range 24 (ordered_frame_index f);
  wf_channel : in_range 8 (order_channel f);
  wf_size : in_range 32 (compound_size f);
  wf_id : in_range 16 (compound_id f);
  wf_index : in_range 32 (fragment_index f);
}.

(** What the wire carries of a frame: the fields its mode does not use are zero, the
    payload is an allocation of its own. *)
Definition on_wire (f : FrameSetPacket) (r : Reliability) : FrameSetPacket :=
  mk_frame (sequence_number f) (flags f) (length_in_bytes f)
    (if rel_b r then reliable_frame_index f else 0)
    (if sqd_b r then sequenced_frame_index f else 0)
    (if ord_b r then ordered_frame_index f else 0)
    (if ord_b r then order_channel f else 0)
    (if is_fragment f then compound_size f else 0)
    (if is_fragment f then compound_id f else 0)
    (if is_fragment f then fragment_index f else 0)
    (FramePayload.Owned (FramePayload.deref (data f))) None.

Section ReadFrame.
Implicit Types (f g : FrameSetPacket) (r : Reliability).

Lemma reads_lift {A B} (x : Result A) (a : A) (k : A -> Reader B) bs b :
  x = Ok a -> reads (k a) bs b -> reads (lift x ≫= k) bs b.
Proof. intros -> H rest p Hp Hl. by apply H. Qed.

Lemma reads_when {A} (c : bool) (m : Reader A) bs (a a' : A) :
  (c = true -> reads m bs a) -> (c = false -> a' = a) ->
  reads (if c then m else mret a') (when c bs) a.
Proof.
  destruct c; intros H1 H2; [by apply H1|]. rewrite H2 by done. apply reads_ret.
Qed.

Lemma reads_indexes g r (v1 v2 v3 c : Z) :
  reliability g = Ok r ->
  reliable_frame_index g = 0 -> sequenced_frame_index g = 0 ->
  ordered_frame_index g = 0 -> order_channel g = 0 ->
  in_range 24 v1 -> in_range 24 v2 -> in_range 24 v3 -> in_range 8 c ->
  reads (read_indexes g)
    (when (rel_b r) (to_bytes 3 Little v1) ++ when (sqd_b r) (to_bytes 3 Little v2) ++
     when (ord_b r) (to_bytes 3 Little v3 ++ [c]))
    (mk_frame (sequence_number g) (flags g) (length_in_bytes g)
       (if rel_b r then v1 else 0) (if sqd_b r then v2 else 0)
       (if ord_b r then v3 else 0) (if ord_b r then c else 0)
       (compound_size g) (compound_id g) (fragment_index g) (data g) (shared_payload g)).
Proof.
  intros Hr E1 E2 E3 E4 H1 H2 H3 H4. unfold read_indexes.
  eapply reads_lift; [by apply is_reliable_ok|].
  eapply (reads_bind _ _ _ _ (g <| reliable_frame_index := if rel_b r then v1 else 0 |>)).
  { apply reads_when; intros ->; [|destruct g; simpl in *; by subst].
    eapply reads_bind_last; [by apply reads_u24|]. apply reads_ret. }
  eapply reads_lift; [apply is_sequenced_ok, Hr|].
  eapply (reads_bind _ _ _ _ (g <| reliable_frame_index := if rel_b r then v1 else 0 |>
    <| sequenced_frame_index := if sqd_b r then v2 else 0 |>)).
  { apply reads_when; intros ->; [|destruct g; simpl in *; by subst].
    eapply reads_bind_last; [by apply reads_u24|]. apply reads_ret. }
  eapply reads_lift; [apply is_ordered_ok, Hr|].
  apply reads_when; intros ->; [|destruct g; simpl in *; by subst].
  eapply reads_bind; [by apply reads_u24|].
  eapply reads_bind_last; [by apply reads_u8|]. apply reads_ret.
Qed.

Lemma reads_decode_frame f r :
  frame_wf f r ->
  reads (decode_frame (sequence_number f)) (frame_bytes f r)
    (on_wire f r <| data := FramePayload.default |>, FramePayload.deref (data f)).
Proof.
  intros [[Hr Hl Hm Hf] Hfl Hsq H1 H2 H3 H4 H5 H6 H7].
  assert (0 <= data_len f) by (unfold data_len, FramePayload.len; lia).
  unfold decode_frame, frame_bytes, body_header. rewrite <- !app_assoc.
  eapply reads_bind; [by apply reads_u8|].
  eapply reads_bind; [apply reads_u16, wrap_range; lia|].
  rewrite wrap_small by (unfold in_range; lia).
  apply reads_pass; [rewrite Z.mod_mul by lia; done|].
  rewrite Z.div_mul by lia.
  set (g := empty_frame _ <| flags := flags f |> <| length_in_bytes := length_in_bytes f |>).
  eapply reads_bind.
  { by apply (reads_indexes g r). }
  eapply (reads_bind _ _ _ _ (on_wire f r <| data := FramePayload.default |>)).
  { change (is_fragment (mk_frame _ (flags g) _ _ _ _ _ _ _ _ _ _)) with (is_fragment f).
    unfold fragment_bytes. apply reads_when; unfold on_wire; intros Hfr; rewrite Hfr; [|done].
    specialize (Hf Hfr).
    eapply reads_bind; [by apply reads_u32|].
    eapply reads_bind; [by apply reads_u16|].
    eapply reads_bind_last; [by apply reads_u32|].
    apply reads_pass; [unfold in_range in *; simpl; lia|]. apply reads_ret. }
  eapply reads_bind_last; [|apply reads_ret].
  apply reads_read_slice. simpl. by rewrite <- Hl.
Qed.
End ReadFrame.

(** ** Packed datagrams *)

Definition rel_of (f : FrameSetPacket) : Reliability :=
  match reliability f with Ok r => r | Err _ => Reliability.Unreliable end.

Lemma rel_of_ok f r : reliability f = Ok r -> rel_of f = r.
Proof. unfold rel_of. by intros ->. Qed.

Definition datagram_bytes (first : FrameSetPacket) (frames : list FrameSetPacket) : list Z :=
  ([id_byte first] ++ to_bytes 3 Little (sequence_number first)) ++
  concat (map (fun f => frame_bytes f (rel_of f)) frames).

(** The frames of one datagram: valid, and all under one sequence number. *)
Definition group_wf (s : Z) (frames : list FrameSetPacket) : Prop :=
  Forall (fun f => frame_wf f (rel_of f) /\ sequence_number f = s) frames.

Section Groups.
Implicit Types (frames : list FrameSetPacket) (f first : FrameSetPacket).

Lemma serialize_group_loop_rest index first frames buf :
  group_wf (sequence_number first) frames ->
  serialize_group_loop (S index) first frames buf
  = (Ok tt, buf ++ concat (map (fun f => frame_bytes f (rel_of f)) frames)).
Proof.
  intros H. revert index buf. induction H as [|f frames [Hwf Hs] _ IH]; intros index buf.
  { simpl. by rewrite app_nil_r. }
  cbn [serialize_group_loop map concat]. rewrite Hs, Z.eqb_refl.
  rewrite (encode_header_ok f (rel_of f)) by apply Hwf.
  do 4 (erewrite SE_bind_ok by reflexivity). rewrite IH. rewrite drop_header.
  unfold frame_bytes. by rewrite <- !app_assoc.
Qed.

Lemma serialize_group_into_ok first frames buf :
  group_wf (sequence_number first) (first :: frames) ->
  serialize_group_into (first :: frames) buf
  = (Ok tt, datagram_bytes first (first :: frames)).
Proof.
  intros H. inversion H as [|? ? [Hwf _] Hrest]; subst. unfold serialize_group_into.
  do 2 (erewrite SE_bind_ok by reflexivity). cbn [serialize_group_loop]. rewrite Z.eqb_refl.
  rewrite (encode_header_ok first (rel_of first)) by apply Hwf.
  do 4 (erewrite SE_bind_ok by reflexivity).
  rewrite serialize_group_loop_rest by done.
  unfold datagram_bytes, frame_bytes, header_bytes. cbn [map concat]. by rewrite <- !app_assoc.
Qed.

Lemma group_bytes_bound s frames :
  group_wf s frames ->
  3 * zlen frames <= zlen (concat (map (fun f => frame_bytes f (rel_of f)) frames))
  <= 8214 * zlen frames.
Proof.
  induction 1 as [|f frames [Hwf _] _ IH]; cbn [map concat length]; [lia|].
  rewrite length_app, Nat2Z.inj_add, frame_bytes_length.
  pose proof (header_size_bounds (rel_of f) (is_fragment f)).
  pose proof (val_max _ _ (wf_validated _ _ Hwf)).
  assert (0 <= data_len f) by (unfold data_len, FramePayload.len; lia). lia.
Qed.

Lemma decode_loop_reads fuel s frames acc p :
  group_wf s frames -> (length frames <= fuel)%nat -> 0 <= p ->
  let bs := concat (map (fun f => frame_bytes f (rel_of f)) frames) in
  p + zlen bs < 2 ^ 64 ->
  (decode_loop fuel (p + zlen bs) s false acc (mk bs p)).1
  = Ok (acc ++ map (fun f => on_wire f (rel_of f)) frames).
Proof.
  intros H. revert fuel acc p. induction H as [|f frames [Hwf Hs] Hrest IH];
    intros fuel acc p Hfuel Hp bs Hlen.
  - subst bs. simpl in *. rewrite app_nil_r, Z.add_0_r.
    destruct fuel as [|fuel]; [done|]. simpl. unfold mbind, SE_bind, get, pos. simpl.
    by rewrite Z.ltb_irrefl.
  - destruct fuel as [|fuel]; [simpl in Hfuel; lia|].
    subst bs. cbn [map concat] in *. rewrite length_app in *.
    pose proof (frame_bytes_length f (rel_of f)) as Hfl.
    pose proof (header_size_bounds (rel_of f) (is_fragment f)).
    assert (0 <= data_len f) by (unfold data_len, FramePayload.len; lia).
    cbn [decode_loop]. erewrite SE_bind_ok by reflexivity. unfold pos at 1. cbn [position].
    rewrite (proj2 (Z.ltb_lt _ _)) by lia. rewrite <- Hs.
    erewrite SE_bind_ok by (apply reads_decode_frame; [done|lia|rewrite length_app; lia]).
    cbv beta iota. erewrite SE_bind_ok by reflexivity.
    replace (p + Z.of_nat (length (frame_bytes f (rel_of f)) +
      length (concat (map (fun f => frame_bytes f (rel_of f)) frames))))
      with (p + zlen (frame_bytes f (rel_of f)) +
        zlen (concat (map (fun f => frame_bytes f (rel_of f)) frames))) by lia.
    cbv iota. rewrite Hs. rewrite IH; [|simpl in Hfuel; lia|lia|lia].
    by rewrite <- app_assoc.
Qed.

Lemma decode_into_ok first frames :
  group_wf (sequence_number first) (first :: frames) -> zlen frames < 2 ^ 48 ->
  decode_into (datagram_bytes first (first :: frames))
  = Ok (map (fun f => on_wire f (rel_of f)) (first :: frames)).
Proof.
  intros H Hn. pose proof (group_bytes_bound _ _ H) as Hb.
  pose proof (Forall_inv H) as [Hwf _]. unfold decode_into, decode.
  set (payload := concat (map (fun f => frame_bytes f (rel_of f)) (first :: frames))) in *.
  assert (zlen (datagram_bytes first (first :: frames)) = 4 + zlen payload) as Hlen.
  { unfold datagram_bytes. rewrite !length_app, to_bytes_length. fold payload. simpl. lia. }
  assert (1 <= zlen (first :: frames) <= 2 ^ 48) by (simpl; lia).
  rewrite Hlen. unfold datagram_bytes. fold payload. rewrite <- app_assoc.
  assert (in_range 8 (id_byte first)) as Hid.
  { unfold id_byte, in_range. case_if; lia. }
  assert (negb ((128 <=? id_byte first) && (id_byte first <=? 141)) = false) as Hidr.
  { unfold id_byte. by case_if. }
  unfold RaknetReader.new.
  erewrite SE_bind_ok by (apply reads_u8; [done|lia|rewrite !length_app, ?to_bytes_length; cbn [length]; lia]).
  rewrite Hidr. erewrite SE_bind_ok by reflexivity.
  erewrite SE_bind_ok by (apply reads_u24; [apply Hwf|lia|rewrite !length_app, ?to_bytes_length; cbn [length]; lia]).
  erewrite SE_bind_ok by reflexivity. unfold pos. cbn [position].
  rewrite to_bytes_length. change (0 + zlen [id_byte first] + Z.of_nat 3) with 4.
  unfold fail_if. rewrite (proj2 (Z.eqb_neq _ _)) by lia. erewrite SE_bind_ok by reflexivity.
  rewrite (decode_loop_reads _ _ (first :: frames) [] 4); [done|done|..|lia|fold payload; lia].
  rewrite !length_app, to_bytes_length. fold payload. lia.
Qed.
End Groups.

(** ** What every decoded frame satisfies *)

Section DecodeInversion.
Implicit Types (rd : RaknetReader) (r : Reliability).

Lemma parsed_optional_u24 {A} (c : bool) (k : Z -> A) a0 rd a rd' :
  a0 = k 0 -> bytes_ok rd ->
  (if c then v ← read_u24 Little; mret (k v) else mret a0) rd = (Ok a, rd') ->
  exists v, a = k v /\ parsed rd (when c (to_bytes 3 Little v)) rd' /\ in_range 24 v /\
    (c = false -> v = 0).
Proof.
  intros -> Hok H. destruct c.
  - apply SE_bind_inv in H as (v & rd1 & [Hp Hv]%parsed_u24 & H); [|done].
    inversion H; subst. by exists v.
  - inversion H; subst. exists 0. split_and!; try done. apply parsed_nil.
Qed.

Lemma read_indexes_inv s fl len rd g rd' :
  bytes_ok rd ->
  read_indexes (mk_frame s fl len 0 0 0 0 0 0 0 FramePayload.default None) rd = (Ok g, rd') ->
  exists r v1 v2 v3 c,
    g = mk_frame s fl len v1 v2 v3 c 0 0 0 FramePayload.default None /\
    reliability g = Ok r /\ parsed rd (index_bytes g r) rd' /\
    in_range 24 v1 /\ in_range 24 v2 /\ in_range 24 v3 /\ in_range 8 c /\
    (rel_b r = false -> v1 = 0) /\ (sqd_b r = false -> v2 = 0) /\
    (ord_b r = false -> v3 = 0 /\ c = 0).
Proof.
  intros Hok H. set (g0 := mk_frame s fl len _ _ _ _ _ _ _ _ _) in H.
  apply SE_bind_inv in H as (b & ? & E & H). injection E as E <-.
  apply is_reliable_inv in E as (r & Hr & ->).
  apply SE_bind_inv in H as (? & rd1 & Hx & H).
  apply (parsed_optional_u24 _ (fun v => g0 <| reliable_frame_index := v |>)) in Hx
    as (v1 & -> & P1 & R1 & Z1); [|done..].
  apply SE_bind_inv in H as (b & ? & E & H). injection E as E <-.
  rewrite (is_sequenced_ok _ r) in E by exact Hr. injection E as <-.
  apply SE_bind_inv in H as (? & rd2 & Hx & H).
  apply (parsed_optional_u24 _ (fun v => g0 <| reliable_frame_index := v1 |>
    <| sequenced_frame_index := v |>)) in Hx as (v2 & -> & P2 & R2 & Z2);
    [|done|by eapply parsed_bytes_ok].
  apply SE_bind_inv in H as (b & ? & E & H). injection E as E <-.
  rewrite (is_ordered_ok _ r) in E by exact Hr. injection E as <-.
  assert (bytes_ok rd2) as Hok2 by (do 2 (eapply parsed_bytes_ok; [done|]); done).
  pose proof (parsed_trans _ _ _ _ _ P1 P2) as P12.
  exists r, v1, v2. destruct (ord_b r) eqn:Eo.
  - apply SE_bind_inv in H as (v3 & rd3 & [P3 R3]%parsed_u24 & H); [|done].
    apply SE_bind_inv in H as (c & rd4 & [P4 R4]%parsed_u8 & H); [|by eapply parsed_bytes_ok].
    inversion H; subst. exists v3, c. split_and!; try done.
    unfold index_bytes. cbn [reliable_frame_index sequenced_frame_index ordered_frame_index
      order_channel]. rewrite Eo, app_assoc.
    eapply parsed_trans; [done|]. by eapply parsed_trans.
  - inversion H; subst. exists 0, 0. split_and!; try done.
    unfold index_bytes. rewrite Eo, app_nil_r. done.
Qed.

(** The fragment header, where the flags ask for one. *)
Lemma read_fragment_inv s fl len v1 v2 v3 c rd g rd' :
  let f := mk_frame s fl len v1 v2 v3 c 0 0 0 FramePayload.default None in
  bytes_ok rd ->
  (if is_fragment f
   then s ← read_u32 Big; i ← read_u16 Big; x ← read_u32 Big;
        let f := f <| compound_size := s |> <| compound_id := i |> <| fragment_index := x |> in
        _ ← fail_if ((compound_size f =? 0) || (compound_size f <=? fragment_index f)) PacketParseError;
        mret f
   else mret f) rd = (Ok g, rd') ->
  exists sz id ix, g = mk_frame s fl len v1 v2 v3 c sz id ix FramePayload.default None /\
    parsed rd (fragment_bytes g) rd' /\ in_range 32 sz /\ in_range 16 id /\ in_range 32 ix /\
    (is_fragment g = true -> 0 <> sz /\ ix < sz) /\
    (is_fragment g = false -> sz = 0 /\ id = 0 /\ ix = 0).
Proof.
  intros f Hok Hg. destruct (is_fragment f) eqn:Ef.
  - apply SE_bind_inv in Hg as (sz & r1 & [Q1 ?]%parsed_u32 & Hg); [|done].
    pose proof (parsed_bytes_ok _ _ _ Q1 Hok).
    apply SE_bind_inv in Hg as (id & r2 & [Q2 ?]%parsed_u16 & Hg); [|done].
    pose proof (parsed_bytes_ok _ _ _ Q2).
    apply SE_bind_inv in Hg as (ix & r3 & [Q3 ?]%parsed_u32 & Hg); [|auto].
    apply SE_bind_inv in Hg as (u' & r3' & E & Hg).
    unfold fail_if in E. destruct (_ || _) eqn:Eo in E; [discriminate|]. injection E as _ <-.
    injection Hg as <- <-. exists sz, id, ix. cbn in Eo. split_and!; try done.
    + unfold fragment_bytes. change (is_fragment _) with (negb (Z.land fl 16 =? 0)).
      unfold f in Ef. change (is_fragment _) with (negb (Z.land fl 16 =? 0)) in Ef. rewrite Ef.
      eapply parsed_trans; [exact Q1|]. by eapply parsed_trans.
    + intros _. blia.
    + unfold f, is_fragment in *. cbn in *. congruence.
  - injection Hg as <- <-. exists 0, 0, 0. split_and!; try done.
    + unfold fragment_bytes. rewrite Ef. apply parsed_nil.
    + by rewrite Ef.
Qed.

(** A frame as decoded: its header bytes determine it, and it carries no leftovers. *)
Definition decoded (s : Z) (f : FrameSetPacket) : Prop :=
  frame_wf f (rel_of f) /\ sequence_number f = s /\ on_wire f (rel_of f) = f.

Lemma decode_frame_inv s rd f b rd' :
  bytes_ok rd -> in_range 24 s -> decode_frame s rd = (Ok (f, b), rd') ->
  let g := f <| data := FramePayload.Owned b |> in
  parsed rd (frame_bytes g (rel_of g)) rd' /\ decoded s g.
Proof.
  intros Hok Hs H.
  apply SE_bind_inv in H as (fl & rd1 & [P1 R1]%parsed_u8 & H); [|done].
  pose proof (parsed_bytes_ok _ _ _ P1 Hok) as Hok1.
  apply SE_bind_inv in H as (bits & rd2 & [P2 R2]%parsed_u16 & H); [|done].
  pose proof (parsed_bytes_ok _ _ _ P2 Hok1) as Hok2.
  apply SE_bind_inv in H as (u & rd2' & E & H).
  unfold fail_if in E. destruct (negb _) eqn:Em; [discriminate|]. injection E as _ <-.
  apply negb_false_iff, Z.eqb_eq in Em.
  assert (bits = bits / 8 * 8) as Ebits by (pose proof (Z.div_mod bits 8); lia).
  set (len := bits / 8) in *.
  apply SE_bind_inv in H as (g1 & rd3 & Hi & H).
  apply (read_indexes_inv s fl len) in Hi as (r & v1 & v2 & v3 & c & -> & Hr & P3 & Q); [|done].
  pose proof (parsed_bytes_ok _ _ _ P3 Hok2) as Hok3.
  apply SE_bind_inv in H as (g2 & rd4 & Hg & H).
  apply (read_fragment_inv s fl len v1 v2 v3 c) in Hg as (sz & id & ix & -> & P4 & R3 & R4 & R5 & Hfrag & Hnf); [|done].
  apply SE_bind_inv in H as (b' & rd5 & [P5 Hb]%parsed_read_slice & H); [|simpl; unfold in_range in *; lia].
  injection H as <- <- <-. simpl in Hb. intros g.
  destruct Q as (? & ? & ? & ? & Z1 & Z2 & Z3).
  unfold decoded. assert (rel_of g = r) as -> by (by apply rel_of_ok).
  split; [|split; [|split; [done|]]].
  - unfold frame_bytes, body_header. rewrite <- !app_assoc. unfold in_range in R2.
    eapply parsed_trans; [done|]. eapply parsed_trans.
    { simpl length_in_bytes. rewrite <- Ebits, wrap_small by done. exact P2. }
    eapply parsed_trans; [exact P3|]. eapply parsed_trans; [exact P4|exact P5].
  - unfold in_range in R2. split; try done.
    split; [exact Hr|unfold data_len, FramePayload.len; simpl; lia| |exact Hfrag].
    unfold data_len, FramePayload.len; simpl; lia.
  - unfold on_wire, g. change (is_fragment _) with (is_fragment (mk_frame s fl len v1 v2 v3 c sz id ix FramePayload.default None)).
    cbn. destruct (rel_b r); [|rewrite Z1 by done]; (destruct (sqd_b r); [|rewrite Z2 by done]);
      (destruct (ord_b r); [|destruct Z3 as [-> ->]; [done|]]);
      (destruct (is_fragment _); [|destruct Hnf as (-> & -> & ->); [done|]]); done.
Qed.
End DecodeInversion.

Section DecodeLoop.
Implicit Types (rd : RaknetReader) (fs frames acc : list FrameSetPacket).

Lemma frame_bytes_nonempty f r : (3 <= length (frame_bytes f r))%nat.
Proof.
  pose proof (frame_bytes_length f r). pose proof (header_size_bounds r (is_fragment f)).
  assert (0 <= data_len f) by (unfold data_len, FramePayload.len; lia). lia.
Qed.

(** The fuel is enough: the loop ends only at the end of the buffer. *)
Lemma decode_loop_inv fuel s acc rd frames rd' :
  bytes_ok rd -> in_range 24 s -> (length (unread rd) <= fuel)%nat ->
  decode_loop fuel (position rd + remaining rd) s false acc rd = (Ok frames, rd') ->
  exists fs, frames = acc ++ fs /\ Forall (decoded s) fs /\
    unread rd = concat (map (fun f => frame_bytes f (rel_of f)) fs).
Proof.
  intros Hok Hs. remember (position rd + remaining rd) as n eqn:En.
  revert acc rd Hok En. induction fuel as [|fuel IH]; intros acc rd Hok En Hfuel H.
  { injection H as <- <-. exists []. rewrite app_nil_r. split_and!; try done.
    destruct (unread rd); [done|simpl in Hfuel; lia]. }
  cbn [decode_loop] in H. unfold remaining in En.
  apply SE_bind_inv in H as (rd0 & ? & E & H). injection E as <- <-.
  unfold pos at 1 in H. case_if_in H.
  - apply SE_bind_inv in H as ([f b] & rd1 & Hf & H).
    apply decode_frame_inv in Hf as [P D]; [|done..]. set (g := f <| data := _ |>) in *.
    apply SE_bind_inv in H as (rd0 & ? & E & H). injection E as <- <-.
    destruct P as [Pu Pp]. pose proof (frame_bytes_nonempty g (rel_of g)).
    rewrite Pu, length_app in En, Hfuel. apply IH in H as (fs & -> & Hd & Hu).
    + exists (g :: fs). split_and!; [by rewrite <- app_assoc|by constructor|].
      rewrite Pu, Hu. done.
    + by apply (parsed_bytes_ok rd (frame_bytes g (rel_of g))).
    + unfold remaining. lia.
    + lia.
  - injection H as <- <-. exists []. rewrite app_nil_r. split_and!; try done.
    destruct (unread rd); [done|]. simpl in En. blia.
Qed.

(** After the first frame the two paths run the same code. *)
Lemma decode_loop_owned fuel n s acc rd :
  acc ≠ [] -> decode_loop fuel n s true acc rd = decode_loop fuel n s false acc rd.
Proof.
  revert acc rd. induction fuel as [|fuel IH]; intros acc rd Hacc; [done|]. cbn [decode_loop].
  unfold mbind, SE_bind, get. case_if; [|done].
  destruct (decode_frame s rd) as [[[f b]|e] rd1]; [|done].
  assert (Nat.eqb (length acc) 0 = false) as -> by (destruct acc; done). simpl.
  apply IH. by destruct acc.
Qed.

(** The owned path over the first frame. *)
Lemma decode_loop_owned_first fuel s rd buf pre :
  bytes_ok rd -> in_range 24 s -> (length (unread rd) <= fuel)%nat ->
  buf = pre ++ unread rd -> position rd = zlen pre -> zlen buf < 2 ^ 64 ->
  match (decode_loop fuel (zlen buf) s true [] rd).1 with
  | Ok [frame] =>
      Ok [frame <| data := FramePayload.Owned (take (Z.to_nat (length_in_bytes frame))
           (drop (Z.to_nat (usize_sub (zlen buf) (length_in_bytes frame))) buf)) |>]
  | res => res
  end = (decode_loop fuel (zlen buf) s false [] rd).1.
Proof.
  intros Hok Hs Hfuel Hbuf Hpos Hlen.
  assert (zlen buf = position rd + remaining rd) as Hn
    by (unfold remaining; rewrite Hbuf, length_app; lia).
  destruct fuel as [|fuel]; [done|]. cbn [decode_loop].
  unfold mbind, SE_bind, get, pos. case_if; [|done].
  destruct (decode_frame s rd) as [[[f b]|e] rd1] eqn:Hf; [|done]. cbn [negb orb app length].
  apply decode_frame_inv in Hf as [[Pu Pp] D]; [|done..]. set (g := f <| data := _ |>) in *.
  pose proof (frame_bytes_nonempty g (rel_of g)) as Hne.
  assert (bytes_ok rd1) as Hok1.
  { unfold bytes_ok in *. rewrite Pu in Hok. by apply Forall_app in Hok as [_ ?]. }
  assert (Z.of_nat (length b) = length_in_bytes f) as Hb
    by exact (val_length _ _ (wf_validated _ _ (proj1 D))).
  unfold remaining in Hn. rewrite Pu, length_app in Hn, Hfuel.
  destruct (position rd1 =? zlen buf) eqn:Ep; cbn [Nat.eqb negb orb].
  - assert (unread rd1 = []) as Hu by (destruct (unread rd1); simpl in *; [done|blia]).
    assert (forall acc o, decode_loop fuel (zlen buf) s o acc rd1 = (Ok acc, rd1)) as Hend.
    { intros acc o. destruct fuel; [done|]. cbn [decode_loop]. unfold mbind, SE_bind, get, pos.
      rewrite (proj2 (Z.ltb_ge _ _)) by blia. done. }
    rewrite !Hend. simpl. do 3 f_equal. unfold g, set_field, set_data. do 2 f_equal.
    rewrite <- Hb. rewrite Pu, Hu, app_nil_r in Hbuf. unfold frame_bytes in Hbuf.
    change (FramePayload.deref (data g)) with b in Hbuf. rewrite app_assoc in Hbuf.
    assert (zlen b <= zlen buf) by (rewrite Hbuf, length_app; lia).
    rewrite usize_sub_exact by lia.
    rewrite Hbuf, length_app, Nat2Z.id.
    replace (Z.to_nat (Z.of_nat (length (pre ++ body_header g (rel_of g)) + length b) - zlen b))
      with (length (pre ++ body_header g (rel_of g))) by lia.
    by rewrite drop_app_length, firstn_all.
  - rewrite decode_loop_owned by done.
    destruct (decode_loop fuel _ s false [g] rd1) as [[frames|e] rd2] eqn:E; [|done].
    replace (zlen buf) with (position rd1 + remaining rd1) in E by (unfold remaining; lia).
    apply decode_loop_inv in E as (fs & -> & _ & Hu); [|done|done|lia]. simpl.
    destruct fs; [|done]. simpl in Hu. rewrite Hu in Hn. cbn [length] in Hn. apply Z.eqb_neq in Ep. lia.
Qed.

(** The common prefix of both paths. *)
Lemma decode_prefix buf :
  Forall (in_range 8) buf ->
  (exists e, forall owned, decode buf owned = Err e) \/
  (exists id s rd, 0x80 <= id <= 0x8d /\ in_range 24 s /\ bytes_ok rd /\
     buf = ([id] ++ to_bytes 3 Little s) ++ unread rd /\ position rd = 4 /\ unread rd ≠ [] /\
     forall owned, decode buf owned = (decode_loop (length buf) (zlen buf) s owned [] rd).1).
Proof.
  intros Hbuf. unfold decode.
  destruct (read_u8 (RaknetReader.new buf)) as [[id|e] rd1] eqn:E1;
    [|left; exists e; intros; by erewrite SE_bind_err by exact E1].
  pose proof E1 as [P1 R1]%parsed_u8; [|exact Hbuf].
  pose proof (parsed_bytes_ok _ _ _ P1 Hbuf) as Hok1.
  destruct ((128 <=? id) && (id <=? 141)) eqn:Ei.
  2: { left. eexists. intros. erewrite SE_bind_ok by exact E1. by rewrite Ei. }
  destruct (read_u24 Little rd1) as [[s|e] rd2] eqn:E2.
  2: { left. exists e. intros. erewrite SE_bind_ok by exact E1. rewrite Ei.
       erewrite SE_bind_ok by reflexivity. by erewrite SE_bind_err by exact E2. }
  pose proof E2 as [P2 R2]%parsed_u24; [|done].
  pose proof (parsed_trans _ _ _ _ _ P1 P2) as [Hu Hp].
  rewrite length_app, to_bytes_length in Hp. cbn [unread position RaknetReader.new length] in Hu, Hp.
  assert (zlen buf = 4 + zlen (unread rd2)) as Hlen.
  { rewrite Hu. cbn [length app]. rewrite length_app, to_bytes_length. lia. }
  destruct (position rd2 =? zlen buf) eqn:Ep; [left; eexists|right; exists id, s, rd2].
  2: split_and!; [b2p; lia|b2p; lia|done|by eapply parsed_bytes_ok|exact Hu|lia|
       intros E; rewrite E in Hlen; simpl in Hlen; blia|].
  all: intros owned; erewrite SE_bind_ok by exact E1; rewrite Ei;
    erewrite SE_bind_ok by reflexivity; erewrite SE_bind_ok by exact E2;
    erewrite SE_bind_ok by reflexivity; unfold pos; by rewrite Ep.
Qed.

Lemma decoded_group_wf s fs :
  Forall (decoded s) fs ->
  group_wf s fs /\ map (fun f => on_wire f (rel_of f)) fs = fs.
Proof.
  induction 1 as [|f fs (? & ? & E) _ [IH1 IH2]]; [by split; [constructor|]|].
  split; [by constructor|]. simpl. by rewrite E, IH2.
Qed.

Lemma decode_into_inv buf frames :
  Forall (in_range 8) buf -> decode_into buf = Ok frames ->
  exists id s first rest, frames = first :: rest /\ 0x80 <= id <= 0x8d /\
    Forall (decoded s) frames /\
    buf = ([id] ++ to_bytes 3 Little s) ++
      concat (map (fun f => frame_bytes f (rel_of f)) frames).
Proof.
  intros Hbuf H. apply decode_prefix in Hbuf as
    [[e He]|(id & s & rd & Hid & Hs & Hok & Eb & Hp & Hne & Hd)].
  { unfold decode_into in H. by rewrite He in H. }
  unfold decode_into in H. rewrite Hd in H.
  destruct (decode_loop _ _ _ _ _ _) as [[fs|] rd'] eqn:E; [|done]. injection H as ->.
  assert (zlen buf = position rd + remaining rd) as Hn.
  { rewrite Eb, !length_app, to_bytes_length. unfold remaining. simpl. lia. }
  rewrite Hn in E. apply decode_loop_inv in E as (fs & -> & HD & Hu); [|done|done|].
  2: rewrite Eb, !length_app; lia.
  simpl. destruct fs as [|first rest]; [done|]. exists id, s, first, rest.
  split_and!; [done|lia|lia|done|]. by rewrite <- Hu.
Qed.
End DecodeLoop.

(** ** Properties *)

(** C22: a group of frames packed into one datagram decodes to those frames: the encoder
    succeeds whatever the caller's buffer held, and the decoder returns, in order, the
    fields each frame's reliability mode carries on the wire and the whole payload. *)
Theorem datagram_roundtrip first frames buf :
  group_wf (sequence_number first) (first :: frames) -> zlen frames < 2 ^ 48 ->
  exists bytes,
    serialize_group_into (first :: frames) buf = (Ok tt, bytes) /\
    decode_into bytes = Ok (map (fun f => on_wire f (rel_of f)) (first :: frames)).
Proof.
  intros H Hn. exists (datagram_bytes first (first :: frames)).
  split; [by apply serialize_group_into_ok|by apply decode_into_ok].
Qed.

(** A reliable-ordered frame and the last fragment of a message, in one datagram. *)
Definition sample_frames : list FrameSetPacket :=
  [mk_frame 7 0x60 3 5 0 9 2 0 0 0 (FramePayload.Owned [1; 2; 3]) None;
   mk_frame 7 0x50 2 6 0 0 0 4 1 3 (FramePayload.Shared [9; 8; 7] 1 2) (Some 0)].

Lemma sample_frames_wf : group_wf 7 sample_frames.
Proof.
  repeat constructor; try (vm_compute; congruence); simpl; intros; try discriminate;
    unfold in_range; lia.
Qed.

Lemma datagram_roundtrip_witness :
  exists bytes, serialize_group_into sample_frames [] = (Ok tt, bytes) /\
    decode_into bytes = Ok (map (fun f => on_wire f (rel_of f)) sample_frames).
Proof. apply datagram_roundtrip; [exact sample_frames_wf|vm_compute; congruence]. Defined.

(** The frame that keeps the allocation gets the bytes the copy would have. *)
Lemma decode_owned_into_eq buf :
  Forall (in_range 8) buf -> zlen buf < 2 ^ 64 -> decode_owned_into buf = decode_into buf.
Proof.
  intros Hbuf Hlen. unfold decode_owned_into, decode_into.
  destruct (decode_prefix buf Hbuf) as
    [[e He]|(id & s & rd & _ & Hs & Hok & Eb & Hp & _ & Hd)]; [by rewrite !He|].
  rewrite !Hd. rewrite <- (decode_loop_owned_first _ s rd buf ([id] ++ to_bytes 3 Little s));
    try done.
  - by destruct (decode_loop _ _ s true [] rd).1 as [[|? [|]]|].
  - rewrite Eb, !length_app. lia.
Qed.

(** Decoding in place, which hands the datagram's allocation to a single frame, and
    decoding by copy return the same frames or the same error on every datagram. *)
Theorem owned_decode_equivalent buf :
  Forall (in_range 8) buf -> zlen buf < 2 ^ 64 -> decode_owned_into buf = decode_into buf.
Proof. apply decode_owned_into_eq. Qed.

Lemma owned_decode_equivalent_witness :
  let buf := [0x84; 7; 0; 0; 0x40; 0; 8; 1; 0; 0; 42] in
  decode_owned_into buf = decode_into buf /\ is_ok (decode_into buf) = true.
Proof.
  split; [apply owned_decode_equivalent|vm_compute; done].
  - repeat constructor; unfold in_range; lia.
  - vm_compute. done.
Defined.

(** The decoder is canonical. When it accepts a datagram, it accepted all of it:
    encoding the frames it returned gives the same datagram back (but for the identifier
    byte, of which the decoder accepts fourteen), and that one decodes to them again. *)
Theorem decoded_datagram_reencodes buf frames :
  Forall (in_range 8) buf -> zlen buf < 2 ^ 32 -> decode_into buf = Ok frames ->
  exists bytes, serialize_group_into frames [] = (Ok tt, bytes) /\
    drop 1 bytes = drop 1 buf /\ decode_into bytes = Ok frames.
Proof.
  intros Hbuf Hlen H.
  apply decode_into_inv in H as (id & s & first & rest & -> & _ & HD & Eb); [|done].
  destruct (decoded_group_wf _ _ HD) as [Hwf Hmap].
  assert (sequence_number first = s) as Hs by (by inversion HD as [|? ? (_ & ? & _)]).
  pose proof (group_bytes_bound _ _ Hwf) as Hb. rewrite <- Hs in Hwf.
  exists (datagram_bytes first (first :: rest)). split_and!.
  - by apply serialize_group_into_ok.
  - rewrite Eb, <- Hs. done.
  - rewrite decode_into_ok, Hmap; [done|done|].
    rewrite Eb, !length_app in Hlen. cbn [length] in *. lia.
Qed.

Lemma decoded_datagram_reencodes_witness :
  let buf := [0x80; 7; 0; 0; 0x40; 0; 8; 1; 0; 0; 42; 0x00; 0; 8; 43] in
  exists frames bytes, decode_into buf = Ok frames /\
    serialize_group_into frames [] = (Ok tt, bytes) /\
    drop 1 bytes = drop 1 buf /\ decode_into bytes = Ok frames.
Proof.
  intros buf. eexists.
  edestruct (decoded_datagram_reencodes buf) as (bytes & H1 & H2 & H3).
  - repeat constructor; unfold in_range; lia.
  - vm_compute. done.
  - vm_compute. reflexivity.
  - exists bytes. split; [vm_compute; reflexivity|]. split; [exact H1|].
    split; [exact H2|exact H3].
Defined.

(** The three encoders of a frame agree. Whenever [serialize] succeeds, packing the
    frame alone gives the same bytes, [_size] is their number, [encode_header] is their
    prefix, the header fits in 27 of the 32 bytes reserved for it and the bit length does
    not overflow its sixteen bits; when [serialize] fails, packing fails the same way. *)
Theorem frame_encoders_agree f buf :
  match serialize f with
  | Ok bytes =>
      serialize_group_into [f] buf = (Ok tt, bytes) /\ _size f = Ok (zlen bytes) /\
      (exists header, encode_header f = Ok header /\ zlen header <= 27 /\
         bytes = header ++ FramePayload.deref (data f)) /\
      length_in_bytes f * 8 < 2 ^ 16
  | Err e => serialize_group_into [f] buf = (Err e, [])
  end.
Proof.
  unfold serialize, serialize_group_into.
  destruct (validate f) as [[]|e] eqn:E.
  - destruct (proj1 (validate_inv f) E) as [r Hv]. rewrite (serialize_into_ok f r) by done.
    pose proof (header_bytes_length f r) as Hl.
    pose proof (header_size_bounds r (is_fragment f)).
    pose proof Hv as [Hr ? ? _]. split_and!.
    + do 2 (erewrite SE_bind_ok by reflexivity). cbn [serialize_group_loop].
      rewrite Z.eqb_refl, (encode_header_ok f r) by done. done.
    + rewrite (_size_ok f r), length_app by done. f_equal. unfold data_len, FramePayload.len. lia.
    + exists (header_bytes f r). split; [by apply encode_header_ok|]. split; [lia|done].
    + lia.
  - assert (serialize_into f [] = (Err e, [])) as -> by (unfold serialize_into; by rewrite E).
    do 2 (erewrite SE_bind_ok by reflexivity). cbn [serialize_group_loop].
    rewrite Z.eqb_refl. unfold encode_header. by rewrite E.
Qed.
