(* ===== verification/Fragment.v ===== *)
(** * Reassembly of fragmented messages

    [src/src/fragment.rs]: [Fragment], the fragments of one message received so far, and
    [FragmentQ], the messages being reassembled. Instants are a parameter [now] of the
    operations that read the clock, in nanoseconds. *)

From S2P Require Import Prelude Errors Frame FrameCodec.

Definition MAX_FRAGMENTS : Z := 65536.

(** [usize::checked_add]. *)
Definition checked_add (a b : Z) : option Z :=
  if a + b <? 2 ^ 64 then Some (a + b) else None.

Module Fragment.

Record Fragment := mk {
  flags : Z;
  compound_size : Z;
  ordered_frame_index : Z;
  order_channel : Z;
  frames : gmap Z FrameSetPacket;
  bytes : Z;
  updated : Z;
}.

#[export] Instance set_frames : Setter frames := fun g r =>
  mk (flags r) (compound_size r) (ordered_frame_index r) (order_channel r) (g (frames r))
    (bytes r) (updated r).
#[export] Instance set_bytes : Setter bytes := fun g r =>
  mk (flags r) (compound_size r) (ordered_frame_index r) (order_channel r) (frames r)
    (g (bytes r)) (updated r).
#[export] Instance set_updated : Setter updated := fun g r =>
  mk (flags r) (compound_size r) (ordered_frame_index r) (order_channel r) (frames r)
    (bytes r) (g (updated r)).

Definition new (now flags compound_size ordered_frame_index order_channel : Z) : Fragment :=
  mk flags compound_size ordered_frame_index order_channel ∅ 0 now.

Definition full (self : Fragment) : bool :=
  negb (compound_size self =? 0) && (Z.of_nat (size (frames self)) =? compound_size self).

(** The bytes the queue accounts for a fragment. *)
Definition cost (frame : FrameSetPacket) : Z := data_len frame + 128.

Definition insert (now : Z) (frame : FrameSetPacket) : SE Fragment Z := fun self =>
  if full self then (Ok 0, self)
  else if (compound_size self <=? Frame.fragment_index frame)
       || negb (Frame.compound_size frame =? compound_size self)
       || negb (Frame.order_channel frame =? order_channel self)
       || negb (Frame.ordered_frame_index frame =? ordered_frame_index self)
       || negb (Z.land (Frame.flags frame) 0xe0 =? Z.land (flags self) 0xe0)
  then (Err PacketParseError, self)
  else match frames self !! Frame.fragment_index frame with
  | None =>
      let added := cost frame in
      (Ok added,
       self <| frames := <[Frame.fragment_index frame := frame]> (frames self) |>
            <| bytes := bytes self + added |> <| updated := now |>)
  | Some _ => (Ok 0, self)
  end.

(** [(0..compound_size).try_fold(...)]. *)
Fixpoint capacity (self : Fragment) (indexes : list Z) (total : Z) : option Z :=
  match indexes with
  | [] => Some total
  | index :: indexes =>
      frame ← frames self !! index;
      total ← checked_add total (data_len frame);
      capacity self indexes total
  end.

(** The loop that concatenates the payloads. *)
Fixpoint collect (self : Fragment) (indexes : list Z) (data : list Z) : Result (list Z) :=
  match indexes with
  | [] => Ok data
  | index :: indexes =>
      frame ← ok_or (frames self !! index) PacketParseError;
      collect self indexes (data ++ FramePayload.deref (Frame.data frame))
  end.

Definition merge (self : Fragment) : Result FrameSetPacket :=
  if negb (full self) then Err PacketParseError
  else
    last_index ← ok_or (if compound_size self =? 0 then None else Some (compound_size self - 1))
      PacketParseError;
    last ← ok_or (frames self !! last_index) PacketParseError;
    _ ← ok_or (capacity self (seqZ 0 (compound_size self)) 0) PacketSizeExceedMTU;
    data ← collect self (seqZ 0 (compound_size self)) [];
    r ← Reliability.from (Z.shiftr (Z.land (flags self) 224) 5);
    Ok (new_frame r data <| Frame.ordered_frame_index := ordered_frame_index self |>
         <| Frame.order_channel := order_channel self |>
         <| Frame.sequence_number := sequence_number last |>).

End Fragment.
Abbreviation Fragment := Fragment.Fragment.

Module FragmentQ.
Import Fragment.

Record FragmentQ := mk { fragments : gmap Z Fragment; bytes : Z }.

#[export] Instance set_fragments : Setter fragments := fun g r => mk (g (fragments r)) (bytes r).
#[export] Instance set_bytes : Setter bytes := fun g r => mk (fragments r) (g (bytes r)).

Definition default : FragmentQ := mk ∅ 0.

Definition BYTE_LIMIT : Z := 64 * 1024 * 1024.

(** The guards of [insert_frame]. *)
Definition refuses (self : FragmentQ) (frame : FrameSetPacket) : bool :=
  (Frame.compound_size frame =? 0)
  || (MAX_FRAGMENTS <? Frame.compound_size frame)
  || (BYTE_LIMIT <? sat_usize (bytes self + cost frame))
  || ((1024 <=? Z.of_nat (size (fragments self)))
      && negb (bool_decide (is_Some (fragments self !! compound_id frame)))).

(** [or_insert_with] leaves its entry behind also when [Fragment::insert] then fails. *)
Definition insert_frame (now : Z) (frame : FrameSetPacket) : SE FragmentQ Z := fun self =>
  let compound_id := compound_id frame in
  if refuses self frame then (Err PacketParseError, self)
  else
    let fragment :=
      match fragments self !! compound_id with
      | Some fragment => fragment
      | None => new now (Frame.flags frame) (Frame.compound_size frame)
                  (Frame.ordered_frame_index frame) (Frame.order_channel frame)
      end in
    match insert now frame fragment with
    | (Ok added, fragment) =>
        (Ok compound_id, self <| fragments := <[compound_id := fragment]> (fragments self) |>
                              <| bytes := bytes self + added |>)
    | (Err e, fragment) =>
        (Err e, self <| fragments := <[compound_id := fragment]> (fragments self) |>)
    end.

Definition insert_and_take_completed (now : Z) (frame : FrameSetPacket)
    : SE FragmentQ (option FrameSetPacket) :=
  compound_id ← insert_frame now frame;
  self ← get;
  match fragments self !! compound_id with
  | Some fragment =>
      if full fragment then
        _ ← put (self <| fragments := delete compound_id (fragments self) |>
                      <| bytes := usize_sub (bytes self) (Fragment.bytes fragment) |>);
        frame ← lift (merge fragment);
        mret (Some frame)
      else mret None
  | None => mret None
  end.

(** [FragmentQ::size] and [FragmentQ::expired]; a duration is in nanoseconds. *)
Definition queue_size (self : FragmentQ) : Z := Z.of_nat (size (fragments self)).

Definition expired (now : Z) (self : FragmentQ) : bool :=
  anyb (fun kv => 60 * 10 ^ 9 <=? Z.max 0 (now - updated kv.2)) (map_to_list (fragments self)).

End FragmentQ.
Abbreviation FragmentQ := FragmentQ.FragmentQ.

(** ** The invariant *)

(** What the decoder guarantees of a frame it passes on as a fragment. *)
Definition arriving (f : FrameSetPacket) : Prop :=
  (exists r, reliability f = Ok r) /\ 0 <= fragment_index f /\ 0 <= compound_size f.

(** The frame belongs to the message. *)
Definition agrees (F : Fragment) (f : FrameSetPacket) : Prop :=
  0 <= fragment_index f < Fragment.compound_size F /\
  compound_size f = Fragment.compound_size F /\
  order_channel f = Fragment.order_channel F /\
  ordered_frame_index f = Fragment.ordered_frame_index F /\
  Z.land (flags f) 0xe0 = Z.land (Fragment.flags F) 0xe0.

Record fragment_wf (F : Fragment) : Prop := {
  fw_size : 1 <= Fragment.compound_size F <= MAX_FRAGMENTS;
  fw_mode : exists r, Reliability.from (Z.shiftr (Z.land (Fragment.flags F) 224) 5) = Ok r;
  fw_frames : forall i f, Fragment.frames F !! i = Some f -> fragment_index f = i /\ agrees F f;
  fw_bytes : Fragment.bytes F = map_sum Fragment.cost (Fragment.frames F);
}.

(** Every byte of the counter is a buffered byte, the limits hold, and no complete message
    stays behind. *)
Record queue_wf (q : FragmentQ) : Prop := {
  qw_bytes : FragmentQ.bytes q = map_sum Fragment.bytes (FragmentQ.fragments q);
  qw_limit : FragmentQ.bytes q <= FragmentQ.BYTE_LIMIT;
  qw_size : FragmentQ.queue_size q <= 1024;
  qw_fragments : forall id F, FragmentQ.fragments q !! id = Some F ->
    fragment_wf F /\ Fragment.full F = false;
}.

(** The entry a fragment is added to. *)
Definition entry_of (now : Z) (f : FrameSetPacket) (q : FragmentQ) : Fragment :=
  match FragmentQ.fragments q !! compound_id f with
  | Some F => F
  | None => Fragment.new now (flags f) (compound_size f) (ordered_frame_index f) (order_channel f)
  end.

(** A complete message, put together. *)
Definition payloads (F : Fragment) : list Z :=
  concat (map (fun i => match Fragment.frames F !! i with
                        | Some f => FramePayload.deref (data f)
                        | None => []
                        end) (seqZ 0 (Fragment.compound_size F))).

Section FragmentLemmas.
Implicit Types (F : Fragment) (f : FrameSetPacket) (q : FragmentQ).

Lemma cost_pos f : 128 <= Fragment.cost f.
Proof. unfold Fragment.cost, data_len, FramePayload.len. lia. Qed.

Lemma fragment_bytes_nonneg F : fragment_wf F -> 0 <= Fragment.bytes F.
Proof.
  intros H. rewrite (fw_bytes _ H). apply map_sum_nonneg. intros i f _.
  pose proof (cost_pos f). lia.
Qed.

Lemma queue_bytes_nonneg q : queue_wf q -> 0 <= FragmentQ.bytes q.
Proof.
  intros H. rewrite (qw_bytes _ H). apply map_sum_nonneg. intros i F HF.
  by apply fragment_bytes_nonneg, (qw_fragments _ H i).
Qed.

Lemma full_inv F :
  Fragment.full F = true <->
  Fragment.compound_size F ≠ 0 /\ Z.of_nat (size (Fragment.frames F)) = Fragment.compound_size F.
Proof. unfold Fragment.full. rewrite andb_true_iff, negb_true_iff, Z.eqb_neq, Z.eqb_eq. done. Qed.

(** Insertion, branch by branch: into a message that is not complete. *)
Lemma fragment_insert_cases now f F :
  Fragment.full F = false -> 0 <= fragment_index f ->
  (~ agrees F f /\ Fragment.insert now f F = (Err PacketParseError, F)) \/
  (agrees F f /\ exists g, Fragment.frames F !! fragment_index f = Some g /\
     Fragment.insert now f F = (Ok 0, F)) \/
  (agrees F f /\ Fragment.frames F !! fragment_index f = None /\
     Fragment.insert now f F =
       (Ok (Fragment.cost f),
        Fragment.mk (Fragment.flags F) (Fragment.compound_size F) (Fragment.ordered_frame_index F)
          (Fragment.order_channel F) (<[fragment_index f := f]> (Fragment.frames F))
          (Fragment.bytes F + Fragment.cost f) now)).
Proof.
  intros Hf Hi. unfold Fragment.insert, agrees. rewrite Hf.
  case_if; [left; split; [|done]; intros (? & ? & ? & ? & ?); b2p; intuition lia|].
  right. repeat match goal with H : _ || _ = false |- _ => apply orb_false_iff in H as [? ?] end.
  b2p. destruct (Fragment.frames F !! fragment_index f) as [g|] eqn:E; [left|right];
    (split; [split_and!; lia|]); [exists g|]; done.
Qed.

Lemma agrees_fields F F' f :
  Fragment.flags F' = Fragment.flags F -> Fragment.compound_size F' = Fragment.compound_size F ->
  Fragment.ordered_frame_index F' = Fragment.ordered_frame_index F ->
  Fragment.order_channel F' = Fragment.order_channel F -> agrees F f -> agrees F' f.
Proof. unfold agrees. by intros -> -> -> ->. Qed.

Lemma fragment_insert_wf now f F n F' :
  fragment_wf F -> Fragment.full F = false -> 0 <= fragment_index f ->
  Fragment.insert now f F = (Ok n, F') ->
  fragment_wf F' /\ Fragment.bytes F' = Fragment.bytes F + n /\ 0 <= n <= Fragment.cost f.
Proof.
  intros Hwf Hfull Hi H. pose proof (cost_pos f).
  destruct (fragment_insert_cases now f F Hfull Hi) as
    [(_ & E)|[(_ & g & _ & E)|(Ha & Hn & E)]]; rewrite E in H; [done|..]; injection H as <- <-.
  { split_and!; [done|lia|lia|lia]. }
  split; [|simpl; lia]. destruct Hwf as [Hs Hm Hfr Hb]. split; simpl; try done.
  - intros i g [[<- <-]|[_ Hg]]%lookup_insert_Some; [done|]. by apply Hfr.
  - rewrite Hb, map_sum_insert by done. lia.
Qed.

Lemma capacity_ok F indexes total :
  (forall i, i ∈ indexes -> is_Some (Fragment.frames F !! i)) ->
  total + zlen indexes * FragmentQ.BYTE_LIMIT < 2 ^ 64 -> 0 <= total ->
  (forall i f, Fragment.frames F !! i = Some f -> data_len f <= FragmentQ.BYTE_LIMIT) ->
  is_Some (Fragment.capacity F indexes total).
Proof.
  revert total. induction indexes as [|i indexes IH]; intros total Hin Hlim Ht Hd; simpl; [eauto|].
  destruct (Hin i (list_elem_of_here _ _)) as [f Hf]. rewrite Hf. simpl.
  specialize (Hd i f Hf) as Hdf. cbn [length] in Hlim.
  assert (0 <= data_len f) by (unfold data_len, FramePayload.len; lia).
  unfold FragmentQ.BYTE_LIMIT in Hlim, Hdf.
  unfold checked_add. case_if; [|blia]. simpl. apply IH; [|unfold FragmentQ.BYTE_LIMIT; lia|lia|done].
  intros j Hj. apply Hin. by apply list_elem_of_further.
Qed.

Lemma collect_ok F indexes acc :
  (forall i, i ∈ indexes -> is_Some (Fragment.frames F !! i)) ->
  Fragment.collect F indexes acc = Ok (acc ++ concat (map (fun i =>
    match Fragment.frames F !! i with Some f => FramePayload.deref (data f) | None => [] end)
    indexes)).
Proof.
  revert acc. induction indexes as [|i indexes IH]; intros acc Hin; simpl.
  { by rewrite app_nil_r. }
  destruct (Hin i (list_elem_of_here _ _)) as [f Hf]. rewrite Hf. simpl.
  rewrite IH; [by rewrite app_assoc|]. intros j Hj. apply Hin. by apply list_elem_of_further.
Qed.

(** A complete message within the limit merges. *)
Lemma merge_ok F :
  fragment_wf F -> Fragment.full F = true -> Fragment.bytes F <= FragmentQ.BYTE_LIMIT ->
  exists r last,
    Reliability.from (Z.shiftr (Z.land (Fragment.flags F) 224) 5) = Ok r /\
    Fragment.frames F !! (Fragment.compound_size F - 1) = Some last /\
    Fragment.merge F = Ok (mk_frame (sequence_number last) (Z.shiftl (Reliability.to_u8 r) 5)
      (wrap 16 (zlen (payloads F))) 0 0 (Fragment.ordered_frame_index F) (Fragment.order_channel F)
      0 0 0 (FramePayload.Owned (payloads F)) None).
Proof.
  intros [Hs [r Hr] Hfr Hb] Hfull Hlim. pose proof (proj1 (full_inv F) Hfull) as [_ Hsize].
  assert (forall i, 0 <= i < Fragment.compound_size F -> is_Some (Fragment.frames F !! i)) as Hall.
  { apply map_full; [|done]. intros i f Hf. specialize (Hfr i f Hf) as [<- [? _]]. lia. }
  destruct (Hall (Fragment.compound_size F - 1)) as [last Hlast]; [lia|].
  exists r, last. split; [done|]. split; [done|]. unfold Fragment.merge. rewrite Hfull. simpl.
  rewrite (proj2 (Z.eqb_neq _ _)) by lia. simpl. rewrite Hlast. simpl.
  assert (forall i, i ∈ seqZ 0 (Fragment.compound_size F) -> is_Some (Fragment.frames F !! i)) as Hin.
  { intros i Hi%elem_of_seqZ. apply Hall. lia. }
  destruct (capacity_ok F (seqZ 0 (Fragment.compound_size F)) 0) as [c Hc]; [done| |lia| |].
  { rewrite length_seqZ. unfold MAX_FRAGMENTS, FragmentQ.BYTE_LIMIT in *. lia. }
  { intros i f Hf. assert (Fragment.cost f <= Fragment.bytes F).
    { rewrite Hb. apply (map_sum_lookup_le _ _ i); [|done]. intros ? g _. pose proof (cost_pos g). lia. }
    unfold Fragment.cost in *. lia. }
  rewrite Hc. simpl. rewrite collect_ok by done. simpl. rewrite Hr. done.
Qed.
End FragmentLemmas.

Section QueueLemmas.
Implicit Types (F : Fragment) (f : FrameSetPacket) (q : FragmentQ).
Import FragmentQ.

Lemma refuses_size q f :
  arriving f -> refuses q f = false -> 1 <= Frame.compound_size f <= MAX_FRAGMENTS.
Proof. intros (_ & _ & Hc) H. unfold refuses in H. b2p. lia. Qed.

Lemma refuses_limits q f :
  queue_wf q -> refuses q f = false ->
  bytes q + Fragment.cost f <= BYTE_LIMIT /\
  (fragments q !! compound_id f = None -> queue_size q < 1024).
Proof.
  intros Hq H. pose proof (queue_bytes_nonneg q Hq). pose proof (cost_pos f).
  unfold refuses in H. repeat match goal with H : _ || _ = false |- _ => apply orb_false_iff in H as [? ?] end.
  unfold sat_usize, U64_MAX, BYTE_LIMIT in *. split; [blia|].
  intros Hn. rewrite Hn in *. rewrite bool_decide_eq_false_2 in * by (by intros [? ?]).
  rewrite andb_true_r in *. unfold queue_size. blia.
Qed.

Lemma entry_wf now f q :
  queue_wf q -> arriving f -> refuses q f = false ->
  fragment_wf (entry_of now f q) /\ Fragment.full (entry_of now f q) = false.
Proof.
  intros Hq Ha Href. apply (refuses_size q f Ha) in Href as Hs.
  destruct Ha as ([r Hr] & Hi & _). unfold entry_of.
  destruct (fragments q !! compound_id f) as [F|] eqn:E; [by apply (qw_fragments q Hq _ _ E)|].
  split.
  - split; simpl; try done. by exists r.
  - apply not_true_iff_false. intros [_ H]%full_inv. simpl in H.
    rewrite map_size_empty in H. lia.
Qed.

Lemma entry_bytes_le now f q : queue_wf q -> Fragment.bytes (entry_of now f q) <= bytes q.
Proof.
  intros Hq. unfold entry_of.
  destruct (fragments q !! compound_id f) as [F|] eqn:E; [|by apply queue_bytes_nonneg].
  rewrite (qw_bytes q Hq). apply (map_sum_lookup_le _ _ (compound_id f)); [|done].
  intros i G HG. by apply fragment_bytes_nonneg, (qw_fragments q Hq i).
Qed.

(** Every outcome of [insert_and_take_completed]. *)
Lemma take_completed_cases now f q :
  queue_wf q -> arriving f ->
  let F := entry_of now f q in
  (refuses q f = true /\ insert_and_take_completed now f q = (Err PacketParseError, q)) \/
  (refuses q f = false /\ ~ agrees F f /\
   insert_and_take_completed now f q =
     (Err PacketParseError, mk (<[compound_id f := F]> (fragments q)) (bytes q))) \/
  (refuses q f = false /\ agrees F f /\ exists n F', Fragment.insert now f F = (Ok n, F') /\
   if Fragment.full F'
   then exists m, Fragment.merge F' = Ok m /\
     insert_and_take_completed now f q =
       (Ok (Some m), mk (delete (compound_id f) (fragments q)) (bytes q + n - Fragment.bytes F'))
   else insert_and_take_completed now f q =
       (Ok None, mk (<[compound_id f := F']> (fragments q)) (bytes q + n))).
Proof.
  intros Hq Ha F. unfold insert_and_take_completed.
  destruct (refuses q f) eqn:Href; [left|right].
  { split; [done|]. erewrite SE_bind_err by (unfold insert_frame; by rewrite Href). done. }
  destruct (entry_wf now f q Hq Ha Href) as [Hwf Hnf]. fold F in Hwf, Hnf.
  pose proof (refuses_limits q f Hq Href) as [Hlim _].
  pose proof (fragment_insert_cases now f F Hnf (proj1 (proj2 Ha))) as Hcases.
  assert (insert_frame now f q =
    match Fragment.insert now f F with
    | (Ok added, F') => (Ok (compound_id f),
        mk (<[compound_id f := F']> (fragments q)) (bytes q + added))
    | (Err e, F') => (Err e, mk (<[compound_id f := F']> (fragments q)) (bytes q))
    end) as Hif by (unfold insert_frame; by rewrite Href).
  destruct (Fragment.insert now f F) as [[n|e] F'] eqn:Hins.
  2: { left. destruct Hcases as [(? & E)|[(_ & g & _ & E)|(_ & _ & E)]]; [|done..].
       injection E as -> ->. by rewrite (SE_bind_err _ _ _ _ _ Hif). }
  right. destruct Hcases as [(? & E)|Hcases]; [done|].
  assert (agrees F f) by (destruct Hcases as [(? & _)|(? & _)]; done).
  split; [done|]. split; [done|]. exists n, F'. split; [done|].
  destruct (fragment_insert_wf now f F n F' Hwf Hnf (proj1 (proj2 Ha)) Hins) as (Hwf' & Hb & Hn).
  rewrite (SE_bind_ok _ _ _ _ _ Hif). erewrite SE_bind_ok by reflexivity. cbn [fragments].
  rewrite lookup_insert_eq. destruct (Fragment.full F') eqn:Hfull; [|done].
  assert (0 <= Fragment.bytes F <= bytes q) as HF
    by (split; [by apply fragment_bytes_nonneg|by apply entry_bytes_le]).
  unfold BYTE_LIMIT in *.
  destruct (merge_ok F' Hwf' Hfull) as (r & last & _ & _ & Hm); [unfold BYTE_LIMIT; lia|].
  eexists. split; [exact Hm|]. erewrite SE_bind_ok by reflexivity.
  erewrite SE_bind_ok by (unfold lift; by rewrite Hm).
  unfold set_field, set_fragments, set_bytes. cbn [fragments bytes].
  rewrite delete_insert_eq, usize_sub_exact by lia. done.
Qed.

(** A completed message inherits the order of its fragments. *)
Lemma take_completed_some now f q m q' :
  queue_wf q -> arriving f -> insert_and_take_completed now f q = (Ok (Some m), q') ->
  order_channel m = order_channel f /\ ordered_frame_index m = ordered_frame_index f /\
  reliability m = reliability f /\ is_fragment m = false.
Proof.
  intros Hq Ha H.
  destruct (take_completed_cases now f q Hq Ha) as
    [(_ & E)|[(_ & _ & E)|(Href & Hag & n & F' & Hins & E)]]; [congruence..|].
  destruct (entry_wf now f q Hq Ha Href) as [Hwf Hnf].
  destruct (fragment_insert_wf _ _ _ _ _ Hwf Hnf (proj1 (proj2 Ha)) Hins) as (Hwf' & Hb & Hn).
  destruct (Fragment.full F') eqn:Hfull; [|congruence].
  destruct E as (m' & Hm & E). rewrite E in H. injection H as -> <-.
  destruct (merge_ok F' Hwf' Hfull) as (r & l & Hr & _ & Hm').
  { pose proof (refuses_limits q f Hq Href) as [Hlim _]. pose proof (entry_bytes_le now f q Hq). lia. }
  rewrite Hm in Hm'. injection Hm' as ->.
  assert (agrees F' f) as (_ & _ & Hc & Ho & Hf).
  { destruct (fragment_insert_cases now f (entry_of now f q) Hnf (proj1 (proj2 Ha))) as
      [(_ & E')|[(_ & g & _ & E')|(_ & _ & E')]]; rewrite E' in Hins; [done|..];
      injection Hins as <- <-; exact Hag. }
  change 0xe0 with 224 in Hf. unfold reliability at 2. rewrite Hf, Hr.
  split_and!; try done; by destruct r.
Qed.

Lemma queue_size_insert q f F b :
  queue_wf q -> refuses q f = false ->
  queue_size (mk (<[compound_id f := F]> (fragments q)) b) <= 1024.
Proof.
  intros Hq Href. pose proof (refuses_limits q f Hq Href) as [_ Hs].
  pose proof (qw_size q Hq). unfold queue_size in *. simpl.
  destruct (fragments q !! compound_id f) eqn:E.
  - rewrite map_size_insert_Some; eauto.
  - rewrite map_size_insert_None by done. specialize (Hs eq_refl). lia.
Qed.

(** The counter after the entry of [f] became [F'], which has [n] more bytes. *)
Lemma queue_sum_insert now q f F' n :
  queue_wf q -> Fragment.bytes F' = Fragment.bytes (entry_of now f q) + n ->
  bytes q + n = map_sum Fragment.bytes (<[compound_id f := F']> (fragments q)).
Proof.
  intros Hq Hb. rewrite (qw_bytes q Hq). unfold entry_of in Hb.
  destruct (fragments q !! compound_id f) as [F|] eqn:E.
  - rewrite (map_sum_replace _ _ _ F) by done. lia.
  - rewrite map_sum_insert by done. simpl in Hb. lia.
Qed.

Lemma queue_sum_take now q f F' n :
  queue_wf q -> Fragment.bytes F' = Fragment.bytes (entry_of now f q) + n ->
  bytes q + n - Fragment.bytes F' = map_sum Fragment.bytes (delete (compound_id f) (fragments q)).
Proof.
  intros Hq Hb. rewrite (qw_bytes q Hq). unfold entry_of in Hb.
  destruct (fragments q !! compound_id f) as [F|] eqn:E.
  - rewrite (map_sum_delete _ _ _ F) by done. lia.
  - rewrite delete_id by done. simpl in Hb. lia.
Qed.

Lemma take_completed_wf now f q :
  queue_wf q -> arriving f ->
  queue_wf (insert_and_take_completed now f q).2.
Proof.
  intros Hq Ha.
  destruct (take_completed_cases now f q Hq Ha) as
    [(_ & ->)|[(Href & _ & ->)|(Href & _ & n & F' & Hins & H)]]; [done|..]; simpl.
  - pose proof (entry_wf now f q Hq Ha Href) as [Hwf Hnf].
    pose proof (queue_sum_insert now q f _ 0 Hq (eq_sym (Z.add_0_r _))) as Hsum.
    split; simpl; [lia|apply Hq|by apply (queue_size_insert _ _ _ (bytes q))|].
    intros id F [[_ <-]|[_ HF]]%lookup_insert_Some; [done|by apply (qw_fragments q Hq id)].
  - pose proof (entry_wf now f q Hq Ha Href) as [Hwf Hnf].
    pose proof (fragment_insert_wf _ _ _ _ _ Hwf Hnf (proj1 (proj2 Ha)) Hins) as (Hwf' & Hb & Hn).
    pose proof (refuses_limits q f Hq Href) as [Hlim _].
    destruct (Fragment.full F') eqn:Hfull; [destruct H as (m & _ & ->)|rewrite H]; simpl.
    + pose proof (fragment_bytes_nonneg _ Hwf').
      split; simpl; [by apply (queue_sum_take now)|lia| |].
      * pose proof (qw_size q Hq). unfold queue_size in *. simpl.
        rewrite map_size_delete. unfold id. case_match; lia.
      * intros id F [_ HF]%lookup_delete_Some. by apply (qw_fragments q Hq id).
    + split; simpl; [by apply (queue_sum_insert now)|lia|by apply (queue_size_insert _ _ _ (bytes q + n))|].
      intros id F [[_ <-]|[_ HF]]%lookup_insert_Some; [done|by apply (qw_fragments q Hq id)].
Qed.
End QueueLemmas.

(** ** Reassembly *)

(** The frames of one message: [n] fragments under one id that agree on everything but
    their index and payload. *)
Record message (id : Z) (fs : list FrameSetPacket) : Prop := {
  msg_size : 1 <= zlen fs <= MAX_FRAGMENTS;
  msg_arriving : forall f, f ∈ fs -> arriving f;
  msg_frames : forall i f, fs !! i = Some f ->
    compound_id f = id /\ fragment_index f = Z.of_nat i /\ compound_size f = zlen fs;
  msg_agree : forall f g, f ∈ fs -> g ∈ fs ->
    order_channel f = order_channel g /\ ordered_frame_index f = ordered_frame_index g /\
    Z.land (flags f) 0xe0 = Z.land (flags g) 0xe0;
}.

(** A sequence of arrivals, each with the instant it is handled at: what each of them
    completed. *)
Fixpoint insert_all (arrivals : list (Z * FrameSetPacket))
    : SE FragmentQ (list (option FrameSetPacket)) :=
  match arrivals with
  | [] => mret []
  | (now, f) :: arrivals =>
      completed ← FragmentQ.insert_and_take_completed now f;
      rest ← insert_all arrivals;
      mret (completed :: rest)
  end.

(** The entry [F] holds exactly the fragments of [fs] among [seen]. *)
Definition holds (fs seen : list FrameSetPacket) (F : Fragment) : Prop :=
  (forall f, f ∈ fs -> agrees F f) /\
  (forall i f, Fragment.frames F !! i = Some f <-> f ∈ fs /\ fragment_index f = i /\ f ∈ seen).

Definition tracks (id : Z) (fs seen : list FrameSetPacket) (q : FragmentQ) : Prop :=
  match FragmentQ.fragments q !! id with
  | Some F => holds fs seen F
  | None => forall f, f ∈ fs -> f ∉ seen
  end.

Section Reassembly.
Context (id : Z) (fs : list FrameSetPacket) (Hmsg : message id fs).
Implicit Types (F : Fragment) (f g : FrameSetPacket) (q : FragmentQ) (seen : list FrameSetPacket).
Import FragmentQ.

Lemma message_index_inj f g : f ∈ fs -> g ∈ fs -> fragment_index f = fragment_index g -> f = g.
Proof.
  intros [i Hi]%list_elem_of_lookup [j Hj]%list_elem_of_lookup E.
  pose proof (msg_frames _ _ Hmsg i f Hi) as (_ & E1 & _).
  pose proof (msg_frames _ _ Hmsg j g Hj) as (_ & E2 & _).
  assert (i = j) as -> by lia. congruence.
Qed.

Lemma message_fields f :
  f ∈ fs -> compound_id f = id /\ 0 <= fragment_index f < zlen fs /\ compound_size f = zlen fs.
Proof.
  intros [i Hi]%list_elem_of_lookup. pose proof (msg_frames _ _ Hmsg i f Hi) as (? & ? & ?).
  pose proof (lookup_lt_Some _ _ _ Hi). split_and!; lia.
Qed.

Lemma entry_holds now f q seen :
  f ∈ fs -> tracks id fs seen q -> holds fs seen (entry_of now f q).
Proof.
  intros Hf Ht. pose proof (message_fields f Hf) as (Hid & _ & Hs).
  unfold entry_of, tracks in *. rewrite Hid. destruct (fragments q !! id) as [F|]; [done|].
  split.
  - intros g Hg. pose proof (message_fields g Hg) as (_ & ? & Hgs).
    pose proof (msg_agree _ _ Hmsg g f Hg Hf) as (? & ? & ?).
    unfold agrees. simpl. split_and!; try done; lia.
  - intros i g. simpl. rewrite lookup_empty. split; [done|]. intros (Hg & _ & Hs'). by destruct (Ht g Hg).
Qed.

Lemma insert_holds now f F seen n F' :
  f ∈ fs -> Fragment.full F = false -> holds fs seen F ->
  Fragment.insert now f F = (Ok n, F') -> holds fs (f :: seen) F'.
Proof.
  intros Hf Hnf [Ha Hh] Hins. pose proof (message_fields f Hf) as (_ & ? & _).
  destruct (fragment_insert_cases now f F Hnf ltac:(lia)) as
    [(Hna & E)|[(_ & g & Hg & E)|(_ & Hn & E)]]; rewrite E in Hins; [done|..];
    injection Hins as <- <-.
  - apply Hh in Hg as (Hg & Ei & Hs). apply message_index_inj in Ei as ->; [|done..].
    split; [done|]. intros i g. rewrite Hh, elem_of_cons. naive_solver.
  - split; [done|]. intros i g. simpl. rewrite lookup_insert_Some, Hh, elem_of_cons.
    split; [naive_solver|]. intros (Hg & Ei & [->|Hs]); [naive_solver|].
    destruct (decide (fragment_index f = i)) as [Ef|]; [|naive_solver].
    left. split; [done|]. apply message_index_inj; congruence.
Qed.

Lemma holds_full F seen :
  holds fs seen F -> Fragment.full F = true <-> (forall f, f ∈ fs -> f ∈ seen).
Proof.
  intros [Ha Hh]. pose proof (msg_size _ _ Hmsg).
  assert (Fragment.compound_size F = zlen fs) as Hsz.
  { destruct (lookup_lt_is_Some_2 fs 0) as [f0 H0%list_elem_of_lookup_2]; [lia|].
    pose proof (message_fields f0 H0) as (_ & _ & <-).
    by destruct (Ha f0 H0) as (_ & -> & _). }
  assert (forall i f, Fragment.frames F !! i = Some f -> 0 <= i < zlen fs) as Hk.
  { intros i f (Hf & <- & _)%Hh. by destruct (message_fields f Hf) as (_ & ? & _). }
  rewrite full_inv, Hsz. split.
  - intros [_ Hsize] f Hf. pose proof (message_fields f Hf) as (_ & Hi & _).
    destruct (map_full _ _ Hk Hsize (fragment_index f) Hi) as [g Hg].
    apply Hh in Hg as (Hg & Ei & Hs). apply message_index_inj in Ei as ->; done.
  - intros Hall. split; [lia|]. apply map_full_size; [done|lia|]. intros i Hi.
    destruct (lookup_lt_is_Some_2 fs (Z.to_nat i)) as [f Hf]; [lia|].
    pose proof (msg_frames _ _ Hmsg _ _ Hf) as (_ & Ei & _).
    apply list_elem_of_lookup_2 in Hf. exists f. apply Hh. split_and!; [done|lia|auto].
Qed.

Lemma holds_payloads F seen :
  holds fs seen F -> (forall f, f ∈ fs -> f ∈ seen) -> Fragment.compound_size F = zlen fs ->
  payloads F = concat (map (fun f => FramePayload.deref (data f)) fs) /\
  Fragment.frames F !! (Fragment.compound_size F - 1) = fs !! pred (length fs).
Proof.
  intros [_ Hh] Hall Hsz. pose proof (msg_size _ _ Hmsg).
  assert (forall i f, fs !! i = Some f -> Fragment.frames F !! Z.of_nat i = Some f) as Hi.
  { intros i f Hf. apply Hh. pose proof (msg_frames _ _ Hmsg _ _ Hf) as (_ & Ei & _).
    apply list_elem_of_lookup_2 in Hf. auto. }
  split.
  - unfold payloads. f_equal. apply list_eq. intros i. rewrite !list_lookup_fmap.
    destruct (fs !! i) as [f|] eqn:Hf.
    + pose proof (lookup_lt_Some _ _ _ Hf). rewrite lookup_seqZ_lt by lia.
      rewrite Z.add_0_l. simpl. by rewrite (Hi i f Hf).
    + apply lookup_ge_None in Hf. rewrite lookup_seqZ_ge by lia. done.
  - destruct (lookup_lt_is_Some_2 fs (pred (length fs))) as [f Hf]; [lia|].
    rewrite Hf, <- (Hi _ _ Hf). f_equal. lia.
Qed.

(** What the arrivals of one step do to the entry of the message. *)
Lemma take_completed_tracks now f q seen res q' :
  queue_wf q -> arriving f -> (f ∈ fs \/ compound_id f ≠ id) -> tracks id fs seen q ->
  (exists g, g ∈ fs /\ g ∉ f :: seen) ->
  insert_and_take_completed now f q = (Ok res, q') ->
  tracks id fs (f :: seen) q' /\ (f ∈ fs -> res = None).
Proof.
  intros Hq Ha Hf Ht (g & Hg & Hgs) H. pose proof Ha as (_ & Hi & _).
  destruct (take_completed_cases now f q Hq Ha) as
    [(_ & E)|[(_ & _ & E)|(Href & _ & n & F' & Hins & E)]]; [congruence..|].
  destruct (entry_wf now f q Hq Ha Href) as [_ Hnf].
  assert (compound_id f ≠ id -> fragments q' !! id = fragments q !! id) as Hother.
  { intros Hne. destruct (Fragment.full F'); [destruct E as (m & _ & E)|]; rewrite E in H;
      injection H as <- <-; simpl; [by rewrite lookup_delete_ne|by rewrite lookup_insert_ne]. }
  destruct (decide (compound_id f = id)) as [Eid|Hne].
  - destruct Hf as [Hf|]; [|done].
    pose proof (insert_holds now f _ seen _ _ Hf Hnf (entry_holds now f q seen Hf Ht) Hins) as Hh.
    destruct (Fragment.full F') eqn:Hfull.
    { destruct Hgs. by apply (proj1 (holds_full F' _ Hh) Hfull). }
    rewrite E in H. injection H as <- <-. split; [|done]. unfold tracks. simpl.
    by rewrite Eid, lookup_insert_eq.
  - assert (f ∉ fs) as Hnf' by (intros Hf'; by destruct (message_fields f Hf') as (? & _)).
    split; [|done]. unfold tracks in *. rewrite (Hother Hne).
    destruct (fragments q !! id) as [F|].
    + destruct Ht as [Ht1 Ht2]. split; [done|]. intros i h. rewrite Ht2, elem_of_cons. naive_solver.
    + intros h Hh [->|?]%elem_of_cons; [done|by apply (Ht h)].
Qed.

Lemma insert_all_tracks arrivals q seen results q' :
  queue_wf q -> (forall a, a ∈ arrivals -> arriving a.2 /\ (a.2 ∈ fs \/ compound_id a.2 ≠ id)) ->
  tracks id fs seen q -> (exists g, g ∈ fs /\ g ∉ map snd arrivals ++ seen) ->
  insert_all arrivals q = (Ok results, q') ->
  queue_wf q' /\ (exists seen', tracks id fs seen' q' /\ forall f, f ∈ seen' <-> f ∈ map snd arrivals ++ seen) /\
  (forall i a, arrivals !! i = Some a -> a.2 ∈ fs -> results !! i = Some None).
Proof.
  revert q seen results. induction arrivals as [|[now f] arrivals IH];
    intros q seen results Hq Hin Ht Hg H.
  { injection H as <- <-. split; [done|]. split; [by exists seen|done]. }
  simpl in H. apply SE_bind_inv in H as (res & q1 & H1 & H).
  apply SE_bind_inv in H as (rest & q2 & H2 & H). injection H as <- <-.
  destruct (Hin (now, f) (list_elem_of_here _ _)) as [Ha Hf]. simpl in Ha, Hf, Hg.
  pose proof (take_completed_wf now f q Hq Ha) as Hq1. rewrite H1 in Hq1. simpl in Hq1.
  destruct (take_completed_tracks now f q seen res q1) as [Ht1 Hres]; try done.
  { destruct Hg as (g & ? & ?). exists g. split; [done|]. set_solver. }
  destruct (IH q1 (f :: seen) rest) as (Hq2 & (seen' & Ht2 & Hs) & Hrest); try done.
  { intros a Hain. apply Hin. by apply list_elem_of_further. }
  { destruct Hg as (g & ? & ?). exists g. split; [done|]. set_solver. }
  split; [done|]. split.
  - exists seen'. split; [done|]. intros h. rewrite Hs. simpl. set_solver.
  - intros [|i] a Hi Hafs; simpl in *; [|by apply (Hrest i a)].
    injection Hi as <-. simpl in Hafs. by rewrite Hres.
Qed.

(** The arrival that completes the message. *)
Lemma take_completed_final now x q seen res q' :
  queue_wf q -> x ∈ fs -> tracks id fs seen q -> (forall f, f ∈ fs -> f ∈ x :: seen) ->
  insert_and_take_completed now x q = (Ok res, q') ->
  fragments q' !! id = None /\
  exists m l, res = Some m /\ fs !! pred (length fs) = Some l /\
    FramePayload.deref (data m) = concat (map (fun f => FramePayload.deref (data f)) fs) /\
    reliability m = reliability x /\ is_fragment m = false /\
    ordered_frame_index m = ordered_frame_index x /\ order_channel m = order_channel x /\
    sequence_number m = sequence_number l.
Proof.
  intros Hq Hx Ht Hall H. pose proof (msg_arriving _ _ Hmsg x Hx) as Ha.
  pose proof (message_fields x Hx) as (Hid & _ & Hsz).
  destruct (take_completed_cases now x q Hq Ha) as
    [(_ & E)|[(_ & _ & E)|(Href & Hag & n & F' & Hins & E)]]; [congruence..|].
  destruct (entry_wf now x q Hq Ha Href) as [Hwf Hnf].
  pose proof (insert_holds now x _ seen _ _ Hx Hnf (entry_holds now x q seen Hx Ht) Hins) as Hh.
  destruct (fragment_insert_wf _ _ _ _ _ Hwf Hnf (proj1 (proj2 Ha)) Hins) as (Hwf' & Hb & Hn).
  assert (Fragment.full F' = true) as Hfull by (by apply (holds_full F' _ Hh)).
  rewrite Hfull in E. destruct E as (m & Hm & E). rewrite E in H. injection H as <- <-.
  split; [by rewrite <- Hid; apply lookup_delete_eq|].
  destruct (proj1 Hh x Hx) as (_ & Hcs & Hch & Hord & Hfl).
  destruct (merge_ok F' Hwf' Hfull) as (r & l & Hr & Hl & Hm').
  { pose proof (refuses_limits q x Hq Href) as [Hlim _]. pose proof (entry_bytes_le now x q Hq).
    lia. }
  rewrite Hm in Hm'. injection Hm' as ->.
  destruct (holds_payloads F' _ Hh) as [Hp Hlast]; [done|lia|].
  eexists _, l. split; [done|]. split; [by rewrite <- Hlast|]. split; [exact Hp|].
  change 0xe0 with 224 in Hfl. unfold reliability at 2. rewrite Hfl, Hr.
  split_and!; try done; by destruct r.
Qed.

(** A fragment of the message is never refused while there is room for it. *)
Lemma take_completed_accepts now f q seen :
  queue_wf q -> tracks id fs seen q -> f ∈ fs ->
  bytes q + Fragment.cost f <= BYTE_LIMIT ->
  is_Some (fragments q !! id) \/ queue_size q < 1024 ->
  exists res q', insert_and_take_completed now f q = (Ok res, q') /\
    ((exists g, g ∈ fs /\ g ∉ f :: seen) ->
     bytes q' <= bytes q + Fragment.cost f /\ is_Some (fragments q' !! id)).
Proof.
  intros Hq Ht Hf Hroom Hsize. pose proof (msg_arriving _ _ Hmsg f Hf) as Ha.
  pose proof (message_fields f Hf) as (Hid & _ & Hcs). pose proof (msg_size _ _ Hmsg).
  pose proof (queue_bytes_nonneg q Hq). pose proof (cost_pos f).
  assert (refuses q f = false) as Href.
  { unfold refuses. rewrite Hid, Hcs. unfold sat_usize, U64_MAX, BYTE_LIMIT in *.
    repeat (apply orb_false_iff; split); try lia.
    destruct Hsize as [Hs|Hs]; [by rewrite bool_decide_eq_true_2, andb_false_r|].
    unfold queue_size in Hs. apply andb_false_iff. left. lia. }
  destruct (take_completed_cases now f q Hq Ha) as
    [(E & _)|[(_ & Hna & _)|(_ & _ & n & F' & Hins & E)]]; [congruence| |].
  { destruct Hna. by apply (proj1 (entry_holds now f q seen Hf Ht)). }
  destruct (entry_wf now f q Hq Ha Href) as [Hwf Hnf].
  assert (0 <= n <= Fragment.cost f) as Hn.
  { destruct (fragment_insert_cases now f (entry_of now f q) Hnf (proj1 (proj2 Ha))) as
      [(_ & E')|[(_ & g & _ & E')|(_ & _ & E')]]; rewrite E' in Hins; [done|..];
      injection Hins as <- _; lia. }
  pose proof (insert_holds now f _ seen _ _ Hf Hnf (entry_holds now f q seen Hf Ht) Hins) as Hh.
  destruct (Fragment.full F') eqn:Hfull.
  - destruct E as (m & _ & E). do 2 eexists. split; [exact E|]. intros (g & Hg & Hgs).
    destruct Hgs. by apply (proj1 (holds_full F' _ Hh) Hfull).
  - do 2 eexists. split; [exact E|]. intros _. simpl. split; [lia|].
    rewrite Hid, lookup_insert_eq. eauto.
Qed.

Lemma insert_all_accepts arrivals q seen :
  queue_wf q -> tracks id fs seen q -> (forall a, a ∈ arrivals -> a.2 ∈ fs) ->
  bytes q + sumZ Fragment.cost (map snd arrivals) <= BYTE_LIMIT ->
  is_Some (fragments q !! id) \/ queue_size q < 1024 ->
  (exists g, g ∈ fs /\ g ∉ map snd arrivals ++ seen) ->
  exists results q' seen', insert_all arrivals q = (Ok results, q') /\ queue_wf q' /\
    tracks id fs seen' q' /\ (forall f, f ∈ seen' <-> f ∈ map snd arrivals ++ seen) /\
    bytes q' <= bytes q + sumZ Fragment.cost (map snd arrivals) /\
    (is_Some (fragments q' !! id) \/ queue_size q' < 1024) /\
    results = replicate (length arrivals) None.
Proof.
  revert q seen. induction arrivals as [|[now f] arrivals IH]; intros q seen Hq Ht Hin Hroom Hsize Hg.
  { exists [], q, seen. simpl. split_and!; try done. lia. }
  pose proof (Hin (now, f) (list_elem_of_here _ _)) as Hf. cbn [map sumZ foldr snd] in Hf, Hroom, Hg |- *.
  fold (sumZ Fragment.cost (map snd arrivals)) in Hroom |- *.
  assert (0 <= sumZ Fragment.cost (map snd arrivals)) as Hpos.
  { apply sumZ_nonneg. intros g _. pose proof (cost_pos g). lia. }
  assert (exists g, g ∈ fs /\ g ∉ f :: seen) as Hg1 by (destruct Hg as (g & ? & ?); exists g; set_solver).
  destruct (take_completed_accepts now f q seen Hq Ht Hf) as (res & q1 & E1 & H1); [lia|done|].
  destruct (H1 Hg1) as [Hb1 Hs1]. pose proof (msg_arriving _ _ Hmsg f Hf) as Ha.
  pose proof (take_completed_wf now f q Hq Ha) as Hq1. rewrite E1 in Hq1. simpl in Hq1.
  destruct (take_completed_tracks now f q seen res q1 Hq Ha (or_introl Hf) Ht Hg1 E1) as [Ht1 Hres].
  specialize (Hres Hf). subst res.
  destruct (IH q1 (f :: seen) Hq1 Ht1) as (results & q2 & seen2 & E2 & Hq2 & Ht2 & Hs2 & Hb2 & Hz2 & ->).
  - intros a Hain. apply Hin. by apply list_elem_of_further.
  - lia.
  - by left.
  - destruct Hg as (g & ? & ?). exists g. set_solver.
  - exists (None :: replicate (length arrivals) None), q2, seen2. split.
    { cbn [insert_all]. erewrite SE_bind_ok by exact E1. by erewrite SE_bind_ok by exact E2. }
    split_and!; try done; [|lia]. intros h. rewrite Hs2. set_solver.
Qed.

(** The fragments of a message, each once and in any order, into a queue with room for
    them: all are accepted, and the last one completes the message. *)
Lemma message_reassembles arrivals q :
  queue_wf q -> fragments q !! id = None -> queue_size q < 1024 ->
  bytes q + sumZ Fragment.cost fs <= BYTE_LIMIT -> map snd arrivals ≡ₚ fs ->
  exists m q', insert_all arrivals q = (Ok (replicate (length fs - 1) None ++ [Some m]), q') /\
    FramePayload.deref (data m) = concat (map (fun f => FramePayload.deref (data f)) fs) /\
    (exists x, x ∈ fs /\ reliability m = reliability x /\ ordered_frame_index m = ordered_frame_index x /\
       order_channel m = order_channel x) /\
    fragments q' !! id = None.
Proof.
  intros Hq Hnone Hsize Hroom Hperm. pose proof (msg_size _ _ Hmsg) as Hn.
  pose proof (Permutation_length Hperm) as Hlen. rewrite length_map in Hlen.
  assert (NoDup fs) as Hnd.
  { apply NoDup_alt. intros i j f Hi Hj. pose proof (msg_frames _ _ Hmsg i f Hi) as (_ & E1 & _).
    pose proof (msg_frames _ _ Hmsg j f Hj) as (_ & E2 & _). lia. }
  destruct (exists_last (l := arrivals)) as (early & [now x] & Earr).
  { intros ->. simpl in Hlen. lia. }
  rewrite Earr in Hperm, Hlen |- *. rewrite map_app in Hperm. rewrite length_app in Hlen. simpl in Hperm, Hlen.
  rewrite <- Hperm in Hnd. apply list.NoDup_app in Hnd as (_ & Hx & _).
  assert (x ∉ map snd early) as Hxe by (intros Hin; apply (Hx x Hin), list_elem_of_here).
  assert (x ∈ fs) as Hxfs by (rewrite <- Hperm; set_solver).
  rewrite <- (sumZ_perm _ _ _ Hperm), sumZ_app in Hroom. cbn [sumZ foldr] in Hroom.
  fold (sumZ Fragment.cost (map snd early)) in Hroom. pose proof (cost_pos x) as Hcx.
  destruct (insert_all_accepts early q []) as (results & q1 & seen & E1 & Hq1 & Ht1 & Hs1 & Hb1 & Hz1 & ->);
    [done| | |lia|by right| |].
  { unfold tracks. rewrite Hnone. intros f _. apply not_elem_of_nil. }
  { intros a Ha. rewrite <- Hperm. apply elem_of_app. left. by apply list_elem_of_fmap_2. }
  { exists x. rewrite app_nil_r. done. }
  destruct (take_completed_accepts now x q1 seen Hq1 Ht1 Hxfs) as (res & q2 & E2 & _); [lia|done|].
  destruct (take_completed_final now x q1 seen res q2 Hq1 Hxfs Ht1) as
    (Hgone & m & l & -> & _ & Hd & Hr & _ & Ho & Hc & _); [|done|].
  { intros f Hf. rewrite elem_of_cons, Hs1, app_nil_r. rewrite <- Hperm in Hf. set_solver. }
  exists m, q2. split; [|split; [done|]; split; [by exists x|done]].
  replace (length fs - 1)%nat with (length early) by lia.
  clear - E1 E2. revert E1. generalize (replicate (length early) (@None FrameSetPacket)) as rs. revert q.
  induction early as [|[t f] early IH]; intros q rs H; simpl in H |- *.
  - injection H as <- ->. by erewrite SE_bind_ok by exact E2.
  - apply SE_bind_inv in H as (r0 & q3 & H3 & H). apply SE_bind_inv in H as (rest & q4 & H4 & H).
    injection H as <- <-. erewrite SE_bind_ok by exact H3. by erewrite SE_bind_ok by exact (IH _ _ H4).
Qed.
End Reassembly.

Lemma insert_all_snoc arrivals now x q results q' :
  insert_all (arrivals ++ [(now, x)]) q = (Ok results, q') ->
  exists early res q1, insert_all arrivals q = (Ok early, q1) /\
    FragmentQ.insert_and_take_completed now x q1 = (Ok res, q') /\ results = early ++ [res].
Proof.
  revert q results. induction arrivals as [|[t f] arrivals IH]; intros q results H; simpl in H.
  - apply SE_bind_inv in H as (res & q1 & H1 & H). injection H as <- <-. by exists [], res, q.
  - apply SE_bind_inv in H as (r0 & q1 & H1 & H).
    apply SE_bind_inv in H as (rest & q2 & H2 & H). injection H as <- <-.
    apply IH in H2 as (early & res & q3 & H3 & H4 & ->).
    exists (r0 :: early), res, q3. split; [|done]. simpl.
    erewrite SE_bind_ok by exact H1. by erewrite SE_bind_ok by exact H3.
Qed.

(** ** Properties *)

(** C32: whatever fragments a peer sends, the reassembly queue stays within its limits: at
    most 1024 messages of at most 65536 fragments each and 64 MiB of buffered bytes; its
    byte counter is exactly the sum of what it holds (so no subtraction underflows), every
    message holds only fragments that belong to it, and no complete message is retained. *)
Theorem reassembly_memory_bounded (arrivals : list (Z * FrameSetPacket)) :
  Forall (fun a => arriving a.2) arrivals ->
  queue_wf (foldl (fun q a => (FragmentQ.insert_and_take_completed a.1 a.2 q).2)
    FragmentQ.default arrivals).
Proof.
  assert (queue_wf FragmentQ.default) as H0.
  { by split. }
  revert H0. generalize FragmentQ.default.
  induction arrivals as [|[now f] arrivals IH]; intros q Hq Ha; [done|].
  inversion Ha; subst. simpl. apply IH; [|done]. by apply take_completed_wf.
Qed.

(** Three fragments of message 1, arriving out of order with a duplicate, and one of
    message 2. *)
Definition sample_fragment (id index size : Z) (payload : list Z) : FrameSetPacket :=
  mk_frame (10 + index) 0x70 (zlen payload) index 0 4 0 size id index (FramePayload.Owned payload) None.

Definition sample_message : list FrameSetPacket :=
  [sample_fragment 1 0 3 [1; 2]; sample_fragment 1 1 3 [3]; sample_fragment 1 2 3 [4; 5]].

Definition sample_arrivals : list (Z * FrameSetPacket) :=
  [(0, sample_fragment 1 2 3 [4; 5]); (1, sample_fragment 2 0 2 [9]);
   (2, sample_fragment 1 0 3 [1; 2]); (3, sample_fragment 1 2 3 [4; 5])].

Lemma sample_arriving id index size payload :
  0 <= index -> 0 <= size -> arriving (sample_fragment id index size payload).
Proof. intros. split; [by exists Reliability.ReliableOrdered|done]. Qed.

Lemma sample_arrivals_arriving : Forall (fun a => arriving a.2) sample_arrivals.
Proof. repeat constructor; simpl; try lia; by exists Reliability.ReliableOrdered. Qed.

Lemma reassembly_memory_bounded_witness :
  queue_wf (foldl (fun q a => (FragmentQ.insert_and_take_completed a.1 a.2 q).2)
    FragmentQ.default sample_arrivals).
Proof. apply reassembly_memory_bounded. exact sample_arrivals_arriving. Defined.

(** In a well-formed queue a fragment is rejected exactly when a limit would be
    exceeded or it contradicts the message it claims to belong to, always with
    [PacketParseError]; a completed message always merges. *)
Theorem fragment_rejected_exactly_when now f q :
  queue_wf q -> arriving f ->
  match (FragmentQ.insert_and_take_completed now f q).1 with
  | Err e => e = PacketParseError /\
             (FragmentQ.refuses q f = true \/ ~ agrees (entry_of now f q) f)
  | Ok _ => FragmentQ.refuses q f = false /\ agrees (entry_of now f q) f
  end.
Proof.
  intros Hq Ha. destruct (take_completed_cases now f q Hq Ha) as
    [(? & ->)|[(? & ? & ->)|(? & ? & n & F' & _ & H)]]; simpl; auto.
  destruct (Fragment.full F'); [destruct H as (m & _ & ->)|rewrite H]; done.
Qed.

Lemma fragment_rejected_exactly_when_witness :
  let f := sample_fragment 1 3 3 [1] in
  FragmentQ.insert_and_take_completed 0 f FragmentQ.default
    = (Err PacketParseError, FragmentQ.mk {[1 := Fragment.new 0 0x70 3 4 0]} 0) /\
  (FragmentQ.refuses FragmentQ.default f = true \/
   ~ agrees (entry_of 0 f FragmentQ.default) f).
Proof.
  intros f. split; [vm_compute; reflexivity|].
  refine (proj2 (fragment_rejected_exactly_when 0 f FragmentQ.default _ _)).
  - by split.
  - apply sample_arriving; lia.
Defined.

(** The last missing fragment completes the message. *)
Lemma message_completes id fs arrivals now x q results q' :
  message id fs -> queue_wf q -> FragmentQ.fragments q !! id = None ->
  (forall a, a ∈ arrivals -> arriving a.2 /\ (a.2 ∈ fs \/ compound_id a.2 ≠ id)) ->
  x ∈ fs -> x ∉ map snd arrivals -> (forall f, f ∈ fs -> f = x \/ f ∈ map snd arrivals) ->
  insert_all (arrivals ++ [(now, x)]) q = (Ok results, q') ->
  exists early m, results = early ++ [Some m] /\
    (forall i a, arrivals !! i = Some a -> a.2 ∈ fs -> early !! i = Some None) /\
    FramePayload.deref (data m) = concat (map (fun f => FramePayload.deref (data f)) fs) /\
    reliability m = reliability x /\ is_fragment m = false /\
    ordered_frame_index m = ordered_frame_index x /\ order_channel m = order_channel x /\
    FragmentQ.fragments q' !! id = None.
Proof.
  intros Hmsg Hq Hnone Hin Hx Hxa Hall H.
  apply insert_all_snoc in H as (early & res & q1 & H1 & H2 & ->).
  destruct (insert_all_tracks id fs Hmsg arrivals q [] early q1) as
    (Hq1 & (seen & Ht & Hs) & Hearly); try done.
  { unfold tracks. rewrite Hnone. intros f _. set_solver. }
  { exists x. split; [done|]. by rewrite app_nil_r. }
  destruct (take_completed_final id fs Hmsg now x q1 seen res q') as
    (Hgone & m & l & -> & _ & Hd & Hr & Hfr & Ho & Hc & _); try done.
  { intros f Hf. rewrite elem_of_cons, Hs, app_nil_r. by apply Hall. }
  exists early, m. split_and!; done.
Qed.

(** C24: reassembly. The fragments of a message, arriving in any order, with duplicates,
    and interleaved with fragments of any other messages, complete nothing until the last
    one missing arrives; that one yields a frame whose payload is the concatenation of the
    fragments in index order, with the message's mode, order index and channel, and the
    queue forgets the message. *)
Theorem fragments_reassemble id fs arrivals now x q results q' :
  message id fs -> queue_wf q -> FragmentQ.fragments q !! id = None ->
  (forall a, a ∈ arrivals -> arriving a.2 /\ (a.2 ∈ fs \/ compound_id a.2 ≠ id)) ->
  x ∈ fs -> x ∉ map snd arrivals -> (forall f, f ∈ fs -> f = x \/ f ∈ map snd arrivals) ->
  insert_all (arrivals ++ [(now, x)]) q = (Ok results, q') ->
  exists early m, results = early ++ [Some m] /\
    (forall i a, arrivals !! i = Some a -> a.2 ∈ fs -> early !! i = Some None) /\
    FramePayload.deref (data m) = concat (map (fun f => FramePayload.deref (data f)) fs) /\
    reliability m = reliability x /\ is_fragment m = false /\
    ordered_frame_index m = ordered_frame_index x /\ order_channel m = order_channel x /\
    FragmentQ.fragments q' !! id = None.
Proof. apply message_completes. Qed.

Lemma fragments_reassemble_witness :
  exists m q', insert_all (sample_arrivals ++ [(4, sample_fragment 1 1 3 [3])]) FragmentQ.default
    = (Ok [None; None; None; None; Some m], q') /\
  FramePayload.deref (data m) = [1; 2; 3; 4; 5] /\ FragmentQ.fragments q' !! 1 = None.
Proof.
  do 2 eexists. split; [vm_compute; reflexivity|].
  edestruct (fragments_reassemble 1 sample_message sample_arrivals 4
    (sample_fragment 1 1 3 [3]) FragmentQ.default)
    as (early & m & E & _ & Hd & _ & _ & _ & _ & Hg); [..|vm_compute; reflexivity|].
  - split; [vm_compute; split; congruence|..].
    + intros f Hf. repeat (apply elem_of_cons in Hf as [->|Hf]; [apply sample_arriving; lia|]).
      by apply not_elem_of_nil in Hf.
    + intros [|[|[|]]] f Hf; simpl in Hf; try discriminate; injection Hf as <-; done.
    + intros f g Hf Hg.
      repeat (apply elem_of_cons in Hf as [->|Hf]; [
        repeat (apply elem_of_cons in Hg as [->|Hg]; [done|]); by apply not_elem_of_nil in Hg|]).
      by apply not_elem_of_nil in Hf.
  - by split.
  - done.
  - intros a Ha. repeat (apply elem_of_cons in Ha as [->|Ha];
      [split; [apply sample_arriving; lia|
        first [right; vm_compute; congruence|left; unfold sample_message; set_solver]]|]).
    by apply not_elem_of_nil in Ha.
  - unfold sample_message. set_solver.
  - simpl. rewrite !not_elem_of_cons. split_and!; try (intros [=]). apply not_elem_of_nil.
  - intros f Hf. repeat (apply elem_of_cons in Hf as [->|Hf];
      [first [left; reflexivity|right; simpl; set_solver]|]).
    by apply not_elem_of_nil in Hf.
  - split; [|exact Hg].
    apply (app_inj_tail [None; None; None; None]) in E as [_ E]. injection E as <-. exact Hd.
Defined.
