(* ===== verification/AckSet.v ===== *)
(** * Acknowledgement ranges

    [ACKSet] of [src/src/arq.rs]: the datagram sequence numbers to acknowledge and the gaps
    to report, as lists of inclusive ranges. The concrete ranges are shown to denote the
    sets of an abstract tracker over unbounded sequence numbers. *)

From S2P Require Import Prelude Sequence.

Abbreviation range := (Z * Z)%type.

Record ACKSet := mk_ackset {
  ack : list range;
  nack : list range;
  next_expected : Z;
}.

#[export] Instance set_ack : Setter ack := fun g r => mk_ackset (g (ack r)) (nack r) (next_expected r).
#[export] Instance set_nack : Setter nack := fun g r => mk_ackset (ack r) (g (nack r)) (next_expected r).
#[export] Instance set_next_expected : Setter next_expected := fun g r =>
  mk_ackset (ack r) (nack r) (g (next_expected r)).

Definition default_ackset : ACKSet := mk_ackset [] [] 0.

(** [self.nack.retain_mut(...)]: shrink or drop the ranges that hold [s]; a range split in
    two keeps its lower half, [split] is the upper one. *)
Fixpoint retain_nack (s : Z) (ranges : list range) (split : option range)
    : list range * option range :=
  match ranges with
  | [] => ([], split)
  | (start, stop) :: ranges =>
      if (s <? start) || (stop <? s) then
        let '(kept, split) := retain_nack s ranges split in ((start, stop) :: kept, split)
      else if start =? stop then retain_nack s ranges split
      else if s =? start then
        let '(kept, split) := retain_nack s ranges split in ((start + 1, stop) :: kept, split)
      else if s =? stop then
        let '(kept, split) := retain_nack s ranges split in ((start, stop - 1) :: kept, split)
      else
        let '(kept, split) := retain_nack s ranges (Some (s + 1, stop)) in
        ((start, s - 1) :: kept, split)
  end.

(** The ranges pushed for the gap between the expected number and [s]. *)
Definition gap_ranges (expected s : Z) : list range :=
  if negb (s =? expected) then
    if expected <? s then [(expected, s - 1)]
    else (expected, MASK) :: (if negb (s =? 0) then [(0, s - 1)] else [])
  else [].

(** The loop over [self.ack]: the first range that holds or touches [s] absorbs it. *)
Fixpoint insert_ack (s : Z) (ranges : list range) : list range :=
  match ranges with
  | [] => [(s, s)]
  | a :: ranges =>
      if (a.1 <=? s) && (s <=? a.2) then a :: ranges
      else if negb (a.1 =? 0) && (s =? a.1 - 1) then (s, a.2) :: ranges
      else if s =? Z.min (a.2 + 1) (2 ^ 32 - 1) then (a.1, s) :: ranges
      else a :: insert_ack s ranges
  end.

Definition insert_ackset (s : Z) (self : ACKSet) : ACKSet :=
  let '(kept, split) := retain_nack s (nack self) None in
  let self := self <| nack := kept |> in
  let self := match split with
              | Some range => self <| nack := nack self ++ [range] |>
              | None => self
              end in
  let self :=
    if (s =? next_expected self) || newer s (next_expected self) then
      self <| nack := nack self ++ gap_ranges (next_expected self) s |>
           <| next_expected := next s |>
    else self in
  self <| ack := insert_ack s (ack self) |>.

(** [take_ack_into] and [take_nack_into]: the caller's buffer is cleared and swapped in, so
    the ranges move out and the set keeps an empty list. *)
Definition take_ack_into (self : ACKSet) : list range * ACKSet := (ack self, self <| ack := [] |>).
Definition take_nack_into (self : ACKSet) : list range * ACKSet := (nack self, self <| nack := [] |>).

(** ** What the ranges denote *)

Definition in_ranges (l : list range) (x : Z) : Prop := exists r, r ∈ l /\ r.1 <= x <= r.2.

Definition ranges_wf (l : list range) : Prop := Forall (fun r => r.1 <= r.2) l.

Fixpoint disjoint_ranges (l : list range) : Prop :=
  match l with
  | [] => True
  | r :: l => (forall x, r.1 <= x <= r.2 -> ~ in_ranges l x) /\ disjoint_ranges l
  end.

Section Ranges.
Implicit Types (l : list range) (s x : Z) (r : range).

Lemma in_ranges_nil x : ~ in_ranges [] x.
Proof. intros (r & Hr & _). by apply not_elem_of_nil in Hr. Qed.

Lemma in_ranges_cons r l x : in_ranges (r :: l) x <-> r.1 <= x <= r.2 \/ in_ranges l x.
Proof.
  unfold in_ranges. split.
  - intros (q & [->|Hq]%elem_of_cons & Hx); [by left|right; eauto].
  - intros [Hx|(q & Hq & Hx)]; eexists; (split; [|done]); [apply list_elem_of_here|].
    by apply list_elem_of_further.
Qed.

Lemma in_ranges_app l k x : in_ranges (l ++ k) x <-> in_ranges l x \/ in_ranges k x.
Proof.
  induction l as [|r l IH]; simpl.
  - split; [by right|intros [H|H]; [by apply in_ranges_nil in H|done]].
  - rewrite !in_ranges_cons, IH. tauto.
Qed.

Lemma disjoint_ranges_app l k :
  disjoint_ranges (l ++ k) <->
  disjoint_ranges l /\ disjoint_ranges k /\ forall x, in_ranges l x -> ~ in_ranges k x.
Proof.
  induction l as [|r l IH]; simpl.
  - split; [|tauto]. intros H. split_and!; try done. intros x Hx. by apply in_ranges_nil in Hx.
  - rewrite IH. setoid_rewrite in_ranges_app. setoid_rewrite in_ranges_cons. naive_solver.
Qed.

Lemma retain_nack_id s l sp :
  ~ in_ranges l s -> retain_nack s l sp = (l, sp).
Proof.
  revert sp. induction l as [|[a b] l IH]; intros sp H; [done|].
  rewrite in_ranges_cons in H. simpl in *. rewrite IH by tauto.
  case_if; [done|]. blia.
Qed.

(** Removing [s] from disjoint ranges removes exactly [s]. *)
Lemma retain_nack_spec s l :
  ranges_wf l -> disjoint_ranges l ->
  let '(kept, sp) := retain_nack s l None in
  let l' := kept ++ option_list sp in
  ranges_wf l' /\ disjoint_ranges l' /\ forall x, in_ranges l' x <-> in_ranges l x /\ x ≠ s.
Proof.
  induction l as [|[a b] l IH]; intros Hwf Hd.
  { simpl. split_and!; [constructor|done|]. intros x. pose proof (in_ranges_nil x). tauto. }
  inversion Hwf as [|? ? Hab Hwf']; subst. destruct Hd as [Hd1 Hd]. simpl in Hab, Hd1.
  specialize (IH Hwf' Hd). cbn [retain_nack].
  destruct ((s <? a) || (b <? s)) eqn:E.
  { destruct (retain_nack s l None) as [kept sp]. destruct IH as (IH1 & IH2 & IH3).
    cbn [app]. split_and!; [by constructor|..].
    - simpl. split; [|done]. intros x Hx [? ?]%IH3. by apply (Hd1 x).
    - intros x. rewrite !in_ranges_cons, IH3. simpl. b2p. split; [|tauto].
      intros [?|[? ?]]; [|tauto]. split; [tauto|]. lia. }
  apply orb_false_iff in E as [E1 E2]. b2p.
  rewrite !(retain_nack_id s l) by (apply Hd1; lia). clear IH.
  repeat case_if; b2p; cbn [option_list app]; rewrite ?app_nil_r.
  - split_and!; [done|done|]. intros x. rewrite in_ranges_cons. simpl. split.
    + intros Hx. split; [tauto|]. intros ->. by apply (Hd1 s).
    + intros [[?|?] ?]; [lia|done].
  - split_and!; [constructor; [simpl; lia|done]|split; [|done]|].
    + intros x Hx. apply Hd1. simpl in Hx. lia.
    + intros x. rewrite !in_ranges_cons. simpl. pose proof (Hd1 x).
      split; [|intros [[?|?] ?]; [left; lia|tauto]].
      intros [?|?]; [split; [left|]; lia|]. split; [tauto|]. intros ->. by apply (Hd1 s); [lia|].
  - split_and!; [constructor; [simpl; lia|done]|split; [|done]|].
    + intros x Hx. apply Hd1. simpl in Hx. lia.
    + intros x. rewrite !in_ranges_cons. simpl. pose proof (Hd1 x).
      split; [|intros [[?|?] ?]; [left; lia|tauto]].
      intros [?|?]; [split; [left|]; lia|]. split; [tauto|]. intros ->. by apply (Hd1 s); [lia|].
  - split_and!.
    + constructor; [simpl; lia|]. apply Forall_app. split; [done|]. repeat constructor. simpl. lia.
    + simpl. split.
      * intros x Hx. rewrite in_ranges_app, in_ranges_cons. simpl.
        intros [H|[H|H]]; [by apply (Hd1 x); [lia|]|lia|by apply in_ranges_nil in H].
      * apply disjoint_ranges_app. split_and!; [done|simpl|].
        { split; [|done]. intros x _. apply in_ranges_nil. }
        intros x Hx. rewrite in_ranges_cons. simpl.
        intros [H|H]; [by apply (Hd1 x); [lia|]|by apply in_ranges_nil in H].
    + intros x. rewrite !in_ranges_cons, in_ranges_app. simpl option_list. rewrite ?in_ranges_cons. simpl.
      pose proof (in_ranges_nil x). split.
      * intros [?|[Hx|[?|?]]]; [split; [left|]; lia| |split; [left|]; lia|done].
        split; [tauto|]. intros ->. by apply (Hd1 s); [lia|].
      * intros [[?|?] ?]; [|tauto]. destruct (decide (x < s)); [left; lia|right; right; left; lia].
Qed.

(** Acknowledging [s] adds exactly [s]. *)
Lemma insert_ack_spec s l :
  ranges_wf l -> 0 <= s < 2 ^ 24 ->
  ranges_wf (insert_ack s l) /\
  forall x, in_ranges (insert_ack s l) x <-> in_ranges l x \/ x = s.
Proof.
  intros Hwf Hs. induction Hwf as [|[a b] l Hab Hwf [IH1 IH2]]; cbn [insert_ack].
  { split; [by repeat constructor|]. intros x. rewrite in_ranges_cons. simpl.
    pose proof (in_ranges_nil x). split; [intros [?|?]; [right; lia|done]|intros [?| ->]; [done|left; lia]]. }
  simpl in Hab |- *. repeat case_if; b2p;
    (split; [constructor; simpl; first [lia|done]|]); intros x; rewrite !in_ranges_cons; simpl.
  - split; [tauto|]. intros [?| ->]; [tauto|left; lia].
  - split.
    + intros [?|?]; [|tauto]. destruct (decide (x = s)); [tauto|left; left; lia].
    + intros [[?|?]| ->]; [left; lia|tauto|left; lia].
  - split.
    + intros [?|?]; [|tauto]. destruct (decide (x = s)); [tauto|left; left; lia].
    + intros [[?|?]| ->]; [left; lia|tauto|left; lia].
  - rewrite IH2. tauto.
Qed.
End Ranges.

Section Insert.
Implicit Types (a : ACKSet) (s x : Z) (l : list range).

(** [insert_ackset] as the two lists it computes. *)
Definition nack_after (s : Z) (a : ACKSet) : list range :=
  let '(kept, sp) := retain_nack s (nack a) None in
  (kept ++ option_list sp) ++
  (if (s =? next_expected a) || newer s (next_expected a)
   then gap_ranges (next_expected a) s else []).

Lemma insert_ackset_eq s a :
  insert_ackset s a = mk_ackset (insert_ack s (ack a)) (nack_after s a)
    (if (s =? next_expected a) || newer s (next_expected a) then next s else next_expected a).
Proof.
  unfold insert_ackset, nack_after. destruct (retain_nack s (nack a) None) as [kept [sp|]];
    simpl; case_if; by rewrite ?app_nil_r.
Qed.

(** Whatever the ranges look like, [s] is no longer among them. *)
Lemma retain_nack_removes s l sp :
  (forall r, sp = Some r -> ~ r.1 <= s <= r.2) ->
  let '(kept, sp') := retain_nack s l sp in
  ~ in_ranges kept s /\ forall r, sp' = Some r -> ~ r.1 <= s <= r.2.
Proof.
  revert sp. induction l as [|[a b] l IH]; intros sp Hsp; cbn [retain_nack].
  { split; [apply in_ranges_nil|done]. }
  repeat case_if;
    try (specialize (IH (Some (s + 1, b))); destruct (retain_nack s l (Some (s + 1, b))) as [k sp'];
         destruct IH as [IH1 IH2]; [intros r [= <-]; simpl; lia|]; split; [|done];
         rewrite in_ranges_cons; simpl; intros [?|?]; [lia|done]);
    specialize (IH sp Hsp); destruct (retain_nack s l sp) as [k sp'];
    destruct IH as [IH1 IH2]; (split; [|done]); try done;
    rewrite in_ranges_cons; simpl; (intros [?|?]; [blia|done]).
Qed.

Lemma gap_ranges_excludes e s : 0 <= s -> ~ in_ranges (gap_ranges e s) s.
Proof.
  intros Hs. unfold gap_ranges. repeat case_if; rewrite ?in_ranges_cons; simpl;
    pose proof (in_ranges_nil s); intros H'; destruct_or?; blia || done.
Qed.

Lemma nack_after_excludes s a : 0 <= s -> ~ in_ranges (nack_after s a) s.
Proof.
  intros Hs. unfold nack_after.
  pose proof (retain_nack_removes s (nack a) None ltac:(done)) as H.
  destruct (retain_nack s (nack a) None) as [kept sp]. destruct H as [H1 H2].
  rewrite !in_ranges_app. intros [[?|Hsp]|Hg]; [done|..].
  - destruct sp as [r|]; simpl in Hsp; [|by apply in_ranges_nil in Hsp].
    apply in_ranges_cons in Hsp as [?|Hn]; [by apply (H2 r)|by apply in_ranges_nil in Hn].
  - case_if_in Hg; [by apply gap_ranges_excludes in Hg|by apply in_ranges_nil in Hg].
Qed.
End Insert.

(** ** The abstract tracker *)

(** Over unbounded sequence numbers: the next one expected, those that were skipped and
    have not arrived, and those that arrived; the last two since they were last taken. *)
Record Tracker := mk_tracker { expected : Z; missing : gset Z; arrived : gset Z }.

Inductive op : Set := Arrive (p : Z) | TakeAck | TakeNack.

Definition track (t : Tracker) (o : op) : option (gset Z) * Tracker :=
  match o with
  | Arrive p =>
      (None, mk_tracker (Z.max (expected t) (p + 1))
               (missing t ∖ {[p]} ∪ list_to_set (seqZ (expected t) (p - expected t)))
               (arrived t ∪ {[p]}))
  | TakeAck => (Some (arrived t), mk_tracker (expected t) (missing t) ∅)
  | TakeNack => (Some (missing t), mk_tracker (expected t) ∅ (arrived t))
  end.

Definition perform (a : ACKSet) (o : op) : option (list range) * ACKSet :=
  match o with
  | Arrive p => (None, insert_ackset (serial p) a)
  | TakeAck => let '(l, a) := take_ack_into a in (Some l, a)
  | TakeNack => let '(l, a) := take_nack_into a in (Some l, a)
  end.

Fixpoint run {S A} (step : S -> op -> A * S) (s : S) (ops : list op) : list A * S :=
  match ops with
  | [] => ([], s)
  | o :: ops => let '(x, s) := step s o in let '(xs, s) := run step s ops in (x :: xs, s)
  end.

(** The ranges are the serial numbers of the set. *)
Definition denotes (l : list range) (X : gset Z) : Prop :=
  forall x, in_ranges l x <-> exists p, p ∈ X /\ serial p = x.

Definition denotes_opt (o : option (list range)) (O : option (gset Z)) : Prop :=
  match o, O with
  | Some l, Some X => denotes l X
  | None, None => True
  | _, _ => False
  end.

(** Where serial arithmetic can tell positions apart: an arrival is at most half the number
    space behind, and at most half ahead of where the current list of gaps started. *)
Definition plausible (origin : Z) (t : Tracker) (o : op) : Prop :=
  match o with
  | Arrive p => expected t - HALF <= p < origin + HALF
  | _ => True
  end.

Definition origin_after (origin : Z) (t : Tracker) (o : op) : Z :=
  match o with TakeNack => expected t | _ => origin end.

Fixpoint plausible_run (origin : Z) (t : Tracker) (ops : list op) : Prop :=
  match ops with
  | [] => True
  | o :: ops =>
      plausible origin t o /\ plausible_run (origin_after origin t o) (track t o).2 ops
  end.

Record refines (origin : Z) (a : ACKSet) (t : Tracker) : Prop := {
  rf_next : next_expected a = serial (expected t);
  rf_ack_wf : ranges_wf (ack a);
  rf_nack_wf : ranges_wf (nack a);
  rf_disjoint : disjoint_ranges (nack a);
  rf_ack : denotes (ack a) (arrived t);
  rf_nack : denotes (nack a) (missing t);
  rf_window : forall p, p ∈ missing t -> origin <= p < expected t;
  rf_origin : origin <= expected t <= origin + HALF;
}.

Section Refinement.
Implicit Types (a : ACKSet) (t : Tracker) (e p x : Z).

Lemma serial_same_block e p :
  0 <= p - e < 2 ^ 24 -> serial e <= serial p ->
  forall m, e <= m <= p -> serial m = serial e + (m - e).
Proof.
  unfold serial. intros Hd Hle m Hm.
  pose proof (Z.div_mod e (2 ^ 24) ltac:(lia)). pose proof (Z.div_mod p (2 ^ 24) ltac:(lia)).
  pose proof (Z.mod_pos_bound e (2 ^ 24) ltac:(lia)).
  pose proof (Z.mod_pos_bound p (2 ^ 24) ltac:(lia)).
  symmetry. apply Z.mod_unique with (q := e / 2 ^ 24); nia.
Qed.

Lemma serial_next_block e p :
  0 <= p - e < 2 ^ 24 -> serial p < serial e ->
  forall m, e <= m <= p ->
    serial m = if serial e + (m - e) <? 2 ^ 24 then serial e + (m - e)
               else serial e + (m - e) - 2 ^ 24.
Proof.
  unfold serial. intros Hd Hle m Hm.
  pose proof (Z.div_mod e (2 ^ 24) ltac:(lia)).
  pose proof (Z.mod_pos_bound e (2 ^ 24) ltac:(lia)).
  case_if; symmetry; [apply Z.mod_unique with (q := e / 2 ^ 24)|
    apply Z.mod_unique with (q := e / 2 ^ 24 + 1)]; blia.
Qed.

Lemma gap_ranges_spec e p :
  0 <= p - e < 2 ^ 24 ->
  let l := gap_ranges (serial e) (serial p) in
  ranges_wf l /\ disjoint_ranges l /\
  forall x, in_ranges l x <-> exists m, e <= m < p /\ serial m = x.
Proof.
  intros Hd. pose proof (serial_range e). pose proof (serial_range p).
  unfold gap_ranges. case_if; b2p.
  2: { assert (p = e) as -> by (apply serial_inj; [lia|done]). split_and!; [constructor|done|].
       intros x. split; [by intros ?%in_ranges_nil|]. intros (m & ? & _). lia. }
  case_if; b2p.
  - pose proof (serial_same_block e p Hd ltac:(lia)) as Hs. pose proof (Hs p ltac:(lia)) as Hp.
    split_and!; [repeat constructor; simpl; lia|split; [intros ? _; apply in_ranges_nil|done]|].
    intros x. rewrite in_ranges_cons. simpl. split.
    + intros [Hx|?%in_ranges_nil]; [|done]. exists (e + (x - serial e)).
      split; [lia|]. rewrite Hs by lia. lia.
    + intros (m & Hm & <-). left. rewrite (Hs m) by lia. lia.
  - pose proof (serial_next_block e p Hd ltac:(lia)) as Hs. pose proof (Hs p ltac:(lia)) as Hp.
    case_if_in Hp; [blia|]. b2p. unfold MASK.
    assert (forall x, in_ranges (if negb (serial p =? 0) then [(0, serial p - 1)] else []) x <->
      0 <= x <= serial p - 1) as Hlow.
    { intros x. case_if; b2p; rewrite ?in_ranges_cons; simpl; pose proof (in_ranges_nil x);
        [tauto|]. split; [done|lia]. }
    split_and!.
    + constructor; [simpl; lia|]. case_if; repeat constructor. simpl. blia.
    + split; [|case_if; [|done]; split; [intros ? _; apply in_ranges_nil|done]].
      intros x Hx ?%Hlow. simpl in Hx. lia.
    + intros x. rewrite in_ranges_cons, Hlow. simpl. split.
      * intros [Hx|Hx]; [exists (e + (x - serial e))|exists (e + (x + 2 ^ 24 - serial e))];
          (split; [lia|]); rewrite Hs by lia; case_if; blia.
      * intros (m & Hm & <-). rewrite (Hs m) by lia. case_if; [left|right]; blia.
Qed.

Lemma arrive_refines origin a t p :
  refines origin a t -> plausible origin t (Arrive p) ->
  refines origin (insert_ackset (serial p) a) (track t (Arrive p)).2.
Proof.
  intros [Hn Haw Hnw Hd Hack Hnack Hw Ho] [Hp1 Hp2]. unfold HALF in *.
  pose proof (serial_range p). rewrite insert_ackset_eq.
  destruct (insert_ack_spec (serial p) (ack a) Haw ltac:(lia)) as [Haw' Hack'].
  assert ((serial p =? next_expected a) || newer (serial p) (next_expected a)
    = (expected t <=? p)) as Hcond.
  { rewrite Hn, newer_serial by (unfold HALF; lia).
    destruct (serial p =? serial (expected t)) eqn:E; b2p.
    - apply serial_inj in E; [|lia]. simpl. lia.
    - assert (p ≠ expected t) by (intros ->; done). simpl. lia. }
  unfold nack_after. pose proof (retain_nack_spec (serial p) (nack a) Hnw Hd) as Hret.
  destruct (retain_nack (serial p) (nack a) None) as [kept sp]. destruct Hret as (Hw1 & Hd1 & Hin1).
  assert (forall x, in_ranges (kept ++ option_list sp) x <->
    exists m, m ∈ missing t ∖ {[p]} /\ serial m = x) as Hkept.
  { intros x. rewrite Hin1, (Hnack x). split.
    - intros [(m & Hm & <-) Hne]. exists m. split; [|done].
      apply elem_of_difference. split; [done|]. rewrite elem_of_singleton. by intros ->.
    - intros (m & [Hm Hne]%elem_of_difference & <-). split; [by exists m|].
      intros E. apply Hne, elem_of_singleton. specialize (Hw m Hm).
      apply serial_inj; [lia|done]. }
  rewrite Hcond, Hn. cbn [track snd].
  assert (denotes (insert_ack (serial p) (ack a)) (arrived t ∪ {[p]})) as Hden.
  { intros x. rewrite Hack', (Hack x). set_solver. }
  destruct (expected t <=? p) eqn:Ele; b2p.
  - destruct (gap_ranges_spec (expected t) p ltac:(lia)) as (Hw2 & Hd2 & Hin2).
    split; cbn [ack nack next_expected expected missing arrived]; try done.
    + rewrite next_serial. f_equal. lia.
    + by apply Forall_app.
    + apply disjoint_ranges_app. split_and!; [done..|].
      intros x (m & [Hm _]%elem_of_difference & <-)%Hkept (m' & Hm' & E)%Hin2.
      specialize (Hw m Hm). apply serial_inj in E; lia.
    + intros x. rewrite in_ranges_app, Hkept, Hin2.
      setoid_rewrite elem_of_union. setoid_rewrite elem_of_list_to_set.
      setoid_rewrite elem_of_seqZ. split.
      * intros [(m & ? & ?)|(m & ? & ?)]; exists m; (split; [|done]); [by left|right; lia].
      * intros (m & [?|?] & ?); [left|right]; exists m; (split; [|done]); [done|lia].
    + intros m. rewrite elem_of_union, elem_of_difference, elem_of_list_to_set, elem_of_seqZ.
      intros [[Hm _]|?]; [specialize (Hw m Hm)|]; lia.
    + unfold HALF. lia.
  - rewrite app_nil_r. replace (Z.max (expected t) (p + 1)) with (expected t) by lia.
    rewrite seqZ_nil, list_to_set_nil, union_empty_r_L by lia.
    split; cbn [ack nack next_expected expected missing arrived]; try done.
    intros m [Hm _]%elem_of_difference. by apply Hw.
Qed.

Lemma perform_refines origin a t o :
  refines origin a t -> plausible origin t o ->
  denotes_opt (perform a o).1 (track t o).1 /\
  refines (origin_after origin t o) (perform a o).2 (track t o).2.
Proof.
  intros HR Hp. destruct o as [p| |]; [split; [done|]; by apply arrive_refines|..];
    destruct HR as [Hn Haw Hnw Hd Hack Hnack Hw Ho]; (split; [done|]);
    split; simpl; try done; try (by constructor).
  - intros x. split; [by intros ?%in_ranges_nil|]. set_solver.
  - intros x. split; [by intros ?%in_ranges_nil|]. set_solver.
  - unfold HALF. lia.
Qed.

Lemma run_refines origin a t ops :
  refines origin a t -> plausible_run origin t ops ->
  Forall2 denotes_opt (run perform a ops).1 (run track t ops).1.
Proof.
  revert origin a t. induction ops as [|o ops IH]; intros origin a t HR Hp; [constructor|].
  destruct Hp as [Ho Hops]. destruct (perform_refines _ _ _ _ HR Ho) as [Hd HR'].
  specialize (IH _ _ _ HR' Hops). simpl.
  destruct (perform a o) as [l a'], (track t o) as [X t']. simpl in *.
  destruct (run perform a' ops), (run track t' ops). by constructor.
Qed.
End Refinement.

(** ** Properties *)

(** C20: the range lists refine the abstract tracker. For every interleaving of arrivals
    and of taking the lists, as long as arrivals stay within the half of the number space
    that serial arithmetic can tell apart, each list taken denotes exactly what the tracker
    says: the acknowledgements are the datagrams that arrived, the negative ones are those
    that were skipped and have not arrived since, across wrap-around. *)
Theorem ackset_refines_tracker ops :
  plausible_run 0 (mk_tracker 0 ∅ ∅) ops ->
  Forall2 denotes_opt (run perform default_ackset ops).1 (run track (mk_tracker 0 ∅ ∅) ops).1.
Proof.
  apply run_refines. split; simpl; try done; try (by constructor).
  - intros x. split; [by intros ?%in_ranges_nil|]. set_solver.
  - intros x. split; [by intros ?%in_ranges_nil|]. set_solver.
Qed.

Lemma ackset_refines_tracker_witness :
  let ops := [Arrive 0; Arrive 5; Arrive 2; TakeNack; Arrive 8388600; TakeAck; TakeNack;
              Arrive 16777208; TakeNack; Arrive 16777218; Arrive 16777217; TakeNack] in
  (run perform default_ackset ops).1
    = [None; None; None; Some [(1, 1); (3, 4)]; None; Some [(0, 0); (5, 5); (2, 2); (8388600, 8388600)];
       Some [(6, 8388599)]; None; Some [(8388601, 16777207)]; None; None;
       Some [(16777209, 16777215); (0, 0)]] /\
  Forall2 denotes_opt (run perform default_ackset ops).1 (run track (mk_tracker 0 ∅ ∅) ops).1.
Proof.
  intros ops. split; [vm_compute; reflexivity|].
  apply ackset_refines_tracker. cbv -[Z.sub Z.le Z.lt Z.add HALF Z.max]. unfold HALF.
  repeat split; lia.
Defined.

(** For every sequence of datagrams, plausible or not, the acknowledgement ranges hold
    exactly the sequence numbers received, and a number just received is not reported as
    missing. *)
Theorem acknowledges_exactly_received ss :
  Forall (in_range 24) ss ->
  let a := foldl (fun a s => insert_ackset s a) default_ackset ss in
  (forall x, in_ranges (ack a) x <-> x ∈ ss) /\
  (forall s, in_range 24 s -> ~ in_ranges (nack (insert_ackset s a)) s).
Proof.
  intros Hss a. split.
  2: { intros s [Hs _]. rewrite insert_ackset_eq. by apply nack_after_excludes. }
  assert (forall a0, ranges_wf (ack a0) -> forall x,
    in_ranges (ack (foldl (fun a s => insert_ackset s a) a0 ss)) x <->
    in_ranges (ack a0) x \/ x ∈ ss) as H.
  { clear a. induction Hss as [|s ss Hs _ IH]; intros a0 Hwf x; simpl; [set_solver|].
    destruct (insert_ack_spec s (ack a0) Hwf Hs) as [Hwf' Hin].
    rewrite IH; rewrite insert_ackset_eq; simpl; [|done]. rewrite Hin. set_solver. }
  intros x. subst a. rewrite H by constructor. simpl. pose proof (in_ranges_nil x). tauto.
Qed.

Lemma acknowledges_exactly_received_witness :
  let a := foldl (fun a s => insert_ackset s a) default_ackset [7; 3; 4; 16777215] in
  ack a = [(7, 7); (3, 4); (16777215, 16777215)] /\
  (forall x, in_ranges (ack a) x <-> x ∈ [7; 3; 4; 16777215]).
Proof.
  intros a. split; [vm_compute; reflexivity|].
  refine (proj1 (acknowledges_exactly_received [7; 3; 4; 16777215] _)).
  repeat constructor; unfold in_range; lia.
Defined.
