(* ===== verification/RecvQ.v ===== *)
(** * The receive queue

    [ChannelIndexes] and [RecvQ] of [src/src/arq.rs]: duplicate suppression, the five
    reliability modes, in-order delivery per channel, and hand-over to the worker. *)

From S2P Require Import Prelude Errors Sequence Frame FrameCodec Fragment AckSet.

Module ChannelIndexes.

Record ChannelIndexes := mk { primary : Z; others : gmap Z Z }.

Definition default : ChannelIndexes := mk 0 ∅.

Definition get (self : ChannelIndexes) (channel : Z) : Z :=
  if channel =? 0 then primary self
  else match others self !! channel with Some index => index | None => 0 end.

(** [*self.get_mut(channel) = index]. *)
Definition store (self : ChannelIndexes) (channel index : Z) : ChannelIndexes :=
  if channel =? 0 then mk index (others self)
  else mk (primary self) (<[channel := index]> (others self)).

(** [get_mut] itself creates a missing entry ([or_default]). *)
Definition get_mut (self : ChannelIndexes) (channel : Z) : Z * ChannelIndexes :=
  let index := get self channel in (index, store self channel index).

Lemma get_store self c index d :
  get (store self c index) d = if d =? c then index else get self d.
Proof.
  unfold get, store. destruct (c =? 0) eqn:Ec, (d =? 0) eqn:Ed, (d =? c) eqn:E; b2p; subst;
    simpl; try lia; try done.
  - by rewrite lookup_insert_eq.
  - by rewrite lookup_insert_ne by lia.
Qed.

Lemma get_store_same self c index : get (store self c index) c = index.
Proof. by rewrite get_store, Z.eqb_refl. Qed.

Lemma get_mut_get self c d : get (get_mut self c).2 d = get self d.
Proof. unfold get_mut. simpl. rewrite get_store. case_if; [b2p; by subst|done]. Qed.

End ChannelIndexes.
Abbreviation ChannelIndexes := ChannelIndexes.ChannelIndexes.

Record RecvQ := mk_recvq {
  sequenced_frame_indexes : ChannelIndexes;
  last_ordered_indexes : ChannelIndexes;
  sequence_number_ackset : ACKSet;
  packets : gmap Z FrameSetPacket;
  ordered_packets : gmap (Z * Z) FrameSetPacket;
  fragment_queue : FragmentQ;
  reliable_window : ReliableWindow.ReliableWindow;
  ordered_bytes : Z;
  ready_ordered : list FrameSetPacket;
  ready_bytes : Z;
}.

#[export] Instance set_sequenced_frame_indexes : Setter sequenced_frame_indexes := fun g r =>
  mk_recvq (g (sequenced_frame_indexes r)) (last_ordered_indexes r) (sequence_number_ackset r)
    (packets r) (ordered_packets r) (fragment_queue r) (reliable_window r) (ordered_bytes r)
    (ready_ordered r) (ready_bytes r).
#[export] Instance set_last_ordered_indexes : Setter last_ordered_indexes := fun g r =>
  mk_recvq (sequenced_frame_indexes r) (g (last_ordered_indexes r)) (sequence_number_ackset r)
    (packets r) (ordered_packets r) (fragment_queue r) (reliable_window r) (ordered_bytes r)
    (ready_ordered r) (ready_bytes r).
#[export] Instance set_sequence_number_ackset : Setter sequence_number_ackset := fun g r =>
  mk_recvq (sequenced_frame_indexes r) (last_ordered_indexes r) (g (sequence_number_ackset r))
    (packets r) (ordered_packets r) (fragment_queue r) (reliable_window r) (ordered_bytes r)
    (ready_ordered r) (ready_bytes r).
#[export] Instance set_packets : Setter packets := fun g r =>
  mk_recvq (sequenced_frame_indexes r) (last_ordered_indexes r) (sequence_number_ackset r)
    (g (packets r)) (ordered_packets r) (fragment_queue r) (reliable_window r) (ordered_bytes r)
    (ready_ordered r) (ready_bytes r).
#[export] Instance set_ordered_packets : Setter ordered_packets := fun g r =>
  mk_recvq (sequenced_frame_indexes r) (last_ordered_indexes r) (sequence_number_ackset r)
    (packets r) (g (ordered_packets r)) (fragment_queue r) (reliable_window r) (ordered_bytes r)
    (ready_ordered r) (ready_bytes r).
#[export] Instance set_fragment_queue : Setter fragment_queue := fun g r =>
  mk_recvq (sequenced_frame_indexes r) (last_ordered_indexes r) (sequence_number_ackset r)
    (packets r) (ordered_packets r) (g (fragment_queue r)) (reliable_window r) (ordered_bytes r)
    (ready_ordered r) (ready_bytes r).
#[export] Instance set_reliable_window : Setter reliable_window := fun g r =>
  mk_recvq (sequenced_frame_indexes r) (last_ordered_indexes r) (sequence_number_ackset r)
    (packets r) (ordered_packets r) (fragment_queue r) (g (reliable_window r)) (ordered_bytes r)
    (ready_ordered r) (ready_bytes r).
#[export] Instance set_ordered_bytes : Setter ordered_bytes := fun g r =>
  mk_recvq (sequenced_frame_indexes r) (last_ordered_indexes r) (sequence_number_ackset r)
    (packets r) (ordered_packets r) (fragment_queue r) (reliable_window r) (g (ordered_bytes r))
    (ready_ordered r) (ready_bytes r).
#[export] Instance set_ready_ordered : Setter ready_ordered := fun g r =>
  mk_recvq (sequenced_frame_indexes r) (last_ordered_indexes r) (sequence_number_ackset r)
    (packets r) (ordered_packets r) (fragment_queue r) (reliable_window r) (ordered_bytes r)
    (g (ready_ordered r)) (ready_bytes r).
#[export] Instance set_ready_bytes : Setter ready_bytes := fun g r =>
  mk_recvq (sequenced_frame_indexes r) (last_ordered_indexes r) (sequence_number_ackset r)
    (packets r) (ordered_packets r) (fragment_queue r) (reliable_window r) (ordered_bytes r)
    (ready_ordered r) (g (ready_bytes r)).

(** [RecvQ::new]. *)
Definition new_recvq : RecvQ :=
  mk_recvq ChannelIndexes.default ChannelIndexes.default default_ackset ∅ ∅ FragmentQ.default
    ReliableWindow.default 0 [] 0.

(** [HashMap::entry(key).or_insert(value)]. *)
Definition or_insert {A} (m : gmap Z A) (key : Z) (value : A) : gmap Z A :=
  match m !! key with Some _ => m | None => <[key := value]> m end.

(** The sequenced modes: a frame older than the newest one seen is dropped. *)
Definition insert_sequenced (frame : FrameSetPacket) (self : RecvQ) : RecvQ :=
  let channel := order_channel frame in
  let sequence_index := sequenced_frame_index frame in
  let '(last_index, indexes) := ChannelIndexes.get_mut (sequenced_frame_indexes self) channel in
  let self := self <| sequenced_frame_indexes := indexes |> in
  if (sequence_index =? last_index) || newer sequence_index last_index then
    self <| packets := or_insert (packets self) (sequence_number frame) frame |>
         <| sequenced_frame_indexes :=
              ChannelIndexes.store (sequenced_frame_indexes self) channel (next sequence_index) |>
  else self.

(** [while !self.ordered_packets.is_empty()]: every iteration removes a packet, so
    [size ordered_packets] iterations are enough. *)
Fixpoint drain_ordered (fuel : nat) (channel : Z) (self : RecvQ) : RecvQ :=
  match fuel with
  | O => self
  | S fuel =>
      if Nat.eqb (size (ordered_packets self)) 0 then self
      else
        let expected := ChannelIndexes.get (last_ordered_indexes self) channel in
        match ordered_packets self !! (channel, expected) with
        | None => self
        | Some frame =>
            drain_ordered fuel channel
              (self <| ordered_packets := delete (channel, expected) (ordered_packets self) |>
                    <| ordered_bytes := usize_sub (ordered_bytes self) (data_len frame) |>
                    <| ready_bytes := ready_bytes self + data_len frame |>
                    <| ready_ordered := ready_ordered self ++ [frame] |>
                    <| last_ordered_indexes :=
                         ChannelIndexes.store (last_ordered_indexes self) channel (next expected) |>)
        end
  end.

(** A complete ordered message. [expected_index] was read before reassembly. *)
Definition insert_complete (expected_index : Z) (frame : FrameSetPacket) : SE RecvQ unit := fun self =>
  let key := (order_channel frame, ordered_frame_index frame) in
  if bool_decide (is_Some (ordered_packets self !! key)) then (Ok tt, self)
  else if (RECEIVE_WINDOW <=? Z.of_nat (size (ordered_packets self)) + zlen (ready_ordered self))
       || (64 * 1024 * 1024 <? ordered_bytes self + ready_bytes self + data_len frame)
  then (Err PacketParseError, self)
  else if ordered_frame_index frame =? expected_index then
    let channel := order_channel frame in
    let self := self <| ready_bytes := ready_bytes self + data_len frame |>
                     <| ready_ordered := ready_ordered self ++ [frame] |> in
    let expected := ChannelIndexes.get (last_ordered_indexes self) channel in
    let self := self <| last_ordered_indexes :=
                  ChannelIndexes.store (last_ordered_indexes self) channel (next expected) |> in
    (Ok tt, drain_ordered (size (ordered_packets self)) channel self)
  else
    (Ok tt, self <| ordered_bytes := ordered_bytes self + data_len frame |>
                 <| ordered_packets := <[key := frame]> (ordered_packets self) |>).

Definition insert_ordered (now : Z) (frame : FrameSetPacket) : SE RecvQ unit :=
  self ← get;
  let expected_index := ChannelIndexes.get (last_ordered_indexes self) (order_channel frame) in
  if newer expected_index (ordered_frame_index frame) then mret tt
  else if RECEIVE_WINDOW <=? distance (ordered_frame_index frame) expected_index
  then throw PacketParseError
  else
    complete ← (if is_fragment frame then fun self =>
                  let '(res, q) := FragmentQ.insert_and_take_completed now frame (fragment_queue self) in
                  (res, self <| fragment_queue := q |>)
                else mret (Some frame));
    match complete with
    | Some frame => insert_complete expected_index frame
    | None => mret tt
    end.

(** [RecvQ::insert]. *)
Definition insert (now : Z) (frame : FrameSetPacket) : SE RecvQ unit :=
  mode ← lift (reliability frame);
  _ ← modify (fun self => self <| sequence_number_ackset :=
                insert_ackset (sequence_number frame) (sequence_number_ackset self) |>);
  reliable ← lift (is_reliable frame);
  fresh ← (if reliable : bool then fun self =>
             let '(res, window) :=
               ReliableWindow.accept (reliable_window self) (reliable_frame_index frame) in
             (res, self <| reliable_window := window |>)
           else mret true);
  if negb fresh then mret tt
  else match mode with
  | Reliability.Unreliable =>
      modify (fun self => self <| packets := or_insert (packets self) (sequence_number frame) frame |>)
  | Reliability.UnreliableSequenced => modify (insert_sequenced frame)
  | Reliability.Reliable =>
      modify (fun self => self <| packets := <[sequence_number frame := frame]> (packets self) |>)
  | Reliability.ReliableOrdered => insert_ordered now frame
  | Reliability.ReliableSequenced => modify (insert_sequenced frame)
  end.

(** [sort_unstable_by_key(|frame| frame.sequence_number)] on frames with distinct keys. *)
Definition by_sequence (f g : FrameSetPacket) : Prop := sequence_number f <= sequence_number g.
#[export] Instance by_sequence_dec : RelDecision by_sequence.
Proof. unfold by_sequence. intros f g. apply _. Defined.

(** [flush_into]: appends to [frames] and empties the queue. *)
Definition flush_into (frames : list FrameSetPacket) (self : RecvQ) : list FrameSetPacket * RecvQ :=
  let frames := frames ++ ready_ordered self in
  let self := self <| ready_ordered := [] |> <| ready_bytes := 0 |> in
  if Nat.eqb (size (packets self)) 0 then (frames, self)
  else
    let drained := map snd (map_to_list (packets self)) in
    (frames ++ merge_sort by_sequence drained, self <| packets := ∅ |>).

Definition take_acks (self : RecvQ) : list range * RecvQ :=
  let '(ranges, a) := take_ack_into (sequence_number_ackset self) in
  (ranges, self <| sequence_number_ackset := a |>).

Definition take_nacks (self : RecvQ) : list range * RecvQ :=
  let '(ranges, a) := take_nack_into (sequence_number_ackset self) in
  (ranges, self <| sequence_number_ackset := a |>).

Definition needs_maintenance (self : RecvQ) : bool :=
  negb (Nat.eqb (length (nack (sequence_number_ackset self))) 0)
  || negb (FragmentQ.queue_size (fragment_queue self) =? 0).

Definition fragments_expired (now : Z) (self : RecvQ) : bool :=
  FragmentQ.expired now (fragment_queue self).

Definition get_ordered_packet (self : RecvQ) : Z :=
  Z.of_nat (size (ordered_packets self)) + zlen (ready_ordered self).

Definition get_fragment_queue_size (self : RecvQ) : Z := FragmentQ.queue_size (fragment_queue self).

Definition get_ordered_keys (self : RecvQ) : list (Z * Z) := map fst (map_to_list (ordered_packets self)).

Definition get_size (self : RecvQ) : Z := Z.of_nat (size (packets self)).

(** The receive loop of the connection worker (socket.rs): each frame is inserted and what
    became ready is flushed before the next; the first rejected frame ends the loop, and
    then the connection. Every insertion reads the clock. *)
Fixpoint receive (arrivals : list (Z * FrameSetPacket)) (ready : list FrameSetPacket) (self : RecvQ)
    : bool * list FrameSetPacket * RecvQ :=
  match arrivals with
  | [] => (false, ready, self)
  | (now, frame) :: arrivals =>
      match insert now frame self with
      | (Err _, self) => (true, ready, self)
      | (Ok _, self) =>
          let '(ready, self) := flush_into ready self in
          receive arrivals ready self
      end
  end.

(** ** In-order delivery

    Positions are unbounded: [k c] messages have been delivered on channel [c] so far.
    [content c n f] says that [f] carries the message at position [n] of the channel; the
    theorems instantiate it with what a sender put there. *)

Section Delivery.
Context (content : Z -> Z -> FrameSetPacket -> Prop).
Implicit Types (k : Z -> Z) (q : RecvQ) (f m : FrameSetPacket) (c n : Z).

Definition genuine (c n : Z) (f : FrameSetPacket) : Prop :=
  order_channel f = c /\ ordered_frame_index f = serial n /\
  reliability f = Ok Reliability.ReliableOrdered /\ content c n f.

Definition BYTE_LIMIT : Z := 64 * 1024 * 1024.

(** Held-back messages are ahead of the next one expected; [slack] channels may hold
    the next one itself, while they are drained. *)
Record recvq_inv_at (slack : Z -> Prop) (k : Z -> Z) (q : RecvQ) : Prop := {
  ri_fragments : queue_wf (fragment_queue q);
  ri_ordered_bytes : ordered_bytes q = map_sum data_len (ordered_packets q);
  ri_ready_bytes : ready_bytes q = sumZ data_len (ready_ordered q);
  ri_limit : ordered_bytes q + ready_bytes q <= BYTE_LIMIT;
  ri_count : get_ordered_packet q <= RECEIVE_WINDOW;
  ri_expected : forall c, ChannelIndexes.get (last_ordered_indexes q) c = serial (k c);
  ri_held : forall c i f, ordered_packets q !! (c, i) = Some f ->
    exists n, i = serial n /\ k c <= n < k c + RECEIVE_WINDOW /\ (n = k c -> slack c) /\
      genuine c n f;
  ri_packets : forall s f, packets q !! s = Some f ->
    sequence_number f = s /\ reliability f ≠ Ok Reliability.ReliableOrdered;
}.

Definition recvq_inv := recvq_inv_at (fun _ => False).

(** The messages [new] continue every channel from [k] to [k']. *)
Definition continues (k k' : Z -> Z) (new : list FrameSetPacket) : Prop :=
  forall c, k c <= k' c /\
    Forall2 (genuine c) (seqZ (k c) (k' c - k c)) (filter (fun f => order_channel f = c) new).

Lemma continues_refl k : continues k k [].
Proof. intros c. split; [lia|]. rewrite Z.sub_diag. constructor. Qed.

Lemma continues_trans k1 k2 k3 new1 new2 :
  continues k1 k2 new1 -> continues k2 k3 new2 -> continues k1 k3 (new1 ++ new2).
Proof.
  intros H1 H2 c. destruct (H1 c) as [L1 F1], (H2 c) as [L2 F2]. split; [lia|].
  rewrite list.filter_app. replace (k3 c - k1 c) with ((k2 c - k1 c) + (k3 c - k2 c)) by lia.
  rewrite seqZ_app by lia. replace (k1 c + (k2 c - k1 c)) with (k2 c) by lia.
  by apply Forall2_app.
Qed.

Definition bump (c : Z) (k : Z -> Z) : Z -> Z := fun d => if d =? c then k d + 1 else k d.

Lemma continues_one k c f : genuine c (k c) f -> continues k (bump c k) [f].
Proof.
  intros Hg d. destruct Hg as (Hc & Hi & Hr & Hco). unfold bump.
  destruct (d =? c) eqn:E; b2p.
  - subst d. split; [lia|]. replace (k c + 1 - k c) with 1 by lia.
    rewrite filter_cons_True by done. rewrite seqZ_cons, seqZ_nil by lia. constructor; [|constructor]. by split.
  - split; [lia|]. rewrite Z.sub_diag, filter_cons_False by congruence. constructor.
Qed.

Lemma data_len_nonneg f : 0 <= data_len f.
Proof. unfold data_len, FramePayload.len. lia. Qed.

Lemma ordered_bytes_bounds slack k q key f :
  recvq_inv_at slack k q -> ordered_packets q !! key = Some f ->
  0 <= data_len f <= ordered_bytes q /\ ordered_bytes q < 2 ^ 64.
Proof.
  intros H Hf. pose proof (data_len_nonneg f).
  assert (data_len f <= ordered_bytes q).
  { rewrite (ri_ordered_bytes _ _ _ H). apply (map_sum_lookup_le _ _ key); [|done].
    intros ? g _. apply data_len_nonneg. }
  assert (0 <= ready_bytes q).
  { rewrite (ri_ready_bytes _ _ _ H). apply sumZ_nonneg. intros. apply data_len_nonneg. }
  pose proof (ri_limit _ _ _ H). unfold BYTE_LIMIT in *. lia.
Qed.

(** Message [n] of channel [c] is there: delivered, or held back. *)
Definition present k q c n : Prop :=
  n < k c \/ (k c <= n < k c + RECEIVE_WINDOW /\ is_Some (ordered_packets q !! (c, serial n))).

(** Delivering the next message of a channel, from the held ones or not. *)
Lemma present_bump slack k q q' c j :
  recvq_inv_at slack k q ->
  (forall d n, is_Some (ordered_packets q' !! (d, serial n)) <->
     is_Some (ordered_packets q !! (d, serial n)) /\ (d, serial n) <> (c, serial j)) ->
  j = k c -> forall d n, present (bump c k) q' d n <-> present k q d n \/ (d = c /\ n = j).
Proof.
  intros Hinv Hq' -> d n. unfold present, bump. rewrite Hq'.
  assert (is_Some (ordered_packets q !! (d, serial n)) -> k d <= n < k d + RECEIVE_WINDOW + 1 ->
    n < k d + RECEIVE_WINDOW) as Hlast.
  { intros [f Hf] Hn. destruct (ri_held _ _ _ Hinv _ _ _ Hf) as (x & E & Hx & _).
    apply serial_inj in E; [subst; lia|unfold RECEIVE_WINDOW in *; lia]. }
  assert (k c <= n < k c + RECEIVE_WINDOW + 1 -> serial n = serial (k c) -> n = k c) as Hinj
    by (intros ? E; apply serial_inj in E; [done|unfold RECEIVE_WINDOW in *; lia]).
  unfold RECEIVE_WINDOW in *. destruct (d =? c) eqn:E; b2p.
  - subst d. split.
    + intros [?|(Hn & Hs & _)]; [destruct (decide (n = k c)); [auto|left; left; lia]|].
      left. right. split; [|done]. specialize (Hlast Hs). lia.
    + intros [[?|(Hn & Hs)]|[_ ->]]; [left; lia| |left; lia].
      destruct (decide (n = k c)) as [->|]; [left; lia|]. right. split; [lia|]. split; [done|].
      intros [= En]. apply Hinj in En; [done|lia].
  - split; [intros [?|(Hn & Hs & _)]; auto|]. intros [[?|(Hn & Hs)]|[? _]]; [auto| |done].
    right. split; [done|]. split; [done|]. by intros [= ? _].
Qed.

(** The drain loop: contiguous messages become ready, nothing else changes. *)
Lemma drain_ordered_inv fuel c k q :
  (size (ordered_packets q) <= fuel)%nat -> recvq_inv_at (fun d => d = c) k q ->
  exists k' new, recvq_inv k' (drain_ordered fuel c q) /\
    ready_ordered (drain_ordered fuel c q) = ready_ordered q ++ new /\ continues k k' new /\
    forall d n, present k' (drain_ordered fuel c q) d n <-> present k q d n.
Proof.
  revert k q. induction fuel as [|fuel IH]; intros k q Hsize Hinv.
  { assert (ordered_packets q = ∅) as He by (apply map_size_empty_iff; lia).
    exists k, []. rewrite app_nil_r. simpl. split_and!; [|done|apply continues_refl|done].
    destruct Hinv. split; try done. intros d i f Hf. by rewrite He, lookup_empty in Hf. }
  cbn [drain_ordered]. destruct (Nat.eqb _ 0) eqn:Ez.
  { apply Nat.eqb_eq, map_size_empty_iff in Ez.
    exists k, []. rewrite app_nil_r. split_and!; [|done|apply continues_refl|done].
    destruct Hinv. split; try done. intros d i f Hf. by rewrite Ez, lookup_empty in Hf. }
  destruct (ordered_packets q !! _) as [f|] eqn:Ef.
  2: { exists k, []. rewrite app_nil_r. split_and!; [|done|apply continues_refl|done].
       destruct Hinv as [? ? ? ? ? He Hh ?]. split; try done. intros d i g Hg.
       destruct (Hh d i g Hg) as (n & -> & Hn & Hs & Hgen). exists n. split_and!; try done; try lia.
       intros ->. specialize (Hs eq_refl). subst d. rewrite He in Ef. congruence. }
  pose proof (ordered_bytes_bounds _ _ _ _ _ Hinv Ef) as [Hlen Hlim]. pose proof Hinv as Hinv0.
  destruct Hinv as [Hfr Hob Hrb Hl Hc He Hh Hpk]. rewrite He in *.
  assert (genuine c (k c) f) as Hgen.
  { destruct (Hh c (serial (k c)) f Ef) as (n & E & Hn & _ & Hg).
    apply serial_inj in E; [by subst|unfold RECEIVE_WINDOW in *; lia]. }
  match goal with |- exists k' new, recvq_inv k' (drain_ordered _ _ ?q1) /\ _ =>
    pose proof (present_bump _ k q q1 c (k c) Hinv0) as Hpr;
    destruct (IH (bump c k) q1) as (k' & new & Hinv' & Hready & Hcont & Hpres) end.
  - simpl. rewrite map_size_delete_Some by eauto. lia.
  - split; simpl; try done.
    + rewrite usize_sub_exact by lia. rewrite (map_sum_delete _ _ _ f) by done. lia.
    + rewrite sumZ_app, Hrb. simpl. lia.
    + rewrite usize_sub_exact by lia. lia.
    + unfold get_ordered_packet in *. simpl. rewrite map_size_delete_Some, length_app by eauto.
      assert (size (ordered_packets q) ≠ 0%nat) by (apply Nat.eqb_neq; done). simpl. lia.
    + intros d. rewrite ChannelIndexes.get_store. unfold bump. case_if; b2p; [|by apply He].
      subst d. by rewrite next_serial.
    + intros d i g [Hne Hg]%lookup_delete_Some.
      destruct (Hh d i g Hg) as (n & -> & Hn & Hs & Hgn). exists n. unfold bump.
      destruct (d =? c) eqn:E; b2p; split_and!; try done; try lia.
      * subst d. assert (n ≠ k c) by (intros ->; done). lia.
  - exists k', (f :: new). split_and!; [done| | |].
    + rewrite Hready. simpl. by rewrite <- app_assoc.
    + by apply (continues_trans k (bump c k) k' [f]); [apply continues_one|].
    + intros d n. rewrite Hpres, Hpr; [|intros d' n'; simpl; rewrite lookup_delete_is_Some; naive_solver|done].
      split; [|auto]. intros [?|[-> ->]]; [done|]. right. split; [unfold RECEIVE_WINDOW; lia|by exists f].
Qed.

Definition position (k : Z -> Z) (f : FrameSetPacket) : Z :=
  let c := order_channel f in k c + distance (ordered_frame_index f) (serial (k c)).

Lemma position_serial k f :
  in_range 24 (ordered_frame_index f) -> serial (position k f) = ordered_frame_index f.
Proof.
  intros Hi. unfold position. rewrite <- (serial_small (ordered_frame_index f)) at 1 by done.
  rewrite distance_serial. unfold serial. rewrite Zplus_mod_idemp_r, Zplus_minus.
  by apply Z.mod_small.
Qed.

(** A complete message: rejected by a limit and nothing changes, or accounted for. *)
Lemma insert_complete_inv k m q :
  recvq_inv k q -> genuine (order_channel m) (position k m) m ->
  distance (ordered_frame_index m) (serial (k (order_channel m))) < RECEIVE_WINDOW ->
  let '(r, q') := insert_complete (serial (k (order_channel m))) m q in
  exists k' new, recvq_inv k' q' /\ ready_ordered q' = ready_ordered q ++ new /\
    continues k k' new /\
    (r = Ok tt -> forall d n, present k' q' d n <->
       present k q d n \/ (d = order_channel m /\ n = position k m)).
Proof.
  intros Hinv Hgen Hdist. pose proof Hgen as (_ & Hi & _). pose proof Hinv as Hinv0.
  pose proof (distance_range (ordered_frame_index m) (serial (k (order_channel m)))).
  unfold insert_complete.
  destruct (bool_decide _) eqn:Edup.
  { exists k, []. rewrite app_nil_r. split_and!; [done|done|apply continues_refl|].
    intros _ d n. split; [auto|]. intros [?|[-> ->]]; [done|]. right.
    apply bool_decide_eq_true_1 in Edup. rewrite <- Hi. split; [unfold position; lia|done]. }
  destruct (_ || _) eqn:Elim.
  { exists k, []. rewrite app_nil_r. split_and!; [done|done|apply continues_refl|done]. }
  pose proof (data_len_nonneg m). b2p.
  destruct Hinv as [Hfr Hob Hrb Hl Hc He Hh Hpk]. set (c := order_channel m) in *.
  destruct (ordered_frame_index m =? serial (k c)) eqn:Eexp; b2p.
  - assert (position k m = k c) as Hpos.
    { unfold position. fold c. rewrite Eexp, distance_mod, Z.sub_diag. change (serial 0) with 0. lia. }
    rewrite Hpos in Hgen.
    match goal with |- exists k' new, recvq_inv k' (drain_ordered ?n _ ?q1) /\ _ =>
      
      pose proof (present_bump _ k q q1 c (k c) Hinv0) as Hpr;
      destruct (drain_ordered_inv n c (bump c k) q1) as (k' & new & Hinv' & Hready & Hcont & Hpres) end.
    + done.
    + split; simpl; try done.
      * rewrite sumZ_app, Hrb. simpl. lia.
      * unfold BYTE_LIMIT. lia.
      * unfold get_ordered_packet. simpl. rewrite length_app. simpl. lia.
      * intros d. rewrite ChannelIndexes.get_store. unfold bump. case_if; b2p; [|by apply He].
        subst d. by rewrite He, next_serial.
      * intros d i g Hg. destruct (Hh d i g Hg) as (n & -> & Hn & Hs & Hgn). exists n. unfold bump.
        destruct (d =? c) eqn:E; b2p; split_and!; try done; try lia.
    + exists k', (m :: new). split_and!; [done|rewrite Hready; simpl; by rewrite <- app_assoc| |].
      * by apply (continues_trans k (bump c k) k' [m]); [apply continues_one|].
      * intros _ d n. rewrite Hpres, Hpos. apply Hpr; [|done]. intros d' n'. simpl. split; [|tauto].
        intros Hs. split; [done|]. intros [= -> En]. rewrite En in Hs. by rewrite <- Eexp in Hs.
  - assert (ordered_packets q !! (c, ordered_frame_index m) = None) as Hnone
      by (by apply eq_None_not_Some).
    exists k, []. rewrite app_nil_r. split_and!; [|done|apply continues_refl|].
    2: { intros _ d n. unfold present. simpl. rewrite lookup_insert_is_Some. rewrite Hi. split.
         - intros [?|(Hn & [[= <- En]|[_ ?]])]; [auto| |auto]. right. split; [done|].
           apply serial_inj in En; [done|unfold position in *; fold c in En |- *; unfold RECEIVE_WINDOW in *; lia].
         - intros [[?|[Hn ?]]|[-> ->]]; [auto| |].
           + right. split; [done|]. destruct (decide ((c, serial (position k m)) = (d, serial n))); auto.
           + right. split; [unfold position; fold c; lia|auto]. }
    split; simpl; try done.
    + rewrite map_sum_insert by done. lia.
    + unfold BYTE_LIMIT. lia.
    + unfold get_ordered_packet in *. simpl. rewrite map_size_insert_None by done. lia.
    + intros d i g [[[= <- <-] <-]|[_ Hg]]%lookup_insert_Some; [|by apply Hh].
      exists (position k m). split_and!; try done; unfold position; fold c; try lia.
      intros E. destruct Eexp. rewrite Hi. f_equal. unfold position. fold c. lia.
Qed.

(** The message an arriving ordered frame completes, if any. *)
Definition completes (now : Z) (f : FrameSetPacket) (q : RecvQ) : option FrameSetPacket :=
  if is_fragment f
  then match (FragmentQ.insert_and_take_completed now f (fragment_queue q)).1 with
       | Ok complete => complete
       | Err _ => None
       end
  else Some f.

Lemma frame_wf_arriving f r : frame_wf f r -> arriving f.
Proof.
  intros H. split; [exists r; apply H|]. pose proof (wf_index _ _ H). pose proof (wf_size _ _ H).
  unfold in_range in *. lia.
Qed.

Lemma completes_genuine k now f q m :
  recvq_inv k q -> frame_wf f Reliability.ReliableOrdered -> completes now f q = Some m ->
  content (order_channel m) (position k m) m ->
  order_channel m = order_channel f /\ ordered_frame_index m = ordered_frame_index f /\
  genuine (order_channel m) (position k m) m.
Proof.
  intros Hinv Hwf Hm Hco. pose proof (val_reliability _ _ (wf_validated _ _ Hwf)) as Hr.
  assert (order_channel m = order_channel f /\ ordered_frame_index m = ordered_frame_index f /\
    reliability m = reliability f) as (Hc & Hi & Hrm).
  { unfold completes in Hm. destruct (is_fragment f); [|by injection Hm as <-].
    destruct (FragmentQ.insert_and_take_completed now f (fragment_queue q)) as [[[g|]|e] fq] eqn:E;
      simpl in Hm; try done. injection Hm as ->.
    by destruct (take_completed_some _ _ _ _ _ (ri_fragments _ _ _ Hinv)
      (frame_wf_arriving _ _ Hwf) E) as (? & ? & ? & _). }
  split; [done|]. split; [done|]. split; [done|]. split; [|by split; [congruence|]].
  rewrite position_serial; [done|]. rewrite Hi. apply Hwf.
Qed.

Lemma insert_ordered_inv k now f q :
  recvq_inv k q -> frame_wf f Reliability.ReliableOrdered ->
  (forall m, completes now f q = Some m -> content (order_channel m) (position k m) m) ->
  exists k' new, recvq_inv k' (insert_ordered now f q).2 /\
    ready_ordered (insert_ordered now f q).2 = ready_ordered q ++ new /\ continues k k' new.
Proof.
  intros Hinv Hwf Hgen. pose proof (frame_wf_arriving _ _ Hwf) as Harr.
  assert (forall q1, recvq_inv k q1 -> ready_ordered q1 = ready_ordered q ->
    exists k' new, recvq_inv k' q1 /\ ready_ordered q1 = ready_ordered q ++ new /\
      continues k k' new) as Hsame.
  { intros q1 ? E. exists k, []. rewrite app_nil_r. split_and!; [done|done|apply continues_refl]. }
  unfold insert_ordered. erewrite SE_bind_ok by reflexivity.
  rewrite (ri_expected _ _ _ Hinv).
  assert (forall m, completes now f q = Some m -> order_channel m = order_channel f /\
    ordered_frame_index m = ordered_frame_index f /\
    genuine (order_channel m) (position k m) m) as Hgen'
    by (intros m Hm; apply (completes_genuine k now f q); auto).
  destruct (newer _ _) eqn:Enew; [by apply Hsame|].
  destruct (RECEIVE_WINDOW <=? _) eqn:Ewin; [by apply Hsame|]. b2p.
  clear Hgen. unfold completes in Hgen'. destruct (is_fragment f).
  - destruct (FragmentQ.insert_and_take_completed now f (fragment_queue q)) as [res fq] eqn:E.
    pose proof (take_completed_wf now f _ (ri_fragments _ _ _ Hinv) Harr) as Hfq.
    rewrite E in Hfq. simpl in Hfq, Hgen'.
    set (q1 := q <| fragment_queue := fq |>).
    assert (recvq_inv k q1) as Hinv1 by (destruct Hinv; by split).
    destruct res as [[m|]|e].
    + destruct (Hgen' m eq_refl) as (Hc & Hi & Hg).
      erewrite SE_bind_ok by (cbv beta; rewrite E; reflexivity). fold q1. rewrite <- Hc.
      pose proof (insert_complete_inv k m q1 Hinv1 Hg) as H.
      rewrite Hc, Hi in H. specialize (H Ewin). rewrite Hc.
      cbv beta iota. destruct (insert_complete _ m q1) as [r q']. destruct H as (k' & new & ? & ? & ? & _). by exists k', new.
    + erewrite SE_bind_ok by (cbv beta; rewrite E; reflexivity). by apply Hsame.
    + erewrite SE_bind_err by (cbv beta; rewrite E; reflexivity). by apply Hsame.
  - erewrite SE_bind_ok by reflexivity.
    pose proof (insert_complete_inv k f q Hinv (proj2 (proj2 (Hgen' f eq_refl))) Ewin) as H.
    cbv beta iota. destruct (insert_complete _ f q) as [r q']. destruct H as (k' & new & ? & ? & ? & _). by exists k', new.
Qed.

Lemma or_insert_packets q f :
  (forall s g, packets q !! s = Some g ->
     sequence_number g = s /\ reliability g ≠ Ok Reliability.ReliableOrdered) ->
  reliability f ≠ Ok Reliability.ReliableOrdered ->
  forall s g, or_insert (packets q) (sequence_number f) f !! s = Some g ->
    sequence_number g = s /\ reliability g ≠ Ok Reliability.ReliableOrdered.
Proof.
  intros Hq Hf s g. unfold or_insert. destruct (packets q !! sequence_number f); [apply Hq|].
  intros [[<- <-]|[_ Hg]]%lookup_insert_Some; [done|by apply Hq].
Qed.

Lemma insert_sequenced_inv k q f :
  recvq_inv k q -> reliability f ≠ Ok Reliability.ReliableOrdered ->
  recvq_inv k (insert_sequenced f q) /\ ready_ordered (insert_sequenced f q) = ready_ordered q.
Proof.
  intros [? ? ? ? ? ? ? Hp] Hf. unfold insert_sequenced.
  destruct (ChannelIndexes.get_mut _ _) as [last indexes]. case_if; split; try done; split; try done.
  simpl. by apply or_insert_packets.
Qed.

(** One insertion, whatever the frame. *)
Lemma insert_inv k now f q :
  recvq_inv k q -> frame_wf f (rel_of f) ->
  (rel_of f = Reliability.ReliableOrdered ->
   forall m, completes now f q = Some m -> content (order_channel m) (position k m) m) ->
  exists k' new, recvq_inv k' (insert now f q).2 /\
    ready_ordered (insert now f q).2 = ready_ordered q ++ new /\ continues k k' new.
Proof.
  intros Hinv Hwf Hgen. pose proof (val_reliability _ _ (wf_validated _ _ Hwf)) as Hr.
  assert (forall q1, recvq_inv k q1 -> ready_ordered q1 = ready_ordered q ->
    exists k' new, recvq_inv k' q1 /\ ready_ordered q1 = ready_ordered q ++ new /\
      continues k k' new) as Hsame.
  { intros q1 ? E. exists k, []. rewrite app_nil_r. split_and!; [done|done|apply continues_refl]. }
  unfold insert. rewrite (is_reliable_ok _ _ Hr), Hr. do 3 (erewrite SE_bind_ok by reflexivity).
  set (q1 := q <| sequence_number_ackset := _ |>).
  assert (recvq_inv k q1) as Hinv1 by (destruct Hinv; by split).
  match goal with |- context [((?m : SE RecvQ bool) ≫= ?kk) q1] =>
    assert (exists res w, m q1 = (res, q1 <| reliable_window := w |>)) as (res & w & E);
    [|destruct res as [fresh|e];
      [rewrite (SE_bind_ok m kk _ _ _ E)|rewrite (SE_bind_err m kk _ _ _ E)]] end.
  { case_if.
    - unfold q1. simpl. destruct (ReliableWindow.accept _ _) as [res w]. by exists res, w.
    - exists (Ok true), (reliable_window q1). by destruct q. }
  2: { apply Hsame; [|done]. destruct Hinv1. by split. }
  set (q2 := q1 <| reliable_window := w |>).
  assert (recvq_inv k q2) as Hinv2 by (destruct Hinv1; by split).
  destruct fresh; [|by apply Hsame]. simpl negb. cbv iota.
  destruct (rel_of f) eqn:Erel.
  - apply Hsame; [|done]. destruct Hinv2 as [? ? ? ? ? ? ? Hp]. split; try done.
    simpl. apply or_insert_packets; [exact Hp|]. by rewrite Hr.
  - pose proof (insert_sequenced_inv k q2 f Hinv2) as [? ?]; [by rewrite Hr|]. by apply Hsame.
  - apply Hsame; [|done]. destruct Hinv2 as [? ? ? ? ? ? ? Hp]. split; try done.
    simpl. intros s g [[<- <-]|[_ Hg]]%lookup_insert_Some; [|by apply Hp]. split; [done|by rewrite Hr].
  - apply (insert_ordered_inv k now f q2 Hinv2 Hwf). by apply Hgen.
  - pose proof (insert_sequenced_inv k q2 f Hinv2) as [? ?]; [by rewrite Hr|]. by apply Hsame.
Qed.

Definition in_channel (c : Z) (f : FrameSetPacket) : Prop :=
  reliability f = Ok Reliability.ReliableOrdered /\ order_channel f = c.

#[local] Instance in_channel_dec c f : Decision (in_channel c f).
Proof. unfold in_channel. apply _. Defined.

(** What was delivered on a channel, and how much. *)
Definition delivered (c : Z) (out : list FrameSetPacket) : list FrameSetPacket :=
  filter (in_channel c) out.

Definition progress (out : list FrameSetPacket) (c : Z) : Z := zlen (delivered c out).

Lemma delivered_app c out out' : delivered c (out ++ out') = delivered c out ++ delivered c out'.
Proof. apply list.filter_app. Qed.

Lemma continues_delivered k k' new c :
  continues k k' new -> delivered c new = filter (fun f => order_channel f = c) new.
Proof.
  intros H. apply filter_ext_in. intros f Hf. unfold in_channel. split; [by intros [_ ?]|].
  intros Hc. split; [|done]. destruct (H c) as [_ HF].
  assert (f ∈ filter (fun f => order_channel f = c) new) as Hin by (by apply list_elem_of_filter).
  apply list_elem_of_lookup in Hin as [i Hi].
  destruct (Forall2_lookup_r _ _ _ _ _ HF Hi) as (n & _ & Hg). by destruct Hg as (_ & _ & ? & _).
Qed.

Lemma flush_into_inv k out q :
  recvq_inv k q ->
  let '(out', q') := flush_into out q in
  recvq_inv k q' /\ ready_ordered q' = [] /\ packets q' = ∅ /\
  (forall c, delivered c out' = delivered c out ++ delivered c (ready_ordered q)).
Proof.
  intros [? Hob Hrb Hl Hc ? ? Hp]. unfold flush_into.
  assert (0 <= ready_bytes q) by (rewrite Hrb; apply sumZ_nonneg; intros; apply data_len_nonneg).
  assert (Z.of_nat (size (ordered_packets q)) <= RECEIVE_WINDOW)
    by (unfold get_ordered_packet in Hc; lia).
  cbn [packets set_field set_ready_ordered set_ready_bytes].
  destruct (Nat.eqb _ 0) eqn:E.
  - apply Nat.eqb_eq, map_size_empty_iff in E. split_and!; [|done|done|intros; apply delivered_app].
    split; simpl; try done; unfold get_ordered_packet in *; simpl; lia.
  - split_and!; [|done|done|].
    + split; simpl; try done; unfold get_ordered_packet in *; simpl; try lia.
    + intros c. rewrite !delivered_app. etransitivity; [|apply app_nil_r].
      f_equal. apply filter_none. intros f. rewrite merge_sort_Permutation.
      intros ([s g] & -> & Hg%elem_of_map_to_list)%list_elem_of_fmap [Hr _].
      by apply (Hp s g).
Qed.

Lemma recvq_inv_ext k k' q : (forall c, k c = k' c) -> recvq_inv k q -> recvq_inv k' q.
Proof.
  intros Hk [? ? ? ? ? He Hh ?]. split; try done.
  - intros c. by rewrite <- Hk.
  - intros c i f Hf. destruct (Hh c i f Hf) as (n & ? & ? & ? & ?). exists n.
    rewrite <- Hk. done.
Qed.

(** Along the run, every frame is as the decoder returns it, and every message completed
    carries what belongs at the position its index stands for. *)
Fixpoint honest (arrivals : list (Z * FrameSetPacket)) (out : list FrameSetPacket) (q : RecvQ) : Prop :=
  match arrivals with
  | [] => True
  | (now, f) :: arrivals =>
      frame_wf f (rel_of f) /\
      (rel_of f = Reliability.ReliableOrdered -> forall m, completes now f q = Some m ->
         content (order_channel m) (position (progress out) m) m) /\
      match insert now f q with
      | (Err _, _) => True
      | (Ok _, q) => let '(out, q) := flush_into out q in honest arrivals out q
      end
  end.

Definition consecutive (out : list FrameSetPacket) : Prop :=
  forall c, Forall2 (genuine c) (seqZ 0 (progress out c)) (delivered c out).

Lemma receive_inv arrivals out q :
  recvq_inv (progress out) q -> ready_ordered q = [] -> consecutive out -> honest arrivals out q ->
  let '(invalid, out', q') := receive arrivals out q in
  consecutive out' /\ exists k, recvq_inv k q' /\
    (invalid = false -> forall c, k c = progress out' c).
Proof.
  revert out q. induction arrivals as [|[now f] arrivals IH]; intros out q Hinv Hready Hcons Hh.
  { simpl. split; [done|]. by exists (progress out). }
  destruct Hh as (Hwf & Hgen & Hrest). cbn [receive].
  destruct (insert_inv _ now f q Hinv Hwf Hgen) as (k' & new & Hinv' & Hr & Hc).
  destruct (insert now f q) as [[u|e] q1] eqn:E; simpl in Hinv', Hr.
  2: { split; [done|]. by exists k'. }
  pose proof (flush_into_inv k' out q1 Hinv') as Hfl.
  destruct (flush_into out q1) as [out2 q2]. destruct Hfl as (Hinv2 & Hr2 & _ & Hd).
  rewrite Hready in Hr. simpl in Hr. rewrite Hr in Hd.
  assert (forall c, delivered c out2 = delivered c out ++ filter (fun f => order_channel f = c) new) as Hd'.
  { intros c. by rewrite Hd, (continues_delivered _ _ _ _ Hc). }
  assert (forall c, k' c = progress out2 c) as Hk.
  { intros c. destruct (Hc c) as [Hle HF]. apply Forall2_length in HF. rewrite length_seqZ in HF.
    unfold progress in *. rewrite Hd', length_app. lia. }
  apply IH; [by apply (recvq_inv_ext k')|done| |done].
  intros c. destruct (Hc c) as [Hle HF]. rewrite <- Hk, Hd'.
  replace (k' c) with (progress out c + (k' c - progress out c)) by lia.
  rewrite seqZ_app by (unfold progress in *; lia). apply Forall2_app; [apply Hcons|].
  by rewrite Z.add_0_l.
Qed.

Lemma recvq_inv_new : recvq_inv (fun _ => 0) new_recvq.
Proof.
  split; simpl; try done; try (intros ? ? ? H; by rewrite lookup_empty in H);
    try (intros ? ? H; by rewrite lookup_empty in H).
  intros c. unfold ChannelIndexes.get. simpl. rewrite lookup_empty. by case_if.
Qed.

Lemma receive_new_inv arrivals :
  honest arrivals [] new_recvq ->
  let '(invalid, out, q) := receive arrivals [] new_recvq in
  consecutive out /\ exists k, recvq_inv k q /\
    (invalid = false -> forall c, k c = progress out c).
Proof.
  apply receive_inv; [exact recvq_inv_new|done|]. intros c. constructor.
Qed.
End Delivery.

(** ** Sequenced delivery *)

(** A frame of the unreliable sequenced mode with its unbounded position. *)
Definition sequenced_at (c p : Z) (f : FrameSetPacket) : Prop :=
  reliability f = Ok Reliability.UnreliableSequenced /\ order_channel f = c /\
  sequenced_frame_index f = serial p.

(** What a receiver that keeps only the newest lets through, from position [e] on. *)
Fixpoint newest (e : Z) (l : list (Z * FrameSetPacket)) : list FrameSetPacket :=
  match l with
  | [] => []
  | (p, f) :: l => if e <=? p then f :: newest (p + 1) l else newest e l
  end.

(** No position is more than half the number space away from the newest one seen. *)
Fixpoint near (e : Z) (l : list (Z * FrameSetPacket)) : Prop :=
  match l with
  | [] => True
  | (p, _) :: l => - HALF <= p - e < HALF /\ near (Z.max e (p + 1)) l
  end.

Section Sequenced.
Implicit Types (q : RecvQ) (f : FrameSetPacket) (c p e : Z).

Record idle_at (c e : Z) (q : RecvQ) : Prop := {
  idle_ready : ready_ordered q = [];
  idle_packets : packets q = ∅;
  idle_index : ChannelIndexes.get (sequenced_frame_indexes q) c = serial e;
}.

Lemma flush_one out q s f :
  ready_ordered q = [] -> packets q = {[s := f]} ->
  flush_into out q = (out ++ [f], q <| ready_ordered := [] |> <| ready_bytes := 0 |> <| packets := ∅ |>).
Proof.
  intros Hr Hp. unfold flush_into. cbn [packets set_field set_ready_ordered set_ready_bytes].
  rewrite Hr, Hp, app_nil_r, map_size_singleton, map_to_list_singleton. done.
Qed.

Lemma flush_none out q :
  ready_ordered q = [] -> packets q = ∅ ->
  flush_into out q = (out, q <| ready_ordered := [] |> <| ready_bytes := 0 |>).
Proof.
  intros Hr Hp. unfold flush_into. cbn [packets set_field set_ready_ordered set_ready_bytes].
  by rewrite Hr, Hp, app_nil_r, map_size_empty.
Qed.

Lemma receive_sequenced_step now f c p e out q :
  idle_at c e q -> sequenced_at c p f -> - HALF <= p - e < HALF ->
  exists q', insert now f q = (Ok tt, q') /\
    (flush_into out q').1 = out ++ (if e <=? p then [f] else []) /\
    idle_at c (Z.max e (p + 1)) (flush_into out q').2.
Proof.
  intros [Hr Hp Hi] (Hm & Hc & Hs) Hd. unfold insert.
  rewrite (is_reliable_ok _ _ Hm), Hm. do 4 (erewrite SE_bind_ok by reflexivity).
  set (q1 := q <| sequence_number_ackset := _ |>). cbv beta iota. simpl negb. cbv iota.
  eexists. split; [reflexivity|]. unfold insert_sequenced. rewrite Hc, Hs.
  change (sequenced_frame_indexes q1) with (sequenced_frame_indexes q).
  unfold ChannelIndexes.get_mut. rewrite Hi.
  assert ((serial p =? serial e) || newer (serial p) (serial e) = (e <=? p)) as ->.
  { rewrite newer_serial by done. destruct (serial p =? serial e) eqn:E; b2p; simpl.
    - apply serial_inj in E; unfold HALF in *; lia.
    - assert (p ≠ e) by (by intros ->). lia. }
  destruct (e <=? p) eqn:E; b2p.
  - erewrite flush_one; [|exact Hr|].
    2: { simpl. unfold or_insert. rewrite Hp, lookup_empty. reflexivity. }
    simpl. split; [done|]. split; simpl; [done|done|].
    rewrite ChannelIndexes.get_store_same, next_serial. f_equal. lia.
  - rewrite flush_none by done. simpl. rewrite app_nil_r. split; [done|]. split; simpl; [done|done|].
    rewrite ChannelIndexes.get_store_same. f_equal. lia.
Qed.

Lemma receive_sequenced c e arrivals ps out q :
  idle_at c e q -> Forall2 (fun a p => sequenced_at c p a.2) arrivals ps ->
  near e (zip ps (map snd arrivals)) ->
  exists q', receive arrivals out q = (false, out ++ newest e (zip ps (map snd arrivals)), q').
Proof.
  intros Hidle HF. revert e out q Hidle.
  induction HF as [|[now f] p arrivals ps Hs HF IH]; intros e out q Hidle Hnear.
  { exists q. simpl. by rewrite app_nil_r. }
  simpl in Hnear. destruct Hnear as [Hd Hnear].
  destruct (receive_sequenced_step now f c p e out q Hidle Hs Hd) as (q1 & Hins & Hout & Hidle').
  cbn [receive]. rewrite Hins. destruct (flush_into out q1) as [out1 q2]. simpl in Hout, Hidle'.
  destruct (IH _ out1 q2 Hidle' Hnear) as [q' Hq']. exists q'. rewrite Hq'. f_equal. f_equal.
  rewrite Hout, <- app_assoc. simpl. f_equal. destruct (e <=? p) eqn:E; b2p; simpl.
  - by replace (Z.max e (p + 1)) with (p + 1) by lia.
  - by replace (Z.max e (p + 1)) with e by lia.
Qed.
End Sequenced.

(** ** Properties *)

(** In-order delivery. Let [M c n] be the [n]-th message a peer sends on channel [c].
    Whatever the order, duplication and loss of the frames that arrive, in all modes and
    split into fragments or not, and however channels interleave: if every complete
    ordered message carries the bytes of the position its 24-bit index stands for, then what
    the receive loop hands over on each channel is [M c 0], [M c 1], ... without gap,
    repetition or reordering, and no message that could be delivered is held back. *)
Theorem ordered_delivery_in_order (M : Z -> Z -> list Z) arrivals :
  honest (fun c n f => FramePayload.deref (data f) = M c n) arrivals [] new_recvq ->
  let '(invalid, out, q) := receive arrivals [] new_recvq in
  forall c,
    map (fun f => FramePayload.deref (data f)) (delivered c out) = map (M c) (seqZ 0 (progress out c)) /\
    (invalid = false -> ordered_packets q !! (c, serial (progress out c)) = None).
Proof.
  intros H%receive_new_inv. destruct (receive arrivals [] new_recvq) as [[invalid out] q].
  destruct H as (Hcons & k & Hinv & Hk). intros c. split.
  - specialize (Hcons c). induction Hcons as [|n f ns fs (_ & _ & _ & Hf) _ IH]; [done|].
    simpl. by rewrite Hf, IH.
  - intros Hi. rewrite <- (Hk Hi).
    destruct (ordered_packets q !! _) as [f|] eqn:E; [|done]. exfalso.
    destruct (ri_held _ _ _ _ Hinv _ _ _ E) as (n & En & Hn & Hs & _).
    apply serial_inj in En; [by auto|unfold RECEIVE_WINDOW in *; lia].
Qed.

(** An ordered frame: reliable index [r], position [n] of channel [c]. *)
Definition sample_ordered (r c n : Z) : FrameSetPacket :=
  mk_frame r 0x60 2 r 0 n c 0 0 0 (FramePayload.Owned [c; n]) None.

Lemma sample_ordered_wf r c n :
  in_range 24 r -> in_range 8 c -> in_range 24 n ->
  frame_wf (sample_ordered r c n) Reliability.ReliableOrdered.
Proof.
  intros. by split.
Qed.

Definition sample_ordered_arrivals : list (Z * FrameSetPacket) :=
  [(0, sample_ordered 1 0 1); (1, sample_ordered 3 5 0); (2, sample_ordered 2 0 2);
   (3, sample_ordered 1 0 1); (4, sample_ordered 0 0 0); (5, sample_ordered 4 5 1)].

Lemma ordered_delivery_in_order_witness :
  let '(invalid, out, q) := receive sample_ordered_arrivals [] new_recvq in
  map (fun f => FramePayload.deref (data f)) (delivered 0 out) = [[0; 0]; [0; 1]; [0; 2]] /\
  forall c, map (fun f => FramePayload.deref (data f)) (delivered c out)
    = map (fun n => [c; n]) (seqZ 0 (progress out c)).
Proof.
  pose proof (ordered_delivery_in_order (fun c n => [c; n]) sample_ordered_arrivals) as H.
  assert (honest (fun c n f => FramePayload.deref (data f) = [c; n]) sample_ordered_arrivals []
    new_recvq) as Hh.
  { unfold sample_ordered_arrivals. cbn [honest].
    repeat (split; [apply sample_ordered_wf; unfold in_range; lia|]; split;
      [intros _ m E; vm_compute in E; injection E as <-; vm_compute; reflexivity|];
      match goal with |- match insert ?t ?f ?q with _ => _ end =>
        let x := eval vm_compute in (insert t f q) in change (insert t f q) with x end;
      cbv iota;
      match goal with |- let '(_, _) := flush_into ?o ?q in _ =>
        let x := eval vm_compute in (flush_into o q) in change (flush_into o q) with x end;
      cbv iota).
    exact I. }
  specialize (H Hh). destruct (receive sample_ordered_arrivals [] new_recvq) as [[i out] q] eqn:E.
  split; [|intros c; apply H].
  vm_compute in E. injection E as <- <- <-. vm_compute. reflexivity.
Defined.

(** Without any assumption on the sender. *)
Lemma honest_trivial arrivals out q :
  Forall (fun a => frame_wf a.2 (rel_of a.2)) arrivals ->
  honest (fun _ _ _ => True) arrivals out q.
Proof.
  intros H. revert out q. induction H as [|[now f] arrivals Hf _ IH]; intros out q; [done|].
  simpl. split; [done|]. split; [done|]. destruct (insert now f q) as [[]]; [|done].
  by destruct (flush_into out r).
Qed.

(** C33: bounded memory against any peer. Whatever frames the decoder passes on, what the
    receive queue buffers stays within its limits: at most 65536 ordered messages and 64 MiB
    of them, with byte counters that are exactly the sums of what is held (so that no
    counter underflows), and the reassembly queue within its own limits. *)
Theorem receive_memory_bounded arrivals :
  Forall (fun a => frame_wf a.2 (rel_of a.2)) arrivals ->
  let '(_, _, q) := receive arrivals [] new_recvq in
  queue_wf (fragment_queue q) /\
  ordered_bytes q = map_sum data_len (ordered_packets q) /\
  ready_bytes q = sumZ data_len (ready_ordered q) /\
  ordered_bytes q + ready_bytes q <= 64 * 1024 * 1024 /\
  get_ordered_packet q <= 65536.
Proof.
  intros H. pose proof (receive_new_inv _ _ (honest_trivial _ [] new_recvq H)) as Hinv.
  destruct (receive arrivals [] new_recvq) as [[invalid out] q].
  destruct Hinv as (_ & k & [? ? ? ? ? _ _ _] & _). done.
Qed.

Lemma receive_memory_bounded_witness :
  let '(_, _, q) := receive sample_ordered_arrivals [] new_recvq in
  queue_wf (fragment_queue q) /\
  ordered_bytes q = map_sum data_len (ordered_packets q) /\
  ready_bytes q = sumZ data_len (ready_ordered q) /\
  ordered_bytes q + ready_bytes q <= 64 * 1024 * 1024 /\
  get_ordered_packet q <= 65536.
Proof.
  apply receive_memory_bounded.
  unfold sample_ordered_arrivals.
  repeat (apply Forall_cons_2; [apply sample_ordered_wf; unfold in_range; lia|]).
  apply Forall_nil_2.
Defined.

(** The sequenced mode delivers only the newest. Of frames sent on one channel of the
    unreliable sequenced mode, arriving in any order, the receive loop hands over, at once,
    exactly those newer than all that arrived before; late and repeated ones are dropped,
    also across the wrap-around of the 24-bit index. *)
Theorem sequenced_delivers_newest c arrivals ps :
  Forall2 (fun a p => sequenced_at c p a.2) arrivals ps ->
  near 0 (zip ps (map snd arrivals)) ->
  exists q, receive arrivals [] new_recvq = (false, newest 0 (zip ps (map snd arrivals)), q).
Proof.
  intros HF Hn. destruct (receive_sequenced c 0 arrivals ps [] new_recvq) as [q Hq]; [|done|done|].
  - split; [done|done|]. unfold ChannelIndexes.get. simpl. rewrite lookup_empty. by case_if.
  - by exists q.
Qed.

Definition sample_sequenced (s p : Z) : FrameSetPacket :=
  mk_frame s 0x20 1 0 (serial p) 0 3 0 0 0 (FramePayload.Owned [p `mod` 256]) None.

Lemma sequenced_delivers_newest_witness :
  let ps := [0; 2; 1; 8388609; 16777215; 16777217; 16777216] in
  let arrivals := imap (fun i p => (0, sample_sequenced (Z.of_nat i) p)) ps in
  newest 0 (zip ps (map snd arrivals))
    = [sample_sequenced 0 0; sample_sequenced 1 2; sample_sequenced 3 8388609;
       sample_sequenced 4 16777215; sample_sequenced 5 16777217] /\
  exists q, receive arrivals [] new_recvq = (false, newest 0 (zip ps (map snd arrivals)), q).
Proof.
  intros ps arrivals. split; [vm_compute; reflexivity|].
  apply (sequenced_delivers_newest 3).
  - repeat constructor.
  - vm_compute. repeat split; congruence.
Defined.
