(* ===== verification/Log.v ===== *)
(** * The log of a connection's reliable messages

    What a sender has accepted, message by message, with unbounded positions in place of the
    24-bit indexes: the specification that the sender's queue and the receiver's queue are
    both compared with. *)

From S2P Require Import Prelude Errors Sequence Frame FrameCodec Fragment.

(** A reliable message and the frames that carry it. *)
Record Message := mk_message {
  m_mode : Reliability;
  m_channel : Z;
  m_payload : list Z;
  m_parts : list FrameSetPacket;
}.

Definition log_frames (L : list Message) : list FrameSetPacket := concat (map m_parts L).

Definition ordered (c : Z) (u : Message) : Prop :=
  m_mode u = Reliability.ReliableOrdered /\ m_channel u = c.
#[export] Instance ordered_dec c u : Decision (ordered c u).
Proof. unfold ordered. apply _. Defined.

(** The ordered messages of a channel, in the order they were sent. *)
Definition on_channel (c : Z) (L : list Message) : list Message := filter (ordered c) L.

(** What the parts of the [n]-th message of its channel look like. *)
Record message_wf (n : Z) (u : Message) : Prop := {
  mw_reliable : rel_b (m_mode u) = true;
  mw_mode : forall f, f ∈ m_parts u -> reliability f = Ok (m_mode u);
  mw_order : m_mode u = Reliability.ReliableOrdered -> forall f, f ∈ m_parts u ->
    order_channel f = m_channel u /\ ordered_frame_index f = serial n;
  mw_parts :
    (exists f, m_parts u = [f] /\ is_fragment f = false /\ FramePayload.deref (data f) = m_payload u) \/
    (m_mode u = Reliability.ReliableOrdered /\ (exists id, message id (m_parts u)) /\
     (forall f, f ∈ m_parts u -> is_fragment f = true) /\
     concat (map (fun f => FramePayload.deref (data f)) (m_parts u)) = m_payload u);
}.

Record log_wf (L : list Message) : Prop := {
  lw_index : forall R f, log_frames L !! R = Some f -> reliable_frame_index f = serial (Z.of_nat R);
  lw_messages : forall i u, L !! i = Some u -> message_wf (zlen (on_channel (m_channel u) (take i L))) u;
}.

(** [u] is the [n]-th ordered message of channel [c]; its first frame is the [a]-th. *)
Definition located (L : list Message) (c n a : Z) (u : Message) : Prop :=
  exists i, L !! i = Some u /\ ordered c u /\ n = zlen (on_channel c (take i L)) /\
    a = zlen (log_frames (take i L)).

Section Log.
Implicit Types (L : list Message) (u : Message) (f g : FrameSetPacket) (c n a : Z).

Lemma log_frames_app L L' : log_frames (L ++ L') = log_frames L ++ log_frames L'.
Proof. unfold log_frames. by rewrite map_app, concat_app. Qed.

Lemma on_channel_app c L L' : on_channel c (L ++ L') = on_channel c L ++ on_channel c L'.
Proof. apply list.filter_app. Qed.

Lemma message_nonempty n u : message_wf n u -> (0 < length (m_parts u))%nat.
Proof.
  intros [_ _ _ [(f & -> & _)|(_ & (id & Hm) & _)]]; [simpl; lia|]. pose proof (msg_size _ _ Hm). lia.
Qed.

Lemma located_wf L c n a u : log_wf L -> located L c n a u -> message_wf n u.
Proof. intros HL (i & Hi & [_ Hc] & -> & _). rewrite <- Hc. by apply (lw_messages _ HL). Qed.

Lemma located_nonneg L c n a u : located L c n a u -> 0 <= n /\ 0 <= a.
Proof. intros (i & _ & _ & -> & ->). lia. Qed.

Lemma take_between {A} (l : list A) i j x :
  l !! i = Some x -> (i < j)%nat -> take j l = take i l ++ x :: take (j - S i) (drop (S i) l).
Proof.
  intros Hi Hij. rewrite <- (take_drop i (take j l)) at 1. rewrite take_take, Nat.min_l by lia. f_equal.
  rewrite skipn_firstn_comm, (drop_S l x i) by done. by replace (j - i)%nat with (S (j - S i)) by lia.
Qed.

(** Frames of the messages between two of a channel: at least one each. *)
Lemma on_channel_frames c L : (forall u, u ∈ L -> (0 < length (m_parts u))%nat) ->
  (length (on_channel c L) <= length (log_frames L))%nat.
Proof.
  induction L as [|u L IH]; intros HL; [done|]. unfold on_channel, log_frames in *. simpl.
  rewrite length_app. assert (0 < length (m_parts u))%nat by (apply HL, list_elem_of_here).
  assert (length (filter (ordered c) L) <= length (concat (map m_parts L)))%nat
    by (apply IH; intros v Hv; apply HL; by apply list_elem_of_further).
  rewrite filter_cons. case_decide; simpl; lia.
Qed.
Lemma lw_nonempty L u : log_wf L -> u ∈ L -> (0 < length (m_parts u))%nat.
Proof. intros HL [i Hi]%list_elem_of_lookup. eapply message_nonempty. by apply (lw_messages _ HL i). Qed.

(** The later message of a channel starts as many frames later as there are messages between. *)
Lemma located_order L c n a u n' a' u' :
  log_wf L -> located L c n a u -> located L c n' a' u' -> n < n' -> a + zlen (m_parts u) + (n' - n - 1) <= a'.
Proof.
  intros HL (i & Hi & Ho & -> & ->) (j & Hj & Ho' & -> & ->) Hlt.
  assert (i < j)%nat as Hij.
  { destruct (decide (i < j)%nat) as [|Hge]; [done|]. exfalso.
    rewrite <- (take_drop j (take i L)), on_channel_app, length_app, take_take, Nat.min_l in Hlt by lia. lia. }
  pose proof (take_between L i j u Hi Hij) as Et. set (rest := take (j - S i) (drop (S i) L)) in Et.
  assert (length (on_channel c rest) <= length (log_frames rest))%nat as Hr.
  { apply on_channel_frames. intros v Hv. apply (lw_nonempty L); [done|]. unfold rest in Hv. apply list_elem_of_lookup in Hv as [k Hk].
    apply lookup_take_Some in Hk as [Hk _]. rewrite lookup_drop in Hk. by apply list_elem_of_lookup_2 in Hk. }
  assert (on_channel c (u :: rest) = u :: on_channel c rest) as Eo by (by apply filter_cons_True).
  assert (log_frames (u :: rest) = m_parts u ++ log_frames rest) as Ef by done.
  rewrite Et, on_channel_app, Eo, log_frames_app, Ef, !length_app. simpl. lia.
Qed.

Lemma located_unique L c n a u a' u' :
  located L c n a u -> located L c n a' u' -> a = a' /\ u = u'.
Proof.
  intros (i & Hi & Ho & En & ->) (j & Hj & Ho' & En' & ->).
  assert (forall i j u, L !! i = Some u -> ordered c u -> (i < j)%nat ->
    zlen (on_channel c (take i L)) < zlen (on_channel c (take j L))) as Hmono.
  { clear. intros i j u Hi Ho Hij. rewrite (take_between L i j u Hi Hij), on_channel_app, length_app.
    unfold on_channel at 3. rewrite filter_cons_True by done. simpl. lia. }
  destruct (lt_eq_lt_dec i j) as [[Hlt|<-]|Hlt].
  - specialize (Hmono i j u Hi Ho Hlt). lia.
  - split; congruence.
  - specialize (Hmono j i u' Hj Ho' Hlt). lia.
Qed.

(** Every frame of the log is a part of a message. *)
Lemma log_frames_lookup L R f :
  log_frames L !! R = Some f ->
  exists i u j, L !! i = Some u /\ m_parts u !! j = Some f /\ R = (length (log_frames (take i L)) + j)%nat.
Proof.
  induction L as [|u L IH] using rev_ind; intros HR; [done|]. rewrite log_frames_app in HR.
  apply lookup_app_Some in HR as [HR|[Hge HR]].
  - destruct (IH HR) as (i & v & j & Hi & Hj & ->). pose proof (lookup_lt_Some _ _ _ Hi).
    exists i, v, j. rewrite take_app_le by lia. split; [by apply lookup_app_l_Some|done].
  - rewrite (app_nil_r (m_parts u) : log_frames [u] = m_parts u) in HR.
    exists (length L), u, (R - length (log_frames L))%nat. rewrite take_app_length, list_lookup_middle by done.
    split_and!; [done|done|lia].
Qed.

Lemma log_frames_part L i u j f :
  L !! i = Some u -> m_parts u !! j = Some f -> log_frames L !! (length (log_frames (take i L)) + j)%nat = Some f.
Proof.
  intros Hi Hj. set (R := (_ + j)%nat). rewrite <- (take_drop_middle L i u Hi), log_frames_app, lookup_app_r by lia.
  change (log_frames (u :: drop (S i) L)) with (m_parts u ++ log_frames (drop (S i) L)).
  replace (R - length (log_frames (take i L)))%nat with j by lia. by apply lookup_app_l_Some.
Qed.
(** The parts of different messages are different frames of the log. *)
Lemma parts_disjoint L i u j i' u' j' :
  L !! i = Some u -> L !! i' = Some u' -> (j < length (m_parts u))%nat -> (j' < length (m_parts u'))%nat ->
  (length (log_frames (take i L)) + j = length (log_frames (take i' L)) + j')%nat -> i = i'.
Proof.
  assert (forall i u i', L !! i = Some u -> (i < i')%nat ->
    (length (log_frames (take i L)) + length (m_parts u) <= length (log_frames (take i' L)))%nat) as H.
  { clear. intros i u i' Hi Hlt. rewrite (take_between L i i' u Hi Hlt), log_frames_app, length_app.
    change (log_frames (u :: ?l)) with (m_parts u ++ log_frames l). rewrite length_app. lia. }
  intros Hi Hi' Hj Hj' E. destruct (lt_eq_lt_dec i i') as [[Hlt|]|Hlt]; [|done|].
  - specialize (H i u i' Hi Hlt). lia.
  - specialize (H i' u' i Hi' Hlt). lia.
Qed.
Lemma located_lookup L c n a u : located L c n a u -> on_channel c L !! Z.to_nat n = Some u.
Proof.
  intros (i & Hi & Ho & -> & _). rewrite Nat2Z.id. rewrite <- (take_drop_middle L i u Hi) at 2.
  rewrite on_channel_app, lookup_app_r, Nat.sub_diag by lia. unfold on_channel at 1. by rewrite filter_cons_True.
Qed.

Lemma located_at L c (n : nat) :
  (n < length (on_channel c L))%nat ->
  exists a u, located L c (Z.of_nat n) a u /\ a + zlen (m_parts u) <= zlen (log_frames L).
Proof.
  induction L as [|v L IH] using rev_ind; intros Hn; [simpl in Hn; lia|].
  rewrite on_channel_app, length_app in Hn. rewrite log_frames_app, length_app.
  destruct (decide (n < length (on_channel c L))%nat) as [Hlt|Hge].
  - destruct (IH Hlt) as (a & u & (j & Hj & Ho & Hp & Ha) & Hend). pose proof (lookup_lt_Some _ _ _ Hj).
    exists a, u. split; [|lia]. exists j. rewrite take_app_le by lia. split; [by apply lookup_app_l_Some|done].
  - unfold on_channel at 2 in Hn. rewrite filter_cons, filter_nil in Hn.
    destruct (decide (ordered c v)) as [Hv|]; simpl in Hn; [|lia].
    exists (zlen (log_frames L)), v. split.
    + exists (length L). rewrite take_app_length, list_lookup_middle by done. split_and!; try done. lia.
    + rewrite (app_nil_r (m_parts v) : log_frames [v] = m_parts v). lia.
Qed.
(** There are messages at all the positions before one. *)
Lemma located_below L c n a u n0 : located L c n a u -> 0 <= n0 <= n -> exists a0 u0, located L c n0 a0 u0.
Proof.
  intros Hl%located_lookup%lookup_lt_Some Hn. destruct (located_at L c (Z.to_nat n0)) as (a0 & u0 & H0 & _); [lia|].
  exists a0, u0. by rewrite Z2Nat.id in H0 by lia.
Qed.
End Log.
