(* ===== verification/Delivery.v ===== *)
(** * What a receiver makes of a peer's frames

    The receive queue ([RecvQ]) against the log of a sender ([Log]): whichever copies of
    the log's frames arrive, in whatever order and however often, the messages that come out
    of a channel are the first messages of the log on that channel. *)

From S2P Require Import Prelude Errors Sequence Frame FrameCodec Fragment AckSet RecvQ Log.
Import ReliableWindow.

(** ** Arrivals *)

(** [f] is the part [g] of a message as the peer decodes it; each transmission has its own
    datagram number. *)
Record copy (f g : FrameSetPacket) : Prop := {
  cp_flags : flags f = flags g;
  cp_reliable : reliable_frame_index f = reliable_frame_index g;
  cp_ordered : reliability g = Ok Reliability.ReliableOrdered ->
    order_channel f = order_channel g /\ ordered_frame_index f = ordered_frame_index g;
  cp_fragment : is_fragment g = true ->
    compound_size f = compound_size g /\ compound_id f = compound_id g /\ fragment_index f = fragment_index g;
  cp_data : FramePayload.deref (data f) = FramePayload.deref (data g);
}.

(** ** Insertion, mode by mode *)

(** What [RecvQ.insert] does with a frame that is not a duplicate. *)
Definition take_in (r : Reliability) (now : Z) (frame : FrameSetPacket) : SE RecvQ unit :=
  match r with
  | Reliability.Unreliable =>
      modify (fun self => self <| packets := or_insert (packets self) (sequence_number frame) frame |>)
  | Reliability.UnreliableSequenced => modify (insert_sequenced frame)
  | Reliability.Reliable =>
      modify (fun self => self <| packets := <[sequence_number frame := frame]> (packets self) |>)
  | Reliability.ReliableOrdered => insert_ordered now frame
  | Reliability.ReliableSequenced => modify (insert_sequenced frame)
  end.

Definition track (f : FrameSetPacket) (q : RecvQ) : RecvQ :=
  q <| sequence_number_ackset := insert_ackset (sequence_number f) (sequence_number_ackset q) |>.

Lemma insert_unreliable now f q r :
  reliability f = Ok r -> rel_b r = false -> insert now f q = take_in r now f (track f q).
Proof.
  intros Hr Eb. unfold insert. rewrite (is_reliable_ok _ _ Hr), Hr, Eb.
  do 4 (erewrite SE_bind_ok by reflexivity). simpl negb. cbv iota. by destruct r.
Qed.

Lemma insert_reliable now f q r :
  reliability f = Ok r -> rel_b r = true ->
  insert now f q =
    let '(res, w) := accept (reliable_window q) (reliable_frame_index f) in
    let q := track f q <| reliable_window := w |> in
    match res with
    | Err e => (Err e, q)
    | Ok false => (Ok tt, q)
    | Ok true => take_in r now f q
    end.
Proof.
  intros Hr Eb. unfold insert. rewrite (is_reliable_ok _ _ Hr), Hr, Eb.
  do 3 (erewrite SE_bind_ok by reflexivity). fold (track f q). unfold mbind at 1, SE_bind at 1.
  change (reliable_window (track f q)) with (reliable_window q).
  destruct (accept _ _) as [[[|]|e] w]; by destruct r.
Qed.

Lemma drain_ordered_fields fuel c q :
  reliable_window (drain_ordered fuel c q) = reliable_window q /\
  fragment_queue (drain_ordered fuel c q) = fragment_queue q.
Proof.
  revert q. induction fuel as [|fuel IH]; intros q; simpl; [done|]. case_if; [done|].
  case_match; [|done]. match goal with |- context [drain_ordered fuel c ?x] => by destruct (IH x) as [-> ->] end.
Qed.

Lemma insert_complete_fields expected m q :
  let '(_, q') := insert_complete expected m q in
  reliable_window q' = reliable_window q /\ fragment_queue q' = fragment_queue q.
Proof.
  unfold insert_complete. case_if; [done|]. case_if; [done|]. case_if; [|done].
  match goal with |- context [drain_ordered ?n ?c ?x] => by destruct (drain_ordered_fields n c x) as [-> ->] end.
Qed.

(** ** The invariant *)

Section Receiver.
Context (L : list Message) (HL : log_wf L).
Implicit Types (k : Z -> Z) (q : RecvQ) (f g m : FrameSetPacket) (c n a R : Z) (u : Message) (F : Fragment).

Definition content c n m : Prop :=
  exists a u, located L c n a u /\ FramePayload.deref (data m) = m_payload u.

(** Every frame of the message was accepted. *)
Definition whole (s : spec) a u : Prop := forall j, 0 <= j < zlen (m_parts u) -> received s (a + j).

(** The entry [F] collects the fragments of [u] that were accepted. *)
Record collects (s : spec) (id : Z) a u F : Prop := {
  co_message : message id (m_parts u);
  co_agrees : forall f, f ∈ m_parts u -> agrees F f;
  co_frames : forall j g, Fragment.frames F !! j = Some g ->
    0 <= j /\ received s (a + j) /\ exists f, m_parts u !! Z.to_nat j = Some f /\ copy g f;
  co_all : forall j, 0 <= j < zlen (m_parts u) -> received s (a + j) -> is_Some (Fragment.frames F !! j);
  co_some : exists j, is_Some (Fragment.frames F !! j);
}.

(** The entries are of messages on the way, and each of those has one. *)
Record collected (s : spec) (fq : FragmentQ) : Prop := {
  cd_fragments : forall id F, FragmentQ.fragments fq !! id = Some F ->
    exists c n a u, located L c n a u /\ collects s id a u F;
  cd_partial : forall c n a u id, located L c n a u -> message id (m_parts u) -> ~ whole s a u ->
    (exists j, 0 <= j < zlen (m_parts u) /\ received s (a + j)) ->
    exists F, FragmentQ.fragments fq !! id = Some F /\ forall f, f ∈ m_parts u -> agrees F f;
}.

Record delivery_inv (s : spec) k q : Prop := {
  di_queue : recvq_inv content k q;
  di_window : represents (reliable_window q) s;
  di_spec : spec_wf s;
  di_nonneg : forall c, 0 <= k c;
  di_present : forall c n a u, located L c n a u -> present k q c n <-> whole s a u;
  di_collected : collected s (fragment_queue q);
}.

Lemma received_bound s x : spec_wf s -> received s x -> x < base s + RECEIVE_WINDOW.
Proof. intros Hs [?|Hx]; [unfold RECEIVE_WINDOW; lia|]. specialize (Hs x Hx). lia. Qed.

(** The next message of a channel is not there. *)
Lemma next_absent k q c : recvq_inv content k q -> ~ present k q c (k c).
Proof.
  intros Hq [?|[_ [f Hf]]]; [lia|]. destruct (ri_held _ _ _ _ Hq _ _ _ Hf) as (n & E & Hn & Hne & _).
  apply serial_inj in E; [by apply Hne|unfold RECEIVE_WINDOW in *; lia].
Qed.

(** A message that is not whole and has a frame within the receive window is near the next
    message of its channel: what lies between them fits into the window. *)
Lemma near_next s k q c n a u :
  delivery_inv s k q -> located L c n a u -> ~ whole s a u ->
  (exists j, 0 <= j < zlen (m_parts u) /\ a + j < base s + RECEIVE_WINDOW) ->
  k c <= n <= k c + RECEIVE_WINDOW.
Proof.
  intros Hi Hl Hw (j & Hj & Hjb). destruct (decide (n < k c)) as [Hlt|Hge].
  { exfalso. apply Hw, (di_present _ _ _ Hi c n a u Hl). by left. }
  split; [lia|]. destruct (decide (n <= k c + RECEIVE_WINDOW)) as [|Hfar]; [done|]. exfalso.
  pose proof (di_nonneg _ _ _ Hi c). destruct (located_below L c n a u (k c) Hl) as (a0 & u0 & Hl0); [lia|].
  apply (next_absent k q c (di_queue _ _ _ Hi)), (di_present _ _ _ Hi c (k c) a0 u0 Hl0).
  pose proof (located_order L c (k c) a0 u0 n a u HL Hl0 Hl ltac:(unfold RECEIVE_WINDOW in *; lia)) as Ho.
  intros j0 Hj0. left. unfold RECEIVE_WINDOW in *. lia.
Qed.

(** ** Entries of the fragment queue *)

Lemma collects_size s id a u F : collects s id a u F -> Fragment.compound_size F = zlen (m_parts u).
Proof.
  intros [Hm Ha _ _ _]. pose proof (msg_size _ _ Hm).
  destruct (lookup_lt_is_Some_2 (m_parts u) 0) as [f Hf]; [lia|].
  destruct (msg_frames _ _ Hm _ _ Hf) as (_ & _ & <-). apply list_elem_of_lookup_2 in Hf.
  by destruct (Ha f Hf) as (_ & -> & _).
Qed.

Lemma collects_full s id a u F : collects s id a u F -> Fragment.full F = true <-> whole s a u.
Proof.
  intros Hc. pose proof (collects_size _ _ _ _ _ Hc) as Hsz. pose proof Hc as [Hm _ Hf Hall _].
  pose proof (msg_size _ _ Hm).
  assert (forall j g, Fragment.frames F !! j = Some g -> 0 <= j < zlen (m_parts u)) as Hk.
  { intros j g Hg. apply Hf in Hg as (? & _ & f & Hl & _). apply lookup_lt_Some in Hl. lia. }
  rewrite full_inv, Hsz. split.
  - intros [_ Hsize] j Hj. destruct (map_full _ _ Hk Hsize j Hj) as [g Hg]. by apply Hf in Hg as (_ & ? & _).
  - intros Hw. split; [lia|]. apply map_full_size; [done|lia|]. intros j Hj. apply Hall; [done|by apply Hw].
Qed.

Lemma collects_payloads s id a u F :
  collects s id a u F -> whole s a u ->
  payloads F = concat (map (fun f => FramePayload.deref (data f)) (m_parts u)).
Proof.
  intros Hc Hw. pose proof (collects_size _ _ _ _ _ Hc) as Hsz. pose proof Hc as [_ _ Hf Hall _].
  unfold payloads. f_equal. apply list_eq. intros i. rewrite !list_lookup_fmap, Hsz.
  destruct (m_parts u !! i) as [f|] eqn:Ei.
  - pose proof (lookup_lt_Some _ _ _ Ei). rewrite lookup_seqZ_lt by lia. simpl. rewrite Z.add_0_l.
    destruct (Hall (Z.of_nat i)) as [g Hg]; [lia|apply Hw; lia|]. rewrite Hg.
    apply Hf in Hg as (_ & _ & f' & Hl & Hcp). rewrite Nat2Z.id, Ei in Hl. injection Hl as <-.
    by rewrite (cp_data _ _ Hcp).
  - apply lookup_ge_None in Ei. rewrite lookup_seqZ_ge by lia. done.
Qed.

(** ** Accepting one more frame *)

(** From [s] to [s'], exactly the frame [R] was accepted. *)
Definition accepts_one (s s' : spec) R : Prop := forall x, received s' x <-> received s x \/ x = R.

Definition apart R a u : Prop := forall j, 0 <= j < zlen (m_parts u) -> a + j <> R.

Lemma whole_apart s s' R a u : accepts_one s s' R -> apart R a u -> whole s' a u <-> whole s a u.
Proof.
  intros Hs Hap. split; intros Hw j Hj; specialize (Hw j Hj); [|apply Hs; auto].
  apply Hs in Hw as [?|E]; [done|by apply Hap in E].
Qed.

Lemma collects_apart s s' R id a u F :
  accepts_one s s' R -> apart R a u -> collects s id a u F -> collects s' id a u F.
Proof.
  intros Hs Hap [H1 H2 H3 H4 H5]. split; try done.
  - intros j g Hg. destruct (H3 j g Hg) as (? & ? & ?). split_and!; [done|apply Hs; auto|done].
  - intros j Hj [Hr|E]%Hs; [by apply H4|by apply Hap in E].
Qed.

(** A frame belongs to one message. *)
Lemma located_apart c n a u j c' n' a' v :
  located L c n a u -> 0 <= j < zlen (m_parts u) -> located L c' n' a' v -> (c', n') <> (c, n) ->
  apart (a + j) a' v.
Proof.
  intros (i & Hi & Ho & -> & ->) Hj (i' & Hi' & Ho' & -> & ->) Hne j' Hj' E.
  assert (i = i') as <- by (apply (parts_disjoint L i u (Z.to_nat j) i' v (Z.to_nat j')); [done|done|lia|lia|lia]).
  rewrite Hi in Hi'. injection Hi' as <-. destruct Ho as [_ <-], Ho' as [_ <-]. done.
Qed.

Lemma unordered_apart i u j c n a v :
  L !! i = Some u -> (j < length (m_parts u))%nat -> m_mode u <> Reliability.ReliableOrdered ->
  located L c n a v -> apart (zlen (log_frames (take i L)) + Z.of_nat j) a v.
Proof.
  intros Hi Hj Hm (i' & Hi' & [Ho _] & -> & ->) j' Hj' E.
  assert (i = i') as <- by (apply (parts_disjoint L i u j i' v (Z.to_nat j')); [done|done|done|lia|lia]).
  rewrite Hi in Hi'. by injection Hi' as <-.
Qed.

(** Two messages on the way that one entry agrees with are the same. *)
Lemma owner_unique s k q c n a u f c' n' a' u' f' F :
  delivery_inv s k q -> located L c n a u -> located L c' n' a' u' ->
  f ∈ m_parts u -> f' ∈ m_parts u' -> agrees F f -> agrees F f' ->
  ~ whole s a u -> ~ whole s a' u' ->
  (exists j, 0 <= j < zlen (m_parts u) /\ a + j < base s + RECEIVE_WINDOW) ->
  (exists j, 0 <= j < zlen (m_parts u') /\ a' + j < base s + RECEIVE_WINDOW) ->
  c = c' /\ n = n' /\ a = a' /\ u = u'.
Proof.
  intros Hi Hl Hl' Hf Hf' (_ & _ & Ac & Ao & _) (_ & _ & Ac' & Ao' & _) Hw Hw' Hj Hj'.
  pose proof (near_next s k q c n a u Hi Hl Hw Hj) as Hn.
  pose proof (near_next s k q c' n' a' u' Hi Hl' Hw' Hj') as Hn'.
  assert (m_mode u = Reliability.ReliableOrdered /\ m_channel u = c) as [Hmo Hch] by (by destruct Hl as (? & _ & ? & _)).
  assert (m_mode u' = Reliability.ReliableOrdered /\ m_channel u' = c') as [Hmo' Hch'] by (by destruct Hl' as (? & _ & ? & _)).
  destruct (mw_order _ _ (located_wf _ _ _ _ _ HL Hl) Hmo f Hf) as [E1 E2].
  destruct (mw_order _ _ (located_wf _ _ _ _ _ HL Hl') Hmo' f' Hf') as [E1' E2'].
  assert (c = c') as <- by congruence.
  assert (n = n') as <- by (apply serial_inj; [unfold RECEIVE_WINDOW in *; lia|congruence]).
  by destruct (located_unique _ _ _ _ _ _ _ Hl Hl') as [-> ->].
Qed.

(** ** One arrival *)

(** The queue with the window advanced: [q2] is [q] but for what the window and the
    acknowledgements remember. *)
Record advanced (s' : spec) q q2 : Prop := {
  ad_window : represents (reliable_window q2) s';
  ad_spec : spec_wf s';
  ad_ordered : ordered_packets q2 = ordered_packets q;
  ad_fragments : fragment_queue q2 = fragment_queue q;
  ad_ready : ready_ordered q2 = ready_ordered q;
}.

(** A frame that is no part of an ordered message. *)
Lemma advanced_apart s s' k q q2 R :
  delivery_inv s k q -> advanced s' q q2 -> accepts_one s s' R -> recvq_inv content k q2 ->
  (forall c n a u, located L c n a u -> apart R a u) -> delivery_inv s' k q2.
Proof.
  intros [_ _ _ Hnn Hpr [Hfr Hpa]] [Aw As Ao Af _] Hs Hq2 Hap. split; try done.
  - intros c n a u Hl. rewrite (whole_apart s s' R) by eauto. rewrite <- (Hpr c n a u Hl).
    unfold present. by rewrite Ao.
  - rewrite Af. split.
    + intros id F HF. destruct (Hfr id F HF) as (c & n & a & u & Hl & Hc).
      exists c, n, a, u. split; [done|]. by apply (collects_apart s s' R); eauto.
    + intros c n a u id Hl Hm Hw (j & Hj & Hr). apply (Hpa c n a u id Hl Hm).
      * by rewrite <- (whole_apart s s' R) by eauto.
      * exists j. split; [done|]. apply Hs in Hr as [?|E]; [done|]. by apply (Hap c n a u Hl j) in E.
Qed.

(** The entries after a part of [u] was accepted: its own is new, the others are kept. *)
Lemma collected_step s s' fq fq' c n a u j :
  collected s fq -> accepts_one s s' (a + j) -> located L c n a u -> 0 <= j < zlen (m_parts u) ->
  (forall id F, FragmentQ.fragments fq' !! id = Some F ->
     collects s' id a u F \/ (FragmentQ.fragments fq !! id = Some F /\ ~ collects s id a u F)) ->
  (forall c' n' a' v id F, located L c' n' a' v -> (c', n') <> (c, n) -> message id (m_parts v) -> ~ whole s a' v ->
     (exists i, 0 <= i < zlen (m_parts v) /\ received s (a' + i)) ->
     FragmentQ.fragments fq !! id = Some F -> (forall f, f ∈ m_parts v -> agrees F f) ->
     FragmentQ.fragments fq' !! id = Some F) ->
  (forall id, message id (m_parts u) -> ~ whole s' a u ->
     exists F, FragmentQ.fragments fq' !! id = Some F /\ forall f, f ∈ m_parts u -> agrees F f) ->
  collected s' fq'.
Proof.
  intros [Hfr Hpa] Hs Hl Hj H1 H2 H3.
  assert (forall c' n' a' v, located L c' n' a' v -> (c', n') <> (c, n) -> apart (a + j) a' v) as Hap
    by (intros; by eapply (located_apart c n a u j)).
  split.
  - intros id F HF. destruct (H1 id F HF) as [Hc|[HF0 Hnc]]; [by exists c, n, a, u|].
    destruct (Hfr id F HF0) as (c' & n' & a' & v & Hv & Hc). exists c', n', a', v. split; [done|].
    destruct (decide ((c', n') = (c, n))) as [[= -> ->]|Hne].
    + by destruct (located_unique _ _ _ _ _ _ _ Hl Hv) as [<- <-].
    + by apply (collects_apart s s' (a + j)); eauto.
  - intros c' n' a' v id Hv Hm Hw (i & Hi & Hr).
    destruct (decide ((c', n') = (c, n))) as [[= -> ->]|Hne].
    + destruct (located_unique _ _ _ _ _ _ _ Hl Hv) as [<- <-]. by apply H3.
    + rewrite (whole_apart s s' (a + j)) in Hw by eauto.
      assert (received s (a' + i)) as Hr0.
      { apply Hs in Hr as [?|E]; [done|]. by apply (Hap c' n' a' v Hv Hne i) in E. }
      destruct (Hpa c' n' a' v id Hv Hm Hw) as (F & HF & Ha); [by exists i|]. exists F. split; [|done].
      by apply (H2 c' n' a' v id F); eauto.
Qed.

(** A complete message goes to its channel. *)
Lemma complete_step s s' k q q2 m c n a u j q' :
  delivery_inv s k q -> accepts_one s s' (a + j) -> 0 <= j < zlen (m_parts u) ->
  located L c n a u -> k c <= n <= k c + RECEIVE_WINDOW -> whole s' a u ->
  recvq_inv content k q2 -> represents (reliable_window q2) s' -> spec_wf s' ->
  ordered_packets q2 = ordered_packets q -> collected s' (fragment_queue q2) ->
  order_channel m = c -> ordered_frame_index m = serial n -> reliability m = Ok Reliability.ReliableOrdered ->
  FramePayload.deref (data m) = m_payload u ->
  distance (serial n) (serial (k c)) < RECEIVE_WINDOW ->
  insert_complete (serial (k c)) m q2 = (Ok tt, q') ->
  exists k' new, delivery_inv s' k' q' /\ ready_ordered q' = ready_ordered q2 ++ new /\ continues content k k' new.
Proof.
  intros Hi Hs Hj Hl Hn Hw Hq2 Hwin Hsp Hord Hcol Hmc Hmo Hmr Hmd Hdist E.
  assert (position k m = n) as Hpos.
  { unfold position. rewrite Hmc, Hmo, distance_serial, serial_small; unfold RECEIVE_WINDOW in *; lia. }
  pose proof (insert_complete_inv content k m q2 Hq2) as H. rewrite Hmc, Hmo, Hpos in H. rewrite E in H.
  destruct H as (k' & new & Hq' & Hr & Hc & Hp); [split_and!; try done; by exists a, u|done|].
  exists k', new. split; [|done].
  pose proof (insert_complete_fields (serial (k c)) m q2) as Hf. rewrite E in Hf. destruct Hf as [Ew Ef].
  split; try done.
  - by rewrite Ew.
  - intros d. destruct (Hc d). pose proof (di_nonneg _ _ _ Hi d). lia.
  - intros d x b v Hv. rewrite (Hp eq_refl d x).
    assert (present k q2 d x <-> present k q d x) as -> by (unfold present; by rewrite Hord).
    destruct (decide ((d, x) = (c, n))) as [[= -> ->]|Hne].
    + destruct (located_unique _ _ _ _ _ _ _ Hl Hv) as [<- <-]. tauto.
    + rewrite (whole_apart s s' (a + j)) by (done || by apply (located_apart c n a u j d x)).
      rewrite <- (di_present _ _ _ Hi d x b v Hv). naive_solver.
  - by rewrite Ef.
Qed.

(** A fragment that arrives: part [j] of [u], the [n]-th message of channel [c]. *)
Record arrives f c n a u j id : Prop := {
  ar_located : located L c n a u;
  ar_message : message id (m_parts u);
  ar_index : 0 <= j;
  ar_part : exists g, m_parts u !! Z.to_nat j = Some g /\ copy f g /\ is_fragment g = true;
}.

Lemma arrives_range f c n a u j id : arrives f c n a u j id -> 0 <= j < zlen (m_parts u).
Proof. intros [_ _ ? (g & Hg%lookup_lt_Some & _)]. lia. Qed.

Lemma arrives_fields f c n a u j id :
  arrives f c n a u j id -> compound_id f = id /\ fragment_index f = j /\ compound_size f = zlen (m_parts u) /\
    order_channel f = c /\ ordered_frame_index f = serial n /\ is_fragment f = true /\
    reliability f = Ok Reliability.ReliableOrdered.
Proof.
  intros [Hl Hm Hj (g & Hg & [Cf _ Co Cg _] & Hfr)].
  pose proof (msg_frames _ _ Hm _ _ Hg) as (Ei & Ej & Es). apply list_elem_of_lookup_2 in Hg.
  pose proof (located_wf _ _ _ _ _ HL Hl) as Hwf. destruct Hl as (i & _ & [Hmo Hch] & _).
  pose proof (mw_mode _ _ Hwf g Hg) as Hr. rewrite Hmo in Hr.
  destruct (mw_order _ _ Hwf Hmo g Hg) as [Ec En]. destruct (Co Hr) as [-> ->]. destruct (Cg Hfr) as (-> & -> & ->).
  unfold is_fragment, reliability in *. rewrite Cf. split_and!; try done; [lia|congruence].
Qed.

(** An entry that agrees with one part of a message agrees with all of them. *)
Lemma agrees_all f c n a u j id F :
  arrives f c n a u j id -> agrees F f -> forall g, g ∈ m_parts u -> agrees F g.
Proof.
  intros Har (_ & Hs & Hc & Ho & Hf) g Hg. pose proof (arrives_fields _ _ _ _ _ _ _ Har) as (_ & _ & Es & Ec & Eo & _).
  destruct Har as [Hl Hm _ (g0 & Hg0 & Hcp & _)]. apply list_elem_of_lookup in Hg as [i Hi].
  destruct (msg_frames _ _ Hm _ _ Hi) as (_ & Ej & Es'). pose proof (lookup_lt_Some _ _ _ Hi).
  apply list_elem_of_lookup_2 in Hi, Hg0.
  pose proof (located_wf _ _ _ _ _ HL Hl) as Hwf. destruct Hl as (x & _ & [Hmo Hch] & _).
  destruct (mw_order _ _ Hwf Hmo g Hi) as [E1 E2]. destruct (msg_agree _ _ Hm g g0 Hi Hg0) as (_ & _ & E3).
  rewrite <- (cp_flags _ _ Hcp) in E3. unfold agrees. split_and!; lia || congruence.
Qed.

(** The entry it is added to: its own message's, or a new one. *)
Lemma entry_gathers s k q now f c n a u j id :
  delivery_inv s k q -> arrives f c n a u j id -> ~ received s (a + j) -> a + j < base s + RECEIVE_WINDOW ->
  let F := entry_of now f (fragment_queue q) in
  agrees F f ->
  (forall i g, Fragment.frames F !! i = Some g ->
     0 <= i /\ received s (a + i) /\ exists f, m_parts u !! Z.to_nat i = Some f /\ copy g f) /\
  (forall i, 0 <= i < zlen (m_parts u) -> received s (a + i) -> is_Some (Fragment.frames F !! i)).
Proof.
  intros Hi Har Hnr Hb F HF. pose proof (arrives_range _ _ _ _ _ _ _ Har) as Hj.
  pose proof (arrives_fields _ _ _ _ _ _ _ Har) as (Hid & _). pose proof (agrees_all _ _ _ _ _ _ _ _ Har HF) as Hall.
  assert (~ whole s a u) as Hw by (intros Hw; by apply Hnr, Hw).
  pose proof Har as [Hl Hm _ (g & Hg & _)]. unfold F, entry_of in *. rewrite Hid in *.
  destruct (di_collected _ _ _ Hi) as [Hfr Hpa].
  destruct (FragmentQ.fragments (fragment_queue q) !! id) as [F0|] eqn:E.
  - destruct (Hfr id F0 E) as (c' & n' & a' & v & Hv & Hc). pose proof Hc as [Hm' Ha' Hf' Hall' [i [g' Hg']]].
    destruct (Hf' i g' Hg') as (Hi0 & Hir & f' & Hf0 & _). pose proof (lookup_lt_Some _ _ _ Hf0).
    apply list_elem_of_lookup_2 in Hf0, Hg.
    destruct (owner_unique s k q c n a u g c' n' a' v f' F0 Hi Hl Hv Hg Hf0) as (<- & <- & <- & <-); try done.
    + by apply Hall.
    + by apply Ha'.
    + rewrite <- (collects_full _ _ _ _ _ Hc). destruct (qw_fragments _ (ri_fragments _ _ _ _ (di_queue _ _ _ Hi)) id F0 E) as [_ ->]. done.
    + by exists j.
    + exists i. split; [lia|]. apply received_bound; [apply Hi|done].
  - simpl. split; [intros i g'; by rewrite lookup_empty|]. intros i Hir Hr. exfalso.
    destruct (Hpa c n a u id Hl Hm Hw) as (F0 & HF0 & _); [by exists i|]. congruence.
Qed.

Section FragmentStep.
Context (s s' : spec) (k : Z -> Z) (q : RecvQ) (now : Z) (f : FrameSetPacket) (c n a : Z) (u : Message) (j id : Z).
Context (Hi : delivery_inv s k q) (Har : arrives f c n a u j id).
Context (Hnr : ~ received s (a + j)) (Hb : a + j < base s + RECEIVE_WINDOW) (Hs : accepts_one s s' (a + j)).
Let F := entry_of now f (fragment_queue q).
Context (HF : agrees F f) (Hnf : Fragment.full F = false).

Lemma insert_collects x F' : Fragment.insert now f F = (Ok x, F') -> collects s' id a u F'.
Proof.
  intros Hins. pose proof (arrives_range _ _ _ _ _ _ _ Har) as Hj.
  pose proof (arrives_fields _ _ _ _ _ _ _ Har) as (_ & Efi & _). pose proof Har as [Hl Hm _ (g & Hg & Hcp & _)].
  destruct (entry_gathers s k q now f c n a u j id Hi Har Hnr Hb HF) as [Hfr Hall]. fold F in Hfr, Hall.
  destruct (fragment_insert_cases now f F Hnf ltac:(lia)) as
    [(Hna & _)|[(_ & g' & Hg' & _)|(_ & Hnone & E)]]; [done| |].
  { rewrite Efi in Hg'. by destruct (Hfr j g' Hg') as (_ & ? & _). }
  rewrite E in Hins. injection Hins as <- <-. rewrite Efi in *. split; simpl.
  - done.
  - intros g' Hg'. apply (agrees_fields F); [done..|]. by apply (agrees_all f c n a u j id F).
  - intros i g' [[<- <-]|[_ Hg']]%lookup_insert_Some.
    + split_and!; [lia|apply Hs; auto|by exists g].
    + destruct (Hfr i g' Hg') as (? & ? & ?). split_and!; [done|apply Hs; auto|done].
  - intros i Hi' [Hr|E']%Hs; apply lookup_insert_is_Some'; [right; by apply Hall|left; lia].
  - exists j. by rewrite lookup_insert_eq.
Qed.

(** Another message's entry is another entry. *)
Lemma other_entry c' n' a' v F0 :
  located L c' n' a' v -> (c', n') <> (c, n) -> message id (m_parts v) -> ~ whole s a' v ->
  (exists i, 0 <= i < zlen (m_parts v) /\ received s (a' + i)) ->
  FragmentQ.fragments (fragment_queue q) !! id = Some F0 -> (forall g, g ∈ m_parts v -> agrees F0 g) -> False.
Proof.
  intros Hv Hne Hm Hw (i & Hir & Hr) E Ha. pose proof (arrives_fields _ _ _ _ _ _ _ Har) as (Hid & _).
  pose proof (arrives_range _ _ _ _ _ _ _ Har) as Hj.
  assert (F = F0) as EF by (unfold F, entry_of; by rewrite Hid, E). rewrite EF in HF.
  pose proof Har as [Hl _ _ (g & Hg & _)]. destruct (lookup_lt_is_Some_2 (m_parts v) (Z.to_nat i)) as [g' Hg']; [lia|].
  apply list_elem_of_lookup_2 in Hg, Hg'.
  destruct (owner_unique s k q c n a u g c' n' a' v g' F0 Hi Hl Hv Hg Hg') as (<- & <- & _); try done.
  - by apply (agrees_all f c n a u j id F0).
  - by apply Ha.
  - intros Hwu. by apply Hnr, Hwu.
  - by exists j.
  - exists i. split; [done|]. apply received_bound; [apply Hi|done].
Qed.

Lemma same_id id' : message id' (m_parts u) -> id' = id.
Proof.
  intros Hm. pose proof Har as [_ Hm' _ (g & Hg & _)].
  destruct (msg_frames _ _ Hm _ _ Hg) as (<- & _). by destruct (msg_frames _ _ Hm' _ _ Hg) as (-> & _).
Qed.

Lemma collected_added x F' b :
  Fragment.insert now f F = (Ok x, F') ->
  collected s' (FragmentQ.mk (<[id := F']> (FragmentQ.fragments (fragment_queue q))) b).
Proof.
  intros Hins. pose proof (insert_collects x F' Hins) as Hc.
  apply (collected_step s s' (fragment_queue q) _ c n a u j); simpl; [apply Hi|done|apply Har|by apply (arrives_range f c n a u j id)|..].
  - intros id' F0 [[<- <-]|[Hne HF0]]%lookup_insert_Some; [by left|]. right. split; [done|].
    intros Hc0. by apply Hne; rewrite (same_id id' (co_message _ _ _ _ _ Hc0)).
  - intros c' n' a' v id' F0 Hv Hne Hm Hw Hr E Ha. destruct (decide (id' = id)) as [->|Hid].
    + exfalso. by eapply other_entry.
    + by rewrite lookup_insert_ne.
  - intros id' Hm _. rewrite (same_id id' Hm). exists F'. split; [by rewrite lookup_insert_eq|apply Hc].
Qed.

Lemma collected_taken b :
  whole s' a u -> collected s' (FragmentQ.mk (delete id (FragmentQ.fragments (fragment_queue q))) b).
Proof.
  intros Hw.
  apply (collected_step s s' (fragment_queue q) _ c n a u j); simpl; [apply Hi|done|apply Har|by apply (arrives_range f c n a u j id)|..].
  - intros id' F0 [Hne HF0]%lookup_delete_Some. right. split; [done|].
    intros Hc0. by apply Hne; rewrite (same_id id' (co_message _ _ _ _ _ Hc0)).
  - intros c' n' a' v id' F0 Hv Hne Hm Hw' Hr E Ha. destruct (decide (id' = id)) as [->|Hid].
    + exfalso. by eapply other_entry.
    + by rewrite lookup_delete_ne.
  - done.
Qed.

(** What the last fragment makes is the message. *)
Lemma merged_payload x F' m :
  queue_wf (fragment_queue q) -> arriving f -> FragmentQ.refuses (fragment_queue q) f = false ->
  concat (map (fun f => FramePayload.deref (data f)) (m_parts u)) = m_payload u ->
  Fragment.insert now f F = (Ok x, F') -> Fragment.full F' = true -> Fragment.merge F' = Ok m ->
  whole s' a u /\ FramePayload.deref (data m) = m_payload u.
Proof.
  intros Hfq Hav Href Hd Hins Hfull Hmg. pose proof (insert_collects x F' Hins) as Hc.
  assert (whole s' a u) as Hw by (by apply (collects_full _ _ _ _ _ Hc)). split; [done|].
  destruct (entry_wf now f _ Hfq Hav Href) as [HFwf _].
  destruct (fragment_insert_wf now f _ _ _ HFwf Hnf (proj1 (proj2 Hav)) Hins) as (HFwf' & Hbytes & Hx).
  destruct (merge_ok F' HFwf' Hfull) as (r & last & _ & _ & Em).
  { pose proof (refuses_limits _ _ Hfq Href) as [Hlim _]. pose proof (entry_bytes_le now f _ Hfq). lia. }
  rewrite Hmg in Em. injection Em as ->. simpl. by rewrite (collects_payloads _ _ _ _ _ Hc Hw).
Qed.

(** A fragment that does not complete its message waits with the others. *)
Lemma fragment_kept q2 x F' b :
  advanced s' q q2 -> recvq_inv content k q2 -> Fragment.insert now f F = (Ok x, F') -> Fragment.full F' = false ->
  let fq := FragmentQ.mk (<[id := F']> (FragmentQ.fragments (fragment_queue q))) b in
  queue_wf fq -> delivery_inv s' k (q2 <| fragment_queue := fq |>).
Proof.
  intros [Aw As Ao Af Ar] Hq2 Hins Hfull fq Hfq. pose proof (insert_collects x F' Hins) as Hc.
  pose proof (arrives_range _ _ _ _ _ _ _ Har) as Hj. pose proof (ar_located _ _ _ _ _ _ _ Har) as Hl.
  assert (~ whole s' a u) as Hw by (intros Hw; apply (collects_full _ _ _ _ _ Hc) in Hw; congruence).
  assert (~ whole s a u) as Hw0 by (intros Hw0; apply Hnr, Hw0; lia).
  split; try done.
  - destruct Hq2. by split.
  - apply Hi.
  - intros d y e v Hv. unfold present. simpl. rewrite Ao. fold (present k q d y).
    rewrite (di_present _ _ _ Hi d y e v Hv). destruct (decide ((d, y) = (c, n))) as [[= -> ->]|Hne].
    + by destruct (located_unique _ _ _ _ _ _ _ Hl Hv) as [<- <-].
    + symmetry. apply (whole_apart s s' (a + j)); [done|]. by apply (located_apart c n a u j d y).
  - by apply (collected_added x).
Qed.
End FragmentStep.

(** A message in one frame: no entry is for it. *)
Lemma collected_single s s' fq c n a u f :
  collected s fq -> accepts_one s s' (a + 0) -> located L c n a u -> m_parts u = [f] -> ~ received s (a + 0) ->
  collected s' fq /\ whole s' a u.
Proof.
  intros Hc Hs Hl Hp Hnr.
  assert (whole s' a u) as Hw.
  { intros j Hj. rewrite Hp in Hj. simpl in Hj. apply Hs. right. lia. }
  split; [|done]. apply (collected_step s s' fq fq c n a u 0); [done|done|done|rewrite Hp; simpl; lia| | |done].
  - intros id F HF. right. split; [done|]. intros [_ _ Hf _ [j [g Hg]]].
    destruct (Hf j g Hg) as (Hj & Hr & f' & Hf'%lookup_lt_Some & _). rewrite Hp in Hf'. simpl in Hf'.
    apply Hnr. by replace 0 with j by lia.
  - done.
Qed.

(** A fragment of an ordered message, accepted by the window and not behind its channel. *)
Lemma fragment_step s s' k q q2 now f c n a u j id q' :
  delivery_inv s k q -> advanced s' q q2 -> accepts_one s s' (a + j) -> ~ received s (a + j) ->
  a + j < base s + RECEIVE_WINDOW -> recvq_inv content k q2 -> arrives f c n a u j id ->
  concat (map (fun f => FramePayload.deref (data f)) (m_parts u)) = m_payload u ->
  frame_wf f Reliability.ReliableOrdered -> reliability f = Ok Reliability.ReliableOrdered ->
  order_channel f = c -> ordered_frame_index f = serial n ->
  k c <= n <= k c + RECEIVE_WINDOW -> distance (serial n) (serial (k c)) < RECEIVE_WINDOW ->
  (complete ← fun self => let '(res, fq) := FragmentQ.insert_and_take_completed now f (fragment_queue self) in
     (res, self <| fragment_queue := fq |>);
   match complete with Some frame => insert_complete (serial (k c)) frame | None => mret tt end) q2 = (Ok tt, q') ->
  exists k' new, delivery_inv s' k' q' /\ ready_ordered q' = ready_ordered q ++ new /\ continues content k k' new.
Proof.
  intros Hi Had Hs Hnr Hb Hq2 Har Hd Hwf Hr Hc Ho Hn Hwin Hins. pose proof Had as [Aw As Ao Af Ar].
  pose proof (frame_wf_arriving _ _ Hwf) as Hav. pose proof (ri_fragments _ _ _ _ Hq2) as Hfq.
  pose proof (arrives_fields _ _ _ _ _ _ _ Har) as (Hid & _).
  destruct (take_completed_cases now f (fragment_queue q2) Hfq Hav) as
    [(_ & E)|[(_ & _ & E)|(Href & Hag & x & F' & Hfi & E)]];
    [by erewrite SE_bind_err in Hins by (cbv beta; rewrite E; reflexivity)..|].
  destruct (entry_wf now f _ Hfq Hav Href) as [_ Hnf].
  pose proof (take_completed_wf now f _ Hfq Hav) as Hfq'. rewrite Hid in E. rewrite Af in *.
  destruct (Fragment.full F') eqn:Hfull; [destruct E as (m & Hmg & E)|];
    (erewrite SE_bind_ok in Hins by (cbv beta; rewrite Af, E; reflexivity)); cbv beta iota in Hins;
    rewrite E in Hfq'; simpl in Hfq'.
  - pose proof (take_completed_some now f _ m _ Hfq Hav E) as (M1 & M2 & M3 & _).
    destruct (merged_payload s s' k q now f c n a u j id Hi Har Hnr Hb Hs Hag Hnf x F' m) as [Hw Em]; try done.
    match type of Hins with _ ?x = _ => set (q3 := x) in Hins end. rewrite <- Ar.
    apply (complete_step s s' k q q3 m c n a u j); try done; try congruence.
    + by apply (arrives_range f c n a u j id).
    + apply Har.
    + destruct Hq2. by split.
    + by apply (collected_taken s s' k q now f c n a u j id).
  - injection Hins as <-. exists k, []. rewrite app_nil_r. split; [|split; [done|apply continues_refl]].
    by apply (fragment_kept s s' k q now f c n a u j id Hi Har Hnr Hb Hs Hag Hnf q2 x).
Qed.

Lemma copy_mode f g : copy f g -> reliability f = reliability g /\ is_fragment f = is_fragment g.
Proof. intros H. unfold reliability, is_fragment. by rewrite (cp_flags _ _ H). Qed.

(** A part of an ordered message, accepted by the window. *)
Lemma ordered_step s s' k q q2 now f g c n a u j q' :
  delivery_inv s k q -> advanced s' q q2 -> accepts_one s s' (a + j) -> ~ received s (a + j) ->
  a + j < base s + RECEIVE_WINDOW -> recvq_inv content k q2 -> located L c n a u ->
  0 <= j -> m_parts u !! Z.to_nat j = Some g -> copy f g -> frame_wf f Reliability.ReliableOrdered ->
  insert_ordered now f q2 = (Ok tt, q') ->
  exists k' new, delivery_inv s' k' q' /\ ready_ordered q' = ready_ordered q ++ new /\ continues content k k' new.
Proof.
  intros Hi Had Hs Hnr Hb Hq2 Hl Hj Hg Hcp Hwf Hins.
  pose proof (lookup_lt_Some _ _ _ Hg) as Hjl. pose proof Hg as Hgin. apply list_elem_of_lookup_2 in Hgin.
  pose proof (located_wf _ _ _ _ _ HL Hl) as Hu. assert (ordered c u) as [Hmo Hch] by (by destruct Hl as (? & _ & ? & _)).
  pose proof (mw_mode _ _ Hu g Hgin) as Hrg. rewrite Hmo in Hrg.
  destruct (mw_order _ _ Hu Hmo g Hgin) as [Ec En]. destruct (cp_ordered _ _ Hcp Hrg) as [Ecf Enf].
  rewrite Ec, Hch in Ecf. rewrite En in Enf. destruct (copy_mode _ _ Hcp) as [Erf Eff]. rewrite Hrg in Erf.
  assert (k c <= n <= k c + RECEIVE_WINDOW) as Hn.
  { apply (near_next s k q c n a u Hi Hl); [intros Hw; apply Hnr, Hw; lia|exists j; lia]. }
  unfold insert_ordered in Hins. erewrite SE_bind_ok in Hins by reflexivity.
  rewrite (ri_expected _ _ _ _ Hq2), Ecf, Enf, newer_serial in Hins by (unfold HALF, RECEIVE_WINDOW in *; lia).
  rewrite (proj2 (Z.ltb_ge _ _)) in Hins by lia.
  destruct (RECEIVE_WINDOW <=? _) eqn:Ewin; [done|]. apply Z.leb_gt in Ewin.
  rewrite Eff in Hins.
  destruct (mw_parts _ _ Hu) as [(g0 & Hp & Hfr & Hd)|(_ & (id & Hm) & Hfr & Hd)].
  - destruct Had as [Aw As Ao Af Ar]. rewrite Hp in Hg, Hjl. simpl in Hjl. assert (j = 0) as -> by lia. injection Hg as <-. rewrite Hfr in Hins.
    erewrite SE_bind_ok in Hins by reflexivity. cbv beta iota in Hins.
    destruct (collected_single s s' (fragment_queue q) c n a u g0) as [Hcol Hw]; try done; [apply Hi|].
    rewrite <- Ar. apply (complete_step s s' k q q2 f c n a u 0); try done; [rewrite Hp; simpl; lia|by rewrite Af|].
    by rewrite (cp_data _ _ Hcp).
  - rewrite (Hfr g Hgin) in Hins.
    assert (arrives f c n a u j id) as Har by (split; try done; exists g; split_and!; auto).
    by apply (fragment_step s s' k q q2 now f c n a u j id q').
Qed.

(** The other modes leave the ordered channels alone. *)
Lemma unordered_admit r now f k q :
  recvq_inv content k q -> reliability f = Ok r -> r <> Reliability.ReliableOrdered ->
  exists q', take_in r now f q = (Ok tt, q') /\ recvq_inv content k q' /\ reliable_window q' = reliable_window q /\
    ordered_packets q' = ordered_packets q /\ fragment_queue q' = fragment_queue q /\ ready_ordered q' = ready_ordered q.
Proof.
  intros Hq Hr Hne. assert (reliability f <> Ok Reliability.ReliableOrdered) as Hno by congruence.
  assert (exists q', modify (insert_sequenced f) q = (Ok tt, q') /\ recvq_inv content k q' /\
    reliable_window q' = reliable_window q /\ ordered_packets q' = ordered_packets q /\
    fragment_queue q' = fragment_queue q /\ ready_ordered q' = ready_ordered q) as Hsq.
  { exists (insert_sequenced f q). split; [done|]. split; [by apply insert_sequenced_inv|].
    unfold insert_sequenced. destruct (ChannelIndexes.get_mut _ _). by case_if. }
  destruct r; try done; (eexists; split; [reflexivity|]); (split; [|done]);
    destruct Hq as [? ? ? ? ? ? ? Hp]; split; try done; simpl; [by apply or_insert_packets|].
  intros s g [[<- <-]|[_ Hg]]%lookup_insert_Some; [done|by apply Hp].
Qed.

Lemma track_inv k q f : recvq_inv content k q -> recvq_inv content k (track f q).
Proof. by intros []. Qed.

Lemma unreliable_step s k q now f r q' :
  delivery_inv s k q -> reliability f = Ok r -> rel_b r = false -> insert now f q = (Ok tt, q') ->
  delivery_inv s k q' /\ ready_ordered q' = ready_ordered q.
Proof.
  intros Hi Hr Eb E. rewrite (insert_unreliable now f q r Hr Eb) in E.
  destruct (unordered_admit r now f k (track f q)) as (q0 & E0 & Hq0 & Ew & Eo & Ef & Ey);
    [apply track_inv, Hi|done|by intros ->|]. rewrite E in E0. injection E0 as <-. split; [|by rewrite Ey].
  destruct Hi as [_ Hw Hsp Hnn Hp Hc]. split; try done; [by rewrite Ew| |by rewrite Ef].
  intros c n a u Hl. rewrite <- (Hp c n a u Hl). unfold present. by rewrite Eo.
Qed.

Lemma reliable_step s k q now f (R : nat) g q' :
  delivery_inv s k q -> log_frames L !! R = Some g -> copy f g -> frame_wf f (rel_of f) ->
  - HALF <= Z.of_nat R - base s < HALF -> insert now f q = (Ok tt, q') ->
  received (spec_accept s (Z.of_nat R)).2 (Z.of_nat R) /\
  exists k' new, delivery_inv (spec_accept s (Z.of_nat R)).2 k' q' /\
    ready_ordered q' = ready_ordered q ++ new /\ continues content k k' new.
Proof.
  intros Hi HR Hcp Hwf Hnear E. destruct (log_frames_lookup L R g HR) as (i & u & j & Hu & Hj & ER).
  pose proof (lw_messages _ HL i u Hu) as Hmw. pose proof (list_elem_of_lookup_2 _ _ _ Hj) as Hgin.
  pose proof (mw_mode _ _ Hmw g Hgin) as Hrg. destruct (copy_mode _ _ Hcp) as [Erf _]. rewrite Hrg in Erf.
  rewrite (insert_reliable now f q (m_mode u) Erf (mw_reliable _ _ Hmw)) in E.
  rewrite (cp_reliable _ _ Hcp), (lw_index _ HL R g HR) in E.
  destruct (accept_simulates (reliable_window q) s (Z.of_nat R) (di_window _ _ _ Hi) (di_spec _ _ _ Hi) Hnear) as [Er Hw'].
  pose proof (spec_accept_wf s (Z.of_nat R) (di_spec _ _ _ Hi)) as Hsp'.
  pose proof (spec_accept_received s (Z.of_nat R)) as Hrec.
  destruct (accept (reliable_window q) (serial (Z.of_nat R))) as [res w]. simpl in Er, Hw'. cbv zeta in E.
  set (q2 := track f q <| reliable_window := w |>) in E.
  assert (recvq_inv content k q2) as Hq2.
  { apply (track_inv k q f), (di_queue _ _ _ Hi) || (pose proof (track_inv k q f (di_queue _ _ _ Hi)) as []; by split). }
  destruct res as [[|]|e]; [| |done].
  - assert (accepts_one s (spec_accept s (Z.of_nat R)).2 (Z.of_nat R)) as Hone.
    { intros x. rewrite Hrec, <- Er. naive_solver. }
    assert (~ received s (Z.of_nat R) /\ Z.of_nat R < base s + RECEIVE_WINDOW) as [Hnr Hb].
    { revert Er. unfold spec_accept. case_bool_decide; [done|]. case_if; [done|]. b2p. by split. }
    set (s' := (spec_accept s (Z.of_nat R)).2) in *. clearbody s'. split; [apply Hone; auto|].
    assert (advanced s' q q2) as Had by (by split).
    destruct (decide (m_mode u = Reliability.ReliableOrdered)) as [Em|Em].
    + rewrite Em in *.
      assert (located L (m_channel u) (zlen (on_channel (m_channel u) (take i L))) (zlen (log_frames (take i L))) u) as Hl
        by (by exists i).
      assert (Z.of_nat R = zlen (log_frames (take i L)) + Z.of_nat j) as ER' by lia. rewrite ER' in *.
      apply (ordered_step s s' k q q2 now f g _ _ _ u (Z.of_nat j) q' Hi Had Hone Hnr Hb Hq2 Hl); try done; [lia|by rewrite Nat2Z.id|].
      by rewrite (rel_of_ok f _ Erf) in Hwf.
    + destruct (unordered_admit (m_mode u) now f k q2 Hq2 Erf Em) as (q0 & E0 & Hq0 & Ew & Eo & Ef & Ey).
      rewrite E in E0. injection E0 as <-. exists k, []. rewrite app_nil_r.
      split; [|by split; [rewrite Ey|apply continues_refl]].
      apply (advanced_apart s s' k q q' (Z.of_nat R)); try done.
      * split; try done. by rewrite Ew.
      * intros c n a v Hl. assert (Z.of_nat R = zlen (log_frames (take i L)) + Z.of_nat j) as -> by lia.
        apply (unordered_apart i u j c n); try done. by apply lookup_lt_Some in Hj.
  - assert ((spec_accept s (Z.of_nat R)).2 = s /\ received s (Z.of_nat R)) as [Es Hdup].
    { revert Er. unfold spec_accept. case_bool_decide; [done|]. by repeat case_if. }
    rewrite Es in *. split; [done|].
    injection E as <-. exists k, []. rewrite app_nil_r. split; [|split; [done|apply continues_refl]]. destruct Hi as [_ _ _ Hnn Hp Hc]. by split.
Qed.

(** ** Runs *)

(** Frames that arrive from the owner of the log: unreliable ones, and copies of the log's
    frames [ns], in any order and number. *)
Inductive traffic : list (Z * FrameSetPacket) -> list nat -> Prop :=
  | traffic_nil : traffic [] []
  | traffic_unreliable now f arrivals ns :
      frame_wf f (rel_of f) -> rel_b (rel_of f) = false -> traffic arrivals ns ->
      traffic ((now, f) :: arrivals) ns
  | traffic_reliable now f g (R : nat) arrivals ns :
      frame_wf f (rel_of f) -> log_frames L !! R = Some g -> copy f g -> traffic arrivals ns ->
      traffic ((now, f) :: arrivals) (R :: ns).

Lemma flush_delivery s k out q :
  delivery_inv s k q -> delivery_inv s k (flush_into out q).2.
Proof.
  intros [Hq Hw Hsp Hnn Hp Hc]. pose proof (flush_into_inv content k out q Hq) as Hf.
  assert (reliable_window (flush_into out q).2 = reliable_window q /\
    ordered_packets (flush_into out q).2 = ordered_packets q /\
    fragment_queue (flush_into out q).2 = fragment_queue q) as (Ew & Eo & Ef) by (unfold flush_into; by case_if).
  destruct (flush_into out q) as [out' q']. simpl in *. destruct Hf as (Hq' & _).
  split; try done; [by rewrite Ew| |by rewrite Ef].
  intros c n a u Hl. rewrite <- (Hp c n a u Hl). unfold present. by rewrite Eo.
Qed.

Lemma delivery_ext s k k' q : (forall c, k c = k' c) -> delivery_inv s k q -> delivery_inv s k' q.
Proof.
  intros Hk [Hq Hw Hsp Hnn Hp Hc]. split; try done.
  - by apply (recvq_inv_ext content k).
  - intros c. by rewrite <- Hk.
  - intros c n a u Hl. rewrite <- (Hp c n a u Hl). unfold present. by rewrite Hk.
Qed.

(** What was flushed continues what was delivered. *)
Lemma flush_progress k k' out q new :
  recvq_inv content k' q -> ready_ordered q = new -> continues content k k' new ->
  (forall c, k c = progress out c) -> consecutive content out ->
  let '(out', q') := flush_into out q in
  (forall c, k' c = progress out' c) /\ consecutive content out' /\ ready_ordered q' = [].
Proof.
  intros Hq Hr Hc Hk Hcons. pose proof (flush_into_inv content k' out q Hq) as Hf.
  destruct (flush_into out q) as [out' q']. destruct Hf as (_ & Hr' & _ & Hd). rewrite Hr in Hd.
  assert (forall c, delivered c out' = delivered c out ++ filter (fun f => order_channel f = c) new) as Hd'.
  { intros c. by rewrite Hd, (continues_delivered _ _ _ _ _ Hc). }
  assert (forall c, k' c = progress out' c) as Hk'.
  { intros c. destruct (Hc c) as [Hle HF]. apply Forall2_length in HF. rewrite length_seqZ in HF.
    unfold progress in *. rewrite Hd', length_app. specialize (Hk c). lia. }
  split; [done|]. split; [|done]. intros c. destruct (Hc c) as [Hle HF]. rewrite <- Hk', Hd'.
  replace (k' c) with (k c + (k' c - k c)) by lia. specialize (Hk c). rewrite seqZ_app by (unfold progress in *; lia).
  apply Forall2_app; [rewrite Hk; apply Hcons|]. by rewrite Z.add_0_l.
Qed.

Lemma receive_delivery arrivals ns s out q :
  delivery_inv s (progress out) q -> ready_ordered q = [] -> consecutive content out ->
  traffic arrivals ns -> in_horizon s (map Z.of_nat ns) ->
  let '(invalid, out', q') := receive arrivals out q in
  consecutive content out' /\
  (invalid = false -> delivery_inv (spec_run s (map Z.of_nat ns)).2 (progress out') q' /\
     forall R : nat, R ∈ ns -> received (spec_run s (map Z.of_nat ns)).2 (Z.of_nat R)).
Proof.
  intros Hi Hr Hcons Ht. revert s out q Hi Hr Hcons.
  induction Ht as [|now f arrivals ns Hwf Hrel Ht IH|now f g R arrivals ns Hwf HR Hcp Ht IH];
    intros s out q Hi Hr Hcons Hh; cbn [receive].
  - split; [done|]. intros _. split; [done|]. by intros R ?%not_elem_of_nil.
  - destruct (insert now f q) as [[[]|e] q1] eqn:E; [|done].
    destruct (unreliable_step s _ q now f (rel_of f) q1 Hi (val_reliability _ _ (wf_validated _ _ Hwf)) Hrel E) as [Hi1 Hr1].
    pose proof (flush_progress (progress out) (progress out) out q1 [] (di_queue _ _ _ Hi1) ltac:(congruence)
      (continues_refl content _) (fun _ => eq_refl) Hcons) as Hf.
    pose proof (flush_delivery s _ out q1 Hi1) as Hi2. destruct (flush_into out q1) as [out2 q2].
    destruct Hf as (Hk & Hc2 & Hr2). apply IH; [|done..]. by apply (delivery_ext s (progress out)).
  - destruct Hh as [Hnear Hh]. destruct (insert now f q) as [[[]|e] q1] eqn:E; [|done].
    destruct (reliable_step s _ q now f R g q1 Hi HR Hcp Hwf Hnear E) as (Hrec & k' & new & Hi1 & Hr1 & Hc1).
    rewrite Hr in Hr1. simpl in Hr1.
    pose proof (flush_progress (progress out) k' out q1 new (di_queue _ _ _ Hi1) Hr1 Hc1 (fun _ => eq_refl) Hcons) as Hf.
    pose proof (flush_delivery _ _ out q1 Hi1) as Hi2. destruct (flush_into out q1) as [out2 q2].
    destruct Hf as (Hk & Hc2 & Hr2). simpl. destruct (spec_accept s (Z.of_nat R)) as [r s'].
    pose proof (IH s' out2 q2 (delivery_ext _ _ _ _ Hk Hi2) Hr2 Hc2 Hh) as H.
    pose proof (proj2 (spec_run_received s' (map Z.of_nat ns) (Z.of_nat R)) (or_introl Hrec)) as Hrec'.
    destruct (receive arrivals out2 q2) as [[invalid out'] q'], (spec_run s' (map Z.of_nat ns)) as [rs s2].
    destruct H as [H1 H2]. split; [done|]. intros Hv. destruct (H2 Hv) as [H3 H4]. split; [done|].
    intros R' [->|?]%elem_of_cons; [done|by apply H4].
Qed.

Lemma new_delivery : delivery_inv spec_default (fun _ => 0) new_recvq.
Proof.
  split; [apply recvq_inv_new|apply default_represents|apply spec_default_wf|done| |].
  - intros c n a u Hl. pose proof (located_nonneg _ _ _ _ _ Hl) as [Hn Ha].
    pose proof (message_nonempty _ _ (located_wf _ _ _ _ _ HL Hl)) as Hlen. split.
    + intros [?|[_ [f Hf]]]; [lia|]. simpl in Hf. by rewrite lookup_empty in Hf.
    + intros Hw. exfalso. destruct (Hw 0) as [H|H]; [lia|simpl in H; lia|]. simpl in H. set_solver.
  - split; simpl; [intros id F; by rewrite lookup_empty|].
    intros c n a u id Hl _ _ (j & Hj & [H|H]); [|simpl in H; set_solver].
    pose proof (located_nonneg _ _ _ _ _ Hl) as [_ ?]. simpl in H. lia.
Qed.

(** What continues the channels of the log from the start is a prefix on each. *)
Lemma consecutive_prefix c out :
  consecutive content out ->
  exists rest, map m_payload (on_channel c L) = map (fun f => FramePayload.deref (data f)) (delivered c out) ++ rest.
Proof.
  intros Hcons.
  assert (forall (n : nat) f, delivered c out !! n = Some f -> exists u, on_channel c L !! n = Some u /\
    FramePayload.deref (data f) = m_payload u) as Hlook.
  { intros n f Hf. destruct (Forall2_lookup_r _ _ _ _ _ (Hcons c) Hf) as (x & Hx & (_ & _ & _ & a & u & Hl & Hd)).
    apply lookup_seqZ in Hx as [-> _]. exists u. split; [|done].
    apply located_lookup in Hl. by rewrite Z.add_0_l, Nat2Z.id in Hl. }
  assert (length (delivered c out) <= length (on_channel c L))%nat as Hlen.
  { destruct (decide (length (delivered c out) <= length (on_channel c L))%nat) as [|Hgt]; [done|]. exfalso.
    destruct (lookup_lt_is_Some_2 (delivered c out) (length (on_channel c L))) as [f Hf]; [lia|].
    destruct (Hlook _ _ Hf) as (u & Hu%lookup_lt_Some & _). lia. }
  exists (drop (length (delivered c out)) (map m_payload (on_channel c L))).
  rewrite <- (take_drop (length (delivered c out)) (map m_payload _)) at 1. f_equal. apply list_eq. intros n.
  rewrite list_lookup_fmap. destruct (delivered c out !! n) as [f|] eqn:Ef.
  - pose proof (lookup_lt_Some _ _ _ Ef). rewrite lookup_take_lt, list_lookup_fmap by lia.
    destruct (Hlook n f Ef) as (u & -> & Hd). simpl. by rewrite Hd.
  - simpl. apply lookup_ge_None in Ef. by rewrite lookup_take_ge.
Qed.

(** Where every frame was accepted, every message is out. *)
Lemma all_delivered s out q c :
  delivery_inv s (progress out) q -> consecutive content out ->
  (forall R, 0 <= R < zlen (log_frames L) -> received s R) -> progress out c = zlen (on_channel c L).
Proof.
  intros Hi Hcons Hall. destruct (consecutive_prefix c out Hcons) as [rest Er]. apply (f_equal length) in Er.
  rewrite length_app, !length_map in Er. unfold progress in *.
  destruct (decide (zlen (delivered c out) = zlen (on_channel c L))) as [|Hne]; [done|]. exfalso.
  destruct (located_at L c (length (delivered c out))) as (a & u & Hl & Hend); [lia|].
  apply (next_absent (progress out) q c (di_queue _ _ _ Hi)), (di_present _ _ _ Hi c _ a u Hl).
  intros j Hj. pose proof (located_nonneg _ _ _ _ _ Hl). apply Hall. lia.
Qed.

(** What comes out of a channel is what the log has first on it; where the receiver did not
    give up, the next message has a frame that never arrived. *)
Lemma receive_log arrivals ns :
  traffic arrivals ns -> in_horizon spec_default (map Z.of_nat ns) ->
  let '(invalid, out, q) := receive arrivals [] new_recvq in
  forall c,
    (exists rest, map m_payload (on_channel c L) = map (fun f => FramePayload.deref (data f)) (delivered c out) ++ rest) /\
    (invalid = false -> (forall R : nat, (R < length (log_frames L))%nat -> R ∈ ns) ->
       progress out c = zlen (on_channel c L)).
Proof.
  intros Ht Hh. pose proof (receive_delivery arrivals ns spec_default [] new_recvq) as H.
  destruct (receive arrivals [] new_recvq) as [[invalid out] q].
  destruct H as [Hcons Hfin]; [by apply (delivery_ext _ (fun _ => 0)); [|apply new_delivery]|done|by intros c|done|done|].
  intros c. split; [exact (consecutive_prefix c out Hcons)|]. intros Hv Hall. destruct (Hfin Hv) as [Hi Hrec].
  apply (all_delivered _ _ _ c Hi Hcons). intros R HR. replace R with (Z.of_nat (Z.to_nat R)) by lia. apply Hrec, Hall. lia.
Qed.
End Receiver.
