(* ===== verification/SendOptions.v ===== *)
(** * Connection-local send and recovery settings

    [src/src/send_options.rs]: the validated limits of the send scheduler.
    [src/src/recovery_options.rs]: the settings of loss recovery. *)

From Stdlib Require Import String.
From S2P Require Import Prelude Errors.

Module SendOptions.

Definition MAX_BYTES : Z := 64 * 1024 * 1024.

Record SendOptions := mk {
  in_flight_frames : Z;
  in_flight_bytes : Z;
  reliable_queue_bytes : Z;
  unreliable_queue_bytes : Z;
  flush_bytes : Z;
}.

#[export] Instance SendOptions_eq_dec : EqDecision SendOptions.
Proof. solve_decision. Defined.

Definition default : SendOptions := mk 64 MAX_BYTES (256 * 1024) (64 * 1024) (256 * 1024).

(** [SendOptionsError] is its message. *)
Inductive SendOptionsError : Set := error (message : string).

(** [impl Display for SendOptionsError]. *)
Definition fmt (e : SendOptionsError) : string := match e with error message => message end.

Definition with_in_flight_limits (self : SendOptions) (frames bytes : Z)
    : result SendOptionsError SendOptions :=
  if negb ((1 <=? frames) && (frames <=? 4096)) || negb ((2048 <=? bytes) && (bytes <=? MAX_BYTES))
  then Err (error "flight limits require 1..=4096 frames and 2048..=67108864 bytes")
  else Ok (mk frames bytes (reliable_queue_bytes self) (unreliable_queue_bytes self)
             (flush_bytes self)).

(** [checked_add] on [usize], then [is_none_or]. *)
Definition with_queue_budgets (self : SendOptions) (reliable unreliable : Z)
    : result SendOptionsError SendOptions :=
  if (reliable <? 2048) || (unreliable <? 2048)
     || ((2 ^ 64 <=? reliable + unreliable) || (MAX_BYTES <? reliable + unreliable))
  then Err (error "queue budgets must each be at least 2048 bytes and sum to at most 67108864 bytes")
  else Ok (mk (in_flight_frames self) (in_flight_bytes self) reliable unreliable (flush_bytes self)).

Definition with_flush_budget (self : SendOptions) (bytes : Z) : result SendOptionsError SendOptions :=
  if negb ((2048 <=? bytes) && (bytes <=? MAX_BYTES))
  then Err (error "flush budget must be between 2048 and 67108864 bytes")
  else Ok (mk (in_flight_frames self) (in_flight_bytes self) (reliable_queue_bytes self)
             (unreliable_queue_bytes self) bytes).

(** What the builders guarantee; the send queue relies on it. *)
Record valid (o : SendOptions) : Prop := {
  valid_frames : 1 <= in_flight_frames o <= 4096;
  valid_flight : 2048 <= in_flight_bytes o <= MAX_BYTES;
  valid_reliable : 2048 <= reliable_queue_bytes o;
  valid_unreliable : 2048 <= unreliable_queue_bytes o;
  valid_queues : reliable_queue_bytes o + unreliable_queue_bytes o <= MAX_BYTES;
  valid_flush : 2048 <= flush_bytes o <= MAX_BYTES;
}.

Inductive step : Set :=
  | InFlight (frames bytes : Z)
  | Budgets (reliable unreliable : Z)
  | Flush (bytes : Z).

Definition apply_step (self : SendOptions) (s : step) : result SendOptionsError SendOptions :=
  match s with
  | InFlight frames bytes => with_in_flight_limits self frames bytes
  | Budgets reliable unreliable => with_queue_budgets self reliable unreliable
  | Flush bytes => with_flush_budget self bytes
  end.

Fixpoint build (self : SendOptions) (steps : list step) : result SendOptionsError SendOptions :=
  match steps with
  | [] => Ok self
  | s :: steps => self ← apply_step self s; build self steps
  end.

Lemma default_valid : valid default.
Proof. split; vm_compute; try split; congruence. Qed.

Lemma apply_step_valid o s o' : valid o -> apply_step o s = Ok o' -> valid o'.
Proof.
  unfold MAX_BYTES.
  intros [] H. destruct s; simpl in H;
    unfold with_in_flight_limits, with_queue_budgets, with_flush_budget in H;
    case_if_in H; try discriminate; injection H as <-; b2p;
    split; simpl; unfold MAX_BYTES in *; lia.
Qed.

Lemma build_valid o steps o' : valid o -> build o steps = Ok o' -> valid o'.
Proof.
  revert o. induction steps as [|s steps IH]; simpl; intros o Ho H.
  { by injection H as <-. }
  destruct (apply_step o s) as [o1|e] eqn:E; [|discriminate].
  by apply (IH o1); [apply (apply_step_valid o s)|].
Qed.

(** Every configuration built from the defaults by the three setters, in any order and
    number, satisfies the limits the send queue relies on: at most 4096 frames and 64 MiB in
    flight, queue budgets of at least 2048 bytes that sum to at most 64 MiB, and a flush
    budget between 2048 bytes and 64 MiB. *)
Theorem built_options_valid steps o :
  build default steps = Ok o ->
  1 <= in_flight_frames o <= 4096 /\ 2048 <= in_flight_bytes o <= 67108864 /\
  2048 <= reliable_queue_bytes o /\ 2048 <= unreliable_queue_bytes o /\
  reliable_queue_bytes o + unreliable_queue_bytes o <= 67108864 /\
  2048 <= flush_bytes o <= 67108864.
Proof.
  intros H. apply build_valid in H as []; [|apply default_valid]. unfold MAX_BYTES in *.
  split_and!; lia.
Qed.

Lemma built_options_valid_witness :
  exists o, build default [InFlight 128 65536; Flush 4096; Budgets 8192 4096] = Ok o /\
    1 <= in_flight_frames o <= 4096.
Proof.
  eexists. split; [vm_compute; reflexivity|].
  edestruct (built_options_valid [InFlight 128 65536; Flush 4096; Budgets 8192 4096]) as [H _];
    [vm_compute; reflexivity|]. exact H.
Defined.

End SendOptions.
Abbreviation SendOptions := SendOptions.SendOptions.

(** [RecoveryOptions]: the delay is a [Duration], in nanoseconds. *)
Record RecoveryOptions := mk_recovery_options {
  deadline_driven : bool;
  tail_probe_min_delay : option Z;
  reset_backoff_on_progress : bool;
}.

#[export] Instance RecoveryOptions_eq_dec : EqDecision RecoveryOptions.
Proof. solve_decision. Defined.

Definition default_recovery_options : RecoveryOptions := mk_recovery_options false None false.
