(* ===== verification/SendQ.v ===== *)
(** * The send queue

    [SendQ] of [src/src/arq.rs]: admission and fragmentation, the flight window with its
    retransmission timers, acknowledgement handling, tail probes (feature
    [recovery-policy]) and the scheduler of the feature [send-policy].

    Times are milliseconds of the monotonic clock, arguments of the operations. The cargo
    features are the fields of the class [Features]. [Arc<SharedPayload>] is a key into the
    store [shared] of the queue, so that the fragments of a message share their counter. *)

From S2P Require Import Prelude Errors Sequence Frame FrameCodec Fragment RecvQ SendOptions.

(** The cargo features the code is compiled with. *)
Class Features := { recovery_policy : bool; send_policy : bool }.

Record SharedPayload := mk_shared { remaining : Z; payload_bytes : Z }.

(** An entry of [sent_packet]: the frame, whether it is on the wire (and not waiting to be
    sent again), when it was last sent, how often, and its earlier sequence numbers. *)
Record Sent := mk_sent {
  frame : FrameSetPacket;
  sent : bool;
  sent_at : Z;
  retries : Z;
  aliases : list Z;
}.

#[export] Instance set_frame : Setter frame := fun g r =>
  mk_sent (g (frame r)) (sent r) (sent_at r) (retries r) (aliases r).
#[export] Instance set_sent : Setter sent := fun g r =>
  mk_sent (frame r) (g (sent r)) (sent_at r) (retries r) (aliases r).
#[export] Instance set_sent_at : Setter sent_at := fun g r =>
  mk_sent (frame r) (sent r) (g (sent_at r)) (retries r) (aliases r).
#[export] Instance set_retries : Setter retries := fun g r =>
  mk_sent (frame r) (sent r) (sent_at r) (g (retries r)) (aliases r).
#[export] Instance set_aliases : Setter aliases := fun g r =>
  mk_sent (frame r) (sent r) (sent_at r) (retries r) (g (aliases r)).

(** [sort_unstable_by_key(|packet| packet.0.sequence_number)]: some sorted permutation,
    which one is left open for packets of one datagram. *)
Definition by_id (p q : Sent) : Prop :=
  sequence_number (frame p) <= sequence_number (frame q).

Class UnstableSort := {
  sort_flight : list Sent -> list Sent;
  sort_flight_perm : forall l, sort_flight l ≡ₚ l;
  sort_flight_sorted : forall l, StronglySorted by_id (sort_flight l);
}.

Record OutgoingFrames := mk_outgoing { frames : list FrameSetPacket; coalesced : bool }.

(** [capacity_notifier] is a weak handle on the [Notify] of the connection: unset at first,
    then the number of times [notify_waiters] was called through it. *)
Record SendScheduler := mk_scheduler {
  capacity_notifier : option Z;
  options : SendOptions;
  unreliable : list FrameSetPacket;
  unreliable_bytes : Z;
  use_legacy : bool;
  persistent : bool;
  next_lane : Z;
}.

#[export] Instance set_capacity_notifier : Setter capacity_notifier := fun g r =>
  mk_scheduler (g (capacity_notifier r)) (options r) (unreliable r) (unreliable_bytes r)
    (use_legacy r) (persistent r) (next_lane r).
#[export] Instance set_options : Setter options := fun g r =>
  mk_scheduler (capacity_notifier r) (g (options r)) (unreliable r) (unreliable_bytes r)
    (use_legacy r) (persistent r) (next_lane r).
#[export] Instance set_unreliable : Setter unreliable := fun g r =>
  mk_scheduler (capacity_notifier r) (options r) (g (unreliable r)) (unreliable_bytes r)
    (use_legacy r) (persistent r) (next_lane r).
#[export] Instance set_unreliable_bytes : Setter unreliable_bytes := fun g r =>
  mk_scheduler (capacity_notifier r) (options r) (unreliable r) (g (unreliable_bytes r))
    (use_legacy r) (persistent r) (next_lane r).
#[export] Instance set_use_legacy : Setter use_legacy := fun g r =>
  mk_scheduler (capacity_notifier r) (options r) (unreliable r) (unreliable_bytes r)
    (g (use_legacy r)) (persistent r) (next_lane r).
#[export] Instance set_persistent : Setter persistent := fun g r =>
  mk_scheduler (capacity_notifier r) (options r) (unreliable r) (unreliable_bytes r)
    (use_legacy r) (g (persistent r)) (next_lane r).
#[export] Instance set_next_lane : Setter next_lane := fun g r =>
  mk_scheduler (capacity_notifier r) (options r) (unreliable r) (unreliable_bytes r)
    (use_legacy r) (persistent r) (g (next_lane r)).

Record ProbeFallback := mk_probe { probe_sequence : Z; deadline : Z }.

Record Recovery := mk_recovery {
  recovery_opts : RecoveryOptions;
  last_progress : Z;
  sampled_rtt : bool;
  probed : bool;
  probe_packed : bool;
  pending_probe : option ProbeFallback;
  probe_replay : option Z;
}.

#[export] Instance set_recovery_opts : Setter recovery_opts := fun g r =>
  mk_recovery (g (recovery_opts r)) (last_progress r) (sampled_rtt r) (probed r)
    (probe_packed r) (pending_probe r) (probe_replay r).
#[export] Instance set_last_progress : Setter last_progress := fun g r =>
  mk_recovery (recovery_opts r) (g (last_progress r)) (sampled_rtt r) (probed r)
    (probe_packed r) (pending_probe r) (probe_replay r).
#[export] Instance set_sampled_rtt : Setter sampled_rtt := fun g r =>
  mk_recovery (recovery_opts r) (last_progress r) (g (sampled_rtt r)) (probed r)
    (probe_packed r) (pending_probe r) (probe_replay r).
#[export] Instance set_probed : Setter probed := fun g r =>
  mk_recovery (recovery_opts r) (last_progress r) (sampled_rtt r) (g (probed r))
    (probe_packed r) (pending_probe r) (probe_replay r).
#[export] Instance set_probe_packed : Setter probe_packed := fun g r =>
  mk_recovery (recovery_opts r) (last_progress r) (sampled_rtt r) (probed r)
    (g (probe_packed r)) (pending_probe r) (probe_replay r).
#[export] Instance set_pending_probe : Setter pending_probe := fun g r =>
  mk_recovery (recovery_opts r) (last_progress r) (sampled_rtt r) (probed r) (probe_packed r)
    (g (pending_probe r)) (probe_replay r).
#[export] Instance set_probe_replay : Setter probe_replay := fun g r =>
  mk_recovery (recovery_opts r) (last_progress r) (sampled_rtt r) (probed r) (probe_packed r)
    (pending_probe r) (g (probe_replay r)).

Module SendQ.

Record SendQ := mk {
  mtu : Z;
  ack_sequence_number : Z;
  sequence_number : Z;
  reliable_frame_index : Z;
  sequenced_frame_indexes : ChannelIndexes;
  ordered_frame_indexes : ChannelIndexes;
  compound_id : Z;
  packets : list FrameSetPacket;
  queued_unreliable : Z;
  buffered_bytes : Z;
  rto : Z;
  srtt : Z;
  recovery : option Recovery;
  sent_packet : list Sent;
  flight_order_dirty : bool;
  next_retry : Z;
  retries_pending : bool;
  coalesce : bool;
  coalescing_allowed : bool;
  grouped_acks : bool;
  scheduler : option SendScheduler;
  (* the allocations the fragments share, and the next free key *)
  shared : gmap Z SharedPayload;
  next_shared : Z;
}.

#[export] Instance set_mtu : Setter mtu := fun g r =>
  mk (g (mtu r)) (ack_sequence_number r) (sequence_number r) (reliable_frame_index r)
    (sequenced_frame_indexes r) (ordered_frame_indexes r) (compound_id r) (packets r)
    (queued_unreliable r) (buffered_bytes r) (rto r) (srtt r) (recovery r) (sent_packet r)
    (flight_order_dirty r) (next_retry r) (retries_pending r) (coalesce r)
    (coalescing_allowed r) (grouped_acks r) (scheduler r) (shared r) (next_shared r).
#[export] Instance set_ack_sequence_number : Setter ack_sequence_number := fun g r =>
  mk (mtu r) (g (ack_sequence_number r)) (sequence_number r) (reliable_frame_index r)
    (sequenced_frame_indexes r) (ordered_frame_indexes r) (compound_id r) (packets r)
    (queued_unreliable r) (buffered_bytes r) (rto r) (srtt r) (recovery r) (sent_packet r)
    (flight_order_dirty r) (next_retry r) (retries_pending r) (coalesce r)
    (coalescing_allowed r) (grouped_acks r) (scheduler r) (shared r) (next_shared r).
#[export] Instance set_sequence_number : Setter sequence_number := fun g r =>
  mk (mtu r) (ack_sequence_number r) (g (sequence_number r)) (reliable_frame_index r)
    (sequenced_frame_indexes r) (ordered_frame_indexes r) (compound_id r) (packets r)
    (queued_unreliable r) (buffered_bytes r) (rto r) (srtt r) (recovery r) (sent_packet r)
    (flight_order_dirty r) (next_retry r) (retries_pending r) (coalesce r)
    (coalescing_allowed r) (grouped_acks r) (scheduler r) (shared r) (next_shared r).
#[export] Instance set_reliable_frame_index : Setter reliable_frame_index := fun g r =>
  mk (mtu r) (ack_sequence_number r) (sequence_number r) (g (reliable_frame_index r))
    (sequenced_frame_indexes r) (ordered_frame_indexes r) (compound_id r) (packets r)
    (queued_unreliable r) (buffered_bytes r) (rto r) (srtt r) (recovery r) (sent_packet r)
    (flight_order_dirty r) (next_retry r) (retries_pending r) (coalesce r)
    (coalescing_allowed r) (grouped_acks r) (scheduler r) (shared r) (next_shared r).
#[export] Instance set_sequenced_frame_indexes : Setter sequenced_frame_indexes := fun g r =>
  mk (mtu r) (ack_sequence_number r) (sequence_number r) (reliable_frame_index r)
    (g (sequenced_frame_indexes r)) (ordered_frame_indexes r) (compound_id r) (packets r)
    (queued_unreliable r) (buffered_bytes r) (rto r) (srtt r) (recovery r) (sent_packet r)
    (flight_order_dirty r) (next_retry r) (retries_pending r) (coalesce r)
    (coalescing_allowed r) (grouped_acks r) (scheduler r) (shared r) (next_shared r).
#[export] Instance set_ordered_frame_indexes : Setter ordered_frame_indexes := fun g r =>
  mk (mtu r) (ack_sequence_number r) (sequence_number r) (reliable_frame_index r)
    (sequenced_frame_indexes r) (g (ordered_frame_indexes r)) (compound_id r) (packets r)
    (queued_unreliable r) (buffered_bytes r) (rto r) (srtt r) (recovery r) (sent_packet r)
    (flight_order_dirty r) (next_retry r) (retries_pending r) (coalesce r)
    (coalescing_allowed r) (grouped_acks r) (scheduler r) (shared r) (next_shared r).
#[export] Instance set_compound_id : Setter compound_id := fun g r =>
  mk (mtu r) (ack_sequence_number r) (sequence_number r) (reliable_frame_index r)
    (sequenced_frame_indexes r) (ordered_frame_indexes r) (g (compound_id r)) (packets r)
    (queued_unreliable r) (buffered_bytes r) (rto r) (srtt r) (recovery r) (sent_packet r)
    (flight_order_dirty r) (next_retry r) (retries_pending r) (coalesce r)
    (coalescing_allowed r) (grouped_acks r) (scheduler r) (shared r) (next_shared r).
#[export] Instance set_packets : Setter packets := fun g r =>
  mk (mtu r) (ack_sequence_number r) (sequence_number r) (reliable_frame_index r)
    (sequenced_frame_indexes r) (ordered_frame_indexes r) (compound_id r) (g (packets r))
    (queued_unreliable r) (buffered_bytes r) (rto r) (srtt r) (recovery r) (sent_packet r)
    (flight_order_dirty r) (next_retry r) (retries_pending r) (coalesce r)
    (coalescing_allowed r) (grouped_acks r) (scheduler r) (shared r) (next_shared r).
#[export] Instance set_queued_unreliable : Setter queued_unreliable := fun g r =>
  mk (mtu r) (ack_sequence_number r) (sequence_number r) (reliable_frame_index r)
    (sequenced_frame_indexes r) (ordered_frame_indexes r) (compound_id r) (packets r)
    (g (queued_unreliable r)) (buffered_bytes r) (rto r) (srtt r) (recovery r) (sent_packet r)
    (flight_order_dirty r) (next_retry r) (retries_pending r) (coalesce r)
    (coalescing_allowed r) (grouped_acks r) (scheduler r) (shared r) (next_shared r).
#[export] Instance set_buffered_bytes : Setter buffered_bytes := fun g r =>
  mk (mtu r) (ack_sequence_number r) (sequence_number r) (reliable_frame_index r)
    (sequenced_frame_indexes r) (ordered_frame_indexes r) (compound_id r) (packets r)
    (queued_unreliable r) (g (buffered_bytes r)) (rto r) (srtt r) (recovery r) (sent_packet r)
    (flight_order_dirty r) (next_retry r) (retries_pending r) (coalesce r)
    (coalescing_allowed r) (grouped_acks r) (scheduler r) (shared r) (next_shared r).
#[export] Instance set_rto : Setter rto := fun g r =>
  mk (mtu r) (ack_sequence_number r) (sequence_number r) (reliable_frame_index r)
    (sequenced_frame_indexes r) (ordered_frame_indexes r) (compound_id r) (packets r)
    (queued_unreliable r) (buffered_bytes r) (g (rto r)) (srtt r) (recovery r) (sent_packet r)
    (flight_order_dirty r) (next_retry r) (retries_pending r) (coalesce r)
    (coalescing_allowed r) (grouped_acks r) (scheduler r) (shared r) (next_shared r).
#[export] Instance set_srtt : Setter srtt := fun g r =>
  mk (mtu r) (ack_sequence_number r) (sequence_number r) (reliable_frame_index r)
    (sequenced_frame_indexes r) (ordered_frame_indexes r) (compound_id r) (packets r)
    (queued_unreliable r) (buffered_bytes r) (rto r) (g (srtt r)) (recovery r) (sent_packet r)
    (flight_order_dirty r) (next_retry r) (retries_pending r) (coalesce r)
    (coalescing_allowed r) (grouped_acks r) (scheduler r) (shared r) (next_shared r).
#[export] Instance set_recovery : Setter recovery := fun g r =>
  mk (mtu r) (ack_sequence_number r) (sequence_number r) (reliable_frame_index r)
    (sequenced_frame_indexes r) (ordered_frame_indexes r) (compound_id r) (packets r)
    (queued_unreliable r) (buffered_bytes r) (rto r) (srtt r) (g (recovery r)) (sent_packet r)
    (flight_order_dirty r) (next_retry r) (retries_pending r) (coalesce r)
    (coalescing_allowed r) (grouped_acks r) (scheduler r) (shared r) (next_shared r).
#[export] Instance set_sent_packet : Setter sent_packet := fun g r =>
  mk (mtu r) (ack_sequence_number r) (sequence_number r) (reliable_frame_index r)
    (sequenced_frame_indexes r) (ordered_frame_indexes r) (compound_id r) (packets r)
    (queued_unreliable r) (buffered_bytes r) (rto r) (srtt r) (recovery r) (g (sent_packet r))
    (flight_order_dirty r) (next_retry r) (retries_pending r) (coalesce r)
    (coalescing_allowed r) (grouped_acks r) (scheduler r) (shared r) (next_shared r).
#[export] Instance set_flight_order_dirty : Setter flight_order_dirty := fun g r =>
  mk (mtu r) (ack_sequence_number r) (sequence_number r) (reliable_frame_index r)
    (sequenced_frame_indexes r) (ordered_frame_indexes r) (compound_id r) (packets r)
    (queued_unreliable r) (buffered_bytes r) (rto r) (srtt r) (recovery r) (sent_packet r)
    (g (flight_order_dirty r)) (next_retry r) (retries_pending r) (coalesce r)
    (coalescing_allowed r) (grouped_acks r) (scheduler r) (shared r) (next_shared r).
#[export] Instance set_next_retry : Setter next_retry := fun g r =>
  mk (mtu r) (ack_sequence_number r) (sequence_number r) (reliable_frame_index r)
    (sequenced_frame_indexes r) (ordered_frame_indexes r) (compound_id r) (packets r)
    (queued_unreliable r) (buffered_bytes r) (rto r) (srtt r) (recovery r) (sent_packet r)
    (flight_order_dirty r) (g (next_retry r)) (retries_pending r) (coalesce r)
    (coalescing_allowed r) (grouped_acks r) (scheduler r) (shared r) (next_shared r).
#[export] Instance set_retries_pending : Setter retries_pending := fun g r =>
  mk (mtu r) (ack_sequence_number r) (sequence_number r) (reliable_frame_index r)
    (sequenced_frame_indexes r) (ordered_frame_indexes r) (compound_id r) (packets r)
    (queued_unreliable r) (buffered_bytes r) (rto r) (srtt r) (recovery r) (sent_packet r)
    (flight_order_dirty r) (next_retry r) (g (retries_pending r)) (coalesce r)
    (coalescing_allowed r) (grouped_acks r) (scheduler r) (shared r) (next_shared r).
#[export] Instance set_coalesce : Setter coalesce := fun g r =>
  mk (mtu r) (ack_sequence_number r) (sequence_number r) (reliable_frame_index r)
    (sequenced_frame_indexes r) (ordered_frame_indexes r) (compound_id r) (packets r)
    (queued_unreliable r) (buffered_bytes r) (rto r) (srtt r) (recovery r) (sent_packet r)
    (flight_order_dirty r) (next_retry r) (retries_pending r) (g (coalesce r))
    (coalescing_allowed r) (grouped_acks r) (scheduler r) (shared r) (next_shared r).
#[export] Instance set_coalescing_allowed : Setter coalescing_allowed := fun g r =>
  mk (mtu r) (ack_sequence_number r) (sequence_number r) (reliable_frame_index r)
    (sequenced_frame_indexes r) (ordered_frame_indexes r) (compound_id r) (packets r)
    (queued_unreliable r) (buffered_bytes r) (rto r) (srtt r) (recovery r) (sent_packet r)
    (flight_order_dirty r) (next_retry r) (retries_pending r) (coalesce r)
    (g (coalescing_allowed r)) (grouped_acks r) (scheduler r) (shared r) (next_shared r).
#[export] Instance set_grouped_acks : Setter grouped_acks := fun g r =>
  mk (mtu r) (ack_sequence_number r) (sequence_number r) (reliable_frame_index r)
    (sequenced_frame_indexes r) (ordered_frame_indexes r) (compound_id r) (packets r)
    (queued_unreliable r) (buffered_bytes r) (rto r) (srtt r) (recovery r) (sent_packet r)
    (flight_order_dirty r) (next_retry r) (retries_pending r) (coalesce r)
    (coalescing_allowed r) (g (grouped_acks r)) (scheduler r) (shared r) (next_shared r).
#[export] Instance set_scheduler : Setter scheduler := fun g r =>
  mk (mtu r) (ack_sequence_number r) (sequence_number r) (reliable_frame_index r)
    (sequenced_frame_indexes r) (ordered_frame_indexes r) (compound_id r) (packets r)
    (queued_unreliable r) (buffered_bytes r) (rto r) (srtt r) (recovery r) (sent_packet r)
    (flight_order_dirty r) (next_retry r) (retries_pending r) (coalesce r)
    (coalescing_allowed r) (grouped_acks r) (g (scheduler r)) (shared r) (next_shared r).
#[export] Instance set_shared : Setter shared := fun g r =>
  mk (mtu r) (ack_sequence_number r) (sequence_number r) (reliable_frame_index r)
    (sequenced_frame_indexes r) (ordered_frame_indexes r) (compound_id r) (packets r)
    (queued_unreliable r) (buffered_bytes r) (rto r) (srtt r) (recovery r) (sent_packet r)
    (flight_order_dirty r) (next_retry r) (retries_pending r) (coalesce r)
    (coalescing_allowed r) (grouped_acks r) (scheduler r) (g (shared r)) (next_shared r).
#[export] Instance set_next_shared : Setter next_shared := fun g r =>
  mk (mtu r) (ack_sequence_number r) (sequence_number r) (reliable_frame_index r)
    (sequenced_frame_indexes r) (ordered_frame_indexes r) (compound_id r) (packets r)
    (queued_unreliable r) (buffered_bytes r) (rto r) (srtt r) (recovery r) (sent_packet r)
    (flight_order_dirty r) (next_retry r) (retries_pending r) (coalesce r)
    (coalescing_allowed r) (grouped_acks r) (scheduler r) (shared r) (g (next_shared r)).

Definition DEFAULT_TIMEOUT_MILLS : Z := 50.
Definition MAX_IN_FLIGHT_PACKETS : Z := 64.
Definition MAX_COALESCED_FRAMES : Z := 8.
Definition MAX_BUFFERED_BYTES : Z := 64 * 1024 * 1024.
Definition SEND_HIGH_WATER : Z := 256 * 1024.
Definition FRAME_BUDGET : Z := 128.
Definition RTO_UBOUND : Z := 12000.
Definition RTO_LBOUND : Z := 50.

Definition new (mtu : Z) : SendQ :=
  mk mtu MASK 0 0 ChannelIndexes.default ChannelIndexes.default 0 [] 0 0
    DEFAULT_TIMEOUT_MILLS DEFAULT_TIMEOUT_MILLS None [] false I64_MAX false false true false
    None ∅ 0.

(** ** Recovery *)

Definition active_probe (self : SendQ) : option ProbeFallback :=
  recovery ← recovery self;
  probe ← pending_probe recovery;
  if anyb (fun packet => (Frame.sequence_number (frame packet) =? probe_sequence probe)
             && (retries packet =? 0) && negb (Nat.eqb (length (aliases packet)) 0))
       (sent_packet self)
  then Some probe else None.

Definition set_recovery_options (options : RecoveryOptions) (now : Z) (self : SendQ) : SendQ :=
  let sampled := match recovery self with Some r => sampled_rtt r | None => false end in
  let pending := active_probe self in
  let replay := match recovery self with Some r => probe_replay r | None => None end in
  let has_probe := match pending with Some _ => true | None => false end in
  self <| recovery :=
    if negb (bool_decide (options = default_recovery_options)) || has_probe
    then Some (mk_recovery options now sampled has_probe false pending replay)
    else None |>.

Definition recovery_options (self : SendQ) : RecoveryOptions :=
  match recovery self with Some r => recovery_opts r | None => default_recovery_options end.

Definition acknowledge_progress (now : Z) (sampled : bool) (self : SendQ) : SendQ :=
  match recovery self with
  | None => self
  | Some recovery =>
      let stale := match pending_probe recovery with
        | Some probe =>
            negb (anyb (fun packet =>
              (Frame.sequence_number (frame packet) =? probe_sequence probe)
              && (retries packet =? 0) && negb (Nat.eqb (length (aliases packet)) 0))
              (sent_packet self))
        | None => false
        end in
      let recovery := if stale then recovery <| pending_probe := None |> else recovery in
      let recovery := recovery <| sampled_rtt := sampled_rtt recovery || sampled |>
                               <| last_progress := now |> <| probed := false |> in
      let self := self <| SendQ.recovery := Some recovery |> in
      if reset_backoff_on_progress (recovery_opts recovery) && sampled then
        self <| sent_packet := map (fun packet => packet <| retries := Z.min (retries packet) 1 |>)
                                 (sent_packet self) |>
             <| next_retry := 0 |>
      else self
  end.

(** [frame._size().unwrap()]; every queued frame has a size. *)
Definition size_of (f : FrameSetPacket) : Z := match _size f with Ok n => n | Err _ => 0 end.

(** [Duration::as_millis], then [i64::try_from(...).unwrap_or(i64::MAX)]. *)
Definition as_millis_i64 (nanos : Z) : Z := Z.min I64_MAX (nanos / 10 ^ 6).

Definition probe_deadline `{!Features} (self : SendQ) : Z :=
  match recovery self with
  | None => I64_MAX
  | Some recovery =>
      match tail_probe_min_delay (recovery_opts recovery) with
      | None => I64_MAX
      | Some minimum =>
          if negb (sampled_rtt recovery) || probed recovery then I64_MAX
          else match sent_packet self with
          | [] => I64_MAX
          | first :: _ =>
              if negb (Nat.eqb (length (packets self)) 0)
                 || (MAX_COALESCED_FRAMES <? zlen (sent_packet self))
              then I64_MAX
              else
                let sequence := Frame.sequence_number (frame first) in
                if anyb (fun p => negb (sent p) || negb (retries p =? 0)
                           || negb (Nat.eqb (length (aliases p)) 0)
                           || negb (Frame.sequence_number (frame p) =? sequence))
                     (sent_packet self)
                then I64_MAX
                else if send_policy && match scheduler self with
                     | Some s =>
                         negb (Nat.eqb (length (unreliable s)) 0)
                         || (SendOptions.flush_bytes (options s)
                             <? sumZ (fun p => size_of (frame p)) (sent_packet self))
                     | None => false
                     end
                then I64_MAX
                else
                  let minimum := Z.max (as_millis_i64 minimum) 1 in
                  sat_i64 (last_progress recovery
                    + Z.max minimum (Z.quot (sat_i64 (sat_i64 (srtt self * 3) + 1)) 2))
          end
      end
  end.

Definition probe_retry_deadline (self : SendQ) : Z :=
  match active_probe self with Some probe => deadline probe | None => I64_MAX end.

Definition recovery_deadline `{!Features} (self : SendQ) : Z :=
  match sent_packet self with
  | [] => I64_MAX
  | _ => Z.min (Z.min (next_retry self) (probe_deadline self)) (probe_retry_deadline self)
  end.

(** [for _ in 0..retries.min(32)]. The product [timeout as f64 * 1.5] is exact for the
    timeouts that occur (at most [RTO_UBOUND]), and the cast truncates. *)
Fixpoint back_off (steps : nat) (timeout : Z) : Z :=
  match steps with
  | O => timeout
  | S steps => back_off steps (Z.min (Z.quot (timeout * 3) 2) RTO_UBOUND)
  end.

Definition retry_timeout (rto retries : Z) : Z := back_off (Z.to_nat (Z.min retries 32)) rto.

(** [if aliases.len() == 64 { aliases.remove(0) }; aliases.push(previous)] *)
Definition push_alias (previous : Z) (aliases : list Z) : list Z :=
  (if Nat.eqb (length aliases) 64 then drop 1 aliases else aliases) ++ [previous].

Definition probe_tail `{!Features} (now : Z) (self : SendQ) : SendQ :=
  let probe_at := probe_deadline self in
  if (probe_at =? I64_MAX) || (now <? probe_at) || (next_retry self <=? now) then self
  else match sent_packet self, recovery self with
  | first :: _, Some recovery =>
      let fallback := sat_i64 (sent_at first + retry_timeout (rto self) (retries first)) in
      let previous := Frame.sequence_number (frame first) in
      let sequence := sequence_number self in
      let self := self <| sequence_number := next sequence |> in
      let self := self <| sent_packet := map (fun packet =>
        packet <| frame := frame packet <| Frame.sequence_number := sequence |> |>
               <| sent := false |> <| aliases := push_alias previous (aliases packet) |>)
        (sent_packet self) |> in
      let packed := 1 <? zlen (sent_packet self) in
      self <| SendQ.recovery := Some (recovery <| probed := true |>
                 <| probe_replay := Some sequence |>
                 <| pending_probe := Some (mk_probe sequence fallback) |>
                 <| probe_packed := packed |>) |>
           <| grouped_acks := grouped_acks self || packed |>
           <| flight_order_dirty := true |> <| retries_pending := true |>
  | _, _ => self
  end.

Definition take_probe_replay (self : SendQ) : option Z * SendQ :=
  match recovery self with
  | Some r => (probe_replay r, self <| recovery := Some (r <| probe_replay := None |>) |>)
  | None => (None, self)
  end.

Definition take_probe_packing (self : SendQ) : bool * SendQ :=
  match recovery self with
  | Some r => (probe_packed r, self <| recovery := Some (r <| probe_packed := false |>) |>)
  | None => (false, self)
  end.

(** ** Admission *)

(** [usize::from(self.mtu).checked_sub(60).filter(|n| *n > 0)]. *)
Definition payload_limit (self : SendQ) : Result Z :=
  ok_or (if 60 <? mtu self then Some (mtu self - 60) else None) PacketSizeExceedMTU.

Definition required_bytes (self : SendQ) (r : Reliability) (len : Z) : Result Z :=
  payload ← payload_limit self;
  frames ← (if bool_decide (r = Reliability.ReliableOrdered) && (payload <? len) then
              let frames := div_ceil len payload in
              if MAX_FRAGMENTS <? frames then Err PacketSizeExceedMTU else Ok frames
            else Ok 1);
  (* [checked_mul] and [checked_add] cannot overflow below the filter's limit *)
  let bytes := frames * FRAME_BUDGET + len in
  if bytes <=? MAX_BUFFERED_BYTES then Ok bytes else Err PacketSizeExceedMTU.

Definition send_options (self : SendQ) : option SendOptions :=
  match scheduler self with Some s => Some (options s) | None => None end.

Definition is_unreliable (r : Reliability) : bool :=
  match r with
  | Reliability.Unreliable | Reliability.UnreliableSequenced => true
  | _ => false
  end.

Definition has_reserved_capacity (self : SendQ) (r : Reliability) (required : Z) : Result bool :=
  match scheduler self with
  | None => Ok (sat_usize (buffered_bytes self + required) <=? Z.max SEND_HIGH_WATER required)
  | Some s =>
      let unreliable := is_unreliable r in
      if negb unreliable
         && ((unreliable_bytes s =? 0)
             && (required <=? SendOptions.reliable_queue_bytes (options s)))
      then Ok (sat_usize (buffered_bytes self + required)
               <=? SendOptions.reliable_queue_bytes (options s))
      else
        let options := options s in
        let used_unreliable := unreliable_bytes s in
        '(used, limit) ←
          (if unreliable then
             if SendOptions.unreliable_queue_bytes options <? required
             then Err PacketSizeExceedMTU
             else Ok (used_unreliable, SendOptions.unreliable_queue_bytes options)
           else
             let hard_limit := MAX_BUFFERED_BYTES - SendOptions.unreliable_queue_bytes options in
             if hard_limit <? required then Err PacketSizeExceedMTU
             else Ok (usize_sub (buffered_bytes self) used_unreliable,
                      Z.min (Z.max (SendOptions.reliable_queue_bytes options) required) hard_limit));
        Ok ((sat_usize (used + required) <=? limit)
            && (sat_usize (buffered_bytes self + required) <=? MAX_BUFFERED_BYTES))
  end.

Definition has_capacity `{!Features} (self : SendQ) (r : Reliability) (len : Z) : Result bool :=
  required ← required_bytes self r len;
  if send_policy then has_reserved_capacity self r required
  else Ok (sat_usize (buffered_bytes self + required) <=? Z.max SEND_HIGH_WATER required).

Definition enable_coalescing (self : SendQ) : SendQ :=
  self <| coalesce := coalescing_allowed self |>.

Definition allows_coalescing (self : SendQ) : bool := coalescing_allowed self.

(** [try_fold] over the lengths of a batch. *)
Fixpoint batch_required (self : SendQ) (r : Reliability) (lengths : list Z) (total : Z) : Result Z :=
  match lengths with
  | [] => Ok total
  | length :: lengths =>
      n ← required_bytes self r length;
      let total := total + n in
      if total <=? MAX_BUFFERED_BYTES then batch_required self r lengths total
      else Err PacketSizeExceedMTU
  end.

Definition has_batch_required_capacity (self : SendQ) (r : Reliability) (required : Z) : Result bool :=
  if is_unreliable r
     && match send_options self with
        | Some options => SendOptions.unreliable_queue_bytes options <? required
        | None => false
        end
  then Ok false
  else has_reserved_capacity self r required.

Definition has_batch_capacity `{!Features} (self : SendQ) (r : Reliability) (lengths : list Z)
    : Result bool :=
  required ← batch_required self r lengths 0;
  if send_policy then has_batch_required_capacity self r required
  else Ok (sat_usize (buffered_bytes self + required) <=? Z.max SEND_HIGH_WATER required).

(** The single pass of [batch_can_coalesce]: the bytes required, and whether two
    neighbouring messages fit in one datagram. *)
Fixpoint coalesce_pass (self : SendQ) (r : Reliability) (allowed : bool) (lengths : list Z)
    (previous : option Z) (packable : bool) (total : Z) : Result (Z * bool) :=
  match lengths with
  | [] => Ok (total, packable)
  | length :: lengths =>
      let max_payload := sat_usize (mtu self - 60) in
      let datagram_budget := sat_usize (mtu self - 28) in
      if negb (bool_decide (r = Reliability.ReliableOrdered)) && (max_payload <? length)
      then Err PacketSizeExceedMTU
      else
        let packable :=
          if allowed && negb packable && (length <=? max_payload) then
            match previous with
            | Some last =>
                (last <=? max_payload)
                && (sat_usize (sat_usize (last + length) + 24) <=? datagram_budget)
            | None => false
            end
          else packable in
        n ← required_bytes self r length;
        let total := total + n in
        if total <=? MAX_BUFFERED_BYTES
        then coalesce_pass self r allowed lengths (Some length) packable total
        else Err PacketSizeExceedMTU
  end.

Definition batch_can_coalesce `{!Features} (self : SendQ) (r : Reliability) (lengths : list Z)
    : Result bool :=
  let ordered := bool_decide (r = Reliability.ReliableOrdered) in
  let allowed := allows_coalescing self && ordered in
  if ordered && negb allowed then
    _ ← has_batch_capacity self r lengths; Ok false
  else
    '(required, packable) ← coalesce_pass self r allowed lengths None false 0;
    _ ← has_batch_required_capacity self r required;
    Ok (allowed && packable).

(** ** The scheduler's queues *)

(** [for _ in 0..self.packets.len()]: unreliable frames leave the queue, reliable ones
    rotate through it. *)
Fixpoint split_unreliable (count : nat) (packets unreliable : list FrameSetPacket) (bytes : Z)
    : list FrameSetPacket * list FrameSetPacket * Z :=
  match count, packets with
  | S count, frame :: packets =>
      if match is_reliable frame with Ok b => b | Err _ => false end
      then split_unreliable count (packets ++ [frame]) unreliable bytes
      else split_unreliable count packets (unreliable ++ [frame]) (bytes + (data_len frame + FRAME_BUDGET))
  | _, _ => (packets, unreliable, bytes)
  end.

Definition ensure_scheduler (self : SendQ) : SendQ :=
  match scheduler self with
  | Some _ => self
  | None =>
      let '(packets, unreliable, bytes) :=
        split_unreliable (length (packets self)) (packets self) [] 0 in
      self <| SendQ.packets := packets |> <| queued_unreliable := 0 |>
           <| scheduler := Some (mk_scheduler None SendOptions.default unreliable bytes
                (mtu self * MAX_IN_FLIGHT_PACKETS
                   <=? SendOptions.flush_bytes SendOptions.default) true 2) |>
  end.

Definition push_unreliable (frame : FrameSetPacket) (self : SendQ) : SendQ :=
  match scheduler self with
  | Some s =>
      self <| scheduler := Some (s <| unreliable_bytes :=
                                        unreliable_bytes s + (data_len frame + FRAME_BUDGET) |>
                                   <| unreliable := unreliable s ++ [frame] |>) |>
  | None =>
      let frame := frame <| Frame.sequence_number := sequence_number self |> in
      self <| sequence_number := next (sequence_number self) |>
           <| queued_unreliable := queued_unreliable self + 1 |>
           <| packets := packets self ++ [frame] |>
  end.

Definition set_send_options (opts : SendOptions) : SE SendQ unit := fun self =>
  let mtu := mtu self in
  if (SendOptions.in_flight_bytes opts <? mtu) || (SendOptions.flush_bytes opts <? mtu)
     || (SendOptions.unreliable_queue_bytes opts <? mtu)
  then (Err PacketSizeExceedMTU, self)
  else
    let self := ensure_scheduler self in
    let defaults := SendOptions.default in
    (Ok tt,
     match scheduler self with
     | Some s =>
         self <| scheduler := Some (s <| options := opts |> <| persistent := true |>
           <| use_legacy :=
                (SendOptions.in_flight_frames opts =? SendOptions.in_flight_frames defaults)
                && (SendOptions.in_flight_bytes opts =? SendOptions.in_flight_bytes defaults)
                && (SendOptions.flush_bytes opts =? SendOptions.flush_bytes defaults)
                && (mtu * MAX_IN_FLIGHT_PACKETS <=? SendOptions.flush_bytes opts) |>) |>
     | None => self
     end).

(** Binding the handle; binding it again changes nothing. *)
Definition register_capacity_notifier (self : SendQ) : SendQ :=
  match scheduler self with
  | None => self
  | Some s =>
      match capacity_notifier s with
      | Some _ => self
      | None => self <| scheduler := Some (s <| capacity_notifier := Some 0 |>) |>
      end
  end.

(** ** Insertion *)

(** [slice::chunks]. The fuel is the length of the slice. *)
Fixpoint chunks_from (fuel : nat) (n : nat) (l : list Z) : list (list Z) :=
  match fuel, l with
  | S fuel, _ :: _ => take n l :: chunks_from fuel n (drop n l)
  | _, _ => []
  end.
Definition chunks (n : Z) (l : list Z) : list (list Z) := chunks_from (length l) (Z.to_nat n) l.

(** [owned] tells [insert_bytes], which shares the caller's [Bytes], from [insert]. *)
Definition unreliable_payload (owned : bool) (buf : list Z) : FramePayload :=
  if owned then FramePayload.Bytes buf else FramePayload.Owned buf.
Definition reliable_payload (owned : bool) (buf : list Z) : FramePayload :=
  if owned then FramePayload.Bytes buf else FramePayload.copy_shared buf.

(** The current index of the channel, which then advances. *)
Definition take_index (indexes : ChannelIndexes) (channel : Z) : Z * ChannelIndexes :=
  let '(current, indexes) := ChannelIndexes.get_mut indexes channel in
  (current, ChannelIndexes.store indexes channel (next current)).

Definition push_reliable (frame : FrameSetPacket) (self : SendQ) : SendQ :=
  self <| packets := packets self ++ [frame <| Frame.reliable_frame_index := reliable_frame_index self |>] |>
       <| reliable_frame_index := next (reliable_frame_index self) |>.

(** One fragment of a message, and the loop over the chunks. *)
Definition fragment_frame (buf : list Z) (owned : bool) (max_payload compound_size key channel order id : Z)
    (fragment_index : Z) (chunk : list Z) : FrameSetPacket :=
  let start := fragment_index * max_payload in
  let payload := if owned
    then FramePayload.Bytes (take (length chunk) (drop (Z.to_nat start) buf))
    else FramePayload.Shared buf (wrap 32 start) (wrap 16 (zlen chunk)) in
  let frame := from_payload Reliability.ReliableOrdered payload in
  frame <| shared_payload := Some key |> <| flags := Z.lor (flags frame) 16 |>
        <| Frame.compound_size := compound_size |> <| Frame.compound_id := id |>
        <| Frame.fragment_index := wrap 32 fragment_index |> <| order_channel := channel |>
        <| ordered_frame_index := order |>.

Fixpoint push_fragments (make : Z -> list Z -> FrameSetPacket) (index : Z) (l : list (list Z))
    (self : SendQ) : SendQ :=
  match l with
  | [] => self
  | chunk :: l => push_fragments make (index + 1) l (push_reliable (make index chunk) self)
  end.

Definition insert_payload `{!Features} (r : Reliability) (buf : list Z) (channel : Z) (owned : bool)
    : SE SendQ unit :=
  self ← get;
  reserved ← lift (required_bytes self r (zlen buf));
  _ ← fail_if (usize_sub MAX_BUFFERED_BYTES (buffered_bytes self) <? reserved) PacketSizeExceedMTU;
  max_payload ← lift (payload_limit self);
  let too_long := max_payload <? zlen buf in
  let queue_unreliable (frame : FrameSetPacket) (self : SendQ) :=
    if send_policy then push_unreliable frame self
    else self <| packets := packets self ++ [frame] |> in
  _ ← match r with
      | Reliability.Unreliable =>
          _ ← fail_if too_long PacketSizeExceedMTU;
          modify (queue_unreliable (from_payload r (unreliable_payload owned buf)))
      | Reliability.UnreliableSequenced =>
          _ ← fail_if too_long PacketSizeExceedMTU;
          modify (fun self =>
            let '(current, indexes) := take_index (sequenced_frame_indexes self) channel in
            let self := self <| sequenced_frame_indexes := indexes |> in
            let frame := from_payload r (unreliable_payload owned buf)
              <| order_channel := channel |>
              <| ordered_frame_index := ChannelIndexes.get (ordered_frame_indexes self) channel |>
              <| sequenced_frame_index := current |> in
            queue_unreliable frame self)
      | Reliability.Reliable =>
          _ ← fail_if too_long PacketSizeExceedMTU;
          modify (push_reliable (from_payload r (reliable_payload owned buf)))
      | Reliability.ReliableOrdered =>
          modify (fun self =>
            let '(order, indexes) := ChannelIndexes.get_mut (ordered_frame_indexes self) channel in
            let self := self <| ordered_frame_indexes := indexes |> in
            let self :=
              if negb too_long then
                push_reliable (from_payload r (reliable_payload owned buf)
                                 <| order_channel := channel |> <| ordered_frame_index := order |>) self
              else
                let compound_size := div_ceil (zlen buf) max_payload in
                let key := next_shared self in
                let self := self <| shared := <[key := mk_shared compound_size (zlen buf)]> (shared self) |>
                                 <| next_shared := key + 1 |> in
                let make := fragment_frame buf owned max_payload compound_size key channel order
                              (compound_id self) in
                let self := push_fragments make 0 (chunks max_payload buf) self in
                self <| compound_id := wrap 16 (compound_id self + 1) |> in
            self <| ordered_frame_indexes :=
                      ChannelIndexes.store (ordered_frame_indexes self) channel (next order) |>)
      | Reliability.ReliableSequenced =>
          _ ← fail_if too_long PacketSizeExceedMTU;
          modify (fun self =>
            let '(current, indexes) := take_index (sequenced_frame_indexes self) channel in
            let self := self <| sequenced_frame_indexes := indexes |> in
            push_reliable (from_payload r (reliable_payload owned buf)
              <| order_channel := channel |> <| sequenced_frame_index := current |>
              <| ordered_frame_index := ChannelIndexes.get (ordered_frame_indexes self) channel |>) self)
      end;
  _ ← modify (fun self => self <| buffered_bytes := buffered_bytes self + reserved |>);
  if negb send_policy && is_unreliable r
  then modify (fun self => self <| queued_unreliable := queued_unreliable self + 1 |>)
  else mret tt.

Definition insert_with_order_channel `{!Features} (r : Reliability) (buf : list Z) (channel : Z) :=
  insert_payload r buf channel false.
Definition insert `{!Features} (r : Reliability) (buf : list Z) := insert_with_order_channel r buf 0.
Definition insert_bytes `{!Features} (r : Reliability) (data : list Z) (channel : Z) :=
  insert_payload r data channel true.

(** ** Round-trip times *)

Definition clamp (lo hi v : Z) : Z := Z.max lo (Z.min hi v).

Definition latency_sample (srtt rtt : Z) : Z * Z :=
  let srtt := Z.quot (srtt * 4 + rtt) 5 in
  (srtt, clamp RTO_LBOUND RTO_UBOUND (Z.quot (srtt * 3) 2)).

Definition update_rto (rtt : Z) (self : SendQ) : SendQ :=
  let previous := rto self in
  let '(srtt', rto') := latency_sample (srtt self) rtt in
  let self := self <| srtt := srtt' |> <| rto := rto' |> in
  if negb (rto self =? previous) then self <| next_retry := 0 |> else self.

Definition get_rto (self : SendQ) : Z := rto self.

(** ** Loss *)

(** A loop over [sent_packet] whose body changes the item and the rest of the queue. *)
Fixpoint for_items (body : Sent -> SendQ -> Sent * SendQ) (items : list Sent) (self : SendQ)
    : list Sent * SendQ :=
  match items with
  | [] => ([], self)
  | item :: items =>
      let '(item, self) := body item self in
      let '(items, self) := for_items body items self in
      (item :: items, self)
  end.

Definition each_sent (body : Sent -> SendQ -> Sent * SendQ) (self : SendQ) : SendQ :=
  let '(items, self) := for_items body (sent_packet self) self in
  self <| sent_packet := items |>.

(** What [nack] and [tick] do to a lost frame: a new sequence number, the old one kept as
    an alias, and the frame waits to be sent again. *)
Definition resequence (item : Sent) (self : SendQ) : Sent * SendQ :=
  let previous := Frame.sequence_number (frame item) in
  (item <| frame := frame item <| Frame.sequence_number := sequence_number self |> |>
        <| sent := false |> <| aliases := push_alias previous (aliases item) |>,
   self <| coalescing_allowed := false |> <| coalesce := false |>
        <| flight_order_dirty := true |> <| sequence_number := next (sequence_number self) |>
        <| retries_pending := true |>).

Definition nack_item (sequence tick : Z) (item : Sent) (self : SendQ) : Sent * SendQ :=
  if sent item && (Frame.sequence_number (frame item) =? sequence) then
    let '(item, self) := resequence item self in (item <| sent_at := tick |>, self)
  else (item, self).

Definition nack (sequence tick : Z) (self : SendQ) : SendQ := each_sent (nack_item sequence tick) self.

(** [for id in missing { self.nack(id, tick) }] *)
Definition nack_all (missing : list Z) (tick : Z) (self : SendQ) : SendQ :=
  foldl (fun self id => nack id tick self) self missing.

Definition in_rangesb (ranges : list (Z * Z)) (id : Z) : bool :=
  anyb (fun r => (r.1 <=? id) && (id <=? r.2)) ranges.

Definition nack_ranges (ranges : list (Z * Z)) (tick : Z) (self : SendQ) : SendQ :=
  let missing := List.filter (in_rangesb ranges)
    (map (fun item => Frame.sequence_number (frame item)) (sent_packet self)) in
  match ranges with
  | [(start, stop)] => if start =? stop then nack start tick self else nack_all missing tick self
  | _ => nack_all missing tick self
  end.

(** ** Acknowledgements *)

(** The bytes an acknowledged frame gives back: a fragment's message counts once, when its
    last fragment is acknowledged ([fetch_sub] returns the old value). *)
Definition release (f : FrameSetPacket) (store : gmap Z SharedPayload) : Z * gmap Z SharedPayload :=
  match shared_payload f with
  | Some key =>
      match store !! key with
      | Some payload =>
          ((if remaining payload =? 1 then payload_bytes payload else 0),
           <[key := mk_shared (usize_sub (remaining payload) 1) (payload_bytes payload)]> store)
      | None => (0, store)
      end
  | None => (data_len f, store)
  end.

(** The frames skipped between the previous newest acknowledgement and this one. *)
Definition skipped (previous newest : Z) (self : SendQ) : list Z :=
  let span := distance newest previous in
  List.filter (fun id => let d := distance id previous in (0 <? d) && (d <? span))
    (map (fun item => Frame.sequence_number (frame item)) (sent_packet self)).

Definition acknowledges (id : Z) (item : Sent) : Prop :=
  Frame.sequence_number (frame item) = id \/ id ∈ aliases item.
#[export] Instance acknowledges_dec id item : Decision (acknowledges id item).
Proof. unfold acknowledges. apply _. Defined.

(** A sample of a frame sent once is unambiguous (Karn); with [recovery-policy] it must not
    have been probed either. *)
Definition unambiguous `{!Features} (item : Sent) : bool :=
  (retries item =? 0) && (negb recovery_policy || Nat.eqb (length (aliases item)) 0).

(** [ack] past its first guard. *)
Definition ack_direct `{!Features} (sequence tick : Z) (self : SendQ) : SendQ :=
  match list_find (acknowledges sequence) (sent_packet self) with
  | None => self
  | Some (index, item) =>
      let self := self <| sent_packet := delete index (sent_packet self) |> in
      let self := if recovery_policy
        then acknowledge_progress tick ((retries item =? 0) && Nat.eqb (length (aliases item)) 0) self
        else self in
      let self := if grouped_acks self && Nat.eqb (length (sent_packet self)) 0
        then self <| grouped_acks := false |> else self in
      let '(released_payload, store) := release (frame item) (shared self) in
      let self := self <| shared := store |>
        <| buffered_bytes := usize_sub (buffered_bytes self) (released_payload + FRAME_BUDGET) |> in
      let self := if newer sequence (ack_sequence_number self)
        then nack_all (skipped (ack_sequence_number self) sequence self) tick self
               <| ack_sequence_number := sequence |>
        else self in
      if unambiguous item
      then update_rto (Z.max (sat_i64 (tick - sent_at item)) 0) self
      else self
  end.

(** The state of the closure of [retain_mut]. *)
Record AckPass := mk_pass {
  kept : list Sent;
  pass_shared : gmap Z SharedPayload;
  newest : Z;
  latency : Z * Z;
  released_bytes : Z;
  previous_sample : option Z;
  pass_sampled : bool;
}.

Definition ack_item `{!Features} (GROUPED : bool) (ranges : list (Z * Z)) (tick : Z)
    (acc : AckPass) (item : Sent) : AckPass :=
  match list_find (fun id => Is_true (in_rangesb ranges id))
          (Frame.sequence_number (frame item) :: aliases item) with
  | None =>
      mk_pass (kept acc ++ [item]) (pass_shared acc) (newest acc) (latency acc)
        (released_bytes acc) (previous_sample acc) (pass_sampled acc)
  | Some (_, id) =>
      let '(payload_bytes, store) := release (frame item) (pass_shared acc) in
      let released := released_bytes acc + (payload_bytes + FRAME_BUDGET) in
      let newest' := if newer id (newest acc) then id else newest acc in
      if unambiguous item && (negb GROUPED || negb (bool_decide (previous_sample acc = Some id)))
      then mk_pass (kept acc) store newest'
             (latency_sample (latency acc).1 (Z.max (sat_i64 (tick - sent_at item)) 0))
             released (if GROUPED then Some id else previous_sample acc) true
      else mk_pass (kept acc) store newest' (latency acc) released (previous_sample acc)
             (pass_sampled acc)
  end.

(** The general path: one pass over the flight. *)
Definition ack_ranges_pass `{!Features} (GROUPED : bool) (ranges : list (Z * Z)) (tick : Z)
    (self : SendQ) : SendQ :=
  let previous := ack_sequence_number self in
  let acc := foldl (ack_item GROUPED ranges tick)
    (mk_pass [] (shared self) previous (srtt self, rto self) 0 None false) (sent_packet self) in
  let self := self <| sent_packet := kept acc |> <| shared := pass_shared acc |>
    <| buffered_bytes := usize_sub (buffered_bytes self) (released_bytes acc) |> in
  let self := if recovery_policy && negb (released_bytes acc =? 0)
    then acknowledge_progress tick (pass_sampled acc) self else self in
  let self := if GROUPED && Nat.eqb (length (sent_packet self)) 0
    then self <| grouped_acks := false |> else self in
  let self := if negb (rto self =? (latency acc).2)
    then self <| next_retry := 0 |> else self in
  let self := self <| srtt := (latency acc).1 |> <| rto := (latency acc).2 |> in
  if negb (newest acc =? previous)
  then nack_all (skipped previous (newest acc) self) tick self
         <| ack_sequence_number := newest acc |>
  else self.

Definition ack_ranges_inner `{!Features} (GROUPED : bool) (ranges : list (Z * Z)) (tick : Z)
    (self : SendQ) : SendQ :=
  match ranges with
  | [(start, stop)] =>
      (* [ack] is called where its own first guard is false *)
      if (start =? stop) && (negb GROUPED || (zlen (sent_packet self) <=? 1))
      then ack_direct start tick self else ack_ranges_pass GROUPED ranges tick self
  | _ => ack_ranges_pass GROUPED ranges tick self
  end.

Definition ack_ranges `{!Features} (ranges : list (Z * Z)) (tick : Z) (self : SendQ) : SendQ :=
  if grouped_acks self then ack_ranges_inner true ranges tick self
  else ack_ranges_inner false ranges tick self.

Definition ack `{!Features} (sequence tick : Z) (self : SendQ) : SendQ :=
  if grouped_acks self && (1 <? zlen (sent_packet self))
  then ack_ranges [(sequence, sequence)] tick self
  else ack_direct sequence tick self.

(** ** Timeouts *)

Definition tick_item `{!Features} (tick : Z) (probe : option ProbeFallback) (p : Sent) (self : SendQ)
    : Sent * SendQ :=
  let cur_rto := retry_timeout (rto self) (retries p) in
  let expired := (cur_rto <=? tick - sent_at p)
    || (recovery_policy && match probe with
        | Some probe => (probe_sequence probe =? Frame.sequence_number (frame p))
                        && (deadline probe <=? tick)
        | None => false
        end) in
  if sent p && expired then resequence p self
  else if sent p then
    (p, self <| next_retry := Z.min (next_retry self) (sat_i64 (sent_at p + cur_rto)) |>)
  else (p, self).

Definition tick `{!Features} (now : Z) (self : SendQ) : SendQ :=
  let self := if recovery_policy && match recovery self with Some _ => true | None => false end
    then probe_tail now self else self in
  let probe := if recovery_policy then active_probe self else None in
  let retry := Z.min (next_retry self)
    match probe with Some p => deadline p | None => I64_MAX end in
  if now <? (if recovery_policy then retry else next_retry self) then self
  else
    let self := self <| next_retry := I64_MAX |> in
    let self := each_sent (tick_item now probe) self in
    match probe, recovery self with
    | Some p, Some r =>
        if deadline p <=? now then self <| recovery := Some (r <| pending_probe := None |>) |>
        else self
    | _, _ => self
    end.

(** ** Flushing *)

(** [saturating_add(1)] on [u32]. *)
Definition bump_retries (n : Z) : Z := Z.min (n + 1) (2 ^ 32 - 1).

Definition resent `{!Features} (now : Z) (probe_sequence : option Z) (item : Sent) (self : SendQ)
    : Sent * SendQ :=
  let item := item <| sent := true |> <| sent_at := now |> in
  let item :=
    if recovery_policy && bool_decide (probe_sequence = Some (Frame.sequence_number (frame item)))
    then item else item <| retries := bump_retries (retries item) |> in
  (item, self <| next_retry := Z.min (next_retry self)
                   (sat_i64 (now + retry_timeout (rto self) (retries item))) |>).

(** The retransmission loop of [flush]; [ret] are the frames to send. *)
Fixpoint resend_items `{!Features} (now : Z) (probe_sequence : option Z) (items : list Sent)
    (ret : list FrameSetPacket) (self : SendQ) : list Sent * list FrameSetPacket * SendQ :=
  match items with
  | [] => ([], ret, self)
  | item :: items =>
      let '(item', ret, self) :=
        if negb (sent item) then
          let '(item', self) := resent now probe_sequence item self in
          (item', ret ++ [frame item], self)
        else (item, ret, self) in
      let '(items, ret, self) := resend_items now probe_sequence items ret self in
      (item' :: items, ret, self)
  end.

(** The datagram being filled: its sequence number, bytes and frames. *)
Record Group := mk_group { group_sequence : option Z; group_bytes : Z; group_frames : Z }.

Definition no_group : Group := mk_group None 0 0.

Definition packable (f : FrameSetPacket) : bool :=
  bool_decide (reliability f = Ok Reliability.ReliableOrdered) && negb (is_fragment f).

(** A frame joins the open datagram or opens one: the sequence number it gets. *)
Definition assign_group (may_pack : bool) (packet : FrameSetPacket) (group : Group)
    (out : OutgoingFrames) (self : SendQ) : FrameSetPacket * Group * OutgoingFrames * SendQ :=
  let frame_bytes := usize_sub (size_of packet) 4 in
  let datagram_budget := sat_usize (mtu self - 28) in
  match group_sequence group with
  | Some sequence =>
      if may_pack && (group_frames group <? MAX_COALESCED_FRAMES)
         && (group_bytes group + frame_bytes <=? datagram_budget)
      then (packet <| Frame.sequence_number := sequence |>,
            mk_group (Some sequence) (group_bytes group + frame_bytes) (group_frames group + 1),
            mk_outgoing (frames out) true, self <| grouped_acks := true |>)
      else (packet <| Frame.sequence_number := sequence_number self |>,
            mk_group (if may_pack then Some (sequence_number self) else None) (4 + frame_bytes) 1,
            out, self <| sequence_number := next (sequence_number self) |>)
  | None =>
      (packet <| Frame.sequence_number := sequence_number self |>,
       mk_group (if may_pack then Some (sequence_number self) else None) (4 + frame_bytes) 1,
       out, self <| sequence_number := next (sequence_number self) |>)
  end.

(** A frame leaves for the first time: it joins the flight. *)
Definition launch (now : Z) (packet : FrameSetPacket) (self : SendQ) : SendQ :=
  let self :=
    match list.last (sent_packet self) with
    | Some previous =>
        if Frame.sequence_number packet <? Frame.sequence_number (frame previous)
        then self <| flight_order_dirty := true |> else self
    | None => self
    end in
  self <| sent_packet := sent_packet self ++ [mk_sent packet true now 0 []] |>
       <| next_retry := Z.min (next_retry self) (sat_i64 (now + rto self)) |>.

Definition push_out (packet : FrameSetPacket) (out : OutgoingFrames) : OutgoingFrames :=
  mk_outgoing (frames out ++ [packet]) (coalesced out).

(** [for _ in 0..queued_count]. *)
Fixpoint flush_queue (count : nat) (now : Z) (group : Group) (out : OutgoingFrames) (self : SendQ)
    : OutgoingFrames * SendQ :=
  match count with
  | O => (out, self)
  | S count =>
      let full := MAX_IN_FLIGHT_PACKETS <=? zlen (sent_packet self) in
      if full && (queued_unreliable self =? 0) then (out, self)
      else match packets self with
      | [] => (out, self)
      | packet :: rest =>
          let self := self <| packets := rest |> in
          let reliable := match is_reliable packet with Ok b => b | Err _ => false end in
          if reliable && full then
            flush_queue count now group out (self <| packets := packets self ++ [packet] |>)
          else
            let '(packet, group, out, self) :=
              if coalesce self then assign_group (packable packet) packet group out self
              else (packet <| Frame.sequence_number := sequence_number self |>, group, out,
                    self <| sequence_number := next (sequence_number self) |>) in
            let out := push_out packet out in
            let self :=
              if reliable then launch now packet self
              else self <| queued_unreliable := usize_sub (queued_unreliable self) 1 |>
                        <| buffered_bytes :=
                             usize_sub (buffered_bytes self) (data_len packet + FRAME_BUDGET) |> in
            flush_queue count now group out self
      end
  end.

Section Flush.
Context {feat : Features} {usort : UnstableSort}.

Definition sort_if_dirty (self : SendQ) : SendQ :=
  if flight_order_dirty self
  then self <| sent_packet := sort_flight (sent_packet self) |> <| flight_order_dirty := false |>
  else self.

(** A new flight starts without the deadlines of the previous one. *)
Definition reset_recovery (now : Z) (self : SendQ) : SendQ :=
  if recovery_policy && Nat.eqb (length (sent_packet self)) 0 then
    let self := self <| next_retry := I64_MAX |> in
    match recovery self with
    | Some r =>
        if bool_decide (recovery_opts r = default_recovery_options)
        then self <| recovery := None |>
        else self <| recovery := Some (r <| last_progress := now |> <| probed := false |>
                       <| pending_probe := None |> <| probe_replay := None |>) |>
    | None => self
    end
  else self.

Definition flush_legacy (now : Z) (self : SendQ) : OutgoingFrames * SendQ :=
  let self := tick now self in
  let '(packing, self) :=
    if recovery_policy then take_probe_packing self else (false, self) in
  let self := sort_if_dirty self in
  let '(probe_sequence, self) :=
    if recovery_policy then take_probe_replay self else (None, self) in
  let '(ret, self) :=
    if retries_pending self then
      let '(items, ret, self) := resend_items now probe_sequence (sent_packet self) [] self in
      (ret, self <| sent_packet := items |> <| retries_pending := false |>)
    else ([], self) in
  flush_queue (length (packets self)) now no_group (mk_outgoing ret packing) self.

(** *** The scheduler's flush

    Three lanes (unreliable, retransmissions, new reliable frames) take turns, a quantum of
    bytes each, within the burst limit. *)

Record Round := mk_round {
  queue : SendQ;
  sched : SendScheduler;
  output : OutgoingFrames;
  burst : Z;
  retry_cursor : nat;
  group : Group;
  flight_bytes : Z;
  unreliable_drained : bool;
}.

(** [while retry_cursor < len && sent_packet[retry_cursor].1 { retry_cursor += 1 }] *)
Fixpoint skip_sent (items : list Sent) (cursor : nat) : nat :=
  match items with
  | item :: items => if sent item then skip_sent items (S cursor) else cursor
  | [] => cursor
  end.

(** [capacity_notifier.upgrade()], and [notify_waiters] if the connection is there. *)
Definition notify_capacity (s : SendScheduler) : SendScheduler :=
  match capacity_notifier s with
  | Some calls => s <| capacity_notifier := Some (calls + 1) |>
  | None => s
  end.

(** The size of what the lane would send next, and the cursor moved past sent frames. *)
Definition lane_charge (lane : Z) (st : Round) : option Z * nat :=
  if lane =? 0 then
    (match unreliable (sched st) with f :: _ => Some (size_of f) | [] => None end, retry_cursor st)
  else if lane =? 1 then
    if negb (retries_pending (queue st)) then (None, retry_cursor st)
    else
      let cursor := skip_sent (drop (retry_cursor st) (sent_packet (queue st))) (retry_cursor st) in
      (match sent_packet (queue st) !! cursor with
       | Some item => Some (size_of (frame item))
       | None => None
       end, cursor)
  else
    (match packets (queue st) with
     | f :: _ =>
         let size := size_of f in
         if (zlen (sent_packet (queue st)) <? SendOptions.in_flight_frames (options (sched st)))
            && (flight_bytes st + size <=? SendOptions.in_flight_bytes (options (sched st)))
         then Some size else None
     | [] => None
     end, retry_cursor st).

Definition lane_send (now : Z) (probe_sequence : option Z) (lane charge : Z) (st : Round) : Round :=
  let self := queue st in
  if lane =? 0 then
    match unreliable (sched st) with
    | packet :: rest =>
        let packet := packet <| Frame.sequence_number := sequence_number self |> in
        let reserved := data_len packet + FRAME_BUDGET in
        mk_round (self <| sequence_number := next (sequence_number self) |>
                       <| buffered_bytes := usize_sub (buffered_bytes self) reserved |>)
          (sched st <| unreliable := rest |>
                    <| unreliable_bytes := usize_sub (unreliable_bytes (sched st)) reserved |>)
          (push_out packet (output st)) (burst st) (retry_cursor st)
          (mk_group None (group_bytes (group st)) (group_frames (group st))) (flight_bytes st) true
    | [] => st
    end
  else if lane =? 1 then
    match sent_packet self !! retry_cursor st with
    | Some item =>
        let '(item', self) := resent now probe_sequence item self in
        mk_round (self <| sent_packet := <[retry_cursor st := item']> (sent_packet self) |>)
          (sched st) (push_out (frame item) (output st)) (burst st) (S (retry_cursor st))
          (mk_group None (group_bytes (group st)) (group_frames (group st))) (flight_bytes st)
          (unreliable_drained st)
    | None => st
    end
  else
    match packets self with
    | packet :: rest =>
        let self := self <| packets := rest |> in
        let '(packet, group, out, self) :=
          assign_group (coalesce self && packable packet) packet (group st) (output st) self in
        mk_round (launch now packet self) (sched st) (push_out packet out) (burst st)
          (retry_cursor st) group (flight_bytes st + charge) (unreliable_drained st)
    | [] => st
    end.

(** How a loop ends: by [break 'rounds], the burst being spent; by a condition or a [break]
    of its own; or because the iterations given ran out, which the code knows nothing of. *)
Inductive Exit : Set := BurstSpent | Done | OutOfFuel.

Definition leaves_rounds (exit : Exit) : bool := match exit with Done => false | _ => true end.

(** [while lane_bytes < quantum]. The result says how the loop ends and whether the lane sent
    anything. *)
Fixpoint lane_loop (fuel : nat) (now : Z) (probe_sequence : option Z) (lane quantum lane_bytes : Z)
    (progressed : bool) (st : Round) : Exit * bool * Round :=
  match fuel with
  | O => (OutOfFuel, progressed, st)
  | S fuel =>
      if negb (lane_bytes <? quantum) then (Done, progressed, st)
      else
        let '(charge, cursor) := lane_charge lane st in
        let st := mk_round (queue st) (sched st) (output st) (burst st) cursor (group st)
                    (flight_bytes st) (unreliable_drained st) in
        match charge with
        | None => (Done, progressed, st)
        | Some charge =>
            if SendOptions.flush_bytes (options (sched st)) <? burst st + charge
            then (Done, progressed, st)
            else
              let st := lane_send now probe_sequence lane charge st in
              let st := mk_round (queue st) (sched st <| next_lane := (lane + 1) `mod` 3 |>)
                          (output st) (burst st + charge) (retry_cursor st) (group st)
                          (flight_bytes st) (unreliable_drained st) in
              if burst st =? SendOptions.flush_bytes (options (sched st)) then (BurstSpent, true, st)
              else lane_loop fuel now probe_sequence lane quantum (lane_bytes + charge) true st
        end
  end.

(** [for offset in 0..3]. *)
Fixpoint lanes (fuel : nat) (now : Z) (probe_sequence : option Z) (quantum start : Z)
    (offsets : list Z) (progressed : bool) (st : Round) : Exit * bool * Round :=
  match offsets with
  | [] => (Done, progressed, st)
  | offset :: offsets =>
      let lane := (start + offset) `mod` 3 in
      let '(exit, progressed, st) :=
        lane_loop fuel now probe_sequence lane quantum 0 progressed st in
      if leaves_rounds exit then (exit, progressed, st)
      else lanes fuel now probe_sequence quantum start offsets progressed st
  end.

(** ['rounds: loop], left by [break 'rounds] or after a round without progress. *)
Fixpoint rounds (fuel lane_fuel : nat) (now : Z) (probe_sequence : option Z) (quantum : Z)
    (st : Round) : Exit * Round :=
  match fuel with
  | O => (OutOfFuel, st)
  | S fuel =>
      let '(exit, progressed, st) :=
        lanes lane_fuel now probe_sequence quantum (next_lane (sched st)) [0; 1; 2] false st in
      if leaves_rounds exit then (exit, st)
      else if negb progressed then (Done, st)
      else rounds fuel lane_fuel now probe_sequence quantum st
  end.

Definition flush_scheduled (now : Z) (self : SendQ) : OutgoingFrames * SendQ :=
  let self := tick now self in
  let self := sort_if_dirty self in
  match scheduler self with
  | None => (mk_outgoing [] false, self)
  | Some s =>
      let self := self <| scheduler := None |> in
      let flight := sumZ (fun p => size_of (frame p)) (sent_packet self) in
      let '(packing, self) :=
        if recovery_policy then take_probe_packing self else (false, self) in
      let quantum := mtu self * 4 in
      let '(probe_sequence, self) :=
        if recovery_policy then take_probe_replay self else (None, self) in
      let fuel := S (length (unreliable s) + length (sent_packet self) + length (packets self)) in
      let st := (rounds fuel fuel now probe_sequence quantum
        (mk_round self s (mk_outgoing [] packing) 0 0 no_group flight false)).2 in
      let self := queue st in
      let self := self <| retries_pending := anyb (fun item => negb (sent item)) (sent_packet self) |> in
      let s := if unreliable_drained st then notify_capacity (sched st) else sched st in
      (output st,
       if persistent s || negb (use_legacy s) || negb (Nat.eqb (length (unreliable s)) 0)
       then self <| scheduler := Some s |> else self)
  end.

Definition flush (now : Z) (self : SendQ) : OutgoingFrames * SendQ :=
  let self := reset_recovery now self in
  if send_policy && match scheduler self with
     | Some s => negb (use_legacy s) || negb (Nat.eqb (length (unreliable s)) 0)
     | None => false
     end
  then flush_scheduled now self
  else flush_legacy now self.

End Flush.

Definition is_empty `{!Features} (self : SendQ) : bool :=
  Nat.eqb (length (packets self)) 0 && Nat.eqb (length (sent_packet self)) 0
  && (negb send_policy
      || match scheduler self with Some s => Nat.eqb (length (unreliable s)) 0 | None => true end).

Definition get_reliable_queue_size (self : SendQ) : Z := zlen (packets self).
Definition get_sent_queue_size (self : SendQ) : Z := zlen (sent_packet self).

End SendQ.
Abbreviation SendQ := SendQ.SendQ.

(** A sort that is one: merge sort. *)
#[export] Instance by_id_dec : RelDecision by_id.
Proof. intros p q. unfold by_id. apply _. Defined.

#[export] Instance by_id_total : Total by_id.
Proof. intros p q. unfold by_id. lia. Qed.

#[export] Instance by_id_transitive : Transitive by_id.
Proof. intros p q r. unfold by_id. lia. Qed.

#[export] Instance merge_sort_flight : UnstableSort := {
  sort_flight := merge_sort by_id;
  sort_flight_perm := merge_sort_Permutation by_id;
  sort_flight_sorted := StronglySorted_merge_sort by_id;
}.
