(* ===== verification/SendQInv.v ===== *)
(** * The send queue's accounting

    The invariants of [SendQ.v]: which frames the queue holds, that its byte counters are
    exactly the sums of what it holds, and what every operation does to them. *)

From S2P Require Import Prelude Errors Sequence Frame FrameCodec Fragment RecvQ SendOptions SendQ.
Import SendQ.

(** A frame without its sequence number, which changes with every transmission. *)
Definition body (f : FrameSetPacket) : FrameSetPacket := f <| Frame.sequence_number := 0 |>.

Definition flight (q : SendQ) : list FrameSetPacket := map (fun p => body (frame p)) (sent_packet q).

(** [keeps q q']: the operation retimed and renumbered frames in flight, nothing else. *)
Record keeps (q q' : SendQ) : Prop := {
  keeps_packets : packets q' = packets q;
  keeps_flight : flight q' ≡ₚ flight q;
  keeps_shared : shared q' = shared q;
  keeps_next_shared : next_shared q' = next_shared q;
  keeps_buffered : buffered_bytes q' = buffered_bytes q;
  keeps_queued : queued_unreliable q' = queued_unreliable q;
  keeps_scheduler : scheduler q' = scheduler q;
  keeps_mtu : mtu q' = mtu q;
}.

#[export] Instance keeps_preorder : PreOrder keeps.
Proof.
  split; [by intros q; split|]. intros q1 q2 q3 [] []. split; try congruence. by etransitivity.
Qed.

Section Keeps.
Context {feat : Features} {usort : UnstableSort}.
Implicit Types (q : SendQ) (p : Sent).

(** A change of fields that hold no frames. *)
Ltac keeps_fields := split; reflexivity.

(** A loop over the flight that keeps every frame's body and the other queues. *)
Definition keeps_item (loop_body : Sent -> SendQ -> Sent * SendQ) : Prop :=
  forall p q, let '(p', q') := loop_body p q in body (frame p') = body (frame p) /\ keeps q q' /\
    sent_packet q' = sent_packet q.

Lemma for_items_keeps loop_body items q :
  keeps_item loop_body ->
  let '(items', q') := for_items loop_body items q in
  map (fun p => body (frame p)) items' = map (fun p => body (frame p)) items /\
  keeps q q' /\ sent_packet q' = sent_packet q.
Proof.
  intros Hb. revert q. induction items as [|p items IH]; intros q; simpl; [done|].
  specialize (Hb p q). destruct (loop_body p q) as [p' q1]. destruct Hb as (Hp & Hk & Hs).
  specialize (IH q1). destruct (for_items loop_body items q1) as [items' q2].
  destruct IH as (Hi & Hk2 & Hs2). simpl. rewrite Hp, Hi. split; [done|].
  split; [by etransitivity|congruence].
Qed.

Lemma each_sent_keeps loop_body q : keeps_item loop_body -> keeps q (each_sent loop_body q).
Proof.
  intros Hb. unfold each_sent. pose proof (for_items_keeps loop_body (sent_packet q) q Hb) as H.
  destruct (for_items loop_body (sent_packet q) q) as [items q']. destruct H as (Hi & [] & Hs).
  split; simpl; try done. unfold flight. simpl. by rewrite Hi.
Qed.

Lemma resequence_keeps : keeps_item resequence.
Proof. intros p q. simpl. split; [done|]. split; [keeps_fields|done]. Qed.

Lemma nack_item_keeps sequence now : keeps_item (nack_item sequence now).
Proof.
  intros p q. unfold nack_item. case_if; [|done].
  pose proof (resequence_keeps p q) as H. by destruct (resequence p q).
Qed.

Lemma nack_keeps sequence now q : keeps q (nack sequence now q).
Proof. apply each_sent_keeps, nack_item_keeps. Qed.

Lemma nack_all_keeps missing now q : keeps q (nack_all missing now q).
Proof.
  unfold nack_all. revert q. induction missing as [|id missing IH]; intros q; simpl; [done|].
  etransitivity; [apply nack_keeps|apply IH].
Qed.

Lemma nack_ranges_keeps ranges now q : keeps q (nack_ranges ranges now q).
Proof.
  unfold nack_ranges. destruct ranges as [|[] [|]]; try apply nack_all_keeps.
  case_if; [apply nack_keeps|apply nack_all_keeps].
Qed.

Lemma tick_item_keeps now probe : keeps_item (tick_item now probe).
Proof.
  intros p q. unfold tick_item. case_if; [apply resequence_keeps|].
  case_if; [|done]. split; [done|]. split; [keeps_fields|done].
Qed.

Lemma map_frames_keeps q (g : Sent -> Sent) :
  (forall p, body (frame (g p)) = body (frame p)) ->
  keeps q (q <| sent_packet := map g (sent_packet q) |>).
Proof.
  intros Hg. split; try done. unfold flight. simpl. rewrite map_map.
  by erewrite map_ext by (intros; apply Hg).
Qed.

Lemma probe_tail_keeps now q : keeps q (probe_tail now q).
Proof.
  unfold probe_tail. case_if; [done|]. destruct (sent_packet q) as [|first rest] eqn:E; [done|].
  destruct (recovery q) as [r|]; [|done].
  split; try done. unfold flight. simpl. rewrite map_map. done.
Qed.

Lemma acknowledge_progress_keeps now sampled q : keeps q (acknowledge_progress now sampled q).
Proof.
  unfold acknowledge_progress. destruct (recovery q) as [r|]; [|done].
  destruct (reset_backoff_on_progress _ && sampled); [|keeps_fields].
  split; try done. unfold flight. simpl. rewrite map_map. done.
Qed.

Lemma tick_keeps now q : keeps q (tick now q).
Proof.
  unfold tick. set (q1 := if _ && _ then probe_tail now q else q).
  assert (keeps q q1) as H1 by (unfold q1; case_if; [apply probe_tail_keeps|done]).
  clearbody q1. case_if; [done|]. etransitivity; [exact H1|].
  set (probe := if recovery_policy then active_probe q1 else None).
  assert (keeps q1 (each_sent (tick_item now probe) (q1 <| next_retry := I64_MAX |>))) as H2.
  { etransitivity; [|apply each_sent_keeps, tick_item_keeps]. keeps_fields. }
  clearbody probe. destruct probe as [pr|]; [|exact H2]. destruct (SendQ.recovery _); [|exact H2].
  case_if; [|exact H2]. etransitivity; [exact H2|]. keeps_fields.
Qed.

Lemma update_rto_keeps rtt q : keeps q (update_rto rtt q).
Proof. unfold update_rto. destruct (latency_sample _ _). case_if; keeps_fields. Qed.

Lemma sort_if_dirty_keeps q : keeps q (sort_if_dirty q).
Proof.
  unfold sort_if_dirty. case_if; [|done]. split; try done. unfold flight. simpl.
  by rewrite sort_flight_perm.
Qed.

Lemma take_probe_packing_keeps q : keeps q (take_probe_packing q).2.
Proof. unfold take_probe_packing. destruct (recovery q); keeps_fields. Qed.

Lemma take_probe_replay_keeps q : keeps q (take_probe_replay q).2.
Proof. unfold take_probe_replay. destruct (recovery q); keeps_fields. Qed.

Lemma resent_body now probe p q :
  let '(p', q') := resent now probe p q in
  body (frame p') = body (frame p) /\ keeps q q' /\ sent_packet q' = sent_packet q.
Proof. unfold resent. case_if; (split; [done|split; [keeps_fields|done]]). Qed.

Lemma resend_items_keeps now probe items ret q :
  let '(items', ret', q') := resend_items now probe items ret q in
  map (fun p => body (frame p)) items' = map (fun p => body (frame p)) items /\
  keeps q q' /\ sent_packet q' = sent_packet q.
Proof.
  revert ret q. induction items as [|p items IH]; intros ret q; cbn [resend_items]; [done|].
  assert (exists p' ret' q1, (if negb (sent p)
    then let '(p', q1) := resent now probe p q in (p', ret ++ [frame p], q1)
    else (p, ret, q)) = (p', ret', q1) /\ body (frame p') = body (frame p) /\ keeps q q1 /\
    sent_packet q1 = sent_packet q) as (p' & ret' & q1 & -> & Hp & Hk & Hs).
  { case_if; [|by exists p, ret, q]. pose proof (resent_body now probe p q) as H.
    destruct (resent now probe p q) as [p' q1]. by exists p', (ret ++ [frame p]), q1. }
  specialize (IH ret' q1). destruct (resend_items now probe items ret' q1) as [[items' ret2] q2].
  destruct IH as (Hi & Hk2 & Hs2). simpl. rewrite Hp, Hi. split; [done|].
  split; [by etransitivity|congruence].
Qed.

Lemma reset_recovery_keeps now q : keeps q (reset_recovery now q).
Proof.
  unfold reset_recovery. case_if; [|done]. destruct (recovery _); [case_if|]; keeps_fields.
Qed.

Lemma set_recovery_options_keeps opts now q : keeps q (set_recovery_options opts now q).
Proof. keeps_fields. Qed.

Lemma enable_coalescing_keeps q : keeps q (enable_coalescing q).
Proof. keeps_fields. Qed.
End Keeps.

(** ** What the frames cost

    A frame is charged a fixed budget and its own payload; the fragments of a message share
    one charge for the whole payload, held while [remaining] of them are unacknowledged. *)

Definition cost (f : FrameSetPacket) : Z :=
  FRAME_BUDGET + match shared_payload f with Some _ => 0 | None => data_len f end.

Definition live (p : SharedPayload) : Z := if 0 <? remaining p then payload_bytes p else 0.

Definition holders (k : Z) (fs : list FrameSetPacket) : Z :=
  sumZ (fun f => if bool_decide (shared_payload f = Some k) then 1 else 0) fs.

Record accounted (fs : list FrameSetPacket) (store : gmap Z SharedPayload) (bytes : Z) : Prop := {
  ac_bytes : bytes = sumZ cost fs + map_sum live store;
  ac_store : forall k p, store !! k = Some p -> remaining p = holders k fs /\ 0 <= payload_bytes p;
  ac_keys : forall f k, f ∈ fs -> shared_payload f = Some k -> is_Some (store !! k);
}.

Section Accounting.
Implicit Types (f : FrameSetPacket) (fs : list FrameSetPacket) (store : gmap Z SharedPayload).

Lemma cost_ge f : FRAME_BUDGET <= cost f.
Proof. unfold cost. pose proof (data_len_nonneg f). destruct (shared_payload f); lia. Qed.

Lemma holders_nonneg k fs : 0 <= holders k fs.
Proof. apply sumZ_nonneg. intros f _. case_if; lia. Qed.

Lemma holders_le k fs : holders k fs <= zlen fs.
Proof. unfold holders. induction fs; simpl; [lia|]. case_if; lia. Qed.

Lemma sum_cost_ge fs : FRAME_BUDGET * zlen fs <= sumZ cost fs.
Proof.
  induction fs as [|f fs IH]; cbn [sumZ foldr length]; [lia|].
  pose proof (cost_ge f). unfold sumZ in IH. unfold FRAME_BUDGET in *. lia.
Qed.

Lemma live_sum_nonneg fs store bytes : accounted fs store bytes -> 0 <= map_sum live store.
Proof.
  intros H. apply map_sum_nonneg. intros k p Hp. pose proof (ac_store _ _ _ H k p Hp).
  unfold live. case_if; lia.
Qed.

Lemma accounted_bound fs store bytes :
  accounted fs store bytes -> FRAME_BUDGET * zlen fs <= bytes.
Proof.
  intros H. rewrite (ac_bytes _ _ _ H). pose proof (sum_cost_ge fs).
  pose proof (live_sum_nonneg _ _ _ H). lia.
Qed.

Lemma accounted_perm fs fs' store bytes :
  fs ≡ₚ fs' -> accounted fs store bytes -> accounted fs' store bytes.
Proof.
  intros Hp [Hb Hs Hk]. split.
  - by rewrite Hb, (sumZ_perm _ _ _ Hp).
  - intros k p Hkp. destruct (Hs k p Hkp) as [Hr ?]. split; [|done].
    unfold holders in *. by rewrite Hr, (sumZ_perm _ _ _ Hp).
  - intros f k Hf. apply (Hk f k). by rewrite Hp.
Qed.

Lemma holders_cons k f fs :
  holders k (f :: fs) = (if bool_decide (shared_payload f = Some k) then 1 else 0) + holders k fs.
Proof. done. Qed.

(** A frame with its own payload. *)
Lemma accounted_add f fs store bytes :
  shared_payload f = None -> accounted fs store bytes ->
  accounted (f :: fs) store (bytes + (data_len f + FRAME_BUDGET)).
Proof.
  intros Hn [Hb Hs Hk]. split.
  - simpl. unfold cost at 1. rewrite Hn, Hb. lia.
  - intros k p Hkp. rewrite holders_cons, Hn. by apply Hs.
  - intros g k [->|Hg]%elem_of_cons; [by rewrite Hn|by apply Hk].
Qed.

(** [release] gives back exactly what the frame still costs. *)
Lemma release_accounted f fs store bytes :
  accounted (f :: fs) store bytes -> bytes < 2 ^ 64 ->
  let '(released, store') := release f store in
  accounted fs store' (bytes - (released + FRAME_BUDGET)) /\
  0 <= released /\ released + FRAME_BUDGET <= bytes /\
  (forall k, is_Some (store' !! k) <-> is_Some (store !! k)).
Proof.
  intros Hac Hlim. pose proof (accounted_bound _ _ _ Hac) as Hbound.
  pose proof (live_sum_nonneg _ _ _ Hac) as Hlive. pose proof (sum_cost_ge fs) as Hcost.
  destruct Hac as [Hb Hs Hk]. cbn [sumZ foldr] in Hb. fold (sumZ cost fs) in Hb.
  unfold release. unfold cost at 1 in Hb. unfold FRAME_BUDGET in *.
  assert (zlen fs < 2 ^ 64) by (cbn [length] in Hbound; lia).
  destruct (shared_payload f) as [key|] eqn:Ef.
  2: { pose proof (data_len_nonneg f). split_and!; [|lia|lia|done]. split.
       - lia.
       - intros k p Hp. specialize (Hs k p Hp). by rewrite holders_cons, Ef in Hs.
       - intros g k Hg. apply Hk. by apply list_elem_of_further. }
  destruct (Hk f key (list_elem_of_here _ _) Ef) as [p Hp]. rewrite Hp.
  destruct (Hs key p Hp) as [Hrem Hpay]. rewrite holders_cons, bool_decide_eq_true_2 in Hrem by done.
  pose proof (holders_nonneg key fs). pose proof (holders_le key fs).
  rewrite usize_sub_exact by lia.
  assert (live p <= map_sum live store) as Hle.
  { apply (map_sum_lookup_le _ _ key); [|done]. intros k p' Hp'. destruct (Hs k p' Hp').
    unfold live. case_if; lia. }
  assert (live p = payload_bytes p) as Elive by (unfold live; case_if; [done|blia]).
  split_and!.
  - split.
    + rewrite (map_sum_replace _ _ _ p) by done. rewrite Elive.
      generalize dependent (map_sum live store). intros total ? ? ?. unfold live. simpl.
      case_if; case_if; b2p; lia.
    + intros k p' [[<- <-]|[Hne Hp']]%lookup_insert_Some; simpl; [lia|].
      specialize (Hs k p' Hp'). rewrite holders_cons, bool_decide_eq_false_2 in Hs; [done|congruence].
    + intros g k Hg Hgk. apply lookup_insert_is_Some'. right. apply (Hk g k); [|done].
      by apply list_elem_of_further.
  - case_if; lia.
  - case_if; lia.
  - intros k. rewrite lookup_insert_is_Some'. split; [|tauto]. intros [<-|?]; eauto.
Qed.

Lemma holders_app k fs gs : holders k (fs ++ gs) = holders k fs + holders k gs.
Proof. apply sumZ_app. Qed.

Lemma holders_all k gs : (forall g, g ∈ gs -> shared_payload g = Some k) -> holders k gs = zlen gs.
Proof.
  unfold holders. induction gs as [|g gs IH]; intros H; [done|]. cbn [sumZ foldr length].
  fold (sumZ (fun f => if bool_decide (shared_payload f = Some k) then 1 else 0) gs).
  rewrite IH by (intros; apply H; by apply list_elem_of_further).
  rewrite bool_decide_eq_true_2 by (apply H, list_elem_of_here). lia.
Qed.

Lemma holders_none k gs : (forall g, g ∈ gs -> shared_payload g ≠ Some k) -> holders k gs = 0.
Proof.
  unfold holders. induction gs as [|g gs IH]; intros H; [done|]. cbn [sumZ foldr].
  fold (sumZ (fun f => if bool_decide (shared_payload f = Some k) then 1 else 0) gs).
  rewrite IH by (intros; apply H; by apply list_elem_of_further).
  rewrite bool_decide_eq_false_2 by (apply H, list_elem_of_here). lia.
Qed.

(** The fragments of a new message share one charge. *)
Lemma accounted_add_fragments gs fs store bytes key len :
  accounted fs store bytes -> store !! key = None ->
  (forall g, g ∈ gs -> shared_payload g = Some key) -> 1 <= zlen gs -> 0 <= len ->
  accounted (gs ++ fs) (<[key := mk_shared (zlen gs) len]> store)
    (bytes + (zlen gs * FRAME_BUDGET + len)).
Proof.
  intros [Hb Hs Hk] Hkey Hgs Hn Hlen. split.
  - rewrite sumZ_app, map_sum_insert by done.
    assert (sumZ cost gs = zlen gs * FRAME_BUDGET) as ->.
    { clear Hn. induction gs as [|g gs IH]; cbn [sumZ foldr length]; [done|].
      fold (sumZ cost gs). rewrite IH by (intros; apply Hgs; by apply list_elem_of_further).
      unfold cost. rewrite Hgs by apply list_elem_of_here. lia. }
    assert (live (mk_shared (zlen gs) len) = len) as ->
      by (unfold live; cbn [remaining payload_bytes]; by rewrite (proj2 (Z.ltb_lt _ _)) by lia).
    lia.
  - intros k p [[<- <-]|[Hne Hp]]%lookup_insert_Some; rewrite holders_app.
    + simpl. rewrite holders_all by done. rewrite holders_none; [lia|].
      intros g Hg E. destruct (Hk g key Hg E). congruence.
    + rewrite (holders_none k gs) by (intros g Hg E; rewrite Hgs in E by done; congruence).
      by apply Hs.
  - intros f k [Hf|Hf]%elem_of_app Hfk; apply lookup_insert_is_Some'.
    + left. rewrite Hgs in Hfk by done. congruence.
    + right. by apply (Hk f).
Qed.
End Accounting.

(** ** The invariant of the queue *)

Definition relb (f : FrameSetPacket) : bool :=
  match is_reliable f with Ok b => b | Err _ => false end.

Definition unreliable_count (fs : list FrameSetPacket) : Z :=
  sumZ (fun f => if relb f then 0 else 1) fs.

Definition waiting_unreliable (q : SendQ) : list FrameSetPacket :=
  match scheduler q with Some s => unreliable s | None => [] end.

(** Every frame the queue is responsible for. *)
Definition holdings (q : SendQ) : list FrameSetPacket :=
  map body (packets q) ++ flight q ++ map body (waiting_unreliable q).

(** The invariant, with frames [extra] that an operation has taken out and not yet
    accounted for. *)
Record sendq_inv_with {feat : Features} (extra : list FrameSetPacket) (q : SendQ) : Prop := {
  sq_accounted : accounted (extra ++ holdings q) (shared q) (buffered_bytes q);
  sq_limit : buffered_bytes q <= MAX_BUFFERED_BYTES;
  sq_fresh : forall k, is_Some (shared q !! k) -> k < next_shared q;
  sq_modes : forall f, f ∈ extra ++ holdings q -> relb f = false -> shared_payload f = None;
  sq_flight : forall f, f ∈ flight q -> relb f = true;
  sq_queued : queued_unreliable q = unreliable_count (packets q);
  sq_scheduler : forall s, scheduler q = Some s ->
    unreliable_bytes s = sumZ cost (unreliable s) /\ Forall (fun f => relb f = false) (unreliable s);
  sq_policy : forall s, scheduler q = Some s ->
    send_policy = true /\ unreliable_count (packets q) = 0;
}.

Abbreviation sendq_inv := (sendq_inv_with []).

Section Invariant.
Context {feat : Features} {usort : UnstableSort}.
Implicit Types (q : SendQ) (f : FrameSetPacket) (extra : list FrameSetPacket).

Lemma relb_body f : relb (body f) = relb f.
Proof. done. Qed.

Lemma cost_body f : cost (body f) = cost f.
Proof. done. Qed.

Lemma keeps_inv extra q q' : keeps q q' -> sendq_inv_with extra q -> sendq_inv_with extra q'.
Proof.
  intros [Hp Hf Hs Hn Hb Hq Hsc Hm] [Ha Hl Hfr Hmo Hfl Hqu Hsch Hpol].
  assert (extra ++ holdings q ≡ₚ extra ++ holdings q') as Hperm.
  { unfold holdings, waiting_unreliable. by rewrite Hp, Hsc, Hf. }
  split; rewrite ?Hb, ?Hs, ?Hn, ?Hq, ?Hp; try done.
  - by apply (accounted_perm _ _ _ _ Hperm).
  - intros f Hin. apply Hmo. by rewrite Hperm.
  - intros f Hin. apply Hfl. by rewrite <- Hf.
  - intros s Hsome. apply Hsch. congruence.
  - intros s Hsome. apply (Hpol s). congruence.
Qed.

Lemma inv_bytes extra q :
  sendq_inv_with extra q -> 0 <= buffered_bytes q <= MAX_BUFFERED_BYTES /\ buffered_bytes q < 2 ^ 64.
Proof.
  intros H. pose proof (accounted_bound _ _ _ (sq_accounted _ _ H)).
  pose proof (sq_limit _ _ H). unfold MAX_BUFFERED_BYTES, FRAME_BUDGET in *. lia.
Qed.

(** The bytes of a released frame leave the counter. *)
Lemma release_inv extra f q :
  sendq_inv_with (f :: extra) q ->
  let '(released, store) := release f (shared q) in
  sendq_inv_with extra (q <| shared := store |>
    <| buffered_bytes := usize_sub (buffered_bytes q) (released + FRAME_BUDGET) |>) /\
  0 <= released /\ released + FRAME_BUDGET <= buffered_bytes q.
Proof.
  intros H. pose proof (inv_bytes _ _ H) as [Hb Hb']. destruct H as [Ha Hl Hfr Hmo Hfl Hqu Hsch Hpol].
  pose proof (release_accounted f _ _ _ Ha Hb') as Hrel.
  destruct (release f (shared q)) as [released store]. destruct Hrel as (Hac & Hr & Hrb & Hkeys).
  unfold FRAME_BUDGET in *. split; [|done].
  split; cbn [shared buffered_bytes set_field set_shared set_buffered_bytes]; try done.
  - unfold FRAME_BUDGET. by rewrite usize_sub_exact by lia.
  - unfold FRAME_BUDGET. rewrite usize_sub_exact by lia. lia.
  - intros k Hk. simpl. apply Hfr. by apply Hkeys.
  - intros g Hg. apply Hmo. by apply list_elem_of_further.
Qed.
End Invariant.
