(* ===== verification/SendQInsert.v ===== *)
(** * Admission and fragmentation

    [insert_payload] of [SendQ.v]: what it queues, in every mode, that a fragmented message
    is one the receiver reassembles, and that the accounting invariant is preserved. *)

From S2P Require Import Prelude Errors Sequence Frame FrameCodec Fragment RecvQ SendOptions SendQ SendQInv.
Import SendQ.

(** ** Chunks *)

Section Chunks.
Implicit Types (l : list Z) (n fuel : nat).

Lemma chunks_from_concat fuel n l :
  (0 < n)%nat -> (length l <= fuel)%nat -> concat (chunks_from fuel n l) = l.
Proof.
  intros Hn. revert l. induction fuel as [|fuel IH]; intros l Hl.
  { destruct l; [done|simpl in Hl; lia]. }
  destruct l as [|x l]; [done|]. cbn [chunks_from]. rewrite concat_cons, IH, take_drop; [done|].
  rewrite length_drop. simpl in *. lia.
Qed.

Lemma chunks_from_length fuel n l :
  (0 < n)%nat -> (length l <= fuel)%nat ->
  zlen (chunks_from fuel n l) = div_ceil (zlen l) (Z.of_nat n).
Proof.
  intros Hn. revert l. induction fuel as [|fuel IH]; intros l Hl.
  { destruct l; [|simpl in Hl; lia]. unfold div_ceil. simpl.
    symmetry. apply Z.div_small. lia. }
  destruct l as [|x l].
  { unfold div_ceil. simpl. symmetry. apply Z.div_small. lia. }
  cbn [chunks_from]. set (l' := x :: l) in *.
  assert (0 < zlen l') by (subst l'; simpl; lia). cbn [length].
  rewrite Nat2Z.inj_succ, IH by (rewrite length_drop; lia).
  rewrite length_drop. unfold div_ceil. destruct (decide (length l' <= n)%nat).
  - replace (Z.of_nat (length l' - n)) with 0 by lia.
    rewrite (Z.div_small (0 + _)) by lia. apply Z.div_unique with (zlen l' - 1); lia.
  - rewrite <- Z.add_1_r.
    replace (zlen l' + (Z.of_nat n - 1))
      with (Z.of_nat (length l' - n) + (Z.of_nat n - 1) + 1 * Z.of_nat n) by lia.
    by rewrite Z.div_add by lia.
Qed.

(** Chunk [i] is the slice of the buffer at [i * n]. *)
Lemma chunks_from_lookup fuel n l i c :
  (0 < n)%nat -> (length l <= fuel)%nat -> chunks_from fuel n l !! i = Some c ->
  c = take n (drop (i * n) l) /\ (i * n < length l)%nat.
Proof.
  intros Hn. revert l i. induction fuel as [|fuel IH]; intros l i Hl H; [done|].
  destruct l as [|x l]; [done|]. cbn [chunks_from] in H. set (l' := x :: l) in *.
  destruct i as [|i]; simpl in H.
  - injection H as <-. rewrite drop_0. split; [done|]. subst l'. simpl. lia.
  - apply IH in H as [-> Hlt]; [|rewrite length_drop; lia].
    rewrite length_drop in Hlt. rewrite drop_drop.
    replace (S i * n)%nat with (n + i * n)%nat by lia. split; [done|lia].
Qed.
End Chunks.

Lemma chunks_concat n l : 0 < n -> concat (chunks n l) = l.
Proof. intros. apply chunks_from_concat; lia. Qed.

Lemma chunks_length n l : 0 < n -> zlen (chunks n l) = div_ceil (zlen l) n.
Proof. intros. unfold chunks. rewrite chunks_from_length by lia. f_equal. lia. Qed.

Lemma chunks_lookup n l i c :
  0 < n -> chunks n l !! i = Some c ->
  c = take (length c) (drop (Z.to_nat (Z.of_nat i * n)) l) /\
  Z.of_nat i * n + zlen c <= zlen l /\ 1 <= zlen c <= n.
Proof.
  intros Hn H. apply chunks_from_lookup in H as [Hc Hlt]; [|lia|lia].
  replace (i * Z.to_nat n)%nat with (Z.to_nat (Z.of_nat i * n)) in * by lia.
  assert (length c = (Z.to_nat n `min` (length l - Z.to_nat (Z.of_nat i * n)))%nat) as Hlen
    by (by rewrite Hc, length_take, length_drop).
  split; [|split; lia]. rewrite Hlen. rewrite Hc at 1.
  rewrite <- take_take. f_equal. rewrite firstn_all2; [done|]. rewrite length_drop. lia.
Qed.

(** ** The fragments of a message *)

(** What [push_fragments] appends, numbering from reliable index [r]. *)
Fixpoint numbered (make : Z -> list Z -> FrameSetPacket) (index r : Z) (l : list (list Z))
    : list FrameSetPacket :=
  match l with
  | [] => []
  | chunk :: l =>
      (make index chunk) <| Frame.reliable_frame_index := r |>
      :: numbered make (index + 1) (next r) l
  end.

Lemma push_fragments_keeps make index l q :
  exists r, push_fragments make index l q
    = q <| packets := packets q ++ numbered make index (reliable_frame_index q) l |>
        <| reliable_frame_index := r |>.
Proof.
  revert index q. induction l as [|chunk l IH]; intros index q; cbn [push_fragments numbered].
  - exists (reliable_frame_index q). rewrite app_nil_r. by destruct q.
  - destruct (IH (index + 1) (push_reliable (make index chunk) q)) as [r ->]. exists r.
    unfold push_reliable. simpl. destruct q. simpl. unfold set_field. simpl.
    by rewrite <- app_assoc.
Qed.

Lemma numbered_length make index r l : length (numbered make index r l) = length l.
Proof. revert index r. induction l; intros; simpl; auto. Qed.

Lemma numbered_lookup make index r l i f :
  numbered make index r l !! i = Some f ->
  exists chunk r', l !! i = Some chunk /\
    f = make (index + Z.of_nat i) chunk <| Frame.reliable_frame_index := r' |>.
Proof.
  revert index r i. induction l as [|chunk l IH]; intros index r i H; [done|].
  destruct i as [|i]; simpl in H.
  - injection H as <-. exists chunk, r. split; [done|]. by rewrite Z.add_0_r.
  - apply IH in H as (c & r' & Hc & ->). exists c, r'. split; [done|]. do 2 f_equal. lia.
Qed.

(** ** Admission, case by case *)

(** The frame a message that is not split travels in, before its reliable index. *)
Definition whole_frame (r : Reliability) (buf : list Z) (channel : Z) (owned : bool) (q : SendQ)
    : FrameSetPacket :=
  let order := ChannelIndexes.get (ordered_frame_indexes q) channel in
  let sequence := ChannelIndexes.get (sequenced_frame_indexes q) channel in
  let payload := if is_unreliable r then unreliable_payload owned buf else reliable_payload owned buf in
  let frame := from_payload r payload in
  match r with
  | Reliability.Unreliable | Reliability.Reliable => frame
  | Reliability.ReliableOrdered => frame <| order_channel := channel |> <| ordered_frame_index := order |>
  | Reliability.UnreliableSequenced | Reliability.ReliableSequenced =>
      frame <| order_channel := channel |> <| sequenced_frame_index := sequence |>
            <| ordered_frame_index := order |>
  end.

(** The bytes [insert_payload] reserves, when it accepts. *)
Definition frames_needed (q : SendQ) (r : Reliability) (len : Z) : Z :=
  if bool_decide (r = Reliability.ReliableOrdered) && (mtu q - 60 <? len)
  then div_ceil len (mtu q - 60) else 1.

Definition accepts (q : SendQ) (r : Reliability) (len : Z) : Prop :=
  60 < mtu q /\ (r = Reliability.ReliableOrdered \/ len <= mtu q - 60) /\
  frames_needed q r len <= MAX_FRAGMENTS /\
  frames_needed q r len * FRAME_BUDGET + len <= MAX_BUFFERED_BYTES - buffered_bytes q.

Definition reserved_bytes (q : SendQ) (r : Reliability) (len : Z) : Z :=
  frames_needed q r len * FRAME_BUDGET + len.

(** The queue after a message was accepted, but for the counters of the channels. *)
Definition admit_whole `{!Features} (f : FrameSetPacket) (q : SendQ) : SendQ :=
  if relb f then push_reliable f q
  else if send_policy then push_unreliable f q
  else q <| packets := packets q ++ [f] |> <| queued_unreliable := queued_unreliable q + 1 |>.

Definition fragments_of (buf : list Z) (owned : bool) (channel : Z) (q : SendQ) : list FrameSetPacket :=
  let m := mtu q - 60 in
  numbered (fragment_frame buf owned m (div_ceil (zlen buf) m) (next_shared q) channel
              (ChannelIndexes.get (ordered_frame_indexes q) channel) (compound_id q))
    0 (reliable_frame_index q) (chunks m buf).

Definition admit_fragments (buf : list Z) (owned : bool) (channel : Z) (q : SendQ) : SendQ :=
  q <| shared := <[next_shared q := mk_shared (div_ceil (zlen buf) (mtu q - 60)) (zlen buf)]> (shared q) |>
    <| next_shared := next_shared q + 1 |>
    <| packets := packets q ++ fragments_of buf owned channel q |>.

Section Insert.
Context {feat : Features} {usort : UnstableSort}.
Implicit Types (q : SendQ) (r : Reliability).

Lemma required_bytes_spec q r len :
  required_bytes q r len =
  if bool_decide (60 < mtu q /\ frames_needed q r len <= MAX_FRAGMENTS /\
                  reserved_bytes q r len <= MAX_BUFFERED_BYTES)
  then Ok (reserved_bytes q r len) else Err PacketSizeExceedMTU.
Proof.
  unfold required_bytes, payload_limit, reserved_bytes, frames_needed.
  destruct (60 <? mtu q) eqn:Em; simpl.
  2: { rewrite bool_decide_eq_false_2; [done|]. blia. }
  assert (1 <= MAX_FRAGMENTS) by (unfold MAX_FRAGMENTS; lia).
  destruct (bool_decide (r = _) && (mtu q - 60 <? len)) eqn:E; simpl.
  - destruct (MAX_FRAGMENTS <? _) eqn:Ef; simpl.
    + rewrite bool_decide_eq_false_2; [done|]. blia.
    + case_if; [rewrite bool_decide_eq_true_2|rewrite bool_decide_eq_false_2]; try done; blia.
  - case_if; [rewrite bool_decide_eq_true_2|rewrite bool_decide_eq_false_2]; try done; blia.
Qed.

Lemma relb_whole r buf channel owned q : relb (whole_frame r buf channel owned q) = rel_b r.
Proof. by destruct r. Qed.

(** Rejection leaves the queue as it was; acceptance is exactly [accepts]. *)
Lemma insert_payload_cases r buf channel owned q :
  0 <= buffered_bytes q <= MAX_BUFFERED_BYTES ->
  (~ accepts q r (zlen buf) /\
   insert_payload r buf channel owned q = (Err PacketSizeExceedMTU, q)) \/
  (accepts q r (zlen buf) /\ exists q',
   insert_payload r buf channel owned q = (Ok tt, q') /\
   keeps ((if bool_decide (r = Reliability.ReliableOrdered) && (mtu q - 60 <? zlen buf)
           then admit_fragments buf owned channel q
           else admit_whole (whole_frame r buf channel owned q) q)
          <| buffered_bytes := buffered_bytes q + reserved_bytes q r (zlen buf) |>) q').
Proof.
  intros Hb. unfold insert_payload. erewrite SE_bind_ok by reflexivity.
  unfold MAX_BUFFERED_BYTES in *. rewrite required_bytes_spec.
  destruct (bool_decide _) eqn:Eacc.
  2: { left. split; [|done]. apply bool_decide_eq_false_1 in Eacc. intros (? & _ & ? & ?).
       apply Eacc. unfold reserved_bytes, MAX_BUFFERED_BYTES in *. split_and!; lia. }
  apply bool_decide_eq_true_1 in Eacc as (Hm & Hf & Hr). erewrite SE_bind_ok by reflexivity.
  rewrite usize_sub_exact by lia.
  destruct (_ <? reserved_bytes q r (zlen buf)) eqn:El.
  { left. split; [|done]. intros (_ & _ & _ & ?). unfold reserved_bytes, MAX_BUFFERED_BYTES in *. blia. }
  erewrite SE_bind_ok by reflexivity.
  assert (payload_limit q = Ok (mtu q - 60)) as ->
    by (unfold payload_limit; by rewrite (proj2 (Z.ltb_lt _ _))).
  erewrite SE_bind_ok by reflexivity. cbv beta zeta.
  destruct (decide (r = Reliability.ReliableOrdered \/ zlen buf <= mtu q - 60)) as [Hfit|Hlong].
  2: { left. split; [intros (_ & ? & _); done|]. assert (mtu q - 60 <? zlen buf = true) as E by lia.
       rewrite E. destruct r; try done. tauto. }
  right. assert (accepts q r (zlen buf)) as Hacc.
  { split_and!; [done|done|done|]. unfold reserved_bytes, MAX_BUFFERED_BYTES in *. blia. }
  split; [done|].
  destruct (mtu q - 60 <? zlen buf) eqn:El2.
  - destruct Hfit as [->|?]; [|blia]. cbn [is_unreliable]. rewrite andb_false_r.
    eexists. split; [reflexivity|].
    cbn [fst snd andb]. unfold ChannelIndexes.get_mut. cbv beta iota zeta.
    match goal with |- context [push_fragments ?mk 0 ?l ?q1] =>
      destruct (push_fragments_keeps mk 0 l q1) as [r' ->] end.
    split; reflexivity.
  - rewrite andb_false_r. destruct r; simpl;
      unfold admit_whole, whole_frame, fail_if; simpl;
      (destruct send_policy eqn:Esp; simpl; [destruct (scheduler q) eqn:Es|]);
      eexists; (split; [reflexivity|]);
      unfold push_unreliable, push_reliable; simpl; rewrite ?Es; split; reflexivity.
Qed.

Lemma whole_frame_facts r buf channel owned q :
  zlen buf < 2 ^ 16 ->
  let f := whole_frame r buf channel owned q in
  shared_payload f = None /\ FramePayload.deref (data f) = buf /\ data_len f = zlen buf.
Proof.
  intros Hl f.
  assert (FramePayload.deref (data f) = buf) as Hd.
  { destruct r, owned; simpl; try done; by apply FramePayload.deref_copy_shared. }
  split; [by destruct r|]. split; [done|]. unfold data_len, FramePayload.len. by rewrite Hd.
Qed.

Lemma fragments_of_shared buf owned channel q f :
  f ∈ fragments_of buf owned channel q -> shared_payload f = Some (next_shared q) /\ relb f = true.
Proof.
  intros [i Hi]%list_elem_of_lookup. apply numbered_lookup in Hi as (c & r & _ & ->). done.
Qed.

Lemma unreliable_count_app fs gs :
  unreliable_count (fs ++ gs) = unreliable_count fs + unreliable_count gs.
Proof. apply sumZ_app. Qed.

Lemma unreliable_count_nonneg fs : 0 <= unreliable_count fs.
Proof. apply sumZ_nonneg. intros f _. case_if; lia. Qed.

Lemma unreliable_count_reliable gs : (forall g, g ∈ gs -> relb g = true) -> unreliable_count gs = 0.
Proof.
  unfold unreliable_count. induction gs as [|g gs IH]; intros H; [done|]. cbn [sumZ foldr].
  fold (sumZ (fun f => if relb f then 0 else 1) gs).
  rewrite IH by (intros; apply H; by apply list_elem_of_further).
  by rewrite H by apply list_elem_of_here.
Qed.

Lemma holdings_push_perm q gs :
  map body gs ++ holdings q ≡ₚ
  map body (packets q ++ gs) ++ flight q ++ map body (waiting_unreliable q).
Proof.
  unfold holdings. rewrite map_app, (app_assoc (map body gs)).
  apply Permutation_app_tail, Permutation_app_comm.
Qed.

(** A frame with its own payload joins the queue or the scheduler's lane. *)
Lemma admit_whole_inv f q :
  sendq_inv q -> shared_payload f = None ->
  buffered_bytes q + (data_len f + FRAME_BUDGET) <= MAX_BUFFERED_BYTES ->
  sendq_inv (admit_whole f q <| buffered_bytes := buffered_bytes q + (data_len f + FRAME_BUDGET) |>).
Proof.
  intros [Ha Hl Hfr Hmo Hfl Hqu Hsch Hpol] Hs Hb. simpl in Ha, Hmo.
  assert (forall f', shared_payload f' = None -> data_len f' = data_len f ->
    accounted (body f' :: holdings q) (shared q) (buffered_bytes q + (data_len f + FRAME_BUDGET))) as Hac.
  { intros f' Hs' <-. by apply (accounted_add (body f')). }
  assert (forall f', shared_payload f' = None ->
    forall g, g ∈ body f' :: holdings q -> relb g = false -> shared_payload g = None) as Hm.
  { intros f' Hs' g [->|Hg]%elem_of_cons Hr; [done|by apply Hmo]. }
  unfold admit_whole, push_unreliable. destruct (relb f) eqn:Er.
  - set (f' := f <| Frame.reliable_frame_index := reliable_frame_index q |>).
    pose proof (holdings_push_perm q [f']) as Hp. simpl in Hp.
    split; simpl; try done.
    + apply (accounted_perm _ _ _ _ Hp). by apply Hac.
    + intros g Hg. apply (Hm f'); [done|]. by rewrite Hp.
    + rewrite unreliable_count_app, (unreliable_count_reliable [_]); [lia|].
      intros g ->%list_elem_of_singleton. exact Er.
    + intros s Hs0. rewrite unreliable_count_app, (unreliable_count_reliable [_]), Z.add_0_r.
      { by apply (Hpol s). } intros g ->%list_elem_of_singleton. exact Er.
  - destruct send_policy eqn:Epol; [destruct (scheduler q) as [s|] eqn:Es|].
    + assert (body f :: holdings q ≡ₚ map body (packets q) ++ flight q ++ map body (unreliable s ++ [f])) as Hp.
      { unfold holdings, waiting_unreliable. rewrite Es, map_app. simpl.
        rewrite !app_assoc. by rewrite (Permutation_app_comm _ [body f]). }
      split; simpl; try done.
      * apply (accounted_perm _ _ _ _ Hp). by apply Hac.
      * intros g Hg. apply (Hm f); [done|]. by rewrite Hp.
      * intros s' [= <-]. simpl. destruct (Hsch s eq_refl) as [Hb' Hu]. split.
        -- rewrite sumZ_app, Hb'. simpl. unfold cost. rewrite Hs. lia.
        -- apply Forall_app. by repeat constructor.
      * intros s' _. split; [done|by apply (Hpol s)].
    + set (f' := f <| Frame.sequence_number := sequence_number q |>).
      pose proof (holdings_push_perm q [f']) as Hp. simpl in Hp.
      unfold holdings, waiting_unreliable in Hp. rewrite Es in Hp.
      split; simpl; try done.
      * unfold holdings, waiting_unreliable. simpl. rewrite Es. apply (accounted_perm _ _ _ _ Hp).
        pose proof (Hac f' Hs eq_refl) as Hac'. unfold holdings, waiting_unreliable in Hac'.
        by rewrite Es in Hac'.
      * intros g Hg. apply (Hm f'); [done|]. unfold holdings, waiting_unreliable in Hg |- *.
        simpl in Hg. rewrite Es in Hg |- *. by rewrite Hp.
      * rewrite unreliable_count_app, Hqu. unfold unreliable_count at 3. simpl.
        change (relb f') with (relb f). rewrite Er. lia.
      * intros s'. by rewrite Es.
      * intros s'. by rewrite Es.
    + pose proof (holdings_push_perm q [f]) as Hp. simpl in Hp.
      split; simpl; try done.
      * apply (accounted_perm _ _ _ _ Hp). by apply Hac.
      * intros g Hg. apply (Hm f); [done|]. by rewrite Hp.
      * rewrite unreliable_count_app, Hqu. unfold unreliable_count at 3. simpl. rewrite Er. lia.
      * intros s Hs0. by destruct (Hpol s Hs0).
Qed.

Lemma admit_fragments_inv buf owned channel q :
  sendq_inv q -> 60 < mtu q -> 0 < zlen buf ->
  let n := div_ceil (zlen buf) (mtu q - 60) in
  buffered_bytes q + (n * FRAME_BUDGET + zlen buf) <= MAX_BUFFERED_BYTES ->
  sendq_inv (admit_fragments buf owned channel q
               <| buffered_bytes := buffered_bytes q + (n * FRAME_BUDGET + zlen buf) |>).
Proof.
  intros [Ha Hl Hfr Hmo Hfl Hqu Hsch Hpol] Hm Hbuf n Hb. simpl in Ha, Hmo.
  set (gs := fragments_of buf owned channel q).
  assert (zlen gs = n) as Hn by (unfold gs, fragments_of; rewrite numbered_length, chunks_length; [done|lia]).
  assert (shared q !! next_shared q = None) as Hnone.
  { destruct (shared q !! next_shared q) eqn:E; [|done]. specialize (Hfr _ (mk_is_Some _ _ E)). lia. }
  pose proof (div_ceil_bounds (zlen buf) (mtu q - 60) ltac:(lia) Hbuf) as Hdiv. fold n in Hdiv.
  pose proof (holdings_push_perm q gs) as Hp.
  assert (forall g, g ∈ map body gs -> shared_payload g = Some (next_shared q) /\ relb g = true) as Hgs.
  { intros g (g' & -> & Hg')%list_elem_of_fmap. exact (fragments_of_shared _ _ _ _ _ Hg'). }
  assert (accounted (map body gs ++ holdings q)
    (<[next_shared q := mk_shared n (zlen buf)]> (shared q))
    (buffered_bytes q + (n * FRAME_BUDGET + zlen buf))) as Hac.
  { rewrite <- Hn. rewrite <- (length_map body gs). apply accounted_add_fragments; try done.
    - intros g Hg. by apply Hgs.
    - rewrite length_map, Hn. nia.
    - lia. }
  split; simpl; try done.
  - by apply (accounted_perm _ _ _ _ Hp).
  - intros k [<-|Hk]%lookup_insert_is_Some'; [lia|]. specialize (Hfr k Hk). lia.
  - intros g Hg. assert (g ∈ map body gs ++ holdings q) as [Hg'|Hg']%elem_of_app by (by rewrite Hp).
    + intros Hr. destruct (Hgs g Hg'). congruence.
    + by apply Hmo.
  - rewrite unreliable_count_app, (unreliable_count_reliable (fragments_of _ _ _ _)); [lia|].
    intros g Hg. by apply (fragments_of_shared buf owned channel q).
  - intros s Hs0. rewrite unreliable_count_app, (unreliable_count_reliable (fragments_of _ _ _ _)).
    { rewrite Z.add_0_r. by apply (Hpol s). }
    intros g Hg. by apply (fragments_of_shared buf owned channel q).
Qed.

Lemma insert_payload_inv r buf channel owned q :
  sendq_inv q -> in_range 16 (mtu q) -> sendq_inv (insert_payload r buf channel owned q).2.
Proof.
  intros Hq Hmtu. pose proof (inv_bytes _ _ Hq) as [Hb _]. unfold in_range in Hmtu.
  destruct (insert_payload_cases r buf channel owned q Hb) as
    [(_ & ->)|((Hm & Hfit & Hfr & Hlim) & q' & -> & Hk)]; [done|]. simpl.
  apply (keeps_inv _ _ _ Hk). unfold reserved_bytes. unfold frames_needed in *.
  destruct (bool_decide (r = Reliability.ReliableOrdered) && (mtu q - 60 <? zlen buf)) eqn:E.
  - apply andb_true_iff in E as [_ E]. apply admit_fragments_inv; [done|lia|blia|lia].
  - assert (zlen buf <= mtu q - 60) as Hlen.
    { destruct Hfit as [->|?]; [|done]. rewrite bool_decide_eq_true_2 in E by done. simpl in E. blia. }
    destruct (whole_frame_facts r buf channel owned q) as (Hs & _ & Hl); [lia|].
    replace (buffered_bytes q + (1 * FRAME_BUDGET + zlen buf))
      with (buffered_bytes q + (data_len (whole_frame r buf channel owned q) + FRAME_BUDGET)) by lia.
    apply admit_whole_inv; [done|done|lia].
Qed.
End Insert.

(** ** The fragments are a message of the receiver *)

Section Fragments.
Implicit Types (q : SendQ) (buf : list Z).

Lemma fragment_frame_payload buf owned m n key channel order id i c :
  0 < m < 2 ^ 16 -> zlen buf < 2 ^ 32 -> chunks m buf !! i = Some c ->
  FramePayload.deref (data (fragment_frame buf owned m n key channel order id (Z.of_nat i) c)) = c.
Proof.
  intros Hm Hb Hc. destruct (chunks_lookup m buf i c) as (Hslice & Hend & Hlen); [lia|done|].
  unfold fragment_frame. simpl. destruct owned; simpl; [done|].
  rewrite !wrap_small by (unfold in_range; lia). by rewrite Nat2Z.id.
Qed.

(** A message to be split: longer than a frame's payload, and within the limits. *)
Record splittable q buf : Prop := {
  split_mtu : 60 < mtu q < 2 ^ 16;
  split_long : mtu q - 60 < zlen buf;
  split_count : div_ceil (zlen buf) (mtu q - 60) <= MAX_FRAGMENTS;
}.

Lemma splittable_length q buf : splittable q buf -> zlen buf < 2 ^ 32.
Proof.
  intros [Hm Hl Hc]. pose proof (div_ceil_bounds (zlen buf) (mtu q - 60) ltac:(lia) ltac:(lia)).
  unfold MAX_FRAGMENTS in *. nia.
Qed.

Lemma fragments_of_length buf owned channel q :
  60 < mtu q -> zlen (fragments_of buf owned channel q) = div_ceil (zlen buf) (mtu q - 60).
Proof. intros. unfold fragments_of. rewrite numbered_length, chunks_length; [done|lia]. Qed.

Lemma fragments_of_lookup buf owned channel q i f :
  splittable q buf -> fragments_of buf owned channel q !! i = Some f ->
  exists c r, chunks (mtu q - 60) buf !! i = Some c /\ FramePayload.deref (data f) = c /\
    f = fragment_frame buf owned (mtu q - 60) (div_ceil (zlen buf) (mtu q - 60)) (next_shared q) channel
          (ChannelIndexes.get (ordered_frame_indexes q) channel) (compound_id q) (Z.of_nat i) c
          <| Frame.reliable_frame_index := r |>.
Proof.
  intros Hs Hf. apply numbered_lookup in Hf as (c & r & Hc & ->). exists c, r. rewrite Z.add_0_l.
  split; [done|]. split; [|done]. pose proof (splittable_length _ _ Hs). destruct Hs.
  apply (fragment_frame_payload buf); [lia|done|done].
Qed.

Lemma map_eq_lookup {A B} (g : A -> B) (l : list A) (k : list B) :
  length l = length k -> (forall i x, l !! i = Some x -> k !! i = Some (g x)) -> map g l = k.
Proof.
  intros Hlen H. apply list_eq. intros i. rewrite list_lookup_fmap.
  destruct (l !! i) as [x|] eqn:E; simpl; [by rewrite (H i x)|].
  symmetry. apply lookup_ge_None. apply lookup_ge_None in E. lia.
Qed.

Lemma fragments_concat buf owned channel q :
  splittable q buf ->
  concat (map (fun f => FramePayload.deref (data f)) (fragments_of buf owned channel q)) = buf.
Proof.
  intros Hs. rewrite (map_eq_lookup _ _ (chunks (mtu q - 60) buf)).
  - apply chunks_concat. destruct Hs. lia.
  - unfold fragments_of. apply numbered_length.
  - intros i f Hf. apply fragments_of_lookup in Hf as (c & r & Hc & Hd & _); [|done]. by rewrite Hd.
Qed.

Lemma fragments_message buf owned channel q :
  splittable q buf -> message (compound_id q) (fragments_of buf owned channel q).
Proof.
  intros Hs. pose proof (splittable_length _ _ Hs) as Hb. pose proof Hs as [Hm Hl Hc].
  pose proof (fragments_of_length buf owned channel q ltac:(lia)) as Hlen.
  pose proof (div_ceil_bounds (zlen buf) (mtu q - 60) ltac:(lia) ltac:(lia)) as Hd.
  set (fs := fragments_of buf owned channel q) in *.
  assert (1 <= div_ceil (zlen buf) (mtu q - 60)) as Hpos by nia.
  assert (forall i f, fs !! i = Some f -> Z.of_nat i < zlen fs) as Hi
    by (intros i f ?%lookup_lt_Some; lia).
  unfold MAX_FRAGMENTS in Hc.
  split.
  - unfold MAX_FRAGMENTS. lia.
  - intros f [i Hf]%list_elem_of_lookup. specialize (Hi i f Hf).
    apply fragments_of_lookup in Hf as (c & r & _ & _ & ->); [|done].
    split; [by exists Reliability.ReliableOrdered|]. simpl. split; [|lia].
    apply wrap_range. lia.
  - intros i f Hf. specialize (Hi i f Hf).
    apply fragments_of_lookup in Hf as (c & r & _ & _ & ->); [|done]. simpl.
    rewrite wrap_small by (unfold in_range; lia). lia.
  - intros f g [i Hf]%list_elem_of_lookup [j Hg]%list_elem_of_lookup.
    apply fragments_of_lookup in Hf as (c & r & _ & _ & ->); [|done].
    by apply fragments_of_lookup in Hg as (c' & r' & _ & _ & ->); [|done].
Qed.

(** Every fragment fits the path's MTU with the headers of IP and UDP. *)
Lemma fragments_fit buf owned channel q f :
  splittable q buf -> f ∈ fragments_of buf owned channel q -> _size f = Ok (24 + data_len f) /\
  24 + data_len f <= mtu q - 28.
Proof.
  intros Hs [i Hf]%list_elem_of_lookup.
  apply fragments_of_lookup in Hf as (c & r & Hc & Hd & Hf); [|done].
  split.
  - rewrite (_size_ok f Reliability.ReliableOrdered) by (by rewrite Hf).
    replace (is_fragment f) with true by (by rewrite Hf). done.
  - destruct Hs. apply chunks_lookup in Hc as (_ & _ & Hc); [|lia].
    unfold data_len, FramePayload.len. rewrite Hd. lia.
Qed.
End Fragments.
