(* ===== verification/SendQFlow.v ===== *)
(** * Acknowledgement and transmission

    The operations of [SendQ.v] that move frames: acknowledgements take them out, a flush
    sends them. Each preserves the accounting invariant, and frames are conserved: what
    leaves the queue was acknowledged, or was unreliable and has been handed to the wire. *)

From S2P Require Import Prelude Errors Sequence Frame FrameCodec Fragment RecvQ SendOptions SendQ SendQInv SendQInsert.
Import SendQ.

Definition sent_body (p : Sent) : FrameSetPacket := body (frame p).

Section Acknowledge.
Context {feat : Features} {usort : UnstableSort}.
Implicit Types (q : SendQ) (p : Sent) (gone rest : list Sent).

(** Entries taken out of the flight, not yet accounted for. *)
Lemma take_sent_inv q gone rest :
  sendq_inv q -> sent_packet q ≡ₚ gone ++ rest ->
  sendq_inv_with (map sent_body gone) (q <| sent_packet := rest |>).
Proof.
  intros [Ha Hl Hfr Hmo Hfl Hqu Hsch Hpol] Hp. simpl in Ha, Hmo.
  assert (flight q ≡ₚ map sent_body gone ++ map sent_body rest) as Hf
    by (unfold flight; rewrite Hp, map_app; done).
  assert (holdings q ≡ₚ map sent_body gone ++ holdings (q <| sent_packet := rest |>)) as Hh.
  { unfold holdings. rewrite Hf. simpl. rewrite <- (app_assoc (map sent_body gone)).
    apply Permutation_app_swap_app. }
  split; simpl; try done.
  - by apply (accounted_perm _ _ _ _ Hh).
  - intros f Hin. apply Hmo. by rewrite Hh.
  - intros f Hin. apply Hfl. rewrite Hf. apply elem_of_app. by right.
Qed.

Lemma ack_direct_inv sequence now q : sendq_inv q -> sendq_inv (ack_direct sequence now q).
Proof.
  intros Hq. unfold ack_direct.
  destruct (list_find (acknowledges sequence) (sent_packet q)) as [[i item]|] eqn:E; [|done].
  apply list_find_Some in E as (Hi & _ & _).
  pose proof (take_sent_inv q [item] _ Hq (delete_Permutation _ _ _ Hi)) as H1.
  cbn [map] in H1. set (q1 := q <| sent_packet := _ |>) in *. clearbody q1.
  set (q2 := if recovery_policy then _ else q1).
  assert (sendq_inv_with [sent_body item] q2) as H2.
  { unfold q2. destruct recovery_policy; [|done].
    by apply (keeps_inv _ _ _ (acknowledge_progress_keeps _ _ _)). }
  clearbody q2. set (q3 := if _ && _ then _ else q2).
  assert (sendq_inv_with [sent_body item] q3) as H3.
  { unfold q3. case_if; [|done]. by apply (keeps_inv _ q2); [split|]. }
  clearbody q3. pose proof (release_inv _ _ _ H3) as H4.
  change (release (frame item) (shared q3)) with (release (sent_body item) (shared q3)).
  destruct (release (sent_body item) (shared q3)) as [released store]. destruct H4 as (H4 & _ & _).
  set (q4 := q3 <| shared := store |> <| buffered_bytes := _ |>) in *. clearbody q4.
  set (q5 := if newer _ _ then _ else q4).
  assert (sendq_inv q5) as H5.
  { unfold q5. case_if; [|done]. eapply keeps_inv; [|exact H4].
    etransitivity; [apply nack_all_keeps|]. by split. }
  clearbody q5. case_if; [|done]. by apply (keeps_inv _ _ _ (update_rto_keeps _ _)).
Qed.

(** An entry is kept, or it is acknowledged and released. *)
Definition acked_by (ranges : list (Z * Z)) (p : Sent) : Prop :=
  exists id, (id = Frame.sequence_number (frame p) \/ id ∈ aliases p) /\ in_rangesb ranges id = true.

Lemma ack_item_cases GROUPED ranges now acc p :
  let acc1 := ack_item GROUPED ranges now acc p in
  (~ acked_by ranges p /\ kept acc1 = kept acc ++ [p] /\ pass_shared acc1 = pass_shared acc /\
   released_bytes acc1 = released_bytes acc) \/
  (acked_by ranges p /\ kept acc1 = kept acc /\
   pass_shared acc1 = (release (frame p) (pass_shared acc)).2 /\
   released_bytes acc1
     = released_bytes acc + ((release (frame p) (pass_shared acc)).1 + FRAME_BUDGET)).
Proof.
  unfold ack_item, acked_by. destruct (list_find _ _) as [[i id]|] eqn:E.
  - right. apply list_find_Some in E as (Hi & Hid & _).
    apply list_elem_of_lookup_2, elem_of_cons in Hi. apply Is_true_eq_true in Hid.
    destruct (release (frame p) (pass_shared acc)) as [r store].
    split; [exists id; tauto|]. by destruct (unambiguous p && _).
  - left. split; [|done]. intros (id & Hid & Hr). apply list_find_None in E.
    rewrite list.Forall_forall in E.
    apply (E id); [apply elem_of_cons; tauto|by apply Is_true_eq_left].
Qed.

(** The pass over the flight, which compacts it. [others] are the frames elsewhere. *)
Lemma ack_pass GROUPED ranges now items acc others bytes :
  accounted (map sent_body items ++ map sent_body (kept acc) ++ others) (pass_shared acc)
    (bytes - released_bytes acc) ->
  0 <= released_bytes acc -> bytes < 2 ^ 64 ->
  let acc' := foldl (ack_item GROUPED ranges now) acc items in
  accounted (map sent_body (kept acc') ++ others) (pass_shared acc') (bytes - released_bytes acc') /\
  0 <= released_bytes acc' /\
  (forall k, is_Some (pass_shared acc' !! k) <-> is_Some (pass_shared acc !! k)).
Proof.
  revert acc. induction items as [|p items IH]; intros acc Hac Hr Hb; simpl; [done|].
  simpl in Hac. set (acc1 := ack_item GROUPED ranges now acc p).
  destruct (ack_item_cases GROUPED ranges now acc p) as [(_ & E1 & E2 & E3)|(_ & E1 & E2 & E3)];
    fold acc1 in E1, E2, E3.
  - destruct (IH acc1) as (I1 & I2 & I3).
    + rewrite E1, E2, E3, map_app, <- app_assoc. simpl. eapply accounted_perm; [|exact Hac].
      rewrite (app_assoc (map sent_body items)), (Permutation_middle (map sent_body items ++ _)).
      by rewrite <- !app_assoc.
    + lia.
    + done.
    + split_and!; [done|done|]. intros k. by rewrite I3, E2.
  - pose proof (release_accounted (sent_body p) _ _ _ Hac ltac:(lia)) as Hrel.
    change (release (frame p) (pass_shared acc)) with (release (sent_body p) (pass_shared acc)) in *.
    destruct (release (sent_body p) (pass_shared acc)) as [released store]. simpl in E2, E3.
    destruct Hrel as (Hac' & Hrr & _ & Hkeys). unfold FRAME_BUDGET in *.
    destruct (IH acc1) as (I1 & I2 & I3).
    + rewrite E1, E2, E3. by replace (bytes - (released_bytes acc + (released + 128)))
        with (bytes - released_bytes acc - (released + 128)) by lia.
    + lia.
    + done.
    + split_and!; [done|done|]. intros k. rewrite I3, E2. apply Hkeys.
Qed.

(** What the pass keeps: the entries not acknowledged, in order. *)
Lemma ack_pass_kept GROUPED ranges now items acc :
  exists kept' gone, kept (foldl (ack_item GROUPED ranges now) acc items) = kept acc ++ kept' /\
    kept' `sublist_of` items /\ items ≡ₚ gone ++ kept' /\
    (forall p, p ∈ gone -> acked_by ranges p) /\ (forall p, p ∈ kept' -> ~ acked_by ranges p).
Proof.
  revert acc. induction items as [|p items IH]; intros acc; simpl.
  { exists [], []. rewrite app_nil_r. set_solver. }
  destruct (IH (ack_item GROUPED ranges now acc p)) as (kept' & gone & E & Hs & Hp & Hg & Hk).
  destruct (ack_item_cases GROUPED ranges now acc p) as [(Hn & E1 & _)|(Hy & E1 & _)].
  - exists (p :: kept'), gone. rewrite E, E1, <- app_assoc. split; [done|]. split; [by constructor|].
    split; [by rewrite Hp, Permutation_middle|]. split; [done|].
    intros x [->|?]%elem_of_cons; [done|by apply Hk].
  - exists kept', (p :: gone). rewrite E, E1. split; [done|]. split; [by constructor|].
    split; [by rewrite Hp|]. split; [|done]. intros x [->|?]%elem_of_cons; [done|by apply Hg].
Qed.

Lemma kept_inv q (kept' : list Sent) store bytes :
  sendq_inv q ->
  accounted (map sent_body kept' ++ map body (packets q) ++ map body (waiting_unreliable q)) store bytes ->
  (forall k, is_Some (store !! k) <-> is_Some (shared q !! k)) -> bytes <= MAX_BUFFERED_BYTES ->
  kept' `sublist_of` sent_packet q ->
  sendq_inv (q <| sent_packet := kept' |> <| shared := store |> <| buffered_bytes := bytes |>).
Proof.
  intros [Ha Hl Hfr Hmo Hfl Hqu Hsch Hpol] Hac Hkeys Hb Hsub. simpl in Ha, Hmo.
  assert (forall f, f ∈ map sent_body kept' -> f ∈ flight q) as Hin.
  { intros f (p & -> & Hp)%list_elem_of_fmap. apply list_elem_of_fmap. exists p.
    split; [done|]. by eapply elem_of_sublist. }
  split; simpl; try done.
  - eapply accounted_perm; [|exact Hac]. unfold holdings, flight. simpl.
    apply Permutation_app_swap_app.
  - intros k Hk%Hkeys. by apply Hfr.
  - intros f Hf. apply Hmo. unfold holdings, flight in *. simpl in Hf.
    apply elem_of_app in Hf as [Hf|[Hf|Hf]%elem_of_app]; rewrite !elem_of_app; [by left| |by right; right].
    right. left. by apply Hin.
  - intros f Hf. by apply Hfl, Hin.
Qed.

Lemma ack_ranges_pass_inv GROUPED ranges now q :
  sendq_inv q -> sendq_inv (ack_ranges_pass GROUPED ranges now q).
Proof.
  intros Hq. unfold ack_ranges_pass.
  set (acc := foldl _ _ (sent_packet q)).
  pose proof (inv_bytes _ _ Hq) as [Hb Hb'].
  destruct (ack_pass GROUPED ranges now (sent_packet q)
    (mk_pass [] (shared q) (ack_sequence_number q) (srtt q, rto q) 0 None false)
    (map body (packets q) ++ map body (waiting_unreliable q)) (buffered_bytes q)) as (Hac & Hr & Hkeys).
  { simpl. rewrite Z.sub_0_r. eapply accounted_perm; [|exact (sq_accounted _ _ Hq)].
    simpl. unfold holdings. apply Permutation_app_swap_app. }
  { done. }
  { done. }
  destruct (ack_pass_kept GROUPED ranges now (sent_packet q)
    (mk_pass [] (shared q) (ack_sequence_number q) (srtt q, rto q) 0 None false))
    as (kept' & _ & Ek & Hsub & _).
  fold acc in Hac, Hr, Hkeys, Ek. clearbody acc. simpl in Ek. subst kept'.
  pose proof (accounted_bound _ _ _ Hac) as Hbound. unfold FRAME_BUDGET in Hbound.
  pose proof (kept_inv q (kept acc) (pass_shared acc) (buffered_bytes q - released_bytes acc)
    Hq Hac Hkeys ltac:(lia) Hsub) as H1.
  rewrite usize_sub_exact by lia.
  set (q1 := q <| sent_packet := kept acc |> <| shared := _ |> <| buffered_bytes := _ |>) in *.
  clearbody q1.
  set (q2 := if recovery_policy && _ then _ else q1).
  assert (sendq_inv q2) as H2.
  { unfold q2. case_if; [|done]. by apply (keeps_inv _ _ _ (acknowledge_progress_keeps _ _ _)). }
  clearbody q2. set (q3 := if GROUPED && _ then _ else q2).
  assert (sendq_inv q3) as H3 by (unfold q3; case_if; [by apply (keeps_inv _ q2); [split|]|done]).
  clearbody q3. set (q4 := if negb _ then _ else q3).
  assert (sendq_inv q4) as H4 by (unfold q4; case_if; [by apply (keeps_inv _ q3); [split|]|done]).
  clearbody q4. set (q5 := q4 <| srtt := _ |> <| rto := _ |>).
  assert (sendq_inv q5) as H5 by (by apply (keeps_inv _ q4); [split|]).
  clearbody q5. case_if; [|done].
  eapply keeps_inv; [|exact H5]. etransitivity; [apply nack_all_keeps|]. by split.
Qed.

Lemma ack_ranges_inner_inv GROUPED ranges now q :
  sendq_inv q -> sendq_inv (ack_ranges_inner GROUPED ranges now q).
Proof.
  intros Hq. unfold ack_ranges_inner. destruct ranges as [|[start stop] [|]];
    try (by apply ack_ranges_pass_inv).
  case_if; [by apply ack_direct_inv|by apply ack_ranges_pass_inv].
Qed.

Lemma ack_ranges_inv ranges now q : sendq_inv q -> sendq_inv (ack_ranges ranges now q).
Proof. intros Hq. unfold ack_ranges. case_if; by apply ack_ranges_inner_inv. Qed.

Lemma ack_inv sequence now q : sendq_inv q -> sendq_inv (ack sequence now q).
Proof. intros Hq. unfold ack. case_if; [by apply ack_ranges_inv|by apply ack_direct_inv]. Qed.

(** [acks ranges q q']: entries that [ranges] acknowledges left the flight, the others are
    still in it. Where one that [ranges] acknowledges is left, it shares the number of the
    single frame that was acknowledged. *)
Definition acks (ranges : list (Z * Z)) q q' : Prop :=
  packets q' = packets q /\ scheduler q' = scheduler q /\
  exists gone rest, sent_packet q ≡ₚ gone ++ rest /\ flight q' ≡ₚ map sent_body rest /\
    (forall p, p ∈ gone -> acked_by ranges p) /\
    (forall p, p ∈ rest -> acked_by ranges p -> exists id p0, ranges = [(id, id)] /\ gone = [p0]).

Lemma acked_by_single id p : acked_by [(id, id)] p <-> acknowledges id p.
Proof.
  unfold acked_by, acknowledges. simpl. split.
  - intros (x & Hx & E). assert (x = id) as -> by blia. destruct Hx as [->|?]; auto.
  - intros Hx. exists id. split; [destruct Hx; auto|]. lia.
Qed.

Lemma acks_keeps ranges q q1 q2 : acks ranges q q1 -> keeps q1 q2 -> acks ranges q q2.
Proof.
  intros (Hp & Hs & gone & rest & H1 & H2 & H3) [Kp Kf _ _ _ _ Ks _].
  split; [congruence|]. split; [congruence|]. exists gone, rest. by rewrite Kf.
Qed.

Lemma ack_direct_acks id now q : acks [(id, id)] q (ack_direct id now q).
Proof.
  unfold ack_direct. destruct (list_find _ _) as [[i item]|] eqn:E.
  2: { split; [done|]. split; [done|]. exists [], (sent_packet q). split; [done|]. split; [done|].
       split; [intros p Hp; by apply not_elem_of_nil in Hp|]. intros p Hp Ha%acked_by_single.
       apply list_find_None in E. rewrite list.Forall_forall in E. by apply E in Hp. }
  apply list_find_Some in E as (Hi & Hack & _).
  set (q1 := q <| sent_packet := _ |>).
  assert (acks [(id, id)] q q1) as H1.
  { split; [done|]. split; [done|]. exists [item], (delete i (sent_packet q)).
    split; [by apply delete_Permutation|]. split; [done|].
    split; [intros p ->%list_elem_of_singleton; by apply acked_by_single|by eauto]. }
  clearbody q1. set (q2 := if recovery_policy then _ else q1).
  assert (acks [(id, id)] q q2) as H2.
  { unfold q2. case_if; [|done]. by eapply acks_keeps; [|apply acknowledge_progress_keeps]. }
  clearbody q2. set (q3 := if _ && _ then _ else q2).
  assert (acks [(id, id)] q q3) as H3 by (unfold q3; by case_if).
  clearbody q3. destruct (release _ _) as [released store]. cbv zeta.
  set (q4 := q3 <| shared := store |> <| buffered_bytes := _ |>).
  assert (acks [(id, id)] q q4) as H4 by done. clearbody q4.
  set (q5 := if newer _ _ then _ else q4).
  assert (acks [(id, id)] q q5) as H5.
  { unfold q5. case_if; [|done]. eapply acks_keeps; [exact H4|].
    etransitivity; [apply nack_all_keeps|]. by split. }
  clearbody q5. case_if; [|done]. eapply acks_keeps; [exact H5|apply update_rto_keeps].
Qed.

Lemma ack_ranges_pass_acks GROUPED ranges now q : acks ranges q (ack_ranges_pass GROUPED ranges now q).
Proof.
  unfold ack_ranges_pass. set (acc := foldl _ _ (sent_packet q)).
  destruct (ack_pass_kept GROUPED ranges now (sent_packet q)
    (mk_pass [] (shared q) (ack_sequence_number q) (srtt q, rto q) 0 None false))
    as (kept' & gone & Ek & _ & Hp & Hg & Hk).
  fold acc in Ek. clearbody acc. simpl in Ek.
  set (q1 := q <| sent_packet := kept acc |> <| shared := _ |> <| buffered_bytes := _ |>).
  assert (acks ranges q q1) as H1.
  { split; [done|]. split; [done|]. exists gone, kept'. split; [done|].
    split; [unfold q1, flight; simpl; by rewrite Ek|]. split; [done|]. intros p Hin Ha. by apply Hk in Hin. }
  clearbody q1. set (q2 := if recovery_policy && _ then _ else q1).
  assert (acks ranges q q2) as H2.
  { unfold q2. case_if; [|done]. by eapply acks_keeps; [|apply acknowledge_progress_keeps]. }
  clearbody q2. set (q3 := if GROUPED && _ then _ else q2).
  assert (acks ranges q q3) as H3 by (unfold q3; by case_if).
  clearbody q3. set (q4 := if negb _ then _ else q3).
  assert (acks ranges q q4) as H4 by (unfold q4; by case_if).
  clearbody q4. set (q5 := q4 <| srtt := _ |> <| rto := _ |>).
  assert (acks ranges q q5) as H5 by done.
  clearbody q5. case_if; [|done]. eapply acks_keeps; [exact H5|].
  etransitivity; [apply nack_all_keeps|]. by split.
Qed.

Lemma ack_ranges_acks ranges now q : acks ranges q (ack_ranges ranges now q).
Proof.
  assert (forall GROUPED, acks ranges q (ack_ranges_inner GROUPED ranges now q)) as H.
  { intros GROUPED. unfold ack_ranges_inner. destruct ranges as [|[start stop] [|]];
      try apply ack_ranges_pass_acks.
    destruct (start =? stop) eqn:E; simpl; [|apply ack_ranges_pass_acks].
    apply Z.eqb_eq in E as ->. case_if; [apply ack_direct_acks|apply ack_ranges_pass_acks]. }
  unfold ack_ranges. case_if; apply H.
Qed.
End Acknowledge.

(** ** Transmission *)

(** [sends q out q' out']: the queue went from [q] to [q'] and its output from [out] to
    [out']; what it sent were frames it held, and those it no longer holds are unreliable
    and in the output. *)
Record sends {feat : Features} (q : SendQ) (out : list FrameSetPacket) (q' : SendQ) (out' : list FrameSetPacket) : Prop := {
  sends_inv : sendq_inv q';
  sends_mtu : mtu q' = mtu q;
  sends_out : exists new, map body out' = map body out ++ new /\ forall f, f ∈ new -> f ∈ holdings q;
  sends_gone : exists gone, holdings q ≡ₚ gone ++ holdings q' /\
    forall f, f ∈ gone -> relb f = false /\ f ∈ map body out';
}.

Section Transmit.
Context {feat : Features} {usort : UnstableSort}.
Implicit Types (q : SendQ) (f : FrameSetPacket) (out : list FrameSetPacket).

Lemma sends_nothing q out :
  exists new, map body out = map body out ++ new /\ forall f, f ∈ new -> f ∈ holdings q.
Proof. exists []. rewrite app_nil_r. split; [done|]. intros f Hf. by apply not_elem_of_nil in Hf. Qed.

Lemma sends_one q out p f :
  f ∈ holdings q -> body p = f ->
  exists new, map body (out ++ [p]) = map body out ++ new /\ forall g, g ∈ new -> g ∈ holdings q.
Proof.
  intros Hf Hp. exists [body p]. rewrite map_app. split; [done|].
  intros g ->%list_elem_of_singleton. by rewrite Hp.
Qed.

Lemma sends_refl q out : sendq_inv q -> sends q out q out.
Proof.
  intros Hq. split; [done|done|apply sends_nothing|].
  exists []. split; [done|]. intros f Hf. by apply not_elem_of_nil in Hf.
Qed.

Lemma sends_trans q1 out1 q2 out2 q3 out3 :
  sends q1 out1 q2 out2 -> sends q2 out2 q3 out3 -> sends q1 out1 q3 out3.
Proof.
  intros [I1 M1 (n1 & O1 & N1) (g1 & P1 & G1)] [I2 M2 (n2 & O2 & N2) (g2 & P2 & G2)].
  split; [done|congruence| |].
  - exists (n1 ++ n2). rewrite O2, O1, <- app_assoc. split; [done|].
    intros f [Hf|Hf]%elem_of_app; [by apply N1|]. rewrite P1. apply elem_of_app. right. by apply N2.
  - exists (g1 ++ g2). split; [by rewrite P1, P2, <- app_assoc|].
    intros f [Hf|Hf]%elem_of_app; [|by apply G2]. destruct (G1 f Hf) as [? Hin].
    split; [done|]. rewrite O2. apply elem_of_app. by left.
Qed.

Lemma sends_keeps q out q' : keeps q q' -> sendq_inv q -> sends q out q' out.
Proof.
  intros Hk Hq. split; [by apply (keeps_inv _ q)|apply Hk|apply sends_nothing|].
  exists []. split; [|intros f Hf; by apply not_elem_of_nil in Hf].
  destruct Hk as [Hp Hf _ _ _ _ Hs _]. simpl. unfold holdings, waiting_unreliable.
  by rewrite Hp, Hs, Hf.
Qed.

(** The invariant reads the frames only up to their order. *)
Lemma reorder_inv q q' :
  sendq_inv q -> holdings q' ≡ₚ holdings q -> shared q' = shared q ->
  next_shared q' = next_shared q -> buffered_bytes q' = buffered_bytes q ->
  scheduler q' = scheduler q -> queued_unreliable q' = queued_unreliable q ->
  unreliable_count (packets q') = unreliable_count (packets q) ->
  (forall f, f ∈ flight q' -> relb f = true) -> sendq_inv q'.
Proof.
  intros [Ha Hl Hfr Hmo Hfl Hqu Hsch Hpol] Hp Hs Hn Hb Hsc Hq Hc Hf.
  split; rewrite ?Hs, ?Hn, ?Hb, ?Hsc, ?Hq, ?Hc; try done.
  - simpl. by apply (accounted_perm (holdings q)).
  - simpl. intros f. rewrite Hp. apply Hmo.
Qed.

Lemma launch_fields now f q :
  packets (launch now f q) = packets q /\ flight (launch now f q) = flight q ++ [body f] /\
  shared (launch now f q) = shared q /\ next_shared (launch now f q) = next_shared q /\
  buffered_bytes (launch now f q) = buffered_bytes q /\ scheduler (launch now f q) = scheduler q /\
  queued_unreliable (launch now f q) = queued_unreliable q /\ mtu (launch now f q) = mtu q.
Proof.
  unfold launch, flight. destruct (list.last (sent_packet q)); [case_if|]; simpl;
    rewrite map_app; done.
Qed.

(** A reliable frame leaves the backlog for the flight. *)
Lemma launch_sends q1 now p p' rest q2 out :
  sendq_inv q1 -> packets q1 = p :: rest -> relb p = true -> body p' = body p ->
  keeps (q1 <| packets := rest |>) q2 -> sends q1 out (launch now p' q2) (out ++ [p']).
Proof.
  intros Hq Hp Hr Hb [Kp Kf Ks Kn Kb Kq Ksc Km].
  destruct (launch_fields now p' q2) as (Lp & Lf & Ls & Ln & Lb & Lsc & Lq & Lm).
  assert (holdings (launch now p' q2) ≡ₚ holdings q1) as Hh.
  { unfold holdings, waiting_unreliable. rewrite Lp, Lf, Lsc, Kp, Kf, Ksc, Hb, Hp. simpl.
    change (flight (q1 <| packets := rest |>)) with (flight q1). solve_Permutation. }
  split.
  - apply (reorder_inv q1); [done|done|by rewrite Ls, Ks|by rewrite Ln, Kn|by rewrite Lb, Kb|
      by rewrite Lsc, Ksc|by rewrite Lq, Kq| |].
    + rewrite Lp, Kp, Hp. unfold unreliable_count. simpl. by rewrite Hr.
    + intros f. rewrite Lf, Kf. rewrite elem_of_app, list_elem_of_singleton.
      intros [Hf| ->]; [by apply (sq_flight _ _ Hq)|]. by rewrite Hb.
  - by rewrite Lm, Km.
  - apply (sends_one _ _ _ (body p)); [|done]. unfold holdings. rewrite Hp. apply list_elem_of_here.
  - exists []. split; [simpl; by rewrite Hh|]. intros f Hf. by apply not_elem_of_nil in Hf.
Qed.

Lemma remove_unreliable_accounted p rest q :
  sendq_inv q -> holdings q ≡ₚ body p :: rest -> relb p = false ->
  accounted rest (shared q) (buffered_bytes q - (data_len p + FRAME_BUDGET)) /\
  data_len p + FRAME_BUDGET <= buffered_bytes q.
Proof.
  intros Hq Hp Hr. pose proof (inv_bytes _ _ Hq) as [_ Hlim].
  assert (shared_payload (body p) = None) as Hs.
  { apply (sq_modes _ _ Hq); [|done]. simpl. rewrite Hp. apply list_elem_of_here. }
  pose proof (accounted_perm _ _ _ _ Hp (sq_accounted _ _ Hq)) as Ha.
  pose proof (release_accounted _ _ _ _ Ha Hlim) as H. unfold release in H. rewrite Hs in H.
  by destruct H as (? & _ & ? & _).
Qed.

(** An unreliable frame leaves the backlog for good. *)
Lemma drop_sends q1 p p' rest q2 out :
  sendq_inv q1 -> packets q1 = p :: rest -> relb p = false -> body p' = body p ->
  keeps (q1 <| packets := rest |>) q2 ->
  sends q1 out (q2 <| queued_unreliable := usize_sub (queued_unreliable q2) 1 |>
    <| buffered_bytes := usize_sub (buffered_bytes q2) (data_len p' + FRAME_BUDGET) |>) (out ++ [p']).
Proof.
  intros Hq Hp Hr Hb [Kp Kf Ks Kn Kb Kq Ksc Km]. simpl in Kp, Ks, Kn, Kb, Kq, Ksc, Km.
  change (flight (q1 <| packets := rest |>)) with (flight q1) in Kf.
  assert (data_len p' = data_len p) as -> by exact (f_equal data_len Hb).
  assert (holdings q1 ≡ₚ body p :: (map body rest ++ flight q2 ++ map body (waiting_unreliable q2))) as Hh.
  { unfold holdings, waiting_unreliable. rewrite Kf, Ksc, Hp. done. }
  destruct (remove_unreliable_accounted p _ q1 Hq Hh Hr) as [Ha Hle].
  pose proof (inv_bytes _ _ Hq) as [Hbb Hlim]. pose proof (data_len_nonneg p).
  unfold FRAME_BUDGET in *.
  assert (queued_unreliable q1 = 1 + unreliable_count rest) as Hqu.
  { rewrite (sq_queued _ _ Hq), Hp. unfold unreliable_count. simpl. by rewrite Hr. }
  assert (0 <= unreliable_count rest <= zlen rest) as Hun.
  { unfold unreliable_count. clear. induction rest as [|x rest IH]; simpl; [lia|]. case_if; lia. }
  pose proof (accounted_bound _ _ _ Ha) as Hbound. unfold FRAME_BUDGET in Hbound.
  rewrite length_app, length_map in Hbound.
  split.
  - split; simpl; rewrite ?Ks, ?Kb, ?Kq, ?Kn, ?Ksc.
    + rewrite usize_sub_exact by lia. unfold holdings. simpl. rewrite Kp. exact Ha.
    + rewrite usize_sub_exact by lia. lia.
    + apply (sq_fresh _ _ Hq).
    + intros f Hf. apply (sq_modes _ _ Hq). simpl. rewrite Hh. apply list_elem_of_further.
      unfold holdings in Hf. simpl in Hf. rewrite Kp in Hf. exact Hf.
    + intros f Hf. apply (sq_flight _ _ Hq). by rewrite <- Kf.
    + rewrite usize_sub_exact by lia. rewrite Kp. lia.
    + apply (sq_scheduler _ _ Hq).
    + intros s Hsome. destruct (sq_policy _ _ Hq s Hsome) as [Hpol Hz]. split; [done|].
      rewrite Kp. rewrite (sq_queued _ _ Hq) in Hqu. lia.
  - done.
  - apply (sends_one _ _ _ (body p)); [|done]. rewrite Hh. apply list_elem_of_here.
  - exists [body p]. split.
    + rewrite Hh. unfold holdings. simpl. by rewrite Kp.
    + intros f ->%list_elem_of_singleton. split; [done|]. rewrite map_app, <- Hb.
      apply elem_of_app. right. apply list_elem_of_singleton. done.
Qed.

Lemma assign_group_facts may p g (out : OutgoingFrames) q :
  let '(p', g', out', q') := assign_group may p g out q in
  body p' = body p /\ keeps q q' /\ frames out' = frames out /\ sent_packet q' = sent_packet q /\
  relb p' = relb p.
Proof.
  unfold assign_group. destruct (group_sequence g) as [s|]; [case_if|];
    (split; [done|split; [split; reflexivity|done]]).
Qed.

Lemma flush_queue_sends count now g (out : OutgoingFrames) q :
  sendq_inv q ->
  sends q (frames out) (flush_queue count now g out q).2 (frames (flush_queue count now g out q).1).
Proof.
  revert g out q. induction count as [|count IH]; intros g out q Hq; [by apply sends_refl|].
  cbn [flush_queue].
  destruct (_ && (queued_unreliable q =? 0)) eqn:Estop; [by apply sends_refl|].
  destruct (packets q) as [|p rest] eqn:Ep; [by apply sends_refl|].
  fold (relb p). destruct (relb p && _) eqn:Efull.
  - (* rotated to the back *)
    set (q1 := q <| packets := rest |> <| packets := _ |>).
    assert (holdings q1 ≡ₚ holdings q) as Hh.
    { unfold holdings. simpl. rewrite Ep, map_app. simpl.
      change (flight q1) with (flight q). change (waiting_unreliable q1) with (waiting_unreliable q).
      solve_Permutation. }
    assert (sendq_inv q1) as Hq1.
    { apply (reorder_inv q); try done; [|apply Hq].
      simpl. rewrite Ep. unfold unreliable_count. rewrite sumZ_app. simpl. lia. }
    eapply sends_trans; [|by apply IH]. split; [done|done|apply sends_nothing|].
    exists []. split; [simpl; by rewrite Hh|]. intros f Hf. by apply not_elem_of_nil in Hf.
  - set (q1 := q <| packets := rest |>).
    assert (exists p' g' (out' : OutgoingFrames) q2, (if coalesce q1
      then assign_group (packable p) p g out q1
      else (p <| Frame.sequence_number := sequence_number q1 |>, g, out,
            q1 <| sequence_number := next (sequence_number q1) |>)) = (p', g', out', q2) /\
      body p' = body p /\ keeps q1 q2 /\ frames out' = frames out)
      as (p' & g' & out' & q2 & -> & Hb & Hk & Ho).
    { case_if.
      - pose proof (assign_group_facts (packable p) p g out q1) as H.
        destruct (assign_group _ _ _ _ _) as [[[p' g'] out'] q2].
        destruct H as (? & ? & ? & _). by exists p', g', out', q2.
      - do 4 eexists. split; [reflexivity|]. split; [done|]. split; [split; reflexivity|done]. }
    destruct (relb p) eqn:Er.
    + eapply sends_trans; [|apply IH].
      * simpl. rewrite Ho. by apply (launch_sends q now p p' rest q2).
      * apply (sends_inv q (frames out) _ (frames out ++ [p'])).
        by apply (launch_sends q now p p' rest q2).
    + eapply sends_trans; [|apply IH].
      * simpl. rewrite Ho. by apply (drop_sends q p p' rest q2).
      * apply (sends_inv q (frames out) _ (frames out ++ [p'])).
        by apply (drop_sends q p p' rest q2).
Qed.

(** The retransmission loop sends frames of the flight. *)
Lemma resend_items_output now probe items ret q :
  exists sent_now, (resend_items now probe items ret q).1.2 = ret ++ sent_now /\
    forall f, f ∈ sent_now -> exists item, item ∈ items /\ f = frame item.
Proof.
  revert ret q. induction items as [|p items IH]; intros ret q; cbn [resend_items].
  { exists []. rewrite app_nil_r. split; [done|]. intros f Hf. by apply not_elem_of_nil in Hf. }
  destruct (sent p); cbn [negb].
  - destruct (IH ret q) as (l & E & Hl). destruct (resend_items _ _ items ret q) as [[items' ret'] q'].
    exists l. split; [done|]. intros f Hf. destruct (Hl f Hf) as (item & ? & ?). exists item.
    split; [by apply list_elem_of_further|done].
  - destruct (resent now probe p q) as [p' q1].
    destruct (IH (ret ++ [frame p]) q1) as (l & E & Hl).
    destruct (resend_items _ _ items _ q1) as [[items' ret'] q'].
    exists (frame p :: l). simpl in *. split; [by rewrite E, <- (app_assoc ret)|].
    intros f [->|Hf]%elem_of_cons.
    + exists p. split; [apply list_elem_of_here|done].
    + destruct (Hl f Hf) as (item & ? & ?). exists item. split; [by apply list_elem_of_further|done].
Qed.

Lemma flush_legacy_sends now q :
  sendq_inv q -> sends q [] (flush_legacy now q).2 (frames (flush_legacy now q).1).
Proof.
  intros Hq. unfold flush_legacy.
  set (q1 := tick now q). assert (keeps q q1) as K1 by apply tick_keeps. clearbody q1.
  set (r2 := if recovery_policy then take_probe_packing q1 else (false, q1)).
  assert (keeps q r2.2) as K2.
  { etransitivity; [exact K1|]. unfold r2. destruct recovery_policy; [apply take_probe_packing_keeps|done]. }
  destruct r2 as [packing q2]. simpl in K2.
  assert (keeps q (sort_if_dirty q2)) as K3 by (etransitivity; [exact K2|apply sort_if_dirty_keeps]).
  set (q3 := sort_if_dirty q2) in *. clearbody q3.
  set (r4 := if recovery_policy then take_probe_replay q3 else (None, q3)).
  assert (keeps q r4.2) as K4.
  { etransitivity; [exact K3|]. unfold r4. destruct recovery_policy; [apply take_probe_replay_keeps|done]. }
  destruct r4 as [probe q4]. simpl in K4.
  assert (exists ret q5, (if retries_pending q4
    then let '(items, ret, self) := resend_items now probe (sent_packet q4) [] q4 in
         (ret, self <| sent_packet := items |> <| retries_pending := false |>)
    else ([], q4)) = (ret, q5) /\ keeps q q5 /\ forall f, f ∈ map body ret -> f ∈ holdings q)
    as (ret & q5 & -> & K5 & Hret).
  { case_if; [|exists [], q4; split; [done|]; split; [done|]; intros f Hf; by apply not_elem_of_nil in Hf].
    destruct (resend_items_output now probe (sent_packet q4) [] q4) as (sent_now & Eo & Hin).
    pose proof (resend_items_keeps now probe (sent_packet q4) [] q4) as H.
    destruct (resend_items _ _ _ _ _) as [[items ret] self]. destruct H as (Hi & Hk & _).
    simpl in Eo. subst sent_now. exists ret. eexists. split; [reflexivity|]. split.
    2: { intros f (g & -> & Hg)%list_elem_of_fmap. unfold holdings.
         apply elem_of_app. right. apply elem_of_app. left. rewrite <- (keeps_flight _ _ K4).
         destruct (Hin g Hg) as (item & Hit & ->). unfold flight. apply list_elem_of_fmap. eauto. }
    etransitivity; [exact K4|].
    etransitivity; [exact Hk|]. destruct Hk as [_ Hf _ _ _ _ _ _]. split; try done.
    rewrite Hf. unfold flight. simpl. by rewrite Hi. }
  eapply sends_trans; [by apply (sends_keeps q [] q5)|].
  assert (sendq_inv q5) as Hq5 by (by apply (keeps_inv _ q)).
  pose proof (flush_queue_sends (length (packets q5)) now no_group (mk_outgoing ret packing) q5 Hq5) as H.
  destruct H as [H1 H2 (new & H3 & H4) H5]. split; [done|done| |done].
  exists (map body ret ++ new). split; [done|]. intros f [Hf|Hf]%elem_of_app; [|by apply H4].
  apply Hret in Hf. destruct K5 as [Kp Kf _ _ _ _ Ks _]. unfold holdings, waiting_unreliable in *.
  by rewrite Kp, Ks, Kf.
Qed.

(** The queue and the scheduler taken out of it, as one. *)
Definition whole (st : Round) : SendQ := queue st <| scheduler := Some (sched st) |>.

Lemma scheduler_sends q s s' out :
  sendq_inv q -> scheduler q = Some s -> unreliable s' = unreliable s ->
  unreliable_bytes s' = unreliable_bytes s -> sends q out (q <| scheduler := Some s' |>) out.
Proof.
  intros Hq Hs Hu Hb.
  assert (holdings (q <| scheduler := Some s' |>) = holdings q) as Hh.
  { unfold holdings, waiting_unreliable. simpl. by rewrite Hs, Hu. }
  split; [|done|apply sends_nothing|].
  - destruct Hq as [Ha Hl Hfr Hmo Hfl Hqu Hsch Hpol]. split; try done; simpl; rewrite ?Hh; try done.
    + intros s0 [= <-]. rewrite Hu, Hb. by apply Hsch.
    + intros s0 _. by apply (Hpol s).
  - exists []. simpl. rewrite Hh. split; [done|]. intros f Hf. by apply not_elem_of_nil in Hf.
Qed.

Lemma lane_unreliable_sends now probe charge st p rest :
  sendq_inv (whole st) -> unreliable (sched st) = p :: rest ->
  let st' := lane_send now probe 0 charge st in
  sends (whole st) (frames (output st)) (whole st') (frames (output st')).
Proof.
  intros Hq Hu st'. unfold st', lane_send. simpl. rewrite Hu.
  destruct (sq_scheduler _ _ Hq (sched st) eq_refl) as [Hub Hrel]. rewrite Hu in Hub, Hrel.
  inversion Hrel as [|? ? Hr Hrel']; subst.
  assert (holdings (whole st) ≡ₚ
    body p :: (map body (packets (queue st)) ++ flight (queue st) ++ map body rest)) as Hh.
  { unfold holdings, waiting_unreliable. simpl. rewrite Hu. simpl.
    change (flight (whole st)) with (flight (queue st)). solve_Permutation. }
  destruct (remove_unreliable_accounted p _ _ Hq Hh Hr) as [Ha Hle].
  pose proof (inv_bytes _ _ Hq) as [Hbb Hlim]. pose proof (data_len_nonneg p).
  assert (shared_payload p = None) as Hsp.
  { apply (sq_modes _ _ Hq (body p)); [|done]. simpl. rewrite Hh. apply list_elem_of_here. }
  simpl in Hub. unfold cost at 1 in Hub. rewrite Hsp in Hub.
  assert (0 <= sumZ cost rest) by (apply sumZ_nonneg; intros; pose proof (cost_ge x); unfold FRAME_BUDGET in *; lia).
  assert (0 <= map_sum live (shared (queue st))) by (exact (live_sum_nonneg _ _ _ Ha)).
  assert (sumZ cost rest <= buffered_bytes (queue st)) as Hrest.
  { pose proof (ac_bytes _ _ _ Ha) as E. simpl in E. rewrite !sumZ_app, !sumZ_map in E.
    assert (0 <= sumZ (cost ∘ body) (packets (queue st))) by (apply sumZ_nonneg; intros; pose proof (cost_ge (body x)); unfold FRAME_BUDGET in *; simpl; lia).
    assert (0 <= sumZ cost (flight (queue st))) by (apply sumZ_nonneg; intros; pose proof (cost_ge x); unfold FRAME_BUDGET in *; lia).
    change (sumZ (cost ∘ body) rest) with (sumZ cost rest) in E. unfold FRAME_BUDGET in *. lia. }
  change (data_len (p <| Frame.sequence_number := _ |>)) with (data_len p).
  unfold FRAME_BUDGET in *. simpl in Hle, Hbb, Hlim, Ha. unfold MAX_BUFFERED_BYTES in Hbb.
  split; simpl.
  - split; simpl.
    + rewrite usize_sub_exact by lia. exact Ha.
    + rewrite usize_sub_exact by lia. unfold MAX_BUFFERED_BYTES. lia.
    + apply (sq_fresh _ _ Hq).
    + intros f Hf. apply (sq_modes _ _ Hq). simpl. rewrite Hh. by apply list_elem_of_further.
    + apply (sq_flight _ _ Hq).
    + apply (sq_queued _ _ Hq).
    + intros s [= <-]. simpl. split; [|done]. rewrite usize_sub_exact by lia. lia.
    + intros s _. by apply (sq_policy _ _ Hq (sched st)).
  - done.
  - apply (sends_one _ _ _ (body p)); [|done]. rewrite Hh. apply list_elem_of_here.
  - exists [body p]. split; [exact Hh|].
    intros f ->%list_elem_of_singleton. split; [done|]. rewrite map_app.
    apply elem_of_app. right. by apply list_elem_of_singleton.
Qed.

Lemma launch_scheduler now p q s :
  launch now p q <| scheduler := Some s |> = launch now p (q <| scheduler := Some s |>).
Proof. unfold launch. simpl. destruct (list.last (sent_packet q)); [case_if|]; done. Qed.

Lemma lane_send_sends now probe lane charge st :
  sendq_inv (whole st) ->
  let st' := lane_send now probe lane charge st in
  sends (whole st) (frames (output st)) (whole st') (frames (output st')).
Proof.
  intros Hq st'. destruct (lane =? 0) eqn:E0; [|destruct (lane =? 1) eqn:E1].
  - apply Z.eqb_eq in E0 as ->. destruct (unreliable (sched st)) as [|p rest] eqn:Hu.
    + unfold st', lane_send. simpl. rewrite Hu. by apply sends_refl.
    + by apply (lane_unreliable_sends now probe charge st p rest).
  - unfold st', lane_send. rewrite E0, E1.
    destruct (sent_packet (queue st) !! retry_cursor st) as [item|] eqn:Ei; [|by apply sends_refl].
    pose proof (resent_body now probe item (queue st)) as H.
    destruct (resent now probe item (queue st)) as [item' self]. destruct H as (Hb & Hk & Hs).
    simpl. assert (keeps (whole st) (self <| sent_packet := <[retry_cursor st := item']> (sent_packet self) |>
      <| scheduler := Some (sched st) |>)) as Hk'.
    { destruct Hk as [Kp Kf Ks Kn Kb Kq Ksc Km]. split; try done. unfold flight. simpl.
      rewrite Hs, list_fmap_insert, Hb.
      rewrite (list_insert_id (map _ (sent_packet (queue st)))); [done|].
      rewrite list_lookup_fmap. by rewrite Ei. }
    destruct (sends_keeps _ (frames (output st)) _ Hk' Hq) as [I M O G]. split; try done.
    + apply (sends_one _ _ _ (body (frame item))); [|done]. unfold holdings.
      apply elem_of_app. right. apply elem_of_app. left. apply list_elem_of_fmap. exists item.
      split; [done|]. by eapply list_elem_of_lookup_2.
    + destruct G as (gone & Hp & Hg). exists gone. split; [done|]. intros f Hf.
      destruct (Hg f Hf). split; [done|]. rewrite map_app. apply elem_of_app. by left.
  - unfold st', lane_send. rewrite E0, E1.
    destruct (packets (queue st)) as [|p rest] eqn:Ep; [by apply sends_refl|].
    set (q1 := queue st <| packets := rest |>). cbv zeta.
    pose proof (assign_group_facts (coalesce q1 && packable p) p (group st) (output st) q1) as H.
    destruct (assign_group _ _ _ _ _) as [[[p' g'] out'] q2]. destruct H as (Hb & Hk & Ho & _ & _).
    unfold whole at 2. simpl. rewrite launch_scheduler, Ho.
    assert (relb p = true) as Hr.
    { destruct (sq_policy _ _ Hq _ eq_refl) as [_ Hz]. simpl in Hz. rewrite Ep in Hz.
      unfold unreliable_count in Hz. simpl in Hz. destruct (relb p); [done|].
      pose proof (unreliable_count_nonneg rest). unfold unreliable_count in *. lia. }
    apply (launch_sends (whole st) now p p' rest); try done.
    destruct Hk. by split.
Qed.

Lemma lane_send_scheduler now probe lane charge st :
  scheduler (queue (lane_send now probe lane charge st)) = scheduler (queue st).
Proof.
  unfold lane_send. case_if; [by destruct (unreliable _)|]. case_if.
  - destruct (_ !! _) as [item|]; [|done]. unfold resent. by case_if.
  - destruct (packets _) as [|p rest]; [done|]. cbv zeta.
    set (q1 := _ <| packets := rest |>).
    pose proof (assign_group_facts (coalesce q1 && packable p) p (group st) (output st) q1) as Hg.
    destruct (assign_group _ _ _ _ _) as [[[p' g'] out'] q2]. destruct Hg as (_ & Hk & _).
    cbn [queue]. destruct (launch_fields now p' q2) as (_ & _ & _ & _ & _ & -> & _).
    by rewrite (keeps_scheduler _ _ Hk).
Qed.

(** What a lane does to the queue and the output, as one relation on rounds. *)
Definition round_sends (st st' : Round) : Prop :=
  sends (whole st) (frames (output st)) (whole st') (frames (output st')) /\
  scheduler (queue st') = scheduler (queue st).

Lemma round_refl st : sendq_inv (whole st) -> round_sends st st.
Proof. intros Hq. split; [by apply sends_refl|done]. Qed.

Lemma round_trans st1 st2 st3 :
  round_sends st1 st2 -> (sendq_inv (whole st2) -> round_sends st2 st3) -> round_sends st1 st3.
Proof.
  intros [H1 E1] H. destruct (H (sends_inv _ _ _ _ H1)) as [H2 E2].
  split; [by eapply sends_trans|congruence].
Qed.

Lemma lane_loop_sends fuel now probe lane quantum lane_bytes progressed st :
  sendq_inv (whole st) ->
  round_sends st (lane_loop fuel now probe lane quantum lane_bytes progressed st).2.
Proof.
  revert lane_bytes progressed st. induction fuel as [|fuel IH]; intros lane_bytes progressed st Hq.
  { by apply round_refl. }
  cbn [lane_loop]. case_if; [by apply round_refl|].
  destruct (lane_charge lane st) as [[charge|] cursor]; [|exact (round_refl st Hq)].
  set (st1 := mk_round _ _ _ _ _ _ _ _). case_if; [exact (round_refl st Hq)|]. cbv zeta.
  set (st2 := lane_send _ _ _ _ _).
  pose proof (lane_send_sends now probe lane charge st1 Hq) as H. cbv zeta in H. fold st2 in H.
  pose proof (lane_send_scheduler now probe lane charge st1) as E. fold st2 in E.
  clearbody st2. set (st3 := mk_round _ (sched st2 <| next_lane := _ |>) _ _ _ _ _ _).
  assert (round_sends st st3) as H3.
  { split; [|done]. eapply sends_trans; [exact H|].
    apply (scheduler_sends (whole st2) (sched st2)); try done. apply H. }
  case_if; [exact H3|]. by eapply round_trans; [exact H3|apply IH].
Qed.

Lemma lanes_sends fuel now probe quantum start offsets progressed st :
  sendq_inv (whole st) ->
  round_sends st (lanes fuel now probe quantum start offsets progressed st).2.
Proof.
  revert progressed st. induction offsets as [|offset offsets IH]; intros progressed st Hq.
  { by apply round_refl. }
  cbn [lanes]. pose proof (lane_loop_sends fuel now probe ((start + offset) `mod` 3) quantum 0 progressed st Hq) as H.
  destruct (lane_loop _ _ _ _ _ _ _ _) as [[stop progressed'] st']. simpl in H. cbv beta iota.
  case_if; [exact H|]. by eapply round_trans; [exact H|apply IH].
Qed.

Lemma rounds_sends fuel lane_fuel now probe quantum st :
  sendq_inv (whole st) -> round_sends st (rounds fuel lane_fuel now probe quantum st).2.
Proof.
  revert st. induction fuel as [|fuel IH]; intros st Hq; [by apply round_refl|].
  cbn [rounds].
  pose proof (lanes_sends lane_fuel now probe quantum (next_lane (sched st)) [0; 1; 2] false st Hq) as H.
  destruct (lanes _ _ _ _ _ _ _ _) as [[stop progressed] st']. simpl in H. cbv beta iota.
  case_if; [exact H|]. case_if; [exact H|]. by eapply round_trans; [exact H|apply IH].
Qed.

(** The notification of waiters changes nothing else. *)
Lemma notify_capacity_fields s :
  unreliable (notify_capacity s) = unreliable s /\ unreliable_bytes (notify_capacity s) = unreliable_bytes s /\
  options (notify_capacity s) = options s.
Proof. unfold notify_capacity. by destruct (capacity_notifier s). Qed.

(** An idle scheduler that is not kept holds no frames. *)
Lemma drop_scheduler_sends q s out :
  sendq_inv (q <| scheduler := Some s |>) -> unreliable s = [] -> scheduler q = None ->
  sends (q <| scheduler := Some s |>) out q out.
Proof.
  intros Hq Hu Hn.
  assert (holdings q = holdings (q <| scheduler := Some s |>)) as Hh.
  { unfold holdings, waiting_unreliable. simpl. by rewrite Hu, Hn. }
  split; [|done|apply sends_nothing|].
  - destruct Hq as [Ha Hl Hfr Hmo Hfl Hqu Hsch Hpol]. split; simpl in *; rewrite ?Hh, ?Hn; done.
  - exists []. rewrite Hh. split; [done|]. intros f Hf. by apply not_elem_of_nil in Hf.
Qed.

Lemma flush_scheduled_sends now q :
  sendq_inv q -> sends q [] (flush_scheduled now q).2 (frames (flush_scheduled now q).1).
Proof.
  intros Hq. unfold flush_scheduled.
  assert (keeps q (sort_if_dirty (tick now q))) as K1
    by (etransitivity; [apply tick_keeps|apply sort_if_dirty_keeps]).
  set (q1 := sort_if_dirty _) in *. clearbody q1.
  destruct (scheduler q1) as [s|] eqn:Es; [|by apply sends_keeps].
  set (r2 := if recovery_policy then take_probe_packing (q1 <| scheduler := None |>) else _).
  assert (keeps (q1 <| scheduler := None |>) r2.2) as K2.
  { unfold r2. destruct recovery_policy; [apply take_probe_packing_keeps|done]. }
  destruct r2 as [packing q2]. simpl in K2.
  set (r3 := if recovery_policy then take_probe_replay q2 else _).
  assert (keeps (q1 <| scheduler := None |>) r3.2) as K3.
  { etransitivity; [exact K2|]. unfold r3. destruct recovery_policy; [apply take_probe_replay_keeps|done]. }
  destruct r3 as [probe q3]. simpl in K3. cbv zeta. set (st0 := mk_round q3 s _ _ _ _ _ _).
  assert (keeps q (whole st0)) as K4.
  { etransitivity; [exact K1|]. destruct K3. split; try done. }
  set (fuel := S _). clearbody fuel.
  destruct (rounds_sends fuel fuel now probe (mtu q2 * 4) st0 (keeps_inv _ _ _ K4 Hq)) as [H E].
  set (st := (rounds _ _ _ _ _ _).2) in *. clearbody st. simpl in E.
  assert (scheduler (queue st) = None) as En by (rewrite E; by destruct K3).
  set (q4 := queue st <| retries_pending := _ |>). assert (scheduler q4 = None) as En' by exact En.
  assert (sends q [] (q4 <| scheduler := Some (sched st) |>) (frames (output st))) as H4.
  { eapply sends_trans; [by apply (sends_keeps q [] (whole st0))|].
    eapply sends_trans; [exact H|]. apply sends_keeps; [|apply H]. by split. }
  set (s' := if unreliable_drained st then notify_capacity (sched st) else sched st).
  assert (unreliable s' = unreliable (sched st) /\ unreliable_bytes s' = unreliable_bytes (sched st)) as [Eu Eb]
    by (unfold s'; case_if; [|done]; by destruct (notify_capacity_fields (sched st)) as (? & ? & _)).
  pose proof (scheduler_sends _ _ s' (frames (output st)) (sends_inv _ _ _ _ H4) eq_refl Eu Eb) as H5.
  eapply (sends_trans _ _ _ _ _ _ H4) in H5. clear H4.
  change (sends q [] (q4 <| scheduler := Some s' |>) (frames (output st))) in H5.
  clearbody q4 s'. cbn [fst snd].
  case_if; [exact H5|]. eapply sends_trans; [exact H5|].
  apply drop_scheduler_sends; [apply H5| |exact En']. b2p. by destruct (unreliable s').
Qed.

Lemma flush_sends now q :
  sendq_inv q -> sends q [] (flush now q).2 (frames (flush now q).1).
Proof.
  intros Hq. unfold flush. pose proof (reset_recovery_keeps now q) as K.
  set (q1 := reset_recovery now q) in *. clearbody q1.
  eapply sends_trans; [by apply (sends_keeps q [] q1)|].
  case_if; [apply flush_scheduled_sends|apply flush_legacy_sends]; by apply (keeps_inv _ q).
Qed.
End Transmit.
