(* ===== verification/SendQRun.v ===== *)
(** * Histories of the send queue

    The events a connection drives its [SendQ] with, in any order, and what holds after all
    of them: the byte accounting is exact, admission is exactly the documented limits, and
    reliable frames leave only by acknowledgement. *)

From S2P Require Import Prelude Errors Sequence Frame FrameCodec Fragment RecvQ SendOptions SendQ SendQInv SendQInsert SendQFlow.
Import SendQ.

(** ** Installing the scheduler *)

Section Scheduler.
Context {feat : Features} {usort : UnstableSort}.
Implicit Types (q : SendQ) (fs : list FrameSetPacket).

Lemma split_unreliable_spec count ps us bytes :
  (count <= length ps)%nat ->
  split_unreliable count ps us bytes =
    (drop count ps ++ List.filter relb (take count ps),
     us ++ List.filter (fun f => negb (relb f)) (take count ps),
     bytes + sumZ (fun f => data_len f + FRAME_BUDGET)
               (List.filter (fun f => negb (relb f)) (take count ps))).
Proof.
  revert ps us bytes. induction count as [|count IH]; intros ps us bytes Hc.
  { simpl. by rewrite drop_0, !app_nil_r, Z.add_0_r. }
  destruct ps as [|p ps]; [simpl in Hc; lia|]. simpl in Hc. cbn [split_unreliable].
  fold (relb p). simpl. destruct (relb p) eqn:E; simpl.
  - rewrite IH by (rewrite length_app; simpl; lia).
    by rewrite drop_app_le, take_app_le, <- app_assoc by lia.
  - rewrite IH by lia. rewrite <- app_assoc. f_equal. lia.
Qed.

Lemma partition_perm fs :
  fs ≡ₚ List.filter relb fs ++ List.filter (fun f => negb (relb f)) fs.
Proof.
  induction fs as [|f fs IH]; [done|]. simpl. destruct (relb f); simpl.
  - by constructor.
  - by rewrite <- Permutation_middle, <- IH.
Qed.

Lemma list_filter_elem (b : FrameSetPacket -> bool) fs f :
  f ∈ List.filter b fs -> b f = true /\ f ∈ fs.
Proof. rewrite !list_elem_of_In. intros [? ?]%filter_In. done. Qed.

(** The unreliable frames move to their lane; the queue holds the same frames. *)
Lemma ensure_scheduler_inv q :
  send_policy = true -> sendq_inv q ->
  sendq_inv (ensure_scheduler q) /\ holdings (ensure_scheduler q) ≡ₚ holdings q /\
  mtu (ensure_scheduler q) = mtu q /\ is_Some (scheduler (ensure_scheduler q)).
Proof.
  intros Hsend Hq. unfold ensure_scheduler. destruct (scheduler q) as [s|] eqn:Es; [by rewrite Es|].
  rewrite split_unreliable_spec by done. cbv beta iota zeta.
  rewrite take_ge, drop_ge by done. simpl.
  set (rs := List.filter relb _). set (us := List.filter _ _).
  set (q' := q <| packets := rs |> <| queued_unreliable := _ |> <| scheduler := _ |>).
  assert (holdings q' ≡ₚ holdings q) as Hh.
  { unfold holdings, waiting_unreliable. rewrite Es. simpl.
    rewrite (partition_perm (packets q)), map_app. fold rs us.
    change (flight q') with (flight q). solve_Permutation. }
  assert (unreliable_count rs = 0) as Hrs.
  { apply unreliable_count_reliable. intros f Hf. by apply (list_filter_elem _ _ _ Hf). }
  split; [|by rewrite Hh]. destruct Hq as [Ha Hl Hfr Hmo Hfl Hqu Hsch Hpol].
  split; simpl; try done.
  - by apply (accounted_perm (holdings q)).
  - intros f. rewrite Hh. apply Hmo.
  - intros s [= <-]. simpl. split.
    + apply sumZ_ext. intros f [Hr Hf]%list_filter_elem. unfold cost.
      change (shared_payload f) with (shared_payload (body f)). rewrite (Hmo (body f)); [lia| |rewrite relb_body; by destruct (relb f)].
      simpl. apply elem_of_app. left. by apply list_elem_of_fmap_2.
    + apply list.Forall_forall. intros f [Hr _]%list_filter_elem. by destruct (relb f).
Qed.

Lemma set_send_options_inv opts q :
  send_policy = true -> sendq_inv q ->
  sendq_inv (set_send_options opts q).2 /\ holdings (set_send_options opts q).2 ≡ₚ holdings q /\
  mtu (set_send_options opts q).2 = mtu q.
Proof.
  intros Hsend Hq. unfold set_send_options. case_if; [done|]. simpl.
  destruct (ensure_scheduler_inv q Hsend Hq) as (H1 & Hh & Hm & [s Hs]). rewrite Hs.
  set (s' := s <| options := _ |> <| persistent := _ |> <| use_legacy := _ |>).
  destruct (scheduler_sends (ensure_scheduler q) s s' [] H1 Hs eq_refl eq_refl) as [I _ _ _].
  split; [done|]. split; [|done]. rewrite <- Hh. unfold holdings, waiting_unreliable. simpl.
  by rewrite Hs.
Qed.

Lemma register_inv q :
  sendq_inv q -> sendq_inv (register_capacity_notifier q) /\
  holdings (register_capacity_notifier q) = holdings q /\ mtu (register_capacity_notifier q) = mtu q.
Proof.
  intros Hq. unfold register_capacity_notifier. destruct (scheduler q) as [s|] eqn:Es; [|done].
  destruct (capacity_notifier s); [done|].
  set (s' := s <| capacity_notifier := Some 0 |>).
  destruct (scheduler_sends q s s' [] Hq Es eq_refl eq_refl) as [I _ _ _].
  split; [exact I|]. split; [|done]. unfold holdings, waiting_unreliable. simpl. by rewrite Es.
Qed.
End Scheduler.

(** ** Events *)

(** What a connection does with its queue. [SetSendOptions] exists with [send-policy] only. *)
Inductive event : Type :=
  | Insert (r : Reliability) (buf : list Z) (channel : Z) (owned : bool)
  | Ack (sequence now : Z)
  | AckRanges (ranges : list (Z * Z)) (now : Z)
  | NackRanges (ranges : list (Z * Z)) (now : Z)
  | Flush (now : Z)
  | EnableCoalescing
  | SetRecoveryOptions (opts : RecoveryOptions) (now : Z)
  | SetSendOptions (opts : SendOptions).

Section Run.
Context {feat : Features} {usort : UnstableSort}.
Implicit Types (q : SendQ) (e : event).

Definition handle e q : SendQ :=
  match e with
  | Insert r buf channel owned => (insert_payload r buf channel owned q).2
  | Ack sequence now => ack sequence now q
  | AckRanges ranges now => ack_ranges ranges now q
  | NackRanges ranges now => nack_ranges ranges now q
  | Flush now => (flush now q).2
  | EnableCoalescing => enable_coalescing q
  | SetRecoveryOptions opts now => set_recovery_options opts now q
  | SetSendOptions opts => if send_policy then (set_send_options opts q).2 else q
  end.

Definition run (mtu : Z) (events : list event) : SendQ :=
  foldl (fun q e => handle e q) (new mtu) events.

Lemma ack_direct_mtu sequence now q : mtu (ack_direct sequence now q) = mtu q.
Proof.
  unfold ack_direct. destruct (list_find _ _) as [[i item]|]; [|done].
  set (q1 := q <| sent_packet := _ |>). change (mtu q) with (mtu q1). clearbody q1.
  set (q2 := if recovery_policy then _ else q1).
  assert (mtu q2 = mtu q1) as <- by (unfold q2; case_if; [apply acknowledge_progress_keeps|done]).
  clearbody q2. set (q3 := if _ && _ then _ else q2).
  assert (mtu q3 = mtu q2) as <- by (unfold q3; by case_if). clearbody q3.
  destruct (release _ _) as [released store].
  set (q4 := q3 <| shared := _ |> <| buffered_bytes := _ |>).
  change (mtu q3) with (mtu q4). clearbody q4.
  set (q5 := if newer _ _ then _ else q4).
  assert (mtu q5 = mtu q4) as <- by (unfold q5; case_if; [exact (keeps_mtu _ _ (nack_all_keeps _ _ _))|done]).
  clearbody q5. case_if; [apply update_rto_keeps|done].
Qed.

Lemma ack_ranges_pass_mtu GROUPED ranges now q : mtu (ack_ranges_pass GROUPED ranges now q) = mtu q.
Proof.
  unfold ack_ranges_pass. set (acc := foldl _ _ _). clearbody acc.
  set (q1 := q <| sent_packet := _ |> <| shared := _ |> <| buffered_bytes := _ |>).
  change (mtu q) with (mtu q1). clearbody q1. set (q2 := if recovery_policy && _ then _ else q1).
  assert (mtu q2 = mtu q1) as <- by (unfold q2; case_if; [apply acknowledge_progress_keeps|done]).
  clearbody q2. set (q3 := if GROUPED && _ then _ else q2).
  assert (mtu q3 = mtu q2) as <- by (unfold q3; by case_if). clearbody q3.
  set (q4 := if negb _ then _ else q3).
  assert (mtu q4 = mtu q3) as <- by (unfold q4; by case_if). clearbody q4.
  case_if; [|done]. exact (keeps_mtu _ _ (nack_all_keeps _ _ _)).
Qed.

Lemma ack_ranges_inner_mtu GROUPED ranges now q : mtu (ack_ranges_inner GROUPED ranges now q) = mtu q.
Proof.
  unfold ack_ranges_inner. destruct ranges as [|[start stop] [|]]; try apply ack_ranges_pass_mtu.
  case_if; [apply ack_direct_mtu|apply ack_ranges_pass_mtu].
Qed.

Lemma ack_ranges_mtu ranges now q : mtu (ack_ranges ranges now q) = mtu q.
Proof. unfold ack_ranges. case_if; apply ack_ranges_inner_mtu. Qed.

Lemma insert_payload_mtu r buf channel owned q :
  sendq_inv q -> mtu (insert_payload r buf channel owned q).2 = mtu q.
Proof.
  intros Hq. pose proof (inv_bytes _ _ Hq) as [Hb _].
  destruct (insert_payload_cases r buf channel owned q Hb) as [(_ & ->)|(_ & q' & -> & Hk)]; [done|].
  simpl. rewrite (keeps_mtu _ _ Hk). simpl. case_if; [done|].
  unfold admit_whole, push_unreliable. case_if; [done|]. case_if; [|done]. by destruct (scheduler q).
Qed.

Lemma new_inv mtu : sendq_inv (new mtu).
Proof.
  split; try done.
  - split; [done| |]; simpl; intros *; [rewrite lookup_empty; done|].
    intros H. by apply not_elem_of_nil in H.
  - intros k [p Hk]. simpl in Hk. by rewrite lookup_empty in Hk.
  - intros f H. by apply not_elem_of_nil in H.
  - intros f H. by apply not_elem_of_nil in H.
Qed.

Lemma handle_inv e q :
  in_range 16 (mtu q) -> sendq_inv q -> sendq_inv (handle e q) /\ mtu (handle e q) = mtu q.
Proof.
  intros Hm Hq. destruct e; simpl.
  - split; [by apply insert_payload_inv|by apply insert_payload_mtu].
  - split; [by apply ack_inv|]. unfold ack. case_if; [apply ack_ranges_mtu|apply ack_direct_mtu].
  - split; [by apply ack_ranges_inv|apply ack_ranges_mtu].
  - pose proof (nack_ranges_keeps ranges now q) as K. split; [by apply (keeps_inv _ q)|apply K].
  - by destruct (flush_sends now q Hq).
  - pose proof (enable_coalescing_keeps q) as K. split; [by apply (keeps_inv _ q)|apply K].
  - pose proof (set_recovery_options_keeps opts now q) as K. split; [by apply (keeps_inv _ q)|apply K].
  - destruct send_policy eqn:E; [|done]. by destruct (set_send_options_inv opts q E Hq) as (? & _ & ?).
Qed.

Lemma run_snoc mtu0 events e : run mtu0 (events ++ [e]) = handle e (run mtu0 events).
Proof. unfold run. by rewrite foldl_app. Qed.

Lemma run_inv mtu0 events :
  in_range 16 mtu0 -> sendq_inv (run mtu0 events) /\ mtu (run mtu0 events) = mtu0.
Proof.
  intros Hm. induction events as [|e events [IH Em]] using rev_ind; [split; [apply new_inv|done]|].
  rewrite run_snoc. destruct (handle_inv e (run mtu0 events)) as [? ->]; [congruence|done|done].
Qed.

Lemma accounted_empty store bytes : accounted [] store bytes -> bytes = 0.
Proof.
  intros [Hb Hs _]. rewrite Hb. apply sumZ_zero. intros [k p] Hin%elem_of_map_to_list.
  simpl. unfold live. by rewrite (proj1 (Hs k p Hin)).
Qed.

Lemma is_empty_holdings q : sendq_inv q -> is_empty q = true -> holdings q = [].
Proof.
  intros Hq He. unfold is_empty in He. apply andb_true_iff in He as [[Hp Hf]%andb_true_iff Hs].
  assert (packets q = []) as Ep by (by destruct (packets q)).
  assert (sent_packet q = []) as Ef by (by destruct (sent_packet q)).
  unfold holdings, flight, waiting_unreliable. rewrite Ep, Ef. simpl.
  destruct (scheduler q) as [s|] eqn:Es; [|done].
  destruct (sq_policy _ _ Hq s Es) as [Epol _]. rewrite Epol in Hs. simpl in Hs.
  by destruct (unreliable s).
Qed.

(** C21: the byte accounting is exact. After any history of admissions, acknowledgements,
    losses, flushes and option changes, the counter of buffered bytes is the sum of what the
    frames still held cost, the shared payload of a fragmented message counted once for as
    long as one of its fragments is held; it stays within the limit of 64 MiB, never
    underflows, and is zero when the queue is empty. *)
Theorem buffered_bytes_exact mtu0 events :
  in_range 16 mtu0 ->
  let q := run mtu0 events in
  buffered_bytes q = sumZ cost (holdings q) + map_sum live (shared q) /\
  0 <= buffered_bytes q <= MAX_BUFFERED_BYTES /\
  (is_empty q = true -> buffered_bytes q = 0).
Proof.
  intros Hm q. destruct (run_inv mtu0 events Hm) as [Hq _]. fold q in Hq.
  split; [apply (sq_accounted _ _ Hq)|]. split; [apply (inv_bytes _ _ Hq)|].
  intros He. pose proof (sq_accounted _ _ Hq) as Ha. rewrite (is_empty_holdings q Hq He) in Ha.
  by apply accounted_empty in Ha.
Qed.

Lemma keeps_holdings q q' : keeps q q' -> holdings q' ≡ₚ holdings q.
Proof. intros [Hp Hf _ _ _ _ Hs _]. unfold holdings, waiting_unreliable. by rewrite Hp, Hs, Hf. Qed.

Lemma admit_whole_holdings f q :
  exists f', holdings (admit_whole f q) ≡ₚ body f' :: holdings q /\ data f' = data f /\ flags f' = flags f.
Proof.
  unfold admit_whole, push_unreliable, push_reliable.
  destruct (relb f); [|destruct send_policy; [destruct (scheduler q) as [s|] eqn:Es|]].
  - eexists. split; [symmetry; exact (holdings_push_perm q [_])|done].
  - exists f. split; [|done]. unfold holdings, waiting_unreliable. simpl. rewrite Es, map_app. simpl.
    change (flight (q <| scheduler := _ |>)) with (flight q). solve_Permutation.
  - eexists. split; [|by split; reflexivity].
    transitivity (map body [f <| Frame.sequence_number := sequence_number q |>] ++ holdings q).
    + symmetry. rewrite holdings_push_perm. unfold holdings, waiting_unreliable. simpl. by rewrite Es.
    + done.
  - exists f. split; [symmetry; exact (holdings_push_perm q [_])|done].
Qed.

(** What an accepted message adds to the frames held. *)
Lemma insert_adds r buf channel owned q q' :
  sendq_inv q -> in_range 16 (mtu q) -> insert_payload r buf channel owned q = (Ok tt, q') ->
  exists fs, holdings q' ≡ₚ map body fs ++ holdings q /\ zlen fs = frames_needed q r (zlen buf) /\
    concat (map (fun f => FramePayload.deref (data f)) fs) = buf /\
    Forall (fun f => reliability f = Ok r) fs /\
    buffered_bytes q' = buffered_bytes q + reserved_bytes q r (zlen buf).
Proof.
  intros Hq Hm H. pose proof (inv_bytes _ _ Hq) as [Hb _]. unfold in_range in Hm.
  destruct (insert_payload_cases r buf channel owned q Hb) as
    [(_ & E)|((Hmtu & Hfit & Hfr & Hlim) & q1 & E & Hk)]; rewrite H in E; [discriminate|].
  injection E as <-. pose proof (keeps_holdings _ _ Hk) as Hh. pose proof (keeps_buffered _ _ Hk) as Hbb.
  change (holdings (?x <| buffered_bytes := _ |>)) with (holdings x) in Hh. simpl in Hbb.
  unfold frames_needed in *.
  destruct (bool_decide (r = Reliability.ReliableOrdered) && (mtu q - 60 <? zlen buf)) eqn:E.
  - apply andb_true_iff in E as [->%bool_decide_eq_true_1 El].
    assert (splittable q buf) as Hs by (split; [lia|blia|done]).
    exists (fragments_of buf owned channel q).
    split; [by rewrite Hh, holdings_push_perm|]. split; [apply fragments_of_length; lia|].
    split; [by apply fragments_concat|]. split; [|done].
    apply list.Forall_forall. intros f [i Hf]%list_elem_of_lookup.
    by apply fragments_of_lookup in Hf as (c & r & _ & _ & ->).
  - assert (zlen buf <= mtu q - 60) as Hlen.
    { destruct Hfit as [->|?]; [|done]. rewrite bool_decide_eq_true_2 in E by done. simpl in E. blia. }
    destruct (whole_frame_facts r buf channel owned q ltac:(lia)) as (_ & Hd & _).
    destruct (admit_whole_holdings (whole_frame r buf channel owned q) q) as (f' & Hp & Hd' & Hf').
    exists [f']. split; [by rewrite Hh, Hp|]. split; [done|]. simpl. rewrite Hd', Hd, app_nil_r.
    split; [done|]. split; [|done]. repeat constructor.
    rewrite (reliability_flags _ _ Hf'). by destruct r.
Qed.

(** C25: admission. In any state the queue can reach, a message is accepted exactly when it
    is within the limits ([accepts]: a payload that fits the MTU or a reliable-ordered
    message of at most [MAX_FRAGMENTS] fragments, and room below 64 MiB). Then the queue
    holds, besides what it held, frames of the requested mode whose payloads concatenate to
    the message, and has reserved their bytes; otherwise it reports [PacketSizeExceedMTU]
    and is unchanged. *)
Theorem admission_exact mtu0 events r buf channel owned :
  in_range 16 mtu0 ->
  let q := run mtu0 events in
  let outcome := insert_payload r buf channel owned q in
  (accepts q r (zlen buf) /\ outcome.1 = Ok tt /\
   exists fs, holdings outcome.2 ≡ₚ map body fs ++ holdings q /\
     zlen fs = frames_needed q r (zlen buf) /\
     concat (map (fun f => FramePayload.deref (data f)) fs) = buf /\
     Forall (fun f => reliability f = Ok r) fs /\
     buffered_bytes outcome.2 = buffered_bytes q + reserved_bytes q r (zlen buf)) \/
  (~ accepts q r (zlen buf) /\ outcome = (Err PacketSizeExceedMTU, q)).
Proof.
  intros Hm q outcome. destruct (run_inv mtu0 events Hm) as [Hq Em]. fold q in Hq, Em.
  pose proof (inv_bytes _ _ Hq) as [Hb _].
  destruct (insert_payload_cases r buf channel owned q Hb) as [(Hn & E)|(Hacc & q' & E & Hk)];
    [by right|]. pose proof (insert_adds r buf channel owned q q' Hq) as Hadd.
  left. unfold outcome. rewrite E. split; [done|]. split; [done|]. apply Hadd; [congruence|done].
Qed.

(** The queue after a message was split. *)
Lemma insert_split buf channel owned q q' :
  sendq_inv q -> in_range 16 (mtu q) -> mtu q - 60 < zlen buf ->
  insert_payload Reliability.ReliableOrdered buf channel owned q = (Ok tt, q') ->
  splittable q buf /\ packets q' = packets q ++ fragments_of buf owned channel q.
Proof.
  intros Hq Hm Hl H. pose proof (inv_bytes _ _ Hq) as [Hb _]. unfold in_range in Hm.
  destruct (insert_payload_cases Reliability.ReliableOrdered buf channel owned q Hb) as
    [(_ & E)|((Hmtu & _ & Hfr & _) & q1 & E & Hk)]; rewrite H in E; [discriminate|].
  injection E as <-. unfold frames_needed in *.
  assert (mtu q - 60 <? zlen buf = true) as El by lia. rewrite El in *. simpl in *.
  rewrite (keeps_packets _ _ Hk). split; [split; [lia|lia|done]|done].
Qed.

(** [g] is [f] as the peer decodes it, under whatever sequence number it was last sent. *)
Definition received_as (f g : FrameSetPacket) : Prop := body g = body (on_wire f (rel_of f)).

Lemma received_fields f g :
  received_as f g -> reliability f = Ok Reliability.ReliableOrdered -> is_fragment f = true ->
  flags g = flags f /\ Frame.compound_id g = Frame.compound_id f /\
  fragment_index g = Frame.fragment_index f /\ compound_size g = Frame.compound_size f /\
  order_channel g = Frame.order_channel f /\ ordered_frame_index g = Frame.ordered_frame_index f /\
  FramePayload.deref (data g) = FramePayload.deref (data f).
Proof.
  intros Hg Hr Hf. unfold received_as in Hg. rewrite (rel_of_ok _ _ Hr) in Hg. destruct g.
  unfold body, on_wire in Hg. cbn in Hg. rewrite Hf in Hg. injection Hg. intros. by subst.
Qed.

Lemma received_message id fs gs :
  message id fs -> (forall f, f ∈ fs -> reliability f = Ok Reliability.ReliableOrdered /\ is_fragment f = true) ->
  Forall2 received_as fs gs ->
  message id gs /\ map (fun g => FramePayload.deref (data g)) gs = map (fun f => FramePayload.deref (data f)) fs.
Proof.
  intros [Hsz Harr Hfr Hag] Hmode Hgs. pose proof (Forall2_length Hgs) as Hlen.
  assert (forall i g, gs !! i = Some g -> exists f, fs !! i = Some f /\ received_as f g) as Hlook.
  { intros i g Hg. destruct (Forall2_lookup_r _ _ _ _ _ Hgs Hg) as (f & ? & ?). eauto. }
  assert (forall g, g ∈ gs -> exists f, f ∈ fs /\ received_as f g) as Helem.
  { intros g [i Hg]%list_elem_of_lookup. destruct (Hlook i g Hg) as (f & Hf & ?).
    exists f. split; [by eapply list_elem_of_lookup_2|done]. }
  split; [split|].
  - by rewrite <- Hlen.
  - intros g Hg. destruct (Helem g Hg) as (f & Hf & Hfg). destruct (Hmode f Hf) as [Hm1 Hm2].
    destruct (received_fields f g Hfg Hm1 Hm2) as (Ef & _ & Ei & Es & _).
    destruct (Harr f Hf) as ([r Hr] & ? & ?). unfold arriving.
    rewrite Ei, Es, (reliability_flags _ _ Ef). eauto.
  - intros i g Hg. destruct (Hlook i g Hg) as (f & Hf & Hfg).
    destruct (Hmode f (list_elem_of_lookup_2 _ _ _ Hf)) as [Hm1 Hm2].
    destruct (received_fields f g Hfg Hm1 Hm2) as (_ & -> & -> & -> & _).
    rewrite <- Hlen. by apply Hfr.
  - intros g1 g2 Hg1 Hg2. destruct (Helem g1 Hg1) as (f1 & Hf1 & Hfg1).
    destruct (Helem g2 Hg2) as (f2 & Hf2 & Hfg2).
    destruct (received_fields f1 g1 Hfg1) as (-> & _ & _ & _ & -> & -> & _); [by apply Hmode..|].
    destruct (received_fields f2 g2 Hfg2) as (-> & _ & _ & _ & -> & -> & _); [by apply Hmode..|].
    by apply Hag.
  - clear - Hgs Hmode. induction Hgs as [|f g fs gs Hfg _ IH]; [done|]. simpl.
    destruct (received_fields f g Hfg) as (_ & _ & _ & _ & _ & _ & ->);
      [apply Hmode, list_elem_of_here..|].
    rewrite IH; [done|]. intros x Hx. apply Hmode. by apply list_elem_of_further.
Qed.

Lemma fragments_cost gs :
  sumZ Fragment.cost gs
    = zlen gs * FRAME_BUDGET + zlen (concat (map (fun g => FramePayload.deref (data g)) gs)).
Proof.
  unfold FRAME_BUDGET. induction gs as [|g gs IH]; [done|]. cbn [sumZ foldr map concat length].
  fold (sumZ Fragment.cost gs). rewrite IH, length_app.
  unfold Fragment.cost, data_len, FramePayload.len. lia.
Qed.

(** Fragmentation. A message longer than a frame's payload is appended to the queue as
    fragments each of which fits the MTU with the IP and UDP headers; and when the peer
    receives those fragments, in any order and under any sequence numbers, its reassembly
    queue accepts every one of them, if it has room for the bytes the sender reserved, and
    the last one yields exactly the message, on its channel and with its order index. *)
Theorem split_message_reassembles mtu0 events buf channel owned q' gs arrivals fq :
  let q := run mtu0 events in
  let fs := fragments_of buf owned channel q in
  in_range 16 mtu0 -> mtu0 - 60 < zlen buf ->
  insert_payload Reliability.ReliableOrdered buf channel owned q = (Ok tt, q') ->
  Forall2 received_as fs gs -> map snd arrivals ≡ₚ gs ->
  queue_wf fq -> FragmentQ.fragments fq !! compound_id q = None -> FragmentQ.queue_size fq < 1024 ->
  FragmentQ.bytes fq + reserved_bytes q Reliability.ReliableOrdered (zlen buf) <= FragmentQ.BYTE_LIMIT ->
  packets q' = packets q ++ fs /\
  (forall f, f ∈ fs -> _size f = Ok (24 + data_len f) /\ 24 + data_len f <= mtu0 - 28) /\
  exists m fq', insert_all arrivals fq = (Ok (replicate (length fs - 1) None ++ [Some m]), fq') /\
    FramePayload.deref (data m) = buf /\ reliability m = Ok Reliability.ReliableOrdered /\
    ordered_frame_index m = ChannelIndexes.get (ordered_frame_indexes q) channel /\
    order_channel m = channel.
Proof.
  intros q fs Hm Hl H Hgs Harr Hfq Hnone Hsize Hroom.
  destruct (run_inv mtu0 events Hm) as [Hq Em]. fold q in Hq, Em.
  destruct (insert_split buf channel owned q q' Hq) as [Hs Hp]; [congruence..|].
  split; [done|]. split.
  { intros f Hf. rewrite <- Em. by apply (fragments_fit buf owned channel). }
  assert (forall f, f ∈ fs -> reliability f = Ok Reliability.ReliableOrdered /\ is_fragment f = true /\
    Frame.ordered_frame_index f = ChannelIndexes.get (ordered_frame_indexes q) channel /\
    Frame.order_channel f = channel) as Hmode.
  { intros f [i Hf]%list_elem_of_lookup. by apply fragments_of_lookup in Hf as (c & r & _ & _ & ->). }
  destruct (received_message _ _ gs (fragments_message buf owned channel q Hs)) as [Hmsg Hcat].
  { intros f Hf. by destruct (Hmode f Hf) as (? & ? & _). }
  { done. }
  pose proof (Forall2_length Hgs) as Hlen. rewrite Hlen. fold fs in Hcat.
  destruct (message_reassembles _ gs Hmsg arrivals fq) as (m & fq' & E & Hd & (x & Hx & Hr & Ho & Hc) & _);
    try done.
  { rewrite fragments_cost, Hcat. unfold fs. rewrite fragments_concat by done. rewrite <- Hlen.
    unfold fs. rewrite fragments_of_length by apply Hs.
    unfold reserved_bytes, frames_needed in Hroom. rewrite bool_decide_eq_true_2 in Hroom by done.
    assert (mtu q - 60 <? zlen buf = true) as El by lia. rewrite El in Hroom. exact Hroom. }
  exists m, fq'. split; [done|]. rewrite Hd, Hcat, Hr, Ho, Hc.
  split; [by apply fragments_concat|].
  apply list_elem_of_lookup in Hx as [i Hx]. destruct (Forall2_lookup_r _ _ _ _ _ Hgs Hx) as (f & Hf & Hfx).
  destruct (Hmode f (list_elem_of_lookup_2 _ _ _ Hf)) as (H1 & H2 & H3 & H4).
  destruct (received_fields f x Hfx H1 H2) as (Ef & _ & _ & _ & -> & -> & _).
  by rewrite (reliability_flags _ _ Ef).
Qed.

(** The ranges an event acknowledges. *)
Definition acknowledged (e : event) : list (Z * Z) :=
  match e with
  | Ack sequence _ => [(sequence, sequence)]
  | AckRanges ranges _ => ranges
  | _ => []
  end.

Lemma ack_acks sequence now q : acks [(sequence, sequence)] q (ack sequence now q).
Proof. unfold ack. case_if; [apply ack_ranges_acks|apply ack_direct_acks]. Qed.

Lemma acks_holdings ranges q q' :
  acks ranges q q' ->
  exists gone, sent_packet q ≡ₚ gone.1 ++ gone.2 /\ holdings q ≡ₚ map sent_body gone.1 ++ holdings q' /\
    forall p, p ∈ gone.1 -> acked_by ranges p.
Proof.
  intros (Hp & Hs & gone & rest & Hperm & Hf & Hg & _). exists (gone, rest). split; [done|]. split; [|done].
  unfold holdings, waiting_unreliable. rewrite Hp, Hs, Hf. simpl.
  unfold flight. rewrite Hperm, map_app. fold sent_body. solve_Permutation.
Qed.

(** What an event adds to the frames held, and what it takes away: an acknowledged entry of
    the flight, or an unreliable frame that was sent. *)
Definition may_leave e q (f : FrameSetPacket) : Prop :=
  (exists p, p ∈ sent_packet q /\ f = sent_body p /\ acked_by (acknowledged e) p) \/
  (exists now, e = Flush now /\ relb f = false /\ f ∈ map body (frames (flush now q).1)).

Definition conserves e q : Prop :=
  exists fresh gone, fresh ++ holdings q ≡ₚ gone ++ holdings (handle e q) /\
    (forall f, f ∈ gone -> may_leave e q f) /\
    (fresh ≠ [] -> exists r buf channel owned, e = Insert r buf channel owned).

Lemma handle_conserves e q :
  sendq_inv q -> in_range 16 (mtu q) ->
  conserves e q.
Proof.
  intros Hq Hm.
  assert (holdings (handle e q) ≡ₚ holdings q -> conserves e q) as Hsame.
  { intros Hh. exists [], []. split; [by rewrite Hh|]. split; [|done].
    intros f Hf. by apply not_elem_of_nil in Hf. }
  assert (acks (acknowledged e) q (handle e q) -> conserves e q) as Hacks.
  { intros Ha. destruct (acks_holdings _ _ _ Ha) as ([gone rest] & Hp & Hh & Hg). simpl in *.
    exists [], (map sent_body gone). split; [done|]. split; [|done].
    intros f (p & -> & Hin)%list_elem_of_fmap. left. exists p. split; [|auto].
    rewrite Hp. apply elem_of_app. by left. }
  destruct e.
  - destruct (insert_payload r buf channel owned q) as [[[]|err] q'] eqn:E.
    + destruct (insert_adds _ _ _ _ _ _ Hq Hm E) as (fs & Hh & _).
      exists (map body fs), []. simpl. rewrite E. simpl. split; [by rewrite Hh|]. split; [|by eauto].
      intros f Hf. by apply not_elem_of_nil in Hf.
    + apply Hsame. simpl. rewrite E. pose proof (inv_bytes _ _ Hq) as [Hb _].
      destruct (insert_payload_cases r buf channel owned q Hb) as [(_ & E')|(_ & q1 & E' & _)];
        rewrite E in E'; [by injection E' as _ ->|discriminate].
  - apply Hacks, ack_acks.
  - apply Hacks, ack_ranges_acks.
  - apply Hsame, keeps_holdings, nack_ranges_keeps.
  - destruct (flush_sends now q Hq) as [_ _ _ (gone & Hh & Hg)].
    exists [], gone. split; [done|]. split; [|done]. intros f Hf. right. exists now.
    destruct (Hg f Hf). done.
  - apply Hsame, keeps_holdings, enable_coalescing_keeps.
  - apply Hsame, keeps_holdings, set_recovery_options_keeps.
  - apply Hsame. simpl. destruct send_policy eqn:E; [|done].
    by destruct (set_send_options_inv opts q E Hq) as (_ & ? & _).
Qed.

(** C3: reliability. In any state the queue can reach, the frames held before an event,
    with those an [Insert] adds, are the frames held after it and the frames that leave;
    and a reliable frame leaves only when it is in flight and the event acknowledges one of
    the sequence numbers it was sent under. No loss report, timeout, flush or change of
    options drops it, and an unreliable frame leaves only into the output of a flush. *)
Theorem reliable_frames_leave_only_acked mtu0 events e :
  in_range 16 mtu0 ->
  let q := run mtu0 events in
  exists fresh gone, fresh ++ holdings q ≡ₚ gone ++ holdings (handle e q) /\
    (forall f, f ∈ gone -> relb f = true ->
       exists p id, p ∈ sent_packet q /\ f = sent_body p /\
         (id = Frame.sequence_number (frame p) \/ id ∈ aliases p) /\
         in_rangesb (acknowledged e) id = true) /\
    (forall f, f ∈ gone -> relb f = false ->
       exists now, e = Flush now /\ f ∈ map body (frames (flush now q).1)) /\
    (fresh ≠ [] -> exists r buf channel owned, e = Insert r buf channel owned).
Proof.
  intros Hm q. destruct (run_inv mtu0 events Hm) as [Hq Em]. fold q in Hq, Em.
  destruct (handle_conserves e q Hq) as (fresh & gone & Hh & Hg & Hf); [congruence|].
  exists fresh, gone. split; [done|]. split; [|split; [|done]].
  - intros f Hin Hr. destruct (Hg f Hin) as [(p & Hp & Hfp & id & Hid & Hrange)|(now & _ & Hr' & _)];
      [by exists p, id|congruence].
  - intros f Hin Hr. destruct (Hg f Hin) as [(p & Hp & -> & _)|(now & -> & _ & Ho)]; [|by exists now].
    exfalso. assert (relb (sent_body p) = true) as E; [|congruence].
    apply (sq_flight _ _ Hq). by apply list_elem_of_fmap_2.
Qed.
End Run.

(** ** The theorems at work *)

(** The crate built with both features, and a history on a path of 100 bytes: a message that
    is split, one that is not, a loss, and an acknowledgement. *)
Definition all_features : Features := {| recovery_policy := true; send_policy := true |}.

Definition sample_buf : list Z := repeat 7 50.

Definition sample_events : list event :=
  [Insert Reliability.ReliableOrdered sample_buf 0 false;
   Insert Reliability.Reliable [1; 2; 3] 0 true; Flush 10;
   NackRanges [(1, 1)] 30; Flush 40; AckRanges [(0, 1)] 60;
   Insert Reliability.Unreliable [4] 0 false].

Lemma buffered_bytes_exact_witness :
  let q := @run all_features merge_sort_flight 100 sample_events in
  buffered_bytes q = 131 + 129 /\ sumZ cost (holdings q) + map_sum live (shared q) = 260.
Proof.
  destruct (@buffered_bytes_exact all_features merge_sort_flight 100 sample_events) as [H _].
  { unfold in_range. lia. }
  intros q. split; [vm_compute; reflexivity|]. etransitivity; [symmetry; exact H|vm_compute; reflexivity].
Defined.

Lemma admission_exact_witness :
  let q := @run all_features merge_sort_flight 100 sample_events in
  let outcome := @insert_payload all_features Reliability.ReliableOrdered sample_buf 3 true q in
  outcome.1 = Ok tt /\ buffered_bytes outcome.2 = buffered_bytes q + (2 * 128 + 50).
Proof.
  destruct (@admission_exact all_features merge_sort_flight 100 sample_events
    Reliability.ReliableOrdered sample_buf 3 true) as [(_ & H & fs & _ & _ & _ & _ & E)|(Hn & _)].
  - unfold in_range. lia.
  - intros q outcome. split; [exact H|]. exact E.
  - exfalso. apply Hn. split; [vm_compute; reflexivity|]. split; [by left|].
    split; vm_compute; congruence.
Defined.

(** The two fragments of [sample_buf], as the peer decodes them. *)
Definition sample_part (i : nat) : FrameSetPacket :=
  nth i (map (fun f => on_wire f (rel_of f)) (fragments_of sample_buf false 0 (new 100))) (empty_frame 0).

Lemma split_message_reassembles_witness :
  exists m fq', insert_all [(5, sample_part 1); (9, sample_part 0)] FragmentQ.default
      = (Ok [None; Some m], fq') /\
    FramePayload.deref (data m) = sample_buf.
Proof.
  destruct (@split_message_reassembles all_features merge_sort_flight 100 [] sample_buf 0 false
    (@insert_payload all_features Reliability.ReliableOrdered sample_buf 0 false (new 100)).2
    [sample_part 0; sample_part 1] [(5, sample_part 1); (9, sample_part 0)] FragmentQ.default)
    as (_ & _ & m & fq' & E & Hd & _).
  - unfold in_range. lia.
  - reflexivity.
  - reflexivity.
  - repeat constructor.
  - apply perm_swap.
  - by split.
  - reflexivity.
  - reflexivity.
  - vm_compute. congruence.
  - exists m, fq'. split; [exact E|exact Hd].
Defined.

(** The reliable frame of the history is still held after a flush and a loss report, and
    leaves with its acknowledgement. *)
Lemma reliable_frames_leave_only_acked_witness :
  let q := @run all_features merge_sort_flight 100 sample_events in
  exists fresh gone, fresh ++ holdings q ≡ₚ
    gone ++ holdings (@handle all_features merge_sort_flight (AckRanges [(2, 5)] 90) q) /\
    fresh = [] /\ length gone = 1%nat.
Proof.
  destruct (@reliable_frames_leave_only_acked all_features merge_sort_flight 100 sample_events
    (AckRanges [(2, 5)] 90)) as (fresh & gone & Hp & _ & _ & Hf).
  { unfold in_range. lia. }
  assert (fresh = []) as ->.
  { destruct fresh; [done|]. destruct Hf as (r & buf & channel & owned & [=]). done. }
  intros q. exists [], gone. split; [exact Hp|]. split; [done|].
  apply Permutation_length in Hp. rewrite !length_app in Hp.
  set (a := length (holdings _)) in Hp at 1. set (b := length (holdings (handle _ _))) in Hp.
  assert (a = 2%nat) as Ea by (vm_compute; reflexivity).
  assert (b = 1%nat) as Eb by (vm_compute; reflexivity).
  rewrite Ea, Eb in Hp. simpl in Hp. lia.
Defined.

(** Without a scheduler, [push_unreliable] numbers the frame and the flush numbers it again:
    the first datagram of a connection built with [send-policy] carries number 1, and 0 is
    never sent; built without the feature it carries 0. *)
Definition no_features : Features := {| recovery_policy := false; send_policy := false |}.

Lemma unconfigured_unreliable_skips_a_number :
  let first_number (features : Features) :=
    map Frame.sequence_number (frames (@flush features merge_sort_flight 10
      (@run features merge_sort_flight 1400 [Insert Reliability.Unreliable [0xfe] 0 false])).1) in
  first_number all_features = [1] /\ first_number no_features = [0].
Proof. split; vm_compute; reflexivity. Qed.
