(* ===== verification/SendQWire.v ===== *)
(** * What the send queue puts on the wire

    The numbers a frame carries stay within their fields, and so every frame that a history
    of the send queue puts out is one the codec accepts. The operations fall in two groups:
    those that renumber the frames in flight ([renumbers]) and [insert_payload], which draws
    from the counters. *)

From S2P Require Import Prelude Errors Sequence Frame FrameCodec Fragment RecvQ SendOptions SendQ SendQInv SendQInsert SendQFlow SendQRun.
Import SendQ.

(** ** Sequence numbers *)

Definition numbered_frame (f : FrameSetPacket) : Prop := in_range 24 (Frame.sequence_number f).

Definition numbered_entry (p : Sent) : Prop := numbered_frame (frame p).

(** The number the next datagram takes, and those of the frames in flight. *)
Definition stamped (q : SendQ) : Prop :=
  in_range 24 (sequence_number q) /\ Forall numbered_entry (sent_packet q).

(** An operation that gives out no index but sequence numbers, in range. *)
Record renumbers (q q' : SendQ) : Prop := {
  renumbers_reliable : reliable_frame_index q' = reliable_frame_index q;
  renumbers_sequenced : sequenced_frame_indexes q' = sequenced_frame_indexes q;
  renumbers_ordered : ordered_frame_indexes q' = ordered_frame_indexes q;
  renumbers_compound : compound_id q' = compound_id q;
  renumbers_stamped : stamped q -> stamped q';
}.

#[export] Instance renumbers_preorder : PreOrder renumbers.
Proof. split; [by intros q; split|]. intros q1 q2 q3 [] []. split; try congruence. auto. Qed.

Lemma next_in_range v : in_range 24 (next v).
Proof. unfold in_range. pose proof (next_range v). lia. Qed.

#[export] Hint Resolve next_in_range : core.

Section Renumbers.
Context {feat : Features} {usort : UnstableSort}.
Implicit Types (q : SendQ) (p : Sent) (f : FrameSetPacket) (out : list FrameSetPacket).

(** A change of other fields. *)
Ltac renumbers_fields := split; (reflexivity || (intros [? ?]; split; simpl; auto)).

Lemma stamped_sent q items :
  Forall numbered_entry items -> stamped q -> stamped (q <| sent_packet := items |>).
Proof. by intros ? [? _]. Qed.

Lemma map_renumbers q (g : Sent -> Sent) :
  (forall p, numbered_entry p -> numbered_entry (g p)) ->
  renumbers q (q <| sent_packet := map g (sent_packet q) |>).
Proof.
  intros Hg. split; try done. intros [Hs Hf]. apply stamped_sent; [|done].
  apply Forall_fmap. by eapply list.Forall_impl.
Qed.

Lemma fewer_renumbers q items :
  (forall p, p ∈ items -> p ∈ sent_packet q) -> renumbers q (q <| sent_packet := items |>).
Proof.
  intros Hi. split; try done. intros [Hs Hf]. apply stamped_sent; [|done].
  apply list.Forall_forall. intros p Hp. by eapply list.Forall_forall; [|apply Hi].
Qed.

(** A loop over the flight. *)
Definition renumbers_item (loop_body : Sent -> SendQ -> Sent * SendQ) : Prop :=
  forall p q, renumbers q (loop_body p q).2 /\
    (in_range 24 (sequence_number q) -> numbered_entry p -> numbered_entry (loop_body p q).1).

Lemma for_items_renumbers loop_body items q :
  renumbers_item loop_body -> stamped q -> Forall numbered_entry items ->
  renumbers q (for_items loop_body items q).2 /\
  Forall numbered_entry (for_items loop_body items q).1.
Proof.
  intros Hb. revert q. induction items as [|p items IH]; intros q Hq Hi; cbn [for_items]; [done|].
  apply list.Forall_cons in Hi as [Hp Hi]. destruct (Hb p q) as [Hr Hn].
  destruct (loop_body p q) as [p' q1]. cbn [fst snd] in *.
  destruct (IH q1 (renumbers_stamped _ _ Hr Hq) Hi) as [Hr2 Hi2].
  destruct (for_items loop_body items q1) as [items' q2]. cbn [fst snd] in *.
  split; [by transitivity q1|]. constructor; [|done]. apply Hn; [apply Hq|done].
Qed.

Lemma for_items_counters loop_body items q :
  renumbers_item loop_body ->
  let q' := (for_items loop_body items q).2 in
  reliable_frame_index q' = reliable_frame_index q /\
  sequenced_frame_indexes q' = sequenced_frame_indexes q /\
  ordered_frame_indexes q' = ordered_frame_indexes q /\ compound_id q' = compound_id q.
Proof.
  intros Hb. revert q. induction items as [|p items IH]; intros q; cbn [for_items]; [done|].
  destruct (Hb p q) as [[] _]. destruct (loop_body p q) as [p' q1]. cbn [fst snd] in *.
  specialize (IH q1). destruct (for_items loop_body items q1) as [items' q2]. simpl in *.
  destruct IH as (? & ? & ? & ?). split_and!; congruence.
Qed.

Lemma each_sent_renumbers loop_body q :
  renumbers_item loop_body -> renumbers q (each_sent loop_body q).
Proof.
  intros Hb. unfold each_sent. pose proof (for_items_counters loop_body (sent_packet q) q Hb) as Hc.
  pose proof (for_items_renumbers loop_body (sent_packet q) q Hb) as Hr.
  destruct (for_items loop_body (sent_packet q) q) as [items q']. simpl in Hc, Hr.
  destruct Hc as (? & ? & ? & ?). split; try done. intros Hq.
  destruct Hr as [Hr Hi]; [done|apply Hq|]. apply stamped_sent; [done|]. by apply Hr.
Qed.

Lemma resequence_renumbers : renumbers_item resequence.
Proof. intros p q. split; [renumbers_fields|done]. Qed.

Lemma nack_renumbers sequence now q : renumbers q (nack sequence now q).
Proof.
  apply each_sent_renumbers. intros p q1. unfold nack_item. case_if; [|by split].
  apply (resequence_renumbers p q1).
Qed.

Lemma nack_all_renumbers missing now q : renumbers q (nack_all missing now q).
Proof.
  unfold nack_all. revert q. induction missing as [|id missing IH]; intros q; simpl; [done|].
  etransitivity; [apply nack_renumbers|apply IH].
Qed.

Lemma nack_ranges_renumbers ranges now q : renumbers q (nack_ranges ranges now q).
Proof.
  unfold nack_ranges. destruct ranges as [|[] [|]]; try apply nack_all_renumbers.
  case_if; [apply nack_renumbers|apply nack_all_renumbers].
Qed.

Lemma tick_item_renumbers now probe : renumbers_item (tick_item now probe).
Proof.
  intros p q. unfold tick_item. case_if; [apply (resequence_renumbers p q)|].
  case_if; (split; [renumbers_fields|done]).
Qed.

Lemma probe_tail_renumbers now q : renumbers q (probe_tail now q).
Proof.
  unfold probe_tail. case_if; [done|]. destruct (sent_packet q) as [|first rest] eqn:E; [done|].
  destruct (recovery q) as [r|]; [|done]. split; try done. intros [Hs Hf].
  split; [apply next_in_range|]. apply Forall_fmap, list.Forall_forall. by intros p _.
Qed.

Lemma acknowledge_progress_renumbers now sampled q : renumbers q (acknowledge_progress now sampled q).
Proof.
  unfold acknowledge_progress. destruct (recovery q) as [r|]; [|done].
  set (q1 := q <| recovery := _ |>). transitivity q1; [renumbers_fields|]. clearbody q1.
  destruct (_ && sampled); [|done].
  etransitivity; [apply (map_renumbers q1 (fun p => p <| retries := Z.min (retries p) 1 |>)); done|].
  renumbers_fields.
Qed.

Lemma tick_renumbers now q : renumbers q (tick now q).
Proof.
  unfold tick. set (q1 := if _ && _ then probe_tail now q else q).
  assert (renumbers q q1) as H1 by (unfold q1; case_if; [apply probe_tail_renumbers|done]).
  clearbody q1. case_if; [done|]. etransitivity; [exact H1|].
  set (probe := if recovery_policy then active_probe q1 else None).
  assert (renumbers q1 (each_sent (tick_item now probe) (q1 <| next_retry := I64_MAX |>))) as H2.
  { etransitivity; [|apply each_sent_renumbers, tick_item_renumbers]. renumbers_fields. }
  clearbody probe. destruct probe as [pr|]; [|exact H2]. destruct (SendQ.recovery _); [|exact H2].
  case_if; [|exact H2]. etransitivity; [exact H2|]. renumbers_fields.
Qed.

Lemma update_rto_renumbers rtt q : renumbers q (update_rto rtt q).
Proof. unfold update_rto. destruct (latency_sample _ _). case_if; renumbers_fields. Qed.

Lemma sort_if_dirty_renumbers q : renumbers q (sort_if_dirty q).
Proof.
  unfold sort_if_dirty. case_if; [|done].
  etransitivity; [apply (fewer_renumbers q (sort_flight (sent_packet q)))|renumbers_fields].
  intros p. by rewrite sort_flight_perm.
Qed.

Lemma take_probe_packing_renumbers q : renumbers q (take_probe_packing q).2.
Proof. unfold take_probe_packing. destruct (recovery q); renumbers_fields. Qed.

Lemma take_probe_replay_renumbers q : renumbers q (take_probe_replay q).2.
Proof. unfold take_probe_replay. destruct (recovery q); renumbers_fields. Qed.

Lemma reset_recovery_renumbers now q : renumbers q (reset_recovery now q).
Proof.
  unfold reset_recovery. case_if; [|done]. destruct (recovery _); [case_if|]; renumbers_fields.
Qed.

Lemma ack_direct_renumbers sequence now q : renumbers q (ack_direct sequence now q).
Proof.
  unfold ack_direct. destruct (list_find _ _) as [[i item]|]; [|done].
  set (q1 := q <| sent_packet := _ |>).
  assert (renumbers q q1) as H1.
  { apply fewer_renumbers. intros p Hp.
    by eapply elem_of_sublist; [|apply sublist_delete]. }
  etransitivity; [exact H1|]. clearbody q1.
  set (q2 := if recovery_policy then _ else q1).
  assert (renumbers q1 q2) as H2 by (unfold q2; case_if; [apply acknowledge_progress_renumbers|done]).
  etransitivity; [exact H2|]. clearbody q2. set (q3 := if _ && _ then _ else q2).
  assert (renumbers q2 q3) as H3 by (unfold q3; case_if; renumbers_fields).
  etransitivity; [exact H3|]. clearbody q3. destruct (release _ _) as [released store].
  set (q4 := q3 <| shared := _ |> <| buffered_bytes := _ |>).
  transitivity q4; [renumbers_fields|]. clearbody q4.
  set (q5 := if newer _ _ then _ else q4).
  assert (renumbers q4 q5) as H5.
  { unfold q5. case_if; [|done]. etransitivity; [apply nack_all_renumbers|renumbers_fields]. }
  etransitivity; [exact H5|]. clearbody q5. case_if; [apply update_rto_renumbers|done].
Qed.

Lemma ack_ranges_pass_renumbers GROUPED ranges now q :
  renumbers q (ack_ranges_pass GROUPED ranges now q).
Proof.
  unfold ack_ranges_pass. set (acc0 := mk_pass _ _ _ _ _ _ _).
  destruct (ack_pass_kept GROUPED ranges now (sent_packet q) acc0) as (kept' & gone & Ek & Hsub & _).
  set (acc := foldl _ _ _) in *. clearbody acc. simpl in Ek. rewrite Ek.
  set (q1 := q <| sent_packet := _ |> <| shared := _ |> <| buffered_bytes := _ |>).
  transitivity q1.
  { etransitivity; [apply (fewer_renumbers q kept')|renumbers_fields].
    intros p Hp. by eapply elem_of_sublist. }
  clearbody q1. set (q2 := if recovery_policy && _ then _ else q1).
  assert (renumbers q1 q2) as H2 by (unfold q2; case_if; [apply acknowledge_progress_renumbers|done]).
  etransitivity; [exact H2|]. clearbody q2. set (q3 := if GROUPED && _ then _ else q2).
  assert (renumbers q2 q3) as H3 by (unfold q3; case_if; renumbers_fields).
  etransitivity; [exact H3|]. clearbody q3. set (q4 := if negb _ then _ else q3).
  assert (renumbers q3 q4) as H4 by (unfold q4; case_if; renumbers_fields).
  etransitivity; [exact H4|]. clearbody q4. set (q5 := q4 <| srtt := _ |> <| rto := _ |>).
  transitivity q5; [renumbers_fields|]. clearbody q5. case_if; [|done].
  etransitivity; [apply nack_all_renumbers|renumbers_fields].
Qed.

Lemma ack_ranges_renumbers ranges now q : renumbers q (ack_ranges ranges now q).
Proof.
  assert (forall G, renumbers q (ack_ranges_inner G ranges now q)) as Hi.
  { intros G. unfold ack_ranges_inner.
    destruct ranges as [|[start stop] [|]]; try apply ack_ranges_pass_renumbers.
    case_if; [apply ack_direct_renumbers|apply ack_ranges_pass_renumbers]. }
  unfold ack_ranges. case_if; apply Hi.
Qed.

Lemma ack_renumbers sequence now q : renumbers q (ack sequence now q).
Proof. unfold ack. case_if; [apply ack_ranges_renumbers|apply ack_direct_renumbers]. Qed.
End Renumbers.

(** ** The output of a flush *)

(** [emits q q' out]: from [q] the operation went to [q'] with the output [out]; no index was
    given out but sequence numbers, and those in flight and of the output are in range. *)
Record emits (q q' : SendQ) (out : list FrameSetPacket) : Prop := {
  emits_reliable : reliable_frame_index q' = reliable_frame_index q;
  emits_sequenced : sequenced_frame_indexes q' = sequenced_frame_indexes q;
  emits_ordered : ordered_frame_indexes q' = ordered_frame_indexes q;
  emits_compound : compound_id q' = compound_id q;
  emits_stamped : stamped q';
  emits_numbered : Forall numbered_frame out;
}.

Definition group_numbered (g : Group) : Prop := forall s, group_sequence g = Some s -> in_range 24 s.

Section Emits.
Context {feat : Features} {usort : UnstableSort}.
Implicit Types (q : SendQ) (p : Sent) (f : FrameSetPacket) (out : list FrameSetPacket) (g : Group).

Lemma emits_trans q1 q2 q3 out2 out3 : emits q1 q2 out2 -> emits q2 q3 out3 -> emits q1 q3 out3.
Proof. intros [] []. split; try congruence; done. Qed.

Lemma renumbers_emits q q' out :
  renumbers q q' -> stamped q -> Forall numbered_frame out -> emits q q' out.
Proof. intros []. split; try done. auto. Qed.

Lemma numbered_snoc out f : Forall numbered_frame out -> numbered_frame f -> Forall numbered_frame (out ++ [f]).
Proof. intros. apply Forall_app. split; [done|]. by constructor. Qed.

Lemma resent_renumbers now probe p q :
  renumbers q (resent now probe p q).2 /\ frame (resent now probe p q).1 = frame p /\
  sent_packet (resent now probe p q).2 = sent_packet q.
Proof.
  unfold resent. cbn [fst snd]. split; [split; try done; by intros [? ?]|]. split; [by case_if|done].
Qed.

Lemma resend_items_emits now probe items ret q :
  let '(items', ret', q') := resend_items now probe items ret q in
  renumbers q q' /\ sent_packet q' = sent_packet q /\
  (Forall numbered_entry items -> Forall numbered_frame ret ->
   Forall numbered_entry items' /\ Forall numbered_frame ret').
Proof.
  revert ret q. induction items as [|p items IH]; intros ret q; cbn [resend_items]; [done|].
  destruct (resent_renumbers now probe p q) as (Hr & Ef & Es).
  destruct (resent now probe p q) as [p1 q1]. cbn [fst snd] in *.
  assert (exists p' ret' q2, (if negb (sent p) then (p1, ret ++ [frame p], q1) else (p, ret, q))
    = (p', ret', q2) /\ renumbers q q2 /\ sent_packet q2 = sent_packet q /\
    (numbered_entry p -> Forall numbered_frame ret -> numbered_entry p' /\ Forall numbered_frame ret'))
    as (p' & ret' & q2 & -> & Hr2 & Es2 & Hn).
  { case_if; [|by exists p, ret, q]. exists p1, (ret ++ [frame p]), q1. split_and!; try done.
    intros Hp Hret. split; [unfold numbered_entry; by rewrite Ef|by apply numbered_snoc]. }
  specialize (IH ret' q2). destruct (resend_items now probe items ret' q2) as [[items' ret2] q3].
  destruct IH as (Hr3 & Es3 & Hi). split; [by transitivity q2|]. split; [congruence|].
  intros [Hp Hit]%list.Forall_cons Hret. destruct (Hn Hp Hret) as [Hp' Hret'].
  destruct (Hi Hit Hret'). split; [by constructor|done].
Qed.

(** A frame joins a datagram: it is numbered, and so is the datagram left open. *)
Lemma assign_group_emits may f g (out : OutgoingFrames) q :
  stamped q -> group_numbered g -> Forall numbered_frame (frames out) ->
  let '(f', g', out', q') := assign_group may f g out q in
  emits q q' (frames out' ++ [f']) /\ group_numbered g' /\ numbered_frame f'.
Proof.
  intros [Hs Hf] Hg Ho. unfold assign_group.
  assert (forall b, group_numbered (mk_group (if may then Some (sequence_number q) else None) b 1)) as Hn.
  { intros b s. simpl. case_if; [|done]. by intros [= <-]. }
  assert (Forall numbered_frame (frames out ++ [f <| Frame.sequence_number := sequence_number q |>])) as Ho'
    by (by apply numbered_snoc).
  destruct (group_sequence g) as [s|] eqn:Eg; [case_if|].
  - specialize (Hg s Eg). split; [split; try done; by apply numbered_snoc|].
    split; [|done]. intros s' [= <-]. done.
  - split; [split; try done; split; [apply next_in_range|done]|]. split; [apply Hn|done].
  - split; [split; try done; split; [apply next_in_range|done]|]. split; [apply Hn|done].
Qed.

Lemma launch_renumbers now f q :
  in_range 24 (Frame.sequence_number f) -> renumbers q (launch now f q).
Proof.
  intros Hf. assert (stamped q -> Forall numbered_entry (sent_packet q ++ [mk_sent f true now 0 []])) as Hall.
  { intros [_ ?]. apply Forall_app. split; [done|]. by constructor. }
  unfold launch. destruct (list.last (sent_packet q)); [case_if|];
    (split; try done; intros Hq; split; [apply Hq|by apply Hall]).
Qed.

Lemma flush_queue_emits count now g (out : OutgoingFrames) q :
  stamped q -> group_numbered g -> Forall numbered_frame (frames out) ->
  emits q (flush_queue count now g out q).2 (frames (flush_queue count now g out q).1).
Proof.
  revert g out q. induction count as [|count IH]; intros g out q Hq Hg Ho; [by apply renumbers_emits|].
  cbn [flush_queue]. set (full := _ <=? _). case_if; [by apply renumbers_emits|].
  destruct (packets q) as [|f rest]; [by apply renumbers_emits|].
  set (q1 := q <| packets := rest |>). assert (renumbers q q1) as R1 by (split; try done).
  case_if.
  { eapply emits_trans; [|apply IH; [|done|done]]; [|by apply R1].
    apply renumbers_emits; [by split|done|done]. }
  set (assigned := if coalesce q1 then _ else _).
  assert (let '(f', g', out', q') := assigned in
    emits q q' (frames out' ++ [f']) /\ group_numbered g' /\ numbered_frame f') as Ha.
  { unfold assigned. case_if.
    - pose proof (assign_group_emits (packable f) f g out q1 (renumbers_stamped _ _ R1 Hq) Hg Ho) as Ha.
      destruct (assign_group (packable f) f g out q1) as [[[f' g'] out'] q'].
      destruct Ha as [[] ?]. split; [|done]. by split.
    - destruct Hq as [Hs Hf]. split; [split; try done; [split; [apply next_in_range|done]|by apply numbered_snoc]|].
      done. }
  clearbody assigned. destruct assigned as [[[f' g'] out'] q2]. destruct Ha as (He & Hg' & Hf').
  eapply emits_trans; [|apply IH; [|done|apply He]].
  - destruct He. case_if; [|by split].
    pose proof (launch_renumbers now f' q2 Hf') as []. split; try congruence; auto.
  - case_if; [|apply He]. apply launch_renumbers; [done|apply He].
Qed.

Lemma flush_legacy_emits now q :
  stamped q -> emits q (flush_legacy now q).2 (frames (flush_legacy now q).1).
Proof.
  intros Hq. unfold flush_legacy. pose proof (tick_renumbers now q) as R1.
  set (q1 := tick now q) in *. clearbody q1.
  set (r2 := if recovery_policy then take_probe_packing q1 else (false, q1)).
  assert (renumbers q1 r2.2) as R2
    by (unfold r2; destruct recovery_policy; [apply take_probe_packing_renumbers|done]).
  destruct r2 as [packing q2]. simpl in R2. pose proof (sort_if_dirty_renumbers q2) as R3.
  set (q3 := sort_if_dirty q2) in *. clearbody q3.
  set (r4 := if recovery_policy then take_probe_replay q3 else (None, q3)).
  assert (renumbers q r4.2) as R4.
  { etransitivity; [exact R1|]. etransitivity; [exact R2|]. etransitivity; [exact R3|].
    unfold r4. destruct recovery_policy; [apply take_probe_replay_renumbers|done]. }
  destruct r4 as [probe q4]. simpl in R4. pose proof (renumbers_stamped _ _ R4 Hq) as Hq4.
  set (r5 := if retries_pending q4 then _ else ([], q4)).
  assert (emits q r5.2 r5.1) as H5.
  { unfold r5. case_if; [|by apply renumbers_emits].
    pose proof (resend_items_emits now probe (sent_packet q4) [] q4) as Hi.
    destruct (resend_items now probe (sent_packet q4) [] q4) as [[items ret] q5].
    destruct Hi as (R5 & Es & Hi). destruct Hi as [Hit Hret]; [apply Hq4|done|].
    destruct (renumbers_emits q q5 ret (transitivity R4 R5) Hq Hret) as [? ? ? ? [? ?] ?].
    by split. }
  destruct r5 as [ret q5]. simpl in H5. eapply emits_trans; [exact H5|].
  apply flush_queue_emits; [apply H5|done|apply H5].
Qed.

(** *** The scheduler's rounds *)

Record round_ok (q : SendQ) (st : Round) : Prop := {
  round_emits : emits q (queue st) (frames (output st));
  round_group : group_numbered (group st);
}.

Lemma no_group_numbered b n : group_numbered (mk_group None b n).
Proof. by intros s. Qed.

Lemma lane_send_ok now probe lane charge q st :
  round_ok q st -> round_ok q (lane_send now probe lane charge st).
Proof.
  intros Hst. pose proof Hst as [[? ? ? ? Hs Ho] Hg]. unfold lane_send. case_if; [|case_if].
  - destruct (unreliable (sched st)); [done|]. split; [|apply no_group_numbered].
    destruct Hs. split; try done; [split; [apply next_in_range|done]|by apply numbered_snoc].
  - destruct (sent_packet (queue st) !! retry_cursor st) as [item|] eqn:E; [|done].
    destruct (resent_renumbers now probe item (queue st)) as (R & Ef & Es).
    destruct (resent now probe item (queue st)) as [item' q1]. cbn [fst snd] in *.
    assert (numbered_entry item) as Hi.
    { destruct Hs as [_ Hf]. eapply Forall_lookup_1; [exact Hf|exact E]. }
    destruct R as [? ? ? ? R]. destruct (R Hs) as [Hn Hf].
    split; [|apply no_group_numbered]. split; simpl; try congruence; [|by apply numbered_snoc].
    split; [done|]. simpl. apply Forall_insert; [done|]. unfold numbered_entry. by rewrite Ef.
  - destruct (packets (queue st)) as [|f rest]; [done|].
    set (q1 := queue st <| packets := rest |>). assert (stamped q1) as Hq1 by exact Hs.
    pose proof (assign_group_emits (coalesce q1 && packable f) f (group st) (output st) q1 Hq1 Hg Ho) as Ha.
    destruct (assign_group _ f (group st) (output st) q1) as [[[f' g'] out'] q2].
    destruct Ha as ([? ? ? ? Hs2 Ho2] & Hg' & Hf').
    destruct (launch_renumbers now f' q2 Hf') as [? ? ? ? Hl].
    split; [|done]. split; simpl in *; try congruence. by apply Hl.
Qed.

Lemma lane_loop_ok fuel now probe lane quantum lane_bytes progressed q st :
  round_ok q st -> round_ok q (lane_loop fuel now probe lane quantum lane_bytes progressed st).2.
Proof.
  revert lane_bytes progressed st. induction fuel as [|fuel IH]; intros lane_bytes progressed st Hst;
    cbn [lane_loop]; [done|]. case_if; [done|]. destruct (lane_charge lane st) as [charge cursor].
  assert (round_ok q (mk_round (queue st) (sched st) (output st) (burst st) cursor (group st) (flight_bytes st) (unreliable_drained st))) as H1
    by (by destruct Hst).
  destruct charge as [charge|]; [|exact H1]. case_if; [exact H1|].
  apply (lane_send_ok now probe lane charge) in H1.
  set (st1 := lane_send _ _ _ _ _) in *. clearbody st1.
  assert (round_ok q (mk_round (queue st1) (sched st1 <| next_lane := (lane + 1) `mod` 3 |>) (output st1)
    (burst st1 + charge) (retry_cursor st1) (group st1) (flight_bytes st1) (unreliable_drained st1))) as H2 by (by destruct H1).
  case_if; [exact H2|by apply IH].
Qed.

Lemma lanes_ok fuel now probe quantum start offsets progressed q st :
  round_ok q st -> round_ok q (lanes fuel now probe quantum start offsets progressed st).2.
Proof.
  revert progressed st. induction offsets as [|offset offsets IH]; intros progressed st Hst;
    cbn [lanes]; [done|].
  pose proof (lane_loop_ok fuel now probe ((start + offset) `mod` 3) quantum 0 progressed q st Hst) as Hl.
  destruct (lane_loop _ _ _ _ _ _ _ _) as [[stop progressed'] st']. case_if; [done|by apply IH].
Qed.

Lemma rounds_ok fuel lane_fuel now probe quantum q st :
  round_ok q st -> round_ok q (rounds fuel lane_fuel now probe quantum st).2.
Proof.
  revert st. induction fuel as [|fuel IH]; intros st Hst; cbn [rounds]; [done|].
  pose proof (lanes_ok lane_fuel now probe quantum (next_lane (sched st)) [0; 1; 2] false q st Hst) as Hl.
  destruct (lanes _ _ _ _ _ _ _ _) as [[stop progressed] st']. case_if; [done|]. case_if; [done|by apply IH].
Qed.

Lemma flush_scheduled_emits now q :
  stamped q -> emits q (flush_scheduled now q).2 (frames (flush_scheduled now q).1).
Proof.
  intros Hq. unfold flush_scheduled.
  assert (renumbers q (sort_if_dirty (tick now q))) as R1
    by (etransitivity; [apply tick_renumbers|apply sort_if_dirty_renumbers]).
  set (q1 := sort_if_dirty _) in *. clearbody q1.
  destruct (scheduler q1) as [s|] eqn:Es; [|by apply renumbers_emits].
  set (r2 := if recovery_policy then take_probe_packing (q1 <| scheduler := None |>) else _).
  assert (renumbers (q1 <| scheduler := None |>) r2.2) as R2.
  { unfold r2. destruct recovery_policy; [apply take_probe_packing_renumbers|done]. }
  destruct r2 as [packing q2]. simpl in R2.
  set (r3 := if recovery_policy then take_probe_replay q2 else _).
  assert (renumbers q r3.2) as R3.
  { transitivity q1; [done|]. transitivity (q1 <| scheduler := None |>); [by split|].
    etransitivity; [exact R2|]. unfold r3. destruct recovery_policy; [apply take_probe_replay_renumbers|done]. }
  destruct r3 as [probe q3]. simpl in R3. cbv zeta. set (st0 := mk_round q3 s _ _ _ _ _ _).
  assert (round_ok q st0) as H0 by (split; [by apply renumbers_emits|apply no_group_numbered]).
  set (fuel := S _). clearbody fuel.
  pose proof (rounds_ok fuel fuel now probe (mtu q2 * 4) q st0 H0) as [H _].
  set (st := (rounds _ _ _ _ _ _).2) in *. clearbody st. destruct H.
  cbn [fst snd]. case_if; by split.
Qed.

Lemma flush_emits now q : stamped q -> emits q (flush now q).2 (frames (flush now q).1).
Proof.
  intros Hq. unfold flush. pose proof (reset_recovery_renumbers now q) as R.
  set (q1 := reset_recovery now q) in *. clearbody q1.
  eapply emits_trans; [by apply (renumbers_emits q q1 [])|].
  case_if; [apply flush_scheduled_emits|apply flush_legacy_emits]; by apply R.
Qed.
End Emits.

(** ** Frames the codec accepts *)

(** A frame whose fields are within their widths and which, alone in a datagram, fits a
    path of [m] bytes with the headers of IP and UDP. *)
Record sendable (m : Z) (f : FrameSetPacket) : Prop := {
  sendable_wf : frame_wf f (rel_of f);
  sendable_fits : 4 + header_size (rel_of f) (is_fragment f) + data_len f <= m - 28;
}.

Lemma sendable_renumbered m f g : body f = body g -> sendable m f -> numbered_frame g -> sendable m g.
Proof.
  unfold body. intros E [[[] ? ? ? ? ? ? ? ? ?] Hfit] Hg. destruct f, g. simpl in E. injection E as <- <- <- <- <- <- <- <- <- <- <-.
  by split; [split; [split|..]|].
Qed.

(** The counters the queue numbers frames from. *)
Record counters_ok (q : SendQ) : Prop := {
  ok_reliable : in_range 24 (reliable_frame_index q);
  ok_sequenced : forall c, in_range 24 (ChannelIndexes.get (sequenced_frame_indexes q) c);
  ok_ordered : forall c, in_range 24 (ChannelIndexes.get (ordered_frame_indexes q) c);
  ok_compound : in_range 16 (compound_id q);
}.

(** Everything the queue holds can be sent. *)
Record wire_inv {feat : Features} (q : SendQ) : Prop := {
  wire_accounted : sendq_inv q;
  wire_stamped : stamped q;
  wire_counters : counters_ok q;
  wire_holdings : forall f, f ∈ holdings q -> sendable (mtu q) f;
}.

(** The paths on which a message can be sent at all, up to the longest payload of a frame. *)
Definition path_mtu (m : Z) : Prop := 0 <= m <= 8251.

Section Sendable.
Context {feat : Features} {usort : UnstableSort}.
Implicit Types (q : SendQ) (r : Reliability) (f : FrameSetPacket).

Lemma store_ok indexes channel v :
  (forall c, in_range 24 (ChannelIndexes.get indexes c)) -> in_range 24 v ->
  forall c, in_range 24 (ChannelIndexes.get (ChannelIndexes.store indexes channel v) c).
Proof. intros H Hv c. rewrite ChannelIndexes.get_store. case_if; [done|apply H]. Qed.

Lemma push_fragments_ok make index l q :
  counters_ok q -> stamped q ->
  counters_ok (push_fragments make index l q) /\ stamped (push_fragments make index l q).
Proof.
  revert index q. induction l as [|chunk l IH]; intros index q [] Hs; cbn [push_fragments]; [by split|].
  apply IH; [|done]. split; try done. apply next_in_range.
Qed.

(** Insertion advances the counters. *)
Definition numbering (q : SendQ) : Prop := counters_ok q /\ stamped q.

Lemma push_reliable_numbering f q : numbering q -> numbering (push_reliable f q).
Proof. intros [[] Hs]. split; [|done]. split; try done. apply next_in_range. Qed.

Lemma queue_unreliable_numbering f q :
  numbering q -> numbering (if send_policy then push_unreliable f q else q <| packets := packets q ++ [f] |>).
Proof.
  intros [[] Hs]. case_if; [|by split; [split|]]. unfold push_unreliable.
  destruct (scheduler q); [by split; [split|]|]. split; [by split|]. destruct Hs. split; [apply next_in_range|done].
Qed.

Lemma take_sequenced_numbering channel q :
  numbering q ->
  numbering (q <| sequenced_frame_indexes := (take_index (sequenced_frame_indexes q) channel).2 |>).
Proof.
  intros [[H1 H2 H3 H4] Hs]. split; [|done]. split; try done. simpl.
  apply store_ok; [|apply next_in_range]. by apply store_ok.
Qed.

Lemma insert_payload_numbering r buf channel owned :
  preserves numbering (insert_payload r buf channel owned).
Proof.
  unfold insert_payload. apply preserves_bind; [auto with preserves|]. intros q0.
  do 3 (apply preserves_bind; [auto with preserves|]; intros ?).
  apply preserves_bind; [|intros _; apply preserves_bind; [apply preserves_modify|intros _; case_if; [apply preserves_modify|auto with preserves]]].
  2, 3: intros q [[] Hs]; by split; [split|].
  destruct r; try (apply preserves_bind; [auto with preserves|]; intros _); apply preserves_modify; intros q Hq.
  - by apply queue_unreliable_numbering.
  - apply (take_sequenced_numbering channel) in Hq. by apply queue_unreliable_numbering.
  - by apply push_reliable_numbering.
  - unfold ChannelIndexes.get_mut. cbv beta iota zeta. pose proof Hq as [[H1 H2 H3 H4] Hs].
    set (q1 := q <| ordered_frame_indexes := _ |>). assert (numbering q1) as Hq1.
    { split; [|done]. split; try done. by apply store_ok. }
    match goal with |- context [if negb ?c then ?x else ?y] => set (q2 := if negb c then x else y) end.
    assert (numbering q2) as [[] ?].
    { unfold q2. case_if; [by apply push_reliable_numbering|].
      match goal with |- context [push_fragments ?mk 0 ?l ?q] =>
        destruct (push_fragments_ok mk 0 l q) as [[] ?] end; [by destruct Hq1 as [[] ?]|by destruct Hq1|].
      split; [|done]. split; try done. apply wrap_range. lia. }
    split; [|done]. split; try done. apply store_ok; [done|apply next_in_range].
  - apply (take_sequenced_numbering channel) in Hq. by apply push_reliable_numbering.
Qed.

(** A frame that joins the queue: only its sequence number and its reliable index change. *)
Lemma admit_whole_frame f q :
  exists i, holdings (admit_whole f q) ≡ₚ body (f <| Frame.reliable_frame_index := i |>) :: holdings q /\
    (i = reliable_frame_index q \/ i = Frame.reliable_frame_index f).
Proof.
  assert (f <| Frame.reliable_frame_index := Frame.reliable_frame_index f |> = f) as Ef by (by destruct f).
  unfold admit_whole, push_unreliable, push_reliable.
  destruct (relb f); [|exists (Frame.reliable_frame_index f); rewrite Ef; split; [|by right];
    destruct send_policy; [destruct (scheduler q) as [s|] eqn:Es|]].
  - exists (reliable_frame_index q). split; [symmetry; exact (holdings_push_perm q [_])|by left].
  - unfold holdings, waiting_unreliable. simpl. rewrite Es, map_app. simpl.
    change (flight (q <| scheduler := _ |>)) with (flight q). solve_Permutation.
  - transitivity (map body [f <| Frame.sequence_number := sequence_number q |>] ++ holdings q); [|done].
    symmetry. rewrite holdings_push_perm. unfold holdings, waiting_unreliable. simpl. by rewrite Es.
  - symmetry. exact (holdings_push_perm q [_]).
Qed.

Lemma whole_frame_sendable r buf channel owned q i :
  counters_ok q -> in_range 8 channel -> path_mtu (mtu q) -> zlen buf <= mtu q - 60 -> in_range 24 i ->
  sendable (mtu q) (whole_frame r buf channel owned q <| Frame.reliable_frame_index := i |>).
Proof.
  intros [H1 H2 H3 H4] Hch Hm Hl Hi. unfold path_mtu in Hm.
  destruct (whole_frame_facts r buf channel owned q ltac:(lia)) as (_ & _ & Hd).
  set (f := whole_frame r buf channel owned q <| Frame.reliable_frame_index := i |>).
  change (data_len (whole_frame r buf channel owned q)) with (data_len f) in Hd.
  assert (reliability f = Ok r) as Hr by (by destruct r).
  assert (is_fragment f = false) as Hfr by (by destruct r).
  assert (length_in_bytes f = wrap 16 (data_len f)) as Hlen by (by destruct r).
  rewrite wrap_small in Hlen by (unfold in_range; lia).
  split; rewrite (rel_of_ok f r Hr), ?Hfr.
  - split; [split; [done|done|lia|by rewrite Hfr]|..]; destruct r; try done; simpl;
      unfold in_range in *; try lia; try apply H2; apply H3.
  - rewrite Hd. destruct r; unfold header_size; simpl; lia.
Qed.

Lemma numbered_range make index i l : in_range 24 i ->
  Forall (fun f => in_range 24 (Frame.reliable_frame_index f)) (numbered make index i l).
Proof.
  revert index i. induction l as [|chunk l IH]; intros index i Hi; simpl; constructor; [done|].
  by apply IH.
Qed.

Lemma fragments_sendable buf owned channel q f :
  counters_ok q -> in_range 8 channel -> path_mtu (mtu q) -> splittable q buf ->
  f ∈ fragments_of buf owned channel q -> sendable (mtu q) f.
Proof.
  intros [H1 H2 H3 H4] Hch Hm Hs Hf. unfold path_mtu in Hm.
  pose proof (fragments_fit _ _ _ _ _ Hs Hf) as [_ Hfit].
  pose proof (fragments_of_length buf owned channel q) as Hn.
  pose proof (numbered_range (fragment_frame buf owned (mtu q - 60) (div_ceil (zlen buf) (mtu q - 60))
    (next_shared q) channel (ChannelIndexes.get (ordered_frame_indexes q) channel) (compound_id q))
    0 _ (chunks (mtu q - 60) buf) H1) as Hall.
  rewrite list.Forall_forall in Hall. specialize (Hall f Hf).
  apply list_elem_of_lookup in Hf as [i Hf]. pose proof (lookup_lt_Some _ _ _ Hf) as Hi.
  apply fragments_of_lookup in Hf as (c & r & Hc & Hd & Ef); [|done].
  pose proof Hs as [Hm' Hl Hcount]. specialize (Hn ltac:(lia)). unfold MAX_FRAGMENTS in Hcount.
  assert (reliability f = Ok Reliability.ReliableOrdered) as Hr by (by rewrite Ef).
  assert (is_fragment f = true) as Hfr by (by rewrite Ef).
  assert (length_in_bytes f = wrap 16 (data_len f)) as Hlen by (rewrite Ef; by destruct owned).
  assert (Frame.fragment_index f = Z.of_nat i /\ Frame.compound_size f = div_ceil (zlen buf) (mtu q - 60)) as [Ei Es].
  { rewrite Ef. simpl. rewrite wrap_small by (unfold in_range; lia). done. }
  assert (0 <= data_len f <= mtu q - 60) as Hdl.
  { apply chunks_lookup in Hc as (_ & _ & Hc); [|lia]. unfold data_len, FramePayload.len. rewrite Hd. lia. }
  rewrite wrap_small in Hlen by (unfold in_range; lia).
  split; rewrite (rel_of_ok f _ Hr), ?Hfr.
  - pose proof (H3 channel). split; [split; [done|done|lia|intros _; lia]|..]; rewrite ?Ei, ?Es; try done;
      try (unfold in_range; lia); by rewrite Ef.
  - change (4 + header_size Reliability.ReliableOrdered true) with 24. exact Hfit.
Qed.

(** Insertion keeps the queue sendable. *)
Lemma insert_payload_wire r buf channel owned q :
  wire_inv q -> in_range 8 channel -> path_mtu (mtu q) -> wire_inv (insert_payload r buf channel owned q).2.
Proof.
  intros [Hq Hst Hc Hh] Hch Hm. unfold path_mtu in Hm.
  destruct (insert_payload_numbering r buf channel owned q) as [Hc' Hst']; [done|].
  assert (in_range 16 (mtu q)) as Hm16 by (unfold in_range; lia).
  split; [by apply insert_payload_inv|done|done|]. rewrite insert_payload_mtu by done.
  pose proof (inv_bytes _ _ Hq) as [Hb _].
  destruct (insert_payload_cases r buf channel owned q Hb) as
    [(_ & ->)|((Hmtu & Hfit & Hfr & Hlim) & q1 & -> & Hk)]; [done|]. simpl.
  intros f. rewrite (keeps_holdings _ _ Hk). change (holdings (?x <| buffered_bytes := _ |>)) with (holdings x).
  unfold frames_needed in Hfr.
  destruct (bool_decide (r = Reliability.ReliableOrdered) && (mtu q - 60 <? zlen buf)) eqn:E.
  - apply andb_true_iff in E as [_ El]. assert (splittable q buf) as Hs by (split; [lia|blia|done]).
    unfold admit_fragments.
    assert (holdings (admit_fragments buf owned channel q) ≡ₚ
            map body (fragments_of buf owned channel q) ++ holdings q) as ->
      by (symmetry; apply holdings_push_perm).
    intros [(g & -> & Hg)%list_elem_of_fmap|Hf]%elem_of_app; [|by apply Hh].
    apply (sendable_renumbered _ g); [done| |done]. by apply (fragments_sendable buf owned channel).
  - assert (zlen buf <= mtu q - 60) as Hlen.
    { destruct Hfit as [->|?]; [|done]. rewrite bool_decide_eq_true_2 in E by done. simpl in E. blia. }
    destruct (admit_whole_frame (whole_frame r buf channel owned q) q) as (i & Hp & Hi). rewrite Hp.
    intros [->|Hf]%elem_of_cons; [|by apply Hh].
    apply (sendable_renumbered _ (whole_frame r buf channel owned q <| Frame.reliable_frame_index := i |>));
      [done| |done]. apply whole_frame_sendable; try done.
    destruct Hi as [->| ->]; [apply Hc|]. destruct r; done.
Qed.
End Sendable.

(** ** The histories of the queue *)

(** The application names the channel in a byte. *)
Definition channels_ok (e : event) : Prop :=
  match e with Insert _ _ channel _ => in_range 8 channel | _ => True end.

Section History.
Context {feat : Features} {usort : UnstableSort}.
Implicit Types (q : SendQ) (e : event).

Lemma counters_same q q' :
  reliable_frame_index q' = reliable_frame_index q -> sequenced_frame_indexes q' = sequenced_frame_indexes q ->
  ordered_frame_indexes q' = ordered_frame_indexes q -> compound_id q' = compound_id q ->
  counters_ok q -> counters_ok q'.
Proof. intros E1 E2 E3 E4 []. split; intros *; rewrite ?E1, ?E2, ?E3, ?E4; auto. Qed.

(** An operation that adds no frame. *)
Lemma wire_step q q' :
  sendq_inv q' -> mtu q' = mtu q -> renumbers q q' -> (forall f, f ∈ holdings q' -> f ∈ holdings q) ->
  wire_inv q -> wire_inv q'.
Proof.
  intros Hq' Em [E1 E2 E3 E4 Hs] Hf [Hq Hst Hc Hh]. split; [done|auto|by apply (counters_same q)|].
  rewrite Em. auto.
Qed.

Lemma keeps_wire q q' : keeps q q' -> renumbers q q' -> wire_inv q -> wire_inv q'.
Proof.
  intros Hk Hr Hw. apply (wire_step q); try done; [by apply (keeps_inv _ q), Hw|apply Hk|].
  intros f. by rewrite (keeps_holdings _ _ Hk).
Qed.

Lemma acks_wire ranges q q' :
  acks ranges q q' -> sendq_inv q' -> mtu q' = mtu q -> renumbers q q' -> wire_inv q -> wire_inv q'.
Proof.
  intros Ha Hi Em Hr. apply wire_step; try done. intros f Hf.
  destruct (acks_holdings _ _ _ Ha) as ([gone rest] & _ & Hp & _). rewrite Hp. apply elem_of_app. by right.
Qed.

Lemma flush_wire now q :
  wire_inv q -> wire_inv (flush now q).2 /\ Forall (sendable (mtu q)) (frames (flush now q).1).
Proof.
  intros Hw. pose proof Hw as [Hq Hst Hc Hh].
  pose proof (flush_emits now q Hst) as [E1 E2 E3 E4 Hst' Hn].
  destruct (flush_sends now q Hq) as [Hq' Em (new & Hout & Hnew) (gone & Hp & _)].
  set (q' := (flush now q).2) in *. set (out := frames (flush now q).1) in *. simpl in Hout. subst new.
  split.
  - split; [done|done|by apply (counters_same q)|]. rewrite Em. intros f Hf. apply Hh. rewrite Hp.
    apply elem_of_app. by right.
  - apply list.Forall_forall. intros f Hf. rewrite list.Forall_forall in Hn.
    apply (sendable_renumbered _ (body f)); [done| |by apply Hn].
    apply Hh, Hnew. by apply list_elem_of_fmap_2.
Qed.

Lemma ensure_scheduler_renumbers q : renumbers q (ensure_scheduler q).
Proof.
  unfold ensure_scheduler. destruct (scheduler q); [done|]. destruct (split_unreliable _ _ _ _) as [[]].
  by split.
Qed.

Lemma set_send_options_renumbers opts q : renumbers q (set_send_options opts q).2.
Proof.
  unfold set_send_options. case_if; [done|]. simpl. pose proof (ensure_scheduler_renumbers q) as R.
  destruct (scheduler (ensure_scheduler q)); [|done]. transitivity (ensure_scheduler q); [done|by split].
Qed.

Lemma set_send_options_wire opts q : send_policy = true -> wire_inv q -> wire_inv (set_send_options opts q).2.
Proof.
  intros Hs Hw. destruct (set_send_options_inv opts q Hs) as (Hi & Hh & Em); [apply Hw|].
  apply (wire_step q); try done; [apply set_send_options_renumbers|]. intros f. by rewrite Hh.
Qed.

Lemma register_wire q : wire_inv q -> wire_inv (register_capacity_notifier q).
Proof.
  intros Hw. destruct (register_inv q (wire_accounted _ Hw)) as (Hi & Hh & Em).
  apply (wire_step q); try done; [|intros f; by rewrite Hh].
  unfold register_capacity_notifier. destruct (scheduler q) as [s|]; [|done]. by destruct (capacity_notifier s).
Qed.

Lemma ack_ranges_wire ranges now q : wire_inv q -> wire_inv (ack_ranges ranges now q).
Proof.
  intros Hw. apply (acks_wire ranges q); [apply ack_ranges_acks|by apply ack_ranges_inv, Hw|
    apply ack_ranges_mtu|apply ack_ranges_renumbers|done].
Qed.

Lemma ack_wire sequence now q : wire_inv q -> wire_inv (ack sequence now q).
Proof.
  intros Hw. apply (acks_wire [(sequence, sequence)] q); [apply ack_acks|by apply ack_inv, Hw| |apply ack_renumbers|done].
  unfold ack. case_if; [apply ack_ranges_mtu|apply ack_direct_mtu].
Qed.

Lemma nack_ranges_wire ranges now q : wire_inv q -> wire_inv (nack_ranges ranges now q).
Proof. apply keeps_wire; [apply nack_ranges_keeps|apply nack_ranges_renumbers]. Qed.

Lemma enable_coalescing_wire q : wire_inv q -> wire_inv (enable_coalescing q).
Proof. apply keeps_wire; [apply enable_coalescing_keeps|by split]. Qed.

Lemma set_recovery_options_wire opts now q : wire_inv q -> wire_inv (set_recovery_options opts now q).
Proof. apply keeps_wire; [apply set_recovery_options_keeps|by split]. Qed.

Lemma new_wire m : wire_inv (new m).
Proof.
  assert (in_range 24 0 /\ in_range 16 0) as [H0 H1] by (unfold in_range; lia).
  assert (forall c, in_range 24 (ChannelIndexes.get ChannelIndexes.default c)) as Hd.
  { intros c. unfold ChannelIndexes.get. case_if; [done|]. simpl. by rewrite lookup_empty. }
  split; [apply new_inv|split; [done|apply list.Forall_nil_2]|by split|].
  intros f H. by apply not_elem_of_nil in H.
Qed.

Lemma handle_wire e q :
  wire_inv q -> channels_ok e -> path_mtu (mtu q) -> wire_inv (handle e q).
Proof.
  intros Hw Hch Hm. destruct e; simpl.
  - by apply insert_payload_wire.
  - by apply ack_wire.
  - by apply ack_ranges_wire.
  - by apply nack_ranges_wire.
  - by apply flush_wire.
  - by apply enable_coalescing_wire.
  - by apply set_recovery_options_wire.
  - destruct send_policy eqn:E; [by apply set_send_options_wire|done].
Qed.

Lemma run_wire m events :
  path_mtu m -> Forall channels_ok events -> wire_inv (run m events) /\ mtu (run m events) = m.
Proof.
  intros Hm. assert (in_range 16 m) as Hm16 by (unfold path_mtu, in_range in *; lia).
  induction events as [|e events IH] using rev_ind; [split; [apply new_wire|done]|].
  intros [Hes He]%Forall_app. apply list.Forall_cons in He as [He _]. destruct (IH Hes) as [Hw Em]. rewrite run_snoc.
  destruct (handle_inv e (run m events)) as [_ Em']; [by rewrite Em|apply Hw|].
  split; [|congruence]. apply handle_wire; [done|done|by rewrite Em].
Qed.
End History.

(** ** How much a flush puts out

    A coarse bound: enough for the positions in a datagram not to overflow. *)

Section Count.
Context {feat : Features} {usort : UnstableSort}.
Implicit Types (q : SendQ) (st : Round).

Lemma assign_group_length may f g (out : OutgoingFrames) q :
  frames (assign_group may f g out q).1.2 = frames out.
Proof. unfold assign_group. destruct (group_sequence g); [case_if|]; done. Qed.

Lemma flush_queue_length count now g (out : OutgoingFrames) q :
  (length (frames (flush_queue count now g out q).1) <= length (frames out) + count)%nat.
Proof.
  revert g out q. induction count as [|count IH]; intros g out q; cbn [flush_queue]; [simpl; lia|].
  case_if; [simpl; lia|]. destruct (packets q) as [|f rest]; [simpl; lia|].
  case_if; [etransitivity; [apply IH|lia]|]. set (assigned := if coalesce _ then _ else _).
  assert (frames assigned.1.2 = frames out) as Ea
    by (unfold assigned; case_if; [apply assign_group_length|done]).
  destruct assigned as [[[f' g'] out'] q']. simpl in Ea. etransitivity; [apply IH|].
  simpl. rewrite length_app, Ea. simpl. lia.
Qed.

Lemma resend_items_length now probe items ret q :
  (length (resend_items now probe items ret q).1.2 <= length ret + length items)%nat.
Proof.
  revert ret q. induction items as [|p items IH]; intros ret q; cbn [resend_items]; [simpl; lia|].
  destruct (negb (sent p)).
  - destruct (resent now probe p q) as [p' q1]. specialize (IH (ret ++ [frame p]) q1).
    destruct (resend_items _ _ items _ q1) as [[items' ret'] q']. simpl in *. rewrite length_app in IH. simpl in IH. lia.
  - specialize (IH ret q). destruct (resend_items _ _ items _ q) as [[items' ret'] q']. simpl in *. lia.
Qed.

Lemma lane_send_length now probe lane charge st :
  (length (frames (output (lane_send now probe lane charge st))) <= length (frames (output st)) + 1)%nat.
Proof.
  unfold lane_send. repeat case_if.
  - destruct (unreliable _); simpl; rewrite ?length_app; simpl; lia.
  - destruct (sent_packet _ !! _) as [item|]; [|lia]. destruct (resent _ _ item _). simpl. rewrite length_app. simpl. lia.
  - destruct (packets _) as [|f rest]; [lia|].
    set (q1 := queue st <| packets := rest |>).
    pose proof (assign_group_length (coalesce q1 && packable f) f (group st) (output st) q1) as Ea.
    destruct (assign_group _ f _ _ q1) as [[[f' g'] out'] q']. simpl in *. rewrite length_app, Ea. simpl. lia.
Qed.

Lemma lane_loop_length fuel now probe lane quantum lane_bytes progressed st :
  (length (frames (output (lane_loop fuel now probe lane quantum lane_bytes progressed st).2))
   <= length (frames (output st)) + fuel)%nat.
Proof.
  revert lane_bytes progressed st. induction fuel as [|fuel IH]; intros lane_bytes progressed st;
    cbn [lane_loop]; [simpl; lia|]. case_if; [simpl; lia|]. destruct (lane_charge lane st) as [[charge|] cursor]; [|simpl; lia].
  case_if; [simpl; lia|].
  set (st1 := mk_round (queue st) (sched st) (output st) (burst st) cursor (group st) (flight_bytes st) (unreliable_drained st)). change (output st) with (output st1). clearbody st1.
  pose proof (lane_send_length now probe lane charge st1) as Hl. set (st2 := lane_send _ _ _ _ _) in *. clearbody st2.
  case_if; [simpl; lia|]. etransitivity; [apply IH|]. simpl. lia.
Qed.

Lemma lanes_length fuel now probe quantum start offsets progressed st :
  (length (frames (output (lanes fuel now probe quantum start offsets progressed st).2))
   <= length (frames (output st)) + length offsets * fuel)%nat.
Proof.
  revert progressed st. induction offsets as [|offset offsets IH]; intros progressed st; cbn [lanes]; [simpl; lia|].
  pose proof (lane_loop_length fuel now probe ((start + offset) `mod` 3) quantum 0 progressed st) as Hl.
  destruct (lane_loop _ _ _ _ _ _ _ _) as [[stop progressed'] st']. simpl in *. case_if; [simpl; lia|].
  etransitivity; [apply IH|]. lia.
Qed.

Lemma rounds_length fuel lane_fuel now probe quantum st :
  (length (frames (output (rounds fuel lane_fuel now probe quantum st).2))
   <= length (frames (output st)) + fuel * (3 * lane_fuel))%nat.
Proof.
  revert st. induction fuel as [|fuel IH]; intros st; cbn [rounds]; [simpl; lia|].
  pose proof (lanes_length lane_fuel now probe quantum (next_lane (sched st)) [0; 1; 2] false st) as Hl.
  destruct (lanes _ _ _ _ _ _ _ _) as [[stop progressed] st']. cbn [snd length] in Hl. case_if; [simpl; lia|]. case_if; [simpl; lia|].
  etransitivity; [apply IH|]. lia.
Qed.

(** The frames in the backlog, in flight and in the unreliable lane are those held. *)
Lemma holdings_length q :
  length (holdings q) = (length (packets q) + length (sent_packet q) + length (waiting_unreliable q))%nat.
Proof. unfold holdings, flight. rewrite !length_app, !length_map. lia. Qed.

Lemma keeps_length q q' : keeps q q' -> length (holdings q') = length (holdings q).
Proof. intros Hk. by rewrite (keeps_holdings _ _ Hk). Qed.

Lemma flush_legacy_length now q :
  (length (frames (flush_legacy now q).1) <= 2 * length (holdings q))%nat.
Proof.
  unfold flush_legacy. pose proof (tick_keeps now q) as K1. set (q1 := tick now q) in *. clearbody q1.
  set (r2 := if recovery_policy then take_probe_packing q1 else (false, q1)).
  assert (keeps q1 r2.2) as K2 by (unfold r2; destruct recovery_policy; [apply take_probe_packing_keeps|done]).
  destruct r2 as [packing q2]. simpl in K2. pose proof (sort_if_dirty_keeps q2) as K3.
  set (q3 := sort_if_dirty q2) in *. clearbody q3.
  set (r4 := if recovery_policy then take_probe_replay q3 else (None, q3)).
  assert (keeps q r4.2) as K4.
  { etransitivity; [exact K1|]. etransitivity; [exact K2|]. etransitivity; [exact K3|].
    unfold r4. destruct recovery_policy; [apply take_probe_replay_keeps|done]. }
  destruct r4 as [probe q4]. simpl in K4. apply keeps_length in K4. rewrite <- K4, holdings_length. clear -K4.
  set (r5 := if retries_pending q4 then _ else ([], q4)).
  assert (length r5.1 <= length (sent_packet q4) /\ length (packets r5.2) = length (packets q4))%nat as [H5 H5'].
  { unfold r5. case_if; [|simpl; lia].
    pose proof (resend_items_length now probe (sent_packet q4) [] q4) as Hl.
    pose proof (resend_items_keeps now probe (sent_packet q4) [] q4) as Hk.
    destruct (resend_items _ _ _ _ q4) as [[items ret] q5]. destruct Hk as (_ & Hk & _).
    simpl in *. by rewrite (keeps_packets _ _ Hk). }
  destruct r5 as [ret q5]. simpl in H5, H5'. etransitivity; [apply flush_queue_length|]. simpl. lia.
Qed.

Lemma flush_scheduled_length now q :
  let n := S (length (holdings q)) in (length (frames (flush_scheduled now q).1) <= n * (3 * n))%nat.
Proof.
  intros n. unfold flush_scheduled.
  assert (keeps q (sort_if_dirty (tick now q))) as K1
    by (etransitivity; [apply tick_keeps|apply sort_if_dirty_keeps]).
  set (q1 := sort_if_dirty _) in *. clearbody q1.
  destruct (scheduler q1) as [s|] eqn:Es; [|simpl; lia].
  set (r2 := if recovery_policy then take_probe_packing (q1 <| scheduler := None |>) else _).
  assert (keeps (q1 <| scheduler := None |>) r2.2) as K2.
  { unfold r2. destruct recovery_policy; [apply take_probe_packing_keeps|done]. }
  destruct r2 as [packing q2]. simpl in K2. set (r3 := if recovery_policy then take_probe_replay q2 else _).
  assert (keeps (q1 <| scheduler := None |>) r3.2) as K3.
  { etransitivity; [exact K2|]. unfold r3. destruct recovery_policy; [apply take_probe_replay_keeps|done]. }
  destruct r3 as [probe q3]. simpl in K3. cbv zeta. cbn [fst].
  assert (S (length (unreliable s) + length (sent_packet q3) + length (packets q3)) = n) as ->.
  { unfold n. rewrite <- (keeps_length _ _ K1), holdings_length.
    destruct K3 as [Kp Kf _ _ _ _ _ _]. apply Permutation_length in Kf. unfold flight in Kf.
    rewrite !length_map in Kf. simpl in Kp, Kf. unfold waiting_unreliable. rewrite Es, Kp, Kf. lia. }
  etransitivity; [apply rounds_length|]. simpl. lia.
Qed.

Lemma flush_length now q :
  sendq_inv q -> zlen (frames (flush now q).1) < 2 ^ 48.
Proof.
  intros Hq. unfold flush. pose proof (reset_recovery_keeps now q) as K.
  set (q1 := reset_recovery now q) in *. clearbody q1. apply (keeps_inv _ _ _ K) in Hq.
  pose proof (accounted_bound _ _ _ (sq_accounted _ _ Hq)) as Hb. simpl in Hb.
  pose proof (sq_limit _ _ Hq). unfold FRAME_BUDGET, MAX_BUFFERED_BYTES in *.
  case_if.
  - pose proof (flush_scheduled_length now q1) as Hl. cbv zeta in Hl. nia.
  - pose proof (flush_legacy_length now q1). lia.
Qed.
End Count.
