(* ===== verification/SendLog.v ===== *)
(** * The log of a send queue

    The reliable messages a history of the send queue accepted ([Log]), and that everything
    reliable it holds or sends is a frame of the log: its index is the position in the log,
    its order the position on the channel. *)

From S2P Require Import Prelude Errors Sequence Frame FrameCodec Fragment RecvQ Log SendOptions SendQ SendQInv SendQInsert SendQFlow SendQRun SendQWire.
Import SendQ.

(** ** The log of a history *)

(** The frames of a message, as the queue holds them. *)
Definition message_parts (r : Reliability) (buf : list Z) (channel : Z) (owned : bool) (q : SendQ)
    : list FrameSetPacket :=
  if bool_decide (r = Reliability.ReliableOrdered) && (mtu q - 60 <? zlen buf)
  then fragments_of buf owned channel q
  else [whole_frame r buf channel owned q <| Frame.reliable_frame_index := reliable_frame_index q |>].

Section SendLog.
Context {feat : Features} {usort : UnstableSort}.
Implicit Types (q : SendQ) (e : event) (r : Reliability) (L : list Message) (f : FrameSetPacket).

(** The message an event adds: a reliable one that the queue accepts. *)
Definition log_event e q : list Message :=
  match e with
  | Insert r buf channel owned =>
      if rel_b r && is_ok (insert_payload r buf channel owned q).1
      then [mk_message r channel buf (message_parts r buf channel owned q)] else []
  | _ => []
  end.

Fixpoint log_from q (events : list event) : list Message :=
  match events with
  | [] => []
  | e :: events => log_event e q ++ log_from (handle e q) events
  end.

Definition sent_log (mtu : Z) (events : list event) : list Message := log_from (new mtu) events.

(** The ordered messages of a channel that were accepted, in order. *)
Definition sent_on (mtu channel : Z) (events : list event) : list (list Z) :=
  map m_payload (on_channel channel (sent_log mtu events)).

Lemma sent_log_snoc m events e : sent_log m (events ++ [e]) = sent_log m events ++ log_event e (run m events).
Proof.
  unfold sent_log, run. generalize (new m) as q. induction events as [|x events IH]; intros q; simpl.
  - by rewrite app_nil_r.
  - by rewrite IH, app_assoc.
Qed.

(** ** The counters of the queue *)

Lemma push_fragments_reliable make index l q R :
  reliable_frame_index q = serial R ->
  reliable_frame_index (push_fragments make index l q) = serial (R + zlen l) /\
  ordered_frame_indexes (push_fragments make index l q) = ordered_frame_indexes q.
Proof.
  revert index q R. induction l as [|chunk l IH]; intros index q R HR; cbn [push_fragments length].
  - by rewrite Z.add_0_r.
  - destruct (IH (index + 1) (push_reliable (make index chunk) q) (R + 1)) as [E1 E2].
    { simpl. by rewrite HR, next_serial. }
    rewrite E1, E2. split; [|done]. f_equal. lia.
Qed.

(** The indexes that an accepted message takes. *)
Definition counted (r : Reliability) (channel count R : Z) q q' : Prop :=
  reliable_frame_index q' = serial (if rel_b r then R + count else R) /\
  forall c, ChannelIndexes.get (ordered_frame_indexes q') c =
    if bool_decide (r = Reliability.ReliableOrdered) && (c =? channel)
    then next (ChannelIndexes.get (ordered_frame_indexes q) channel)
    else ChannelIndexes.get (ordered_frame_indexes q) c.

Lemma insert_counted r buf channel owned q q' R :
  60 < mtu q -> reliable_frame_index q = serial R -> insert_payload r buf channel owned q = (Ok tt, q') ->
  counted r channel (zlen (message_parts r buf channel owned q)) R q q'.
Proof.
  intros Hm HR H. unfold insert_payload in H.
  apply SE_bind_inv in H as (q0 & q1 & [= <- <-] & H). apply SE_bind_inv in H as (n & q1 & H1 & H).
  apply SE_bind_inv in H as ([] & q2 & H2 & H). apply SE_bind_inv in H as (mp & q3 & H3 & H).
  assert (q1 = q /\ q2 = q1 /\ q3 = q2 /\ mp = mtu q - 60) as (-> & -> & -> & ->).
  { assert (payload_limit q = Ok (mtu q - 60)) as E by (unfold payload_limit; by rewrite (proj2 (Z.ltb_lt _ _))).
    rewrite E in H3. injection H1 as _ <-. injection H3 as <- <-. unfold fail_if in H2.
    destruct (_ <? n); [done|]. by injection H2 as <-. }
  cbv zeta in H. apply SE_bind_inv in H as ([] & q4 & H4 & H).
  assert (reliable_frame_index q' = reliable_frame_index q4 /\ ordered_frame_indexes q' = ordered_frame_indexes q4) as [E1 E2].
  { apply SE_bind_inv in H as ([] & q5 & [= <-] & H). destruct (_ && _); by injection H as <-. }
  unfold counted. rewrite E1, E2. clear E1 E2 H. destruct r; cbn [rel_b] in *.
  1, 2, 3, 5: apply SE_bind_inv in H4 as ([] & q5 & H5 & H4);
    (assert (q5 = q) as -> by (unfold fail_if in H5; destruct (mtu q - 60 <? zlen buf); [done|by injection H5 as <-]));
    injection H4 as <-.
  - destruct send_policy; [|by split]. unfold push_unreliable. by destruct (scheduler q).
  - destruct send_policy; [|by split].
    unfold push_unreliable. by destruct (scheduler _).
  - simpl. rewrite HR, next_serial. by split.
  - simpl. rewrite HR, next_serial. by split.
  - injection H4 as <-. unfold message_parts. rewrite bool_decide_eq_true_2 by done. cbn [andb].
    destruct (mtu q - 60 <? zlen buf) eqn:El; cbn [negb].
    + match goal with |- context [push_fragments ?mk 0 ?l ?x] =>
        destruct (push_fragments_reliable mk 0 l x R HR) as [E1 E2]; set (p := push_fragments mk 0 l x) in * end.
      clearbody p. rewrite (fragments_of_length buf owned channel q Hm). rewrite chunks_length in E1 by lia.
      split; [exact E1|]. intros c. simpl. rewrite ChannelIndexes.get_store, E2. simpl.
      rewrite ChannelIndexes.get_store. by destruct (c =? channel).
    + simpl. rewrite HR, next_serial. split; [done|]. intros c.
      rewrite !ChannelIndexes.get_store. by destruct (c =? channel).
Qed.
(** ** The frames of a message *)

Lemma numbered_reliable make index R l i f :
  numbered make index (serial R) l !! i = Some f -> Frame.reliable_frame_index f = serial (R + Z.of_nat i).
Proof.
  revert index R i. induction l as [|chunk l IH]; intros index R i H; [done|].
  destruct i as [|i]; simpl in H; [injection H as <-; simpl; by rewrite Z.add_0_r|].
  rewrite next_serial in H. apply IH in H. rewrite H. f_equal. lia.
Qed.

Lemma parts_reliable r buf channel owned q R i f :
  reliable_frame_index q = serial R -> message_parts r buf channel owned q !! i = Some f ->
  Frame.reliable_frame_index f = serial (R + Z.of_nat i).
Proof.
  intros HR. unfold message_parts. case_if.
  - unfold fragments_of. rewrite HR. apply numbered_reliable.
  - intros [-> <-]%list_lookup_singleton_Some. simpl. by rewrite HR, Z.add_0_r.
Qed.

(** They are not numbered yet. *)
Lemma parts_body r buf channel owned q : map body (message_parts r buf channel owned q) = message_parts r buf channel owned q.
Proof.
  unfold message_parts. case_if; [|by destruct r, owned].
  apply map_eq_lookup; [done|]. intros i f Hf. rewrite Hf. f_equal.
  unfold fragments_of in Hf. apply numbered_lookup in Hf as (c & x & _ & ->). by destruct owned.
Qed.

Lemma message_parts_wf r buf channel owned q n :
  in_range 16 (mtu q) -> accepts q r (zlen buf) -> rel_b r = true ->
  ChannelIndexes.get (ordered_frame_indexes q) channel = serial n ->
  message_wf n (mk_message r channel buf (message_parts r buf channel owned q)).
Proof.
  intros Hm (H60 & Hfit & Hcount & _) Hr Hn. unfold message_parts, frames_needed in *. unfold in_range in Hm.
  destruct (bool_decide (r = Reliability.ReliableOrdered) && (mtu q - 60 <? zlen buf)) eqn:E.
  - apply andb_true_iff in E as [->%bool_decide_eq_true_1 El]. b2p.
    assert (splittable q buf) as Hs by (split; lia || done).
    assert (forall f, f ∈ fragments_of buf owned channel q -> reliability f = Ok Reliability.ReliableOrdered /\
      order_channel f = channel /\ ordered_frame_index f = serial n /\ is_fragment f = true) as Hf.
    { intros f [i Hi]%list_elem_of_lookup. apply fragments_of_lookup in Hi as (c & x & _ & _ & ->); [|done]. by rewrite <- Hn. }
    split; simpl; try done.
    + intros f ?%Hf. tauto.
    + intros _ f ?%Hf. tauto.
    + right. split; [done|]. split; [eexists; by apply fragments_message|].
      split; [intros f ?%Hf; tauto|by apply fragments_concat].
  - assert (zlen buf <= mtu q - 60) as Hlen.
    { destruct Hfit as [->|?]; [|done]. rewrite bool_decide_eq_true_2 in E by done. simpl in E. blia. }
    destruct (whole_frame_facts r buf channel owned q) as (_ & Hd & _); [lia|].
    split; simpl; try done.
    + intros f ->%list_elem_of_singleton. by destruct r.
    + intros -> f ->%list_elem_of_singleton. by rewrite <- Hn.
    + left. eexists. split; [done|]. split; [by destruct r|]. by destruct r.
Qed.
(** What an accepted message adds to the queue. *)
Lemma insert_parts r buf channel owned q q' :
  sendq_inv q -> insert_payload r buf channel owned q = (Ok tt, q') ->
  accepts q r (zlen buf) /\ forall f, f ∈ holdings q' -> relb f = true ->
    f ∈ holdings q \/ (rel_b r = true /\ f ∈ message_parts r buf channel owned q).
Proof.
  intros Hq H. pose proof (inv_bytes _ _ Hq) as [Hb _].
  destruct (insert_payload_cases r buf channel owned q Hb) as [(_ & E)|(Hacc & q1 & E & Hk)];
    rewrite H in E; [discriminate|]. injection E as <-. split; [done|]. intros f.
  rewrite (keeps_holdings _ _ Hk). change (holdings (?x <| buffered_bytes := _ |>)) with (holdings x).
  rewrite <- parts_body. unfold message_parts. destruct (_ && _) eqn:E.
  - apply andb_true_iff in E as [->%bool_decide_eq_true_1 _].
    assert (holdings (admit_fragments buf owned channel q) ≡ₚ
            map body (fragments_of buf owned channel q) ++ holdings q) as ->
      by (symmetry; apply holdings_push_perm).
    intros [?|?]%elem_of_app _; auto.
  - destruct (rel_b r) eqn:Er.
    + assert (holdings (admit_whole (whole_frame r buf channel owned q) q) ≡ₚ
        map body [whole_frame r buf channel owned q <| Frame.reliable_frame_index := reliable_frame_index q |>] ++ holdings q) as ->.
      { symmetry. unfold admit_whole. rewrite relb_whole, Er. apply holdings_push_perm. }
      intros [?|?]%elem_of_app _; auto.
    + destruct (admit_whole_frame (whole_frame r buf channel owned q) q) as (i & Hp & _). rewrite Hp.
      intros [->|?]%elem_of_cons Hf; [|auto]. rewrite relb_body in Hf.
      change (relb (whole_frame r buf channel owned q) = true) in Hf. rewrite relb_whole in Hf. congruence.
Qed.

(** ** The log and the queue *)

Record log_inv L q : Prop := {
  gi_wf : log_wf L;
  gi_reliable : reliable_frame_index q = serial (zlen (log_frames L));
  gi_ordered : forall c, ChannelIndexes.get (ordered_frame_indexes q) c = serial (zlen (on_channel c L));
  gi_holdings : forall f, f ∈ holdings q -> relb f = true -> f ∈ log_frames L;
}.

Lemma log_wf_snoc L u :
  log_wf L -> message_wf (zlen (on_channel (m_channel u) L)) u ->
  (forall i f, m_parts u !! i = Some f -> Frame.reliable_frame_index f = serial (zlen (log_frames L) + Z.of_nat i)) ->
  log_wf (L ++ [u]).
Proof.
  intros [H1 H2] Hu Hi. split.
  - intros R f. rewrite log_frames_app, (app_nil_r (m_parts u) : log_frames [u] = m_parts u).
    intros [Hf|[Hge Hf]]%lookup_app_Some; [by apply H1|]. rewrite (Hi _ _ Hf). f_equal. lia.
  - intros i v [Hv|[Hge Hv]]%lookup_app_Some.
    + rewrite take_app_le by (apply lookup_lt_Some in Hv; lia). by apply H2.
    + apply list_lookup_singleton_Some in Hv as [Hv <-]. rewrite take_app_ge by lia.
      replace (i - length L)%nat with O by lia. by rewrite app_nil_r.
Qed.

(** Only insertions give out indexes. *)
Lemma handle_indexes e q :
  stamped q -> (forall r buf channel owned, e <> Insert r buf channel owned) ->
  reliable_frame_index (handle e q) = reliable_frame_index q /\
  ordered_frame_indexes (handle e q) = ordered_frame_indexes q.
Proof.
  intros Hs He.
  assert (renumbers q (handle e q) -> reliable_frame_index (handle e q) = reliable_frame_index q /\
    ordered_frame_indexes (handle e q) = ordered_frame_indexes q) as Hr by (by intros []).
  destruct e; [by destruct (He r buf channel owned)|..].
  - apply Hr, ack_renumbers.
  - apply Hr, ack_ranges_renumbers.
  - apply Hr, nack_ranges_renumbers.
  - by destruct (flush_emits now q Hs).
  - done.
  - done.
  - apply Hr. simpl. destruct send_policy; [apply set_send_options_renumbers|done].
Qed.

Lemma insert_log r buf channel owned q L :
  sendq_inv q -> in_range 16 (mtu q) -> log_inv L q ->
  log_inv (L ++ log_event (Insert r buf channel owned) q) (handle (Insert r buf channel owned) q).
Proof.
  intros Hq Hm Hi. simpl. pose proof (inv_bytes _ _ Hq) as [Hb _].
  destruct (insert_payload r buf channel owned q) as [[[]|err] q'] eqn:E; simpl.
  2: { destruct (insert_payload_cases r buf channel owned q Hb) as [(_ & E')|(_ & ? & E' & _)]; rewrite E in E'; [|discriminate].
       injection E' as _ ->. by rewrite andb_false_r, app_nil_r. }
  rewrite andb_true_r. destruct (insert_parts r buf channel owned q q' Hq E) as [Hacc Hh].
  destruct (insert_counted r buf channel owned q q' (zlen (log_frames L)) (proj1 Hacc) (gi_reliable _ _ Hi) E) as [Er Eo].
  destruct Hi as [Hwf HR Ho Hold]. destruct (rel_b r) eqn:Erel.
  - set (u := mk_message _ _ _ _).
    assert (forall c, on_channel c [u] = if bool_decide (r = Reliability.ReliableOrdered) && (c =? channel) then [u] else []) as Hon.
    { intros c. unfold on_channel. rewrite filter_cons, filter_nil. unfold ordered. simpl.
      destruct (decide _) as [[-> ->]|Hn]; [by rewrite Z.eqb_refl|].
      case_bool_decide; simpl; [|done]. destruct (c =? channel) eqn:Ec; [|done]. b2p. exfalso. by apply Hn. }
    split.
    + apply log_wf_snoc; [done|by apply message_parts_wf|]. intros i f Hf. exact (parts_reliable r buf channel owned q (zlen (log_frames L)) i f HR Hf).
    + rewrite log_frames_app, length_app, (app_nil_r (m_parts u) : log_frames [u] = m_parts u), Er. f_equal. simpl. lia.
    + intros c. rewrite Eo, on_channel_app, length_app, Hon, !Ho. destruct (_ && _) eqn:Ec; [|by rewrite Nat.add_0_r].
      apply andb_true_iff in Ec as [_ ->%Z.eqb_eq]. rewrite next_serial. f_equal. simpl. lia.
    + intros f Hf Hrel. rewrite log_frames_app, elem_of_app, (app_nil_r (m_parts u) : log_frames [u] = m_parts u).
      destruct (Hh f Hf Hrel) as [?|[_ ?]]; auto.
  - rewrite app_nil_r. split; [done|done| |].
    + intros c. rewrite Eo, bool_decide_eq_false_2 by (by intros ->). simpl. by rewrite Ho.
    + intros f Hf Hrel. destruct (Hh f Hf Hrel) as [?|[? _]]; [by apply Hold|congruence].
Qed.

Lemma handle_log e q L :
  wire_inv q -> in_range 16 (mtu q) -> log_inv L q -> log_inv (L ++ log_event e q) (handle e q).
Proof.
  intros Hw Hm Hi.
  assert ((forall r buf channel owned, e <> Insert r buf channel owned) -> log_inv (L ++ log_event e q) (handle e q)) as Hother.
  { intros Hne. destruct (handle_indexes e q (wire_stamped _ Hw) Hne) as [E1 E2].
    destruct (handle_conserves e q (wire_accounted _ Hw) Hm) as (fresh & gone & Hp & _ & Hf).
    assert (fresh = []) as ->.
    { destruct fresh; [done|]. destruct Hf as (r & buf & ch & o & He); [done|]. by destruct (Hne r buf ch o). }
    assert (log_event e q = []) as -> by (destruct e; try done; by edestruct Hne).
    destruct Hi as [Hwf HR Ho Hold]. rewrite app_nil_r. split; [done|by rewrite E1|by rewrite E2|].
    intros f Hin. apply Hold. simpl in Hp. rewrite Hp. apply elem_of_app. by right. }
  destruct e; try (by apply Hother). apply insert_log; [apply Hw|done|done].
Qed.

Lemma new_log m : log_inv [] (new m).
Proof.
  split; [|done| |].
  - by split; intros [|i] ?.
  - intros c. simpl. unfold ChannelIndexes.get. simpl. rewrite lookup_empty. by case_if.
  - intros f Hf. by apply not_elem_of_nil in Hf.
Qed.

(** ** What was put on the wire *)

(** The frames that the flushes of a history returned. *)
Fixpoint flushed_from q (events : list event) : list OutgoingFrames :=
  match events with
  | [] => []
  | e :: events => match e with Flush now => [(flush now q).1] | _ => [] end ++ flushed_from (handle e q) events
  end.

Definition flushed (mtu : Z) (events : list event) : list OutgoingFrames := flushed_from (new mtu) events.

Lemma flushed_snoc m events e :
  flushed m (events ++ [e]) = flushed m events ++ match e with Flush now => [(flush now (run m events)).1] | _ => [] end.
Proof.
  unfold flushed, run. generalize (new m) as q. induction events as [|x events IH]; intros q; simpl.
  - by rewrite app_nil_r.
  - by rewrite IH, app_assoc.
Qed.

Lemma log_frames_prefix L L' f : f ∈ log_frames L -> f ∈ log_frames (L ++ L').
Proof. rewrite log_frames_app, elem_of_app. auto. Qed.

(** Every reliable frame of every flush is a frame of the log, and all of them can be sent. *)
Lemma run_log m events :
  path_mtu m -> Forall channels_ok events ->
  log_inv (sent_log m events) (run m events) /\
  forall out, out ∈ flushed m events -> zlen (frames out) < 2 ^ 48 /\ forall f, f ∈ frames out ->
    sendable m f /\ (relb f = true -> body f ∈ log_frames (sent_log m events)).
Proof.
  intros Hm. assert (in_range 16 m) as Hm16 by (unfold path_mtu, in_range in *; lia).
  induction events as [|e events IH] using rev_ind; intros He.
  { split; [apply new_log|]. by intros out ?%not_elem_of_nil. }
  apply Forall_app in He as [Hes [He _]%list.Forall_cons]. destruct (IH Hes) as [Hi Hout].
  destruct (run_wire m events Hm Hes) as [Hw Em].
  rewrite run_snoc, sent_log_snoc, flushed_snoc. split; [apply handle_log; [done|by rewrite Em|done]|].
  intros out [Hin|Hin]%elem_of_app.
  { destruct (Hout out Hin) as [Hlen Hfs]. split; [done|]. intros f Hf. destruct (Hfs f Hf) as [Hs Hr].
    split; [done|]. intros Hrel. by apply log_frames_prefix, Hr. }
  destruct e as [| | | |now| | |]; try (by apply not_elem_of_nil in Hin). apply list_elem_of_singleton in Hin as ->.
  split; [apply flush_length, Hw|]. intros f Hf.
  destruct (flush_wire now _ Hw) as [_ Hsend]. rewrite Em, list.Forall_forall in Hsend. split; [by apply Hsend|].
  intros Hrel. apply log_frames_prefix, (gi_holdings _ _ Hi); [|by rewrite relb_body].
  destruct (flush_sends now _ (wire_accounted _ Hw)) as [_ _ (new & Hout' & Hnew) _]. simpl in Hout'. subst new.
  apply Hnew. by apply list_elem_of_fmap_2.
Qed.
End SendLog.
