(* ===== verification/SendQTimer.v ===== *)
(** * Retransmission timers

    The timers of [SendQ.v]: the retransmission timeout and its back-off are bounded, the
    cached deadline [next_retry] is never later than the deadline of a frame in flight, and
    a flush sends every overdue frame again. *)

From S2P Require Import Prelude Errors Sequence Frame FrameCodec Fragment RecvQ SendOptions SendQ SendQInv SendQInsert SendQFlow SendQRun.
Import SendQ.

Section Timeouts.

Lemma back_off_bounds steps t :
  RTO_LBOUND <= t <= RTO_UBOUND -> t <= back_off steps t <= RTO_UBOUND.
Proof.
  unfold RTO_LBOUND, RTO_UBOUND. revert t. induction steps as [|steps IH]; intros t Ht; simpl; [lia|].
  assert (t <= Z.quot (t * 3) 2) by (apply Z.quot_le_lower_bound; lia).
  unfold RTO_UBOUND. specialize (IH (Z.min (Z.quot (t * 3) 2) 12000)). lia.
Qed.

Lemma retry_timeout_bounds rto retries :
  RTO_LBOUND <= rto <= RTO_UBOUND -> rto <= retry_timeout rto retries <= RTO_UBOUND.
Proof. apply back_off_bounds. Qed.

Lemma latency_sample_bounds srtt rtt : RTO_LBOUND <= (latency_sample srtt rtt).2 <= RTO_UBOUND.
Proof. unfold latency_sample, clamp, RTO_LBOUND, RTO_UBOUND. simpl. lia. Qed.

End Timeouts.

(** When a frame on the wire is sent again, unless it is acknowledged. *)
Definition due (q : SendQ) (p : Sent) : Z := sent_at p + retry_timeout (rto q) (retries p).

(** An entry of the flight is covered by the timers: on the wire, it is due no earlier than
    the cached deadline; waiting to be sent again, the flag says so. *)
Definition covered (q : SendQ) (p : Sent) : Prop :=
  0 <= sent_at p /\ if sent p then next_retry q <= due q p else retries_pending q = true.

Record timed (q : SendQ) : Prop := {
  timed_rto : RTO_LBOUND <= rto q <= RTO_UBOUND;
  timed_covered : forall p, p ∈ sent_packet q -> covered q p;
}.

(** The timers only move towards an earlier deadline. *)
Record sooner (q q' : SendQ) : Prop := {
  sooner_rto : rto q' = rto q;
  sooner_retry : next_retry q' <= next_retry q;
  sooner_pending : retries_pending q = true -> retries_pending q' = true;
}.

#[export] Instance sooner_preorder : PreOrder sooner.
Proof.
  split; [intros q; split; [done|lia|done]|]. intros q1 q2 q3 [] []. split; [congruence|lia|auto].
Qed.

Section Timers.
Context {feat : Features} {usort : UnstableSort}.
Implicit Types (q : SendQ) (p : Sent) (now : Z).

Lemma due_ge q p : RTO_LBOUND <= rto q <= RTO_UBOUND -> 0 <= sent_at p -> 0 <= due q p.
Proof.
  intros H1 H2. unfold due. pose proof (retry_timeout_bounds (rto q) (retries p) H1).
  unfold RTO_LBOUND in *. lia.
Qed.

Lemma covered_sooner q q' p : sooner q q' -> covered q p -> covered q' p.
Proof.
  intros [Hr Hn Hp] [Hs Hc]. split; [done|]. unfold due in *. rewrite Hr.
  destruct (sent p); [lia|by apply Hp].
Qed.

(** A queue with the same timers over some of the same entries. *)
Lemma timed_subset q q' :
  timed q -> rto q' = rto q -> next_retry q' = next_retry q ->
  retries_pending q' = retries_pending q ->
  (forall p, p ∈ sent_packet q' -> p ∈ sent_packet q) -> timed q'.
Proof.
  intros [Hr Hc] E1 E2 E3 Hsub. split; [by rewrite E1|]. intros p Hp.
  specialize (Hc p (Hsub p Hp)). unfold covered, due in *. by rewrite E1, E2, E3.
Qed.

(** The deadline zero forces a scan, whatever the timeouts have become. *)
Lemma timed_rescan q q' :
  RTO_LBOUND <= rto q' <= RTO_UBOUND -> next_retry q' = 0 -> retries_pending q' = retries_pending q ->
  (forall p, p ∈ sent_packet q' -> exists p0, p0 ∈ sent_packet q /\ sent_at p0 = sent_at p /\ sent p0 = sent p) ->
  timed q -> timed q'.
Proof.
  intros Hr Hn Hp Hsub [Hr0 Hc]. split; [done|]. intros p Hin.
  destruct (Hsub p Hin) as (p0 & Hin0 & Es & Ef). destruct (Hc p0 Hin0) as [Hs Hc0].
  rewrite Es in Hs. split; [done|]. rewrite Ef in Hc0. rewrite Hp, Hn.
  destruct (sent p); [by apply due_ge|done].
Qed.

(** ** Loops over the flight *)

Lemma for_items_covered loop_body q0 (P : Sent -> Prop) items q :
  (forall p q, P p -> sooner q0 q ->
     let '(p', q') := loop_body p q in covered q' p' /\ sooner q q' /\ sent_packet q' = sent_packet q) ->
  (forall p, p ∈ items -> P p) -> sooner q0 q ->
  let '(items', q') := for_items loop_body items q in
  (forall p, p ∈ items' -> covered q' p) /\ sooner q q'.
Proof.
  intros Hb. revert q. induction items as [|p items IH]; intros q HP Hq; simpl.
  { split; [|done]. intros p Hp. by apply not_elem_of_nil in Hp. }
  pose proof (Hb p q (HP p (list_elem_of_here _ _)) Hq) as H1.
  destruct (loop_body p q) as [p' q1]. destruct H1 as (Hc & Hs & _).
  specialize (IH q1). destruct (for_items loop_body items q1) as [items' q2].
  destruct IH as [Hi Hs2]; [intros x Hx; apply HP; by apply list_elem_of_further|by transitivity q|].
  split; [|by transitivity q1]. intros x [->|Hx]%elem_of_cons; [by apply (covered_sooner q1)|by apply Hi].
Qed.

Lemma each_sent_timed loop_body q (P : Sent -> Prop) :
  (forall p q', P p -> sooner q q' ->
     let '(p', q'') := loop_body p q' in
     covered q'' p' /\ sooner q' q'' /\ sent_packet q'' = sent_packet q') ->
  RTO_LBOUND <= rto q <= RTO_UBOUND -> (forall p, p ∈ sent_packet q -> P p) ->
  timed (each_sent loop_body q).
Proof.
  intros Hb Hr HP. unfold each_sent.
  pose proof (for_items_covered loop_body q P (sent_packet q) q Hb HP ltac:(reflexivity)) as H.
  destruct (for_items loop_body (sent_packet q) q) as [items q']. destruct H as [Hi Hs].
  split; simpl; [by rewrite (sooner_rto _ _ Hs)|]. intros p Hp. exact (Hi p Hp).
Qed.

Lemma resequence_covered p q :
  0 <= sent_at p ->
  let '(p', q') := resequence p q in
  covered q' p' /\ sooner q q' /\ sent_packet q' = sent_packet q.
Proof. intros Hs. simpl. split; [by split|]. split; [|done]. split; simpl; [done|lia|done]. Qed.

Lemma nack_timed sequence now q : 0 <= now -> timed q -> timed (nack sequence now q).
Proof.
  intros Hnow [Hr Hc]. apply (each_sent_timed _ q (covered q)); try done.
  intros p q' Hp Hs. unfold nack_item. case_if.
  - simpl. split; [by split|]. split; [|done]. split; simpl; [done|lia|done].
  - split; [by apply (covered_sooner q)|]. split; [reflexivity|done].
Qed.

Lemma nack_all_timed missing now q : 0 <= now -> timed q -> timed (nack_all missing now q).
Proof.
  intros Hnow. unfold nack_all. revert q. induction missing as [|id missing IH]; intros q Hq; [done|].
  apply IH. by apply nack_timed.
Qed.

Lemma nack_ranges_timed ranges now q : 0 <= now -> timed q -> timed (nack_ranges ranges now q).
Proof.
  intros Hnow Hq. unfold nack_ranges. destruct ranges as [|[] [|]]; try by apply nack_all_timed.
  case_if; [by apply nack_timed|by apply nack_all_timed].
Qed.

(** ** Acknowledgements *)

Lemma update_rto_timed rtt q : timed q -> timed (update_rto rtt q).
Proof.
  intros Hq. unfold update_rto. destruct (latency_sample (srtt q) rtt) as [srtt' rto'] eqn:E.
  pose proof (latency_sample_bounds (srtt q) rtt) as Hb. rewrite E in Hb. simpl in Hb.
  simpl. destruct (rto' =? rto q) eqn:Er; simpl.
  - apply Z.eqb_eq in Er. by apply (timed_subset q).
  - apply (timed_rescan q); try done. simpl. eauto.
Qed.

Lemma acknowledge_progress_timed now sampled q : timed q -> timed (acknowledge_progress now sampled q).
Proof.
  intros Hq. unfold acknowledge_progress. destruct (recovery q) as [r|]; [|done].
  case_if; [|by apply (timed_subset q)].
  apply (timed_rescan q); try done; [apply Hq|].
  simpl. intros p (p0 & -> & Hp)%list_elem_of_fmap. by exists p0.
Qed.

Lemma ack_direct_timed sequence now q : 0 <= now -> timed q -> timed (ack_direct sequence now q).
Proof.
  intros Hnow Hq. unfold ack_direct. destruct (list_find _ _) as [[i item]|]; [|done].
  set (q1 := q <| sent_packet := _ |>).
  assert (timed q1) as H1.
  { apply (timed_subset q); try done. simpl. intros p Hp. eapply elem_of_sublist; [exact Hp|apply sublist_delete]. }
  clearbody q1. set (q2 := if recovery_policy then _ else q1).
  assert (timed q2) as H2 by (unfold q2; case_if; [by apply acknowledge_progress_timed|done]).
  clearbody q2. set (q3 := if _ && _ then _ else q2).
  assert (timed q3) as H3 by (unfold q3; case_if; [by apply (timed_subset q2)|done]).
  clearbody q3. destruct (release _ _) as [released store]. cbv zeta.
  set (q4 := q3 <| shared := store |> <| buffered_bytes := _ |>).
  assert (timed q4) as H4 by (by apply (timed_subset q3)). clearbody q4.
  set (q5 := if newer _ _ then _ else q4).
  assert (timed q5) as H5.
  { unfold q5. case_if; [|done]. set (q6 := nack_all _ _ _).
    assert (timed q6) by (by apply nack_all_timed). by apply (timed_subset q6). }
  clearbody q5. case_if; [by apply update_rto_timed|done].
Qed.

Lemma ack_item_latency GROUPED ranges now acc p :
  RTO_LBOUND <= (latency acc).2 <= RTO_UBOUND ->
  RTO_LBOUND <= (latency (ack_item GROUPED ranges now acc p)).2 <= RTO_UBOUND.
Proof.
  intros H. unfold ack_item. destruct (list_find _ _) as [[i id]|]; [|done].
  destruct (release _ _) as [b store]. cbv zeta. case_if; [apply latency_sample_bounds|done].
Qed.

Lemma ack_pass_latency GROUPED ranges now items acc :
  RTO_LBOUND <= (latency acc).2 <= RTO_UBOUND ->
  RTO_LBOUND <= (latency (foldl (ack_item GROUPED ranges now) acc items)).2 <= RTO_UBOUND.
Proof.
  revert acc. induction items as [|p items IH]; intros acc H; [done|]. by apply IH, ack_item_latency.
Qed.

Lemma ack_ranges_pass_timed GROUPED ranges now q :
  0 <= now -> timed q -> timed (ack_ranges_pass GROUPED ranges now q).
Proof.
  intros Hnow Hq. unfold ack_ranges_pass. set (acc := foldl _ _ (sent_packet q)).
  destruct (ack_pass_kept GROUPED ranges now (sent_packet q)
    (mk_pass [] (shared q) (ack_sequence_number q) (srtt q, rto q) 0 None false))
    as (kept' & _ & Ek & Hsub & _).
  assert (RTO_LBOUND <= (latency acc).2 <= RTO_UBOUND) as Hlat
    by (apply ack_pass_latency; apply Hq).
  fold acc in Ek. clearbody acc. simpl in Ek. subst kept'.
  set (q1 := q <| sent_packet := kept acc |> <| shared := _ |> <| buffered_bytes := _ |>).
  assert (timed q1) as H1.
  { apply (timed_subset q); try done. simpl. intros p Hp. by eapply elem_of_sublist. }
  clearbody q1. set (q2 := if recovery_policy && _ then _ else q1).
  assert (timed q2) as H2 by (unfold q2; case_if; [by apply acknowledge_progress_timed|done]).
  clearbody q2. set (q3 := if GROUPED && _ then _ else q2).
  assert (timed q3) as H3 by (unfold q3; case_if; [by apply (timed_subset q2)|done]).
  clearbody q3. set (q4 := if negb _ then _ else q3). set (q5 := q4 <| srtt := _ |> <| rto := _ |>).
  assert (timed q5) as H5.
  { unfold q5, q4. destruct (rto q3 =? (latency acc).2) eqn:E; simpl.
    - apply Z.eqb_eq in E. by apply (timed_subset q3).
    - apply (timed_rescan q3); try done. simpl. eauto. }
  clearbody q5. case_if; [|done]. set (q6 := nack_all _ _ _).
  assert (timed q6) by (by apply nack_all_timed). by apply (timed_subset q6).
Qed.

Lemma ack_ranges_timed ranges now q : 0 <= now -> timed q -> timed (ack_ranges ranges now q).
Proof.
  intros Hnow Hq. assert (forall GROUPED, timed (ack_ranges_inner GROUPED ranges now q)) as H.
  { intros GROUPED. unfold ack_ranges_inner. destruct ranges as [|[start stop] [|]];
      try by apply ack_ranges_pass_timed.
    case_if; [by apply ack_direct_timed|by apply ack_ranges_pass_timed]. }
  unfold ack_ranges. case_if; apply H.
Qed.

Lemma ack_timed sequence now q : 0 <= now -> timed q -> timed (ack sequence now q).
Proof. intros Hnow Hq. unfold ack. case_if; [by apply ack_ranges_timed|by apply ack_direct_timed]. Qed.

(** ** Flushing *)

Lemma probe_tail_timed now q : timed q -> timed (probe_tail now q).
Proof.
  intros Hq. unfold probe_tail. case_if; [done|]. destruct (sent_packet q) as [|first rest] eqn:E; [done|].
  destruct (recovery q) as [r|]; [|done].
  split; [apply Hq|]. intros p Hp. simpl in Hp. apply list_elem_of_fmap in Hp as (p0 & -> & Hp0).
  split; [|done]. simpl. apply (timed_covered _ Hq). done.
Qed.

Lemma tick_item_covered now probe p q :
  0 <= sent_at p -> (sent p = false -> retries_pending q = true) -> RTO_LBOUND <= rto q <= RTO_UBOUND ->
  let '(p', q') := tick_item now probe p q in
  covered q' p' /\ sooner q q' /\ sent_packet q' = sent_packet q.
Proof.
  intros Hs Hp Hr. unfold tick_item. case_if; [by apply resequence_covered|].
  destruct (sent p) eqn:E.
  - split; [|split; [split; simpl; [done|lia|done]|done]]. split; [done|]. rewrite E. simpl.
    pose proof (due_ge q p Hr Hs). unfold due in *. simpl. unfold sat_i64, I64_MIN, I64_MAX. lia.
  - split; [|split; [reflexivity|done]]. split; [done|]. rewrite E. by apply Hp.
Qed.

Lemma tick_timed now q : timed q -> timed (tick now q).
Proof.
  intros Hq. unfold tick. set (q1 := if _ && _ then probe_tail now q else q).
  assert (timed q1) as H1 by (unfold q1; case_if; [by apply probe_tail_timed|done]).
  clearbody q1. case_if; [done|].
  set (probe := if recovery_policy then active_probe q1 else None). set (q2 := each_sent _ _).
  assert (timed q2) as H2.
  { apply (each_sent_timed _ (q1 <| next_retry := I64_MAX |>)
      (fun p => 0 <= sent_at p /\ (sent p = false -> retries_pending q1 = true))).
    - intros p q' [Hs Hp] [Hr Hn Hpend]. simpl in Hr, Hn, Hpend. apply tick_item_covered; [done|auto|].
      rewrite Hr. apply H1.
    - apply H1.
    - intros p Hp. destruct (timed_covered _ H1 p Hp) as [Hs Hc]. split; [done|].
      by destruct (sent p). }
  clearbody q2 probe. destruct probe as [pr|]; [|done]. destruct (SendQ.recovery q2); [|done].
  case_if; [by apply (timed_subset q2)|done].
Qed.

Lemma resent_covered now probe p q :
  0 <= now -> RTO_LBOUND <= rto q <= RTO_UBOUND ->
  let '(p', q') := resent now probe p q in
  covered q' p' /\ sooner q q' /\ sent p' = true /\ retries_pending q' = retries_pending q.
Proof.
  intros Hnow Hr. unfold resent. set (p' := if _ && _ then _ else _).
  assert (sent p' = true /\ sent_at p' = now) as [Es Ea] by (unfold p'; by case_if).
  clearbody p'. split; [|split; [split; simpl; [done|lia|done]|done]].
  split; [lia|]. rewrite Es. pose proof (due_ge q p' Hr ltac:(lia)) as Hd. unfold due in *. rewrite Ea in *.
  simpl. unfold sat_i64, I64_MIN, I64_MAX. lia.
Qed.

Lemma resend_items_covered now probe items ret q :
  0 <= now -> RTO_LBOUND <= rto q <= RTO_UBOUND -> (forall p, p ∈ items -> covered q p) ->
  let '(items', ret', q') := resend_items now probe items ret q in
  (forall p, p ∈ items' -> covered q' p /\ sent p = true) /\ sooner q q'.
Proof.
  intros Hnow. revert ret q. induction items as [|p items IH]; intros ret q Hr Hc; cbn [resend_items].
  { split; [|reflexivity]. intros p Hp. by apply not_elem_of_nil in Hp. }
  assert (exists p' ret' q1, (if negb (sent p)
    then let '(p', q1) := resent now probe p q in (p', ret ++ [frame p], q1)
    else (p, ret, q)) = (p', ret', q1) /\ covered q1 p' /\ sooner q q1 /\ sent p' = true)
    as (p' & ret' & q1 & -> & Hp & Hs & Hsent).
  { destruct (sent p) eqn:E; cbn [negb].
    - exists p, ret, q. split; [done|]. split; [apply Hc, list_elem_of_here|]. split; [reflexivity|done].
    - pose proof (resent_covered now probe p q Hnow Hr) as H. destruct (resent now probe p q) as [p' q1].
      destruct H as (? & ? & ? & _). by exists p', (ret ++ [frame p]), q1. }
  specialize (IH ret' q1). destruct (resend_items now probe items ret' q1) as [[items' ret2] q2].
  destruct IH as [Hi Hs2].
  { by rewrite (sooner_rto _ _ Hs). }
  { intros x Hx. apply (covered_sooner q); [done|]. apply Hc. by apply list_elem_of_further. }
  split; [|by transitivity q1]. intros x [->|Hx]%elem_of_cons; [|by apply Hi].
  split; [by apply (covered_sooner q1)|done].
Qed.

Lemma launch_timed now f q : 0 <= now -> timed q -> timed (launch now f q).
Proof.
  intros Hnow Hq. unfold launch. set (q1 := match list.last _ with Some _ => _ | None => _ end).
  assert (timed q1) as H1.
  { unfold q1. destruct (list.last _); [case_if|]; try done. by apply (timed_subset q). }
  clearbody q1. pose proof (timed_rto _ H1) as Hr. split; [done|]. simpl.
  assert (0 <= now + rto q1) by (unfold RTO_LBOUND in *; lia).
  intros p [Hp| ->%list_elem_of_singleton]%elem_of_app.
  - apply (covered_sooner q1); [split; simpl; [done|lia|done]|]. by apply H1.
  - split; [done|]. simpl. unfold due, retry_timeout. simpl. unfold sat_i64, I64_MIN, I64_MAX. lia.
Qed.

Lemma assign_group_timed may f g (out : OutgoingFrames) q :
  timed q -> timed (assign_group may f g out q).2.
Proof.
  intros Hq. unfold assign_group. destruct (group_sequence g); [case_if|]; by apply (timed_subset q).
Qed.

Lemma flush_queue_timed count now g (out : OutgoingFrames) q :
  0 <= now -> timed q -> timed (flush_queue count now g out q).2.
Proof.
  intros Hnow. revert g out q. induction count as [|count IH]; intros g out q Hq; [done|].
  cbn [flush_queue]. case_if; [done|]. destruct (packets q) as [|p rest]; [done|].
  fold (relb p). case_if; [apply IH; by apply (timed_subset q)|].
  set (q1 := q <| packets := rest |>). assert (timed q1) as H1 by (by apply (timed_subset q)).
  clearbody q1. set (step := if coalesce q1 then _ else _).
  assert (timed step.2) as H2.
  { unfold step. case_if; [by apply assign_group_timed|by apply (timed_subset q1)]. }
  destruct step as [[[p' g'] out'] q2]. simpl in H2. apply IH.
  case_if; [by apply launch_timed|by apply (timed_subset q2)].
Qed.

Lemma sort_if_dirty_timed q : timed q -> timed (sort_if_dirty q).
Proof.
  intros Hq. unfold sort_if_dirty. case_if; [|done]. apply (timed_subset q); try done.
  simpl. intros p. by rewrite sort_flight_perm.
Qed.

Lemma take_probe_packing_timed q : timed q -> timed (take_probe_packing q).2.
Proof. intros Hq. unfold take_probe_packing. destruct (recovery q); by apply (timed_subset q). Qed.

Lemma take_probe_replay_timed q : timed q -> timed (take_probe_replay q).2.
Proof. intros Hq. unfold take_probe_replay. destruct (recovery q); by apply (timed_subset q). Qed.

Lemma flush_legacy_timed now q : 0 <= now -> timed q -> timed (flush_legacy now q).2.
Proof.
  intros Hnow Hq. unfold flush_legacy.
  pose proof (tick_timed now q Hq) as H1. set (q1 := tick now q) in *. clearbody q1.
  set (r2 := if recovery_policy then take_probe_packing q1 else (false, q1)).
  assert (timed r2.2) as H2 by (unfold r2; case_if; [by apply take_probe_packing_timed|done]).
  destruct r2 as [packing q2]. simpl in H2.
  pose proof (sort_if_dirty_timed q2 H2) as H3. set (q3 := sort_if_dirty q2) in *. clearbody q3.
  set (r4 := if recovery_policy then take_probe_replay q3 else (None, q3)).
  assert (timed r4.2) as H4 by (unfold r4; case_if; [by apply take_probe_replay_timed|done]).
  destruct r4 as [probe q4]. simpl in H4.
  set (r5 := if retries_pending q4 then _ else _).
  assert (timed r5.2) as H5.
  { unfold r5. case_if; [|done].
    pose proof (resend_items_covered now probe (sent_packet q4) [] q4 Hnow (timed_rto _ H4)
      (timed_covered _ H4)) as H.
    destruct (resend_items _ _ _ _ _) as [[items ret] q5]. destruct H as [Hi [Hr _ _]].
    split; simpl; [rewrite Hr; apply H4|]. intros p Hp. destruct (Hi p Hp) as [[Hs Hc] Hsent].
    split; [done|]. rewrite Hsent in *. exact Hc. }
  destruct r5 as [ret q5]. simpl in H5. by apply flush_queue_timed.
Qed.

(** ** The scheduler's flush *)

Lemma lane_send_timed now probe lane charge st :
  0 <= now -> timed (queue st) -> timed (queue (lane_send now probe lane charge st)).
Proof.
  intros Hnow Hq. unfold lane_send. case_if; [|case_if].
  - destruct (unreliable _); [done|]. by apply (timed_subset (queue st)).
  - destruct (_ !! _) as [item|] eqn:Ei; [|done].
    pose proof (resent_covered now probe item (queue st) Hnow (timed_rto _ Hq)) as H.
    pose proof (resent_body now probe item (queue st)) as Hb.
    destruct (resent now probe item (queue st)) as [item' q1].
    destruct H as (Hc & Hs & _). destruct Hb as (_ & _ & Ep). cbn [queue].
    split; [simpl; rewrite (sooner_rto _ _ Hs); apply Hq|]. simpl.
    intros p [i Hi]%list_elem_of_lookup. rewrite Ep in Hi.
    apply list_lookup_insert_Some in Hi as [(_ & <- & _)|(_ & Hi)]; [exact Hc|].
    apply (covered_sooner (queue st)); [by destruct Hs|]. apply Hq. by eapply list_elem_of_lookup_2.
  - destruct (packets _) as [|p rest]; [done|]. cbv zeta. set (q1 := queue st <| packets := rest |>).
    assert (timed q1) as H1 by (by apply (timed_subset (queue st))).
    pose proof (assign_group_timed (coalesce q1 && packable p) p (group st) (output st) q1 H1) as H2.
    destruct (assign_group _ _ _ _ _) as [[[p' g'] out'] q2]. simpl in H2. cbn [queue].
    by apply launch_timed.
Qed.

Lemma lane_loop_timed fuel now probe lane quantum lane_bytes progressed st :
  0 <= now -> timed (queue st) ->
  timed (queue (lane_loop fuel now probe lane quantum lane_bytes progressed st).2).
Proof.
  intros Hnow. revert lane_bytes progressed st.
  induction fuel as [|fuel IH]; intros lane_bytes progressed st Hq; [done|].
  cbn [lane_loop]. case_if; [done|]. destruct (lane_charge lane st) as [[charge|] cursor]; [|done].
  set (st1 := mk_round _ _ _ _ _ _ _ _). case_if; [done|]. cbv zeta.
  pose proof (lane_send_timed now probe lane charge st1 Hnow Hq) as H.
  set (st2 := lane_send _ _ _ _ _) in *. clearbody st2. case_if; [exact H|]. by apply IH.
Qed.

Lemma lanes_timed fuel now probe quantum start offsets progressed st :
  0 <= now -> timed (queue st) ->
  timed (queue (lanes fuel now probe quantum start offsets progressed st).2).
Proof.
  intros Hnow. revert progressed st. induction offsets as [|offset offsets IH]; intros progressed st Hq; [done|].
  cbn [lanes].
  pose proof (lane_loop_timed fuel now probe ((start + offset) `mod` 3) quantum 0 progressed st Hnow Hq) as H.
  destruct (lane_loop _ _ _ _ _ _ _ _) as [[stop progressed'] st']. cbv beta iota.
  case_if; [exact H|]. by apply IH.
Qed.

Lemma rounds_timed fuel lane_fuel now probe quantum st :
  0 <= now -> timed (queue st) -> timed (queue (rounds fuel lane_fuel now probe quantum st).2).
Proof.
  intros Hnow. revert st. induction fuel as [|fuel IH]; intros st Hq; [done|]. cbn [rounds].
  pose proof (lanes_timed lane_fuel now probe quantum (next_lane (sched st)) [0; 1; 2] false st Hnow Hq) as H.
  destruct (lanes _ _ _ _ _ _ _ _) as [[stop progressed] st']. cbv beta iota.
  case_if; [exact H|]. case_if; [exact H|]. by apply IH.
Qed.

Lemma flush_scheduled_timed now q : 0 <= now -> timed q -> timed (flush_scheduled now q).2.
Proof.
  intros Hnow Hq. unfold flush_scheduled.
  pose proof (sort_if_dirty_timed _ (tick_timed now q Hq)) as H1.
  set (q1 := sort_if_dirty _) in *. clearbody q1. destruct (scheduler q1) as [s|]; [|done].
  set (q1' := q1 <| scheduler := None |>).
  assert (timed q1') as H1' by (by apply (timed_subset q1)). clearbody q1'.
  set (r2 := if recovery_policy then take_probe_packing _ else _).
  assert (timed r2.2) as H2 by (unfold r2; case_if; [by apply take_probe_packing_timed|done]).
  destruct r2 as [packing q2]. simpl in H2.
  set (r3 := if recovery_policy then take_probe_replay q2 else _).
  assert (timed r3.2) as H3 by (unfold r3; case_if; [by apply take_probe_replay_timed|done]).
  destruct r3 as [probe q3]. simpl in H3. cbv zeta. set (fuel := S _). clearbody fuel.
  set (st := (rounds _ _ _ _ _ _).2).
  assert (timed (queue st)) as H4 by (by apply rounds_timed). clearbody st. cbn [snd].
  set (q4 := queue st <| retries_pending := _ |>).
  assert (timed q4) as H5.
  { split; [apply H4|]. intros p Hp. destruct (timed_covered _ H4 p Hp) as [Hs Hc].
    split; [done|]. simpl. destruct (sent p) eqn:E; [exact Hc|].
    apply existsb_exists. exists p. split; [by apply list_elem_of_In|]. by rewrite E. }
  case_if; [by apply (timed_subset q4)|done].
Qed.

Lemma flush_timed now q : 0 <= now -> timed q -> timed (flush now q).2.
Proof.
  intros Hnow Hq. unfold flush. set (q1 := reset_recovery now q).
  assert (timed q1) as H1.
  { unfold q1, reset_recovery. case_if; [|done]. b2p.
    assert (sent_packet q = []) as E by (by destruct (sent_packet q)).
    assert (forall q', rto q' = rto q -> sent_packet q' = [] -> timed q') as Hempty.
    { intros q' Er Es. split; [rewrite Er; apply Hq|]. rewrite Es. intros p Hp. by apply not_elem_of_nil in Hp. }
    destruct (recovery _); [case_if|]; by apply Hempty. }
  clearbody q1. case_if; [by apply flush_scheduled_timed|by apply flush_legacy_timed].
Qed.

(** ** The other events *)

Lemma insert_payload_timers r buf channel owned q :
  let q' := (insert_payload r buf channel owned q).2 in
  rto q' = rto q /\ next_retry q' = next_retry q /\ retries_pending q' = retries_pending q /\
  sent_packet q' = sent_packet q.
Proof.
  unfold insert_payload. erewrite SE_bind_ok by reflexivity.
  destruct (required_bytes q r (zlen buf)) as [reserved|e]; [|done].
  erewrite SE_bind_ok by reflexivity. destruct (usize_sub _ _ <? reserved); [done|].
  erewrite SE_bind_ok by reflexivity.
  destruct (payload_limit q) as [m|e]; [|done]. erewrite SE_bind_ok by reflexivity. cbv beta zeta.
  destruct (m <? zlen buf) eqn:El.
  - destruct r; try done. cbn [is_unreliable]. rewrite andb_false_r.
    erewrite SE_bind_ok by reflexivity. erewrite SE_bind_ok by reflexivity.
    unfold ChannelIndexes.get_mut. cbv beta iota zeta delta [negb mret SE_ret snd].
    match goal with |- context [push_fragments ?mk 0 ?l ?q1] =>
      destruct (push_fragments_keeps mk 0 l q1) as [r' ->] end. done.
  - destruct r; unfold fail_if; simpl; unfold push_unreliable, push_reliable;
      (destruct send_policy; simpl; [destruct (scheduler q)|]); done.
Qed.

Lemma set_send_options_timed opts q : timed q -> timed (set_send_options opts q).2.
Proof.
  intros Hq. unfold set_send_options. case_if; [done|]. cbn [snd].
  assert (timed (ensure_scheduler q)) as H1.
  { unfold ensure_scheduler. destruct (scheduler q); [done|].
    destruct (split_unreliable _ _ _ _) as [[ps us] b]. by apply (timed_subset q). }
  destruct (scheduler (ensure_scheduler q)); [by apply (timed_subset (ensure_scheduler q))|done].
Qed.

(** The clock reading an event carries. *)
Definition event_time (e : event) : Z :=
  match e with
  | Ack _ now | AckRanges _ now | NackRanges _ now | Flush now | SetRecoveryOptions _ now => now
  | _ => 0
  end.

Lemma handle_timed e q : 0 <= event_time e -> timed q -> timed (handle e q).
Proof.
  intros Ht Hq. destruct e; simpl in *.
  - destruct (insert_payload_timers r buf channel owned q) as (? & ? & ? & E).
    apply (timed_subset q); try done. by rewrite E.
  - by apply ack_timed.
  - by apply ack_ranges_timed.
  - by apply nack_ranges_timed.
  - by apply flush_timed.
  - by apply (timed_subset q).
  - by apply (timed_subset q).
  - case_if; [by apply set_send_options_timed|done].
Qed.

Lemma run_timed mtu0 events : Forall (fun e => 0 <= event_time e) events -> timed (run mtu0 events).
Proof.
  induction events as [|e events IH] using rev_ind; intros H.
  - split; [vm_compute; split; congruence|]. intros p Hp. by apply not_elem_of_nil in Hp.
  - apply Forall_app in H as [H1 H2]. rewrite run_snoc. apply handle_timed; [|by apply IH].
    by inversion H2.
Qed.

(** ** Overdue frames are sent again *)

(** A frame that waits to be sent again. *)
Definition waiting (f : FrameSetPacket) q : Prop :=
  exists p, p ∈ sent_packet q /\ sent_body p = f /\ sent p = false.

Lemma for_items_elem loop_body q0 items q p :
  (forall p q, sooner q0 q -> sooner q (loop_body p q).2) -> sooner q0 q -> p ∈ items ->
  exists q1, sooner q0 q1 /\ (loop_body p q1).1 ∈ (for_items loop_body items q).1.
Proof.
  intros Hb. revert q. induction items as [|x items IH]; intros q Hq Hp; [by apply not_elem_of_nil in Hp|].
  simpl. specialize (Hb x q Hq). destruct (loop_body x q) as [x' q1] eqn:E. simpl in Hb.
  apply elem_of_cons in Hp as [->|Hp].
  - exists q. split; [done|]. rewrite E. destruct (for_items _ items q1). apply list_elem_of_here.
  - destruct (IH q1) as (q2 & Hq2 & Hin); [by transitivity q|done|]. exists q2. split; [done|].
    destruct (for_items _ items q1). by apply list_elem_of_further.
Qed.

Lemma tick_item_sooner now probe p q : sooner q (tick_item now probe p q).2.
Proof.
  unfold tick_item. case_if; [split; simpl; [done|lia|done]|].
  case_if; [split; simpl; [done|lia|done]|reflexivity].
Qed.

Lemma tick_item_waiting now probe p q :
  sent p = false \/ due q p <= now ->
  let p' := (tick_item now probe p q).1 in sent p' = false /\ sent_body p' = sent_body p.
Proof.
  intros H. unfold tick_item. destruct (sent p) eqn:E; [|done]. simpl.
  destruct H as [?|H]; [done|]. unfold due in H.
  assert (retry_timeout (rto q) (retries p) <=? now - sent_at p = true) as -> by lia. done.
Qed.

(** The scan marks every overdue entry. *)
Lemma tick_marks now q p :
  timed q -> p ∈ sent_packet q -> sent p = false \/ due q p <= now ->
  waiting (sent_body p) (tick now q) /\ retries_pending (tick now q) = true.
Proof.
  intros Hq Hp Hdue. pose proof (tick_timed now q Hq) as Ht.
  assert (waiting (sent_body p) (tick now q)) as Hw.
  2: { split; [done|]. destruct Hw as (p' & Hp' & _ & Hs).
       destruct (timed_covered _ Ht p' Hp') as [_ Hc]. by rewrite Hs in Hc. }
  unfold tick in *. set (q1 := if _ && _ then probe_tail now q else q) in *.
  assert (exists p1, p1 ∈ sent_packet q1 /\ sent_body p1 = sent_body p /\
    (sent p1 = false \/ (q1 = q /\ p1 = p))) as (p1 & Hp1 & Eb & Hcase).
  { unfold q1. case_if; [|by exists p; auto]. unfold probe_tail. case_if; [by exists p; auto|].
    destruct (sent_packet q) as [|first rest] eqn:E; [by apply not_elem_of_nil in Hp|].
    destruct (recovery q) as [r|]; [|rewrite <- E in Hp; by exists p; auto].
    rewrite <- E in Hp. eexists. split; [simpl; apply list_elem_of_fmap_2; exact Hp|]. by auto. }
  clearbody q1. set (probe := if recovery_policy then active_probe q1 else None) in *.
  case_if.
  - destruct Hcase as [Hs|[-> ->]]; [by exists p1|]. exists p. split; [done|]. split; [done|].
    destruct Hdue as [?|Hd]; [done|]. destruct (sent p) eqn:Es; [|done]. exfalso.
    destruct (timed_covered _ Hq p Hp) as [_ Hc]. rewrite Es in Hc.
    unfold probe in *. destruct recovery_policy; b2p; lia.
  - set (q2 := q1 <| next_retry := I64_MAX |>).
    destruct (for_items_elem (tick_item now probe) q2 (sent_packet q2) q2 p1) as (q3 & Hq3 & Hin).
    { intros. apply tick_item_sooner. }
    { reflexivity. }
    { done. }
    destruct (tick_item_waiting now probe p1 q3) as [Hs Hb].
    { destruct Hcase as [?|[-> ->]]; [by left|]. destruct Hdue as [?|Hd]; [by left|]. right.
      unfold due in *. by rewrite (sooner_rto _ _ Hq3). }
    assert (waiting (sent_body p) (each_sent (tick_item now probe) q2)) as Hw.
    { unfold each_sent. destruct (for_items _ (sent_packet q2) q2) as [items q4].
      eexists. split; [exact Hin|]. split; [by rewrite Hb|done]. }
    change (waiting (sent_body p)
      (match probe, SendQ.recovery (each_sent (tick_item now probe) q2) with
       | Some pr, Some r => if deadline pr <=? now then
           each_sent (tick_item now probe) q2 <| recovery := Some (r <| pending_probe := None |>) |>
           else each_sent (tick_item now probe) q2
       | _, _ => each_sent (tick_item now probe) q2 end)).
    destruct probe; [|done]. destruct (SendQ.recovery _); [|done]. by case_if.
Qed.

Lemma resend_items_complete now probe items ret q p :
  (p ∈ items /\ sent p = false \/ frame p ∈ ret) -> frame p ∈ (resend_items now probe items ret q).1.2.
Proof.
  revert ret q. induction items as [|x items IH]; intros ret q H; cbn [resend_items].
  { destruct H as [[H _]|H]; [by apply not_elem_of_nil in H|done]. }
  destruct (sent x) eqn:E; cbn [negb].
  - specialize (IH ret q). destruct (resend_items _ _ items ret q) as [[items' ret'] q'].
    apply IH. destruct H as [[[->|H]%elem_of_cons Hs]|H]; [congruence|auto|auto].
  - destruct (resent now probe x q) as [x' q1]. specialize (IH (ret ++ [frame x]) q1).
    destruct (resend_items _ _ items _ q1) as [[items' ret'] q'].
    apply IH. rewrite elem_of_app, list_elem_of_singleton.
    destruct H as [[[->|H]%elem_of_cons Hs]|H]; auto.
Qed.

Lemma flush_legacy_resends now q p :
  sendq_inv q -> timed q -> p ∈ sent_packet q -> sent p = false \/ due q p <= now ->
  sent_body p ∈ map body (frames (flush_legacy now q).1).
Proof.
  intros Hi Hq Hp Hdue. destruct (tick_marks now q p Hq Hp Hdue) as [Hw Hpend].
  unfold flush_legacy. pose proof (keeps_inv [] _ _ (tick_keeps now q) Hi) as I1.
  set (q1 := tick now q) in *. clearbody q1.
  set (r2 := if recovery_policy then take_probe_packing q1 else (false, q1)).
  assert (sent_packet r2.2 = sent_packet q1 /\ retries_pending r2.2 = retries_pending q1 /\ keeps q1 r2.2) as (E2 & F2 & K2).
  { unfold r2. case_if; [|done]. split_and!; [..|apply take_probe_packing_keeps];
      unfold take_probe_packing; by destruct (recovery q1). }
  destruct r2 as [packing q2]. simpl in E2, F2, K2.
  assert (waiting (sent_body p) (sort_if_dirty q2) /\ retries_pending (sort_if_dirty q2) = true) as [W3 F3].
  { destruct Hw as (x & Hx & Hxb). split; [|unfold sort_if_dirty; case_if; simpl; congruence].
    exists x. split; [|done]. unfold sort_if_dirty. case_if; simpl; [rewrite sort_flight_perm|]; by rewrite E2. }
  assert (keeps q1 (sort_if_dirty q2)) as K3 by (etransitivity; [exact K2|apply sort_if_dirty_keeps]).
  set (q3 := sort_if_dirty q2) in *. clearbody q3.
  set (r4 := if recovery_policy then take_probe_replay q3 else (None, q3)).
  assert (sent_packet r4.2 = sent_packet q3 /\ retries_pending r4.2 = retries_pending q3 /\ keeps q3 r4.2) as (E4 & F4 & K4).
  { unfold r4. case_if; [|done]. split_and!; [..|apply take_probe_replay_keeps];
      unfold take_probe_replay; by destruct (recovery q3). }
  destruct r4 as [probe q4]. simpl in E4, F4, K4. rewrite F4, F3.
  destruct W3 as (x & Hx & Hxb & Hxs). rewrite <- E4 in Hx.
  pose proof (resend_items_complete now probe (sent_packet q4) [] q4 x (or_introl (conj Hx Hxs))) as Hret.
  pose proof (resend_items_keeps now probe (sent_packet q4) [] q4) as Hk.
  destruct (resend_items _ _ _ _ _) as [[items ret] q5]. simpl in Hret. destruct Hk as (Hb & K5 & _).
  set (q6 := q5 <| sent_packet := items |> <| retries_pending := false |>).
  assert (keeps q1 q6) as K6.
  { do 2 (etransitivity; [eassumption|]). etransitivity; [exact K5|]. destruct K5 as [_ Hf _ _ _ _ _ _].
    split; try done. rewrite Hf. unfold flight. simpl. by rewrite Hb. }
  destruct (flush_queue_sends (length (packets q6)) now no_group (mk_outgoing ret packing) q6)
    as [_ _ (new & -> & _) _]; [by apply (keeps_inv _ q1)|].
  apply elem_of_app. left. rewrite <- Hxb. change (body (frame x) ∈ map body ret).
  by apply list_elem_of_fmap_2.
Qed.

(** The flush runs without the scheduler: it is not installed, or has default limits and no
    unreliable frame waits in its lane. *)
Definition unscheduled q : bool :=
  negb (send_policy && match scheduler q with
        | Some s => negb (use_legacy s) || negb (Nat.eqb (length (unreliable s)) 0)
        | None => false
        end).

(** C19: retransmission. After any history, at the latest when the timeout of a frame in
    flight has elapsed, with the back-off its retransmissions have earned, and at once when
    it was reported lost, the next flush that is not paced by the scheduler puts it on the
    wire again. *)
Theorem overdue_frames_are_resent mtu0 events now p :
  let q := run mtu0 events in
  in_range 16 mtu0 -> Forall (fun e => 0 <= event_time e) events -> unscheduled q = true ->
  p ∈ sent_packet q -> sent p = false \/ sent_at p + retry_timeout (rto q) (retries p) <= now ->
  body (frame p) ∈ map body (frames (flush now q).1).
Proof.
  intros q Hm Ht Hu Hp Hdue. destruct (run_inv mtu0 events Hm) as [Hq _].
  pose proof (run_timed mtu0 events Ht) as Hti. fold q in Hq, Hti.
  assert (reset_recovery now q = q) as E.
  { unfold reset_recovery. destruct (sent_packet q); [by apply not_elem_of_nil in Hp|].
    by rewrite andb_false_r. }
  unfold flush. rewrite E. unfold unscheduled in Hu. apply negb_true_iff in Hu. rewrite Hu.
  by apply (flush_legacy_resends now q p).
Qed.

(** C34: the timers. After any history the retransmission timeout is between 50 ms and 12 s,
    and so is the backed-off timeout of every frame; and the instant the connection sleeps
    until, [recovery_deadline], is not later than the timeout of any frame on the wire, so
    no retransmission is missed. *)
Theorem deadline_covers_flight mtu0 events :
  Forall (fun e => 0 <= event_time e) events ->
  let q := run mtu0 events in
  50 <= rto q <= 12000 /\
  forall p, p ∈ sent_packet q -> sent p = true ->
    50 <= retry_timeout (rto q) (retries p) <= 12000 /\
    recovery_deadline q <= sent_at p + retry_timeout (rto q) (retries p).
Proof.
  intros Ht q. pose proof (run_timed mtu0 events Ht) as Hq. fold q in Hq. destruct Hq as [Hr Hc].
  split; [exact Hr|]. intros p Hp Hs. pose proof (retry_timeout_bounds (rto q) (retries p) Hr) as Hb.
  destruct (Hc p Hp) as [_ Hd]. rewrite Hs in Hd. unfold due in Hd.
  unfold RTO_LBOUND, RTO_UBOUND in *. split; [lia|].
  unfold recovery_deadline. destruct (sent_packet q); [by apply not_elem_of_nil in Hp|]. lia.
Qed.
End Timers.

(** The reliable frame of [sample_events], in flight since 10 ms and due at 85 ms. *)
Definition sample_entry : Sent :=
  nth 0 (sent_packet (@run all_features merge_sort_flight 100 sample_events))
    (mk_sent (empty_frame 0) false 0 0 []).

Lemma overdue_frames_are_resent_witness :
  body (frame sample_entry) ∈
    map body (frames (@flush all_features merge_sort_flight 100
                        (@run all_features merge_sort_flight 100 sample_events)).1).
Proof.
  apply (@overdue_frames_are_resent all_features merge_sort_flight 100 sample_events 100 sample_entry).
  - unfold in_range. lia.
  - repeat constructor; simpl; lia.
  - vm_compute. reflexivity.
  - apply (list_elem_of_lookup_2 _ 0). vm_compute. reflexivity.
  - right. vm_compute. congruence.
Defined.

Lemma deadline_covers_flight_witness :
  @recovery_deadline all_features (@run all_features merge_sort_flight 100 sample_events)
    <= sent_at sample_entry + 75.
Proof.
  destruct (@deadline_covers_flight all_features merge_sort_flight 100 sample_events) as [_ H].
  { repeat constructor; simpl; lia. }
  destruct (H sample_entry) as [_ Hd].
  - apply (list_elem_of_lookup_2 _ 0). vm_compute. reflexivity.
  - vm_compute. reflexivity.
  - etransitivity; [exact Hd|]. vm_compute. congruence.
Defined.
