(* ===== verification/SendQSched.v ===== *)
(** * Windows and budgets of a flush

    What bounds a flush of [SendQ.v]: the window of frames in flight, the byte budget of the
    scheduler, and the number of iterations of its loops. *)

From S2P Require Import Prelude Errors Sequence Frame FrameCodec Fragment RecvQ SendOptions SendQ SendQInv SendQInsert SendQFlow SendQRun.
Import SendQ.

Abbreviation in_flight q := (zlen (sent_packet q)).

Section Window.
Context {feat : Features} {usort : UnstableSort}.
Implicit Types (q : SendQ) (now : Z).

Lemma keeps_in_flight q q' : keeps q q' -> in_flight q' = in_flight q.
Proof.
  intros [_ Hf _ _ _ _ _ _]. apply Permutation_length in Hf. unfold flight in Hf.
  rewrite !length_map in Hf. lia.
Qed.

Lemma launch_in_flight now f q : in_flight (launch now f q) = in_flight q + 1.
Proof.
  unfold launch. destruct (list.last _); [case_if|]; simpl; rewrite length_app; simpl; lia.
Qed.

Lemma assign_group_in_flight may p g (out : OutgoingFrames) q :
  in_flight (assign_group may p g out q).2 = in_flight q.
Proof. unfold assign_group. by destruct (group_sequence g); [case_if|]. Qed.

Lemma flush_queue_in_flight count now g (out : OutgoingFrames) q :
  in_flight (flush_queue count now g out q).2 <= Z.max (in_flight q) MAX_IN_FLIGHT_PACKETS.
Proof.
  unfold MAX_IN_FLIGHT_PACKETS. revert g out q. induction count as [|count IH]; intros g out q.
  { simpl. lia. }
  cbn [flush_queue]. unfold MAX_IN_FLIGHT_PACKETS.
  destruct ((64 <=? in_flight q) && (queued_unreliable q =? 0)) eqn:Efull; [simpl; lia|].
  destruct (packets q) as [|p rest]; [simpl; lia|].
  fold (relb p). destruct (relb p && (64 <=? in_flight q)) eqn:Erot; [etransitivity; [apply IH|done]|].
  set (q1 := q <| packets := rest |>). set (step := if coalesce q1 then _ else _).
  assert (in_flight step.2 = in_flight q) as E2.
  { unfold step. case_if; [by rewrite assign_group_in_flight|done]. }
  destruct step as [[[p' g'] out'] q2]. simpl in E2. cbv zeta.
  etransitivity; [apply IH|]. destruct (relb p); simpl in Erot.
  - rewrite launch_in_flight. blia.
  - simpl. lia.
Qed.

Lemma flush_legacy_in_flight now q :
  in_flight (flush_legacy now q).2 <= Z.max (in_flight q) MAX_IN_FLIGHT_PACKETS.
Proof.
  unfold flush_legacy.
  set (q1 := tick now q). assert (keeps q q1) as K1 by apply tick_keeps. clearbody q1.
  set (r2 := if recovery_policy then take_probe_packing q1 else (false, q1)).
  assert (keeps q r2.2) as K2.
  { etransitivity; [exact K1|]. unfold r2. destruct recovery_policy; [apply take_probe_packing_keeps|done]. }
  destruct r2 as [packing q2]. simpl in K2.
  assert (keeps q (sort_if_dirty q2)) as K3 by (etransitivity; [exact K2|apply sort_if_dirty_keeps]).
  set (q3 := sort_if_dirty q2) in *. clearbody q3.
  set (r4 := if recovery_policy then take_probe_replay q3 else (None, q3)).
  assert (keeps q r4.2) as K4.
  { etransitivity; [exact K3|]. unfold r4. destruct recovery_policy; [apply take_probe_replay_keeps|done]. }
  destruct r4 as [probe q4]. simpl in K4. set (r5 := if retries_pending q4 then _ else _).
  assert (in_flight r5.2 = in_flight q) as E5.
  { unfold r5. case_if; [|by apply keeps_in_flight].
    pose proof (resend_items_keeps now probe (sent_packet q4) [] q4) as H.
    destruct (resend_items _ _ _ _ _) as [[items ret] self]. destruct H as (Hi & _ & _).
    apply (f_equal length) in Hi. rewrite !length_map in Hi. simpl.
    rewrite Hi. by apply keeps_in_flight. }
  destruct r5 as [ret q5]. simpl in E5. rewrite <- E5. apply flush_queue_in_flight.
Qed.

Lemma flush_queue_scheduler count now g (out : OutgoingFrames) q :
  scheduler (flush_queue count now g out q).2 = scheduler q.
Proof.
  revert g out q. induction count as [|count IH]; intros g out q; [done|].
  cbn [flush_queue]. case_if; [done|]. destruct (packets q) as [|p rest]; [done|].
  fold (relb p). case_if; [by rewrite IH|].
  set (q1 := q <| packets := rest |>). set (step := if coalesce q1 then _ else _).
  assert (scheduler step.2 = scheduler q) as E2.
  { unfold step. case_if; [|done]. unfold assign_group. by destruct (group_sequence g); [case_if|]. }
  destruct step as [[[p' g'] out'] q2]. simpl in E2. cbv zeta. rewrite IH.
  case_if; [|done]. destruct (launch_fields now p' q2) as (_ & _ & _ & _ & _ & -> & _). done.
Qed.

Lemma flush_legacy_scheduler now q : scheduler (flush_legacy now q).2 = scheduler q.
Proof.
  unfold flush_legacy. set (q1 := tick now q).
  assert (scheduler q1 = scheduler q) as <- by apply tick_keeps. clearbody q1.
  set (r2 := if recovery_policy then take_probe_packing q1 else (false, q1)).
  assert (scheduler r2.2 = scheduler q1) as <- by (unfold r2; case_if; [apply take_probe_packing_keeps|done]).
  destruct r2 as [packing q2]. cbn [snd].
  assert (scheduler (sort_if_dirty q2) = scheduler q2) as <- by apply sort_if_dirty_keeps.
  set (q3 := sort_if_dirty q2). clearbody q3.
  set (r4 := if recovery_policy then take_probe_replay q3 else (None, q3)).
  assert (scheduler r4.2 = scheduler q3) as <- by (unfold r4; case_if; [apply take_probe_replay_keeps|done]).
  destruct r4 as [probe q4]. cbn [snd]. set (r5 := if retries_pending q4 then _ else _).
  assert (scheduler r5.2 = scheduler q4) as <-.
  { unfold r5. case_if; [|done]. pose proof (resend_items_keeps now probe (sent_packet q4) [] q4) as H.
    destruct (resend_items _ _ _ _ _) as [[items ret] self]. destruct H as (_ & K & _). apply K. }
  destruct r5 as [ret q5]. apply flush_queue_scheduler.
Qed.

(** ** The scheduler's rounds *)

(** One step of a lane: the frame it sends costs what [lane_charge] said, and a new frame
    enters the flight only within the limits. *)
Lemma lane_charge_window lane st charge cursor :
  lane_charge lane st = (Some charge, cursor) -> lane ≠ 0 -> lane ≠ 1 ->
  in_flight (queue st) < SendOptions.in_flight_frames (options (sched st)) /\
  flight_bytes st + charge <= SendOptions.in_flight_bytes (options (sched st)).
Proof.
  intros H H0 H1. unfold lane_charge in H.
  rewrite (proj2 (Z.eqb_neq _ _)), (proj2 (Z.eqb_neq _ _)) in H by done.
  destruct (packets (queue st)); [discriminate|]. case_if_in H; [|discriminate].
  injection H as <- <-. blia.
Qed.

Lemma size_of_sequence p s : size_of (p <| Frame.sequence_number := s |>) = size_of p.
Proof. done. Qed.

Lemma assign_group_size may p g (out : OutgoingFrames) q :
  size_of (assign_group may p g out q).1.1.1 = size_of p /\
  frames (assign_group may p g out q).1.2 = frames out.
Proof. unfold assign_group. by destruct (group_sequence g); [case_if|]. Qed.

Definition output_bytes (st : Round) : Z := sumZ size_of (frames (output st)).

Definition at_cursor (st : Round) (cursor : nat) : Round :=
  mk_round (queue st) (sched st) (output st) (burst st) cursor (group st) (flight_bytes st)
    (unreliable_drained st).

Lemma push_out_bytes p (out : OutgoingFrames) :
  sumZ size_of (frames (push_out p out)) = sumZ size_of (frames out) + size_of p.
Proof. unfold push_out. simpl. rewrite sumZ_app. simpl. lia. Qed.

Lemma lane_send_bytes now probe lane st charge cursor :
  lane_charge lane st = (Some charge, cursor) ->
  output_bytes (lane_send now probe lane charge (at_cursor st cursor)) = output_bytes st + charge.
Proof.
  intros H. unfold lane_charge in H. unfold lane_send, output_bytes. simpl. case_if_in H; [|case_if_in H].
  - destruct (unreliable (sched st)) as [|p rest]; [discriminate|]. injection H as <- <-.
    cbn [output]. by rewrite push_out_bytes.
  - case_if_in H; [discriminate|]. injection H as Hc <-.
    destruct (sent_packet (queue st) !! _) as [item|]; [|discriminate]. injection Hc as <-.
    destruct (resent now probe item (queue st)) as [item' q1]. cbn [output]. by rewrite push_out_bytes.
  - destruct (packets (queue st)) as [|p rest]; [discriminate|]. case_if_in H; [|discriminate].
    injection H as <- <-. set (q1 := queue st <| packets := rest |>).
    destruct (assign_group_size (coalesce q1 && packable p) p (group st) (output st) q1) as [Hs Ho].
    unfold q1 in *. clear q1. simpl in *.
    destruct (assign_group _ _ _ _ _) as [[[p' g'] out'] q2]. simpl in Hs, Ho. cbn [output].
    by rewrite push_out_bytes, Hs, Ho.
Qed.

Lemma lane_send_burst now probe lane charge st :
  burst (lane_send now probe lane charge st) = burst st /\
  options (sched (lane_send now probe lane charge st)) = options (sched st).
Proof.
  unfold lane_send. case_if; [by destruct (unreliable _)|]. case_if.
  - destruct (_ !! _) as [item|]; [|done]. by destruct (resent now probe item (queue st)).
  - destruct (packets _); [done|]. cbv zeta. by destruct (assign_group _ _ _ _ _) as [[[p' g'] out'] q2].
Qed.

Lemma lane_send_in_flight now probe lane st charge cursor :
  lane_charge lane st = (Some charge, cursor) ->
  in_flight (queue (lane_send now probe lane charge (at_cursor st cursor)))
    <= Z.max (in_flight (queue st)) (SendOptions.in_flight_frames (options (sched st))).
Proof.
  intros H. destruct (decide (lane = 0)) as [->|H0]; [|destruct (decide (lane = 1)) as [->|H1]].
  - unfold lane_send. simpl. destruct (unreliable (sched st)); simpl; lia.
  - unfold lane_send, at_cursor. cbn [Z.eqb Pos.eqb queue retry_cursor].
    destruct (_ !! _) as [item|]; [|simpl; lia].
    pose proof (resent_body now probe item (queue st)) as Hb.
    destruct (resent now probe item (queue st)) as [item' q1]. destruct Hb as (_ & _ & Hs).
    cbn [queue]. change (sent_packet (q1 <| sent_packet := ?l |>)) with l.
    rewrite length_insert, Hs. lia.
  - destruct (lane_charge_window _ _ _ _ H H0 H1) as [Hw _]. unfold lane_send.
    rewrite (proj2 (Z.eqb_neq _ _)), (proj2 (Z.eqb_neq _ _)) by done. simpl.
    destruct (packets (queue st)) as [|p rest]; [simpl; lia|].
    set (q1 := queue st <| packets := rest |>).
    pose proof (assign_group_in_flight (coalesce q1 && packable p) p (group st) (output st) q1) as E.
    unfold q1 in *. clear q1. simpl in *.
    destruct (assign_group _ _ _ _ _) as [[[p' g'] out'] q2]. simpl in E. cbn [queue].
    rewrite launch_in_flight. lia.
Qed.

(** The burst is what was sent, within the budget. *)
Definition within_budget (st : Round) : Prop :=
  burst st = output_bytes st /\ burst st <= SendOptions.flush_bytes (options (sched st)).

Record paces (st st' : Round) : Prop := {
  paces_options : options (sched st') = options (sched st);
  paces_budget : within_budget st -> within_budget st';
  paces_window : in_flight (queue st')
    <= Z.max (in_flight (queue st)) (SendOptions.in_flight_frames (options (sched st)));
}.

Lemma paces_refl st st' :
  queue st' = queue st -> sched st' = sched st -> output st' = output st -> burst st' = burst st ->
  paces st st'.
Proof.
  intros E1 E2 E3 E4. split; unfold within_budget, output_bytes; rewrite ?E1, ?E2, ?E3, ?E4; [done|done|lia].
Qed.

Lemma paces_trans st1 st2 st3 : paces st1 st2 -> paces st2 st3 -> paces st1 st3.
Proof.
  intros [O1 B1 W1] [O2 B2 W2]. split; [congruence|auto|]. rewrite O1 in W2. lia.
Qed.

Lemma lane_step_paces now probe lane st charge cursor next_lane' :
  lane_charge lane st = (Some charge, cursor) ->
  burst st + charge <= SendOptions.flush_bytes (options (sched st)) ->
  let st2 := lane_send now probe lane charge (at_cursor st cursor) in
  paces st (mk_round (queue st2) (sched st2 <| next_lane := next_lane' |>) (output st2)
              (burst st2 + charge) (retry_cursor st2) (group st2) (flight_bytes st2) (unreliable_drained st2)).
Proof.
  intros Hc Hb st2. destruct (lane_send_burst now probe lane charge (at_cursor st cursor)) as [Eb Eo].
  pose proof (lane_send_bytes now probe lane st charge cursor Hc) as Ebytes.
  pose proof (lane_send_in_flight now probe lane st charge cursor Hc) as Hw.
  fold st2 in Eb, Eo, Ebytes, Hw. clearbody st2. simpl in Eb, Eo.
  split; simpl; [done| |done]. intros [H1 H2]. unfold within_budget. simpl.
  unfold output_bytes in *. simpl. rewrite Eo, Eb. lia.
Qed.

Lemma lane_loop_paces fuel now probe lane quantum lane_bytes progressed st :
  paces st (lane_loop fuel now probe lane quantum lane_bytes progressed st).2.
Proof.
  revert lane_bytes progressed st. induction fuel as [|fuel IH]; intros lane_bytes progressed st.
  { by apply paces_refl. }
  cbn [lane_loop]. case_if; [by apply paces_refl|].
  destruct (lane_charge lane st) as [[charge|] cursor] eqn:Ec; [|by apply paces_refl].
  fold (at_cursor st cursor). cbv zeta.
  destruct (SendOptions.flush_bytes _ <? burst _ + charge) eqn:Eb; [by apply paces_refl|].
  pose proof (lane_step_paces now probe lane st charge cursor ((lane + 1) `mod` 3) Ec) as H.
  simpl in Eb. specialize (H ltac:(blia)). cbv zeta in H. case_if; [exact H|].
  eapply paces_trans; [exact H|apply IH].
Qed.

Lemma lanes_paces fuel now probe quantum start offsets progressed st :
  paces st (lanes fuel now probe quantum start offsets progressed st).2.
Proof.
  revert progressed st. induction offsets as [|offset offsets IH]; intros progressed st.
  { by apply paces_refl. }
  cbn [lanes]. pose proof (lane_loop_paces fuel now probe ((start + offset) `mod` 3) quantum 0 progressed st) as H.
  destruct (lane_loop _ _ _ _ _ _ _ _) as [[stop progressed'] st']. cbv beta iota.
  case_if; [exact H|]. eapply paces_trans; [exact H|apply IH].
Qed.

Lemma rounds_paces fuel lane_fuel now probe quantum st :
  paces st (rounds fuel lane_fuel now probe quantum st).2.
Proof.
  revert st. induction fuel as [|fuel IH]; intros st; [by apply paces_refl|]. cbn [rounds].
  pose proof (lanes_paces lane_fuel now probe quantum (next_lane (sched st)) [0; 1; 2] false st) as H.
  destruct (lanes _ _ _ _ _ _ _ _) as [[stop progressed] st']. cbv beta iota.
  case_if; [exact H|]. case_if; [exact H|]. eapply paces_trans; [exact H|apply IH].
Qed.

Lemma lane_loop_scheduler fuel now probe lane quantum lane_bytes progressed st :
  scheduler (queue (lane_loop fuel now probe lane quantum lane_bytes progressed st).2) = scheduler (queue st).
Proof.
  revert lane_bytes progressed st. induction fuel as [|fuel IH]; intros lane_bytes progressed st; [done|].
  cbn [lane_loop]. case_if; [done|]. destruct (lane_charge lane st) as [[charge|] cursor]; [|done].
  set (st1 := mk_round _ _ _ _ _ _ _ _). case_if; [done|]. cbv zeta.
  pose proof (lane_send_scheduler now probe lane charge st1) as E. case_if; [exact E|]. by rewrite IH.
Qed.

Lemma lanes_scheduler fuel now probe quantum start offsets progressed st :
  scheduler (queue (lanes fuel now probe quantum start offsets progressed st).2) = scheduler (queue st).
Proof.
  revert progressed st. induction offsets as [|offset offsets IH]; intros progressed st; [done|].
  cbn [lanes].
  pose proof (lane_loop_scheduler fuel now probe ((start + offset) `mod` 3) quantum 0 progressed st) as H.
  destruct (lane_loop _ _ _ _ _ _ _ _) as [[stop progressed'] st']. simpl in H.
  case_if; [exact H|]. by rewrite IH.
Qed.

Lemma rounds_scheduler fuel lane_fuel now probe quantum st :
  scheduler (queue (rounds fuel lane_fuel now probe quantum st).2) = scheduler (queue st).
Proof.
  revert st. induction fuel as [|fuel IH]; intros st; [done|]. cbn [rounds].
  pose proof (lanes_scheduler lane_fuel now probe quantum (next_lane (sched st)) [0; 1; 2] false st) as H.
  destruct (lanes _ _ _ _ _ _ _ _) as [[stop progressed] st']. simpl in H.
  case_if; [exact H|]. case_if; [exact H|]. by rewrite IH.
Qed.

Lemma flush_scheduled_paces now q s :
  scheduler q = Some s -> 0 <= SendOptions.flush_bytes (options s) ->
  sumZ size_of (frames (flush_scheduled now q).1) <= SendOptions.flush_bytes (options s) /\
  in_flight (flush_scheduled now q).2
    <= Z.max (in_flight q) (SendOptions.in_flight_frames (options s)) /\
  (forall s', scheduler (flush_scheduled now q).2 = Some s' -> options s' = options s).
Proof.
  intros Hs Hpos. unfold flush_scheduled.
  assert (keeps q (sort_if_dirty (tick now q))) as K1
    by (etransitivity; [apply tick_keeps|apply sort_if_dirty_keeps]).
  set (q1 := sort_if_dirty _) in *. clearbody q1.
  rewrite (keeps_scheduler _ _ K1), Hs. set (q1' := q1 <| scheduler := None |>).
  assert (in_flight q1' = in_flight q) as E1 by (exact (keeps_in_flight _ _ K1)).
  assert (scheduler q1' = None) as N1 by done. clearbody q1'.
  set (r2 := if recovery_policy then take_probe_packing q1' else _).
  assert (in_flight r2.2 = in_flight q) as E2.
  { unfold r2. case_if; [|done]. by rewrite (keeps_in_flight _ _ (take_probe_packing_keeps q1')). }
  assert (scheduler r2.2 = None) as N2
    by (unfold r2; case_if; [rewrite (keeps_scheduler _ _ (take_probe_packing_keeps q1'))|]; done).
  destruct r2 as [packing q2]. simpl in E2, N2.
  set (r3 := if recovery_policy then take_probe_replay q2 else _).
  assert (in_flight r3.2 = in_flight q) as E3.
  { unfold r3. case_if; [|done]. by rewrite (keeps_in_flight _ _ (take_probe_replay_keeps q2)). }
  assert (scheduler r3.2 = scheduler q2) as N3
    by (unfold r3; case_if; [apply take_probe_replay_keeps|done]).
  destruct r3 as [probe q3]. simpl in E3, N3. rewrite N2 in N3.
  cbv zeta. set (fuel := S _). clearbody fuel. set (st0 := mk_round q3 s _ _ _ _ _ _).
  destruct (rounds_paces fuel fuel now probe (mtu q2 * 4) st0) as [Ho Hb Hw].
  pose proof (rounds_scheduler fuel fuel now probe (mtu q2 * 4) st0) as Hn.
  set (st := (rounds _ _ _ _ _ _).2) in *. clearbody st. simpl in Ho, Hw, Hn.
  destruct Hb as [Hb1 Hb2]; [split; [done|exact Hpos]|]. rewrite Ho in Hb2. cbn [fst snd].
  split; [unfold output_bytes in Hb1; lia|]. set (s1 := if unreliable_drained st then _ else sched st).
  assert (options s1 = options s) as Eo
    by (unfold s1; case_if; [|done]; destruct (notify_capacity_fields (sched st)) as (_ & _ & ->); done).
  clearbody s1. split; [case_if; simpl; lia|].
  intros s'. case_if; simpl; [intros [= <-]; done|]. rewrite Hn, N3. done.
Qed.

(** A flush changes no option. *)
Lemma flush_options now q s' :
  (forall s, scheduler q = Some s -> 0 <= SendOptions.flush_bytes (options s)) ->
  scheduler (flush now q).2 = Some s' -> exists s, scheduler q = Some s /\ options s = options s'.
Proof.
  intros Hpos. unfold flush. pose proof (reset_recovery_keeps now q) as K.
  rewrite <- (keeps_scheduler _ _ K) in *. set (q1 := reset_recovery now q) in *. clearbody q1.
  destruct (scheduler q1) as [s|] eqn:Es.
  - case_if.
    + intros H. exists s. split; [done|]. symmetry.
      by apply (proj2 (proj2 (flush_scheduled_paces now q1 s Es (Hpos s eq_refl)))).
    + rewrite flush_legacy_scheduler, Es. eauto.
  - by rewrite andb_false_r, flush_legacy_scheduler, Es.
Qed.

(** Whether this flush is paced by the scheduler. *)
Definition scheduled now q : option SendScheduler :=
  match scheduler (reset_recovery now q) with
  | Some s => if send_policy && (negb (use_legacy s) || negb (Nat.eqb (length (unreliable s)) 0))
              then Some s else None
  | None => None
  end.

(** The flight window. A flush leaves at most as many frames in flight as there were,
    or as the window allows: 64, or the limit of the send options when the scheduler paces
    the flush. *)
Theorem flight_window_respected now q :
  (forall s, scheduler q = Some s -> 0 <= SendOptions.flush_bytes (options s)) ->
  zlen (sent_packet (flush now q).2) <=
    Z.max (zlen (sent_packet q))
      match scheduled now q with
      | Some s => SendOptions.in_flight_frames (options s)
      | None => 64
      end.
Proof.
  intros Hpos. unfold flush, scheduled. pose proof (reset_recovery_keeps now q) as K.
  rewrite <- (keeps_in_flight _ _ K). rewrite <- (keeps_scheduler _ _ K) in Hpos.
  set (q1 := reset_recovery now q) in *. clearbody q1.
  destruct (scheduler q1) as [s|] eqn:Es.
  - case_if; [by apply (flush_scheduled_paces now q1 s); auto|apply flush_legacy_in_flight].
  - rewrite andb_false_r. apply flush_legacy_in_flight.
Qed.

(** C39: the flush budget. When the scheduler paces a flush, the bytes of all the frames it
    sends, new, unreliable and retransmitted, are within the configured budget. *)
Theorem flush_within_budget now q s :
  scheduled now q = Some s -> 0 <= SendOptions.flush_bytes (options s) ->
  sumZ size_of (frames (flush now q).1) <= SendOptions.flush_bytes (options s).
Proof.
  intros Hs Hpos. unfold flush, scheduled in *. set (q1 := reset_recovery now q) in *. clearbody q1.
  destruct (scheduler q1) as [s'|] eqn:Es; [|discriminate]. case_if_in Hs; [|discriminate].
  injection Hs as ->. by apply flush_scheduled_paces.
Qed.
End Window.

(** ** The loops terminate *)

Section Termination.
Context {feat : Features} {usort : UnstableSort}.
Implicit Types (now : Z) (st : Round).

(** Entries that wait to be sent again. *)
Definition unsent (items : list Sent) : nat := length (List.filter (fun p => negb (sent p)) items).

(** What the lanes can still send. *)
Definition work st : nat :=
  (length (unreliable (sched st)) + unsent (drop (retry_cursor st) (sent_packet (queue st)))
   + length (packets (queue st)))%nat.

Lemma unsent_app l k : unsent (l ++ k) = (unsent l + unsent k)%nat.
Proof. unfold unsent. by rewrite List.filter_app, length_app. Qed.

Lemma unsent_le l : (unsent l <= length l)%nat.
Proof. unfold unsent. induction l as [|x l IH]; simpl; [lia|]. destruct (sent x); simpl; lia. Qed.

Lemma skip_sent_spec items cursor :
  exists k, skip_sent items cursor = (cursor + k)%nat /\ unsent (drop k items) = unsent items /\
    match drop k items with p :: _ => sent p = false | [] => True end.
Proof.
  revert cursor. induction items as [|p items IH]; intros cursor; simpl.
  { exists 0%nat. split; [lia|]. done. }
  destruct (sent p) eqn:E.
  - destruct (IH (S cursor)) as (k & Hk & Hu & Hh). exists (S k). split; [lia|]. simpl.
    split; [|done]. rewrite Hu. unfold unsent. simpl. by rewrite E.
  - exists 0%nat. split; [lia|]. by rewrite drop_0.
Qed.

(** Moving the cursor past sent entries loses no work. *)
Lemma lane_charge_work lane st charge cursor :
  lane_charge lane st = (charge, cursor) -> work (at_cursor st cursor) = work st.
Proof.
  unfold lane_charge, work. intros H. case_if_in H; [by injection H as _ <-|].
  case_if_in H; [|by injection H as _ <-]. case_if_in H; [by injection H as _ <-|].
  injection H as _ <-. simpl.
  destruct (skip_sent_spec (drop (retry_cursor st) (sent_packet (queue st))) (retry_cursor st))
    as (k & -> & Hu & _). rewrite drop_drop in Hu. by rewrite Hu.
Qed.

Lemma launch_unsent cursor now f q :
  unsent (drop cursor (sent_packet (launch now f q))) = unsent (drop cursor (sent_packet q)).
Proof.
  assert (sent_packet (launch now f q) = sent_packet q ++ [mk_sent f true now 0 []]) as ->.
  { unfold launch. by destruct (list.last _); [case_if|]. }
  rewrite skipn_app, unsent_app.
  assert (forall n, unsent (drop n [mk_sent f true now 0 []]) = 0%nat) as ->; [|lia].
  intros [|n]; [done|]. cbn [drop]. by rewrite drop_nil.
Qed.

(** Every frame a lane sends is one less to send. *)
Lemma lane_send_work now probe lane st charge cursor :
  lane_charge lane st = (Some charge, cursor) ->
  (work (lane_send now probe lane charge (at_cursor st cursor)) < work st)%nat.
Proof.
  intros H. pose proof (lane_charge_work _ _ _ _ H) as Hw. rewrite <- Hw. clear Hw.
  unfold lane_charge in H. unfold lane_send, work, at_cursor. cbn [queue sched retry_cursor output group flight_bytes].
  case_if_in H; [|case_if_in H].
  - destruct (unreliable (sched st)) as [|p rest]; [discriminate|]. simpl. lia.
  - case_if_in H; [discriminate|]. injection H as Hc Hcur.
    destruct (skip_sent_spec (drop (retry_cursor st) (sent_packet (queue st))) (retry_cursor st))
      as (k & Ek & _ & Hhead). rewrite Ek in *. subst cursor. rewrite drop_drop in Hhead.
    destruct (sent_packet (queue st) !! _) as [item|] eqn:Ei; [|discriminate].
    rewrite (drop_S _ item) in Hhead by done.
    pose proof (resent_body now probe item (queue st)) as Hb.
    destruct (resent now probe item (queue st)) as [item' q1] eqn:Er. destruct Hb as (_ & [Kp _ _ _ _ _ _ _] & Hs).
    cbn [queue sched retry_cursor]. change (sent_packet (q1 <| sent_packet := ?l |>)) with l.
    change (packets (q1 <| sent_packet := ?l |>)) with (packets q1). rewrite Kp, Hs.
    rewrite (drop_S (sent_packet (queue st)) item) by done.
    rewrite drop_insert_lt by lia. unfold unsent. simpl. rewrite Hhead. simpl. lia.
  - destruct (packets (queue st)) as [|p rest]; [discriminate|].
    set (q1 := queue st <| packets := rest |>).
    pose proof (assign_group_facts (coalesce q1 && packable p) p (group st) (output st) q1) as Hg.
    destruct (assign_group _ _ _ _ _) as [[[p' g'] out'] q2]. destruct Hg as (_ & [Kp _ _ _ _ _ _ _] & _ & Es & _).
    cbn [queue sched retry_cursor].
    destruct (launch_fields now p' q2) as (-> & _). rewrite launch_unsent, Kp, Es. simpl. lia.
Qed.

(** With fuel above the work left, a lane's loop ends by its own conditions: more fuel
    changes nothing. *)
Lemma lane_loop_fuel fuel fuel' now probe lane quantum lane_bytes progressed st :
  (work st < fuel)%nat -> (work st < fuel')%nat ->
  lane_loop fuel now probe lane quantum lane_bytes progressed st
    = lane_loop fuel' now probe lane quantum lane_bytes progressed st.
Proof.
  revert fuel' lane_bytes progressed st.
  induction fuel as [|fuel IH]; intros [|fuel'] lane_bytes progressed st H1 H2; try lia.
  cbn [lane_loop]. case_if; [done|].
  destruct (lane_charge lane st) as [[charge|] cursor] eqn:Ec; [|done]. fold (at_cursor st cursor).
  cbv zeta. case_if; [done|].
  pose proof (lane_send_work now probe lane st charge cursor Ec) as Hw. case_if; [done|].
  apply IH; unfold work in *; simpl in *; lia.
Qed.

(** A lane does not add work, and does less when it reports progress. *)
Lemma lane_loop_work fuel now probe lane quantum lane_bytes progressed st :
  let '(_, progressed', st') := lane_loop fuel now probe lane quantum lane_bytes progressed st in
  (work st' <= work st)%nat /\ (progressed' = true -> progressed = false -> (work st' < work st)%nat).
Proof.
  revert lane_bytes progressed st. induction fuel as [|fuel IH]; intros lane_bytes progressed st.
  { simpl. split; [lia|congruence]. }
  cbn [lane_loop]. case_if; [split; [lia|congruence]|].
  destruct (lane_charge lane st) as [charge cursor] eqn:Ec. fold (at_cursor st cursor).
  pose proof (lane_charge_work _ _ _ _ Ec) as Hcw.
  destruct charge as [charge|]; [|split; [lia|congruence]]. cbv zeta.
  case_if; [split; [lia|congruence]|].
  pose proof (lane_send_work now probe lane st charge cursor Ec) as Hw.
  set (st2 := lane_send _ _ _ _ _) in *. set (st3 := mk_round _ (sched st2 <| next_lane := _ |>) _ _ _ _ _ _).
  assert (work st3 = work st2) as E3 by done. case_if; [split; lia|].
  specialize (IH (lane_bytes + charge) true st3).
  destruct (lane_loop fuel _ _ _ _ _ _ st3) as [[stop progressed'] st']. destruct IH as [IH1 _].
  split; lia.
Qed.

Lemma lanes_fuel fuel fuel' now probe quantum start offsets progressed st :
  (work st < fuel)%nat -> (work st < fuel')%nat ->
  lanes fuel now probe quantum start offsets progressed st
    = lanes fuel' now probe quantum start offsets progressed st.
Proof.
  revert progressed st. induction offsets as [|offset offsets IH]; intros progressed st H1 H2; [done|].
  cbn [lanes]. rewrite (lane_loop_fuel fuel fuel') by done.
  pose proof (lane_loop_work fuel' now probe ((start + offset) `mod` 3) quantum 0 progressed st) as Hw.
  destruct (lane_loop fuel' _ _ _ _ _ _ _) as [[stop progressed'] st']. destruct Hw as [Hw _].
  case_if; [done|]. apply IH; lia.
Qed.

Lemma lanes_work fuel now probe quantum start offsets progressed st :
  let '(_, progressed', st') := lanes fuel now probe quantum start offsets progressed st in
  (work st' <= work st)%nat /\ (progressed' = true -> progressed = false -> (work st' < work st)%nat).
Proof.
  revert progressed st. induction offsets as [|offset offsets IH]; intros progressed st.
  { simpl. split; [lia|congruence]. }
  cbn [lanes]. pose proof (lane_loop_work fuel now probe ((start + offset) `mod` 3) quantum 0 progressed st) as Hw.
  destruct (lane_loop fuel _ _ _ _ _ _ _) as [[stop progressed'] st'].
  case_if; [exact Hw|]. destruct Hw as [Hw1 Hw2].
  specialize (IH progressed' st'). destruct (lanes _ _ _ _ _ offsets _ st') as [[stop2 progressed2] st2].
  destruct IH as [IH1 IH2]. split; [lia|]. intros -> ->. destruct progressed'; [|by specialize (IH2 eq_refl eq_refl); lia].
  specialize (Hw2 eq_refl eq_refl). lia.
Qed.

Lemma rounds_fuel fuel fuel' lane_fuel lane_fuel' now probe quantum st :
  (work st < fuel)%nat -> (work st < fuel')%nat -> (work st < lane_fuel)%nat -> (work st < lane_fuel')%nat ->
  rounds fuel lane_fuel now probe quantum st = rounds fuel' lane_fuel' now probe quantum st.
Proof.
  revert fuel' st. induction fuel as [|fuel IH]; intros [|fuel'] st H1 H2 H3 H4; try lia.
  cbn [rounds]. rewrite (lanes_fuel lane_fuel lane_fuel') by done.
  pose proof (lanes_work lane_fuel' now probe quantum (next_lane (sched st)) [0; 1; 2] false st) as Hw.
  destruct (lanes lane_fuel' _ _ _ _ _ _ _) as [[stop progressed] st']. destruct Hw as [_ Hw].
  case_if; [done|]. destruct progressed; [|done]. specialize (Hw eq_refl eq_refl).
  simpl. apply IH; lia.
Qed.

(** ... and the loops do end by their own conditions, not because the fuel is spent. *)
Lemma lane_loop_ends fuel now probe lane quantum lane_bytes progressed st :
  (work st < fuel)%nat -> (lane_loop fuel now probe lane quantum lane_bytes progressed st).1.1 <> OutOfFuel.
Proof.
  revert lane_bytes progressed st. induction fuel as [|fuel IH]; intros lane_bytes progressed st Hf; [lia|].
  cbn [lane_loop]. case_if; [done|]. destruct (lane_charge lane st) as [[charge|] cursor] eqn:Ec; [|done].
  fold (at_cursor st cursor). cbv zeta. case_if; [done|].
  pose proof (lane_send_work now probe lane st charge cursor Ec) as Hw. case_if; [done|].
  apply IH. unfold work in *. simpl in *. lia.
Qed.

Lemma lanes_end fuel now probe quantum start offsets progressed st :
  (work st < fuel)%nat -> (lanes fuel now probe quantum start offsets progressed st).1.1 <> OutOfFuel.
Proof.
  revert progressed st. induction offsets as [|offset offsets IH]; intros progressed st Hf; [done|]. cbn [lanes].
  pose proof (lane_loop_ends fuel now probe ((start + offset) `mod` 3) quantum 0 progressed st Hf) as He.
  pose proof (lane_loop_work fuel now probe ((start + offset) `mod` 3) quantum 0 progressed st) as Hw.
  destruct (lane_loop fuel _ _ _ _ _ _ _) as [[exit progressed'] st']. case_if; [done|]. apply IH. lia.
Qed.

Lemma rounds_end fuel lane_fuel now probe quantum st :
  (work st < fuel)%nat -> (work st < lane_fuel)%nat ->
  (rounds fuel lane_fuel now probe quantum st).1 <> OutOfFuel.
Proof.
  revert st. induction fuel as [|fuel IH]; intros st H1 H2; [lia|]. cbn [rounds].
  pose proof (lanes_end lane_fuel now probe quantum (next_lane (sched st)) [0; 1; 2] false st H2) as He.
  pose proof (lanes_work lane_fuel now probe quantum (next_lane (sched st)) [0; 1; 2] false st) as Hw.
  destruct (lanes lane_fuel _ _ _ _ _ _ _) as [[exit progressed] st']. destruct Hw as [_ Hw]. case_if; [done|].
  destruct progressed; [|done]. specialize (Hw eq_refl eq_refl). simpl. apply IH; lia.
Qed.

(** *** How the rounds end *)

(** The lane has nothing, or nothing that fits the budget. *)
Definition idle_lane (lane : Z) st : Prop :=
  forall charge, (lane_charge lane st).1 = Some charge ->
    SendOptions.flush_bytes (options (sched st)) < burst st + charge.

(** Moving the cursor past sent entries changes what no lane sends next. *)
Lemma lane_charge_again lane lane' st :
  (lane_charge lane' (at_cursor st (lane_charge lane st).2)).1 = (lane_charge lane' st).1.
Proof.
  assert (at_cursor st (retry_cursor st) = st) as Eid by (by destruct st).
  remember (lane_charge lane st).2 as cursor eqn:Ec. unfold lane_charge in Ec.
  case_if_in Ec; [simpl in Ec; by rewrite Ec, Eid|]. case_if_in Ec; [|simpl in Ec; by rewrite Ec, Eid].
  case_if_in Ec; [simpl in Ec; by rewrite Ec, Eid|]. simpl in Ec. subst cursor.
  destruct (skip_sent_spec (drop (retry_cursor st) (sent_packet (queue st))) (retry_cursor st)) as (k & Ek & _ & Hh).
  unfold lane_charge, at_cursor. simpl. rewrite Ek, Heqb1. rewrite drop_drop in Hh.
  assert (skip_sent (drop (retry_cursor st + k) (sent_packet (queue st))) (retry_cursor st + k)
    = (retry_cursor st + k)%nat) as ->; [|by repeat case_if].
  destruct (drop (retry_cursor st + k) (sent_packet (queue st))) as [|p l]; simpl; [done|]. by rewrite Hh.
Qed.

Lemma lane_loop_keeps_progress fuel now probe lane quantum lane_bytes st :
  (lane_loop fuel now probe lane quantum lane_bytes true st).1.2 = true.
Proof.
  revert lane_bytes st. induction fuel as [|fuel IH]; intros lane_bytes st; cbn [lane_loop]; [done|].
  case_if; [done|]. destruct (lane_charge lane st) as [[charge|] cursor]; [|done]. cbv zeta.
  case_if; [done|]. case_if; [done|apply IH].
Qed.

Lemma lanes_keep_progress fuel now probe quantum start offsets st :
  (lanes fuel now probe quantum start offsets true st).1.2 = true.
Proof.
  revert st. induction offsets as [|offset offsets IH]; intros st; cbn [lanes]; [done|].
  pose proof (lane_loop_keeps_progress fuel now probe ((start + offset) `mod` 3) quantum 0 st) as Hp.
  destruct (lane_loop _ _ _ _ _ _ _ _) as [[exit progressed] st']. simpl in Hp. subst progressed. by case_if.
Qed.

(** A lane that sends nothing is idle. *)
Lemma lane_loop_idle fuel now probe lane quantum st :
  (0 < fuel)%nat -> 0 < quantum ->
  let '(exit, progressed, st') := lane_loop fuel now probe lane quantum 0 false st in
  leaves_rounds exit = false -> progressed = false ->
  idle_lane lane st' /\ forall lane', idle_lane lane' st -> idle_lane lane' st'.
Proof.
  intros Hf Hq. destruct fuel as [|fuel]; [lia|]. cbn [lane_loop]. rewrite (proj2 (Z.ltb_lt 0 quantum)) by done. simpl negb. cbv iota.
  pose proof (fun lane' => lane_charge_again lane lane' st) as Ha.
  destruct (lane_charge lane st) as [charge cursor] eqn:Ec. fold (at_cursor st cursor). cbn [snd] in Ha.
  assert (forall lane', idle_lane lane' st -> idle_lane lane' (at_cursor st cursor)) as Hk
    by (intros lane' Hi; unfold idle_lane; rewrite Ha; exact Hi).
  destruct charge as [charge|].
  - cbv zeta. case_if.
    + intros _ _. split; [|done]. unfold idle_lane. rewrite Ha, Ec. intros c [= <-]. simpl in *. blia.
    + case_if; [done|].
      match goal with |- context [lane_loop fuel now probe lane quantum ?b true ?x] =>
        pose proof (lane_loop_keeps_progress fuel now probe lane quantum b x) as Hp end.
      destruct (lane_loop fuel _ _ _ _ _ true _) as [[exit p'] st']. simpl in Hp. congruence.
  - intros _ _. split; [|done]. unfold idle_lane. by rewrite Ha, Ec.
Qed.

Lemma lanes_idle fuel now probe quantum start offsets st :
  (0 < fuel)%nat -> 0 < quantum ->
  let '(exit, progressed, st') := lanes fuel now probe quantum start offsets false st in
  leaves_rounds exit = false -> progressed = false ->
  (forall offset, offset ∈ offsets -> idle_lane ((start + offset) `mod` 3) st') /\
  forall lane, idle_lane lane st -> idle_lane lane st'.
Proof.
  intros Hf Hq. revert st. induction offsets as [|offset offsets IH]; intros st; cbn [lanes].
  { intros _ _. split; [|done]. by intros ? ?%not_elem_of_nil. }
  pose proof (lane_loop_idle fuel now probe ((start + offset) `mod` 3) quantum st Hf Hq) as Hl.
  destruct (lane_loop _ _ _ _ _ _ _ _) as [[exit [|]] st1] eqn:El.
  - destruct (leaves_rounds exit) eqn:Ex; [congruence|].
    pose proof (lanes_keep_progress fuel now probe quantum start offsets st1) as Hp.
    destruct (lanes _ _ _ _ _ _ _ st1) as [[exit' p'] st2]. simpl in Hp. congruence.
  - destruct (leaves_rounds exit) eqn:Ex; [congruence|]. destruct (Hl eq_refl eq_refl) as [H1 H2].
    specialize (IH st1). destruct (lanes _ _ _ _ _ _ _ st1) as [[exit' p'] st2]. intros Hx Hp.
    destruct (IH Hx Hp) as [H3 H4]. split; [|by auto].
    intros o [->|Ho]%elem_of_cons; [by apply H4|by apply H3].
Qed.

Lemma rounds_idle fuel lane_fuel now probe quantum st lane :
  (0 < lane_fuel)%nat -> 0 < quantum -> 0 <= lane < 3 ->
  (rounds fuel lane_fuel now probe quantum st).1 = Done ->
  idle_lane lane (rounds fuel lane_fuel now probe quantum st).2.
Proof.
  intros Hf Hq Hlane. revert st. induction fuel as [|fuel IH]; intros st; [done|]. cbn [rounds].
  pose proof (lanes_idle lane_fuel now probe quantum (next_lane (sched st)) [0; 1; 2] st Hf Hq) as Hl.
  destruct (lanes _ _ _ _ _ _ _ _) as [[exit progressed] st'].
  destruct (leaves_rounds exit) eqn:Ex; [by destruct exit|]. destruct progressed; [apply IH|]. intros _.
  destruct (Hl eq_refl eq_refl) as [Hi _]. set (start := next_lane (sched st)) in *.
  replace lane with ((start + (lane - start) `mod` 3) `mod` 3)
    by (rewrite Z.add_mod_idemp_r by lia; rewrite Z.add_sub_assoc, Z.add_simpl_l; by apply Z.mod_small).
  apply Hi. pose proof (Z.mod_pos_bound (lane - start) 3 ltac:(lia)).
  assert ((lane - start) `mod` 3 = 0 \/ (lane - start) `mod` 3 = 1 \/ (lane - start) `mod` 3 = 2) as Hc by lia.
  destruct Hc as [->|[->| ->]]; set_solver.
Qed.

(** A round left by [break 'rounds] has spent the burst. *)
Lemma lane_loop_burst fuel now probe lane quantum lane_bytes progressed st :
  let '(exit, _, st') := lane_loop fuel now probe lane quantum lane_bytes progressed st in
  exit = BurstSpent -> burst st' = SendOptions.flush_bytes (options (sched st')).
Proof.
  revert lane_bytes progressed st. induction fuel as [|fuel IH]; intros lane_bytes progressed st; cbn [lane_loop]; [done|].
  case_if; [done|]. destruct (lane_charge lane st) as [[charge|] cursor]; [|done]. cbv zeta. case_if; [done|].
  case_if; [|apply IH]. intros _. by b2p.
Qed.

Lemma lanes_burst fuel now probe quantum start offsets progressed st :
  let '(exit, _, st') := lanes fuel now probe quantum start offsets progressed st in
  exit = BurstSpent -> burst st' = SendOptions.flush_bytes (options (sched st')).
Proof.
  revert progressed st. induction offsets as [|offset offsets IH]; intros progressed st; cbn [lanes]; [done|].
  pose proof (lane_loop_burst fuel now probe ((start + offset) `mod` 3) quantum 0 progressed st) as Hb.
  destruct (lane_loop _ _ _ _ _ _ _ _) as [[exit progressed'] st']. case_if; [exact Hb|apply IH].
Qed.

Lemma rounds_burst fuel lane_fuel now probe quantum st :
  (rounds fuel lane_fuel now probe quantum st).1 = BurstSpent ->
  burst (rounds fuel lane_fuel now probe quantum st).2
    = SendOptions.flush_bytes (options (sched (rounds fuel lane_fuel now probe quantum st).2)).
Proof.
  revert st. induction fuel as [|fuel IH]; intros st; [done|]. cbn [rounds].
  pose proof (lanes_burst lane_fuel now probe quantum (next_lane (sched st)) [0; 1; 2] false st) as Hb.
  destruct (lanes _ _ _ _ _ _ _ _) as [[exit progressed] st']. case_if; [exact Hb|]. case_if; [done|apply IH].
Qed.

(** C38: the scheduler's flush terminates. However many frames wait and whatever the limits,
    its loop of rounds is left by one of its own exits, never for want of iterations, once it
    is given one more iteration than frames wait, as is the loop of every lane, and no larger
    number changes the result. It is left by [break 'rounds] only with the burst of the
    options spent to the byte, and after a round without progress only if each of the three
    lanes has nothing to send, or nothing that fits what is left of the burst. *)
Theorem scheduled_rounds_terminate now probe quantum st :
  let n := (length (unreliable (sched st)) + length (sent_packet (queue st))
            + length (packets (queue st)))%nat in
  exists exit st',
    (forall fuel lane_fuel, (n < fuel)%nat -> (n < lane_fuel)%nat ->
       rounds fuel lane_fuel now probe quantum st = (exit, st')) /\
    exit <> OutOfFuel /\
    (exit = BurstSpent -> burst st' = SendOptions.flush_bytes (options (sched st'))) /\
    (exit = Done -> 0 < quantum -> forall lane, 0 <= lane < 3 -> idle_lane lane st').
Proof.
  intros n. assert (work st <= n)%nat as Hn.
  { unfold work. pose proof (unsent_le (drop (retry_cursor st) (sent_packet (queue st)))) as H.
    rewrite length_drop in H. lia. }
  exists (rounds (S n) (S n) now probe quantum st).1, (rounds (S n) (S n) now probe quantum st).2. split_and!.
  - intros fuel lane_fuel H1 H2. rewrite <- surjective_pairing. apply rounds_fuel; lia.
  - apply rounds_end; lia.
  - apply rounds_burst.
  - intros Hd Hq lane Hl. apply rounds_idle; [lia|done..].
Qed.
End Termination.

(** ** The theorems at work *)

(** A connection that allows two frames in flight and 2048 bytes in a flush. *)
Definition sample_limits : SendOptions := SendOptions.mk 2 4096 65536 65536 2048.

Definition sample_paced : SendQ :=
  @run all_features merge_sort_flight 1500
    [SetSendOptions sample_limits;
     Insert Reliability.ReliableOrdered (repeat 1 900) 0 false;
     Insert Reliability.ReliableOrdered (repeat 2 900) 0 false;
     Insert Reliability.Reliable [3] 0 false;
     Insert Reliability.Unreliable (repeat 4 900) 0 false].

Lemma flight_window_respected_witness :
  zlen (sent_packet (@flush all_features merge_sort_flight 10 sample_paced).2) <= 2 /\
  zlen (packets sample_paced) = 3.
Proof.
  split; [|vm_compute; reflexivity].
  pose proof (@flight_window_respected all_features merge_sort_flight 10 sample_paced) as H.
  etransitivity; [apply H|].
  - intros s Hs. vm_compute in Hs. injection Hs as <-. vm_compute. congruence.
  - vm_compute. congruence.
Defined.

Lemma flush_within_budget_witness :
  exists s, @scheduled all_features 10 sample_paced = Some s /\
    sumZ size_of (frames (@flush all_features merge_sort_flight 10 sample_paced).1)
      <= SendOptions.flush_bytes (options s).
Proof.
  eexists. split; [vm_compute; reflexivity|].
  apply (@flush_within_budget all_features merge_sort_flight 10 sample_paced).
  - vm_compute. reflexivity.
  - vm_compute. congruence.
Defined.

Definition sample_round : Round :=
  mk_round (sample_paced <| scheduler := None |>)
    (mk_scheduler None sample_limits [] 0 false true 2) (mk_outgoing [] false) 0 0 no_group 0 false.

Lemma scheduled_rounds_terminate_witness :
  exists exit st', @rounds all_features 1000 1000 10 None 6000 sample_round = (exit, st') /\
    exit <> OutOfFuel /\ output st' = output (@rounds all_features 4 4 10 None 6000 sample_round).2.
Proof.
  destruct (@scheduled_rounds_terminate all_features 10 None 6000 sample_round) as (exit & st' & Hr & He & _).
  exists exit, st'. split; [apply Hr; vm_compute; lia|]. split; [exact He|].
  rewrite (Hr 4%nat 4%nat); [reflexivity|vm_compute; lia..].
Defined.
