(* ===== verification/Sending.v ===== *)
(** * Sending under the queue's lock

    The critical sections of [send_payload] and [send_batch_payload] of
    [src/src/socket.rs]: the capacity check, the insertions and the flush that happen while
    the lock on the send queue is held, and the insertions of [handle]. A capacity check that succeeds is a promise: every
    insertion after it succeeds, so a batch is never admitted in part. *)

From S2P Require Import Prelude Errors Sequence Frame FrameCodec Fragment RecvQ SendOptions SendQ SendQInv SendQInsert SendQFlow SendQRun SendQSched.
Import SendQ.

Section Operations.
Context {feat : Features} {usort : UnstableSort}.

Definition flush_frames (now : Z) : SE SendQ (option OutgoingFrames) := fun sendq =>
  let '(frames, sendq) := flush now sendq in (Ok (Some frames), sendq).

(** [None]: no capacity, the caller waits. The clock is read at the flush. *)
Definition send_payload_locked (r : Reliability) (buf : list Z) (order_channel : Z) (owned : bool)
    (now : Z) : SE SendQ (option OutgoingFrames) :=
  sendq ← get;
  capacity ← lift (has_capacity sendq r (zlen buf));
  if capacity : bool then
    _ ← (if owned then insert_bytes r buf order_channel
         else insert_with_order_channel r buf order_channel);
    flush_frames now
  else mret None.

(** [for message in messages { queue.insert...(..)?; }] *)
Fixpoint insert_messages (r : Reliability) (messages : list (list Z)) (order_channel : Z) (owned : bool)
    : SE SendQ unit :=
  match messages with
  | [] => mret tt
  | message :: messages =>
      _ ← insert_payload r message order_channel owned;
      insert_messages r messages order_channel owned
  end.

Definition send_batch_locked (borrowed owned : list (list Z)) (r : Reliability) (order_channel now : Z)
    : SE SendQ (option OutgoingFrames) :=
  queue ← get;
  capacity ← lift (has_batch_capacity queue r (map (fun m => zlen m) (borrowed ++ owned)));
  if capacity : bool then
    _ ← (if bool_decide (r = Reliability.ReliableOrdered) then modify enable_coalescing else mret tt);
    _ ← insert_messages r borrowed order_channel false;
    _ ← insert_messages r owned order_channel true;
    flush_frames now
  else mret None.

(** The insertions of [handle], up to the first that fails. *)
Fixpoint insert_replies (packets : list (Reliability * list Z)) : SE SendQ unit :=
  match packets with
  | [] => mret tt
  | (r, buf) :: packets => _ ← SendQ.insert r buf; insert_replies packets
  end.

End Operations.

Section Capacity.
Context {feat : Features} {usort : UnstableSort}.
Implicit Types (q : SendQ) (r : Reliability).

(** The bytes a batch reserves. *)
Definition batch_bytes q r (lengths : list Z) : Z := sumZ (reserved_bytes q r) lengths.

(** Every message of the batch could be admitted into an empty queue. *)
Definition admissible q r (len : Z) : Prop :=
  60 < mtu q /\ frames_needed q r len <= MAX_FRAGMENTS.

Lemma required_ok q r len n :
  required_bytes q r len = Ok n ->
  n = reserved_bytes q r len /\ admissible q r len /\ n <= MAX_BUFFERED_BYTES.
Proof.
  rewrite required_bytes_spec. case_bool_decide as H; [|discriminate]. intros [= <-].
  destruct H as (? & ? & ?). done.
Qed.

Lemma batch_required_ok q r lengths total n :
  batch_required q r lengths total = Ok n ->
  n = total + batch_bytes q r lengths /\ Forall (admissible q r) lengths /\
  (total <= MAX_BUFFERED_BYTES -> n <= MAX_BUFFERED_BYTES).
Proof.
  revert total. induction lengths as [|len lengths IH]; intros total H; simpl in H.
  { injection H as <-. split; [unfold batch_bytes; simpl; lia|]. split; [constructor|done]. }
  destruct (required_bytes q r len) as [m|e] eqn:E; [|discriminate]. simpl in H.
  apply required_ok in E as (-> & Ha & _). case_if_in H; [|discriminate].
  apply IH in H as (-> & Hf & Hm). split; [unfold batch_bytes; simpl; lia|].
  split; [by constructor|]. intros _. apply Hm. blia.
Qed.

Lemma reserved_room q r n :
  (forall s, scheduler q = Some s -> SendOptions.valid (options s)) ->
  0 <= buffered_bytes q <= MAX_BUFFERED_BYTES -> 0 <= n <= MAX_BUFFERED_BYTES ->
  has_reserved_capacity q r n = Ok true -> buffered_bytes q + n <= MAX_BUFFERED_BYTES.
Proof.
  intros Hv Hb Hn. unfold has_reserved_capacity, sat_usize, U64_MAX, SEND_HIGH_WATER, MAX_BUFFERED_BYTES in *.
  destruct (scheduler q) as [s|]; [|intros [= H]; lia].
  destruct (Hv s eq_refl) as [_ _ _ Hu Hq _]. unfold SendOptions.MAX_BYTES in Hq.
  case_if; [intros [= H]; lia|]. destruct (is_unreliable r).
  - destruct (_ <? n); [discriminate|]. intros [= H]. blia.
  - destruct (_ <? n); [discriminate|]. intros [= H]. blia.
Qed.

Lemma high_water_room q n :
  0 <= buffered_bytes q <= MAX_BUFFERED_BYTES -> 0 <= n <= MAX_BUFFERED_BYTES ->
  sat_usize (buffered_bytes q + n) <=? Z.max SEND_HIGH_WATER n = true ->
  buffered_bytes q + n <= MAX_BUFFERED_BYTES.
Proof. unfold sat_usize, U64_MAX, SEND_HIGH_WATER, MAX_BUFFERED_BYTES. lia. Qed.

Lemma frames_needed_pos q r len : 60 < mtu q -> 0 <= len -> 1 <= frames_needed q r len.
Proof.
  intros Hm Hl. unfold frames_needed. case_if; [|lia]. b2p.
  pose proof (div_ceil_bounds len (mtu q - 60) ltac:(lia) ltac:(lia)). nia.
Qed.

Lemma reserved_bytes_nonneg q r len : 60 < mtu q -> 0 <= len -> 0 <= reserved_bytes q r len.
Proof.
  intros Hm Hl. pose proof (frames_needed_pos q r len Hm Hl). unfold reserved_bytes, FRAME_BUDGET. lia.
Qed.

Lemma capacity_accepts q r len :
  (forall s, scheduler q = Some s -> SendOptions.valid (options s)) ->
  0 <= buffered_bytes q <= MAX_BUFFERED_BYTES -> 0 <= len ->
  r = Reliability.ReliableOrdered \/ len <= mtu q - 60 ->
  has_capacity q r len = Ok true -> accepts q r len.
Proof.
  intros Hv Hb Hl Hfit H. unfold has_capacity in H.
  destruct (required_bytes q r len) as [n|e] eqn:E; [|discriminate]. simpl in H.
  apply required_ok in E as (-> & [Hm Hfr] & Hmax).
  pose proof (reserved_bytes_nonneg q r len Hm Hl) as Hpos.
  assert (buffered_bytes q + reserved_bytes q r len <= MAX_BUFFERED_BYTES) as Hroom.
  { destruct send_policy; [by apply (reserved_room q r)|].
    injection H as H. by apply high_water_room. }
  split; [done|]. split; [done|]. split; [done|]. unfold reserved_bytes in Hroom. lia.
Qed.

Lemma batch_capacity_room q r lengths :
  (forall s, scheduler q = Some s -> SendOptions.valid (options s)) ->
  0 <= buffered_bytes q <= MAX_BUFFERED_BYTES -> Forall (fun len => 0 <= len) lengths ->
  has_batch_capacity q r lengths = Ok true ->
  buffered_bytes q + batch_bytes q r lengths <= MAX_BUFFERED_BYTES /\ Forall (admissible q r) lengths.
Proof.
  intros Hv Hb Hl H. unfold has_batch_capacity in H.
  destruct (batch_required q r lengths 0) as [n|e] eqn:E; [|discriminate]. simpl in H.
  apply batch_required_ok in E as (-> & Hall & Hmax). split; [|done].
  assert (0 <= batch_bytes q r lengths) as Hpos.
  { apply sumZ_nonneg. intros len Hin. rewrite list.Forall_forall in Hall, Hl.
    apply reserved_bytes_nonneg; [apply (Hall len Hin)|by apply Hl]. }
  unfold MAX_BUFFERED_BYTES in Hmax. specialize (Hmax ltac:(lia)).
  rewrite Z.add_0_l in *.
  assert (0 <= batch_bytes q r lengths <= MAX_BUFFERED_BYTES) as Hrange by (unfold MAX_BUFFERED_BYTES; lia).
  destruct send_policy; [|injection H as H; by apply high_water_room].
  unfold has_batch_required_capacity in H. case_if_in H; [discriminate|]. by apply (reserved_room q r).
Qed.

(** The payloads of the frames, joined. *)
Definition payload_of (fs : list FrameSetPacket) : list Z :=
  concat (map (fun f => FramePayload.deref (data f)) fs).

(** Messages that fit together are all admitted. *)
Lemma insert_messages_ok r messages channel owned q :
  sendq_inv q -> in_range 16 (mtu q) ->
  Forall (fun m => admissible q r (zlen m) /\ (r = Reliability.ReliableOrdered \/ zlen m <= mtu q - 60)) messages ->
  buffered_bytes q + batch_bytes q r (map (fun m => zlen m) messages) <= MAX_BUFFERED_BYTES ->
  exists q' fss, insert_messages r messages channel owned q = (Ok tt, q') /\ sendq_inv q' /\ mtu q' = mtu q /\
    buffered_bytes q' = buffered_bytes q + batch_bytes q r (map (fun m => zlen m) messages) /\
    holdings q' ≡ₚ map body (concat fss) ++ holdings q /\ map payload_of fss = messages.
Proof.
  revert q. induction messages as [|m messages IH]; intros q Hq Hm Hall Hroom.
  { exists q, []. simpl. do 3 (split; [done|]). split; [unfold batch_bytes; simpl; lia|done]. }
  inversion Hall as [|? ? [[Hmtu Hfr] Hfit] Hall']; subst. cbn [insert_messages].
  pose proof (inv_bytes _ _ Hq) as [Hb _].
  assert (0 <= batch_bytes q r (map (fun m => zlen m) messages)) as Hpos.
  { apply sumZ_nonneg. intros len (m' & -> & _)%list_elem_of_fmap. apply reserved_bytes_nonneg; [done|lia]. }
  unfold batch_bytes in Hroom, Hpos |- *. cbn [map sumZ foldr] in Hroom |- *.
  fold (sumZ (reserved_bytes q r) (map (fun m => zlen m) messages)) in Hroom |- *.
  destruct (insert_payload_cases r m channel owned q Hb) as [(Hn & _)|(_ & q1 & E & _)].
  { exfalso. apply Hn. split; [done|]. split; [done|]. split; [done|]. unfold reserved_bytes at 1 in Hroom. lia. }
  erewrite SE_bind_ok by (exact E).
  destruct (insert_adds r m channel owned q q1 Hq Hm E) as (fs & Hh & _ & Hp & _ & Eb).
  pose proof (insert_payload_inv r m channel owned q Hq Hm) as Hq1. rewrite E in Hq1. simpl in Hq1.
  pose proof (insert_payload_mtu r m channel owned q Hq) as Em. rewrite E in Em. simpl in Em.
  assert (forall len, reserved_bytes q1 r len = reserved_bytes q r len) as Er
    by (intros; unfold reserved_bytes, frames_needed; by rewrite Em).
  destruct (IH q1) as (q' & fss & E' & Hq' & Em' & Eb' & Hh' & Hp'); [done|congruence| | |].
  - unfold admissible, frames_needed. rewrite Em. exact Hall'.
  - unfold batch_bytes. rewrite (sumZ_ext _ (reserved_bytes q r)) by (intros; apply Er). rewrite Eb. lia.
  - exists q', (fs :: fss). split; [done|]. split; [done|]. split; [congruence|]. split.
    + rewrite Eb', Eb. unfold batch_bytes. rewrite (sumZ_ext _ (reserved_bytes q r)) by (intros; apply Er). lia.
    + simpl. rewrite Hh', Hh, map_app, Hp'. unfold payload_of at 1. rewrite Hp. split; [solve_Permutation|done].
Qed.

(** The scheduler's options after a history whose options come from the builders. *)
Definition valid_event (e : event) : Prop :=
  match e with SetSendOptions opts => SendOptions.valid opts | _ => True end.

Definition valid_options q : Prop := forall s, scheduler q = Some s -> SendOptions.valid (options s).

Lemma same_options_valid q q' :
  (forall s', scheduler q' = Some s' -> exists s, scheduler q = Some s /\ options s = options s') ->
  valid_options q -> valid_options q'.
Proof. intros H Hv s' Hs'. destruct (H s' Hs') as (s & Hs & <-). by apply Hv. Qed.

Lemma insert_payload_options r buf channel owned q s' :
  sendq_inv q -> scheduler (insert_payload r buf channel owned q).2 = Some s' ->
  exists s, scheduler q = Some s /\ options s = options s'.
Proof.
  intros Hq. pose proof (inv_bytes _ _ Hq) as [Hb _].
  destruct (insert_payload_cases r buf channel owned q Hb) as [(_ & ->)|(_ & q1 & -> & Hk)]; [by eauto|].
  simpl. rewrite (keeps_scheduler _ _ Hk). simpl. case_if; [by eauto|].
  unfold admit_whole, push_unreliable. case_if; [by eauto|]. case_if; [|by eauto].
  destruct (scheduler q) as [s|] eqn:E; simpl; [|by rewrite E]. intros [= <-]. eauto.
Qed.

Lemma set_send_options_valid opts q :
  SendOptions.valid opts -> valid_options q -> valid_options (set_send_options opts q).2.
Proof.
  intros Ho Hv. unfold set_send_options. case_if; [done|]. cbn [snd].
  destruct (scheduler (ensure_scheduler q)) eqn:E; [|intros s Hs; congruence].
  by intros s' [= <-].
Qed.

Lemma handle_valid e q :
  sendq_inv q -> valid_event e -> valid_options q -> valid_options (handle e q).
Proof.
  intros Hq He Hv. destruct e; simpl.
  - apply (same_options_valid q); [|done]. intros s'. by apply insert_payload_options.
  - apply (same_options_valid q); [|done]. destruct (ack_acks sequence now q) as (_ & -> & _). eauto.
  - apply (same_options_valid q); [|done]. destruct (ack_ranges_acks ranges now q) as (_ & -> & _). eauto.
  - apply (same_options_valid q); [|done]. rewrite (keeps_scheduler _ _ (nack_ranges_keeps ranges now q)). eauto.
  - apply (same_options_valid q); [|done]. intros s'. apply flush_options. intros s Hs.
    pose proof (SendOptions.valid_flush _ (Hv s Hs)). lia.
  - done.
  - done.
  - case_if; [by apply set_send_options_valid|done].
Qed.

Lemma run_valid mtu0 events :
  in_range 16 mtu0 -> Forall valid_event events -> valid_options (run mtu0 events).
Proof.
  intros Hm. induction events as [|e events IH] using rev_ind; intros H; [done|].
  apply Forall_app in H as [H1 H2]. rewrite run_snoc. destruct (run_inv mtu0 events Hm) as [Hq _].
  apply handle_valid; [done|by inversion H2|by apply IH].
Qed.

(** The sections find no capacity where the check does. *)
Lemma send_batch_waits borrowed owned r channel now q :
  let '(res, q') := send_batch_locked borrowed owned r channel now q in
  res = Ok None ->
  q' = q /\ has_batch_capacity q r (map (fun m => zlen m) (borrowed ++ owned)) = Ok false.
Proof.
  unfold send_batch_locked. erewrite SE_bind_ok by reflexivity. set (lengths := map _ _).
  destruct (has_batch_capacity q _ lengths) as [[|]|err]; [|done..]. erewrite SE_bind_ok by reflexivity.
  unfold mbind, SE_bind, flush_frames. repeat (case_match; simplify_eq; try done).
Qed.

Lemma send_payload_waits r buf channel owned now q :
  let '(res, q') := send_payload_locked r buf channel owned now q in
  res = Ok None -> q' = q /\ has_capacity q r (zlen buf) = Ok false.
Proof.
  unfold send_payload_locked. erewrite SE_bind_ok by reflexivity.
  destruct (has_capacity q r (zlen buf)) as [[|]|err]; [|done..]. erewrite SE_bind_ok by reflexivity.
  unfold mbind, SE_bind, flush_frames. repeat (case_match; simplify_eq; try done).
Qed.

Lemma send_payload_refused r buf channel owned now q e :
  sendq_inv q -> (send_payload_locked r buf channel owned now q).1 = Err e ->
  (send_payload_locked r buf channel owned now q).2 = q.
Proof.
  intros Hq. pose proof (inv_bytes _ _ Hq) as [Hb _]. unfold send_payload_locked. erewrite SE_bind_ok by reflexivity.
  destruct (has_capacity q r (zlen buf)) as [[|]|e']; [|done..]. erewrite SE_bind_ok by reflexivity.
  unfold insert_bytes, insert_with_order_channel, mbind, SE_bind.
  destruct owned; [destruct (insert_payload_cases r buf channel true q Hb) as [(_ & ->)|(_ & q1 & -> & _)]
    |destruct (insert_payload_cases r buf channel false q Hb) as [(_ & ->)|(_ & q1 & -> & _)]]; try done;
    unfold flush_frames; by destruct (flush now q1).
Qed.

(** A batch is admitted as a whole, or the queue is untouched. *)
Lemma send_batch_cases borrowed owned channel now q :
  sendq_inv q -> in_range 16 (mtu q) -> valid_options q ->
  let outcome := send_batch_locked borrowed owned Reliability.ReliableOrdered channel now q in
  match has_batch_capacity q Reliability.ReliableOrdered (map (fun m => zlen m) (borrowed ++ owned)) with
  | Ok true => exists q1 fss,
      holdings q1 ≡ₚ map body (concat fss) ++ holdings q /\ map payload_of fss = borrowed ++ owned /\
      buffered_bytes q1 = buffered_bytes q
        + batch_bytes q Reliability.ReliableOrdered (map (fun m => zlen m) (borrowed ++ owned)) /\
      outcome = (Ok (Some (flush now q1).1), (flush now q1).2)
  | Ok false => outcome = (Ok None, q)
  | Err e => outcome = (Err e, q)
  end.
Proof.
  intros Hq Hm Hv outcome.
  unfold outcome, send_batch_locked. erewrite SE_bind_ok by reflexivity.
  rewrite map_app. set (bl := map _ borrowed). set (ol := map _ owned).
  destruct (has_batch_capacity q _ (bl ++ ol)) as [[|]|e] eqn:Ec; [|done|done].
  erewrite SE_bind_ok by reflexivity. pose proof (inv_bytes _ _ Hq) as [Hb _].
  destruct (batch_capacity_room q Reliability.ReliableOrdered (bl ++ ol) Hv Hb) as [Hroom Hall]; [|done|].
  { unfold bl, ol. rewrite <- map_app. apply list.Forall_forall.
    intros len (m & -> & _)%list_elem_of_fmap. lia. }
  apply Forall_app in Hall as [Hall1 Hall2]. rewrite list.Forall_forall in Hall1, Hall2.
  assert (0 <= batch_bytes q Reliability.ReliableOrdered ol) as Hpos.
  { apply sumZ_nonneg. intros len Hin. apply reserved_bytes_nonneg; [apply (Hall2 len Hin)|].
    apply list_elem_of_fmap in Hin as (m & -> & _). lia. }
  rewrite bool_decide_eq_true_2 by done. erewrite SE_bind_ok by reflexivity.
  unfold batch_bytes in Hroom. rewrite sumZ_app in Hroom. set (q0 := enable_coalescing q).
  destruct (insert_messages_ok Reliability.ReliableOrdered borrowed channel false q0)
    as (q1 & fss1 & E1 & I1 & M1 & B1 & H1 & P1).
  { by apply (keeps_inv _ _ _ (enable_coalescing_keeps q)). }
  { done. }
  { apply list.Forall_forall. intros m Hin. split; [|by left].
    apply (Hall1 (zlen m)). by apply (list_elem_of_fmap_2 (fun m : list Z => zlen m)). }
  { change (batch_bytes q0) with (batch_bytes q). change (buffered_bytes q0) with (buffered_bytes q).
    unfold batch_bytes, bl in *. lia. }
  erewrite SE_bind_ok by exact E1. change (mtu q0) with (mtu q) in M1.
  change (batch_bytes q0) with (batch_bytes q) in B1. change (buffered_bytes q0) with (buffered_bytes q) in B1.
  assert (forall l, batch_bytes q1 Reliability.ReliableOrdered l = batch_bytes q Reliability.ReliableOrdered l) as Eb1.
  { intros l. apply sumZ_ext. intros len _. unfold reserved_bytes, frames_needed. by rewrite M1. }
  destruct (insert_messages_ok Reliability.ReliableOrdered owned channel true q1)
    as (q2 & fss2 & E2 & I2 & M2 & B2 & H2 & P2); [done|congruence| | |].
  { apply list.Forall_forall. intros m Hin. split; [|by left]. unfold admissible, frames_needed. rewrite M1.
    apply (Hall2 (zlen m)). by apply (list_elem_of_fmap_2 (fun m : list Z => zlen m)). }
  { rewrite Eb1. unfold batch_bytes, bl, ol in *. lia. }
  erewrite SE_bind_ok by exact E2. exists q2, (fss1 ++ fss2).
  split; [rewrite H2, H1, concat_app, map_app; change (holdings q0) with (holdings q); solve_Permutation|].
  split; [by rewrite map_app, P1, P2|]. split.
  - rewrite B2, Eb1, B1. unfold batch_bytes. rewrite sumZ_app. unfold bl, ol. lia.
  - unfold flush_frames. by destruct (flush now q2).
Qed.

(** C26: batches are atomic. After any history whose options come from the builders, when
    the locked section of a batch finds capacity, every message of the batch is admitted and
    none is refused half way: the queue then holds, besides what it held, frames that carry
    each message in full, with their bytes reserved, and the section returns what flushing
    that queue sends. When it finds no capacity, or a message is too long for any queue, the
    queue is untouched. *)
Theorem batches_are_atomic mtu0 events borrowed owned channel now :
  in_range 16 mtu0 -> Forall valid_event events ->
  let q := run mtu0 events in
  let outcome := send_batch_locked borrowed owned Reliability.ReliableOrdered channel now q in
  match has_batch_capacity q Reliability.ReliableOrdered (map (fun m => zlen m) (borrowed ++ owned)) with
  | Ok true => exists q1 fss,
      holdings q1 ≡ₚ map body (concat fss) ++ holdings q /\ map payload_of fss = borrowed ++ owned /\
      buffered_bytes q1 = buffered_bytes q
        + batch_bytes q Reliability.ReliableOrdered (map (fun m => zlen m) (borrowed ++ owned)) /\
      outcome = (Ok (Some (flush now q1).1), (flush now q1).2)
  | Ok false => outcome = (Ok None, q)
  | Err e => outcome = (Err e, q)
  end.
Proof.
  intros Hm Hev q. destruct (run_inv mtu0 events Hm) as [Hq Em]. fold q in Hq, Em.
  apply send_batch_cases; [done|by rewrite Em|by apply run_valid].
Qed.

(** Capacity is a promise. After any history whose options come from the builders, for
    a message whose mode can carry its length, the locked section of [send_payload] either
    finds capacity, and then the insertion succeeds and the flushed frames are returned, or
    reports what the check reported with the queue untouched: the sender waits, and is never
    refused for lack of room. *)
Theorem capacity_is_a_promise mtu0 events r buf channel owned now :
  in_range 16 mtu0 -> Forall valid_event events ->
  r = Reliability.ReliableOrdered \/ zlen buf <= mtu0 - 60 ->
  let q := run mtu0 events in
  let outcome := send_payload_locked r buf channel owned now q in
  match has_capacity q r (zlen buf) with
  | Ok true => exists q1, insert_payload r buf channel owned q = (Ok tt, q1) /\
      outcome = (Ok (Some (flush now q1).1), (flush now q1).2)
  | Ok false => outcome = (Ok None, q)
  | Err e => outcome = (Err e, q)
  end.
Proof.
  intros Hm Hev Hfit q outcome. destruct (run_inv mtu0 events Hm) as [Hq Em]. fold q in Hq, Em.
  pose proof (run_valid mtu0 events Hm Hev) as Hv. fold q in Hv.
  unfold outcome, send_payload_locked. erewrite SE_bind_ok by reflexivity.
  destruct (has_capacity q r (zlen buf)) as [[|]|e] eqn:Ec; [|done|done].
  erewrite SE_bind_ok by reflexivity. pose proof (inv_bytes _ _ Hq) as [Hb _].
  pose proof (capacity_accepts q r (zlen buf) Hv Hb ltac:(lia) ltac:(by rewrite Em) Ec) as Hacc.
  destruct (insert_payload_cases r buf channel owned q Hb) as [(Hn & _)|(_ & q1 & E & _)]; [done|].
  exists q1. split; [done|].
  assert ((if owned then insert_bytes r buf channel else insert_with_order_channel r buf channel) q
    = (Ok tt, q1)) as E' by (by destruct owned).
  erewrite SE_bind_ok by exact E'. unfold flush_frames. by destruct (flush now q1).
Qed.
End Capacity.

(** ** The theorems at work *)

Lemma sample_events_valid : Forall valid_event sample_events.
Proof. repeat constructor. Qed.

Definition sample_batch : list (list Z) := [[0xfe; 1]; repeat 0xfe 50; [0xfe; 3]].

Lemma batches_are_atomic_witness :
  let q := @run all_features merge_sort_flight 100 sample_events in
  exists q1 fss, map payload_of fss = sample_batch /\
    holdings q1 ≡ₚ map body (concat fss) ++ holdings q /\
    @send_batch_locked all_features merge_sort_flight sample_batch [] Reliability.ReliableOrdered 0 70 q
      = (Ok (Some (@flush all_features merge_sort_flight 70 q1).1), (@flush all_features merge_sort_flight 70 q1).2).
Proof.
  pose proof (@batches_are_atomic all_features merge_sort_flight 100 sample_events sample_batch [] 0 70
    ltac:(unfold in_range; lia) sample_events_valid) as H. cbv zeta in H |- *.
  assert (@has_batch_capacity all_features (@run all_features merge_sort_flight 100 sample_events)
    Reliability.ReliableOrdered (map (fun m => zlen m) (sample_batch ++ [])) = Ok true) as E
    by (vm_compute; reflexivity).
  rewrite E in H. destruct H as (q1 & fss & Hh & Hp & _ & Ho). exists q1, fss.
  split; [exact Hp|]. split; [exact Hh|exact Ho].
Defined.

Lemma capacity_is_a_promise_witness :
  exists q1, @insert_payload all_features Reliability.Reliable [0xfe; 9] 0 false
    (@run all_features merge_sort_flight 100 sample_events) = (Ok tt, q1).
Proof.
  pose proof (@capacity_is_a_promise all_features merge_sort_flight 100 sample_events
    Reliability.Reliable [0xfe; 9] 0 false 70
    ltac:(unfold in_range; lia) sample_events_valid ltac:(right; simpl; lia)) as H. cbv zeta in H.
  assert (@has_capacity all_features (@run all_features merge_sort_flight 100 sample_events)
    Reliability.Reliable (zlen [0xfe; 9]) = Ok true) as E by (vm_compute; reflexivity).
  rewrite E in H. destruct H as (q1 & H & _). exists q1. exact H.
Defined.
