(* ===== verification/SendQWait.v ===== *)
(** * What senders wait for

    When the send queue has capacity for a message, and when it is empty, change with the
    bytes it holds. This file tells the bytes of unreliable frames, which a flush releases,
    from the others, which only an acknowledgement does, and shows that no other operation
    makes room. *)

From S2P Require Import Prelude Errors Sequence Frame FrameCodec Fragment RecvQ SendOptions SendQ SendQInv SendQInsert SendQFlow SendQRun SendQSched Sending.
Import SendQ.

(** ** Bytes by kind *)

Definition unreliable_cost (f : FrameSetPacket) : Z := if relb f then 0 else cost f.

Definition u_bytes (q : SendQ) : Z := sumZ unreliable_cost (holdings q).

Definition rel_bytes (q : SendQ) : Z := buffered_bytes q - u_bytes q.

Section Bytes.
Context {feat : Features} {usort : UnstableSort}.
Implicit Types (q : SendQ) (f : FrameSetPacket).

Lemma u_bytes_perm q fs : holdings q ≡ₚ fs -> u_bytes q = sumZ unreliable_cost fs.
Proof. apply sumZ_perm. Qed.

Lemma unreliable_cost_nonneg f : 0 <= unreliable_cost f.
Proof. unfold unreliable_cost. pose proof (cost_ge f). unfold FRAME_BUDGET in *. case_if; lia. Qed.

Lemma unreliable_sum_nonneg fs : 0 <= sumZ unreliable_cost fs.
Proof. apply sumZ_nonneg. intros f _. apply unreliable_cost_nonneg. Qed.

Lemma unreliable_sum_reliable fs : (forall f, f ∈ fs -> relb f = true) -> sumZ unreliable_cost fs = 0.
Proof.
  induction fs as [|f fs IH]; intros Hf; [done|]. cbn [sumZ foldr]. unfold sumZ in IH.
  rewrite IH by (intros g Hg; apply Hf; by apply list_elem_of_further).
  unfold unreliable_cost. by rewrite (Hf f) by apply list_elem_of_here.
Qed.

(** Frames that cost nothing are reliable. *)
Lemma unreliable_sum_zero fs f : sumZ unreliable_cost fs = 0 -> f ∈ fs -> relb f = true.
Proof.
  intros H Hf. destruct (relb f) eqn:E; [done|]. exfalso.
  apply elem_of_Permutation in Hf as [rest Hp]. rewrite (sumZ_perm _ _ _ Hp) in H. cbn [sumZ foldr] in H.
  pose proof (unreliable_sum_nonneg rest) as Hr. pose proof (cost_ge f). unfold sumZ in Hr.
  unfold unreliable_cost at 1 in H. rewrite E in H. unfold FRAME_BUDGET in *. lia.
Qed.

Lemma reliable_packets fs f : unreliable_count fs = 0 -> f ∈ fs -> relb f = true.
Proof.
  intros H Hf. destruct (relb f) eqn:E; [done|]. exfalso. unfold unreliable_count in H.
  apply elem_of_Permutation in Hf as [rest Hp]. rewrite (sumZ_perm _ _ _ Hp) in H. cbn [sumZ foldr] in H.
  pose proof (unreliable_count_nonneg rest) as Hr. unfold unreliable_count, sumZ in Hr. rewrite E in H. lia.
Qed.

(** With a scheduler, its lane holds all the unreliable frames. *)
Lemma u_bytes_scheduled q s : sendq_inv q -> scheduler q = Some s -> u_bytes q = unreliable_bytes s.
Proof.
  intros Hq Hs. destruct (sq_scheduler _ _ Hq s Hs) as [-> Hu]. destruct (sq_policy _ _ Hq s Hs) as [_ Hp].
  unfold u_bytes, holdings, waiting_unreliable. rewrite Hs, !sumZ_app.
  rewrite (unreliable_sum_reliable (map body (packets q))), (unreliable_sum_reliable (flight q)).
  - rewrite !Z.add_0_l. clear -Hu. induction Hu as [|f fs Hf _ IH]; [done|]. cbn [map sumZ foldr].
    unfold sumZ in IH. rewrite IH. assert (unreliable_cost (body f) = cost f) as ->; [|done].
    unfold unreliable_cost. change (relb (body f)) with (relb f). by rewrite Hf.
  - apply Hq.
  - intros f (g & -> & Hg)%list_elem_of_fmap. rewrite relb_body. by apply (reliable_packets (packets q)).
Qed.

(** Without one, the backlog does. *)
Lemma u_bytes_unscheduled q :
  sendq_inv q -> scheduler q = None -> u_bytes q = 0 <-> unreliable_count (packets q) = 0.
Proof.
  intros Hq Hs. unfold u_bytes, holdings, waiting_unreliable. rewrite Hs. simpl. rewrite app_nil_r. split.
  - intros H. apply unreliable_count_reliable. intros g Hg. rewrite <- relb_body.
    apply (unreliable_sum_zero _ _ H). apply elem_of_app. left. by apply list_elem_of_fmap_2.
  - intros H. apply unreliable_sum_reliable. intros f [(g & -> & Hg)%list_elem_of_fmap|Hf]%elem_of_app;
      [rewrite relb_body; by apply (reliable_packets (packets q))|by apply Hq].
Qed.

Lemma is_empty_iff q : sendq_inv q -> is_empty q = true <-> holdings q = [].
Proof.
  intros Hq. split; [by apply is_empty_holdings|]. unfold is_empty, holdings, waiting_unreliable, flight.
  intros H. apply app_eq_nil in H as [Hp [Hf Hu]%app_eq_nil]. apply map_eq_nil in Hp, Hf.
  rewrite Hp, Hf. simpl. destruct (scheduler q) as [s|]; [|by rewrite orb_true_r].
  apply map_eq_nil in Hu. rewrite Hu. by rewrite orb_true_r.
Qed.

(** ** Insertion *)

(** [grows q q']: frames were added and nothing released. *)
Record grows q q' : Prop := {
  grows_inv : sendq_inv q';
  grows_mtu : mtu q' = mtu q;
  grows_rel : rel_bytes q <= rel_bytes q';
  grows_u : u_bytes q <= u_bytes q';
  grows_holdings : exists fresh, holdings q' ≡ₚ fresh ++ holdings q;
  grows_scheduler : match scheduler q with
    | None => scheduler q' = None
    | Some s => exists s', scheduler q' = Some s' /\ options s' = options s /\
        persistent s' = persistent s /\ capacity_notifier s' = capacity_notifier s
    end;
}.

Lemma grows_refl q : sendq_inv q -> grows q q.
Proof.
  intros Hq. split; try done; [exists []; done|]. destruct (scheduler q); [by eexists|done].
Qed.

Lemma grows_trans q1 q2 q3 : grows q1 q2 -> grows q2 q3 -> grows q1 q3.
Proof.
  intros [I1 M1 R1 U1 (f1 & H1) S1] [I2 M2 R2 U2 (f2 & H2) S2].
  split; [done|congruence|lia|lia|exists (f2 ++ f1); by rewrite H2, H1, <- app_assoc|].
  destruct (scheduler q1).
  - destruct S1 as (s' & Es & ? & ? & ?). rewrite Es in S2. destruct S2 as (s'' & ? & ? & ? & ?).
    exists s''. split_and!; congruence.
  - by rewrite S1 in S2.
Qed.

Lemma keeps_grows q q' : keeps q q' -> sendq_inv q -> grows q q'.
Proof.
  intros Hk Hq. pose proof (keeps_holdings _ _ Hk) as Hh. pose proof Hk as [_ _ _ _ Hb _ Hs Hm].
  assert (u_bytes q' = u_bytes q) as Hu by (by apply u_bytes_perm). unfold rel_bytes.
  split; [by apply (keeps_inv _ q)|done|unfold rel_bytes; lia|lia|by exists []|].
  rewrite Hs. destruct (scheduler q); [by eexists|done].
Qed.

Lemma insert_grows r buf channel owned q :
  sendq_inv q -> in_range 16 (mtu q) -> grows q (insert_payload r buf channel owned q).2.
Proof.
  intros Hq Hm. destruct (insert_payload r buf channel owned q) as [res q'] eqn:E.
  pose proof (insert_payload_inv r buf channel owned q Hq Hm) as Hq'.
  pose proof (insert_payload_mtu r buf channel owned q Hq) as Em. rewrite E in Hq', Em. simpl in *.
  pose proof (inv_bytes _ _ Hq) as [Hb _].
  destruct (insert_payload_cases r buf channel owned q Hb) as [(_ & E')|((Hmtu & Hfit & Hfr & Hlim) & q1 & E' & Hk)];
    rewrite E in E'; injection E' as -> ->; [by apply grows_refl|].
  destruct (insert_adds r buf channel owned q q1 Hq Hm E) as (fs & Hh & Hn & Hpay & Hrel & Eb).
  assert (u_bytes q1 = sumZ unreliable_cost (map body fs) + u_bytes q) as Hu.
  { rewrite (u_bytes_perm _ _ Hh). apply sumZ_app. }
  pose proof (unreliable_sum_nonneg (map body fs)) as Hpos.
  assert (sumZ unreliable_cost (map body fs) <= reserved_bytes q r (zlen buf)) as Hle.
  { destruct (rel_b r) eqn:Er.
    - rewrite unreliable_sum_reliable; [unfold reserved_bytes, frames_needed, FRAME_BUDGET|].
      + case_if; [|lia]. pose proof (div_ceil_bounds (zlen buf) (mtu q - 60) ltac:(lia) ltac:(lia)). nia.
      + intros f (g & -> & Hg)%list_elem_of_fmap. rewrite relb_body. unfold relb.
        rewrite (is_reliable_ok g r); [done|]. by apply (proj1 (list.Forall_forall _ _) Hrel).
    - assert (frames_needed q r (zlen buf) = 1) as E1 by (unfold frames_needed; by destruct r).
      rewrite E1 in Hn. destruct fs as [|f [|]]; simpl in Hn; try lia. unfold reserved_bytes. rewrite E1.
      simpl in Hpay. rewrite app_nil_r in Hpay. cbn [map sumZ foldr]. unfold unreliable_cost, cost.
      change (data_len (body f)) with (zlen (FramePayload.deref (data f))). rewrite Hpay.
      destruct (shared_payload (body f)); case_if; unfold FRAME_BUDGET; lia. }
  split; [done|done|unfold rel_bytes; lia|lia|by eexists|].
  rewrite (keeps_scheduler _ _ Hk). destruct (scheduler q) as [s|] eqn:Es; simpl.
  - case_if; [by exists s|]. unfold admit_whole, push_unreliable. case_if; [by exists s|].
    destruct send_policy; [|by exists s]. rewrite Es. by eexists.
  - case_if; [done|]. unfold admit_whole, push_unreliable. case_if; [done|].
    destruct send_policy; [|done]. by rewrite Es.
Qed.
End Bytes.

(** ** Flushing *)

Section Flush.
Context {feat : Features} {usort : UnstableSort}.
Implicit Types (q : SendQ) (f : FrameSetPacket) (st : Round).

Lemma assign_group_fields may f g (out : OutgoingFrames) q :
  let '(_, _, _, q') := assign_group may f g out q in shared q' = shared q /\ scheduler q' = scheduler q.
Proof. unfold assign_group. destruct (group_sequence g); [case_if|]; done. Qed.

Lemma flush_queue_fields count now g (out : OutgoingFrames) q :
  shared (flush_queue count now g out q).2 = shared q /\
  scheduler (flush_queue count now g out q).2 = scheduler q.
Proof.
  revert g out q. induction count as [|count IH]; intros g out q; cbn [flush_queue]; [done|].
  case_if; [done|]. destruct (packets q) as [|f rest]; [done|].
  case_if; [match goal with |- context [flush_queue count now ?g ?o ?x] => by destruct (IH g o x) as [-> ->] end|].
  set (q1 := q <| packets := rest |>). set (assigned := if coalesce q1 then _ else _).
  assert (let '(_, _, _, q') := assigned in shared q' = shared q /\ scheduler q' = scheduler q) as Ha.
  { unfold assigned. case_if; [apply (assign_group_fields _ _ _ _ q1)|done]. }
  destruct assigned as [[[f' g'] out'] q2]. destruct Ha as [<- <-].
  set (reliable := match is_reliable f with Ok b => b | Err _ => false end).
  destruct reliable; match goal with |- context [flush_queue count now ?g ?o ?x] => destruct (IH g o x) as [-> ->] end;
    [|done]. by destruct (launch_fields now f' q2) as (_ & _ & ? & _ & _ & ? & _).
Qed.

(** What the rounds change of the scheduler [s] they started with. *)
Record lane_inv (s : SendScheduler) (store : gmap Z SharedPayload) st : Prop := {
  li_shared : shared (queue st) = store;
  li_options : options (sched st) = options s;
  li_persistent : persistent (sched st) = persistent s;
  li_notifier : capacity_notifier (sched st) = capacity_notifier s;
  li_lane : unreliable_drained st = false -> unreliable (sched st) = unreliable s;
}.

Lemma lane_send_inv s store now probe lane charge st :
  lane_inv s store st -> lane_inv s store (lane_send now probe lane charge st).
Proof.
  intros Hst. pose proof Hst as [H1 H2 H3 H4 H5]. unfold lane_send. case_if; [|case_if].
  - destruct (unreliable (sched st)); [done|]. by split.
  - destruct (sent_packet (queue st) !! retry_cursor st) as [item|]; [|done].
    pose proof (resent_body now probe item (queue st)) as Hb.
    destruct (resent now probe item (queue st)) as [item' q1]. destruct Hb as (_ & Hk & _).
    split; try done. simpl. rewrite <- H1. apply Hk.
  - destruct (packets (queue st)) as [|f rest]; [done|]. set (q1 := queue st <| packets := rest |>).
    pose proof (assign_group_fields (coalesce q1 && packable f) f (group st) (output st) q1) as Ha.
    destruct (assign_group _ f (group st) (output st) q1) as [[[f' g'] out'] q2]. destruct Ha as [Ha _].
    destruct (launch_fields now f' q2) as (_ & _ & Hl & _). split; try done. cbn [queue]. rewrite Hl, Ha. exact H1.
Qed.

Lemma lane_loop_inv s store fuel now probe lane quantum lane_bytes progressed st :
  lane_inv s store st -> lane_inv s store (lane_loop fuel now probe lane quantum lane_bytes progressed st).2.
Proof.
  revert lane_bytes progressed st. induction fuel as [|fuel IH]; intros lane_bytes progressed st Hst;
    cbn [lane_loop]; [done|]. case_if; [done|]. destruct (lane_charge lane st) as [charge cursor].
  set (st1 := mk_round (queue st) (sched st) (output st) (burst st) cursor (group st) (flight_bytes st) (unreliable_drained st)).
  assert (lane_inv s store st1) as H1 by (by destruct Hst). clearbody st1.
  destruct charge as [charge|]; [|exact H1]. case_if; [exact H1|].
  apply (lane_send_inv _ _ now probe lane charge) in H1. set (st2 := lane_send _ _ _ _ _) in *. clearbody st2.
  match goal with |- lane_inv _ _ (if _ then (_, _, ?x) else _).2 => assert (lane_inv s store x) as H2 by (by destruct H1) end.
  case_if; [exact H2|by apply IH].
Qed.

Lemma lanes_inv s store fuel now probe quantum start offsets progressed st :
  lane_inv s store st -> lane_inv s store (lanes fuel now probe quantum start offsets progressed st).2.
Proof.
  revert progressed st. induction offsets as [|offset offsets IH]; intros progressed st Hst; cbn [lanes]; [done|].
  pose proof (lane_loop_inv s store fuel now probe ((start + offset) `mod` 3) quantum 0 progressed st Hst) as Hl.
  destruct (lane_loop _ _ _ _ _ _ _ _) as [[stop progressed'] st']. case_if; [done|by apply IH].
Qed.

Lemma rounds_inv s store fuel lane_fuel now probe quantum st :
  lane_inv s store st -> lane_inv s store (rounds fuel lane_fuel now probe quantum st).2.
Proof.
  revert st. induction fuel as [|fuel IH]; intros st Hst; cbn [rounds]; [done|].
  pose proof (lanes_inv s store lane_fuel now probe quantum (next_lane (sched st)) [0; 1; 2] false st Hst) as Hl.
  destruct (lanes _ _ _ _ _ _ _ _) as [[stop progressed] st']. case_if; [done|]. case_if; [done|by apply IH].
Qed.

(** A scheduler after a flush: its waiters were notified, or its lane is as it was. *)
Record rescheduled (s s' : SendScheduler) : Prop := {
  rs_options : options s' = options s;
  rs_persistent : persistent s' = persistent s;
  rs_lane : (unreliable s' = unreliable s /\ capacity_notifier s' = capacity_notifier s) \/
    capacity_notifier s' = (calls ← capacity_notifier s; Some (calls + 1));
}.

Lemma flush_scheduled_fields now q s :
  scheduler q = Some s -> persistent s = true ->
  shared (flush_scheduled now q).2 = shared q /\
  exists s', scheduler (flush_scheduled now q).2 = Some s' /\ rescheduled s s'.
Proof.
  intros Hs Hp. unfold flush_scheduled.
  assert (keeps q (sort_if_dirty (tick now q))) as K1
    by (etransitivity; [apply tick_keeps|apply sort_if_dirty_keeps]).
  set (q1 := sort_if_dirty _) in *. clearbody q1. rewrite (keeps_scheduler _ _ K1), Hs.
  set (r2 := if recovery_policy then take_probe_packing (q1 <| scheduler := None |>) else _).
  assert (shared r2.2 = shared q) as E2.
  { unfold r2. rewrite <- (keeps_shared _ _ K1). destruct recovery_policy; [exact (keeps_shared _ _ (take_probe_packing_keeps (q1 <| scheduler := None |>)))|done]. }
  destruct r2 as [packing q2]. simpl in E2. set (r3 := if recovery_policy then take_probe_replay q2 else _).
  assert (shared r3.2 = shared q) as E3.
  { unfold r3. rewrite <- E2. destruct recovery_policy; [apply take_probe_replay_keeps|done]. }
  destruct r3 as [probe q3]. simpl in E3. cbv zeta. set (fuel := S _). clearbody fuel.
  set (st0 := mk_round q3 s _ _ _ _ _ _). assert (lane_inv s (shared q) st0) as H0 by done.
  apply (rounds_inv _ _ fuel fuel now probe (mtu q2 * 4)) in H0. set (st := (rounds _ _ _ _ _ _).2) in *. clearbody st.
  destruct H0 as [H1 H2 H3 H4 H5]. cbn [fst snd]. set (s' := if unreliable_drained st then _ else sched st).
  assert (rescheduled s s') as Hr.
  { unfold s'. destruct (unreliable_drained st).
    - unfold notify_capacity. split; [by destruct (capacity_notifier (sched st))|by destruct (capacity_notifier (sched st))|].
      right. rewrite <- H4. by destruct (capacity_notifier (sched st)) eqn:E; simpl.
    - split; [done|done|]. left. auto. }
  clearbody s'. rewrite (rs_persistent _ _ Hr), Hp. simpl. split; [done|]. by exists s'.
Qed.

Lemma flush_legacy_fields now q :
  shared (flush_legacy now q).2 = shared q /\ scheduler (flush_legacy now q).2 = scheduler q.
Proof.
  unfold flush_legacy. pose proof (tick_keeps now q) as K1. set (q1 := tick now q) in *. clearbody q1.
  set (r2 := if recovery_policy then take_probe_packing q1 else (false, q1)).
  assert (keeps q1 r2.2) as K2 by (unfold r2; destruct recovery_policy; [apply take_probe_packing_keeps|done]).
  destruct r2 as [packing q2]. simpl in K2. pose proof (sort_if_dirty_keeps q2) as K3.
  set (q3 := sort_if_dirty q2) in *. clearbody q3.
  set (r4 := if recovery_policy then take_probe_replay q3 else (None, q3)).
  assert (keeps q r4.2) as K4.
  { etransitivity; [exact K1|]. etransitivity; [exact K2|]. etransitivity; [exact K3|].
    unfold r4. destruct recovery_policy; [apply take_probe_replay_keeps|done]. }
  destruct r4 as [probe q4]. simpl in K4. set (r5 := if retries_pending q4 then _ else ([], q4)).
  assert (shared r5.2 = shared q /\ scheduler r5.2 = scheduler q) as [E5 E5'].
  { destruct K4 as [_ _ Ks _ _ _ Kc _]. unfold r5. case_if; [|done].
    pose proof (resend_items_keeps now probe (sent_packet q4) [] q4) as Hk.
    destruct (resend_items _ _ _ _ q4) as [[items ret] q5]. destruct Hk as (_ & [_ _ Hs _ _ _ Hc _] & _).
    simpl. by rewrite Hs, Hc. }
  destruct r5 as [ret q5]. simpl in *.
  destruct (flush_queue_fields (length (packets q5)) now no_group (mk_outgoing ret packing) q5) as [-> ->]. done.
Qed.

(** Without a scheduler a flush visits every frame of the backlog, and no unreliable one stays. *)
Lemma assign_group_backlog may f g (out : OutgoingFrames) q :
  let '(_, _, _, q') := assign_group may f g out q in
  packets q' = packets q /\ queued_unreliable q' = queued_unreliable q.
Proof. unfold assign_group. destruct (group_sequence g); [case_if|]; done. Qed.

Lemma flush_queue_drains front back now g (out : OutgoingFrames) q :
  packets q = front ++ back -> (forall f, f ∈ back -> relb f = true) ->
  queued_unreliable q = unreliable_count (packets q) -> unreliable_count (packets q) < 2 ^ 64 ->
  unreliable_count (packets (flush_queue (length front) now g out q).2) = 0.
Proof.
  revert back g out q. induction front as [|f front IH]; intros back g out q Hp Hback Hq Hl; cbn [length flush_queue].
  { cbn [snd]. rewrite Hp. by apply unreliable_count_reliable. }
  case_if; [b2p; simpl; lia|]. rewrite Hp. cbn [app].
  pose proof (unreliable_count_nonneg (front ++ back)) as Hpos.
  assert (unreliable_count (packets q) = (if relb f then 0 else 1) + unreliable_count (front ++ back)) as Ec
    by (by rewrite Hp).
  change (match is_reliable f with Ok b => b | Err _ => false end) with (relb f).
  destruct (relb f && _) eqn:Er.
  { apply andb_true_iff in Er as [Er _]. rewrite Er in Ec.
    assert (unreliable_count ((front ++ back) ++ [f]) = unreliable_count (packets q)) as Es.
    { rewrite unreliable_count_app, Ec. unfold unreliable_count at 2. cbn [sumZ foldr]. rewrite Er. lia. }
    apply (IH (back ++ [f])); simpl; [by rewrite app_assoc| |lia|lia].
    intros x [Hx|Hx%list_elem_of_singleton]%elem_of_app; [by apply Hback|by subst]. }
  set (q1 := q <| packets := front ++ back |>). set (assigned := if coalesce q1 then _ else _).
  assert (let '(_, _, _, q') := assigned in
    packets q' = front ++ back /\ queued_unreliable q' = queued_unreliable q) as Ha.
  { unfold assigned. case_if; [apply (assign_group_backlog _ _ _ _ q1)|done]. }
  destruct assigned as [[[f' g'] out'] q2]. destruct Ha as [Ep Eq]. destruct (relb f).
  - destruct (launch_fields now f' q2) as (El & _ & _ & _ & _ & _ & Eu & _).
    apply (IH back); rewrite ?El, ?Eu, ?Ep; [done|done|lia|lia].
  - apply (IH back); simpl; rewrite ?Ep; [done|done| |lia].
    rewrite Eq, Hq, usize_sub_exact by lia. lia.
Qed.

Lemma flush_unscheduled now q :
  sendq_inv q -> scheduler q = None ->
  scheduler (flush now q).2 = None /\ u_bytes (flush now q).2 = 0.
Proof.
  intros Hq Hs. pose proof (sends_inv _ _ _ _ (flush_sends now q Hq)) as Hq'. revert Hq'.
  unfold flush. pose proof (reset_recovery_keeps now q) as K0. set (q0 := reset_recovery now q) in *. clearbody q0.
  assert (scheduler q0 = None) as Hs0 by (by rewrite (keeps_scheduler _ _ K0)).
  rewrite Hs0, andb_false_r. intros Hq'. destruct (flush_legacy_fields now q0) as [_ Es]. rewrite Hs0 in Es.
  split; [done|]. apply u_bytes_unscheduled; [done|done|].
  apply (keeps_inv _ _ _ K0) in Hq. clear K0 Hq' Es Hs Hs0. unfold flush_legacy.
  pose proof (tick_keeps now q0) as K1. set (q1 := tick now q0) in *. clearbody q1.
  set (r2 := if recovery_policy then take_probe_packing q1 else (false, q1)).
  assert (keeps q1 r2.2) as K2 by (unfold r2; destruct recovery_policy; [apply take_probe_packing_keeps|done]).
  destruct r2 as [packing q2]. simpl in K2. pose proof (sort_if_dirty_keeps q2) as K3.
  set (q3 := sort_if_dirty q2) in *. clearbody q3.
  set (r4 := if recovery_policy then take_probe_replay q3 else (None, q3)).
  assert (keeps q0 r4.2) as K4.
  { etransitivity; [exact K1|]. etransitivity; [exact K2|]. etransitivity; [exact K3|].
    unfold r4. destruct recovery_policy; [apply take_probe_replay_keeps|done]. }
  destruct r4 as [probe q4]. simpl in K4. set (r5 := if retries_pending q4 then _ else ([], q4)).
  assert (packets r5.2 = packets q0 /\ queued_unreliable r5.2 = queued_unreliable q0) as [Ep Eq].
  { destruct K4 as [Kp _ _ _ _ Kq _ _]. unfold r5. case_if; [|done].
    pose proof (resend_items_keeps now probe (sent_packet q4) [] q4) as Hk.
    destruct (resend_items _ _ _ _ q4) as [[items ret] q5]. destruct Hk as (_ & [Hp _ _ _ _ Hu _ _] & _).
    simpl. by rewrite Hp, Hu. }
  destruct r5 as [ret q5]. simpl in *.
  assert (unreliable_count (packets q0) < 2 ^ 64) as Hbound.
  { pose proof (accounted_bound _ _ _ (sq_accounted _ _ Hq)) as Hb. pose proof (sq_limit _ _ Hq) as Hl.
    assert (unreliable_count (packets q0) <= zlen (packets q0)) as Hc.
    { unfold unreliable_count. clear. induction (packets q0) as [|f fs IH]; [done|].
      cbn [sumZ foldr length]. unfold sumZ in IH. case_if; lia. }
    unfold holdings in Hb. cbn [app] in Hb. rewrite length_app, length_map in Hb. unfold FRAME_BUDGET, MAX_BUFFERED_BYTES in *. lia. }
  apply (flush_queue_drains (packets q5) []); [by rewrite app_nil_r|by intros f ?%not_elem_of_nil| |by rewrite Ep].
  rewrite Ep, Eq. apply Hq.
Qed.

(** What a flush releases: unreliable frames only. *)
Lemma flush_releases now q :
  sendq_inv q -> (forall s, scheduler q = Some s -> persistent s = true) ->
  let q' := (flush now q).2 in
  sendq_inv q' /\ mtu q' = mtu q /\ rel_bytes q' = rel_bytes q /\
  (exists gone, holdings q ≡ₚ gone ++ holdings q' /\ (forall f, f ∈ gone -> relb f = false) /\
     u_bytes q = u_bytes q' + sumZ unreliable_cost gone) /\
  (forall s, scheduler q = Some s -> exists s', scheduler q' = Some s' /\ rescheduled s s').
Proof.
  intros Hq Hp q'. destruct (flush_sends now q Hq) as [Hq' Em _ (gone & Hh & Hg)]. fold q' in Hq', Em, Hh.
  assert (shared q' = shared q /\
    forall s, scheduler q = Some s -> exists s', scheduler q' = Some s' /\ rescheduled s s') as [Esh Hsc].
  { unfold q', flush. pose proof (reset_recovery_keeps now q) as K. set (q1 := reset_recovery now q) in *. clearbody q1.
    rewrite <- (keeps_shared _ _ K), <- (keeps_scheduler _ _ K) in *.
    destruct (scheduler q1) as [s|] eqn:Es.
    - case_if.
      + destruct (flush_scheduled_fields now q1 s Es (Hp s eq_refl)) as [H1 H2]. split; [done|]. by intros s0 [= <-].
      + destruct (flush_legacy_fields now q1) as [H1 H2]. split; [done|]. intros s0 [= <-]. exists s.
        rewrite H2. split; [done|]. split; [done|done|by left].
    - rewrite andb_false_r. destruct (flush_legacy_fields now q1) as [H1 _]. by split. }
  assert (u_bytes q = sumZ unreliable_cost gone + u_bytes q') as Hu
    by (rewrite (u_bytes_perm _ _ Hh); apply sumZ_app).
  assert (sumZ unreliable_cost gone = sumZ cost gone) as Hc.
  { apply sumZ_ext. intros f Hf. unfold unreliable_cost. by rewrite (proj1 (Hg f Hf)). }
  pose proof (ac_bytes _ _ _ (sq_accounted _ _ Hq)) as B1. pose proof (ac_bytes _ _ _ (sq_accounted _ _ Hq')) as B2.
  simpl in B1, B2. rewrite (sumZ_perm _ _ _ Hh), sumZ_app in B1. rewrite Esh in B2.
  split; [done|]. split; [done|]. split; [unfold rel_bytes; lia|]. split; [|done].
  exists gone. split; [done|]. split; [intros f Hf; by apply Hg|lia].
Qed.
End Flush.

(** ** Critical sections *)

(** The calls of [notify_waiters] made through the handle of the scheduler. *)
Definition calls (q : SendQ) : Z :=
  match scheduler q with
  | Some s => match capacity_notifier s with Some n => n | None => 0 end
  | None => 0
  end.

(** The queue between critical sections: without options no unreliable frame waits; with
    options, the scheduler stays, can notify, and has options from the builders. *)
Record settled {feat : Features} (q : SendQ) : Prop := {
  st_inv : sendq_inv q;
  st_mtu : in_range 16 (mtu q);
  st_none : scheduler q = None -> u_bytes q = 0;
  st_some : forall s, scheduler q = Some s ->
    persistent s = true /\ is_Some (capacity_notifier s) /\ SendOptions.valid (options s);
}.

(** No room was made. *)
Record no_room (q q' : SendQ) : Prop := {
  nr_mtu : mtu q' = mtu q;
  nr_options : send_options q' = send_options q;
  nr_rel : rel_bytes q <= rel_bytes q';
  nr_u : u_bytes q <= u_bytes q';
  nr_empty : holdings q' = [] -> holdings q = [];
}.

Section Sections.
Context {feat : Features} {usort : UnstableSort}.
Implicit Types (q : SendQ) (r : Reliability).

(** A section that adds frames and leaves them where they are. *)
Lemma grows_no_room q q' : grows q q' -> no_room q q'.
Proof.
  intros [_ Em Hr Hu (fresh & Hh) Hs]. split; try done.
  - unfold send_options. destruct (scheduler q) as [s|]; [|by rewrite Hs].
    destruct Hs as (s' & -> & -> & _). done.
  - intros E. rewrite E in Hh. symmetry in Hh. apply Permutation_nil_r, app_eq_nil in Hh. tauto.
Qed.

Lemma grows_settled q q' : settled q -> grows q q' -> u_bytes q' = u_bytes q -> settled q'.
Proof.
  intros [Hq Hm Hn Hs] [Hq' Em _ _ _ Hsc] Hu. split; [done|by rewrite Em|..].
  - intros E. rewrite Hu. apply Hn. destruct (scheduler q); [|done]. destruct Hsc as (? & ? & _). congruence.
  - intros s' E. destruct (scheduler q) as [s|]; [|congruence]. destruct Hsc as (s1 & E1 & Eo & Ep & En).
    rewrite E in E1. injection E1 as <-. rewrite Eo, Ep, En. by apply Hs.
Qed.

(** A section that adds frames and flushes: it makes no room, or notifies. *)
Lemma flush_section now q q1 :
  settled q -> grows q q1 ->
  settled (flush now q1).2 /\ (calls q < calls (flush now q1).2 \/ no_room q (flush now q1).2).
Proof.
  intros [Hq Hm Hn Hs] Hg. pose proof Hg as [Hq1 Em1 Hr1 Hu1 (fresh & Hf1) Hsc].
  assert (forall s, scheduler q1 = Some s -> persistent s = true) as Hp1.
  { intros s1 E1. destruct (scheduler q) as [s|]; [|congruence].
    destruct Hsc as (s' & E' & _ & Ep & _). rewrite E1 in E'. injection E' as <-. rewrite Ep. by apply (Hs s). }
  destruct (flush_releases now q1 Hq1 Hp1) as (Hq' & Em & Er & (gone & Hh & Hgone & Hu) & Hresc).
  set (q' := (flush now q1).2) in *.
  assert (in_range 16 (mtu q')) as Hm' by (by rewrite Em, Em1).
  destruct (scheduler q) as [s|] eqn:Es.
  - destruct Hsc as (s1 & E1 & Eo & Ep & En). destruct (Hresc s1 E1) as (s' & E' & [Ro Rp Rl]).
    destruct (Hs s eq_refl) as (Hper & [n Hn'] & Hval). rewrite En, Hn' in Rl. simpl in Rl.
    assert (is_Some (capacity_notifier s')) as Hsome by (destruct Rl as [[_ ->]| ->]; eauto).
    split.
    { split; [done|done|congruence|]. intros s0 E0. rewrite E' in E0. injection E0 as <-.
      rewrite Rp, Ep, Ro, Eo. done. }
    destruct Rl as [[Hl Hc]|Hc].
    + right. assert (u_bytes q' = u_bytes q1) as Eu.
      { rewrite (u_bytes_scheduled q' s' Hq' E'), (u_bytes_scheduled q1 s1 Hq1 E1).
        destruct (sq_scheduler _ _ Hq' s' E') as [-> _]. destruct (sq_scheduler _ _ Hq1 s1 E1) as [-> _].
        by rewrite Hl. }
      split; [by rewrite Em|unfold send_options; rewrite E', Es; congruence|lia|lia|].
      intros Hnil. rewrite Hnil, app_nil_r in Hh. assert (gone = []) as ->.
      { destruct gone as [|f gone]; [done|]. exfalso. assert (sumZ unreliable_cost (f :: gone) = 0) as Hz by lia.
        pose proof (unreliable_sum_zero _ f Hz (list_elem_of_here _ _)) as Hrel.
        rewrite (Hgone f (list_elem_of_here _ _)) in Hrel. done. }
      rewrite Hf1 in Hh. apply Permutation_nil_r, app_eq_nil in Hh. tauto.
    + left. unfold calls. rewrite Es, E', Hn', Hc. lia.
  - destruct (flush_unscheduled now q1 Hq1 Hsc) as [E' Eu]. fold q' in E', Eu. split; [by split; [..|congruence]|].
    right. specialize (Hn eq_refl). split; [by rewrite Em|unfold send_options; by rewrite E', Es|lia|lia|].
    intros Hnil. rewrite Hnil, app_nil_r in Hh. destruct (holdings q) as [|f rest] eqn:Eh; [done|]. exfalso.
    assert (relb f = true) as Hrel.
    { apply (unreliable_sum_zero (holdings q)); [exact Hn|]. rewrite Eh. apply list_elem_of_here. }
    assert (f ∈ gone) as Hin.
    { rewrite <- Hh, Hf1. apply elem_of_app. right. apply list_elem_of_here. }
    rewrite (Hgone f Hin) in Hrel. done.
Qed.

(** Insertions of reliable messages leave the unreliable bytes alone. *)
Lemma insert_reliable_u r buf channel owned q :
  sendq_inv q -> in_range 16 (mtu q) -> is_unreliable r = false ->
  u_bytes (insert_payload r buf channel owned q).2 = u_bytes q.
Proof.
  intros Hq Hm Hr. pose proof (inv_bytes _ _ Hq) as [Hb _].
  destruct (insert_payload r buf channel owned q) as [res q'] eqn:E.
  destruct (insert_payload_cases r buf channel owned q Hb) as [(_ & E')|(_ & q1 & E' & _)];
    rewrite E in E'; injection E' as -> ->; [done|]. simpl.
  destruct (insert_adds r buf channel owned q q1 Hq Hm E) as (fs & Hh & _ & _ & Hrel & _).
  rewrite (u_bytes_perm _ _ Hh), sumZ_app, unreliable_sum_reliable; [done|].
  intros f (g & -> & Hg)%list_elem_of_fmap. rewrite relb_body. unfold relb.
  rewrite (is_reliable_ok g r); [by destruct r|]. by apply (proj1 (list.Forall_forall _ _) Hrel).
Qed.

(** ** Capacity *)

Lemma u_bytes_bound q : sendq_inv q -> 0 <= u_bytes q <= buffered_bytes q.
Proof.
  intros Hq. split; [apply unreliable_sum_nonneg|]. rewrite (ac_bytes _ _ _ (sq_accounted _ _ Hq)). cbn [app].
  pose proof (live_sum_nonneg _ _ _ (sq_accounted _ _ Hq)).
  assert (u_bytes q <= sumZ cost (holdings q)); [|lia]. unfold u_bytes. clear. induction (holdings q) as [|f fs IH]; [done|].
  cbn [sumZ foldr]. unfold sumZ in IH. pose proof (cost_ge f). unfold unreliable_cost, FRAME_BUDGET in *. case_if; lia.
Qed.

(** A queue with more in it has capacity for less. *)
Lemma reserved_antitone q q' r n :
  settled q -> settled q' -> no_room q q' -> 0 <= n ->
  has_reserved_capacity q' r n <> Ok false -> has_reserved_capacity q r n <> Ok false.
Proof.
  intros Hq Hq' [Em Eo Hr Hu _] Hn. unfold has_reserved_capacity, mbind, result_bind, rel_bytes in *.
  pose proof (inv_bytes _ _ (st_inv _ Hq)) as [B1 _]. pose proof (inv_bytes _ _ (st_inv _ Hq')) as [B2 _].
  unfold MAX_BUFFERED_BYTES, SEND_HIGH_WATER in *. unfold send_options in Eo.
  pose proof (u_bytes_bound q (st_inv _ Hq)) as P1. pose proof (u_bytes_bound q' (st_inv _ Hq')) as P2.
  destruct (scheduler q) as [s|] eqn:Es, (scheduler q') as [s'|] eqn:Es'; try discriminate.
  2: { intros H' H0. apply H'. f_equal. injection H0 as H0. unfold sat_usize, U64_MAX in *. lia. }
  injection Eo as Eo. rewrite Eo.
  pose proof (u_bytes_scheduled q s (st_inv _ Hq) Es) as U1. pose proof (u_bytes_scheduled q' s' (st_inv _ Hq') Es') as U2.
  destruct (st_some _ Hq s Es) as (_ & _ & [_ _ Hv1 Hv2 Hv3 _]). unfold SendOptions.MAX_BYTES in *.
  rewrite U1, U2 in *. unfold sat_usize, U64_MAX in *.
  destruct (is_unreliable r); cbn [negb andb].
  - destruct (_ <? n); [done|]. intros H' H0. apply H'. f_equal. injection H0 as H0. lia.
  - destruct ((unreliable_bytes s =? 0) && (n <=? SendOptions.reliable_queue_bytes (options s))) eqn:F1,
      ((unreliable_bytes s' =? 0) && (n <=? SendOptions.reliable_queue_bytes (options s))) eqn:F2.
    + intros H' H0. apply H'. f_equal. injection H0 as H0. lia.
    + destruct (_ <? n) eqn:F3; [blia|]. intros H' H0. apply H'. f_equal. injection H0 as H0.
      rewrite usize_sub_exact by lia. blia.
    + blia.
    + destruct (_ <? n); [done|]. intros H' H0. apply H'. f_equal. injection H0 as H0.
      rewrite usize_sub_exact in H0 |- * by lia. lia.
Qed.
End Sections.
