(* ===== verification/SendQProgress.v ===== *)
(** * The send queue never stalls

    A flush that sends nothing has nothing it may send: no unreliable frame waits, and a
    reliable one waits only behind a full window. So a queue with nothing in flight sends
    whatever options from the builders pace it, since no frame of a negotiated path exceeds
    the smallest budget. *)

From S2P Require Import Prelude Errors Sequence Frame FrameCodec Fragment RecvQ SendOptions SendQ SendQInv SendQInsert SendQFlow SendQRun SendQWire SendQSched Sending SendQWait.
Import SendQ.

Section Progress.
Context {feat : Features} {usort : UnstableSort}.
Implicit Types (q : SendQ) (f : FrameSetPacket) (st : Round).

Lemma size_of_body f : size_of (body f) = size_of f.
Proof. done. Qed.

Lemma sendable_size m f : sendable m f -> 0 < size_of f <= m - 28.
Proof.
  intros [Hwf Hfit]. unfold size_of. rewrite (_size_ok f (rel_of f)) by apply (wf_validated _ _ Hwf).
  pose proof (header_size_bounds (rel_of f) (is_fragment f)). unfold data_len, FramePayload.len in *. lia.
Qed.

(** ** The scheduler's lanes *)

Definition sent_count st : nat := length (frames (output st)).

(** Nothing but the cursor changed. *)
Definition same_round st st' : Prop := st' = at_cursor st (retry_cursor st').

Lemma same_round_refl st : same_round st st.
Proof. by destruct st. Qed.

Lemma same_round_trans st1 st2 st3 : same_round st1 st2 -> same_round st2 st3 -> same_round st1 st3.
Proof. unfold same_round, at_cursor. intros -> ->. done. Qed.

Lemma lane_send_count now probe lane st charge cursor :
  lane_charge lane st = (Some charge, cursor) ->
  sent_count (lane_send now probe lane charge (at_cursor st cursor)) = S (sent_count st).
Proof.
  intros H. unfold lane_charge in H. unfold lane_send, sent_count. simpl. case_if_in H; [|case_if_in H].
  - destruct (unreliable (sched st)) as [|p rest]; [discriminate|]. simpl. rewrite length_app. simpl. lia.
  - case_if_in H; [discriminate|]. injection H as Hc <-.
    destruct (sent_packet (queue st) !! _) as [item|]; [|discriminate].
    destruct (resent now probe item (queue st)) as [item' q1]. simpl. rewrite length_app. simpl. lia.
  - destruct (packets (queue st)) as [|p rest]; [discriminate|]. set (q1 := queue st <| packets := rest |>).
    pose proof (assign_group_length (coalesce q1 && packable p) p (group st) (output st) q1) as Ea.
    unfold q1 in *. simpl in *. destruct (assign_group _ _ _ _ _) as [[[p' g'] out'] q2]. simpl in *.
    rewrite length_app, Ea. simpl. lia.
Qed.

Lemma lane_loop_progresses fuel now probe lane quantum lane_bytes progressed st :
  let '(stop, _, st') := lane_loop fuel now probe lane quantum lane_bytes progressed st in
  (sent_count st < sent_count st')%nat \/
  ((0 < fuel)%nat -> leaves_rounds stop = false) /\ same_round st st' /\ ((0 < fuel)%nat -> lane_bytes < quantum -> idle_lane lane st).
Proof.
  revert lane_bytes progressed st. induction fuel as [|fuel IH]; intros lane_bytes progressed st; cbn [lane_loop].
  { right. split; [lia|]. split; [apply same_round_refl|lia]. }
  case_if; [right; split; [done|]; split; [apply same_round_refl|]; b2p; lia|].
  unfold idle_lane. destruct (lane_charge lane st) as [[charge|] cursor] eqn:Ec; [|right; by split].
  fold (at_cursor st cursor). cbv zeta. case_if.
  { right. split; [done|]. split; [done|]. intros _ _ charge' [= <-]. simpl in *. blia. }
  pose proof (lane_send_count now probe lane st charge cursor Ec) as Hs.
  set (st2 := lane_send _ _ _ _ _) in *. case_if; [left; unfold sent_count in *; simpl in *; lia|].
  match goal with |- context [lane_loop fuel now probe lane quantum ?b true ?x] =>
    specialize (IH b true x); set (st3 := x) in * end.
  assert (sent_count st3 = sent_count st2) as E3 by done.
  destruct (lane_loop _ _ _ _ _ _ _ st3) as [[stop p'] st']. left. destruct IH as [IH|(_ & -> & _)]; [lia|].
  unfold sent_count, at_cursor in *. simpl in *. lia.
Qed.

(** A lane before another one that sends nothing is as idle after it. *)
Lemma idle_lane_same lane st st' : lane <> 1 -> same_round st st' -> idle_lane lane st' -> idle_lane lane st.
Proof.
  intros Hl -> Hi charge. specialize (Hi charge). unfold lane_charge in *. simpl in *.
  rewrite (proj2 (Z.eqb_neq lane 1) Hl) in *. destruct (lane =? 0); simpl in *; exact Hi.
Qed.

Lemma lanes_progresses fuel now probe quantum start offsets progressed st :
  (0 < fuel)%nat -> 0 < quantum ->
  let st' := (lanes fuel now probe quantum start offsets progressed st).2 in
  (sent_count st < sent_count st')%nat \/
  same_round st st' /\ forall offset, offset ∈ offsets -> (start + offset) `mod` 3 <> 1 ->
    idle_lane ((start + offset) `mod` 3) st.
Proof.
  intros Hf Hq. revert progressed st. induction offsets as [|offset offsets IH]; intros progressed st; cbn [lanes].
  { right. split; [apply same_round_refl|]. by intros ? ?%not_elem_of_nil. }
  pose proof (lane_loop_progresses fuel now probe ((start + offset) `mod` 3) quantum 0 progressed st) as Hl.
  destruct (lane_loop _ _ _ _ _ _ _ _) as [[stop progressed'] st1].
  specialize (IH progressed' st1). destruct Hl as [Hl|(Ex & Hsame & Hidle)]; [|rewrite (Ex Hf)].
  { left. case_if; [exact Hl|]. destruct IH as [IH|[-> _]]; [cbv beta iota; lia|exact Hl]. }
  destruct IH as [IH|[Hs IH]]; [left; assert (sent_count st1 = sent_count st) as E by (by rewrite Hsame); cbv beta iota; lia|]. right.
  split; [by apply (same_round_trans _ st1)|].
  intros o [->|Ho]%elem_of_cons Hne; [by apply Hidle|]. apply (idle_lane_same _ _ st1 Hne Hsame). by apply IH.
Qed.

Lemma lanes_count fuel now probe quantum start offsets progressed st :
  (sent_count st <= sent_count (lanes fuel now probe quantum start offsets progressed st).2)%nat.
Proof.
  revert progressed st. induction offsets as [|offset offsets IH]; intros progressed st; cbn [lanes]; [done|].
  pose proof (lane_loop_progresses fuel now probe ((start + offset) `mod` 3) quantum 0 progressed st) as Hl.
  destruct (lane_loop _ _ _ _ _ _ _ _) as [[stop progressed'] st1].
  assert (sent_count st <= sent_count st1)%nat by (destruct Hl as [?|(_ & -> & _)]; [lia|done]).
  case_if; [done|]. etransitivity; [done|apply IH].
Qed.

Lemma rounds_count fuel lane_fuel now probe quantum st :
  (sent_count st <= sent_count (rounds fuel lane_fuel now probe quantum st).2)%nat.
Proof.
  revert st. induction fuel as [|fuel IH]; intros st; cbn [rounds]; [done|].
  pose proof (lanes_count lane_fuel now probe quantum (next_lane (sched st)) [0; 1; 2] false st) as Hl.
  destruct (lanes _ _ _ _ _ _ _ _) as [[stop progressed] st1]. cbn [snd] in Hl. case_if; [done|]. case_if; [done|].
  etransitivity; [exact Hl|apply IH].
Qed.

(** Rounds that send nothing find the two lanes of new frames idle. *)
Lemma rounds_progresses fuel lane_fuel now probe quantum st lane :
  (0 < fuel)%nat -> (0 < lane_fuel)%nat -> 0 < quantum -> lane = 0 \/ lane = 2 ->
  sent_count (rounds fuel lane_fuel now probe quantum st).2 = sent_count st -> idle_lane lane st.
Proof.
  destruct fuel as [|fuel]; [lia|]. intros _ Hf Hq Hlane. cbn [rounds].
  pose proof (lanes_progresses lane_fuel now probe quantum (next_lane (sched st)) [0; 1; 2] false st Hf Hq) as Hl.
  destruct (lanes _ _ _ _ _ _ _ _) as [[stop progressed] st1]. cbn [snd] in Hl. intros Hr.
  destruct Hl as [Hl|[_ Hl]].
  { exfalso. case_if_in Hr; [simpl in Hr; lia|]. case_if_in Hr; [simpl in Hr; lia|]. pose proof (rounds_count fuel lane_fuel now probe quantum st1). lia. }
  set (start := next_lane (sched st)) in *.
  assert (exists offset, offset ∈ [0; 1; 2] /\ (start + offset) `mod` 3 = lane) as (offset & Hin & <-).
  { exists ((lane - start) `mod` 3). pose proof (Z.mod_pos_bound (lane - start) 3) as Hb.
    split; [rewrite !elem_of_cons; lia|]. rewrite Zplus_mod_idemp_r. replace (start + (lane - start)) with lane by lia.
    by destruct Hlane as [->| ->]. }
  apply Hl; [done|lia].
Qed.

(** ** A flush that sends nothing *)

(** Why the reliable frame [f], first in the backlog, has to wait. *)
Definition window_full (paced : option SendScheduler) q f : bool :=
  match paced with
  | None => MAX_IN_FLIGHT_PACKETS <=? zlen (sent_packet q)
  | Some s => (SendOptions.in_flight_frames (options s) <=? zlen (sent_packet q))
              || (SendOptions.in_flight_bytes (options s) <? sumZ size_of (flight q) + size_of f)
  end.

Lemma flush_queue_count count now g (out : OutgoingFrames) q :
  (length (frames out) <= length (frames (flush_queue count now g out q).1))%nat.
Proof.
  revert g out q. induction count as [|count IH]; intros g out q; cbn [flush_queue]; [done|].
  case_if; [done|]. destruct (packets q) as [|f rest]; [done|]. case_if; [apply IH|].
  set (assigned := if coalesce _ then _ else _).
  assert (frames assigned.1.2 = frames out) as Ea
    by (unfold assigned; case_if; [apply assign_group_length|done]).
  destruct assigned as [[[f' g'] out'] q']. simpl in Ea. etransitivity; [|apply IH].
  simpl. rewrite length_app, Ea. lia.
Qed.

Lemma flush_queue_progresses count now g (out : OutgoingFrames) q f rest :
  packets q = f :: rest -> frames (flush_queue (S count) now g out q).1 = [] ->
  MAX_IN_FLIGHT_PACKETS <= zlen (sent_packet q).
Proof.
  intros Hp. cbn [flush_queue]. rewrite Hp. destruct (MAX_IN_FLIGHT_PACKETS <=? _) eqn:Ef; [intros; blia|].
  cbn [andb]. rewrite andb_false_r. set (assigned := if coalesce _ then _ else _).
  destruct assigned as [[[f' g'] out'] q']. intros H. apply (f_equal length) in H.
  match type of H with context [flush_queue count now g' ?o ?x] =>
    pose proof (flush_queue_count count now g' o x) as Hc end.
  rewrite H in Hc. simpl in Hc. rewrite length_app in Hc. simpl in Hc. lia.
Qed.

Lemma flush_legacy_full now q f rest :
  packets q = f :: rest -> frames (flush_legacy now q).1 = [] -> MAX_IN_FLIGHT_PACKETS <= zlen (sent_packet q).
Proof.
  intros Hp. unfold flush_legacy. pose proof (tick_keeps now q) as K1. set (q1 := tick now q) in *. clearbody q1.
  set (r2 := if recovery_policy then take_probe_packing q1 else (false, q1)).
  assert (keeps q1 r2.2) as K2 by (unfold r2; destruct recovery_policy; [apply take_probe_packing_keeps|done]).
  destruct r2 as [packing q2]. simpl in K2. pose proof (sort_if_dirty_keeps q2) as K3.
  set (q3 := sort_if_dirty q2) in *. clearbody q3.
  set (r4 := if recovery_policy then take_probe_replay q3 else (None, q3)).
  assert (keeps q r4.2) as K4.
  { etransitivity; [exact K1|]. etransitivity; [exact K2|]. etransitivity; [exact K3|].
    unfold r4. destruct recovery_policy; [apply take_probe_replay_keeps|done]. }
  destruct r4 as [probe q4]. simpl in K4. clear K1 K2 K3.
  set (r5 := if retries_pending q4 then _ else ([], q4)).
  assert (packets r5.2 = packets q4 /\ length (sent_packet r5.2) = length (sent_packet q4)) as [H5 H5'].
  { unfold r5. case_if; [|done]. pose proof (resend_items_keeps now probe (sent_packet q4) [] q4) as Hk.
    destruct (resend_items _ _ _ _ q4) as [[items ret] q5]. destruct Hk as (Hm & Hk & _). simpl in *.
    split; [apply Hk|]. apply (f_equal length) in Hm. by rewrite !length_map in Hm. }
  destruct r5 as [ret q5]. cbn [snd] in *. rewrite (keeps_packets _ _ K4), Hp in H5. rewrite H5. intros Hout.
  pose proof (keeps_in_flight _ _ K4) as Ek. pose proof (flush_queue_progresses _ _ _ _ _ _ _ H5 Hout). lia.
Qed.

Lemma keeps_flight_bytes q q' : keeps q q' -> sumZ (fun p => size_of (frame p)) (sent_packet q') = sumZ size_of (flight q).
Proof.
  intros Hk. rewrite <- (sumZ_perm size_of _ _ (keeps_flight _ _ Hk)). unfold flight, sumZ.
  induction (sent_packet q') as [|p l IH]; [done|]. simpl. by rewrite IH.
Qed.

Lemma flush_scheduled_idle now q s :
  scheduler q = Some s -> 0 < mtu q -> frames (flush_scheduled now q).1 = [] ->
  (forall f, head (unreliable s) = Some f -> SendOptions.flush_bytes (options s) < size_of f) /\
  (forall f, head (packets q) = Some f ->
     window_full (Some s) q f = true \/ SendOptions.flush_bytes (options s) < size_of f).
Proof.
  intros Hs Hm. unfold flush_scheduled.
  assert (keeps q (sort_if_dirty (tick now q))) as K1
    by (etransitivity; [apply tick_keeps|apply sort_if_dirty_keeps]).
  set (q1 := sort_if_dirty _) in *. clearbody q1. rewrite (keeps_scheduler _ _ K1), Hs.
  rewrite (keeps_flight_bytes (q1 <| scheduler := None |>) (q1 <| scheduler := None |>)) by done.
  set (r2 := if recovery_policy then take_probe_packing (q1 <| scheduler := None |>) else _).
  assert (keeps (q1 <| scheduler := None |>) r2.2) as K2
    by (unfold r2; destruct recovery_policy; [apply take_probe_packing_keeps|done]).
  destruct r2 as [packing q2]. simpl in K2. set (r3 := if recovery_policy then take_probe_replay q2 else _).
  assert (keeps (q1 <| scheduler := None |>) r3.2) as K3.
  { etransitivity; [exact K2|]. unfold r3. destruct recovery_policy; [apply take_probe_replay_keeps|done]. }
  assert (0 < mtu q2 * 4) as Hquantum by (rewrite (keeps_mtu _ _ K2); simpl; rewrite (keeps_mtu _ _ K1); lia).
  destruct r3 as [probe q3]. cbn [snd] in K3. cbv zeta. set (fuel := S _).
  assert (0 < fuel)%nat as Hf by (unfold fuel; lia). clearbody fuel.
  match goal with |- context [rounds fuel fuel now probe (mtu q2 * 4) ?x] => set (st0 := x) end. cbn [fst].
  intros Hout. assert (sent_count (rounds fuel fuel now probe (mtu q2 * 4) st0).2 = sent_count st0) as Hcount
    by (unfold sent_count; by rewrite Hout).
  pose proof (rounds_progresses _ _ _ _ _ _ 0 Hf Hf Hquantum (or_introl eq_refl) Hcount) as Hu.
  pose proof (rounds_progresses _ _ _ _ _ _ 2 Hf Hf Hquantum (or_intror eq_refl) Hcount) as Hr. clear Hcount Hout.
  unfold idle_lane, lane_charge in Hu, Hr. simpl in Hu, Hr. split.
  { intros f Hf'. destruct (unreliable s) as [|g l]; [done|]. injection Hf' as ->. by apply (Hu _ eq_refl). }
  intros f Hf'. rewrite (keeps_packets _ _ K3) in Hr. simpl in Hr. rewrite (keeps_packets _ _ K1) in Hr.
  pose proof (keeps_in_flight _ _ K3) as E3. simpl in E3. rewrite (keeps_in_flight _ _ K1) in E3.
  assert (sumZ size_of (flight (q1 <| scheduler := None |>)) = sumZ size_of (flight q)) as Eb
    by (apply sumZ_perm; exact (keeps_flight _ _ K1)).
  destruct (packets q) as [|g l]; [done|]. injection Hf' as ->. rewrite E3, Eb in Hr. unfold window_full.
  destruct (_ && _) eqn:Ew; [right; by apply (Hr _ eq_refl)|left]. apply orb_true_iff. b2p. lia.
Qed.

(** ** After any history *)

(** A path that [connect_with_version_and_mtu] and the listener negotiate. *)
Definition negotiated_mtu (m : Z) : Prop := 61 <= m <= 1492.

Lemma held_size q f : wire_inv q -> negotiated_mtu (mtu q) -> body f ∈ holdings q -> 0 < size_of f <= 1464.
Proof.
  intros Hw Hm Hin. pose proof (sendable_size _ _ (wire_holdings _ Hw _ Hin)) as H. rewrite size_of_body in H.
  unfold negotiated_mtu in Hm. lia.
Qed.

Lemma sends_nothing_holds now q :
  sendq_inv q -> frames (flush now q).1 = [] -> holdings (flush now q).2 ≡ₚ holdings q.
Proof.
  intros Hq Hout. destruct (flush_sends now q Hq) as [_ _ _ (gone & Hh & Hg)]. rewrite Hout in Hg. simpl in Hg.
  destruct gone as [|g gone]; [done|]. destruct (Hg g) as [_ H%not_elem_of_nil]; [apply list_elem_of_here|done].
Qed.

Lemma flush_conserves now q :
  wire_inv q -> valid_options q -> negotiated_mtu (mtu q) -> frames (flush now q).1 = [] ->
  (forall f, f ∈ holdings q -> relb f = true) /\
  (forall f, head (packets q) = Some f -> window_full (scheduled now q) q f = true).
Proof.
  intros Hw Hv Hm Hout. pose proof (wire_accounted _ Hw) as Hq.
  assert (scheduler q = None -> forall f, f ∈ holdings q -> relb f = true) as Hnone.
  { intros Hs f. destruct (flush_unscheduled now q Hq Hs) as [_ Hu].
    rewrite (u_bytes_perm _ _ (sends_nothing_holds now q Hq Hout)) in Hu. by apply unreliable_sum_zero. }
  assert (forall s, scheduler q = Some s -> unreliable s = [] -> forall f, f ∈ holdings q -> relb f = true) as Hsome.
  { intros s Hs Hu f. apply unreliable_sum_zero. change (sumZ unreliable_cost (holdings q)) with (u_bytes q).
    rewrite (u_bytes_scheduled q s Hq Hs). destruct (sq_scheduler _ _ Hq s Hs) as [-> _]. by rewrite Hu. }
  revert Hout. unfold flush, scheduled. pose proof (reset_recovery_keeps now q) as K.
  rewrite (keeps_scheduler _ _ K). set (q1 := reset_recovery now q) in *. clearbody q1.
  assert (forall f, head (packets q) = Some f -> frames (flush_legacy now q1).1 = [] -> window_full None q f = true) as Hleg.
  { intros f Hf Hout. destruct (packets q) as [|g l] eqn:Ep; [done|]. unfold window_full. apply Z.leb_le.
    rewrite <- (keeps_in_flight _ _ K). apply (flush_legacy_full now q1 g l); [by rewrite (keeps_packets _ _ K)|done]. }
  destruct (scheduler q) as [s|] eqn:Es; [|rewrite andb_false_r; intros Hout; split; [by apply Hnone|by auto]].
  case_if.
  2: { intros Hout. split; [|by auto]. apply (Hsome s eq_refl). destruct (sq_policy _ _ Hq s Es) as [Hp _].
       rewrite Hp in *. destruct (unreliable s); [done|]. simpl in *. by rewrite orb_true_r in *. }
  intros Hout. destruct (Hv s Es) as [_ _ _ _ _ Hfl].
  assert (scheduler q1 = Some s) as Es1 by (by rewrite (keeps_scheduler _ _ K)).
  destruct (flush_scheduled_idle now q1 s Es1) as [Hu Hr];
    [rewrite (keeps_mtu _ _ K); unfold negotiated_mtu in Hm; lia|done|].
  rewrite (keeps_packets _ _ K) in Hr. split.
  - apply (Hsome s eq_refl). destruct (unreliable s) as [|f l] eqn:El; [done|]. exfalso. specialize (Hu f eq_refl).
    assert (0 < size_of f <= 1464); [|lia]. apply (held_size q); [done..|]. unfold holdings, waiting_unreliable.
    rewrite Es, El, !elem_of_app. right. right. apply list_elem_of_here.
  - intros f Hf. destruct (Hr f Hf) as [Hfull|Hfull].
    + revert Hfull. unfold window_full. rewrite (keeps_in_flight _ _ K).
      by rewrite (sumZ_perm size_of _ _ (keeps_flight _ _ K)).
    + exfalso. assert (0 < size_of f <= 1464); [|lia]. apply (held_size q); [done..|].
      destruct (packets q) as [|g l] eqn:Ep; [done|]. injection Hf as ->. unfold holdings. rewrite Ep.
      apply elem_of_app. left. apply list_elem_of_here.
Qed.

(** With nothing in flight there is no full window to wait for. *)
Lemma idle_empty now q :
  wire_inv q -> valid_options q -> negotiated_mtu (mtu q) -> frames (flush now q).1 = [] -> sent_packet q = [] ->
  holdings q = [].
Proof.
  intros Hw Hv Hm Hout Hs. destruct (flush_conserves now q Hw Hv Hm Hout) as [Hrel Hfull].
  pose proof (wire_accounted _ Hw) as Hq.
  assert (packets q = []) as Hp.
  { destruct (packets q) as [|f l] eqn:Ep; [done|]. specialize (Hfull f eq_refl). exfalso.
    assert (0 < size_of f <= 1464) as Hf.
    { apply (held_size q); [done..|]. unfold holdings. rewrite Ep. apply elem_of_app. left. apply list_elem_of_here. }
    unfold window_full, flight, scheduled in Hfull. rewrite Hs in Hfull.
    rewrite (keeps_scheduler _ _ (reset_recovery_keeps now q)) in Hfull.
    destruct (scheduler q) as [s|] eqn:Es; [case_if_in Hfull; [|done]|done]. destruct (Hv s Es). simpl in Hfull. b2p. lia. }
  unfold holdings, flight. rewrite Hp, Hs. simpl. destruct (waiting_unreliable q) as [|f l] eqn:Ew; [done|]. exfalso.
  assert (relb (body f) = true) as Hf.
  { apply Hrel. unfold holdings. rewrite Ew, !elem_of_app. right. right. apply list_elem_of_here. }
  unfold waiting_unreliable in Ew. destruct (scheduler q) as [s|] eqn:Es; [|done].
  destruct (sq_scheduler _ _ Hq s Es) as [_ Hu]. rewrite Ew in Hu. apply list.Forall_cons in Hu as [Hu _].
  rewrite relb_body in Hf. congruence.
Qed.

(** C9: the send queue never stalls. After any history on a negotiated path, with options
    from the builders or none, a flush that sends nothing holds no unreliable frame, and
    holds a new reliable frame back only because the flight window is full: 64 frames, or
    the frames or bytes of the send options. So with nothing in flight, a flush that sends
    nothing has an empty queue. *)
Theorem flush_is_work_conserving m events now :
  negotiated_mtu m -> Forall channels_ok events -> Forall valid_event events ->
  let q := run m events in
  frames (flush now q).1 = [] ->
  (forall f, f ∈ holdings q -> relb f = true) /\
  (forall f, head (packets q) = Some f -> window_full (scheduled now q) q f = true) /\
  (sent_packet q = [] -> is_empty q = true).
Proof.
  intros Hm Hc Hv q Hout. assert (in_range 16 m) as Hm16 by (unfold negotiated_mtu, in_range in *; lia).
  destruct (run_wire m events) as [Hw Em]; [unfold path_mtu, negotiated_mtu in *; lia|done|].
  pose proof (run_valid m events Hm16 Hv) as Ho. fold q in Hw, Em, Ho. rewrite <- Em in Hm.
  destruct (flush_conserves now q Hw Ho Hm Hout) as [Hrel Hfull]. split; [done|]. split; [done|].
  intros Hs. apply is_empty_iff; [apply Hw|]. by apply (idle_empty now).
Qed.
End Progress.

(** ** The theorem at work *)

(** The tightest budgets, a full flight of one frame, and another that waits for it. *)
Definition sample_tight : list event :=
  [SetSendOptions (SendOptions.mk 1 2048 65536 65536 2048); Insert Reliability.ReliableOrdered (repeat 1 1400) 0 false;
   Insert Reliability.Reliable [2] 0 false; Flush 10].

Lemma sample_tight_ok : Forall channels_ok sample_tight /\ Forall valid_event sample_tight.
Proof.
  split; repeat (apply Forall_cons_2; [cbn; first [exact I|unfold in_range; lia|split; cbn; unfold SendOptions.MAX_BYTES; lia]|]);
    apply Forall_nil_2.
Qed.

Lemma flush_is_work_conserving_witness :
  let q := @run all_features merge_sort_flight 1492 sample_tight in
  frames (@flush all_features merge_sort_flight 20 q).1 = [] /\ length (packets q) = 1%nat /\
  exists f, head (packets q) = Some f /\ window_full (@scheduled all_features 20 q) q f = true.
Proof.
  intros q. assert (frames (@flush all_features merge_sort_flight 20 q).1 = []) as Hout by (vm_compute; reflexivity).
  destruct (@flush_is_work_conserving all_features merge_sort_flight 1492 sample_tight 20) as (_ & Hf & _).
  - unfold negotiated_mtu. lia.
  - apply sample_tight_ok.
  - apply sample_tight_ok.
  - exact Hout.
  - split; [exact Hout|]. split; [vm_compute; reflexivity|]. eexists. split; [vm_compute; reflexivity|].
    apply Hf. vm_compute. reflexivity.
Defined.
