(* ===== verification/Waiting.v ===== *)
(** * Waiting for the send queue

    [send_payload], [send_batch_payload] and [flush] of [src/src/socket.rs] wait on one
    [Notify], [send_capacity], when the queue has no room or is not empty. Acknowledgements,
    changes of options and the scheduler's flush call [notify_waiters], which wakes those
    registered and leaves no permit: a wake-up between a check and the registration would be
    lost. Here the calls run step by step, the critical sections of the tasks fall between
    their steps, and a call can be dropped at any of its steps, as a timeout does. *)

From S2P Require Import Prelude Errors Sequence Packet Frame FrameCodec Fragment RecvQ SendOptions SendQ SendQInv SendQInsert SendQFlow SendQRun SendQSched Sending SendQWait.
Import SendQ.

(** ** Calls *)

(** A batch is sent together only when [ReliableOrdered] ([Socket.batch_check]). *)
Inductive Want : Type :=
  | WantSend (r : Reliability) (buf : list Z) (order_channel : Z) (owned : bool)
  | WantBatch (borrowed owned : list (list Z)) (order_channel : Z)
  | WantFlush.

(** Where a call is: about to take the lock for its message, about to register with
    [enable], registered and about to check under the lock, in [select!], or in
    [transmit_frames] with what its section returned. [notified] belongs to the registered
    future; [accepted] says whether a dropped call had come to [transmit_frames]. *)
Inductive Phase : Type :=
  | Check
  | Enable
  | Recheck (notified : bool)
  | Parked (notified : bool)
  | Transmit (out : OutgoingFrames)
  | Returned (r : Result unit)
  | Dropped (accepted : bool).

Record Call := mk_call { want : Want; phase : Phase }.

(** The loop of [send_payload] begins with the check, the others with the registration. *)
Definition loop_start (w : Want) : Phase :=
  match w with WantSend _ _ _ _ => Check | _ => Enable end.

(** [notify_waiters] reaches the futures registered so far. *)
Definition notify (c : Call) : Call :=
  mk_call (want c)
    match phase c with
    | Recheck _ => Recheck true
    | Parked _ => Parked true
    | p => p
    end.

Section Calls.
Context {feat : Features} {usort : UnstableSort}.

(** The call's future is dropped: a timeout, or a [select!] of the caller. *)
Definition abandon (c : Call) : Call :=
  mk_call (want c)
    match phase c with
    | Transmit _ => Dropped true
    | Returned r => Returned r
    | Dropped accepted => Dropped accepted
    | _ => Dropped false
    end.

(** A section that queues messages, by its result: [Ok None] finds no capacity. *)
Definition after_section (r : Result (option OutgoingFrames)) (no_capacity : Phase) : Phase :=
  match r with
  | Err e => Returned (Err e)
  | Ok None => no_capacity
  | Ok (Some out) => Transmit out
  end.

(** The next step of a call, at [now]: the loops of [send_payload], [send_batch_payload] and
    [flush]; [close_first] is the choice of [select!] when the connection is closed and the
    future notified, [sent] the outcome of the transmission ([Socket.transmit_sent]). *)
Definition advance (now : Z) (close_first : bool) (sent : Result unit) (closed : bool) (c : Call) (q : SendQ) : Call * SendQ :=
  let '(p, q) :=
    match phase c, want c with
    | Check, WantSend r buf order_channel owned =>
        let '(res, q) := send_payload_locked r buf order_channel owned now q in
        (after_section res Enable, q)
    | Check, _ => (Enable, q)
    | Enable, _ => (Recheck false, q)
    | Recheck notified, WantSend r buf _ _ =>
        (match has_capacity q r (zlen buf) with
         | Err e => Returned (Err e)
         | Ok true => Check
         | Ok false => Parked notified
         end, q)
    | Recheck notified, WantBatch borrowed owned order_channel =>
        let '(res, q) := send_batch_locked borrowed owned Reliability.ReliableOrdered order_channel now q in
        (after_section res (Parked notified), q)
    | Recheck notified, WantFlush =>
        (if closed then Returned (Err ConnectionClosed)
         else if is_empty q then Returned (Ok tt) else Parked notified, q)
    | Parked notified, w =>
        (if closed && (close_first || negb notified) then Returned (Err ConnectionClosed)
         else if notified then loop_start w else Parked notified, q)
    | Transmit _, _ => (Returned sent, q)
    | Returned r, _ => (Returned r, q)
    | Dropped accepted, _ => (Dropped accepted, q)
    end in
  (mk_call (want c) p, q).

(** What a call waits for: that its check would not find it waiting. *)
Definition ready (w : Want) (q : SendQ) : bool :=
  match w with
  | WantSend r buf _ _ => negb (bool_decide (has_capacity q r (zlen buf) = Ok false))
  | WantBatch borrowed owned _ =>
      negb (bool_decide (has_batch_capacity q Reliability.ReliableOrdered
                           (map (fun m => zlen m) (borrowed ++ owned)) = Ok false))
  | WantFlush => is_empty q
  end.

(** ** The connection, as its callers see it *)

(** [owed]: tasks that released the lock and are about to call [notify_waiters]. *)
Record Shared := mk_shared_state {
  queue : SendQ;
  closed : bool;
  owed : nat;
  callers : list Call;
}.

(** What the tasks do to the queue, a critical section each: [handle], the flush after it and
    the ticker's, the ACK and NACK arms of [start_receiver], [set_send_options],
    [set_recovery_options] and [close]. *)
Inductive event : Type :=
  | Arrive (w : Want)
  | Advance (i : nat) (now : Z) (close_first : bool) (sent : Result unit)
  | Cancel (i : nat)
  | Reply (packets : list (Reliability * list Z))
  | Flush (now : Z)
  | Acked (ranges : list (Z * Z)) (now flushed : Z)
  | Nacked (ranges : list (Z * Z)) (now flushed : Z)
  | NotifyWaiters
  | SetOptions (opts : SendOptions)
  | SetRecovery (opts : RecoveryOptions) (now : Z)
  | Close.

(** The queue after a section; the notifications its flush made reach the callers while it
    holds the lock. *)
Definition enter (q : SendQ) (self : Shared) : Shared :=
  mk_shared_state q (closed self) (owed self)
    (if calls (queue self) <? calls q then map notify (callers self) else callers self).

Definition step (e : event) (self : Shared) : Shared :=
  match e with
  | Arrive w =>
      mk_shared_state (queue self) (closed self) (owed self) (callers self ++ [mk_call w (loop_start w)])
  | Advance i now close_first sent =>
      match callers self !! i with
      | Some c =>
          let '(c, q) := advance now close_first sent (closed self) c (queue self) in
          let self := enter q self in
          mk_shared_state (queue self) (closed self) (owed self) (<[i := c]> (callers self))
      | None => self
      end
  | Cancel i => mk_shared_state (queue self) (closed self) (owed self) (alter abandon i (callers self))
  | Reply packets => enter (insert_replies packets (queue self)).2 self
  | Flush now => enter (SendQ.flush now (queue self)).2 self
  | Acked ranges now flushed =>
      let self := enter (SendQ.flush flushed (ack_ranges ranges now (queue self))).2 self in
      mk_shared_state (queue self) (closed self) (S (owed self)) (callers self)
  | Nacked ranges now flushed => enter (SendQ.flush flushed (nack_ranges ranges now (queue self))).2 self
  | NotifyWaiters =>
      match owed self with
      | O => self
      | S owed => mk_shared_state (queue self) (closed self) owed (map notify (callers self))
      end
  | SetOptions opts =>
      if send_policy && negb (closed self) then
        match set_send_options opts (queue self) with
        | (Err _, q) => enter q self
        | (Ok _, q) =>
            let self := enter (register_capacity_notifier q) self in
            mk_shared_state (queue self) (closed self) (S (owed self)) (callers self)
        end
      else self
  | SetRecovery opts now =>
      if recovery_policy && negb (closed self) then enter (SendQ.set_recovery_options opts now (queue self)) self else self
  | Close =>
      if closed self then self
      else match SendQ.insert Reliability.Reliable [PacketID.to_u8 PacketID.Disconnect] (queue self) with
           | (Err _, q) => enter q self
           | (Ok _, q) => let self := enter q self in mk_shared_state (queue self) true (owed self) (callers self)
           end
  end.

Definition run (mtu : Z) (events : list event) : Shared :=
  foldl (fun self e => step e self) (mk_shared_state (SendQ.new mtu) false 0 []) events.

End Calls.

(** ** No wake-up is lost *)

Section Waking.
Context {feat : Features} {usort : UnstableSort}.
Implicit Types (q : SendQ) (w : Want) (c : Call) (self : Shared) (e : event).

Lemma no_room_refl q : no_room q q.
Proof. by split. Qed.

Lemma no_room_bytes q q' : no_room q q' -> buffered_bytes q <= buffered_bytes q'.
Proof. intros [_ _ Hr Hu _]. unfold rel_bytes in *. lia. Qed.

Lemma required_bytes_same q q' r len : mtu q' = mtu q -> required_bytes q' r len = required_bytes q r len.
Proof. intros Em. unfold required_bytes, payload_limit. by rewrite Em. Qed.

Lemma batch_required_same q q' r lengths total :
  mtu q' = mtu q -> batch_required q' r lengths total = batch_required q r lengths total.
Proof.
  intros Em. revert total. induction lengths as [|len lengths IH]; intros total; simpl; [done|].
  rewrite (required_bytes_same q q') by done. destruct (required_bytes q r len); simpl; [|done]. by rewrite IH.
Qed.

(** Without the policy a single limit holds. *)
Lemma high_water_antitone q q' n :
  no_room q q' ->
  Ok (sat_usize (buffered_bytes q' + n) <=? Z.max SEND_HIGH_WATER n) <> (Ok false : Result bool) ->
  Ok (sat_usize (buffered_bytes q + n) <=? Z.max SEND_HIGH_WATER n) <> (Ok false : Result bool).
Proof.
  intros Hn%no_room_bytes H' H0. apply H'. f_equal. injection H0 as H0. unfold sat_usize, U64_MAX in *. lia.
Qed.

Lemma capacity_antitone q q' r len :
  settled q -> settled q' -> no_room q q' -> 0 <= len ->
  has_capacity q' r len <> Ok false -> has_capacity q r len <> Ok false.
Proof.
  intros Hq Hq' Hn Hl. unfold has_capacity. rewrite (required_bytes_same q q') by apply Hn.
  destruct (required_bytes q r len) as [n|err] eqn:E; [|done]. simpl.
  apply required_ok in E as (-> & [Hm _] & _). pose proof (reserved_bytes_nonneg q r len Hm Hl) as Hpos.
  destruct send_policy; [by apply reserved_antitone|by apply high_water_antitone].
Qed.

Lemma batch_capacity_antitone q q' r lengths :
  settled q -> settled q' -> no_room q q' -> Forall (fun len => 0 <= len) lengths ->
  has_batch_capacity q' r lengths <> Ok false -> has_batch_capacity q r lengths <> Ok false.
Proof.
  intros Hq Hq' Hn Hl. unfold has_batch_capacity. rewrite (batch_required_same q q') by apply Hn.
  destruct (batch_required q r lengths 0) as [n|err] eqn:E; [|done]. simpl.
  apply batch_required_ok in E as (-> & Hall & _).
  assert (0 <= 0 + batch_bytes q r lengths) as Hpos.
  { assert (0 <= batch_bytes q r lengths); [|lia]. apply sumZ_nonneg. intros len Hin.
    rewrite list.Forall_forall in Hall, Hl. apply reserved_bytes_nonneg; [apply (Hall len Hin)|by apply Hl]. }
  destruct send_policy; [|by apply high_water_antitone].
  unfold has_batch_required_capacity. rewrite (nr_options _ _ Hn). case_if; [done|]. by apply reserved_antitone.
Qed.

(** Where no room was made, no call has become ready. *)
Lemma ready_antitone w q q' :
  settled q -> settled q' -> no_room q q' -> ready w q' = true -> ready w q = true.
Proof.
  intros Hq Hq' Hn. destruct w as [r buf ch owned|borrowed owned ch|]; simpl.
  - rewrite !negb_true_iff, !bool_decide_eq_false. apply capacity_antitone; try done. lia.
  - rewrite !negb_true_iff, !bool_decide_eq_false. apply batch_capacity_antitone; try done.
    apply list.Forall_forall. intros len (m & -> & _)%list_elem_of_fmap. lia.
  - rewrite !is_empty_iff by (by apply st_inv). apply Hn.
Qed.

(** The invariant: a call that sleeps unnotified has nothing to go on with, or a task is
    about to notify it. *)
Record wait_inv self : Prop := {
  wi_settled : settled (queue self);
  wi_calls : forall c, c ∈ callers self -> phase c = Parked false -> ready (want c) (queue self) = true ->
    (0 < owed self)%nat;
}.

Lemma notify_not_parked c cs : c ∈ map notify cs -> phase c <> Parked false.
Proof. intros (c' & -> & _)%list_elem_of_fmap. unfold notify. by destruct (phase c') as [| |[]|[]| | |]. Qed.

(** A section that makes no room, or notifies. *)
Lemma enter_inv q self :
  wait_inv self -> settled q -> calls (queue self) < calls q \/ no_room (queue self) q -> wait_inv (enter q self).
Proof.
  intros [Hs Hc] Hq Hn. unfold enter. split; [done|]. simpl. intros c Hin Hp Hr.
  destruct (calls (queue self) <? calls q) eqn:E; [by apply notify_not_parked in Hin|].
  destruct Hn as [Hn|Hn]; [blia|]. apply (Hc c Hin Hp). by apply (ready_antitone _ _ q).
Qed.

(** A section followed by a notification. *)
Lemma enter_owed q self :
  settled q ->
  wait_inv (mk_shared_state (queue (enter q self)) (closed (enter q self)) (S (owed (enter q self))) (callers (enter q self))).
Proof. intros Hq. split; [done|]. simpl. lia. Qed.

Lemma keeps_settled q q' : settled q -> keeps q q' -> settled q'.
Proof.
  intros Hq Hk. apply (grows_settled q); [done|apply keeps_grows; [done|apply Hq]|].
  apply u_bytes_perm. exact (keeps_holdings _ _ Hk).
Qed.

Lemma insert_replies_grows packets q :
  settled q -> grows q (insert_replies packets q).2 /\
  (Forall (fun p => is_unreliable p.1 = false) packets -> u_bytes (insert_replies packets q).2 = u_bytes q).
Proof.
  intros [Hq Hm _ _]. revert q Hq Hm. induction packets as [|[r buf] packets IH]; intros q Hq Hm; cbn [insert_replies].
  { split; [by apply grows_refl|done]. }
  pose proof (insert_grows r buf 0 false q Hq Hm) as Hg.
  pose proof (insert_reliable_u r buf 0 false q Hq Hm) as Hu.
  change (SendQ.insert r buf) with (insert_payload r buf 0 false). unfold mbind, SE_bind.
  destruct (insert_payload r buf 0 false q) as [[[]|err] q1]; simpl in *.
  - destruct (IH q1) as [Hg1 Hu1]; [apply Hg|by rewrite (grows_mtu _ _ Hg)|]. split; [by apply (grows_trans q q1)|].
    intros [Hr Hps]%list.Forall_cons. rewrite Hu1, Hu; done.
  - split; [done|]. intros [Hr _]%list.Forall_cons. by apply Hu.
Qed.

Lemma insert_messages_grows messages channel owned q :
  sendq_inv q -> in_range 16 (mtu q) ->
  let q' := (insert_messages Reliability.ReliableOrdered messages channel owned q).2 in
  grows q q' /\ u_bytes q' = u_bytes q.
Proof.
  revert q. induction messages as [|m messages IH]; intros q Hq Hm; cbn [insert_messages].
  { split; [by apply grows_refl|done]. }
  pose proof (insert_grows Reliability.ReliableOrdered m channel owned q Hq Hm) as Hg.
  pose proof (insert_reliable_u Reliability.ReliableOrdered m channel owned q Hq Hm eq_refl) as Hu.
  unfold mbind, SE_bind. destruct (insert_payload _ m channel owned q) as [[[]|err] q1]; simpl in *; [|done].
  destruct (IH q1) as [Hg1 Hu1]; [apply Hg|by rewrite (grows_mtu _ _ Hg)|].
  split; [by apply (grows_trans q q1)|congruence].
Qed.

(** A section of the queue: it settles, and makes no room or notifies. *)
Definition sound_section q q' : Prop := settled q' /\ (calls q < calls q' \/ no_room q q').

Lemma sound_refl q : settled q -> sound_section q q.
Proof. intros Hq. split; [done|]. right. apply no_room_refl. Qed.

Lemma sound_grows q q' : settled q -> grows q q' -> u_bytes q' = u_bytes q -> sound_section q q'.
Proof. intros Hq Hg Hu. split; [by apply (grows_settled q)|]. right. by apply grows_no_room. Qed.

Lemma send_payload_section r buf channel owned now q :
  settled q -> sound_section q (send_payload_locked r buf channel owned now q).2.
Proof.
  intros Hq. unfold send_payload_locked. erewrite SE_bind_ok by reflexivity.
  destruct (has_capacity q r (zlen buf)) as [[|]|err]; [|by apply sound_refl..]. erewrite SE_bind_ok by reflexivity.
  set (ins := if owned then insert_bytes r buf channel else _).
  assert (ins = insert_payload r buf channel owned) as -> by (by destruct owned).
  pose proof (insert_grows r buf channel owned q (st_inv _ Hq) (st_mtu _ Hq)) as Hg.
  destruct (insert_payload r buf channel owned q) as [[[]|err] q1] eqn:E; unfold mbind, SE_bind; rewrite E; simpl in Hg.
  - unfold flush_frames. pose proof (flush_section now q q1 Hq Hg) as Hf. by destruct (flush now q1).
  - pose proof (inv_bytes _ _ (st_inv _ Hq)) as [Hb _].
    destruct (insert_payload_cases r buf channel owned q Hb) as [(_ & E')|(_ & ? & E' & _)]; rewrite E in E'; [|discriminate].
    injection E' as -> ->. by apply sound_refl.
Qed.

Lemma send_batch_section borrowed owned channel now q :
  settled q -> sound_section q (send_batch_locked borrowed owned Reliability.ReliableOrdered channel now q).2.
Proof.
  intros Hq. unfold send_batch_locked. erewrite SE_bind_ok by reflexivity.
  destruct (has_batch_capacity q _ _) as [[|]|err]; [|by apply sound_refl..]. erewrite SE_bind_ok by reflexivity.
  rewrite bool_decide_eq_true_2 by done. erewrite SE_bind_ok by reflexivity. set (q0 := enable_coalescing q).
  pose proof (keeps_grows q q0 (enable_coalescing_keeps q) (st_inv _ Hq)) as G0.
  assert (u_bytes q0 = u_bytes q) as U0 by done.
  destruct (insert_messages_grows borrowed channel false q0) as [G1 U1]; [apply G0|by rewrite (grows_mtu _ _ G0); apply Hq|].
  clearbody q0. unfold mbind, SE_bind. destruct (insert_messages _ borrowed channel false q0) as [[[]|err] q1]; simpl in *;
    [|by apply sound_grows; [|apply (grows_trans q q0)|congruence]].
  pose proof (grows_trans _ _ _ G0 G1) as G01.
  destruct (insert_messages_grows owned channel true q1) as [G2 U2]; [apply G01|by rewrite (grows_mtu _ _ G01); apply Hq|].
  destruct (insert_messages _ owned channel true q1) as [[[]|err] q2]; simpl in *;
    [|by apply sound_grows; [|apply (grows_trans q q1)|congruence]].
  unfold flush_frames. pose proof (flush_section now q q2 Hq (grows_trans _ _ _ G01 G2)) as Hf. by destruct (flush now q2).
Qed.

(** A step of a call: a sound section, after which a call that parks unnotified found
    itself not ready there. *)
Lemma advance_section now close_first sent closed c q :
  settled q ->
  sound_section q (advance now close_first sent closed c q).2 /\
  (phase (advance now close_first sent closed c q).1 = Parked false ->
     advance now close_first sent closed c q = (c, q) \/
     ready (want c) (advance now close_first sent closed c q).2 = false).
Proof.
  intros Hq. pose proof (sound_refl q Hq) as Hrefl. unfold advance. destruct c as [w p]. cbn [want phase].
  destruct p as [| |notified|notified|out|r|accepted]; [..|by split|by split|by split].
  - destruct w as [r buf ch owned| |]; [|by split..].
    pose proof (send_payload_section r buf ch owned now q Hq) as Hs.
    destruct (send_payload_locked r buf ch owned now q) as [[[?|]|?] q']; by split.
  - by split.
  - destruct w as [r buf ch owned|borrowed owned ch|].
    + split; [done|]. cbn [fst snd phase ready]. destruct (has_capacity q r (zlen buf)) as [[]|]; try done.
      intros _. right. by rewrite bool_decide_eq_true_2.
    + pose proof (send_batch_section borrowed owned ch now q Hq) as Hs. cbn [ready].
      pose proof (send_batch_waits borrowed owned Reliability.ReliableOrdered ch now q) as Hw.
      destruct (send_batch_locked borrowed owned Reliability.ReliableOrdered ch now q) as [[[?|]|?] q']; try done.
      split; [done|]. intros _. right. destruct (Hw eq_refl) as [-> Hc]. by rewrite bool_decide_eq_true_2.
    + split; [done|]. cbn [fst snd phase ready]. destruct closed; [done|]. destruct (is_empty q); [done|]. by right.
  - split; [done|]. cbn [fst snd phase]. destruct (closed && _); [done|]. destruct notified; [by destruct w|]. by left.
Qed.

(** Acknowledged frames are reliable: without options still none waits. *)
Lemma acks_settled ranges now q : settled q -> settled (ack_ranges ranges now q).
Proof.
  intros [Hq Hm Hn Hs]. destruct (ack_ranges_acks ranges now q) as (Ep & Es & _).
  pose proof (ack_ranges_inv ranges now q Hq) as Hq'.
  split; [done|by rewrite ack_ranges_mtu|rewrite Es|by rewrite Es].
  intros E. apply u_bytes_unscheduled; [done|by rewrite Es|]. rewrite Ep. apply u_bytes_unscheduled; auto.
Qed.

Lemma set_send_options_settled opts q :
  send_policy = true -> SendOptions.valid opts -> settled q ->
  match set_send_options opts q with
  | (Err _, q') => q' = q
  | (Ok _, q') => settled (register_capacity_notifier q')
  end.
Proof.
  intros Hsend Hv Hq. destruct (set_send_options_inv opts q Hsend (st_inv _ Hq)) as (H1 & _ & Em).
  unfold set_send_options in *. case_if; [done|].
  destruct (ensure_scheduler_inv q Hsend (st_inv _ Hq)) as (_ & _ & _ & [s Es]). rewrite Es in *. cbn [snd] in *.
  set (q1 := ensure_scheduler q <| scheduler := _ |>) in *.
  destruct (register_inv q1 H1) as (H2 & _ & Em2).
  assert (exists s', scheduler (register_capacity_notifier q1) = Some s' /\
    options s' = opts /\ persistent s' = true /\ is_Some (capacity_notifier s')) as (s' & E' & Eo & Ep & Hn).
  { unfold register_capacity_notifier, q1. cbn [scheduler]. cbn.
    destruct (capacity_notifier s) as [n|] eqn:E; eexists; (split; [reflexivity|]); cbn; rewrite ?E; eauto. }
  split; [done|rewrite Em2, Em; apply Hq|congruence|]. intros s0 E0. rewrite E' in E0. injection E0 as <-.
  by rewrite Eo.
Qed.

(** What the theorem asks of a history: replies that are not acknowledged are queued when
    send options are set, and the options come from the builders. *)
Definition calm e self : Prop :=
  match e with
  | Reply packets => scheduler (queue self) = None -> Forall (fun p => is_unreliable p.1 = false) packets
  | SetOptions opts => SendOptions.valid opts
  | _ => True
  end.

Fixpoint calm_run (events : list event) self : Prop :=
  match events with
  | [] => True
  | e :: events => calm e self /\ calm_run events (step e self)
  end.

Lemma sound_enter q self : wait_inv self -> sound_section (queue self) q -> wait_inv (enter q self).
Proof. intros Hi [Hs Hn]. by apply enter_inv. Qed.

Lemma enter_length q self : length (callers (enter q self)) = length (callers self).
Proof. unfold enter. simpl. case_if; [apply length_map|done]. Qed.

Lemma advance_want now close_first sent closed c q : want (advance now close_first sent closed c q).1 = want c.
Proof. unfold advance. by repeat case_match. Qed.

Lemma arrive_inv w self : wait_inv self -> wait_inv (step (Arrive w) self).
Proof.
  intros [Hs Hc]. split; [done|]. simpl. intros c [Hin| ->%list_elem_of_singleton]%elem_of_app; [by apply Hc|].
  by destruct w.
Qed.

Lemma advance_inv i now close_first sent self :
  wait_inv self -> wait_inv (step (Advance i now close_first sent) self).
Proof.
  intros Hi. cbn [step]. destruct (callers self !! i) as [c|] eqn:Ei; [|done].
  destruct (advance_section now close_first sent (closed self) c (queue self) (wi_settled _ Hi)) as [Hs Hp].
  pose proof (sound_enter _ _ Hi Hs) as [_ He].
  destruct (advance now close_first sent (closed self) c (queue self)) as [c' q'] eqn:Ea. cbn [fst snd] in *.
  split; [apply Hs|]. simpl. intros x Hx Px Rx.
  apply list_elem_of_lookup in Hx as [j Hj]. destruct (decide (i = j)) as [<-|Hij].
  - rewrite list_lookup_insert_eq in Hj; [injection Hj as <-|].
    + destruct (Hp Px) as [E|E].
      * injection E as -> ->. apply (wi_calls _ Hi c); [by apply (list_elem_of_lookup_2 _ i)|done|done].
      * pose proof (advance_want now close_first sent (closed self) c (queue self)) as Ew. rewrite Ea in Ew. simpl in Ew. congruence.
    + apply lookup_lt_Some in Ei. pose proof (enter_length q' self) as El. unfold enter in El. simpl in El. lia.
  - rewrite list_lookup_insert_ne in Hj by done. apply (He x); [by apply (list_elem_of_lookup_2 _ j)|done|done].
Qed.

(** Dropping a call frees no one and strands no one. *)
Lemma cancel_inv i self : wait_inv self -> wait_inv (step (Cancel i) self).
Proof.
  intros [Hs Hc]. split; [done|]. simpl. intros x Hx Px. apply list_elem_of_lookup in Hx as [j Hj].
  destruct (decide (i = j)) as [<-|Hij].
  - rewrite list_lookup_alter_eq in Hj. destruct (callers self !! i) as [c|]; [|done]. injection Hj as <-.
    unfold abandon in Px. by destruct (phase c).
  - rewrite list_lookup_alter_ne in Hj by done. by apply (Hc x); [apply (list_elem_of_lookup_2 _ j)|].
Qed.

Lemma keeps_section q q' : settled q -> keeps q q' -> sound_section q q'.
Proof.
  intros Hq Hk. apply sound_grows; [done|apply keeps_grows; [done|apply Hq]|].
  apply u_bytes_perm. exact (keeps_holdings _ _ Hk).
Qed.

Lemma reply_section packets q :
  settled q -> (scheduler q = None -> Forall (fun p => is_unreliable p.1 = false) packets) ->
  sound_section q (insert_replies packets q).2.
Proof.
  intros Hq Hc. destruct (insert_replies_grows packets q Hq) as [Hg Hu].
  destruct (scheduler q) as [s|] eqn:Es; [|by apply sound_grows; auto].
  split; [|right; by apply grows_no_room]. pose proof Hg as [Hq' Em _ _ _ Hsc]. rewrite Es in Hsc.
  destruct Hsc as (s' & E' & Eo & Ep & En). split; [done|rewrite Em; apply Hq|congruence|].
  intros s0 E0. rewrite E' in E0. injection E0 as <-. rewrite Eo, Ep, En. by apply (st_some _ Hq).
Qed.

Lemma step_wait e self : calm e self -> wait_inv self -> wait_inv (step e self).
Proof.
  intros Hc Hi. pose proof (wi_settled _ Hi) as Hq. destruct e as [w|i now cf sent|i|ps|now|rs now fl|rs now fl| |opts|opts now|].
  - by apply arrive_inv.
  - by apply advance_inv.
  - by apply cancel_inv.
  - apply sound_enter; [done|by apply reply_section].
  - apply sound_enter; [done|]. apply (flush_section now); [done|]. apply grows_refl, Hq.
  - apply enter_owed. pose proof (acks_settled rs now _ Hq) as Ha.
    apply (flush_section fl _ _ Ha). apply grows_refl, Ha.
  - apply sound_enter; [done|]. apply (flush_section fl); [done|].
    apply keeps_grows; [apply nack_ranges_keeps|apply Hq].
  - cbn [step]. destruct (owed self); [done|]. split; [done|]. simpl. intros c Hin Hp. by apply notify_not_parked in Hin.
  - cbn [step]. destruct (send_policy && _) eqn:E; [|done]. apply andb_true_iff in E as [E _].
    pose proof (set_send_options_settled opts _ E Hc Hq) as Hs.
    destruct (set_send_options opts (queue self)) as [[?|?] q']; [by apply enter_owed|subst q'].
    apply sound_enter; [done|by apply sound_refl].
  - cbn [step]. case_if; [|done]. apply sound_enter; [done|]. apply keeps_section; [done|apply set_recovery_options_keeps].
  - cbn [step]. case_if; [done|].
    set (buf := [PacketID.to_u8 PacketID.Disconnect]).
    pose proof (insert_grows Reliability.Reliable buf 0 false _ (st_inv _ Hq) (st_mtu _ Hq)) as Hg.
    pose proof (insert_reliable_u Reliability.Reliable buf 0 false _ (st_inv _ Hq) (st_mtu _ Hq) eq_refl) as Hu.
    change (SendQ.insert Reliability.Reliable buf) with (insert_payload Reliability.Reliable buf 0 false).
    destruct (insert_payload _ buf 0 false (queue self)) as [[?|?] q']; simpl in Hg, Hu;
      pose proof (sound_enter q' self Hi (sound_grows _ _ Hq Hg Hu)) as He; [|done]. by destruct He.
Qed.

Lemma start_wait mtu : in_range 16 mtu -> wait_inv (mk_shared_state (SendQ.new mtu) false 0 []).
Proof. intros Hm. split; [split; [apply new_inv|done..]|]. simpl. by intros c ?%not_elem_of_nil. Qed.

Lemma steps_wait events self :
  calm_run events self -> wait_inv self -> wait_inv (foldl (fun self e => step e self) self events).
Proof.
  revert self. induction events as [|e events IH]; intros self Hc Hi; [done|]. destruct Hc as [He Hc].
  simpl. apply IH; [done|by apply step_wait].
Qed.

(** A call that was notified and is ready returns in four steps of its own, at any later
    clocks. *)
Lemma step_advance i now cf sent self c :
  callers self !! i = Some c ->
  queue (step (Advance i now cf sent) self) = (advance now cf sent (closed self) c (queue self)).2 /\
  closed (step (Advance i now cf sent) self) = closed self /\
  callers (step (Advance i now cf sent) self) !! i = Some (advance now cf sent (closed self) c (queue self)).1.
Proof.
  intros Hi. cbn [step]. rewrite Hi. destruct (advance now cf sent (closed self) c (queue self)) as [c' q'].
  split; [done|]. split; [done|]. cbn [callers fst]. apply list_lookup_insert_eq. rewrite enter_length.
  by apply lookup_lt_Some in Hi.
Qed.

Definition advances (n : nat) i now sent self : Shared :=
  foldl (fun self e => step e self) self (replicate n (Advance i now false sent)).

Lemma returned_stays n i now sent self w r :
  callers self !! i = Some (mk_call w (Returned r)) ->
  callers (advances n i now sent self) !! i = Some (mk_call w (Returned r)).
Proof.
  revert self. induction n as [|n IH]; intros self Hi; [done|]. apply IH.
  by destruct (step_advance i now false sent self _ Hi) as (_ & _ & ->).
Qed.

(** From its section on: the section lets a ready call through. *)
Lemma section_returns n i w now sent self :
  closed self = false -> ready w (queue self) = true ->
  callers self !! i = Some (mk_call w match w with WantSend _ _ _ _ => Check | _ => Recheck false end) ->
  exists r, callers (advances (S (S n)) i now sent self) !! i = Some (mk_call w (Returned r)) /\ (w = WantFlush -> r = Ok tt).
Proof.
  intros Hc Hr Hi. destruct (step_advance i now false sent self _ Hi) as (_ & _ & H1).
  change (advances (S (S n)) i now sent self) with (advances n i now sent (step (Advance i now false sent) (step (Advance i now false sent) self))).
  set (s1 := step _ self) in *. clearbody s1. rewrite Hc in H1.
  assert (exists p, callers s1 !! i = Some (mk_call w p) /\ ((exists out, p = Transmit out /\ w <> WantFlush) \/
    exists r, p = Returned r /\ (w = WantFlush -> r = Ok tt))) as (p & Hp & Hcase).
  { rewrite H1. destruct w as [r buf ch owned|borrowed owned ch|]; unfold advance; cbn [phase want fst ready] in *.
    - apply negb_true_iff, bool_decide_eq_false in Hr. pose proof (send_payload_waits r buf ch owned now (queue self)) as Hw.
      destruct (send_payload_locked r buf ch owned now (queue self)) as [[[out|]|err] q'];
        [eexists; split; [reflexivity|left; by eexists]|by destruct (Hw eq_refl)|eexists; split; [reflexivity|right; by eexists]].
    - apply negb_true_iff, bool_decide_eq_false in Hr. pose proof (send_batch_waits borrowed owned Reliability.ReliableOrdered ch now (queue self)) as Hw.
      destruct (send_batch_locked borrowed owned Reliability.ReliableOrdered ch now (queue self)) as [[[out|]|err] q'];
        [eexists; split; [reflexivity|left; by eexists]|by destruct (Hw eq_refl)|eexists; split; [reflexivity|right; by eexists]].
    - rewrite Hr. eexists; split; [reflexivity|right; by eexists]. }
  destruct (step_advance i now false sent s1 _ Hp) as (_ & _ & H2). set (s2 := step _ s1) in *. clearbody s2.
  destruct Hcase as [(out & -> & Hw)|(r & -> & Hw)]; cbn in H2; eexists; (split; [by apply returned_stays|done]).
Qed.

Lemma woken_returns i w now sent self :
  closed self = false -> callers self !! i = Some (mk_call w (Parked true)) -> ready w (queue self) = true ->
  exists r, callers (advances 4 i now sent self) !! i = Some (mk_call w (Returned r)) /\ (w = WantFlush -> r = Ok tt).
Proof.
  intros Hc Hi Hr. destruct (step_advance i now false sent self _ Hi) as (Q1 & C1 & H1).
  change (advances 4 i now sent self) with (advances 3 i now sent (step (Advance i now false sent) self)).
  set (s1 := step _ self) in *. clearbody s1. rewrite Hc in *. cbn in Q1, H1. rewrite <- Q1 in Hr.
  destruct (step_advance i now false sent s1 _ H1) as (Q2 & C2 & H2). rewrite C1 in *.
  destruct w as [r buf ch owned|borrowed owned ch|]; cbn [loop_start] in *; [by apply (section_returns 1)|..];
    change (advances 3 i now sent s1) with (advances 2 i now sent (step (Advance i now false sent) s1));
    (apply (section_returns 0); [done|by rewrite Q2|done]).
Qed.

(** C7: no wake-up is lost. Whatever the calls, acknowledgements, flushes and changes of
    options, and however they interleave with the steps of the calls (replies that are not
    acknowledged being queued when send options are set), a call of [send], [send_batch] or
    [flush] that sleeps although it could go on was notified, or a task is about to call
    [notify_waiters]; after that, four steps of its own return from it, and a [flush]
    succeeds. Calls that are dropped while they wait change nothing of that. *)
Theorem no_wakeup_lost mtu events i w notified now sent :
  in_range 16 mtu -> calm_run events (mk_shared_state (SendQ.new mtu) false 0 []) ->
  let self := run mtu events in
  closed self = false -> callers self !! i = Some (mk_call w (Parked notified)) -> ready w (queue self) = true ->
  (notified = false -> (0 < owed self)%nat) /\
  let woken := (if notified then [] else [NotifyWaiters]) ++ replicate 4 (Advance i now false sent) in
  exists r, callers (run mtu (events ++ woken)) !! i = Some (mk_call w (Returned r)) /\ (w = WantFlush -> r = Ok tt).
Proof.
  intros Hm Hc self Hcl Hi Hr. pose proof (steps_wait events _ Hc (start_wait mtu Hm)) as Hw.
  fold (run mtu events) in Hw. fold self in Hw.
  assert (notified = false -> (0 < owed self)%nat) as Ho.
  { intros ->. exact (wi_calls _ Hw _ (list_elem_of_lookup_2 _ i _ Hi) eq_refl Hr). }
  split; [done|]. unfold run at 1. rewrite !foldl_app. fold (run mtu events). fold self.
  destruct notified; [by apply woken_returns|]. cbn [foldl]. specialize (Ho eq_refl).
  apply woken_returns; cbn [step]; destruct (owed self); try lia; try done.
  cbn [callers]. by rewrite list_lookup_fmap, Hi.
Qed.
End Waking.

(** ** Witnesses *)

(** A message is sent, [flush] waits for it, and its acknowledgement arrives. *)
Definition sample_history : list event :=
  [Arrive (WantSend Reliability.Reliable [254; 1] 0 false); Advance 0 10 false (Ok tt); Advance 0 10 false (Ok tt);
   Arrive WantFlush; Advance 1 20 false (Ok tt); Advance 1 20 false (Ok tt); Acked [(0, 0)] 30 30].

Lemma no_wakeup_lost_witness :
  let self := @run all_features merge_sort_flight 1400 sample_history in
  (0 < owed self)%nat /\
  map phase (callers self) = [Returned (Ok tt); Parked false] /\
  exists self', callers self' !! 1%nat = Some (mk_call WantFlush (Returned (Ok tt))).
Proof.
  destruct (@no_wakeup_lost all_features merge_sort_flight 1400 sample_history 1 WantFlush false 40 (Ok tt))
    as (Ho & r & Hr & Hf).
  - unfold in_range. lia.
  - by repeat split.
  - vm_compute. reflexivity.
  - vm_compute. reflexivity.
  - vm_compute. reflexivity.
  - intros self. split; [by apply Ho|]. split; [vm_compute; reflexivity|].
    eexists. rewrite (Hf eq_refl) in Hr. exact Hr.
Defined.

(** Why the replies are asked to be acknowledged ones where no options are set: a pong is
    queued by [handle] before the flush that sends it, and a call of [flush] that looks
    between the two sleeps on an empty queue with no notification due. *)
Example unconfigured_reply_strands_flush :
  let self := @run all_features merge_sort_flight 1400
    [Arrive WantFlush; Advance 0 10 false (Ok tt); Reply [(Reliability.Unreliable, [3; 0])]; Advance 0 10 false (Ok tt); Flush 10] in
  map phase (callers self) = [Parked false] /\ @is_empty all_features (queue self) = true /\ owed self = 0%nat.
Proof. vm_compute. by split_and!. Qed.

(** With send options the same flush notifies. *)
Example configured_reply_wakes_flush :
  let self := @run all_features merge_sort_flight 1400
    [SetOptions SendOptions.default; NotifyWaiters; Arrive WantFlush; Advance 0 10 false (Ok tt);
     Reply [(Reliability.Unreliable, [3; 0])]; Advance 0 10 false (Ok tt); Flush 10] in
  map phase (callers self) = [Parked true] /\ @is_empty all_features (queue self) = true /\ owed self = 0%nat.
Proof. vm_compute. by split_and!. Qed.
