(* ===== verification/Runtime.v ===== *)
(** * Bounded channels

    The bounded channels of tokio ([tokio::sync::mpsc]) connect the listener, the
    connections and the application. tokio is not part of the program: its channels are
    the class [Mpsc], whose laws say, through an abstract view of a channel, what its
    documentation promises of the operations the program calls. [mpsc_view] is an instance. *)

From S2P Require Import Prelude.

(** The outcome of [try_send] and [try_reserve]: [Ok], or [TrySendError]. *)
Inductive TrySend : Set := Sent | Full | Closed.

#[export] Instance TrySend_eq_dec : EqDecision TrySend.
Proof. solve_decision. Defined.

(** A channel, abstractly: the messages sent and not received, the slots reserved by
    permits, the capacity, and whether the receiver is gone. *)
Record Channel (A : Type) : Type := mk_channel {
  queued : list A;
  reserved : Z;
  capacity : Z;
  receiver_closed : bool;
}.
Arguments mk_channel {_} _ _ _ _.
Arguments queued {_} _.
Arguments reserved {_} _.
Arguments capacity {_} _.
Arguments receiver_closed {_} _.

Module Channel.
Section Operations.
Context {A : Type}.
Implicit Types (c : Channel A) (x : A).

Definition fresh (n : Z) : Channel A := mk_channel [] 0 n false.

(** Free slots: a message holds one until it is received, a permit until it is used. *)
Definition full c : bool := capacity c <=? zlen (queued c) + reserved c.

Definition is_empty c : bool := match queued c with [] => true | _ => false end.

Definition push x c : Channel A :=
  mk_channel (queued c ++ [x]) (reserved c) (capacity c) (receiver_closed c).

Definition reserve (n : Z) c : Channel A :=
  mk_channel (queued c) (reserved c + n) (capacity c) (receiver_closed c).

Definition try_send x c : TrySend * Channel A :=
  if receiver_closed c then (Closed, c)
  else if full c then (Full, c)
  else (Sent, push x c).

Definition try_reserve c : TrySend * Channel A :=
  if receiver_closed c then (Closed, c)
  else if full c then (Full, c)
  else (Sent, reserve 1 c).

Definition permit_send x c : Channel A := push x (reserve (-1) c).

Definition permit_drop c : Channel A := reserve (-1) c.

Definition try_recv c : option A * Channel A :=
  match queued c with
  | [] => (None, c)
  | x :: l => (Some x, mk_channel l (reserved c) (capacity c) (receiver_closed c))
  end.

(** The receiver is dropped, with the messages it did not receive. *)
Definition drop_receiver c : Channel A := mk_channel [] (reserved c) (capacity c) true.
End Operations.
End Channel.

Class Mpsc (chan : Type -> Type) : Type := {
  channel : forall {A}, Z -> chan A;
  is_closed : forall {A}, chan A -> bool;
  is_empty : forall {A}, chan A -> bool;
  try_send : forall {A}, A -> chan A -> TrySend * chan A;
  try_reserve : forall {A}, chan A -> TrySend * chan A;
  permit_send : forall {A}, A -> chan A -> chan A;
  permit_drop : forall {A}, chan A -> chan A;
  try_recv : forall {A}, chan A -> option A * chan A;
  drop_receiver : forall {A}, chan A -> chan A;
  view : forall {A}, chan A -> Channel A;
  channel_view : forall A n, view (channel (A := A) n) = Channel.fresh n;
  is_closed_view : forall A (c : chan A), is_closed c = receiver_closed (view c);
  is_empty_view : forall A (c : chan A), is_empty c = Channel.is_empty (view c);
  try_send_view : forall A (x : A) c,
    ((try_send x c).1, view (try_send x c).2) = Channel.try_send x (view c);
  try_reserve_view : forall A (c : chan A),
    ((try_reserve c).1, view (try_reserve c).2) = Channel.try_reserve (view c);
  permit_send_view : forall A (x : A) c, view (permit_send x c) = Channel.permit_send x (view c);
  permit_drop_view : forall A (c : chan A), view (permit_drop c) = Channel.permit_drop (view c);
  try_recv_view : forall A (c : chan A),
    ((try_recv c).1, view (try_recv c).2) = Channel.try_recv (view c);
  try_recv_none : forall A (c : chan A), (try_recv c).1 = None -> (try_recv c).2 = c;
  drop_receiver_view : forall A (c : chan A), view (drop_receiver c) = Channel.drop_receiver (view c);
}.

(** The view itself is a channel. *)
#[export] Instance mpsc_view : Mpsc Channel.
Proof.
  refine {|
    channel := @Channel.fresh; is_closed := @receiver_closed;
    is_empty := @Channel.is_empty; try_send := @Channel.try_send;
    try_reserve := @Channel.try_reserve; permit_send := @Channel.permit_send;
    permit_drop := @Channel.permit_drop; try_recv := @Channel.try_recv;
    drop_receiver := @Channel.drop_receiver; view := fun _ c => c |}; intros; try done;
    try (by rewrite <- surjective_pairing).
  unfold Channel.try_recv in *. by destruct (queued c).
Defined.

Section Laws.
Context `{Mpsc chan} {A : Type}.
Implicit Types (c : chan A) (x : A).

Lemma try_send_state x c : view (try_send x c).2 = (Channel.try_send x (view c)).2.
Proof. by rewrite <- try_send_view. Qed.

Lemma try_send_result x c : (try_send x c).1 = (Channel.try_send x (view c)).1.
Proof. by rewrite <- try_send_view. Qed.

Lemma try_reserve_state c : view (try_reserve c).2 = (Channel.try_reserve (view c)).2.
Proof. by rewrite <- try_reserve_view. Qed.

Lemma try_reserve_result c : (try_reserve c).1 = (Channel.try_reserve (view c)).1.
Proof. by rewrite <- try_reserve_view. Qed.

Lemma try_recv_state c : view (try_recv c).2 = (Channel.try_recv (view c)).2.
Proof. by rewrite <- try_recv_view. Qed.

Lemma try_recv_result c : (try_recv c).1 = (Channel.try_recv (view c)).1.
Proof. by rewrite <- try_recv_view. Qed.

(** A closed channel stays closed. *)
Lemma is_closed_try_send x c : is_closed (try_send x c).2 = is_closed c.
Proof. rewrite !is_closed_view, try_send_state. unfold Channel.try_send. by repeat case_if. Qed.

Lemma is_closed_try_recv c : is_closed (try_recv c).2 = is_closed c.
Proof. rewrite !is_closed_view, try_recv_state. unfold Channel.try_recv. by case_match. Qed.

Lemma is_closed_drop c : is_closed (drop_receiver c) = true.
Proof. by rewrite is_closed_view, drop_receiver_view. Qed.

Lemma try_send_closed x c : (try_send x c).1 = Closed <-> is_closed c = true.
Proof.
  rewrite try_send_result, is_closed_view. unfold Channel.try_send. repeat case_if; simpl; split; congruence.
Qed.

(** A reservation, then the permit used or dropped. *)
Lemma reserve_send x c :
  (try_reserve c).1 = Sent ->
  view (permit_send x (try_reserve c).2) = Channel.push x (view c) /\ Channel.full (view c) = false /\
  receiver_closed (view c) = false.
Proof.
  rewrite try_reserve_result, permit_send_view, try_reserve_state. unfold Channel.try_reserve.
  repeat case_if; simpl; try discriminate. intros _. split; [|done].
  unfold Channel.permit_send, Channel.push, Channel.reserve. simpl. f_equal; lia.
Qed.

Lemma reserve_drop c :
  (try_reserve c).1 = Sent -> view (permit_drop (try_reserve c).2) = view c.
Proof.
  rewrite try_reserve_result, permit_drop_view, try_reserve_state. unfold Channel.try_reserve.
  repeat case_if; simpl; try discriminate. intros _.
  unfold Channel.permit_drop, Channel.reserve. destruct (view c). simpl in *. f_equal; lia.
Qed.

Lemma reserve_refused c : (try_reserve c).1 <> Sent -> view (try_reserve c).2 = view c.
Proof.
  rewrite try_reserve_result, try_reserve_state. unfold Channel.try_reserve. by repeat case_if.
Qed.
End Laws.
