(* ===== verification/Udp.v ===== *)
(** * Batches of datagrams

    [src/src/udp.rs]: on Linux a listener can receive up to sixteen datagrams with one
    system call ([recvmmsg]), and a connection sends up to sixteen with one ([sendmmsg]).
    The answers of the operating system are arguments of the operations; the retries after
    an interruption and the waits for readiness do not change the state and are left to
    tokio. *)

From S2P Require Import Prelude Errors Datatype Frame FrameCodec.

Definition BATCH : nat := 16.
Definition BUFFER_SIZE : nat := 2048.

(** [io::Error], by how it arises. *)
Inductive IoError : Set := LastOsError | InvalidData | WriteZero.

Abbreviation IoResult A := (A + IoError)%type.

(** ** Receiving *)

(** A message [recvmmsg] filled in: the bytes it wrote, [msg_len], and the source address
    with the family and the length the kernel reports. *)
Inductive Family : Set := AF_INET | AF_INET6 | AF_OTHER.

Record Message := mk_message {
  written : list Z;
  msg_len : Z;
  ss_family : Family;
  msg_namelen : Z;
  as_socket : option SocketAddr;
}.

Module BatchReceiver.

Record BatchReceiver := mk_batch {
  buffers : list (list Z);
  lengths : list Z;
  addresses : list SocketAddr;
  next : nat;
  count : nat;
}.

Definition new : BatchReceiver :=
  mk_batch (replicate BATCH (replicate BUFFER_SIZE 0)) (replicate BATCH 0)
    (replicate BATCH (V4 (mk_ipv4 0 0 0 0) 0)) 0 0.

(** The kernel writes the start of a buffer. *)
Definition fill (messages : list Message) (buffers : list (list Z)) : list (list Z) :=
  imap (fun i buffer =>
    match messages !! i with
    | Some m => written m ++ drop (length (written m)) buffer
    | None => buffer
    end) buffers.

(** The checks on the address of a message; the sizes are those of [sockaddr_in],
    [sockaddr_in6] and [sockaddr_storage]. *)
Definition peer_address (m : Message) : IoResult SocketAddr :=
  match ss_family m with
  | AF_OTHER => inr InvalidData
  | family =>
      let minimum := match family with AF_INET => 16 | _ => 28 end in
      if (msg_namelen m <? minimum) || (128 <? msg_namelen m) then inr InvalidData
      else match as_socket m with Some address => inl address | None => inr InvalidData end
  end.

(** [for index in 0..count as usize] *)
Fixpoint store (index : nat) (messages : list Message) (self : BatchReceiver) : IoResult unit * BatchReceiver :=
  match messages with
  | [] => (inl tt, self)
  | m :: messages =>
      match peer_address m with
      | inr e => (inr e, self)
      | inl address =>
          store (S index) messages
            (mk_batch (buffers self) (<[index := Z.min (msg_len m) (Z.of_nat BUFFER_SIZE)]> (lengths self))
               (<[index := address]> (addresses self)) (next self) (count self))
      end
  end.

(** [receive_ready]; [answer] is what [recvmmsg] returns and fills in. *)
Definition receive_ready (answer : IoResult (list Message)) (self : BatchReceiver) : IoResult nat * BatchReceiver :=
  match answer with
  | inr e => (inr e, self)
  | inl messages =>
      let self := mk_batch (fill messages (buffers self)) (lengths self) (addresses self) (next self) (count self) in
      match store 0 messages self with
      | (inr e, self) => (inr e, self)
      | (inl _, self) => (inl (length messages), self)
      end
  end.

(** The entry [index], copied to an output of [size] bytes. *)
Definition entry (size : nat) (self : BatchReceiver) (index : nat) : option (list Z * SocketAddr) :=
  buffer ← buffers self !! index;
  length ← lengths self !! index;
  address ← addresses self !! index;
  Some (take (Z.to_nat (Z.min length (Z.of_nat size))) buffer, address).

(** [recv_from]; [None] is an index out of bounds. *)
Definition recv_from (size : nat) (answer : IoResult (list Message)) (self : BatchReceiver)
    : option (IoResult (list Z * SocketAddr)) * BatchReceiver :=
  let '(r, self) :=
    if Nat.eqb (next self) (count self) then
      match receive_ready answer self with
      | (inr e, self) => (inr e, self)
      | (inl count, self) => (inl tt, mk_batch (buffers self) (lengths self) (addresses self) 0 count)
      end
    else (inl tt, self) in
  match r with
  | inr e => (Some (inr e), self)
  | inl _ =>
      (inl <$> entry size self (next self),
       mk_batch (buffers self) (lengths self) (addresses self) (S (next self)) (count self))
  end.
End BatchReceiver.

Module DatagramReceiver.

(** [batch] is there when batching was asked for. *)
Abbreviation DatagramReceiver := (option BatchReceiver.BatchReceiver).

Definition new (batching : bool) : DatagramReceiver := if batching then Some BatchReceiver.new else None.

(** Without batching the answer is that of [UdpSocket::recv_from], for one datagram. *)
Definition recv_from (size : nat) (answer : IoResult (list Message)) (self : DatagramReceiver)
    : option (IoResult (list Z * SocketAddr)) * DatagramReceiver :=
  match self with
  | Some batch => let '(r, batch) := BatchReceiver.recv_from size answer batch in (r, Some batch)
  | None =>
      (match answer with
       | inr e => Some (inr e)
       | inl (m :: _) => address ← as_socket m; Some (inl (take size (written m), address))
       | inl [] => None
       end, None)
  end.
End DatagramReceiver.

(** ** Sending *)

(** The datagrams handed to the UDP socket, and the result. *)
Abbreviation Transmission := (list (list Z) * Result unit)%type.

(** Header and payload form one datagram. *)
Definition frame_datagram (frame : FrameSetPacket) : Result (list Z) :=
  header ← encode_header frame;
  Ok (header ++ FramePayload.deref (data frame)).

(** [for frame in &frames { ...(frame)?; }] *)
Fixpoint send_each (encode : FrameSetPacket -> Result (list Z)) (frames : list FrameSetPacket) : Transmission :=
  match frames with
  | [] => ([], Ok tt)
  | frame :: frames =>
      match encode frame with
      | Err e => ([], Err e)
      | Ok datagram => let '(sent, r) := send_each encode frames in (datagram :: sent, r)
      end
  end.

(** [send_ready]: nothing is sent unless every header of the batch can be encoded; the
    kernel takes the first [answer] datagrams. *)
Definition send_ready (answer : IoResult nat) (batch : list FrameSetPacket) : list (list Z) * IoResult nat :=
  match send_each frame_datagram batch with
  | (_, Err _) => ([], inr InvalidData)
  | (datagrams, Ok _) =>
      match answer with
      | inr e => ([], inr e)
      | inl count => (take count datagrams, inl count)
      end
  end.

(** [send_frames]: [sendmmsg] gives the answers of the calls in order. Every iteration but
    the last sends a datagram, so [fuel] is the number of frames. *)
Fixpoint send_frames (fuel : nat) (sendmmsg : nat -> IoResult nat) (frames : list FrameSetPacket)
    : list (list Z) * IoResult unit :=
  match fuel, frames with
  | S fuel, _ :: _ =>
      match send_ready (sendmmsg 0%nat) (take BATCH frames) with
      | (_, inr e) => ([], inr e)
      | (_, inl O) => ([], inr WriteZero)
      | (datagrams, inl count) =>
          let '(sent, r) := send_frames fuel (fun n => sendmmsg (S n)) (drop count frames) in
          (datagrams ++ sent, r)
      end
  | _, _ => ([], inl tt)
  end.

(** ** Batched sends *)

Lemma frame_datagram_serialize f : frame_datagram f = serialize f.
Proof.
  unfold frame_datagram, serialize. destruct (validate f) as [[]|e] eqn:E.
  - destruct (proj1 (validate_inv f) E) as [r Hv].
    by rewrite (serialize_into_ok f r), (encode_header_ok f r).
  - unfold encode_header, serialize_into. by rewrite E.
Qed.

Lemma send_each_ext encode encode' frames :
  (forall f, encode f = encode' f) -> send_each encode frames = send_each encode' frames.
Proof. intros He. induction frames as [|f frames IH]; simpl; [done|]. by rewrite He, IH. Qed.

Lemma send_each_app encode frames frames' :
  send_each encode (frames ++ frames') =
    match send_each encode frames with
    | (sent, Ok _) => let '(sent', r) := send_each encode frames' in (sent ++ sent', r)
    | (sent, Err e) => (sent, Err e)
    end.
Proof.
  induction frames as [|f frames IH]; simpl; [by destruct (send_each encode frames')|].
  destruct (encode f); [|done]. rewrite IH.
  destruct (send_each encode frames) as [sent []]; [|done].
  by destruct (send_each encode frames').
Qed.

Lemma send_each_length encode frames :
  (send_each encode frames).2 = Ok tt -> length (send_each encode frames).1 = length frames.
Proof.
  induction frames as [|f frames IH]; simpl; [done|]. destruct (encode f); [|done].
  destruct (send_each encode frames). simpl in *. auto.
Qed.

(** A batch that is encoded in full, of which the kernel takes [count] datagrams. *)
Lemma send_each_batch encode frames n count :
  (count <= n)%nat -> (send_each encode (take n frames)).2 = Ok tt ->
  let '(sent, r) := send_each encode (drop count frames) in
  send_each encode frames = (take count (send_each encode (take n frames)).1 ++ sent, r).
Proof.
  intros Hc Hn. pose proof (send_each_app encode (take count frames) (drop count frames)) as Ha.
  rewrite take_drop in Ha.
  pose proof (send_each_app encode (take count (take n frames)) (drop count (take n frames))) as Hb.
  rewrite take_drop, take_take, Nat.min_l in Hb by done.
  pose proof (send_each_length encode (take count frames)) as Hl.
  destruct (send_each encode (take count frames)) as [sent []] eqn:E; [|by rewrite Hb in Hn].
  destruct a. specialize (Hl eq_refl). simpl in Hl.
  destruct (send_each encode (drop count frames)) as [sent' r]. rewrite Ha.
  destruct (send_each encode (drop count (take n frames))) as [sent2 r2]. rewrite Hb. simpl.
  f_equal. f_equal. rewrite length_take in Hl. destruct (decide (count <= length frames)%nat).
  - by rewrite take_app_le, take_ge by lia.
  - assert (sent2 = []) as ->.
    { apply (f_equal fst) in Hb. simpl in Hb. pose proof (send_each_length encode (take n frames) Hn) as Hl2.
      rewrite Hb, length_app, length_take in Hl2. apply nil_length_inv. lia. }
    rewrite app_nil_r, take_ge; [done|lia].
Qed.

(** What a batched transmission sends comes first in the sequential one; and it is all of
    it when every frame can be encoded and no call fails. *)
Lemma send_frames_sequential fuel sendmmsg frames :
  (length frames <= fuel)%nat -> (forall n k, sendmmsg n = inl k -> (k <= BATCH)%nat) ->
  (send_frames fuel sendmmsg frames).1 `prefix_of` (send_each frame_datagram frames).1 /\
  ((forall n, exists k, sendmmsg n = inl (S k)) -> (send_each frame_datagram frames).2 = Ok tt ->
   send_frames fuel sendmmsg frames = ((send_each frame_datagram frames).1, inl tt)).
Proof.
  revert sendmmsg frames. induction fuel as [|fuel IH]; intros sendmmsg frames Hf Hk.
  { destruct frames; [|simpl in Hf; lia]. split; [apply prefix_nil|done]. }
  destruct frames as [|f frames]; [split; [apply prefix_nil|done]|].
  cbn [send_frames]. unfold send_ready.
  pose proof (send_each_batch frame_datagram (f :: frames) BATCH) as Hb.
  destruct (send_each frame_datagram (take BATCH (f :: frames))) as [batch [[]|e]] eqn:E.
  2: { split; [apply prefix_nil|]. intros _ Hok. exfalso.
       pose proof (send_each_app frame_datagram (take BATCH (f :: frames)) (drop BATCH (f :: frames))) as Ha.
       rewrite take_drop, E in Ha. by rewrite Ha in Hok. }
  destruct (sendmmsg 0%nat) as [[|k]|e] eqn:Ek.
  - split; [apply prefix_nil|]. intros Hall _. destruct (Hall 0%nat) as [k Hk']. congruence.
  - specialize (Hb (S k) (Hk _ _ Ek) eq_refl).
    destruct (IH (fun n => sendmmsg (S n)) (drop (S k) (f :: frames))) as [IH1 IH2].
    { simpl in *. rewrite length_drop. lia. }
    { intros n k' Hn. by eapply Hk. }
    destruct (send_frames fuel _ (drop (S k) (f :: frames))) as [sent r].
    destruct (send_each frame_datagram (drop (S k) (f :: frames))) as [sent' r'].
    rewrite Hb. cbn [fst snd] in *. split.
    + by apply prefix_app.
    + intros Hall Hok. injection (IH2 (fun n => Hall (S n)) Hok) as -> ->. done.
  - split; [apply prefix_nil|]. intros Hall _. destruct (Hall 0%nat) as [k Hk']. congruence.
Qed.

(** Batching is transparent to what is sent. However many datagrams of a batch each call
    of [sendmmsg] takes, the datagrams sent are a prefix of those the frame-by-frame
    transmission sends, in its order; and when no call fails and every frame can be encoded
    they are all of them, the bytes that [serialize] produces, one datagram per frame. *)
Theorem batched_send_equals_sequential sendmmsg frames :
  (forall n k, sendmmsg n = inl k -> (k <= BATCH)%nat) ->
  (send_frames (length frames) sendmmsg frames).1 `prefix_of` (send_each serialize frames).1 /\
  ((forall n, exists k, sendmmsg n = inl (S k)) -> (send_each serialize frames).2 = Ok tt ->
   send_frames (length frames) sendmmsg frames = ((send_each serialize frames).1, inl tt) /\
   length (send_each serialize frames).1 = length frames).
Proof.
  intros Hk. rewrite <- (send_each_ext frame_datagram) by apply frame_datagram_serialize.
  destruct (send_frames_sequential (length frames) sendmmsg frames) as [H1 H2]; [done..|].
  split; [done|]. intros Hall Hok. split; [by apply H2|by apply send_each_length].
Qed.

(** ** Batched receives

    [kernel] holds the datagrams that have arrived. A call that asks the operating system
    takes the first [n] of them, or one without batching; it waits while there are none, or
    reports an error. *)

Abbreviation datagram := (list Z * SocketAddr)%type.

(** How the kernel reports a datagram: cut at the buffer, with its peer's address. *)
Definition arrived (d : datagram) : Message :=
  mk_message (take BUFFER_SIZE d.1) (Z.min (zlen d.1) (Z.of_nat BUFFER_SIZE))
    (match d.2 with V4 _ _ => AF_INET | V6 _ _ _ _ => AF_INET6 end)
    (match d.2 with V4 _ _ => 16 | V6 _ _ _ _ => 28 end) (Some d.2).

(** How many datagrams a call takes from the kernel, when it asks for [n]. *)
Definition demand (self : DatagramReceiver.DatagramReceiver) (n : nat) : nat :=
  match self with
  | None => 1
  | Some b => if Nat.eqb (BatchReceiver.next b) (BatchReceiver.count b) then n else 0
  end.

(** One call of [recv_from]; [call] is an error, or the size of the batch received. *)
Definition receive_call (size : nat) (call : IoResult nat) (kernel : list datagram)
    (self : DatagramReceiver.DatagramReceiver)
    : list datagram * list datagram * DatagramReceiver.DatagramReceiver :=
  let asks := negb (Nat.eqb (demand self 1) 0) in
  let answer := match call with inl n => inl (map arrived (take n kernel)) | inr e => inr e end in
  if asks && Nat.eqb (length kernel) 0 && match call with inl _ => true | inr _ => false end
  then ([], kernel, self)
  else
    let '(r, self') := DatagramReceiver.recv_from size answer self in
    (match r with Some (inl d) => [d] | _ => [] end,
     match call with inl n => drop (demand self n) kernel | inr _ => kernel end, self').

Fixpoint receive_calls (size : nat) (calls : list (IoResult nat)) (kernel : list datagram)
    (self : DatagramReceiver.DatagramReceiver)
    : list datagram * list datagram * DatagramReceiver.DatagramReceiver :=
  match calls with
  | [] => ([], kernel, self)
  | call :: calls =>
      let '(got, kernel, self) := receive_call size call kernel self in
      let '(got', kernel, self) := receive_calls size calls kernel self in
      (got ++ got', kernel, self)
  end.

Definition truncate (size : nat) (d : datagram) : datagram := (take size d.1, d.2).

(** The datagrams received and not yet handed out. *)
Definition buffered (size : nat) (self : DatagramReceiver.DatagramReceiver) : list datagram :=
  match self with
  | None => []
  | Some b => omap (BatchReceiver.entry size b)
                (seq (BatchReceiver.next b) (BatchReceiver.count b - BatchReceiver.next b))
  end.

Definition remaining (size : nat) (kernel : list datagram) (self : DatagramReceiver.DatagramReceiver) : list datagram :=
  buffered size self ++ map (truncate size) kernel.

Lemma omap_seq_lookup {A} (f : nat -> option A) a (l : list A) :
  (forall i, (i < length l)%nat -> f (a + i)%nat = l !! i) -> omap f (seq a (length l)) = l.
Proof.
  revert a. induction l as [|x l IH]; intros a Hf; simpl; [done|].
  rewrite <- (Nat.add_0_r a) at 1. rewrite (Hf 0%nat) by (simpl; lia). simpl. f_equal. apply IH.
  intros i Hi. rewrite Nat.add_succ_comm. apply (Hf (S i)). simpl. lia.
Qed.

Section Receives.
Import BatchReceiver.
Implicit Types (b : BatchReceiver).

Record batch_ok (size : nat) b : Prop := {
  bo_next : (next b <= count b)%nat;
  bo_buffers : length (buffers b) = BATCH;
  bo_lengths : length (lengths b) = BATCH;
  bo_addresses : length (addresses b) = BATCH;
  bo_entries : forall i, (next b <= i < count b)%nat -> is_Some (entry size b i);
}.

Lemma peer_address_arrived d : peer_address (arrived d) = inl d.2.
Proof. by destruct d as [bytes []]. Qed.

Lemma store_arrived ds index b :
  (index + length ds <= BATCH)%nat -> length (lengths b) = BATCH -> length (addresses b) = BATCH ->
  exists b', store index (map arrived ds) b = (inl tt, b') /\
    buffers b' = buffers b /\ length (lengths b') = BATCH /\ length (addresses b') = BATCH /\
    (forall i, (i < index)%nat -> lengths b' !! i = lengths b !! i /\ addresses b' !! i = addresses b !! i) /\
    (forall i d, ds !! i = Some d ->
       lengths b' !! (index + i)%nat = Some (Z.min (zlen d.1) (Z.of_nat BUFFER_SIZE)) /\
       addresses b' !! (index + i)%nat = Some d.2).
Proof.
  revert index b. induction ds as [|d ds IH]; intros index b Hi Hl Ha; [by exists b|].
  cbn [map store length] in *. rewrite peer_address_arrived.
  destruct (IH (S index) (mk_batch (buffers b) (<[index := Z.min (msg_len (arrived d)) (Z.of_nat BUFFER_SIZE)]> (lengths b))
               (<[index := d.2]> (addresses b)) (next b) (count b))) as (b' & -> & Hb & Hl' & Ha' & Hlo & Hhi).
  { lia. } { simpl. by rewrite length_insert. } { simpl. by rewrite length_insert. }
  exists b'. split_and!; try done.
  - intros i Hlt. destruct (Hlo i) as [-> ->]; [lia|]. simpl. by rewrite !list_lookup_insert_ne by lia.
  - intros [|i] d' Hd; simpl in Hd.
    + injection Hd as <-. rewrite Nat.add_0_r. destruct (Hlo index) as [-> ->]; [lia|]. simpl.
      rewrite !list_lookup_insert_eq by lia. split; [f_equal; lia|done].
    + rewrite <- Nat.add_succ_comm. by apply Hhi.
Qed.

(** A call of [recvmmsg] makes the datagrams it takes the buffered ones. *)
Lemma receive_ready_arrived size ds b :
  (size <= BUFFER_SIZE)%nat -> (length ds <= BATCH)%nat -> batch_ok size b ->
  exists b', receive_ready (inl (map arrived ds)) b = (inl (length ds), b') /\
    forall b'', buffers b'' = buffers b' -> lengths b'' = lengths b' -> addresses b'' = addresses b' ->
      next b'' = 0%nat -> count b'' = length ds ->
      batch_ok size b'' /\ buffered size (Some b'') = map (truncate size) ds.
Proof.
  intros Hsize Hds [_ Hb Hl Ha _]. unfold receive_ready.
  destruct (store_arrived ds 0 (mk_batch (fill (map arrived ds) (buffers b)) (lengths b) (addresses b) (next b) (count b)))
    as (b' & -> & Hbuf & Hl' & Ha' & _ & Hst); [done..|].
  exists b'. rewrite length_map. split; [done|]. intros b'' E1 E2 E3 E4 E5.
  assert (forall i d, ds !! i = Some d -> entry size b'' i = Some (truncate size d)) as Hentry.
  { intros i d Hd. unfold entry. rewrite E1, E2, E3, Hbuf. destruct (Hst i d Hd) as [H1 H2]. simpl in H1, H2.
    rewrite H1, H2. unfold fill. simpl. rewrite list_lookup_imap.
    apply lookup_lt_Some in Hd as Hi. destruct (lookup_lt_is_Some_2 (buffers b) i) as [buffer ->]; [lia|]. simpl.
    rewrite list_lookup_fmap, Hd. simpl. unfold truncate. do 2 f_equal.
    assert (length (take BUFFER_SIZE d.1) = BUFFER_SIZE `min` length d.1)%nat as Hlen by apply length_take.
    rewrite take_app_le by lia. rewrite take_take.
    destruct (decide (size <= length d.1)%nat); [f_equal; lia|]. rewrite !take_ge by lia. done. }
  assert (buffered size (Some b'') = map (truncate size) ds) as Hall.
  { simpl. rewrite E4, E5, Nat.sub_0_r. rewrite <- (length_map (truncate size) ds). apply omap_seq_lookup.
    intros i Hi. rewrite length_map in Hi. destruct (lookup_lt_is_Some_2 ds i Hi) as [d Hd].
    simpl. rewrite (Hentry i d Hd), list_lookup_fmap, Hd. done. }
  split; [|done]. split.
  - lia.
  - rewrite E1, Hbuf. simpl. unfold fill. by rewrite length_imap.
  - by rewrite E2.
  - by rewrite E3.
  - intros i Hi. destruct (lookup_lt_is_Some_2 ds i) as [d Hd]; [lia|]. rewrite (Hentry i d Hd). by eexists.
Qed.

Definition receiver_ok (size : nat) (self : DatagramReceiver.DatagramReceiver) : Prop :=
  match self with None => True | Some b => batch_ok size b end.

(** The next buffered datagram is handed out. *)
Lemma pop_entry size b :
  batch_ok size b -> (next b < count b)%nat ->
  exists d, entry size b (next b) = Some d /\
    buffered size (Some b) =
      d :: buffered size (Some (mk_batch (buffers b) (lengths b) (addresses b) (S (next b)) (count b))) /\
    batch_ok size (mk_batch (buffers b) (lengths b) (addresses b) (S (next b)) (count b)).
Proof.
  intros [Hn Hb Hl Ha He] Hlt. destruct (He (next b)) as [d Hd]; [lia|]. exists d. split; [done|]. split.
  - unfold buffered. replace (count b - next b)%nat with (S (count b - S (next b))) by lia.
    cbn [seq omap list_omap]. rewrite Hd. done.
  - split; simpl; try done. intros i Hi. apply He. lia.
Qed.

Lemma receive_call_ok size call kernel self :
  (size <= BUFFER_SIZE)%nat -> (forall n, call = inl n -> (1 <= n <= BATCH)%nat) -> receiver_ok size self ->
  let '(got, kernel', self') := receive_call size call kernel self in
  receiver_ok size self' /\ remaining size kernel self = got ++ remaining size kernel' self' /\
  (forall n, call = inl n -> got = take 1 (remaining size kernel self)).
Proof.
  intros Hsize Hcall Hok. unfold receive_call, remaining. destruct self as [b|]; simpl in Hok.
  - cbn [demand]. destruct (Nat.eqb_spec (next b) (count b)) as [Hn|Hn]; simpl.
    + assert (buffered size (Some b) = []) as Hbuf by (simpl; by rewrite Hn, Nat.sub_diag).
      destruct call as [n|e]; [|rewrite andb_false_r].
      2: { unfold recv_from. rewrite (proj2 (Nat.eqb_eq _ _) Hn). simpl. by split_and!. }
      destruct kernel as [|d kernel]; simpl; [rewrite Hn, Nat.sub_diag; by split_and!|].
      specialize (Hcall n eq_refl). unfold recv_from. rewrite (proj2 (Nat.eqb_eq _ _) Hn).
      set (ds := take n (d :: kernel)).
      assert (length ds <= BATCH)%nat as Hds by (unfold ds; rewrite length_take; lia).
      destruct (receive_ready_arrived size ds b Hsize Hds Hok) as (b' & -> & Hb').
      edestruct (Hb' (mk_batch (buffers b') (lengths b') (addresses b') 0 (length ds))) as [Hok' Hbuf'];
        [reflexivity..|].
      destruct (pop_entry size _ Hok') as (x & Hx & Hpop & Hok'').
      { unfold ds. destruct n; [lia|]. simpl. lia. }
      cbn [next buffers lengths addresses count] in *. rewrite Hx. cbn [fmap option_fmap option_map].
      rewrite Hpop in Hbuf'. change (omap _ _) with (buffered size (Some b)). rewrite Hbuf.
      assert (truncate size d :: map (truncate size) kernel =
        map (truncate size) ds ++ map (truncate size) (drop n (d :: kernel))) as ->
        by (unfold ds; by rewrite <- map_app, take_drop).
      rewrite <- Hbuf'. by split_and!.
    + unfold recv_from. rewrite (proj2 (Nat.eqb_neq _ _) Hn). pose proof (bo_next _ _ Hok).
      destruct (pop_entry size b Hok) as (x & Hx & Hpop & Hok'); [lia|]. rewrite Hx. simpl in Hpop |- *. rewrite Hpop.
      split_and!; [done|by destruct call|done].
  - simpl. destruct call as [n|e]; [|rewrite andb_false_r; simpl; by split_and!].
    destruct kernel as [|d kernel]; simpl; [by split_and!|]. specialize (Hcall n eq_refl).
    destruct n as [|n]; [lia|]. simpl. rewrite take_take, Nat.min_l by done. by split_and!.
Qed.
End Receives.

Lemma new_receiver_ok size batching : receiver_ok size (DatagramReceiver.new batching).
Proof.
  destruct batching; [|done]. split; simpl; try lia; by rewrite ?length_replicate.
Qed.

(** C30: receive batching is transparent. However many datagrams each [recvmmsg] returns,
    whenever it fails, and with or without batching: what the listener has been handed,
    what is buffered and what is still in the kernel are together the datagrams that arrived,
    in order, each with the address of its peer; and while no call fails, the listener has
    been handed one datagram per call, the first that arrived. *)
Theorem receive_batching_is_transparent size batching calls kernel :
  (size <= BUFFER_SIZE)%nat -> (forall n, inl n ∈ calls -> (1 <= n <= BATCH)%nat) ->
  let '(got, kernel', self) := receive_calls size calls kernel (DatagramReceiver.new batching) in
  got ++ buffered size self ++ map (truncate size) kernel' = map (truncate size) kernel /\
  ((forall e, inr e ∉ calls) -> got = take (length calls) (map (truncate size) kernel)).
Proof.
  intros Hsize Hcalls. pose proof (new_receiver_ok size batching) as Hok.
  assert (map (truncate size) kernel = remaining size kernel (DatagramReceiver.new batching)) as Hr
    by (unfold remaining; by destruct batching).
  rewrite !Hr. clear Hr. revert kernel Hok. generalize (DatagramReceiver.new batching) as self. clear batching.
  induction calls as [|call calls IH]; intros self kernel Hok; [done|]. cbn [receive_calls].
  pose proof (receive_call_ok size call kernel self Hsize) as Hcall.
  destruct (receive_call size call kernel self) as [[got k1] s1].
  destruct Hcall as (Hok1 & Hr1 & Ht1); [intros n ->; apply Hcalls, list_elem_of_here|done|].
  specialize (IH (fun n Hn => Hcalls n (list_elem_of_further _ _ _ Hn)) s1 k1 Hok1).
  destruct (receive_calls size calls k1 s1) as [[got' k2] s2]. destruct IH as [IH1 IH2].
  rewrite Hr1. split; [by rewrite <- app_assoc, IH1|]. intros He.
  rewrite IH2 by (intros e Hin; by apply (He e), list_elem_of_further).
  destruct call as [n|e]; [|exfalso; apply (He e), list_elem_of_here].
  specialize (Ht1 n eq_refl). destruct (remaining size kernel self) as [|x l] eqn:E; simpl in Ht1; subst got.
  - simpl in Hr1. rewrite <- Hr1. by destruct (length calls).
  - done.
Qed.

(** ** The theorems at work *)

(** Twenty frames; every call takes three. *)
Definition sample_burst : list FrameSetPacket := concat (replicate 10 sample_frames).

Lemma batched_send_equals_sequential_witness :
  send_frames (length sample_burst) (fun _ => inl 3%nat) sample_burst =
    ((send_each serialize sample_burst).1, inl tt) /\ length sample_burst = 20%nat.
Proof.
  destruct (batched_send_equals_sequential (fun _ => inl 3%nat) sample_burst) as [_ H].
  { intros n k [= <-]. unfold BATCH. lia. }
  destruct H as [H _].
  - intros n. by exists 2%nat.
  - vm_compute. reflexivity.
  - split; [exact H|reflexivity].
Defined.

(** Five datagrams arrive; the calls return two, one and two. *)
Definition sample_arrivals : list datagram :=
  map (fun i => ([i; i + 1], V4 (mk_ipv4 127 0 0 1) (5000 + i))) [1; 2; 3; 4; 5].

Lemma receive_batching_is_transparent_witness :
  (receive_calls 2048 (map inl [2; 7; 1; 2; 9]%nat) sample_arrivals (DatagramReceiver.new true)).1.1 = sample_arrivals.
Proof.
  pose proof (receive_batching_is_transparent 2048 true (map inl [2; 7; 1; 2; 9]%nat) sample_arrivals) as H.
  destruct (receive_calls _ _ _ _) as [[got k] s]. destruct H as [_ H].
  - unfold BUFFER_SIZE. lia.
  - intros n Hn. apply list_elem_of_fmap in Hn as (m & [= ->] & Hm). unfold BATCH.
    repeat (apply elem_of_cons in Hm as [->|Hm]; [lia|]). by apply elem_of_nil in Hm.
  - simpl. rewrite H.
    + reflexivity.
    + intros e He. by apply list_elem_of_fmap in He as (m & ? & _).
Defined.
