(* ===== verification/Input.v ===== *)
(** * The datagrams of a connection

    [src/src/socket.rs], [DatagramInput]: where the receiving task of a connection takes its
    datagrams from. A connection of a listener has a channel ([Channel]) that the listener
    fills; a client reads the UDP socket itself ([Direct]), one datagram ahead when one is
    ready, until the first fragment arrives: from then on a task of its own
    ([enable_fragment_worker]) reads the socket and fills a channel. *)

From S2P Require Import Prelude Errors Datatype Runtime.

(** What a read of the UDP socket finds: a datagram and its source, or an error. A read of
    the empty list waits, or would block. *)
Inductive Arrival : Type :=
  | Arrives (bytes : list Z) (source : SocketAddr)
  | Fails (error : Z).

Definition PACKET_SIZE : nat := 2048.

(** A read overwrites the start of a buffer; a datagram that does not fit is cut. *)
Definition overwrite (bytes buffer : list Z) : list Z :=
  let bytes := take PACKET_SIZE bytes in bytes ++ drop (length bytes) buffer.

Definition read_length (bytes : list Z) : nat := length (take PACKET_SIZE bytes).

Record DirectDatagrams := mk_direct {
  peer : SocketAddr;
  packet_buffer : list Z;
  queued : list Z;
  packet_length : nat;
  queued_length : nat;
  error : option Z;
}.

Inductive DatagramInput (chan : Type -> Type) : Type :=
  | Channel (receiver : chan (list Z)) (packet : list Z)
  | Direct (input : DirectDatagrams).
Arguments Channel {_} _ _.
Arguments Direct {_} _.

Module DatagramInput.
Section Operations.
Context `{Mpsc chan}.
Implicit Types (self : DatagramInput chan) (kernel : list Arrival).

Definition from (receiver : chan (list Z)) : DatagramInput chan := Channel receiver [].

Definition direct (peer : SocketAddr) : DatagramInput chan :=
  Direct (mk_direct peer (replicate PACKET_SIZE 0) (replicate PACKET_SIZE 0) 0 0 None).

(** [packet] *)
Definition packet self : list Z :=
  match self with
  | Channel _ packet => packet
  | Direct input => take (packet_length input) (packet_buffer input)
  end.

(** The condition [source == input.peer && length != 0]. *)
Definition accepts (peer : SocketAddr) (bytes : list Z) (source : SocketAddr) : bool :=
  bool_decide (source = peer) && negb (Nat.eqb (read_length bytes) 0).

(** [loop { socket.recv_from(..).await }]: until a datagram of the peer, or an error. *)
Fixpoint recv_loop (input : DirectDatagrams) kernel
    : option (bool + Z) * DirectDatagrams * list Arrival :=
  match kernel with
  | [] => (None, input, [])
  | Fails error :: kernel => (Some (inr error), input, kernel)
  | Arrives bytes source :: kernel =>
      let input := mk_direct (peer input) (overwrite bytes (packet_buffer input)) (queued input)
                     (packet_length input) (queued_length input) (error input) in
      if accepts (peer input) bytes source
      then (Some (inl true),
            mk_direct (peer input) (packet_buffer input) (queued input) (read_length bytes)
              (queued_length input) (error input), kernel)
      else recv_loop input kernel
  end.

(** [recv]: [None] waits; [senders] says whether the channel still has a sender. *)
Definition recv (senders : bool) self kernel : option (bool + Z) * DatagramInput chan * list Arrival :=
  match self with
  | Channel receiver packet =>
      match try_recv receiver with
      | (Some received, receiver) => (Some (inl true), Channel receiver received, kernel)
      | (None, receiver) => ((if senders then None else Some (inl false)), Channel receiver packet, kernel)
      end
  | Direct input =>
      match error input with
      | Some e =>
          (Some (inr e), Direct (mk_direct (peer input) (packet_buffer input) (queued input)
                                   (packet_length input) (queued_length input) None), kernel)
      | None =>
          if negb (Nat.eqb (queued_length input) 0) then
            (Some (inl true), Direct (mk_direct (peer input) (queued input) (packet_buffer input)
                                        (queued_length input) 0 None), kernel)
          else let '(r, input, kernel) := recv_loop input kernel in (r, Direct input, kernel)
      end
  end.

(** [for _ in 0..32]: the read ahead. *)
Fixpoint read_ahead (count : nat) (input : DirectDatagrams) kernel : bool * DirectDatagrams * list Arrival :=
  match count, kernel with
  | O, _ => (true, input, kernel)
  | S _, [] => (true, input, [])
  | S _, Fails e :: kernel =>
      (true, mk_direct (peer input) (packet_buffer input) (queued input) (packet_length input)
               (queued_length input) (Some e), kernel)
  | S count, Arrives bytes source :: kernel =>
      let input := mk_direct (peer input) (packet_buffer input) (overwrite bytes (queued input))
                     (packet_length input) (queued_length input) (error input) in
      if accepts (peer input) bytes source
      then (false, mk_direct (peer input) (packet_buffer input) (queued input) (packet_length input)
                     (read_length bytes) (error input), kernel)
      else read_ahead count input kernel
  end.

Definition should_flush_ack self kernel : bool * DatagramInput chan * list Arrival :=
  match self with
  | Channel receiver packet => (is_empty receiver, self, kernel)
  | Direct input =>
      if negb (Nat.eqb (queued_length input) 0) then (false, self, kernel)
      else match error input with
      | Some _ => (true, self, kernel)
      | None => let '(r, input, kernel) := read_ahead 32 input kernel in (r, Direct input, kernel)
      end
  end.
End Operations.
End DatagramInput.
Import DatagramInput.

(** ** The fragment worker *)

(** The task: whose datagrams it forwards, the one it is sending, whether it is still
    sending the datagram that was read ahead, and whether it runs. The buffer it reads into
    holds nothing between its iterations. *)
Record FragmentWorker := mk_worker {
  worker_peer : SocketAddr; sending : option (list Z); starting : bool; running : bool }.

(** The input, the worker once it is spawned, what has reached the UDP socket, and whether
    the connection is closed. *)
Record Source (chan : Type -> Type) := mk_source {
  input : DatagramInput chan;
  worker : option FragmentWorker;
  kernel : list Arrival;
  source_closed : bool;
}.
Arguments mk_source {_} _ _ _ _.
Arguments input {_} _.
Arguments worker {_} _.
Arguments kernel {_} _.
Arguments source_closed {_} _.

Section Worker.
Context `{Mpsc chan}.
Implicit Types (self : Source chan).

(** [enable_fragment_worker], with the start of the task it spawns. *)
Definition enable_fragment_worker self : Source chan :=
  match input self with
  | Channel _ _ => self
  | Direct input =>
      let receiver := from (channel 100) in
      match error input with
      | Some _ => mk_source receiver (Some (mk_worker (peer input) None false false)) (kernel self) true
      | None =>
          mk_source receiver
            (Some (mk_worker (peer input)
               (if negb (Nat.eqb (queued_length input) 0) then Some (take (queued_length input) (queued input)) else None)
               true true)) (kernel self) (source_closed self)
      end
  end.

(** A turn of the worker: it goes on sending, or reads the socket. A closed connection ends
    it once it has started, when [select!] takes that branch. *)
Definition worker_turn (take_close : bool) self : Source chan :=
  match worker self, input self with
  | Some w, Channel receiver packet =>
      if negb (running w) then self
      else if negb (starting w) && source_closed self && take_close
      then mk_source (input self) (Some (mk_worker (worker_peer w) None false false)) (kernel self) true
      else match sending w with
      | Some data =>
          match try_send data receiver with
          | (Sent, receiver) =>
              mk_source (Channel receiver packet) (Some (mk_worker (worker_peer w) None false true)) (kernel self) (source_closed self)
          | (Full, receiver) => mk_source (Channel receiver packet) (worker self) (kernel self) (source_closed self)
          | (Closed, receiver) =>
              mk_source (Channel receiver packet) (Some (mk_worker (worker_peer w) None false false)) (kernel self) (source_closed self)
          end
      | None =>
          match kernel self with
          | [] => self
          | Fails _ :: kernel => mk_source (input self) (Some (mk_worker (worker_peer w) None false false)) kernel true
          | Arrives bytes source :: kernel =>
              mk_source (input self)
                (Some (mk_worker (worker_peer w)
                   (if accepts (worker_peer w) bytes source then Some (take PACKET_SIZE bytes) else None) false true))
                kernel (source_closed self)
          end
      end
  | _, _ => self
  end.
End Worker.

(** ** Histories *)

Inductive event : Type :=
  | Arrive (a : Arrival)
  | Recv
  | ShouldFlushAck
  | EnableFragmentWorker
  | WorkerTurn (take_close : bool)
  | Close.

Section Histories.
Context `{Mpsc chan}.
Implicit Types (self : Source chan) (e : event).

(** The datagrams handed to the receiving task, and the state after the event. *)
Definition step e self : list (list Z) * Source chan :=
  match e with
  | Arrive a => ([], mk_source (input self) (worker self) (kernel self ++ [a]) (source_closed self))
  | Recv =>
      let senders := from_option running true (worker self) in
      let '(r, i, k) := recv senders (input self) (kernel self) in
      (match r with Some (inl true) => [packet i] | _ => [] end,
       mk_source i (worker self) k (source_closed self))
  | ShouldFlushAck =>
      let '(_, i, k) := should_flush_ack (input self) (kernel self) in
      ([], mk_source i (worker self) k (source_closed self))
  | EnableFragmentWorker => ([], enable_fragment_worker self)
  | WorkerTurn take_close => ([], worker_turn take_close self)
  | Close => ([], mk_source (input self) (worker self) (kernel self) true)
  end.

Fixpoint run (events : list event) self : list (list Z) * Source chan :=
  match events with
  | [] => ([], self)
  | e :: events =>
      let '(got, self) := step e self in
      let '(got', self) := run events self in
      (got ++ got', self)
  end.

(** The datagrams of the peer among arrivals. *)
Definition accepted (peer : SocketAddr) (arrivals : list Arrival) : list (list Z) :=
  omap (fun a => match a with
                 | Arrives bytes source => if accepts peer bytes source then Some (take PACKET_SIZE bytes) else None
                 | Fails _ => None
                 end) arrivals.

Definition arrivals (events : list event) : list Arrival :=
  omap (fun e => match e with Arrive a => Some a | _ => None end) events.

(** The datagrams read from the socket and not yet handed over. *)
Definition in_transit self : list (list Z) :=
  match input self with
  | Direct i => if Nat.eqb (queued_length i) 0 then [] else [take (queued_length i) (queued i)]
  | Channel receiver _ => Runtime.queued (view receiver) ++ option_list (w ← worker self; sending w)
  end.

Definition to_come (peer : SocketAddr) self : list (list Z) := in_transit self ++ accepted peer (kernel self).

(** A client's connection. *)
Record source_ok (peer' : SocketAddr) self : Prop := {
  so_direct : forall i, input self = Direct i ->
    worker self = None /\ peer i = peer' /\ (error i <> None -> queued_length i = 0%nat);
  so_channel : forall receiver packet, input self = Channel receiver packet ->
    receiver_closed (view receiver) = false /\ exists w, worker self = Some w /\ worker_peer w = peer';
}.

Lemma take_overwrite bytes buffer : take (read_length bytes) (overwrite bytes buffer) = take PACKET_SIZE bytes.
Proof. unfold read_length, overwrite. by rewrite take_app_length. Qed.

Lemma accepted_app peer l k : accepted peer (l ++ k) = accepted peer l ++ accepted peer k.
Proof. apply omap_app. Qed.

Lemma accepted_cons peer a l : accepted peer (a :: l) = accepted peer [a] ++ accepted peer l.
Proof. apply (accepted_app peer [a]). Qed.

Lemma accepts_length peer bytes source : accepts peer bytes source = true -> read_length bytes <> 0%nat.
Proof. unfold accepts. intros Ha. apply andb_true_iff in Ha as [_ Ha]. intros E. by rewrite E in Ha. Qed.

(** The reading loop hands over the first datagram of the peer. *)
Lemma recv_loop_spec i kernel :
  let '(r, i', kernel') := recv_loop i kernel in
  peer i' = peer i /\ queued i' = queued i /\ queued_length i' = queued_length i /\ error i' = error i /\
  accepted (peer i) kernel =
    (match r with Some (inl true) => [take (packet_length i') (packet_buffer i')] | _ => [] end) ++ accepted (peer i) kernel'.
Proof.
  revert i. induction kernel as [|a kernel IH]; intros i; cbn [recv_loop]; [done|].
  rewrite accepted_cons. destruct a as [bytes source|e]; [|done]. cbn [peer].
  unfold accepted at 1. cbn [omap list_omap]. destruct (accepts (peer i) bytes source).
  - simpl. rewrite take_overwrite. by split_and!.
  - match goal with |- context [recv_loop ?x kernel] => specialize (IH x); destruct (recv_loop x kernel) as [[r i'] k'] end.
    done.
Qed.

Lemma read_ahead_spec count i kernel :
  queued_length i = 0%nat ->
  let '(r, i', kernel') := read_ahead count i kernel in
  peer i' = peer i /\ (error i = None -> error i' <> None -> queued_length i' = 0%nat) /\
  (r = false <-> queued_length i' <> 0%nat) /\
  accepted (peer i) kernel =
    (if Nat.eqb (queued_length i') 0 then [] else [take (queued_length i') (queued i')]) ++ accepted (peer i) kernel'.
Proof.
  revert i kernel. induction count as [|count IH]; intros i kernel Hq; cbn [read_ahead].
  { rewrite Hq. by split_and!. }
  destruct kernel as [|a kernel]; [rewrite Hq; by split_and!|].
  rewrite accepted_cons. destruct a as [bytes source|e]; cbn [peer].
  - unfold accepted at 1. cbn [omap list_omap]. destruct (accepts (peer i) bytes source) eqn:Ha.
    + apply accepts_length in Ha as Hl. cbn [queued_length queued error peer].
      rewrite (proj2 (Nat.eqb_neq _ _) Hl), take_overwrite. split_and!; try done; by intros ->.
    + match goal with |- context [read_ahead count ?x kernel] =>
        specialize (IH x kernel Hq); destruct (read_ahead count x kernel) as [[r i'] k'] end. done.
  - cbn [queued_length queued error peer]. rewrite Hq. by split_and!.
Qed.

(** Acknowledgements are withheld only while a datagram is ready for the receiving task. *)
Lemma should_flush_ack_in_transit peer self :
  source_ok peer self ->
  let '(r, i, k) := should_flush_ack (input self) (kernel self) in
  r = false -> in_transit (mk_source i (worker self) k (source_closed self)) <> [].
Proof.
  intros [Hd Hc]. unfold should_flush_ack, in_transit. destruct (input self) as [receiver p|i] eqn:Ei.
  - simpl. rewrite is_empty_view. unfold Channel.is_empty. by destruct (Runtime.queued (view receiver)).
  - destruct (Nat.eqb_spec (queued_length i) 0) as [Hq|Hq]; cbn [negb].
    + destruct (error i); [done|]. pose proof (read_ahead_spec 32 i (kernel self) Hq) as Hr.
      destruct (read_ahead 32 i (kernel self)) as [[r i'] k']. destruct Hr as (_ & _ & Hr & _). intros Hf.
      apply Hr in Hf. simpl. by rewrite (proj2 (Nat.eqb_neq _ _) Hf).
    + intros _. cbn [input]. by rewrite (proj2 (Nat.eqb_neq _ _) Hq).
Qed.

(** An event hands over the first datagrams to come, and adds those that arrive. On a
    closed connection the worker may drop the one it is sending. *)
Definition passes (peer : SocketAddr) (got : list (list Z)) (arrived : list Arrival) self self' : Prop :=
  source_ok peer self' /\ (source_closed self = true -> source_closed self' = true) /\
  got ++ to_come peer self' `sublist_of` to_come peer self ++ accepted peer arrived /\
  (source_closed self' = false ->
   got ++ to_come peer self' = to_come peer self ++ accepted peer arrived).

Lemma passes_eq peer got arrived self self' :
  source_ok peer self' -> (source_closed self = true -> source_closed self' = true) ->
  got ++ to_come peer self' = to_come peer self ++ accepted peer arrived -> passes peer got arrived self self'.
Proof. intros Hok Hc He. split_and!; [done|done|by rewrite He|done]. Qed.

Lemma recv_passes peer' self :
  source_ok peer' self -> passes peer' (step Recv self).1 [] self (step Recv self).2.
Proof.
  intros Hok. pose proof Hok as [Hd Hc]. unfold step, recv. destruct (input self) as [receiver p|i] eqn:Ei.
  - destruct (Hc _ _ eq_refl) as [Hopen Hw]. pose proof (try_recv_result receiver) as Hr.
    pose proof (try_recv_state receiver) as Hs. unfold Channel.try_recv in Hr, Hs.
    destruct (try_recv receiver) as [o r']. simpl in Hr, Hs.
    destruct (Runtime.queued (view receiver)) as [|m l] eqn:Eq; simpl in Hr, Hs; subst o.
    + assert (passes peer' [] [] self (mk_source (Channel r' p) (worker self) (kernel self) (source_closed self))) as Hp.
      { apply passes_eq; [split; [done|]|done|].
        - intros ? ? [= <- <-]. simpl. by rewrite Hs.
        - unfold to_come, in_transit. simpl. rewrite Ei, Hs, app_nil_r. done. }
      by destruct (from_option running true (worker self)).
    + apply passes_eq; [split; [done|]|done|].
      * intros ? ? [= <- <-]. simpl. by rewrite Hs.
      * unfold to_come, in_transit. simpl. rewrite Ei, Hs, Eq, app_nil_r. done.
  - destruct (Hd _ eq_refl) as (Hw & Hp & He). destruct (error i) as [e|] eqn:Ee.
    + simpl. apply passes_eq; [split; [|done]|done|].
      * intros ? [= <-]. simpl. by split_and!.
      * unfold to_come, in_transit. simpl. by rewrite Ei, app_nil_r.
    + destruct (Nat.eqb_spec (queued_length i) 0) as [Hq|Hq]; cbn [negb].
      * pose proof (recv_loop_spec i (kernel self)) as Hr. destruct (recv_loop i (kernel self)) as [[r i'] k'].
        destruct Hr as (H1 & H2 & H3 & H4 & H5). cbn [fst snd]. apply passes_eq; [split; [|done]|done|].
        -- intros ? [= <-]. simpl. split_and!; [done|congruence|]. rewrite H3. done.
        -- unfold to_come, in_transit. cbn [input kernel]. rewrite Ei, H3, Hq, app_nil_r. simpl.
           rewrite <- Hp, H5. by destruct r as [[[]|]|].
      * simpl. apply passes_eq; [split; [|done]|done|].
        -- intros ? [= <-]. simpl. by split_and!.
        -- unfold to_come, in_transit. simpl. rewrite Ei, (proj2 (Nat.eqb_neq _ _) Hq), app_nil_r. done.
Qed.

Lemma should_flush_ack_passes peer' self :
  source_ok peer' self -> passes peer' [] [] self (step ShouldFlushAck self).2.
Proof.
  intros Hok. pose proof Hok as [Hd Hc].
  assert (passes peer' [] [] self (mk_source (input self) (worker self) (kernel self) (source_closed self))) as Hsame
    by (apply passes_eq; [by destruct self|done|by rewrite app_nil_r; destruct self]).
  unfold step, should_flush_ack. destruct (input self) as [receiver p|i] eqn:Ei; [exact Hsame|].
  destruct (Nat.eqb_spec (queued_length i) 0) as [Hq|Hq]; cbn [negb]; [|exact Hsame].
  destruct (error i) eqn:Ee; [exact Hsame|]. destruct (Hd _ eq_refl) as (Hw & Hp & He).
  pose proof (read_ahead_spec 32 i (kernel self) Hq) as Hr. destruct (read_ahead 32 i (kernel self)) as [[r i'] k'].
  destruct Hr as (H1 & H2 & _ & H4). simpl. apply passes_eq; [split; [|done]|done|].
  - intros ? [= <-]. simpl. split_and!; [done|congruence|by apply H2].
  - unfold to_come, in_transit. simpl. rewrite Ei, Hq, app_nil_r. simpl. by rewrite <- Hp, H4.
Qed.

Lemma enable_fragment_worker_passes peer' self :
  source_ok peer' self -> passes peer' [] [] self (enable_fragment_worker self).
Proof.
  intros Hok. pose proof Hok as [Hd Hc]. unfold enable_fragment_worker.
  destruct (input self) as [receiver p|i] eqn:Ei.
  { apply passes_eq; [done|done|by rewrite app_nil_r]. }
  destruct (Hd _ eq_refl) as (Hw & Hp & He).
  assert (forall s r c, source_ok peer' (mk_source (from (channel 100)) (Some (mk_worker (peer i) s r c)) (kernel self) true)
    /\ source_ok peer' (mk_source (from (channel 100)) (Some (mk_worker (peer i) s r c)) (kernel self) (source_closed self))) as Hnew.
  { intros s r c. split; (split; [done|]; intros ? ? [= <- <-]; simpl; rewrite channel_view; split; [done|]; by eexists). }
  destruct (error i) eqn:Ee.
  - apply passes_eq; [apply Hnew|done|]. unfold to_come, in_transit. simpl.
    rewrite Ei, channel_view, He, !app_nil_r by done. done.
  - apply passes_eq; [apply Hnew|done|]. unfold to_come, in_transit. simpl.
    rewrite Ei, channel_view. simpl. rewrite app_nil_r. by destruct (Nat.eqb (queued_length i) 0).
Qed.

Lemma worker_turn_passes peer' take_close self :
  source_ok peer' self -> passes peer' [] [] self (worker_turn take_close self).
Proof.
  intros Hok. pose proof Hok as [Hd Hc].
  assert (passes peer' [] [] self self) as Hsame by (apply passes_eq; [done|done|by rewrite app_nil_r]).
  unfold worker_turn. destruct (worker self) as [w|] eqn:Ew; [|done].
  destruct (input self) as [receiver p|i] eqn:Ei; [|done].
  destruct (Hc _ _ eq_refl) as (Hopen & w' & [= <-] & Hp).
  assert (forall r w' k c, view r = view receiver \/ receiver_closed (view r) = false -> worker_peer w' = peer' ->
    source_ok peer' (mk_source (Channel r p) (Some w') k c)) as Hnew.
  { intros r w' k c Hr Hw'. split; [done|]. intros ? ? [= <- <-]. simpl.
    split; [destruct Hr as [->|]; done|]. by exists w'. }
  destruct (running w); simpl; [|done]. destruct (negb (starting w) && source_closed self && take_close) eqn:Ecl.
  { apply andb_true_iff in Ecl as [Ecl _]. apply andb_true_iff in Ecl as [_ Ecl].
    split_and!; [apply Hnew; auto|done| |done]. unfold to_come, in_transit. simpl. rewrite Ei, Ew, !app_nil_r.
    apply sublist_app; [|done]. apply sublist_inserts_r. done. }
  destruct (sending w) as [m|] eqn:Es.
  - pose proof (try_send_result m receiver) as Hr. pose proof (try_send_state m receiver) as Hs.
    unfold Channel.try_send in Hr, Hs. rewrite Hopen in Hr, Hs.
    destruct (try_send m receiver) as [o r']. simpl in Hr, Hs.
    destruct (Channel.full (view receiver)); simpl in Hr, Hs; subst o.
    + apply passes_eq; [apply Hnew; auto|done|]. unfold to_come, in_transit. simpl.
      by rewrite Ei, Ew, Hs, app_nil_r.
    + apply passes_eq; [apply Hnew; [right; by rewrite Hs|done]|done|]. unfold to_come, in_transit. simpl.
      rewrite Ei, Ew, Hs, !app_nil_r. simpl. rewrite Es. done.
  - destruct (kernel self) as [|[bytes source|e] k'] eqn:Ek; [done|..].
    + apply passes_eq; [apply Hnew; auto|done|]. unfold to_come, in_transit.
      rewrite Ei, Ew, Ek, (accepted_cons peer' _ k'). simpl. rewrite Es, !app_nil_r. rewrite <- Hp.
      rewrite <- app_assoc. by destruct (accepts _ _ _).
    + split_and!; [apply Hnew; auto|done| |done]. unfold to_come, in_transit. simpl. rewrite Ei, Ew, Ek, !app_nil_r.
      simpl. rewrite Es, app_nil_r. done.
Qed.

Lemma source_step_passes peer' e self :
  source_ok peer' self ->
  passes peer' (step e self).1 (arrivals [e]) self (step e self).2.
Proof.
  intros Hok. destruct e as [a| | | |take_close|].
  - simpl. apply passes_eq; [|done|].
    + destruct Hok as [Hd Hc]. by split.
    + unfold to_come, in_transit. simpl. by rewrite accepted_app, app_assoc.
  - by apply recv_passes.
  - replace (step ShouldFlushAck self).1 with (@nil (list Z))
      by (unfold step; by destruct (should_flush_ack _ _) as [[]]).
    by apply should_flush_ack_passes.
  - by apply enable_fragment_worker_passes.
  - by apply worker_turn_passes.
  - simpl. apply passes_eq; [|done|].
    + destruct Hok as [Hd Hc]. by split.
    + unfold to_come. by rewrite app_nil_r.
Qed.

(** A client's connection before anything happens. *)
Definition client_source (peer : SocketAddr) : Source chan := mk_source (direct peer) None [] false.

(** C18: every datagram of the peer reaches the receiving task once and in order. Whatever
    arrives at a client's UDP socket, however reads, read-aheads and the fragment worker
    interleave, and whenever the worker takes over: what the task has been handed, what is
    in transit and what is still in the socket are datagrams of the peer that arrived, in
    order; none is missing while the connection is open; and acknowledgements are withheld
    only while a datagram is ready to be handed over. *)
Theorem input_preserves_datagrams peer events :
  let out := run events (client_source peer) in
  out.1 ++ to_come peer out.2 `sublist_of` accepted peer (arrivals events) /\
  (source_closed out.2 = false -> out.1 ++ to_come peer out.2 = accepted peer (arrivals events)) /\
  let '(flush, i, k) := should_flush_ack (input out.2) (kernel out.2) in
  flush = false -> in_transit (mk_source i (worker out.2) k (source_closed out.2)) <> [].
Proof.
  cbv zeta. assert (source_ok peer (client_source peer)) as Hok.
  { split; [|done]. intros ? [= <-]. by split_and!. }
  enough (passes peer (run events (client_source peer)).1 (arrivals events) (client_source peer)
            (run events (client_source peer)).2) as (Hok' & _ & Hs & He).
  { split; [exact Hs|]. split; [exact He|]. by eapply should_flush_ack_in_transit. }
  revert Hok. generalize (client_source peer) as self. induction events as [|e events IH]; intros self Hok.
  { simpl. apply passes_eq; [done|done|by rewrite app_nil_r]. }
  cbn [run]. pose proof (source_step_passes peer e self Hok) as (Hok1 & Hc1 & Hs1 & He1).
  destruct (step e self) as [got s1]. cbn [fst snd] in *. destruct (IH s1 Hok1) as (Hok2 & Hc2 & Hs2 & He2).
  destruct (run events s1) as [got' s2]. cbn [fst snd] in *.
  replace (arrivals (e :: events)) with (arrivals [e] ++ arrivals events) by (symmetry; apply (omap_app _ [e])).
  unfold passes. rewrite accepted_app, <- !app_assoc.
  split_and!; [done|auto|..].
  - etransitivity; [apply sublist_app; [reflexivity|exact Hs2]|]. rewrite !app_assoc. by apply sublist_app.
  - intros Hcl. rewrite He2 by done. rewrite !app_assoc, He1; [done|].
    destruct (source_closed s1); [|done]. rewrite Hc2 in Hcl; done.
Qed.
End Histories.

(** ** The theorem at work *)

(** A foreign datagram, one of the peer that is read ahead, the worker, and one more. *)
Definition sample_peer : SocketAddr := V4 (mk_ipv4 127 0 0 1) 19132.

Definition sample_history : list event :=
  [Arrive (Arrives [9] (V4 (mk_ipv4 10 0 0 1) 7)); Arrive (Arrives [1; 2] sample_peer); ShouldFlushAck;
   EnableFragmentWorker; Arrive (Arrives [3] sample_peer); WorkerTurn false; WorkerTurn false;
   WorkerTurn false; Recv; Recv].

Lemma input_preserves_datagrams_witness :
  let out := run sample_history (client_source (chan := Runtime.Channel) sample_peer) in
  out.1 ++ to_come sample_peer out.2 = [[1; 2]; [3]] /\ out.1 = [[1; 2]; [3]].
Proof.
  destruct (input_preserves_datagrams (chan := Runtime.Channel) sample_peer sample_history) as (_ & He & _).
  split; [etrans; [apply He; vm_compute; reflexivity|]|]; vm_compute; reflexivity.
Defined.
