(* ===== verification/Server.v ===== *)
(** * The listener

    [src/src/server.rs]: [RaknetListener], its dispatch cache, the task that receives every
    datagram of the UDP socket ([listen_single]) and the task that removes closed sessions
    ([start_session_collect]).

    The handles of a connection that the listener keeps ([Sender] and close [Semaphore])
    are keys into a store of connections, [peers]: the cache, the session table and the
    accepted socket share them. A semaphore that is only closed and queried is the boolean
    [is_closed()] returns. One iteration of a task's loop is one step; the clocks, and
    whether the operating system takes a datagram that is sent, are arguments. *)

From stdpp Require Import countable pretty strings.
From Stdlib Require Import Ascii.
From S2P Require Import Prelude Errors Datatype Packet PacketCodec Runtime.

(** ** Constants ([server.rs], [utils.rs]) *)

Definition RAKNET_PROTOCOL_VERSION : Z := 10.
Definition RAKNET_PROTOCOL_VERSION_LIST : list Z := [10; 11].
Definition RAKNET_CLIENT_MTU : Z := 1400.
Definition RAKNET_MAX_MTU : Z := 1492.

(** The bytes of a string literal. *)
Definition bytes_of_string (s : string) : list Z :=
  map (fun c => Z.of_nat (nat_of_ascii c)) (String.list_ascii_of_string s).

Definition SERVER_NAME : list Z := bytes_of_string "Rust Raknet Server".
Definition MAX_CONNECTION : Z := 99999.

#[export] Instance Ipv4Addr_countable : Countable Ipv4Addr.
Proof.
  apply (inj_countable' (fun ip => (octet0 ip, octet1 ip, octet2 ip, octet3 ip))
    (fun '(a, b, c, d) => mk_ipv4 a b c d)). by intros [].
Defined.

#[export] Instance SocketAddr_countable : Countable SocketAddr.
Proof.
  apply (inj_countable'
    (fun a => match a with V4 ip p => inl (ip, p) | V6 o p f s => inr (o, p, f, s) end)
    (fun x => match x with inl (ip, p) => V4 ip p | inr (o, p, f, s) => V6 o p f s end)).
  by intros [].
Defined.

(** ** Sessions *)

(** The two handles are keys of [peers]. *)
Record SessionSender := mk_session { sender : Z; close : Z; session_guid : Z; session_mtu : Z }.

Record CachedSession := mk_cached { address : SocketAddr; cached_sender : Z; cached_close : Z }.

(** The connection behind the handles: its peer, its queue of datagrams, its close signal. *)
Record Peer (chan : Type -> Type) := mk_peer {
  remote : SocketAddr; inbox : chan (list Z); closed : bool }.
Arguments mk_peer {_} _ _ _.
Arguments remote {_} _.
Arguments inbox {_} _.
Arguments closed {_} _.

(** What [RaknetSocket::from] hands to [accept]: the socket of a connection. *)
Record Accepted := mk_accepted {
  peer : Z; peer_addr : SocketAddr; accepted_mtu : Z; raknet_version : Z; idle : bool }.

Module SessionDispatchCache.

Abbreviation SessionDispatchCache := (list (option CachedSession)).

Definition LIMIT : Z := 4096.

Definition default : SessionDispatchCache := replicate (Z.to_nat LIMIT) None.

(** [u32::from(ip)] and the two halves of [u128::from(ip)], mixed. *)
Definition slot (address : SocketAddr) : Z :=
  let ip := match address with
            | V4 ip _ => of_be (octets_v4 ip)
            | V6 octets _ _ _ =>
                let bits := of_be octets in
                Z.lxor (wrap 64 bits) (wrap 64 (Z.shiftr bits 64))
            end in
  let mixed := ip in
  let mixed := Z.lxor mixed (Z.shiftr mixed 33) in
  let mixed := wrap 64 (mixed * 0xff51afd7ed558ccd) in
  let mixed := Z.lxor mixed (Z.shiftr mixed 33) in
  Z.land (Z.lxor mixed (port address)) (LIMIT - 1).

Definition index (a : SocketAddr) : nat := Z.to_nat (slot a).

Section Cache.
Context `{Mpsc chan}.
Implicit Types (peers : gmap Z (Peer chan)) (cache : SessionDispatchCache).

(** Whether the handles of an entry are still open. *)
Definition is_open peers (sender close : Z) : bool :=
  match peers !! close, peers !! sender with
  | Some c, Some s => negb (closed c) && negb (is_closed (inbox s))
  | _, _ => false
  end.

(** [SessionDispatchCache::sender]. *)
Definition lookup peers (address' : SocketAddr) cache : option Z :=
  match cache !! index address' with
  | Some (Some entry) =>
      if bool_decide (address entry = address') && is_open peers (cached_sender entry) (cached_close entry)
      then Some (cached_sender entry)
      else None
  | _ => None
  end.

Definition remember (address : SocketAddr) (session : SessionSender) cache : SessionDispatchCache :=
  <[index address := Some (mk_cached address (sender session) (close session))]> cache.

Definition forget (address' : SocketAddr) cache : SessionDispatchCache :=
  match cache !! index address' with
  | Some (Some entry) =>
      if bool_decide (address entry = address') then <[index address' := None]> cache else cache
  | _ => cache
  end.

Definition prune peers cache : SessionDispatchCache :=
  map (fun slot => match slot with
                   | Some entry =>
                       if is_open peers (cached_sender entry) (cached_close entry) then slot else None
                   | None => None
                   end) cache.
End Cache.
End SessionDispatchCache.
Import SessionDispatchCache.

(** ** The listener's state

    The fields of [RaknetListener] that change or matter to the protocol, the local
    variables of the receiving task ([pending_versions], [dispatch_cache]) and whether it
    runs ([receiving]), and the store of connections. Of the watch channel of the MOTD there
    is the current value ([announced], next to the field [motd]) and whether a sender is
    left ([motd_held]). *)

Record Listener (chan : Type -> Type) := mk_listener {
  motd : list Z;
  announced : list Z;
  motd_held : bool;
  socket_open : bool;
  guid : Z;
  listened : bool;
  receiving : bool;
  maximum_mtu : Z;
  receive_batching : bool;
  idle_maintenance : bool;
  connection : chan Accepted;
  sessions : gmap SocketAddr SessionSender;
  close_notifier : bool;
  version_map : gmap SocketAddr Z;
  pending_versions : gmap SocketAddr (Z * Z);
  dispatch_cache : SessionDispatchCache;
  peers : gmap Z (Peer chan);
  next_peer : Z;
}.
Arguments mk_listener {_}.
Arguments motd {_} _.
Arguments announced {_} _.
Arguments motd_held {_} _.
Arguments socket_open {_} _.
Arguments guid {_} _.
Arguments listened {_} _.
Arguments receiving {_} _.
Arguments maximum_mtu {_} _.
Arguments receive_batching {_} _.
Arguments idle_maintenance {_} _.
Arguments connection {_} _.
Arguments sessions {_} _.
Arguments close_notifier {_} _.
Arguments version_map {_} _.
Arguments pending_versions {_} _.
Arguments dispatch_cache {_} _.
Arguments peers {_} _.
Arguments next_peer {_} _.

#[export] Instance set_motd {chan} : Setter (@motd chan) := fun g r =>
  mk_listener (g (motd r)) (announced r) (motd_held r) (socket_open r) (guid r) (listened r)
    (receiving r) (maximum_mtu r) (receive_batching r) (idle_maintenance r) (connection r)
    (sessions r) (close_notifier r) (version_map r) (pending_versions r) (dispatch_cache r)
    (peers r) (next_peer r).
#[export] Instance set_announced {chan} : Setter (@announced chan) := fun g r =>
  mk_listener (motd r) (g (announced r)) (motd_held r) (socket_open r) (guid r) (listened r)
    (receiving r) (maximum_mtu r) (receive_batching r) (idle_maintenance r) (connection r)
    (sessions r) (close_notifier r) (version_map r) (pending_versions r) (dispatch_cache r)
    (peers r) (next_peer r).
#[export] Instance set_motd_held {chan} : Setter (@motd_held chan) := fun g r =>
  mk_listener (motd r) (announced r) (g (motd_held r)) (socket_open r) (guid r) (listened r)
    (receiving r) (maximum_mtu r) (receive_batching r) (idle_maintenance r) (connection r)
    (sessions r) (close_notifier r) (version_map r) (pending_versions r) (dispatch_cache r)
    (peers r) (next_peer r).
#[export] Instance set_socket_open {chan} : Setter (@socket_open chan) := fun g r =>
  mk_listener (motd r) (announced r) (motd_held r) (g (socket_open r)) (guid r) (listened r)
    (receiving r) (maximum_mtu r) (receive_batching r) (idle_maintenance r) (connection r)
    (sessions r) (close_notifier r) (version_map r) (pending_versions r) (dispatch_cache r)
    (peers r) (next_peer r).
#[export] Instance set_guid {chan} : Setter (@guid chan) := fun g r =>
  mk_listener (motd r) (announced r) (motd_held r) (socket_open r) (g (guid r)) (listened r)
    (receiving r) (maximum_mtu r) (receive_batching r) (idle_maintenance r) (connection r)
    (sessions r) (close_notifier r) (version_map r) (pending_versions r) (dispatch_cache r)
    (peers r) (next_peer r).
#[export] Instance set_listened {chan} : Setter (@listened chan) := fun g r =>
  mk_listener (motd r) (announced r) (motd_held r) (socket_open r) (guid r) (g (listened r))
    (receiving r) (maximum_mtu r) (receive_batching r) (idle_maintenance r) (connection r)
    (sessions r) (close_notifier r) (version_map r) (pending_versions r) (dispatch_cache r)
    (peers r) (next_peer r).
#[export] Instance set_receiving {chan} : Setter (@receiving chan) := fun g r =>
  mk_listener (motd r) (announced r) (motd_held r) (socket_open r) (guid r) (listened r) (g
    (receiving r)) (maximum_mtu r) (receive_batching r) (idle_maintenance r) (connection r)
    (sessions r) (close_notifier r) (version_map r) (pending_versions r) (dispatch_cache r)
    (peers r) (next_peer r).
#[export] Instance set_maximum_mtu {chan} : Setter (@maximum_mtu chan) := fun g r =>
  mk_listener (motd r) (announced r) (motd_held r) (socket_open r) (guid r) (listened r)
    (receiving r) (g (maximum_mtu r)) (receive_batching r) (idle_maintenance r) (connection r)
    (sessions r) (close_notifier r) (version_map r) (pending_versions r) (dispatch_cache r)
    (peers r) (next_peer r).
#[export] Instance set_receive_batching {chan} : Setter (@receive_batching chan) := fun g r =>
  mk_listener (motd r) (announced r) (motd_held r) (socket_open r) (guid r) (listened r)
    (receiving r) (maximum_mtu r) (g (receive_batching r)) (idle_maintenance r) (connection r)
    (sessions r) (close_notifier r) (version_map r) (pending_versions r) (dispatch_cache r)
    (peers r) (next_peer r).
#[export] Instance set_idle_maintenance {chan} : Setter (@idle_maintenance chan) := fun g r =>
  mk_listener (motd r) (announced r) (motd_held r) (socket_open r) (guid r) (listened r)
    (receiving r) (maximum_mtu r) (receive_batching r) (g (idle_maintenance r)) (connection r)
    (sessions r) (close_notifier r) (version_map r) (pending_versions r) (dispatch_cache r)
    (peers r) (next_peer r).
#[export] Instance set_connection {chan} : Setter (@connection chan) := fun g r =>
  mk_listener (motd r) (announced r) (motd_held r) (socket_open r) (guid r) (listened r)
    (receiving r) (maximum_mtu r) (receive_batching r) (idle_maintenance r) (g (connection r))
    (sessions r) (close_notifier r) (version_map r) (pending_versions r) (dispatch_cache r)
    (peers r) (next_peer r).
#[export] Instance set_sessions {chan} : Setter (@sessions chan) := fun g r =>
  mk_listener (motd r) (announced r) (motd_held r) (socket_open r) (guid r) (listened r)
    (receiving r) (maximum_mtu r) (receive_batching r) (idle_maintenance r) (connection r) (g
    (sessions r)) (close_notifier r) (version_map r) (pending_versions r) (dispatch_cache r)
    (peers r) (next_peer r).
#[export] Instance set_close_notifier {chan} : Setter (@close_notifier chan) := fun g r =>
  mk_listener (motd r) (announced r) (motd_held r) (socket_open r) (guid r) (listened r)
    (receiving r) (maximum_mtu r) (receive_batching r) (idle_maintenance r) (connection r)
    (sessions r) (g (close_notifier r)) (version_map r) (pending_versions r) (dispatch_cache
    r) (peers r) (next_peer r).
#[export] Instance set_version_map {chan} : Setter (@version_map chan) := fun g r =>
  mk_listener (motd r) (announced r) (motd_held r) (socket_open r) (guid r) (listened r)
    (receiving r) (maximum_mtu r) (receive_batching r) (idle_maintenance r) (connection r)
    (sessions r) (close_notifier r) (g (version_map r)) (pending_versions r) (dispatch_cache
    r) (peers r) (next_peer r).
#[export] Instance set_pending_versions {chan} : Setter (@pending_versions chan) := fun g r =>
  mk_listener (motd r) (announced r) (motd_held r) (socket_open r) (guid r) (listened r)
    (receiving r) (maximum_mtu r) (receive_batching r) (idle_maintenance r) (connection r)
    (sessions r) (close_notifier r) (version_map r) (g (pending_versions r)) (dispatch_cache
    r) (peers r) (next_peer r).
#[export] Instance set_dispatch_cache {chan} : Setter (@dispatch_cache chan) := fun g r =>
  mk_listener (motd r) (announced r) (motd_held r) (socket_open r) (guid r) (listened r)
    (receiving r) (maximum_mtu r) (receive_batching r) (idle_maintenance r) (connection r)
    (sessions r) (close_notifier r) (version_map r) (pending_versions r) (g (dispatch_cache
    r)) (peers r) (next_peer r).
#[export] Instance set_peers {chan} : Setter (@peers chan) := fun g r =>
  mk_listener (motd r) (announced r) (motd_held r) (socket_open r) (guid r) (listened r)
    (receiving r) (maximum_mtu r) (receive_batching r) (idle_maintenance r) (connection r)
    (sessions r) (close_notifier r) (version_map r) (pending_versions r) (dispatch_cache r) (g
    (peers r)) (next_peer r).
#[export] Instance set_next_peer {chan} : Setter (@next_peer chan) := fun g r =>
  mk_listener (motd r) (announced r) (motd_held r) (socket_open r) (guid r) (listened r)
    (receiving r) (maximum_mtu r) (receive_batching r) (idle_maintenance r) (connection r)
    (sessions r) (close_notifier r) (version_map r) (pending_versions r) (dispatch_cache r)
    (peers r) (g (next_peer r)).

(** ** The receiving task *)

(** How an iteration ends: with the datagrams it hands to the socket, or with the loop
    broken. *)
Inductive Flow : Type :=
  | Continue (sent : list (SocketAddr * list Z))
  | Break.

Section Operations.
Context `{Mpsc chan}.
Implicit Types (self : Listener chan) (addr : SocketAddr) (buf : list Z).

(** [let Ok(x) = ... else continue]. *)
Definition or_continue {A} (r : Result A) (k : A -> Flow * Listener chan) self : Flow * Listener chan :=
  match r with Ok a => k a | Err _ => (Continue [], self) end.

(** [close] on the semaphore of a connection, and dropping it from the outside. *)
Definition close_peer (id : Z) self : Listener chan :=
  self <| peers := alter (fun p => mk_peer (remote p) (inbox p) true) id (peers self) |>.

(** The arms of both unconnected pings. *)
Definition on_ping (timestamp : Z) buf addr self : Flow * Listener chan :=
  or_continue (read_packet_ping buf) (fun _ =>
    let packet := mk_PacketUnconnectedPong timestamp (guid self) (announced self) in
    or_continue (write_packet_pong packet) (fun pong => (Continue [(addr, pong)], self)) self) self.

Definition on_open_connection_request_1 (now : Z) buf addr self : Flow * Listener chan :=
  or_continue (read_packet_connection_open_request_1 buf) (fun req =>
    if negb (bool_decide (req1_protocol_version req ∈ RAKNET_PROTOCOL_VERSION_LIST)) then
      let packet := mk_IncompatibleProtocolVersion RAKNET_PROTOCOL_VERSION (guid self) in
      or_continue (write_packet_incompatible_protocol_version packet) (fun buf =>
        (Continue [(addr, buf)], self)) self
    else if (4096 <=? Z.of_nat (size (pending_versions self)))
            && negb (bool_decide (is_Some (pending_versions self !! addr)))
    then (Continue [], self)
    else
      let self := self <| pending_versions :=
                    <[addr := (req1_protocol_version req, now)]> (pending_versions self) |> in
      let packet := mk_OpenConnectionReply1 (guid self) 0x00
                      (Z.min (req1_mtu_size req) (maximum_mtu self)) in
      or_continue (write_packet_connection_open_reply_1 packet) (fun reply =>
        (Continue [(addr, reply)], self)) self) self.

(** [RaknetSocket::from]: a connection with a fresh queue and close signal. *)
Definition new_socket addr (receiver : chan (list Z)) (mtu version : Z) self : Accepted * Listener chan :=
  let id := next_peer self in
  (mk_accepted id addr mtu version (idle_maintenance self),
   self <| peers := <[id := mk_peer addr receiver false]> (peers self) |>
        <| next_peer := id + 1 |>).

(** [pending_versions.remove(&addr)], used unless it is sixty seconds old. *)
Definition negotiated_version (now : Z) addr self : Z :=
  match pending_versions self !! addr with
  | Some (version, time) => if (now - time) / 1000 <? 60 then version else RAKNET_PROTOCOL_VERSION
  | None => RAKNET_PROTOCOL_VERSION
  end.

(** A session is created: the reserved slot of the backlog takes its socket. *)
Definition create_session (now : Z) (req : OpenConnectionRequest2) addr self : Listener chan :=
  let version := negotiated_version now addr self in
  let self := self <| pending_versions := delete addr (pending_versions self) |>
                   <| version_map := <[addr := version]> (version_map self) |> in
  let '(socket, self) := new_socket addr (channel 128) (req2_mtu req) version self in
  self <| sessions := <[addr := mk_session (peer socket) (peer socket) (req2_guid req) (req2_mtu req)]>
            (sessions self) |>
       <| connection := permit_send socket (connection self) |>.

(** [sent] is whether [send_to] succeeds: the only reply whose failure changes the state. *)
Definition on_open_connection_request_2 (now : Z) (sent : bool) buf addr self : Flow * Listener chan :=
  let self := self <| dispatch_cache := forget addr (dispatch_cache self) |> in
  or_continue (read_packet_connection_open_request_2 buf) (fun req =>
    if negb ((61 <=? req2_mtu req) && (req2_mtu req <=? maximum_mtu self)) then (Continue [], self)
    else match sessions self !! addr with
    | Some session =>
        let reply := if session_guid session =? req2_guid req
                     then write_packet_connection_open_reply_2
                            (mk_OpenConnectionReply2 (guid self) addr (session_mtu session) 0)
                     else write_packet_already_connected (mk_AlreadyConnected (guid self)) in
        or_continue reply (fun reply => (Continue [(addr, reply)], self)) self
    | None =>
        match try_reserve (connection self) with
        | (Full, c) => (Continue [], self <| connection := c |>)
        | (Closed, c) => (Break, self <| connection := c |>)
        | (Sent, c) =>
            let self := self <| connection := c |> in
            let dropped := self <| connection := permit_drop c |> in
            let packet := mk_OpenConnectionReply2 (guid self) addr (req2_mtu req) 0x00 in
            or_continue (write_packet_connection_open_reply_2 packet) (fun reply =>
              if negb sent then (Continue [], dropped)
              else (Continue [(addr, reply)], create_session now req addr self)) dropped
        end
    end) self.

Definition on_disconnect addr self : Flow * Listener chan :=
  let self := self <| dispatch_cache := forget addr (dispatch_cache self) |> in
  let removed := sessions self !! addr in
  let self := self <| sessions := delete addr (sessions self) |> in
  match removed with
  | Some session =>
      (Continue [], close_peer (close session) self <| version_map := delete addr (version_map self) |>)
  | None => (Continue [], self)
  end.

(** [try_send] on the sender of a connection. *)
Definition send_to_peer (id : Z) buf self : TrySend * Listener chan :=
  match peers self !! id with
  | Some p =>
      let '(outcome, c) := try_send buf (inbox p) in
      (outcome, self <| peers := <[id := mk_peer (remote p) c (closed p)]> (peers self) |>)
  | None => (Closed, self)
  end.

(** The lookup of the last arm: the cache, or else the table, which refills the cache. *)
Definition deliver buf addr self : option TrySend * Listener chan :=
  match lookup (peers self) addr (dispatch_cache self) with
  | Some sender =>
      let '(outcome, self) := send_to_peer sender buf self in (Some outcome, self)
  | None =>
      let self := self <| dispatch_cache := forget addr (dispatch_cache self) |> in
      match sessions self !! addr with
      | Some session =>
          let '(outcome, self) := send_to_peer (sender session) buf self in
          (Some outcome, self <| dispatch_cache := remember addr session (dispatch_cache self) |>)
      | None => (None, self)
      end
  end.

Definition on_session_packet buf addr self : Flow * Listener chan :=
  match deliver buf addr self with
  | (Some Closed, self) =>
      (Continue [], self <| dispatch_cache := forget addr (dispatch_cache self) |>
                         <| sessions := delete addr (sessions self) |>
                         <| version_map := delete addr (version_map self) |>)
  | (_, self) => (Continue [], self)
  end.

(** A datagram [buf] from [addr]. *)
Definition on_datagram (timestamp now : Z) (sent : bool) buf addr self : Flow * Listener chan :=
  match buf with
  | [] => (Continue [], self)
  | id :: _ =>
      or_continue (PacketID.from id) (fun cur_status =>
        match cur_status with
        | PacketID.UnconnectedPing1 => on_ping timestamp buf addr self
        | PacketID.UnconnectedPing2 => on_ping timestamp buf addr self
        | PacketID.OpenConnectionRequest1 => on_open_connection_request_1 now buf addr self
        | PacketID.OpenConnectionRequest2 => on_open_connection_request_2 now sent buf addr self
        | PacketID.Disconnect => on_disconnect addr self
        | _ => on_session_packet buf addr self
        end) self
  end.

(** The tick of [cleanup]. *)
Definition on_cleanup (now : Z) self : Listener chan :=
  self <| pending_versions := filter (fun '(_, (_, time)) => (now - time) / 1000 < 60) (pending_versions self) |>
       <| dispatch_cache := prune (peers self) (dispatch_cache self) |>.

(** [motd_receiver.changed()]: an error when no sender is left. Otherwise the new value only
    counts as seen; pings read it where it is. *)
Definition on_motd_changed self : Flow * Listener chan := (if motd_held self then Continue [] else Break, self).

(** [close_notify.acquire()]: waits while the semaphore is open. *)
Definition on_close_notified self : Flow * Listener chan := (if close_notifier self then Break else Continue [], self).

(** ** The collecting task *)

(** An address from a finished connection: the session goes if it is the closed one. *)
Definition collect addr self : list (SocketAddr * list Z) * Listener chan :=
  match sessions self !! addr with
  | Some session =>
      if from_option closed false (peers self !! close session) then
        ([(addr, [PacketID.to_u8 PacketID.Disconnect])],
         self <| sessions := delete addr (sessions self) |>
              <| version_map := delete addr (version_map self) |>)
      else ([], self)
  | None => ([], self)
  end.

Abbreviation notice := [PacketID.to_u8 PacketID.Disconnect].

(** [while !sessions.is_empty()], over the addresses received until the channel ends. *)
Fixpoint collect_remaining (addresses : list SocketAddr) self : list (SocketAddr * list Z) * Listener chan :=
  match addresses with
  | [] => ([], self)
  | addr :: addresses =>
      if Nat.eqb (size (sessions self)) 0 then ([], self)
      else if bool_decide (is_Some (sessions self !! addr)) then
        let '(sent, self) := collect_remaining addresses
          (self <| sessions := delete addr (sessions self) |>
                <| version_map := delete addr (version_map self) |>) in
        ((addr, notice) :: sent, self)
      else collect_remaining addresses self
  end.

(** After the close notification: every session is closed and notified, the finished
    connections are collected, and the tables are cleared. *)
Definition collect_all (addresses : list SocketAddr) self : list (SocketAddr * list Z) * Listener chan :=
  let open := map_to_list (sessions self) in
  let sent := map (fun '(addr, _) => (addr, notice)) open in
  let self := foldr (fun '(_, session) self => close_peer (close session) self) self open in
  let '(sent', self) := collect_remaining addresses self in
  (sent ++ sent', self <| sessions := ∅ |> <| version_map := ∅ |>).

(** [collect_receiver.recv()] is [None]: the receiving task has ended, and with every
    connection the task that reports it. *)
Definition collect_channel_ended self : bool :=
  negb (receiving self) && bool_decide (map_Forall (fun _ p => closed p = true) (peers self)).

(** The task leaves its loop, with nothing more to receive. *)
Definition on_collect_channel_ended self : list (SocketAddr * list Z) * Listener chan :=
  if collect_channel_ended self then collect_all [] self else ([], self).

(** ** The methods of [RaknetListener] *)

(** [from_udp_socket]; [random] is the GUID drawn. *)
Definition from_udp_socket (random : Z) : Listener chan :=
  mk_listener [] [] true true random false false RAKNET_CLIENT_MTU false false (channel 128) ∅ false ∅ ∅
    SessionDispatchCache.default ∅ 0.

(** [bind_with_maximum_mtu], [bind] having succeeded. *)
Definition bind_with_maximum_mtu (random maximum : Z) : Result (Listener chan) :=
  if negb ((61 <=? maximum) && (maximum <=? RAKNET_MAX_MTU)) then Err PacketSizeExceedMTU
  else Ok (from_udp_socket random <| maximum_mtu := maximum |>).

(** [with_accept_backlog] on a listener that is not listening. *)
Definition with_accept_backlog (backlog : Z) self : Listener chan := self <| connection := channel backlog |>.

Definition with_idle_maintenance (enabled : bool) self : Listener chan := self <| idle_maintenance := enabled |>.

(** Decimal digits, as [format!] prints an unsigned integer. *)
Definition decimal (n : Z) : list Z := bytes_of_string (pretty (Z.to_N n)).

(** The field, and [send_replace] on the watch channel. *)
Definition set_full_motd (text : list Z) self : Listener chan := self <| motd := text |> <| announced := text |>.

(** ["MCPE;{};{};{};0;{};{};Bedrock level;{};1;{};"] *)
Definition set_server_motd (server_name : list Z) (max_connection : Z)
    (mc_protocol_version mc_version game_type : list Z) (port : Z) self : Listener chan :=
  let semicolon := bytes_of_string ";" in
  set_full_motd
    (bytes_of_string "MCPE;" ++ server_name ++ semicolon ++ mc_protocol_version ++ semicolon
       ++ mc_version ++ bytes_of_string ";0;" ++ decimal max_connection ++ semicolon
       ++ decimal (guid self) ++ bytes_of_string ";Bedrock level;" ++ game_type
       ++ bytes_of_string ";1;" ++ decimal port ++ semicolon) self.

(** [listen_single]; it spawns the two tasks. *)
Definition listen (local_port : Z) self : Listener chan :=
  if close_notifier self || listened self then self
  else if negb (socket_open self) then self
  else
    let self := match motd self with
                | [] => set_server_motd SERVER_NAME MAX_CONNECTION (bytes_of_string "486")
                          (bytes_of_string "1.18.11") (bytes_of_string "Survival") local_port self
                | _ => self
                end in
    self <| listened := true |> <| receiving := true |>.

(** [accept]: when a connection waits and the listener is closed, [select!] takes either
    branch; [None] is a call that keeps waiting. *)
Definition accept (take_close : bool) self : option (Result Accepted) * Listener chan :=
  if negb (listened self) then (Some (Err NotListen), self)
  else if close_notifier self && take_close then (Some (Err NotListen), self)
  else match try_recv (connection self) with
       | (Some socket, c) => (Some (Ok socket), self <| connection := c |>)
       | (None, c) => ((if close_notifier self then Some (Err NotListen) else None), self <| connection := c |>)
       end.

(** [close_single]: the notification, and what is left once the collecting task has
    received [addresses] and ended, and the receiving task has ended. *)
Definition close_listener (addresses : list SocketAddr) self : list (SocketAddr * list Z) * Listener chan :=
  if negb (socket_open self) then ([], self)
  else
    let self := self <| close_notifier := true |> in
    let '(sent, self) := if listened self then collect_all addresses self else ([], self) in
    (sent, self <| receiving := false |> <| socket_open := false |> <| listened := false |>).

(** [Drop], and the fields dropped after it: the ends of the channels that the listener held. *)
Definition drop_listener self : Listener chan :=
  self <| close_notifier := true |> <| motd_held := false |> <| connection := drop_receiver (connection self) |>.

Definition get_peer_raknet_version (shards : list (Listener chan)) addr self : Z :=
  match version_map self !! addr with
  | Some version => version
  | None =>
      (fix search shards :=
         match shards with
         | [] => RAKNET_PROTOCOL_VERSION
         | shard :: shards =>
             match version_map shard !! addr with Some version => version | None => search shards end
         end) shards
  end.
End Operations.

(** ** Histories

    The two tasks of the listener, the application, which keeps the listener and has not
    closed it, and the connections take turns in any order. [Datagram], [ReceiveFails],
    [Cleanup], [MotdChanged] and [CloseNotified] are the arms of the receiving task, [Collect]
    and [CollectorEnds] those of the collecting task. [PeerCloses] is a connection's own
    [close], drop or timeout; [PeerReceives] and [PeerEnds] are its receiving task taking a
    datagram and ending. *)

Inductive event : Type :=
  | Datagram (timestamp now : Z) (sent : bool) (buf : list Z) (addr : SocketAddr)
  | ReceiveFails
  | Cleanup (now : Z)
  | MotdChanged
  | CloseNotified
  | Collect (addr : SocketAddr)
  | CollectorEnds
  | SetMotd (text : list Z)
  | Accept (take_close : bool)
  | PeerCloses (id : Z)
  | PeerReceives (id : Z)
  | PeerEnds (id : Z).

#[export] Instance event_eq_dec : EqDecision event.
Proof. solve_decision. Defined.

Section Histories.
Context `{Mpsc chan}.
Implicit Types (self : Listener chan) (addr : SocketAddr) (buf : list Z) (e : event).

Definition change_inbox (f : chan (list Z) -> chan (list Z)) (id : Z) self : Listener chan :=
  self <| peers := alter (fun p => mk_peer (remote p) (f (inbox p)) (closed p)) id (peers self) |>.

(** What a turn sends, and the socket it accepts. *)
Inductive output : Type :=
  | Sends (sent : list (SocketAddr * list Z))
  | Accepts (socket : Accepted)
  | Stops.

(** A turn of the receiving task: an arm of its [select!]. A task that has left the loop
    takes none. *)
Definition receive (arm : Listener chan -> Flow * Listener chan) self : output * Listener chan :=
  if receiving self then
    match arm self with
    | (Continue sent, self) => (Sends sent, self)
    | (Break, self) => (Stops, self <| receiving := false |>)
    end
  else (Sends [], self).

Definition step e self : output * Listener chan :=
  match e with
  | Datagram timestamp now sent buf addr => receive (on_datagram timestamp now sent buf addr) self
  | ReceiveFails => receive (fun self => (Break, self)) self
  | Cleanup now => receive (fun self => (Continue [], on_cleanup now self)) self
  | MotdChanged => receive on_motd_changed self
  | CloseNotified => receive on_close_notified self
  | Collect addr => let '(sent, self) := collect addr self in (Sends sent, self)
  | CollectorEnds => let '(sent, self) := on_collect_channel_ended self in (Sends sent, self)
  | SetMotd text => (Sends [], set_full_motd text self)
  | Accept take_close =>
      match accept take_close self with
      | (Some (Ok socket), self) => (Accepts socket, self)
      | (_, self) => (Sends [], self)
      end
  | PeerCloses id => (Sends [], close_peer id self)
  | PeerReceives id => (Sends [], change_inbox (fun c => (try_recv c).2) id self)
  | PeerEnds id => (Sends [], change_inbox drop_receiver id self)
  end.

Fixpoint run (events : list event) self : list output * Listener chan :=
  match events with
  | [] => ([], self)
  | e :: events =>
      let '(out, self) := step e self in
      let '(outs, self) := run events self in
      (out :: outs, self)
  end.

(** A listener as the constructors leave it, listening. *)
Definition started (random maximum backlog : Z) (idle : bool) (local_port : Z) : Listener chan :=
  listen local_port (with_idle_maintenance idle (with_accept_backlog backlog
    (from_udp_socket random <| maximum_mtu := maximum |>))).
End Histories.
