(* ===== verification/ServerInv.v ===== *)
(** * The listener is correct

    The invariant of [Server]: the dispatch cache, the session table, the store of
    connections and the backlog agree in every state the listener reaches. From it: the
    cache is transparent, sessions are what the packets sent promise, and every datagram
    reaches the connection it belongs to. *)

From stdpp Require Import countable.
From S2P Require Import Prelude Errors Datatype Packet PacketCodec Runtime Server.
Import SessionDispatchCache.

Section Listener.
Context `{Mpsc chan}.
Implicit Types (self : Listener chan) (addr : SocketAddr) (buf : list Z) (e : event).

(** ** The invariant *)

(** An entry of the cache that is still open is the session of its address. *)
Definition coherent self (entry : CachedSession) : Prop :=
  is_open (peers self) (cached_sender entry) (cached_close entry) = true ->
  exists s, sessions self !! address entry = Some s /\
    sender s = cached_sender entry /\ close s = cached_close entry.

(** A session's handles are those of one connection, to its address. *)
Definition session_wf self addr (s : SessionSender) : Prop :=
  sender s = close s /\ 61 <= session_mtu s <= maximum_mtu self /\
  exists p, peers self !! sender s = Some p /\ remote p = addr.

Record listener_inv (backlog : Z) self : Prop := {
  li_length : length (dispatch_cache self) = Z.to_nat LIMIT;
  li_position : forall i entry, dispatch_cache self !! i = Some (Some entry) -> index (address entry) = i;
  li_coherent : forall i entry, dispatch_cache self !! i = Some (Some entry) -> coherent self entry;
  li_handles : forall i entry, dispatch_cache self !! i = Some (Some entry) ->
    is_Some (peers self !! cached_sender entry) /\ is_Some (peers self !! cached_close entry);
  li_sessions : forall addr s, sessions self !! addr = Some s -> session_wf self addr s;
  li_fresh : forall id, is_Some (peers self !! id) -> id < next_peer self;
  li_versions : dom (version_map self) = dom (sessions self);
  li_pending : Z.of_nat (size (pending_versions self)) <= 4096;
  li_open : receiver_closed (view (connection self)) = false /\ motd_held self = true;
  li_reserved : reserved (view (connection self)) = 0;
  li_capacity : capacity (view (connection self)) = backlog;
  li_backlog : zlen (queued (view (connection self))) <= backlog;
}.

Lemma index_bound (addr : SocketAddr) : (index addr < Z.to_nat LIMIT)%nat.
Proof.
  unfold index, slot. change (LIMIT - 1) with (Z.ones 12). rewrite Z.land_ones by lia.
  match goal with |- context [?z `mod` 2 ^ 12] => pose proof (Z.mod_pos_bound z (2 ^ 12) ltac:(lia)) end.
  unfold LIMIT. lia.
Qed.

(** *** The cache *)

Lemma forget_lookup addr cache i entry :
  (forall j entry, cache !! j = Some (Some entry) -> index (address entry) = j) ->
  forget addr cache !! i = Some (Some entry) ->
  cache !! i = Some (Some entry) /\ address entry <> addr.
Proof.
  intros Hpos. unfold forget. destruct (cache !! index addr) as [[e|]|] eqn:E.
  - case_bool_decide as Ha.
    + intros [(_ & [=] & _)|[Hne Hi]]%list_lookup_insert_Some. split; [done|].
      intros Hc. apply Hne. rewrite <- Hc. by apply Hpos.
    + intros Hi. split; [done|]. intros Hc. apply Ha.
      pose proof (Hpos _ _ Hi) as Hp. rewrite Hc in Hp. subst i. congruence.
  - intros Hi. split; [done|]. intros Hc. pose proof (Hpos _ _ Hi) as Hp. rewrite Hc in Hp. subst i. congruence.
  - intros Hi. split; [done|]. intros Hc. pose proof (Hpos _ _ Hi) as Hp. rewrite Hc in Hp. subst i. congruence.
Qed.

Lemma forget_length addr cache : length (forget addr cache) = length cache.
Proof. unfold forget. repeat case_match; try done. apply length_insert. Qed.

Lemma forget_inv backlog addr self :
  listener_inv backlog self ->
  listener_inv backlog (self <| dispatch_cache := forget addr (dispatch_cache self) |>).
Proof.
  intros [L P C Ha S F V N O R K B]. constructor; simpl; try done.
  - by rewrite forget_length.
  - intros i e [Hi _]%forget_lookup; eauto.
  - intros i e [Hi _]%forget_lookup; [|done]. exact (C i e Hi).
  - intros i e [Hi _]%forget_lookup; eauto.
Qed.

(** The state after [forget addr] has no entry of that address. *)
Lemma forget_absent backlog addr self i entry :
  listener_inv backlog self ->
  forget addr (dispatch_cache self) !! i = Some (Some entry) -> address entry <> addr.
Proof. intros Hinv [_ Hne]%forget_lookup; [done|]. apply (li_position _ _ Hinv). Qed.

Lemma remember_inv backlog addr s self :
  listener_inv backlog self -> sessions self !! addr = Some s ->
  listener_inv backlog (self <| dispatch_cache := remember addr s (dispatch_cache self) |>).
Proof.
  intros [L P C Ha S F V N O R K B] Hs. unfold remember. constructor; simpl; try done.
  - by rewrite length_insert.
  - intros i e [(<- & [= <-] & _)|[_ Hi]]%list_lookup_insert_Some; [done|eauto].
  - intros i e [(<- & [= <-] & _)|[_ Hi]]%list_lookup_insert_Some; [|exact (C i e Hi)].
    intros _. simpl. eauto.
  - intros i e [(<- & [= <-] & _)|[_ Hi]]%list_lookup_insert_Some; [|eauto]. simpl.
    destruct (S _ _ Hs) as (Heq & _ & p & Hp & _). rewrite <- Heq, Hp. eauto.
Qed.

Lemma prune_inv backlog self :
  listener_inv backlog self ->
  listener_inv backlog (self <| dispatch_cache := prune (peers self) (dispatch_cache self) |>).
Proof.
  intros [L P C Ha S F V N O R K B].
  assert (forall i (e : CachedSession), prune (peers self) (dispatch_cache self) !! i = Some (Some e) ->
    dispatch_cache self !! i = Some (Some e)) as Hpr.
  { intros i e. unfold prune.
    rewrite list_lookup_fmap. destruct (dispatch_cache self !! i) as [[e'|]|]; simpl; try done.
    case_if; [done|discriminate]. }
  constructor; simpl; try done; eauto.
  unfold prune. by rewrite length_map.
Qed.

(** *** The connections *)

(** Connections only close: what a turn may do to the store. *)
Definition closing (m m' : gmap Z (Peer chan)) : Prop :=
  forall id, match m !! id, m' !! id with
  | Some p, Some p' => remote p' = remote p /\ (closed p = true -> closed p' = true) /\
      (is_closed (inbox p) = true -> is_closed (inbox p') = true)
  | None, None => True
  | _, _ => False
  end.

Lemma closing_refl (m : gmap Z (Peer chan)) : closing m m.
Proof. intros id. destruct (m !! id); auto. Qed.

Lemma closing_trans m1 m2 m3 : closing m1 m2 -> closing m2 m3 -> closing m1 m3.
Proof.
  intros H1 H2 id. specialize (H1 id). specialize (H2 id).
  destruct (m1 !! id), (m2 !! id), (m3 !! id); try done. destruct H1 as (E1 & ? & ?), H2 as (E2 & ? & ?). split; [congruence|auto].
Qed.

Lemma closing_some m m' id : closing m m' -> is_Some (m !! id) <-> is_Some (m' !! id).
Proof. intros Hc. specialize (Hc id). repeat case_match; try done; split; eauto. Qed.

Lemma closing_open m m' s c : closing m m' -> is_open m' s c = true -> is_open m s c = true.
Proof.
  intros Hc. unfold is_open. pose proof (Hc c) as H1. pose proof (Hc s) as H2.
  destruct (m' !! c) as [pc'|], (m !! c) as [pc|], (m' !! s) as [ps'|], (m !! s) as [ps|]; try done.
  intros Ho. b2p. apply andb_true_iff. rewrite !negb_true_iff. destruct H1 as (_ & H1 & _), H2 as (_ & _ & H2).
  split; apply not_true_iff_false; intros Hx; [rewrite H1 in *|rewrite H2 in *]; congruence.
Qed.

Lemma closing_alter f id m :
  (forall p, remote (f p) = remote p /\ (closed p = true -> closed (f p) = true) /\
     (is_closed (inbox p) = true -> is_closed (inbox (f p)) = true)) ->
  closing m (alter f id m).
Proof.
  intros Hf j. destruct (decide (id = j)) as [->|]; [rewrite lookup_alter_eq|rewrite lookup_alter_ne by done].
  - destruct (m !! j); simpl; auto.
  - destruct (m !! j); auto.
Qed.

Lemma closing_inv backlog m self :
  listener_inv backlog self -> closing (peers self) m -> listener_inv backlog (self <| peers := m |>).
Proof.
  intros [L P C Ha S F V N O R K B] Hm. constructor; simpl; try done.
  - intros i e Hi Ho. exact (C i e Hi (closing_open _ _ _ _ Hm Ho)).
  - intros i e Hi. by rewrite <- !(closing_some _ _ _ Hm); eauto.
  - intros addr s Hs. destruct (S _ _ Hs) as (He & Hmtu & p & Hp & Hr). split; [done|]. split; [done|].
    simpl. specialize (Hm (sender s)). rewrite Hp in Hm. destruct (m !! sender s) as [p'|]; [|done].
    exists p'. split; [done|]. destruct Hm as [-> _]. done.
  - intros id Hid. apply F. by apply (closing_some _ _ _ Hm).
Qed.

Lemma send_to_peer_closing id buf self :
  closing (peers self) (peers (send_to_peer id buf self).2) /\
  (send_to_peer id buf self).2 = self <| peers := peers (send_to_peer id buf self).2 |>.
Proof.
  unfold send_to_peer. destruct (peers self !! id) as [p|] eqn:E.
  - destruct (try_send buf (inbox p)) as [o c] eqn:Et. split; [|done]. simpl.
    intros j. destruct (decide (id = j)) as [->|].
    + rewrite E, lookup_insert_eq. simpl. split; [done|]. split; [done|].
      replace c with (try_send buf (inbox p)).2 by (by rewrite Et). by rewrite is_closed_try_send.
    + rewrite lookup_insert_ne by done. destruct (peers self !! j); auto.
  - split; [|by destruct self]. intros j. simpl. destruct (peers self !! j); auto.
Qed.

(** *** The tables *)

(** A session leaves the tables once the cache has no open entry of its address. *)
Lemma remove_inv backlog addr self :
  listener_inv backlog self ->
  (forall i entry, dispatch_cache self !! i = Some (Some entry) -> address entry = addr ->
     is_open (peers self) (cached_sender entry) (cached_close entry) = false) ->
  listener_inv backlog (self <| sessions := delete addr (sessions self) |>
                             <| version_map := delete addr (version_map self) |>).
Proof.
  intros [L P C Ha S F V N O R K B] Hcl. constructor; simpl; try done.
  - intros i e Hi Ho. simpl in Ho |- *. destruct (decide (address e = addr)) as [Heq|Hne].
    + rewrite (Hcl i e Hi Heq) in Ho. discriminate.
    + rewrite lookup_delete_ne by done. exact (C i e Hi Ho).
  - intros a s [_ Hs]%lookup_delete_Some. exact (S a s Hs).
  - by rewrite !dom_delete_L, V.
Qed.

Lemma session_absent_versions backlog addr self :
  listener_inv backlog self -> sessions self !! addr = None -> version_map self !! addr = None.
Proof.
  intros Hinv. rewrite <- !not_elem_of_dom. by rewrite (li_versions _ _ Hinv).
Qed.

Lemma connection_inv backlog c self :
  listener_inv backlog self -> view c = view (connection self) ->
  listener_inv backlog (self <| connection := c |>).
Proof.
  intros [L P C Ha S F V N O R K B] Hv. constructor; simpl; rewrite ?Hv; done.
Qed.

Lemma pending_inv backlog m self :
  listener_inv backlog self -> Z.of_nat (size m) <= 4096 ->
  listener_inv backlog (self <| pending_versions := m |>).
Proof. intros [L P C Ha S F V N O R K B] Hm. by constructor. Qed.

(** Creating a session with the permit of the backlog in hand. *)
Lemma create_session_inv backlog now req addr self :
  listener_inv backlog self -> sessions self !! addr = None ->
  61 <= req2_mtu req <= maximum_mtu self -> (try_reserve (connection self)).1 = Sent ->
  (forall i entry, dispatch_cache self !! i = Some (Some entry) -> address entry <> addr) ->
  listener_inv backlog
    (create_session now req addr (self <| connection := (try_reserve (connection self)).2 |>)).
Proof.
  intros [L P C Ha S F V N O R K B] Hnone Hmtu Hres Habs.
  assert (peers self !! next_peer self = None) as Hfresh.
  { apply eq_None_not_Some. intros Hs%F. lia. }
  assert (forall id, is_Some (peers self !! id) -> id <> next_peer self) as Hlt.
  { intros id Hid%F. lia. }
  destruct (reserve_send (mk_accepted (next_peer self) addr (req2_mtu req)
    (negotiated_version now addr self) (idle_maintenance self)) _ Hres) as (Hv & Hfull & Hop).
  unfold create_session, new_socket. cbn zeta.
  change (negotiated_version now addr (self <| connection := _ |>)) with (negotiated_version now addr self).
  constructor; simpl; try done.
  - intros i e Hi Ho. simpl in Ho |- *. rewrite lookup_insert_ne by (apply not_eq_sym; eauto).
    apply (C i e Hi). unfold is_open in Ho |- *. destruct (Ha i e Hi) as [H1%Hlt H2%Hlt].
    by rewrite !lookup_insert_ne in Ho by done.
  - intros i e Hi. destruct (Ha i e Hi) as [H1 H2].
    rewrite !lookup_insert_ne by (apply not_eq_sym; by apply Hlt). done.
  - intros a s [(<- & <-)|[Hne Hs]]%lookup_insert_Some.
    + split; [done|]. split; [done|]. simpl. rewrite lookup_insert_eq. eauto.
    + destruct (S _ _ Hs) as (He & Hm & p & Hp & Hr). split; [done|]. split; [done|].
      exists p. simpl. rewrite lookup_insert_ne; [done|]. apply not_eq_sym, Hlt. eauto.
  - intros id. destruct (decide (id = next_peer self)) as [->|]; [lia|].
    rewrite lookup_insert_ne by done. intros Hid%F. lia.
  - by rewrite !dom_insert_L, V.
  - etrans; [|exact N]. apply inj_le, map_subseteq_size, delete_subseteq.
  - by rewrite Hv.
  - by rewrite Hv.
  - by rewrite Hv.
  - rewrite Hv. simpl. unfold Channel.full in Hfull. rewrite length_app. simpl. blia.
Qed.

(** *** Every turn keeps the invariant *)

Lemma or_continue_elim {A} (P : Flow * Listener chan -> Prop) (r : Result A) k self :
  P (Continue [], self) -> (forall a, r = Ok a -> P (k a)) -> P (or_continue r k self).
Proof. intros H1 H2. unfold or_continue. destruct r; auto. Qed.

Definition keeps backlog (out : Flow * Listener chan) : Prop :=
  out.1 <> Break /\ listener_inv backlog out.2.

Lemma on_ping_keeps backlog timestamp buf addr self :
  listener_inv backlog self -> keeps backlog (on_ping timestamp buf addr self).
Proof. intros Hi. unfold on_ping. by do 2 (apply or_continue_elim; [done|intros ? _]). Qed.

Lemma on_request_1_keeps backlog now buf addr self :
  listener_inv backlog self -> keeps backlog (on_open_connection_request_1 now buf addr self).
Proof.
  intros Hi. unfold on_open_connection_request_1. apply or_continue_elim; [done|intros req _].
  case_if; [by apply or_continue_elim|]. case_if; [done|].
  assert (listener_inv backlog (self <| pending_versions :=
    <[addr := (req1_protocol_version req, now)]> (pending_versions self) |>)) as Hi'.
  { apply pending_inv; [done|]. pose proof (li_pending _ _ Hi) as Hp.
    rewrite map_size_insert. destruct (pending_versions self !! addr) eqn:Ea; [simpl; lia|].
    rewrite bool_decide_eq_false_2 in * by (by intros [? [=]]). simpl in *. blia. }
  by apply or_continue_elim.
Qed.

Lemma on_request_2_keeps backlog now sent buf addr self :
  listener_inv backlog self -> keeps backlog (on_open_connection_request_2 now sent buf addr self).
Proof.
  intros Hi0. unfold on_open_connection_request_2. pose proof (forget_inv _ addr _ Hi0) as Hi.
  assert (forall i entry, forget addr (dispatch_cache self) !! i = Some (Some entry) -> address entry <> addr)
    as Habs by (intros ??; by apply (forget_absent backlog)).
  set (s1 := self <| dispatch_cache := _ |>) in *. apply or_continue_elim; [done|intros req _].
  case_if; [done|]. b2p. destruct (sessions s1 !! addr) as [s|] eqn:Es; [by apply or_continue_elim|].
  destruct (try_reserve (connection s1)) as [o c] eqn:Er.
  assert (o <> Closed) as Ho.
  { intros ->. pose proof (try_reserve_result (connection s1)) as Hr. rewrite Er in Hr. cbn [fst] in Hr.
    unfold Channel.try_reserve in Hr. rewrite (proj1 (li_open _ _ Hi)) in Hr. case_if_in Hr; discriminate. }
  destruct o; [| |done].
  - assert ((try_reserve (connection s1)).1 = Sent) as Hs by (by rewrite Er).
    assert (listener_inv backlog (s1 <| connection := permit_drop c |>)) as Hd.
    { apply connection_inv; [done|]. rewrite <- (reserve_drop _ Hs). by rewrite Er. }
    apply or_continue_elim; [done|intros reply _]. case_if; [done|]. split; [done|].
    pose proof (create_session_inv backlog now req addr s1 Hi Es ltac:(lia) Hs Habs) as Hc.
    by rewrite Er in Hc.
  - split; [done|]. apply connection_inv; [done|].
    pose proof (reserve_refused (connection s1)) as Hr. rewrite Er in Hr. by apply Hr.
Qed.

Lemma close_peer_closing id self : closing (peers self) (peers (close_peer id self)).
Proof. apply closing_alter. intros p. simpl. auto. Qed.

Lemma close_peer_inv backlog id self : listener_inv backlog self -> listener_inv backlog (close_peer id self).
Proof. intros Hi. apply (closing_inv _ _ _ Hi), close_peer_closing. Qed.

Lemma delete_absent backlog addr self :
  listener_inv backlog self -> sessions self !! addr = None ->
  listener_inv backlog (self <| sessions := delete addr (sessions self) |>).
Proof. intros Hi Hn. rewrite delete_id by done. by destruct self. Qed.

Lemma on_disconnect_keeps backlog addr self :
  listener_inv backlog self -> keeps backlog (on_disconnect addr self).
Proof.
  intros Hi0. unfold on_disconnect. pose proof (forget_inv _ addr _ Hi0) as Hi.
  assert (forall i entry, forget addr (dispatch_cache self) !! i = Some (Some entry) -> address entry <> addr)
    as Habs by (intros ??; by apply (forget_absent backlog)).
  set (s1 := self <| dispatch_cache := _ |>) in *.
  destruct (sessions s1 !! addr) as [s|] eqn:Es; (split; [done|]).
  - refine (close_peer_inv backlog (close s) _ (remove_inv backlog addr s1 Hi _)).
    intros i e He Ha. by destruct (Habs i e He).
  - by apply delete_absent.
Qed.

Lemma send_to_peer_inv backlog id buf self :
  listener_inv backlog self -> listener_inv backlog (send_to_peer id buf self).2.
Proof.
  intros Hi. destruct (send_to_peer_closing id buf self) as [Hc ->]. by apply closing_inv.
Qed.

Lemma send_to_peer_sessions id buf self : sessions (send_to_peer id buf self).2 = sessions self.
Proof. destruct (send_to_peer_closing id buf self) as [_ ->]. done. Qed.

Lemma deliver_inv backlog buf addr self :
  listener_inv backlog self -> listener_inv backlog (deliver buf addr self).2.
Proof.
  intros Hi. unfold deliver. destruct (lookup _ _ _) as [id|].
  { pose proof (send_to_peer_inv backlog id buf self Hi) as Hs. by destruct (send_to_peer id buf self). }
  pose proof (forget_inv _ addr _ Hi) as Hf. set (s1 := self <| dispatch_cache := _ |>) in *.
  destruct (sessions s1 !! addr) as [s|] eqn:Es; [|done].
  pose proof (send_to_peer_inv backlog (sender s) buf s1 Hf) as Hs.
  pose proof (send_to_peer_sessions (sender s) buf s1) as Ess.
  destruct (send_to_peer (sender s) buf s1) as [o s2]. apply remember_inv; [done|]. simpl in Ess. by rewrite Ess.
Qed.

Lemma on_session_packet_keeps backlog buf addr self :
  listener_inv backlog self -> keeps backlog (on_session_packet buf addr self).
Proof.
  intros Hi. unfold on_session_packet. pose proof (deliver_inv backlog buf addr self Hi) as Hd.
  destruct (deliver buf addr self) as [[[]|] s1]; try done. split; [done|]. simpl in Hd |- *.
  refine (remove_inv backlog addr _ (forget_inv _ addr _ Hd) _).
  intros i e He Ha. by destruct (forget_absent backlog addr s1 i e).
Qed.

Lemma on_datagram_keeps backlog timestamp now sent buf addr self :
  listener_inv backlog self -> keeps backlog (on_datagram timestamp now sent buf addr self).
Proof.
  intros Hi. unfold on_datagram. destruct buf as [|id buf]; [done|].
  apply or_continue_elim; [done|intros status _].
  destruct status; auto using on_ping_keeps, on_request_1_keeps, on_request_2_keeps,
    on_disconnect_keeps, on_session_packet_keeps.
Qed.

Lemma collect_inv backlog addr self :
  listener_inv backlog self -> listener_inv backlog (collect addr self).2.
Proof.
  intros Hi. unfold collect. destruct (sessions self !! addr) as [s|] eqn:Es; [|done].
  case_if; [|done]. apply remove_inv; [done|]. intros i e He <-.
  destruct (is_open _ _ _) eqn:Ho; [|done]. destruct (li_coherent _ _ Hi i e He Ho) as (s' & Hs' & _ & Hcl).
  rewrite Es in Hs'. injection Hs' as <-. unfold is_open in Ho. rewrite <- Hcl in Ho.
  destruct (peers self !! close s) as [p|] eqn:Ep; [|done]. simpl in *. case_match; [|done].
  replace (closed p) with true in Ho. discriminate.
Qed.

Lemma change_inbox_inv backlog f id self :
  (forall c, is_closed c = true -> is_closed (f c) = true) ->
  listener_inv backlog self -> listener_inv backlog (change_inbox f id self).
Proof.
  intros Hf Hi. apply (closing_inv _ _ _ Hi), closing_alter. intros p. simpl. auto.
Qed.

Lemma accept_inv backlog take_close self :
  listener_inv backlog self -> listener_inv backlog (accept take_close self).2.
Proof.
  intros Hi. unfold accept. case_if; [done|]. case_if; [done|].
  pose proof (try_recv_state (connection self)) as Hv.
  destruct (try_recv (connection self)) as [o c]. simpl in Hv.
  assert (listener_inv backlog (self <| connection := c |>)) as Hc; [|by destruct o].
  destruct Hi as [L P C Ha S F V N O R K B]. unfold Channel.try_recv in Hv.
  constructor; simpl; rewrite ?Hv; try done; destruct (queued (view (connection self))) as [|x l] eqn:Eq;
    simpl; try done; [rewrite Eq; simpl; lia|simpl in B; lia].
Qed.

Lemma on_cleanup_inv backlog now self : listener_inv backlog self -> listener_inv backlog (on_cleanup now self).
Proof.
  intros Hi. unfold on_cleanup. refine (prune_inv backlog _ (pending_inv backlog _ self Hi _)).
  pose proof (li_pending _ _ Hi). etrans; [|done]. apply inj_le, map_subseteq_size, map_filter_subseteq.
Qed.

(** A turn of the receiving task, by whether it still runs and goes on. *)
Lemma receive_elim (P : output * Listener chan -> Prop) arm self :
  P (Sends [], self) ->
  (forall sent self', receiving self = true -> arm self = (Continue sent, self') -> P (Sends sent, self')) ->
  (forall self', receiving self = true -> arm self = (Break, self') -> P (Stops, self' <| receiving := false |>)) ->
  P (receive arm self).
Proof. intros H1 H2 H3. unfold receive. destruct (receiving self); [|done]. destruct (arm self) as [[]] eqn:E; auto. Qed.

Lemma receiving_inv backlog b self : listener_inv backlog self -> listener_inv backlog (self <| receiving := b |>).
Proof. by intros []. Qed.

Lemma collect_channel_ended_closed self :
  collect_channel_ended self = true -> forall id p, peers self !! id = Some p -> closed p = true.
Proof. unfold collect_channel_ended. intros [_ Hall%bool_decide_eq_true_1]%andb_true_iff id p Hp. exact (Hall id p Hp). Qed.

Lemma on_collect_channel_ended_effect self :
  next_peer (on_collect_channel_ended self).2 = next_peer self /\
  connection (on_collect_channel_ended self).2 = connection self /\
  closing (peers self) (peers (on_collect_channel_ended self).2).
Proof.
  unfold on_collect_channel_ended. case_if; [|split_and!; try done; apply closing_refl].
  unfold collect_all. simpl. induction (map_to_list (sessions self)) as [|[a s] open IH]; simpl;
    [split_and!; try done; apply closing_refl|].
  destruct IH as (E1 & E2 & E3). split_and!; [done..|]. eapply closing_trans; [exact E3|apply close_peer_closing].
Qed.

Lemma on_collect_channel_ended_inv backlog self :
  listener_inv backlog self -> listener_inv backlog (on_collect_channel_ended self).2.
Proof.
  intros Hi. destruct (on_collect_channel_ended_effect self) as (En & Ec & Hcl).
  unfold on_collect_channel_ended in *. destruct (collect_channel_ended self) eqn:E; [|done].
  pose proof (collect_channel_ended_closed self E) as Hall. apply (closing_inv _ _ _ Hi) in Hcl as [L P C Ha S F V N O R K B].
  unfold collect_all in *. simpl in *.
  set (all := foldr (fun '(_, session) self => close_peer (close session) self) self (map_to_list (sessions self))) in *.
  assert (all = self <| peers := peers all |>) as Eall.
  { unfold all. clear. induction (map_to_list _) as [|[a s] open IH]; [by destruct self|]. simpl. rewrite IH. done. }
  rewrite Eall. constructor; simpl; try done. intros i e Hi' Ho. simpl in Ho.
  assert (is_open (peers self) (cached_sender e) (cached_close e) = true) as Ho'.
  { eapply closing_open; [|exact Ho]. unfold all. clear. induction (map_to_list _) as [|[a s] open IH]; [apply closing_refl|].
    eapply closing_trans; [exact IH|apply close_peer_closing]. }
  unfold is_open in Ho'. destruct (peers self !! cached_close e) as [p|] eqn:Ep; [|done].
  rewrite (Hall _ _ Ep) in Ho'. by destruct (peers self !! cached_sender e).
Qed.

Lemma listener_step_inv backlog e self :
  listener_inv backlog self ->
  ((step e self).1 = Stops -> e = ReceiveFails \/ e = CloseNotified /\ close_notifier self = true) /\
  listener_inv backlog (step e self).2.
Proof.
  intros Hi. destruct e as [timestamp now sent buf addr| |now| | |addr| |text|take_close|id|id|id]; cbn [step].
  - destruct (on_datagram_keeps backlog timestamp now sent buf addr self Hi) as [Hb Hk].
    apply receive_elim; [done|intros ? ? _ E|intros ? _ E]; rewrite E in *; [by split|done].
  - apply receive_elim; [done|done|]. intros _ _ [= <-]. split; [auto|by apply receiving_inv].
  - apply receive_elim; [done|intros _ _ _ [= <- <-]|done]. split; [done|by apply on_cleanup_inv].
  - apply receive_elim; [done|intros ? ? _ E|intros ? _ E]; unfold on_motd_changed in E;
      rewrite (proj2 (li_open _ _ Hi)) in E; [injection E as <- <-; by split|done].
  - apply receive_elim; [done|intros ? ? _ E|intros ? _ E]; unfold on_close_notified in E;
      destruct (close_notifier self); [done|injection E as <- <-; by split| |done].
    injection E as <-. split; [by right|by apply receiving_inv].
  - pose proof (collect_inv backlog addr self Hi) as Hc. by destruct (collect addr self).
  - pose proof (on_collect_channel_ended_inv backlog self Hi) as Hc. by destruct (on_collect_channel_ended self).
  - split; [done|]. by destruct Hi.
  - pose proof (accept_inv backlog take_close self Hi) as Ha. by destruct (accept take_close self) as [[[]|]].
  - split; [done|]. by apply close_peer_inv.
  - split; [done|]. apply change_inbox_inv; [|done]. intros c. by rewrite is_closed_try_recv.
  - split; [done|]. apply change_inbox_inv; [|done]. intros c _. apply is_closed_drop.
Qed.

Lemma listener_run_app events1 events2 self :
  run (events1 ++ events2) self =
  ((run events1 self).1 ++ (run events2 (run events1 self).2).1, (run events2 (run events1 self).2).2).
Proof.
  revert self. induction events1 as [|e events1 IH]; intros self; simpl.
  { by destruct (run events2 self). }
  destruct (step e self) as [o s1]. rewrite IH. by destruct (run events1 s1).
Qed.

Lemma listener_run_inv backlog events self :
  listener_inv backlog self -> listener_inv backlog (run events self).2.
Proof.
  revert self. induction events as [|e events IH]; intros self Hi; simpl; [done|].
  destruct (listener_step_inv backlog e self Hi) as [_ Hi']. destruct (step e self) as [o s1].
  specialize (IH s1 Hi'). by destruct (run events s1).
Qed.

Lemma listener_started_inv random maximum backlog idle local_port :
  0 <= backlog -> listener_inv backlog (started random maximum backlog idle local_port).
Proof.
  intros Hb. unfold started. cbn -[channel SessionDispatchCache.default].
  constructor; cbn -[channel SessionDispatchCache.default]; rewrite ?channel_view; try done.
  - intros i e [[=] _]%lookup_replicate.
  - intros i e [[=] _]%lookup_replicate.
  - intros id [p Hp]. by rewrite lookup_empty in Hp.
Qed.

(** The states a listener reaches. *)
Lemma listener_reached_inv random maximum backlog idle local_port events :
  0 <= backlog -> listener_inv backlog (run events (started random maximum backlog idle local_port)).2.
Proof. intros. by apply listener_run_inv, listener_started_inv. Qed.

(** ** The cache is transparent

    The reference is a listener that empties its cache before every turn, so that every
    datagram is dispatched through the session table. *)

Definition uncached self : Listener chan := self <| dispatch_cache := SessionDispatchCache.default |>.

Fixpoint run_uncached (events : list event) self : list output * Listener chan :=
  match events with
  | [] => ([], self)
  | e :: events =>
      let '(out, self) := step e (uncached self) in
      let '(outs, self) := run_uncached events self in
      (out :: outs, self)
  end.

(** Equal up to the cache, with equal outputs. *)
Definition same {A} (x y : A * Listener chan) : Prop := x.1 = y.1 /\ uncached x.2 = uncached y.2.

Lemma uncached_lookup self addr : lookup (peers self) addr (dispatch_cache (uncached self)) = None.
Proof.
  unfold lookup. simpl. destruct (default !! index addr) as [[e|]|] eqn:E; try done.
  unfold default in E. by apply lookup_replicate in E as [[=] _].
Qed.

Lemma send_to_peer_uncached id buf self :
  send_to_peer id buf (uncached self) =
  ((send_to_peer id buf self).1, uncached (send_to_peer id buf self).2).
Proof. unfold send_to_peer. simpl. repeat case_match; done. Qed.

Lemma send_to_peer_same id buf s t :
  uncached s = uncached t -> same (send_to_peer id buf s) (send_to_peer id buf t).
Proof.
  intros E. pose proof (send_to_peer_uncached id buf s) as Hs.
  pose proof (send_to_peer_uncached id buf t) as Ht. rewrite E, Ht in Hs.
  split; [exact (eq_sym (f_equal fst Hs))|exact (eq_sym (f_equal snd Hs))].
Qed.

(** An entry the cache finds is the one the table has. *)
Lemma lookup_session backlog addr self id :
  listener_inv backlog self -> lookup (peers self) addr (dispatch_cache self) = Some id ->
  exists s, sessions self !! addr = Some s /\ sender s = id.
Proof.
  intros Hi. unfold lookup. destruct (dispatch_cache self !! index addr) as [[e|]|] eqn:E; try done.
  case_if; [|done]. intros [= <-]. b2p. subst addr.
  destruct (li_coherent _ _ Hi _ _ E) as (s & Hs & Hsd & _); [done|]. eauto.
Qed.

Lemma deliver_same backlog buf addr self :
  listener_inv backlog self -> same (deliver buf addr self) (deliver buf addr (uncached self)).
Proof.
  intros Hi. unfold deliver.
  change (peers (uncached self)) with (peers self). rewrite uncached_lookup.
  set (u := uncached self <| dispatch_cache := _ |>). change (sessions u) with (sessions self).
  destruct (lookup (peers self) addr (dispatch_cache self)) as [id|] eqn:El.
  - destruct (lookup_session _ _ _ _ Hi El) as (s & Hs & <-). rewrite Hs.
    destruct (send_to_peer_same (sender s) buf self u eq_refl) as [E1 E2].
    destruct (send_to_peer (sender s) buf self), (send_to_peer (sender s) buf u). simpl in *. by subst.
  - set (f := self <| dispatch_cache := forget _ _ |>). change (sessions f) with (sessions self).
    destruct (sessions self !! addr) as [s|]; [|done].
    destruct (send_to_peer_same (sender s) buf f u eq_refl) as [E1 E2].
    destruct (send_to_peer (sender s) buf f), (send_to_peer (sender s) buf u). simpl in *. by subst.
Qed.

Lemma on_session_packet_same backlog buf addr self :
  listener_inv backlog self -> same (on_session_packet buf addr self) (on_session_packet buf addr (uncached self)).
Proof.
  intros Hi. unfold on_session_packet. destruct (deliver_same backlog buf addr self Hi) as [E1 E2].
  destruct (deliver buf addr self) as [o s1], (deliver buf addr (uncached self)) as [o' s2].
  simpl in E1, E2. subst o'. destruct o as [[]|]; try done. split; [done|]. simpl.
  pose proof (f_equal sessions E2) as Es. pose proof (f_equal version_map E2) as Ev. simpl in Es, Ev.
  rewrite Es, Ev. exact (f_equal (fun l => l <| sessions := delete addr (sessions s2) |>
    <| version_map := delete addr (version_map s2) |>) E2).
Qed.

(** The other arms do not look at the cache. *)
Lemma or_continue_same {A} (r : Result A) k k' self self' :
  (forall a, same (k a) (k' a)) -> uncached self = uncached self' -> same (or_continue r k self) (or_continue r k' self').
Proof. intros Hk E. destruct r; simpl; [done|]. split; [done|exact E]. Qed.

Lemma on_datagram_same backlog timestamp now sent buf addr self :
  listener_inv backlog self ->
  same (on_datagram timestamp now sent buf addr self) (on_datagram timestamp now sent buf addr (uncached self)).
Proof.
  intros Hi. unfold on_datagram. destruct buf as [|id buf]; [done|].
  apply or_continue_same; [|done]. intros status.
  destruct status; try (by apply (on_session_packet_same backlog)).
  - unfold on_ping. by repeat (apply or_continue_same; [intros ?|]).
  - unfold on_ping. by repeat (apply or_continue_same; [intros ?|]).
  - unfold on_open_connection_request_1. apply or_continue_same; [intros req|done]. simpl. repeat case_if;
      try done; apply or_continue_same; done.
  - unfold on_open_connection_request_2. apply or_continue_same; [intros req|done]. simpl. case_if; [done|].
    destruct (sessions self !! addr); [by apply or_continue_same|].
    destruct (try_reserve (connection self)) as [[] c]; try done.
    apply or_continue_same; [intros reply|done]. by case_if.
  - unfold on_disconnect. simpl. by destruct (sessions self !! addr).
Qed.

Lemma receive_same arm self :
  same (arm self) (arm (uncached self)) -> same (receive arm self) (receive arm (uncached self)).
Proof.
  unfold receive. change (receiving (uncached self)) with (receiving self). destruct (receiving self); [|done].
  destruct (arm self) as [f s1], (arm (uncached self)) as [f' s2]. intros [E1 E2]. simpl in *. subst f'.
  destruct f; [done|]. split; [done|]. exact (f_equal (fun l => l <| receiving := false |>) E2).
Qed.

Lemma step_same backlog e self : listener_inv backlog self -> same (step e self) (step e (uncached self)).
Proof.
  intros Hi. destruct e as [timestamp now sent buf addr| |now| | |addr| |text|take_close|id|id|id]; cbn [step]; try done;
    try (by apply receive_same).
  - by apply receive_same, (on_datagram_same backlog).
  - unfold collect. simpl. by repeat case_match; simplify_eq.
  - unfold on_collect_channel_ended. change (collect_channel_ended (uncached self)) with (collect_channel_ended self).
    case_if; [|done]. unfold collect_all. simpl. change (sessions (uncached self)) with (sessions self).
    split; [done|]. simpl. induction (map_to_list (sessions self)) as [|[a s] open IH]; [done|].
    exact (f_equal (close_peer (close s)) IH).
  - unfold accept. simpl. by repeat case_match; simplify_eq.
Qed.

(** C14: the dispatch cache is transparent. Whatever the order of datagrams, clean-ups,
    collections, and openings and closings of connections, from a fresh listener: the
    listener sends the same datagrams, accepts the same sockets, fills the same connections
    and keeps the same tables as one that looks every address up in the session table. A
    colliding, stale or reused cache slot is never observable. *)
Theorem dispatch_cache_is_transparent random maximum backlog idle local_port events :
  0 <= backlog ->
  let start := started random maximum backlog idle local_port in
  (run events start).1 = (run_uncached events start).1 /\
  uncached (run events start).2 = uncached (run_uncached events start).2.
Proof.
  intros Hb start. pose proof (listener_started_inv random maximum backlog idle local_port Hb) as Hi. fold start in Hi.
  assert (forall s t, listener_inv backlog s -> uncached s = uncached t ->
    same (run events s) (run_uncached events t)) as Hrun; [|by apply Hrun].
  clear. induction events as [|e events IH]; intros s t Hi E; simpl; [done|].
  rewrite <- E. destruct (step_same backlog e s Hi) as [E1 E2].
  destruct (listener_step_inv backlog e s Hi) as [_ Hi'].
  destruct (step e s) as [o s1], (step e (uncached s)) as [o' t1]. simpl in E1, E2, Hi'. subst o'.
  destruct (IH s1 t1 Hi' E2) as [E3 E4].
  destruct (run events s1), (run_uncached events t1). simpl in *. by subst.
Qed.

(** ** Sessions *)

(** *** Identifiers of the packets sent *)

Definition appends {A} (w : RaknetWriter.Writer A) : Prop := forall buf, exists bs, (w buf).2 = buf ++ bs.

Lemma appends_write v : appends (RaknetWriter.write v).
Proof. intros buf. by exists v. Qed.

Lemma appends_ret {A} (a : A) : appends (mret a).
Proof. intros buf. exists []. by rewrite app_nil_r. Qed.

Lemma appends_throw {A} err : appends (A := A) (throw err).
Proof. intros buf. exists []. by rewrite app_nil_r. Qed.

Lemma appends_bind {A B} (w : RaknetWriter.Writer A) (k : A -> RaknetWriter.Writer B) :
  appends w -> (forall a, appends (k a)) -> appends (w ≫= k).
Proof.
  intros Hw Hk buf. destruct (Hw buf) as [bs E]. unfold mbind, SE_bind.
  destruct (w buf) as [[a|err] buf'] eqn:Ew; simpl in E; subst; [|by exists bs].
  destruct (Hk a (buf ++ bs)) as [bs' ->]. exists (bs ++ bs'). by rewrite app_assoc.
Qed.

Lemma run_writer_head id (k : unit -> RaknetWriter.Writer unit) bs :
  (forall a, appends (k a)) -> run_writer (RaknetWriter.write_u8 id ≫= k) = Ok bs -> head bs = Some id.
Proof.
  intros Hk. unfold run_writer. destruct (Hk tt [id]) as [bs' E].
  change ((RaknetWriter.write_u8 id ≫= k) RaknetWriter.new) with (k tt [id]).
  destruct (k tt [id]) as [[] buf]; [|discriminate]. simpl in E. subst buf. intros [= <-]. done.
Qed.

Ltac solve_appends :=
  repeat first [ apply appends_write | apply appends_ret | apply appends_throw
               | apply appends_bind; [|intros ?] | progress unfold RaknetWriter.write_u8,
                   RaknetWriter.write_u16, RaknetWriter.write_i64, RaknetWriter.write_u64,
                   RaknetWriter.write_magic, RaknetWriter.write_string, fail_if | case_match ].

Lemma pong_head p bs : write_packet_pong p = Ok bs -> head bs = Some 0x1c.
Proof. apply run_writer_head. intros _. solve_appends. Qed.

Lemma reply_1_head p bs : write_packet_connection_open_reply_1 p = Ok bs -> head bs = Some 0x06.
Proof. apply run_writer_head. intros _. solve_appends. Qed.

Lemma incompatible_head p bs : write_packet_incompatible_protocol_version p = Ok bs -> head bs = Some 0x19.
Proof. apply run_writer_head. intros _. solve_appends. Qed.

Lemma already_connected_head p bs : write_packet_already_connected p = Ok bs -> head bs = Some 0x12.
Proof. apply run_writer_head. intros _. solve_appends. Qed.

(** *** What a datagram does

    The tables, connections and backlog after a datagram [buf] from [addr], by case. *)

Definition backlog_view self : Channel Accepted := view (connection self).

(** Nothing but the cache and the pending versions changes. *)
Definition quiet self self' : Prop :=
  sessions self' = sessions self /\ peers self' = peers self /\ next_peer self' = next_peer self /\
  backlog_view self' = backlog_view self.

(** The packet acknowledging the negotiation of a session of MTU [mtu]. *)
Definition reply_2 self addr (mtu : Z) : Result (list Z) :=
  write_packet_connection_open_reply_2 (mk_OpenConnectionReply2 (guid self) addr mtu 0).

Inductive datagram_effect (now : Z) buf addr self : Flow -> Listener chan -> Prop :=
  | effect_quiet pkts self' :
      quiet self self' -> (forall a bs, (a, bs) ∈ pkts -> a = addr /\ head bs <> Some 0x08) ->
      datagram_effect now buf addr self (Continue pkts) self'
  | effect_repeated req s bs self' :
      quiet self self' -> head buf = Some 0x07 -> read_packet_connection_open_request_2 buf = Ok req ->
      sessions self !! addr = Some s -> session_guid s = req2_guid req ->
      reply_2 self addr (session_mtu s) = Ok bs ->
      datagram_effect now buf addr self (Continue [(addr, bs)]) self'
  | effect_created req bs self' socket p :
      head buf = Some 0x07 -> read_packet_connection_open_request_2 buf = Ok req ->
      sessions self !! addr = None ->
      61 <= req2_mtu req <= maximum_mtu self -> reply_2 self addr (req2_mtu req) = Ok bs ->
      peer socket = next_peer self -> peer_addr socket = addr -> accepted_mtu socket = req2_mtu req ->
      remote p = addr ->
      sessions self' = <[addr := mk_session (next_peer self) (next_peer self) (req2_guid req) (req2_mtu req)]>
        (sessions self) ->
      peers self' = <[next_peer self := p]> (peers self) -> next_peer self' = next_peer self + 1 ->
      backlog_view self' = Channel.push socket (backlog_view self) ->
      datagram_effect now buf addr self (Continue [(addr, bs)]) self'
  | effect_disconnected self' s :
      head buf = Some (PacketID.to_u8 PacketID.Disconnect) -> sessions self !! addr = Some s ->
      sessions self' = delete addr (sessions self) ->
      peers self' = alter (fun p => mk_peer (remote p) (inbox p) true) (close s) (peers self) ->
      next_peer self' = next_peer self -> backlog_view self' = backlog_view self ->
      datagram_effect now buf addr self (Continue []) self'
  | effect_delivered self' s p :
      sessions self !! addr = Some s -> peers self !! sender s = Some p ->
      peers self' = <[sender s := mk_peer (remote p) (try_send buf (inbox p)).2 (closed p)]> (peers self) ->
      sessions self' = (if bool_decide ((try_send buf (inbox p)).1 = Closed)
                        then delete addr (sessions self) else sessions self) ->
      next_peer self' = next_peer self -> backlog_view self' = backlog_view self ->
      datagram_effect now buf addr self (Continue []) self'.

(** The cases of nothing or of another reply. *)
Lemma effect_silent now buf addr self self' :
  quiet self self' -> datagram_effect now buf addr self (Continue []) self'.
Proof. intros Hq. apply effect_quiet; [done|]. set_solver. Qed.

Lemma effect_reply now buf addr self self' bs :
  quiet self self' -> head bs <> Some 0x08 -> datagram_effect now buf addr self (Continue [(addr, bs)]) self'.
Proof.
  intros Hq Hb. apply effect_quiet; [done|]. by intros a' bs' [= -> ->]%list_elem_of_singleton.
Qed.

Lemma on_ping_effect timestamp now buf addr self :
  datagram_effect now buf addr self (on_ping timestamp buf addr self).1 (on_ping timestamp buf addr self).2.
Proof.
  unfold on_ping, or_continue. destruct (read_packet_ping buf); [|by apply effect_silent].
  destruct (write_packet_pong _) as [bs|] eqn:E; [|by apply effect_silent].
  apply effect_reply; [done|]. by rewrite (pong_head _ _ E).
Qed.

Lemma on_request_1_effect now buf addr self :
  datagram_effect now buf addr self (on_open_connection_request_1 now buf addr self).1
    (on_open_connection_request_1 now buf addr self).2.
Proof.
  unfold on_open_connection_request_1, or_continue.
  destruct (read_packet_connection_open_request_1 buf) as [req|]; [|by apply effect_silent].
  case_if.
  - destruct (write_packet_incompatible_protocol_version _) as [bs|] eqn:E; [|by apply effect_silent].
    apply effect_reply; [done|]. by rewrite (incompatible_head _ _ E).
  - case_if; [by apply effect_silent|]. cbv zeta.
    destruct (write_packet_connection_open_reply_1 _) as [bs|] eqn:E; [|by apply effect_silent].
    apply effect_reply; [done|]. by rewrite (reply_1_head _ _ E).
Qed.

Lemma on_request_2_effect backlog now sent buf addr self :
  listener_inv backlog self -> head buf = Some 0x07 ->
  datagram_effect now buf addr self (on_open_connection_request_2 now sent buf addr self).1
    (on_open_connection_request_2 now sent buf addr self).2.
Proof.
  intros Hi Hhd. pose proof (proj1 (on_request_2_keeps backlog now sent buf addr self Hi)) as Hnb.
  unfold on_open_connection_request_2, or_continue in Hnb |- *. set (s1 := self <| dispatch_cache := _ |>) in *.
  change (sessions s1) with (sessions self) in *. change (connection s1) with (connection self) in *.
  destruct (read_packet_connection_open_request_2 buf) as [req|] eqn:Er; [|by apply effect_silent].
  case_if; [by apply effect_silent|]. b2p.
  destruct (sessions self !! addr) as [s|] eqn:Es.
  { cbv zeta. case_if.
    - destruct (write_packet_connection_open_reply_2 _) as [bs|] eqn:E; [|by apply effect_silent].
      b2p. by apply (effect_repeated _ _ _ _ req s).
    - destruct (write_packet_already_connected _) as [bs|] eqn:E; [|by apply effect_silent].
      apply effect_reply; [done|]. by rewrite (already_connected_head _ _ E). }
  pose proof (reserve_refused (connection self)) as Hr. pose proof (reserve_drop (connection self)) as Hd.
  pose proof (reserve_send (mk_accepted (next_peer self) addr (req2_mtu req)
    (negotiated_version now addr self) (idle_maintenance self)) (connection self)) as Hc.
  destruct (try_reserve (connection self)) as [o c]. cbn [fst snd] in Hr, Hd, Hc. destruct o; [| |done].
  - specialize (Hd eq_refl). specialize (Hc eq_refl). destruct Hc as (Hc & _). cbv zeta.
    assert (quiet self (s1 <| connection := permit_drop c |>)) as Hq by (by split_and!).
    destruct (write_packet_connection_open_reply_2 _) as [bs|] eqn:E; [|by apply effect_silent].
    case_if; [by apply effect_silent|].
    by eapply (effect_created _ _ _ _ req bs _ (mk_accepted (next_peer self) addr (req2_mtu req)
      (negotiated_version now addr self) (idle_maintenance self)) (mk_peer addr (channel 128) false)).
  - apply effect_silent. split_and!; try done. by apply Hr.
Qed.

Lemma on_disconnect_effect now buf addr self :
  head buf = Some (PacketID.to_u8 PacketID.Disconnect) ->
  datagram_effect now buf addr self (on_disconnect addr self).1 (on_disconnect addr self).2.
Proof.
  intros Hb. unfold on_disconnect. simpl. destruct (sessions self !! addr) as [s|] eqn:Es.
  - by eapply effect_disconnected.
  - apply effect_silent. split_and!; try done. simpl. by apply delete_id.
Qed.

Lemma deliver_cases backlog buf addr self :
  listener_inv backlog self ->
  next_peer (deliver buf addr self).2 = next_peer self /\ connection (deliver buf addr self).2 = connection self /\
  sessions (deliver buf addr self).2 = sessions self /\
  match sessions self !! addr with
  | Some s => exists p, peers self !! sender s = Some p /\
      (deliver buf addr self).1 = Some (try_send buf (inbox p)).1 /\
      peers (deliver buf addr self).2 =
        <[sender s := mk_peer (remote p) (try_send buf (inbox p)).2 (closed p)]> (peers self)
  | None => (deliver buf addr self).1 = None /\ peers (deliver buf addr self).2 = peers self
  end.
Proof.
  intros Hi. destruct (deliver_same backlog buf addr self Hi) as [E1 E2].
  pose proof (f_equal next_peer E2) as En. pose proof (f_equal connection E2) as Ec.
  pose proof (f_equal sessions E2) as Es. pose proof (f_equal peers E2) as Ep. simpl in En, Ec, Es, Ep.
  rewrite En, Ec, Es, Ep, E1. clear -Hi. unfold deliver.
  change (peers (uncached self)) with (peers self). rewrite uncached_lookup. simpl.
  destruct (sessions self !! addr) as [s|] eqn:Es; [|done].
  destruct (li_sessions _ _ Hi _ _ Es) as (_ & _ & p & Hp & _).
  unfold send_to_peer. simpl. rewrite Hp. destruct (try_send buf (inbox p)) as [o c] eqn:Et. simpl.
  split_and!; try done. exists p. by rewrite Et.
Qed.

Lemma on_session_packet_effect backlog now buf addr self :
  listener_inv backlog self ->
  datagram_effect now buf addr self (on_session_packet buf addr self).1 (on_session_packet buf addr self).2.
Proof.
  intros Hi. destruct (deliver_cases backlog buf addr self Hi) as (En & Ec & Es & Hc).
  unfold on_session_packet. destruct (deliver buf addr self) as [o s1]. simpl in *.
  destruct (sessions self !! addr) as [s|] eqn:Ea.
  - destruct Hc as (p & Hp & -> & Epe).
    destruct ((try_send buf (inbox p)).1) eqn:Et; simpl;
      (eapply effect_delivered; [done|done|done| |done|by unfold backlog_view; simpl; rewrite Ec]);
      rewrite Et; simpl; congruence.
  - destruct Hc as [-> Epe]. apply effect_silent. unfold quiet, backlog_view. simpl.
    by rewrite En, Ec, Es, Epe.
Qed.

Lemma on_datagram_effect backlog timestamp now sent buf addr self :
  listener_inv backlog self ->
  datagram_effect now buf addr self (on_datagram timestamp now sent buf addr self).1
    (on_datagram timestamp now sent buf addr self).2.
Proof.
  intros Hi. unfold on_datagram. destruct buf as [|id buf]; [by apply effect_silent|].
  unfold or_continue. destruct (PacketID.from id) as [status|] eqn:Ei; [|by apply effect_silent].
  assert (status <> PacketID.FrameSetPacketBegin -> status <> PacketID.FrameSetPacketEnd ->
    id = PacketID.to_u8 status) as Hid.
  { intros Hs _. unfold PacketID.from, PacketID.try_from in Ei. case_if_in Ei; [congruence|].
    repeat (discriminate || case_match); simplify_eq; done. }
  destruct status; eauto using on_ping_effect, on_request_1_effect, on_session_packet_effect.
  - apply (on_request_2_effect backlog); [done|]. simpl. by rewrite Hid.
  - apply on_disconnect_effect. simpl. by rewrite Hid.
Qed.

(** *** Settings never change *)

Definition settings self : Z * Z := (guid self, maximum_mtu self).

(** What no turn of the tasks, the application or the connections changes. *)
Definition lasting self : Z * Z * (bool * bool) * bool :=
  (settings self, (socket_open self, listened self), close_notifier self).

Definition texts self : list Z * list Z := (motd self, announced self).

(** What no datagram changes. *)
Definition untouched self : Z * Z * (bool * bool) * bool * (list Z * list Z) * bool := (lasting self, texts self, receiving self).

Lemma send_to_peer_untouched id buf self : untouched (send_to_peer id buf self).2 = untouched self.
Proof. destruct (send_to_peer_closing id buf self) as [_ ->]. done. Qed.

Lemma on_datagram_untouched timestamp now sent buf addr self :
  untouched (on_datagram timestamp now sent buf addr self).2 = untouched self.
Proof.
  unfold on_datagram, or_continue. destruct buf as [|id buf]; [done|].
  destruct (PacketID.from id) as [status|]; [|done].
  assert (untouched (on_session_packet (id :: buf) addr self).2 = untouched self) as Hs.
  { unfold on_session_packet. assert (untouched (deliver (id :: buf) addr self).2 = untouched self) as Hd.
    - unfold deliver. destruct (lookup _ _ _) as [i|].
      + pose proof (send_to_peer_untouched i (id :: buf) self) as Hs. by destruct (send_to_peer _ _ _).
      + simpl. destruct (sessions self !! addr) as [s|]; [|done].
        pose proof (send_to_peer_untouched (sender s) (id :: buf)
          (self <| dispatch_cache := forget addr (dispatch_cache self) |>)) as Hs.
        by destruct (send_to_peer _ _ _).
    - by destruct (deliver (id :: buf) addr self) as [[[]|] s1]. }
  destruct status; try exact Hs; unfold on_ping, on_open_connection_request_1,
    on_open_connection_request_2, on_disconnect, or_continue; cbv zeta; by repeat case_match.
Qed.

Lemma on_datagram_settings timestamp now sent buf addr self :
  settings (on_datagram timestamp now sent buf addr self).2 = settings self.
Proof. exact (f_equal (fun c => c.1.1.1.1) (on_datagram_untouched timestamp now sent buf addr self)). Qed.

Lemma on_collect_channel_ended_untouched self : untouched (on_collect_channel_ended self).2 = untouched self.
Proof.
  unfold on_collect_channel_ended. case_if; [|done]. unfold collect_all. simpl.
  by induction (map_to_list (sessions self)) as [|[a s] open IH].
Qed.

Lemma listener_step_lasting e self : lasting (step e self).2 = lasting self.
Proof.
  destruct e; cbn [step]; try done.
  - pose proof (f_equal (fun c => c.1.1) (on_datagram_untouched timestamp now sent buf addr self)) as Hs.
    apply receive_elim; [done|intros ? ? _ E|intros ? _ E]; by rewrite E in Hs.
  - apply receive_elim; [done|done|]. by intros ? _ [= <-].
  - apply receive_elim; [done|by intros ? ? _ [= <- <-]|done].
  - apply receive_elim; [done|by intros ? ? _ [= _ <-]|by intros ? _ [= _ <-]].
  - apply receive_elim; [done|by intros ? ? _ [= _ <-]|by intros ? _ [= _ <-]].
  - unfold collect. by repeat case_match; simplify_eq.
  - pose proof (f_equal (fun c => c.1.1) (on_collect_channel_ended_untouched self)) as Hs. by destruct (on_collect_channel_ended self).
  - unfold accept. by repeat case_match; simplify_eq.
Qed.

Lemma listener_step_texts e self :
  texts (step e self).2 = match e with SetMotd text => (text, text) | _ => texts self end.
Proof.
  destruct e; cbn [step]; try done.
  - pose proof (f_equal (fun c => c.1.2) (on_datagram_untouched timestamp now sent buf addr self)) as Hs.
    apply receive_elim; [done|intros ? ? _ E|intros ? _ E]; by rewrite E in Hs.
  - apply receive_elim; [done|done|]. by intros ? _ [= <-].
  - apply receive_elim; [done|by intros ? ? _ [= <- <-]|done].
  - apply receive_elim; [done|by intros ? ? _ [= _ <-]|by intros ? _ [= _ <-]].
  - apply receive_elim; [done|by intros ? ? _ [= _ <-]|by intros ? _ [= _ <-]].
  - unfold collect. by repeat case_match; simplify_eq.
  - pose proof (f_equal (fun c => c.1.2) (on_collect_channel_ended_untouched self)) as Hs. by destruct (on_collect_channel_ended self).
  - unfold accept. by repeat case_match; simplify_eq.
Qed.

Lemma listener_step_settings e self : settings (step e self).2 = settings self.
Proof. exact (f_equal (fun c => c.1.1) (listener_step_lasting e self)). Qed.

Lemma listener_step_open e self :
  socket_open (step e self).2 = socket_open self /\ listened (step e self).2 = listened self.
Proof. pose proof (f_equal (fun c => c.1.2) (listener_step_lasting e self)) as E. by injection E. Qed.

Lemma listener_step_signal e self : close_notifier (step e self).2 = close_notifier self.
Proof. exact (f_equal snd (listener_step_lasting e self)). Qed.

(** *** The receiving task ends only when a receive fails *)

Lemma listener_step_receiving backlog e self :
  listener_inv backlog self -> close_notifier self = false ->
  receiving (step e self).2 = receiving self && negb (bool_decide (e = ReceiveFails)) /\
  ((step e self).1 = Stops <-> receiving self = true /\ e = ReceiveFails).
Proof.
  intros Hi Hc. pose proof (proj1 (listener_step_inv backlog e self Hi)) as Hs. rewrite Hc in Hs.
  destruct (decide (e = ReceiveFails)) as [->|Hne].
  - cbn [step]. unfold receive. destruct (receiving self) eqn:Er; simpl; [naive_solver|]. rewrite Er. naive_solver.
  - rewrite bool_decide_eq_false_2, andb_true_r by done. split; [|naive_solver]. clear Hc.
    assert ((step e self).1 <> Stops) as Hn by naive_solver. clear Hs.
    destruct e; cbn [step] in Hn |- *; try done.
    + pose proof (f_equal snd (on_datagram_untouched timestamp now sent buf addr self)) as Hs. revert Hn.
      apply receive_elim; [done|intros ? ? _ E|done]. by rewrite E in Hs.
    + apply receive_elim; [done|by intros ? ? _ [= <- <-]|done].
    + revert Hn. apply receive_elim; [done|by intros ? ? _ [= _ <-]|done].
    + revert Hn. apply receive_elim; [done|by intros ? ? _ [= _ <-]|done].
    + unfold collect. by repeat case_match; simplify_eq.
    + pose proof (f_equal snd (on_collect_channel_ended_untouched self)) as Hs. by destruct (on_collect_channel_ended self).
    + unfold accept. by repeat case_match; simplify_eq.
Qed.

Lemma listener_run_receiving backlog events self :
  listener_inv backlog self -> close_notifier self = false ->
  receiving (run events self).2 = receiving self && negb (bool_decide (ReceiveFails ∈ events)) /\
  (Stops ∈ (run events self).1 <-> receiving self = true /\ ReceiveFails ∈ events).
Proof.
  revert self. induction events as [|e events IH]; intros self Hi Hc; cbn [run].
  { rewrite bool_decide_eq_false_2, andb_true_r by set_solver. set_solver. }
  destruct (listener_step_receiving backlog e self Hi Hc) as [H1 H2].
  pose proof (proj2 (listener_step_inv backlog e self Hi)) as Hi'. pose proof (listener_step_signal e self) as Hc'.
  destruct (step e self) as [out s1]. cbn [fst snd] in *. destruct (IH s1 Hi' ltac:(congruence)) as [H3 H4].
  destruct (run events s1) as [outs s2]. cbn [fst snd] in *. rewrite H3, H1. rewrite H1 in H4. split.
  - rewrite <- andb_assoc, <- negb_orb, <- bool_decide_or. do 2 f_equal. apply bool_decide_ext. set_solver.
  - rewrite !elem_of_cons, H4, andb_true_iff, negb_true_iff, bool_decide_eq_false. rewrite (eq_comm Stops), H2, (eq_comm ReceiveFails).
    destruct (decide (e = ReceiveFails)); tauto.
Qed.

(** C31: the listener's tables. Whatever arrives, at most 4096 addresses wait between the two
    requests of the negotiation, every session has an MTU the listener allows and a connection
    to its own address, exactly the addresses with a session have a protocol version, the
    sockets waiting for [accept] fit the backlog, and the cache is never indexed out of its
    bounds. The receiving task ends if the operating system fails a receive, and then only: no
    datagram, tick or new MOTD ends it. *)
Theorem listener_tables_bounded random maximum backlog idle local_port events :
  0 <= backlog ->
  let start := started random maximum backlog idle local_port in
  let self := (run events start).2 in
  (Stops ∈ (run events start).1 <-> ReceiveFails ∈ events) /\
  (receiving self = true <-> ReceiveFails ∉ events) /\
  Z.of_nat (size (pending_versions self)) <= 4096 /\
  (forall addr s, sessions self !! addr = Some s -> session_wf self addr s) /\
  dom (version_map self) = dom (sessions self) /\
  zlen (queued (view (connection self))) <= backlog /\
  (forall addr, is_Some (dispatch_cache self !! index addr)).
Proof.
  intros Hb start self. pose proof (listener_started_inv random maximum backlog idle local_port Hb) as Hi. fold start in Hi.
  assert (close_notifier start = false /\ receiving start = true) as [Hc Hr] by done.
  destruct (listener_run_receiving backlog events start Hi Hc) as [H1 H2]. rewrite Hr in H1, H2.
  apply (listener_run_inv backlog events) in Hi. fold self in Hi, H1. destruct Hi as [L P C Ha S F V N O R K B].
  split; [naive_solver|].
  split; [rewrite H1; case_bool_decide; naive_solver|]. do 4 (split; [done|]).
  intros addr. apply lookup_lt_is_Some. rewrite L. apply index_bound.
Qed.

(** A listener whose receive failed is deaf: no session comes about any more, and [accept] on
    an empty backlog waits for good. *)
Lemma deaf_listener events self :
  receiving self = false -> queued (view (connection self)) = [] -> listened self = true -> close_notifier self = false ->
  let self' := (run events self).2 in
  next_peer self' = next_peer self /\ forall take_close, (accept take_close self').1 = None.
Proof.
  intros Hr Hq Hl Hc. cbv zeta.
  enough (next_peer (run events self).2 = next_peer self /\ queued (view (connection (run events self).2)) = [] /\
    listened (run events self).2 = true /\ close_notifier (run events self).2 = false) as (E1 & E2 & E3 & E4).
  { split; [done|]. intros tc. unfold accept. rewrite E3, E4. simpl. pose proof (try_recv_result (connection (run events self).2)) as Ht.
    unfold Channel.try_recv in Ht. rewrite E2 in Ht. by destruct (try_recv _) as [[]]. }
  revert self Hr Hq Hl Hc. induction events as [|e events IH]; intros self Hr Hq Hl Hc; cbn [run]; [done|].
  assert (receiving (step e self).2 = false /\ next_peer (step e self).2 = next_peer self /\
    queued (view (connection (step e self).2)) = []) as (H1 & H2 & H3).
  { destruct e; cbn [step]; unfold receive; rewrite ?Hr; try done.
    - unfold collect. by repeat case_match; simplify_eq.
    - destruct (on_collect_channel_ended_effect self) as (E1 & E2 & _).
      pose proof (f_equal snd (on_collect_channel_ended_untouched self)) as E3. simpl in E3.
      destruct (on_collect_channel_ended self). simpl in *. by rewrite E1, E2, E3.
    - unfold accept. pose proof (try_recv_state (connection self)) as Hst. unfold Channel.try_recv in Hst. rewrite Hq in Hst.
      repeat case_match; simplify_eq; try done; simpl in *; by rewrite Hst. }
  destruct (listener_step_open e self) as [_ H4]. pose proof (listener_step_signal e self) as H5.
  destruct (step e self) as [out s1]. cbn [fst snd] in *.
  destruct (IH s1) as (E1 & E); [done|done|congruence|congruence|]. destruct (run events s1). simpl in *. by rewrite E1.
Qed.

(** A dropped listener ends its receiving task: by the signal, by the end of the MOTD's
    channel, and by the first connection it would create. *)
Lemma dropped_listener_stops self :
  receiving self = true ->
  (step CloseNotified (drop_listener self)).1 = Stops /\ (step MotdChanged (drop_listener self)).1 = Stops /\
  (try_reserve (connection (drop_listener self))).1 = Closed.
Proof.
  intros Hr. cbn [step]. unfold receive, drop_listener. simpl. rewrite Hr. split; [done|]. split; [done|].
  rewrite try_reserve_result. unfold Channel.try_reserve. by rewrite drop_receiver_view.
Qed.

Lemma listener_run_settings events self : settings (run events self).2 = settings self.
Proof.
  revert self. induction events as [|e events IH]; intros self; simpl; [done|].
  pose proof (listener_step_settings e self) as Hs. destruct (step e self) as [o s1].
  specialize (IH s1). destruct (run events s1). simpl in *. congruence.
Qed.

Lemma started_settings random maximum backlog idle local_port :
  settings (started random maximum backlog idle local_port) = (random, maximum).
Proof. reflexivity. Qed.

(** *** The theorems *)

Lemma reply_2_backed backlog timestamp now sent buf addr self pkts a bs :
  listener_inv backlog self ->
  (step (Datagram timestamp now sent buf addr) self).1 = Sends pkts -> (a, bs) ∈ pkts ->
  head bs = Some (PacketID.to_u8 PacketID.OpenConnectionReply2) ->
  a = addr /\ exists req s,
    head buf = Some (PacketID.to_u8 PacketID.OpenConnectionRequest2) /\
    read_packet_connection_open_request_2 buf = Ok req /\
    sessions (step (Datagram timestamp now sent buf addr) self).2 !! addr = Some s /\
    session_guid s = req2_guid req /\ 61 <= session_mtu s <= maximum_mtu self /\
    reply_2 self addr (session_mtu s) = Ok bs.
Proof.
  intros Hi Hout Hin Hid. pose proof (on_datagram_effect backlog timestamp now sent buf addr self Hi) as He.
  cbn [step] in Hout |- *. unfold receive in *.
  destruct (receiving self); [|injection Hout as <-; by apply elem_of_nil in Hin].
  destruct (on_datagram timestamp now sent buf addr self) as [f s1]. simpl in He. destruct He as [pkts' s' Hq Hpk|req s0 bs' s' Hq Hhd Hr Hs0 Hgu Hw
    |req bs' s' socket p0 Hhd Hr Hn Hmtu Hw Hsp Hsa Hsm Hrm Es Ep En Ev
    |s' s0 Hd Hs0 Es Ep En Ev|s' s0 p0 Hs0 Hp0 Ep Es En Ev]; injection Hout as <-.
  - by destruct (Hpk a bs Hin).
  - apply list_elem_of_singleton in Hin as [= -> ->]. split; [done|]. destruct Hq as (Es & _).
    destruct (li_sessions _ _ Hi _ _ Hs0) as (_ & Hmtu & _). exists req, s0. simpl. by rewrite Es.
  - apply list_elem_of_singleton in Hin as [= -> ->]. split; [done|].
    eexists req, _. simpl. by rewrite Es, lookup_insert_eq.
  - by apply elem_of_nil in Hin.
  - by apply elem_of_nil in Hin.
Qed.

(** C28: an acknowledged negotiation is backed by a session. Whatever happened before, when
    the listener answers a datagram with an [OpenConnectionReply2], it answers its sender,
    and the session table holds, for the sender's address, a session with the GUID the
    request gives, whose MTU is the one the reply announces and lies between 61 and the
    listener's maximum. A repeated request thus gets the reply of the first one, and a client
    with another GUID never gets one. *)
Theorem reply_2_is_backed_by_session random maximum backlog idle local_port events
    timestamp now sent buf addr pkts a bs :
  0 <= backlog ->
  let self := (run events (started random maximum backlog idle local_port)).2 in
  let out := step (Datagram timestamp now sent buf addr) self in
  out.1 = Sends pkts -> (a, bs) ∈ pkts -> head bs = Some (PacketID.to_u8 PacketID.OpenConnectionReply2) ->
  a = addr /\ exists req s,
    head buf = Some (PacketID.to_u8 PacketID.OpenConnectionRequest2) /\
    read_packet_connection_open_request_2 buf = Ok req /\ sessions out.2 !! addr = Some s /\
    session_guid s = req2_guid req /\ 61 <= session_mtu s <= maximum /\
    write_packet_connection_open_reply_2 (mk_OpenConnectionReply2 random addr (session_mtu s) 0) = Ok bs.
Proof.
  intros Hb self out Hout Hin Hid.
  pose proof (listener_reached_inv random maximum backlog idle local_port events Hb) as Hi. fold self in Hi.
  pose proof (listener_run_settings events (started random maximum backlog idle local_port)) as Hset.
  fold self in Hset. rewrite started_settings in Hset. injection Hset as Hg Hm.
  rewrite <- Hg, <- Hm. by apply (reply_2_backed backlog timestamp now sent buf addr self pkts a bs).
Qed.

(** C27: sessions end only when they should. Whatever happened before, a session leaves the
    table, or is replaced, in a turn only if its own peer sent a disconnect, or its connection
    has closed, or the connection's receiving task has ended. In particular no datagram of
    another address, no late message of the collecting task and no second negotiation can
    end or replace a living session. *)
Theorem sessions_end_only_when random maximum backlog idle local_port events e addr s :
  0 <= backlog ->
  let self := (run events (started random maximum backlog idle local_port)).2 in
  sessions self !! addr = Some s -> sessions (step e self).2 !! addr <> Some s ->
  (exists timestamp now sent buf, e = Datagram timestamp now sent buf addr /\
     head buf = Some (PacketID.to_u8 PacketID.Disconnect)) \/
  exists p, peers self !! sender s = Some p /\ (closed p = true \/ is_closed (inbox p) = true).
Proof.
  intros Hb self Hs Hend.
  pose proof (listener_reached_inv random maximum backlog idle local_port events Hb) as Hi. fold self in Hi.
  destruct (li_sessions _ _ Hi _ _ Hs) as (Hsc & _ & p & Hp & _).
  destruct e as [timestamp now sent buf a| |now| | |a| |text|take_close|id|id|id]; cbn [step] in Hend;
    unfold receive, on_motd_changed, on_close_notified in Hend;
    try (destruct (receiving self), (motd_held self), (close_notifier self); done).
  - pose proof (on_datagram_effect backlog timestamp now sent buf a self Hi) as He.
    destruct (receiving self); [|done]. destruct (on_datagram timestamp now sent buf a self) as [f s1]. simpl in He.
    assert (sessions s1 !! addr <> Some s) as Hend' by (by destruct f). clear Hend.
    destruct He as [pkts' s' Hq Hpk|req s0 bs' s' Hq Hhd Hr Hs0 Hgu Hw|req bs' s' socket p0 Hhd Hr Hn Hmtu Hw Hsp Hsa Hsm Hrm Es Ep En Ev
    |s' s0 Hd Hs0 Es Ep En Ev|s' s0 p0 Hs0 Hp0 Ep Es En Ev].
    + destruct Hq as (Es & _). by rewrite Es in Hend'.
    + destruct Hq as (Es & _). by rewrite Es in Hend'.
    + rewrite Es, lookup_insert_ne in Hend' by congruence. done.
    + destruct (decide (a = addr)) as [->|]; [left; eauto 6|].
      rewrite Es, lookup_delete_ne in Hend' by done. done.
    + right. rewrite Es in Hend'. case_bool_decide as Hcl; [|done].
      destruct (decide (a = addr)) as [->|]; [|by rewrite lookup_delete_ne in Hend'].
      simplify_eq. exists p. split; [done|]. right. by apply try_send_closed in Hcl.
  - right. unfold collect in Hend. destruct (sessions self !! a) as [s'|] eqn:Ea; [|done].
    case_if_in Hend; simpl in Hend; [|done].
    destruct (decide (a = addr)) as [->|]; [|by rewrite lookup_delete_ne in Hend].
    simplify_eq. exists p. split; [done|]. left. rewrite <- Hsc, Hp in *. done.
  - right. unfold on_collect_channel_ended in Hend. destruct (collect_channel_ended self) eqn:Ec; [|done].
    exists p. split; [done|]. left. by apply (collect_channel_ended_closed self Ec (sender s)).
  - unfold accept in Hend. repeat case_match; simplify_eq; done.
Qed.

(** Datagrams reach the connection they belong to. Whatever happened before, a datagram
    changes the queue of at most one connection, the one whose peer sent it, and it does so by
    appending the datagram, unless the queue is full or its receiver is gone. *)
Theorem datagrams_reach_their_connection random maximum backlog idle local_port events
    timestamp now sent buf addr id p p' :
  0 <= backlog ->
  let self := (run events (started random maximum backlog idle local_port)).2 in
  let self' := (step (Datagram timestamp now sent buf addr) self).2 in
  peers self !! id = Some p -> peers self' !! id = Some p' ->
  remote p' = remote p /\
  (view (inbox p') = view (inbox p) \/
   remote p = addr /\ view (inbox p') = Channel.push buf (view (inbox p)) /\
     exists s, sessions self !! addr = Some s /\ sender s = id).
Proof.
  intros Hb self self' Hp Hp'.
  pose proof (listener_reached_inv random maximum backlog idle local_port events Hb) as Hi. fold self in Hi.
  pose proof (on_datagram_effect backlog timestamp now sent buf addr self Hi) as He.
  unfold self' in Hp'. cbn [step] in Hp'. unfold receive in Hp'. destruct (receiving self); [|simpl in Hp'; simplify_eq; by auto].
  destruct (on_datagram timestamp now sent buf addr self) as [f s1]. simpl in He.
  assert (peers s1 !! id = Some p') as Hp1 by (by destruct f). clear Hp'.
  destruct He as [pkts' s' Hq Hpk|req s0 bs' s' Hq Hhd Hr Hs0 Hgu Hw|req bs' s' socket p0 Hhd Hr Hn Hmtu Hw Hsp Hsa Hsm Hrm Es Ep En Ev
    |s' s0 Hd Hs0 Es Ep En Ev|s' s0 p0 Hs0 Hp0 Ep Es En Ev].
  - destruct Hq as (_ & Ep & _). rewrite Ep in Hp1. simplify_eq. auto.
  - destruct Hq as (_ & Ep & _). rewrite Ep in Hp1. simplify_eq. auto.
  - rewrite Ep, lookup_insert_ne in Hp1; [simplify_eq; auto|].
    pose proof (li_fresh _ _ Hi id ltac:(eauto)). lia.
  - rewrite Ep in Hp1. destruct (decide (close s0 = id)) as [Heq|].
    + rewrite Heq, lookup_alter_eq, Hp in Hp1. injection Hp1 as <-. auto.
    + rewrite lookup_alter_ne in Hp1 by done. simplify_eq. auto.
  - destruct (decide (sender s0 = id)) as [<-|].
    + destruct (li_sessions _ _ Hi _ _ Hs0) as (_ & _ & p1 & Hp2 & Hr).
      rewrite Ep, lookup_insert_eq in Hp1. simplify_eq. simpl. split; [done|].
      rewrite try_send_state. unfold Channel.try_send. repeat case_if; simpl; auto.
      right. eauto.
    + rewrite Ep, lookup_insert_ne in Hp1 by done. simplify_eq. auto.
Qed.

(** *** The sockets offered to the application *)

Definition accepted_sockets (outs : list output) : list Accepted :=
  omap (fun out => match out with Accepts socket => Some socket | _ => None end) outs.

(** A socket offered is one of a connection to its peer. *)
Definition offered_wf self (socket : Accepted) : Prop :=
  exists p, peers self !! peer socket = Some p /\ remote p = peer_addr socket /\
    61 <= accepted_mtu socket <= maximum_mtu self.

(** The offers after a turn that creates no connection. *)
Lemma offered_closing self self' sockets :
  closing (peers self) (peers self') -> maximum_mtu self' = maximum_mtu self ->
  Forall (offered_wf self) sockets -> Forall (offered_wf self') sockets.
Proof.
  intros Hc Hm. apply Forall_impl. intros socket (p & Hp & Hr & Hmtu). specialize (Hc (peer socket)).
  rewrite Hp in Hc. destruct (peers self' !! peer socket) as [p'|] eqn:Ep; [|done].
  exists p'. destruct Hc as [-> _]. by rewrite Hm.
Qed.

(** What a turn does to the offers: [accepted] leave at the front, sockets may join at the
    back, with the next numbers, of connections to the sender of the turn's datagram. *)
Definition offers (from : option SocketAddr) (accepted : list Accepted) self self' : Prop :=
  exists new,
    next_peer self' = next_peer self + zlen new /\
    accepted ++ queued (backlog_view self') = queued (backlog_view self) ++ new /\
    map peer new = seqZ (next_peer self) (zlen new) /\
    Forall (fun socket => offered_wf self' socket /\ from = Some (peer_addr socket)) new /\
    (forall socket, offered_wf self socket -> offered_wf self' socket).

Lemma offers_none from self self' :
  closing (peers self) (peers self') -> maximum_mtu self' = maximum_mtu self ->
  next_peer self' = next_peer self -> backlog_view self' = backlog_view self -> offers from [] self self'.
Proof.
  intros Hc Hm En Ev. exists []. rewrite En, Ev, app_nil_r. split_and!; [simpl; lia|done..|by apply Forall_nil_2|].
  intros socket Hs. apply (Forall_singleton (offered_wf self')), (offered_closing self); [done..|].
  by apply Forall_singleton.
Qed.

Lemma on_datagram_offers backlog timestamp now sent buf addr self :
  listener_inv backlog self -> offers (Some addr) [] self (on_datagram timestamp now sent buf addr self).2.
Proof.
  intros Hi. pose proof (on_datagram_effect backlog timestamp now sent buf addr self Hi) as He.
  pose proof (on_datagram_settings timestamp now sent buf addr self) as Hset.
  destruct (on_datagram timestamp now sent buf addr self) as [f s1]. simpl in *. injection Hset as _ Hm.
  destruct He as [pkts s' Hq _|req s bs s' Hq|req bs s' socket p Hhd Hr Hn Hmtu Hw Hsp Hsa Hsm Hrm Es Ep En Ev
    |s' s Hd Hs Es Ep En Ev|s' s p Hs Hp Ep Es En Ev].
  - destruct Hq as (_ & Ep & En & Ev). apply offers_none; try done. rewrite Ep. apply closing_refl.
  - destruct Hq as (_ & Ep & En & Ev). apply offers_none; try done. rewrite Ep. apply closing_refl.
  - assert (forall x, offered_wf self x -> offered_wf s' x) as Hmono.
    { intros x (q & Hq & Hrq & Hmq). exists q. rewrite Ep, Hm, lookup_insert_ne; [done|].
      pose proof (li_fresh _ _ Hi (peer x) ltac:(eauto)). lia. }
    exists [socket]. rewrite En, Ev. split_and!; [done|done|by simpl; rewrite Hsp| |done].
    apply Forall_singleton. split; [|by rewrite Hsa]. exists p. by rewrite Hsp, Ep, lookup_insert_eq, Hrm, Hsa, Hsm, Hm.
  - apply offers_none; try done. rewrite Ep. by apply closing_alter.
  - apply offers_none; try done. rewrite Ep. intros id.
    destruct (decide (sender s = id)) as [<-|]; [|rewrite lookup_insert_ne by done; apply closing_refl].
    rewrite Hp, lookup_insert_eq. simpl. by rewrite is_closed_try_send.
Qed.

(** The sender of the datagram of a turn. *)
Definition sender_of e : option SocketAddr :=
  match e with Datagram _ _ _ _ addr => Some addr | _ => None end.

Lemma listener_step_offers backlog e self :
  listener_inv backlog self -> offers (sender_of e) (accepted_sockets [(step e self).1]) self (step e self).2.
Proof.
  intros Hi. assert (offers None [] self self) as Hid by (apply offers_none; try done; apply closing_refl).
  assert (offers (sender_of e) [] self self) as Hid' by (apply offers_none; try done; apply closing_refl).
  destruct e as [timestamp now sent buf addr| |now| | |addr| |text|take_close|id|id|id]; cbn [step].
  - pose proof (on_datagram_offers backlog timestamp now sent buf addr self Hi) as Ho.
    apply receive_elim; [done|intros ? ? _ E|intros ? _ E]; rewrite E in Ho; exact Ho.
  - by apply receive_elim; [..|intros ? _ [= <-]].
  - apply receive_elim; [done|intros ? ? _ [= <- <-]|done]. exact Hid.
  - apply receive_elim; [done|intros ? ? _ [= _ <-]|intros ? _ [= _ <-]]; exact Hid.
  - apply receive_elim; [done|intros ? ? _ [= _ <-]|intros ? _ [= _ <-]]; exact Hid.
  - unfold collect. repeat case_match; simplify_eq; simpl; apply offers_none; try done; apply closing_refl.
  - destruct (on_collect_channel_ended_effect self) as (En & Ec & Hcl).
    pose proof (f_equal (fun c => c.1.1.1.1.2) (on_collect_channel_ended_untouched self)) as Em.
    destruct (on_collect_channel_ended self) as [out s1]. simpl in *. apply offers_none; try done.
    unfold backlog_view. by rewrite Ec.
  - exact Hid.
  - unfold accept. pose proof (try_recv_result (connection self)) as Hr.
    pose proof (try_recv_state (connection self)) as Hst.
    destruct (negb (listened self)); [simpl; apply offers_none; try done; apply closing_refl|].
    destruct (close_notifier self && take_close); [simpl; apply offers_none; try done; apply closing_refl|].
    destruct (try_recv (connection self)) as [o c]. simpl in Hr, Hst. unfold Channel.try_recv in Hr, Hst.
    destruct (queued (view (connection self))) as [|socket l] eqn:Eq; simpl in Hr, Hst; subst o.
    + destruct (close_notifier self); simpl; apply offers_none; try done; apply closing_refl.
    + exists []. unfold backlog_view. simpl. rewrite Hst, Eq, app_nil_r.
      split_and!; [lia|done|done|by apply Forall_nil_2|done].
  - apply offers_none; try done. apply close_peer_closing.
  - apply offers_none; try done. apply closing_alter. intros p. simpl. by rewrite is_closed_try_recv.
  - apply offers_none; try done. apply closing_alter. intros p. simpl. by rewrite is_closed_drop.
Qed.

Lemma accepted_sockets_app outs1 outs2 :
  accepted_sockets (outs1 ++ outs2) = accepted_sockets outs1 ++ accepted_sockets outs2.
Proof. apply omap_app. Qed.

(** C15: every connection is offered exactly once. Whatever happens, the sockets [accept] has
    returned, followed by those waiting in the backlog, are the connections the listener has
    created, each once and in the order of creation; each belongs to the connection of its
    peer address and has an MTU between 61 and the listener's maximum. No negotiation is
    acknowledged and then lost. *)
Theorem connections_offered_once random maximum backlog idle local_port events :
  0 <= backlog ->
  let start := started random maximum backlog idle local_port in
  let self := (run events start).2 in
  let offered := accepted_sockets (run events start).1 ++ queued (view (connection self)) in
  map peer offered = seqZ 0 (next_peer self) /\ Forall (offered_wf self) offered.
Proof.
  intros Hb start. cbv zeta.
  enough (0 <= next_peer (run events start).2 /\
    map peer (accepted_sockets (run events start).1 ++ queued (view (connection (run events start).2))) =
      seqZ 0 (next_peer (run events start).2) /\
    Forall (offered_wf (run events start).2)
      (accepted_sockets (run events start).1 ++ queued (view (connection (run events start).2)))) by tauto.
  pattern events. apply rev_ind.
  { cbn [run fst snd accepted_sockets omap list_omap app].
    assert (next_peer start = 0 /\ connection start = channel backlog) as [-> ->] by (split; reflexivity).
    rewrite channel_view. by split_and!. }
  clear events. intros e events IH. rewrite listener_run_app. cbn [fst snd].
  pose proof (listener_reached_inv random maximum backlog idle local_port events Hb) as Hi. fold start in Hi.
  set (self := (run events start).2) in *. destruct IH as (Hpos & IH1 & IH2).
  pose proof (listener_step_offers backlog e self Hi) as (new & En & Eq & Ep & Hall & Hmono).
  simpl. destruct (step e self) as [out self']. cbn [fst snd] in *.
  rewrite accepted_sockets_app, <- app_assoc. unfold backlog_view in *. rewrite Eq, app_assoc.
  split_and!; [lia| |].
  - by rewrite map_app, IH1, Ep, En, seqZ_app by lia.
  - apply Forall_app. split; [by eapply Forall_impl|]. eapply Forall_impl; [|exact Hall]. by intros socket [].
Qed.

(** *** Closing the listener *)

Lemma collect_remaining_peers addresses self : peers (collect_remaining addresses self).2 = peers self.
Proof.
  revert self. induction addresses as [|a addresses IH]; intros self; simpl; [done|].
  case_if; [done|]. case_bool_decide; [|apply IH].
  match goal with |- context [collect_remaining addresses ?x] => specialize (IH x);
    destruct (collect_remaining addresses x) end. exact IH.
Qed.

Lemma close_all_peers (open : list (SocketAddr * SessionSender)) self id p :
  peers self !! id = Some p ->
  peers (foldr (fun '(_, s) self => close_peer (close s) self) self open) !! id =
    Some (mk_peer (remote p) (inbox p) (closed p || bool_decide (id ∈ map (fun x => close x.2) open))).
Proof.
  intros Hp. induction open as [|[a s] open IH]; simpl.
  - rewrite Hp. destruct p as [r i c]. simpl. by rewrite orb_false_r.
  - destruct (decide (close s = id)) as [Heq|Hne].
    + rewrite Heq, lookup_alter_eq, IH. simpl. f_equal. f_equal. rewrite bool_decide_eq_true_2 by set_solver.
      by rewrite orb_true_r.
    + rewrite lookup_alter_ne, IH by done. do 3 f_equal. apply bool_decide_ext. set_solver.
Qed.

Lemma listener_run_open events self :
  socket_open (run events self).2 = socket_open self /\ listened (run events self).2 = listened self.
Proof.
  revert self. induction events as [|e events IH]; intros self; simpl; [done|].
  destruct (listener_step_open e self) as [H1 H2]. destruct (step e self) as [o s1].
  destruct (IH s1) as [H3 H4]. destruct (run events s1). simpl in *. split; congruence.
Qed.

Lemma close_listener_ends backlog addresses self :
  listener_inv backlog self -> socket_open self = true -> listened self = true ->
  let out := close_listener addresses self in
  (forall addr s, sessions self !! addr = Some s ->
     (addr, [PacketID.to_u8 PacketID.Disconnect]) ∈ out.1 /\
     exists p, peers out.2 !! close s = Some p /\ remote p = addr /\ closed p = true) /\
  sessions out.2 = ∅ /\ version_map out.2 = ∅ /\ listened out.2 = false /\ socket_open out.2 = false.
Proof.
  intros Hi Ho Hl. unfold close_listener. rewrite Ho. simpl. rewrite Hl. simpl.
  unfold collect_all. simpl.
  match goal with |- context [collect_remaining addresses ?x] =>
    pose proof (collect_remaining_peers addresses x) as Hpeers; destruct (collect_remaining addresses x) as [sent' s1] end.
  cbn [fst snd] in *. split_and!; try done. intros addr s Hs.
  destruct (li_sessions _ _ Hi _ _ Hs) as (Hsc & _ & p & Hp & Hr). rewrite Hsc in Hp.
  apply elem_of_map_to_list in Hs as Hin. split.
  - simpl. apply elem_of_app. left. apply list_elem_of_fmap. by exists (addr, s).
  - simpl. rewrite Hpeers, (close_all_peers _ _ _ p) by done. eexists. split; [done|].
    split; [done|]. simpl. rewrite bool_decide_eq_true_2; [by rewrite orb_true_r|].
    apply list_elem_of_fmap. by exists (addr, s).
Qed.

(** Closing ends every session. Whatever happened before, closing the listener sends a
    disconnect to every address that has a session, closes the connection of every session,
    empties the session and version tables whatever connections report back, and makes
    every later [accept] fail. *)
Theorem closing_ends_every_session random maximum backlog idle local_port events addresses :
  0 <= backlog ->
  let self := (run events (started random maximum backlog idle local_port)).2 in
  let out := close_listener addresses self in
  (forall addr s, sessions self !! addr = Some s ->
     (addr, [PacketID.to_u8 PacketID.Disconnect]) ∈ out.1 /\
     exists p, peers out.2 !! close s = Some p /\ remote p = addr /\ closed p = true) /\
  sessions out.2 = ∅ /\ version_map out.2 = ∅ /\
  (forall take_close, (accept take_close out.2).1 = Some (Err NotListen)).
Proof.
  intros Hb self out.
  pose proof (listener_reached_inv random maximum backlog idle local_port events Hb) as Hi. fold self in Hi.
  destruct (listener_run_open events (started random maximum backlog idle local_port)) as [Ho Hl].
  destruct (close_listener_ends backlog addresses self Hi Ho Hl) as (H1 & H2 & H3 & H4 & _).
  do 3 (split; [done|]). intros tc. unfold accept. unfold out. by rewrite H4.
Qed.
End Listener.

(** ** The theorems at work

    A client negotiates with a listener, sends a datagram, and the application accepts it. *)

Definition sample_client : SocketAddr := V4 (mk_ipv4 127 0 0 1) 50000.

Definition bytes_or_none (r : Result (list Z)) : list Z := match r with Ok bs => bs | Err _ => [] end.

Definition sample_request_1 : list Z :=
  bytes_or_none (write_packet_connection_open_request_1 (mk_OpenConnectionRequest1 11 1200)).

Definition sample_request_2 : list Z :=
  bytes_or_none (write_packet_connection_open_request_2
    (mk_OpenConnectionRequest2 (V4 (mk_ipv4 127 0 0 1) 19132) 1200 77)).

Definition sample_negotiation : list event :=
  [Datagram 5 0 true sample_request_1 sample_client; Datagram 6 1 true sample_request_2 sample_client;
   Datagram 7 2 true [0x84; 1; 2; 3] sample_client; Accept false].

Definition sample_listener : Listener Channel := started 42 1400 8 false 19132.

Lemma dispatch_cache_is_transparent_witness :
  (run sample_negotiation sample_listener).1 = (run_uncached sample_negotiation sample_listener).1.
Proof. exact (proj1 (dispatch_cache_is_transparent 42 1400 8 false 19132 sample_negotiation ltac:(lia))). Defined.

Lemma listener_tables_bounded_witness :
  let events := sample_negotiation ++ [MotdChanged; ReceiveFails; Cleanup 40] in
  let self := (run events sample_listener).2 in
  Stops ∈ (run events sample_listener).1 /\ receiving (run (take 5 events) sample_listener).2 = true /\
  dom (version_map self) = dom (sessions self).
Proof.
  cbv zeta.
  destruct (listener_tables_bounded 42 1400 8 false 19132 (sample_negotiation ++ [MotdChanged; ReceiveFails; Cleanup 40])
    ltac:(lia)) as ([_ Hs] & _ & _ & _ & Hd & _).
  destruct (listener_tables_bounded 42 1400 8 false 19132 (take 5 (sample_negotiation ++ [MotdChanged; ReceiveFails; Cleanup 40]))
    ltac:(lia)) as (_ & [_ Hr] & _).
  split; [|split; [|exact Hd]].
  - apply Hs. apply (bool_decide_eq_true_1 (ReceiveFails ∈ _)). vm_compute. reflexivity.
  - apply Hr. apply (bool_decide_eq_true_1 (ReceiveFails ∉ _)). vm_compute. reflexivity.
Defined.

Lemma reply_2_is_backed_by_session_witness :
  exists bs s,
    (step (Datagram 6 1 true sample_request_2 sample_client)
       (run (take 1 sample_negotiation) sample_listener).2).1 = Sends [(sample_client, bs)] /\
    sessions (step (Datagram 6 1 true sample_request_2 sample_client)
       (run (take 1 sample_negotiation) sample_listener).2).2 !! sample_client = Some s /\
    61 <= session_mtu s <= 1400.
Proof.
  assert (exists bs, (step (Datagram 6 1 true sample_request_2 sample_client)
       (run (take 1 sample_negotiation) sample_listener).2).1 = Sends [(sample_client, bs)] /\
       head bs = Some 0x08) as (bs & Hout & Hid) by (vm_compute; eauto).
  destruct (reply_2_is_backed_by_session 42 1400 8 false 19132 (take 1 sample_negotiation) 6 1 true
    sample_request_2 sample_client [(sample_client, bs)] sample_client bs ltac:(lia) Hout
    (list_elem_of_here _ _) Hid) as (_ & req & s & _ & _ & Hs & _ & Hm & _).
  exists bs, s. split; [exact Hout|]. split; [exact Hs|exact Hm].
Defined.

Lemma sessions_end_only_when_witness :
  let self := (run (sample_negotiation ++ [PeerEnds 0]) sample_listener).2 in
  exists s p, sessions self !! sample_client = Some s /\ peers self !! sender s = Some p /\
    (closed p = true \/ is_closed (inbox p) = true).
Proof.
  cbv zeta.
  assert (exists s, sessions (run (sample_negotiation ++ [PeerEnds 0]) sample_listener).2 !! sample_client = Some s)
    as [s Hs] by (vm_compute; eauto).
  assert (sessions (step (Datagram 9 3 true [0x84] sample_client)
    (run (sample_negotiation ++ [PeerEnds 0]) sample_listener).2).2 !! sample_client = None) as Hend
    by (vm_compute; reflexivity).
  destruct (sessions_end_only_when 42 1400 8 false 19132 (sample_negotiation ++ [PeerEnds 0])
    (Datagram 9 3 true [0x84] sample_client) sample_client s ltac:(lia) Hs)
    as [(t & n & b & buf & He & Hb)|(p & Hp & Hc)].
  - intros Hx. pose proof (eq_trans (eq_sym Hend) Hx). discriminate.
  - injection He as <- <- <- <-. discriminate.
  - exists s, p. split; [exact Hs|]. split; [exact Hp|exact Hc].
Defined.

Lemma datagrams_reach_their_connection_witness :
  let self := (run (take 2 sample_negotiation) sample_listener).2 in
  let self' := (step (Datagram 7 2 true [0x84; 1; 2; 3] sample_client) self).2 in
  exists p p', peers self !! 0 = Some p /\ peers self' !! 0 = Some p' /\
    queued (inbox p') = [[0x84; 1; 2; 3]] /\ remote p' = remote p.
Proof.
  cbv zeta.
  assert (exists p, peers (run (take 2 sample_negotiation) sample_listener).2 !! 0 = Some p) as [p Hp]
    by (vm_compute; eauto).
  assert (exists p', peers (step (Datagram 7 2 true [0x84; 1; 2; 3] sample_client)
    (run (take 2 sample_negotiation) sample_listener).2).2 !! 0 = Some p' /\
    queued (inbox p') = [[0x84; 1; 2; 3]]) as (p' & Hp' & Hq)
    by (vm_compute; eauto).
  exists p, p'. split; [exact Hp|]. split; [exact Hp'|]. split; [exact Hq|].
  exact (proj1 (datagrams_reach_their_connection 42 1400 8 false 19132 (take 2 sample_negotiation)
    7 2 true [0x84; 1; 2; 3] sample_client 0 p p' ltac:(lia) Hp Hp')).
Defined.

Lemma connections_offered_once_witness :
  map peer (accepted_sockets (run sample_negotiation sample_listener).1 ++
    queued (view (connection (run sample_negotiation sample_listener).2))) = [0].
Proof.
  etrans; [exact (proj1 (connections_offered_once 42 1400 8 false 19132 sample_negotiation ltac:(lia)))|].
  vm_compute. reflexivity.
Defined.

Lemma closing_ends_every_session_witness :
  let out := close_listener [] (run sample_negotiation sample_listener).2 in
  sessions out.2 = ∅ /\ (accept false out.2).1 = Some (Err NotListen).
Proof.
  destruct (closing_ends_every_session 42 1400 8 false 19132 sample_negotiation [] ltac:(lia))
    as (_ & Hs & _ & Ha).
  split; [exact Hs|exact (Ha false)].
Defined.
