(* ===== verification/Shards.v ===== *)
(** * Listeners in a group

    [RaknetListener::bind_with_socket_shards] of [src/src/server.rs] binds several sockets to
    one address: a parent and its shards, each with tasks, tables and a dispatch cache of its
    own. What they share they share through handles: the channel to [accept] and the watch
    channel of the MOTD live in a store, and every listener of the group has a [Sender] into
    the one and both ends of the other. That the handles of all members lead to the same
    channels is not built in: the constructors and builders see to it, and the invariant
    [shares] says so. The application holds the parent only. *)

From S2P Require Import Prelude Errors Datatype Packet PacketCodec Runtime Server ServerInv.

(** The channels, by handle. *)
Record Store (chan : Type -> Type) := mk_store {
  backlogs : gmap Z (chan Accepted); motds : gmap Z (list Z); next_handle : Z }.
Arguments mk_store {_} _ _ _.
Arguments backlogs {_} _.
Arguments motds {_} _.
Arguments next_handle {_} _.

(** A listener with its handles. The fields [connection], [announced] and [motd_held] of
    [own] are placeholders: a turn puts the contents of the channels there. *)
Record Shard (chan : Type -> Type) := mk_shard {
  own : Listener chan;
  connection_sender : Z;
  connection_receiver : Z;
  motd_sender : Z;
  motd_receiver : Z }.
Arguments mk_shard {_} _ _ _ _ _.
Arguments own {_} _.
Arguments connection_sender {_} _.
Arguments connection_receiver {_} _.
Arguments motd_sender {_} _.
Arguments motd_receiver {_} _.

Record Group (chan : Type -> Type) := mk_group {
  parent : Shard chan; shards : list (Shard chan); store : Store chan }.
Arguments mk_group {_} _ _ _.
Arguments parent {_} _.
Arguments shards {_} _.
Arguments store {_} _.

(** What a socket option or [bind] of the operating system answers in [bind_socket], and
    [set_nonblocking] in [from_std] and [local_addr] after it. *)
Inductive Binding : Set := NoSocket | NoReusePort | NoBuffer | NoAddress | NoAsync | NoLocal | Bound.
#[export] Instance Binding_eq_dec : EqDecision Binding.
Proof. solve_decision. Defined.

Definition bind_socket (b : Binding) : Result unit :=
  match b with
  | NoSocket | NoAddress => Err BindAddressError
  | NoReusePort | NoBuffer => Err SocketError
  | NoAsync | NoLocal | Bound => Ok tt
  end.

Section Group.
Context `{Mpsc chan}.
Implicit Types (g : Group chan) (l p : Listener chan) (s shard : Shard chan) (st : Store chan).

(** ** Turns

    A turn of a listener works on the channels its handles lead to. *)

Definition with_own (f : Listener chan -> Listener chan) s : Shard chan :=
  mk_shard (f (own s)) (connection_sender s) (connection_receiver s) (motd_sender s) (motd_receiver s).

(** The parent, and the shards after it. *)
Definition shard_at (i : nat) g : option (Shard chan) :=
  match i with O => Some (parent g) | S k => shards g !! k end.

Definition put_shard (i : nat) s g : Group chan :=
  match i with
  | O => mk_group s (shards g) (store g)
  | S k => mk_group (parent g) (<[k := s]> (shards g)) (store g)
  end.

(** Whether a sender of the watch channel is left. *)
Definition motd_alive (handle : Z) g : bool :=
  existsb (fun s => motd_sender s =? handle) (parent g :: shards g).

Definition load (backlog text : Z) s g : option (Listener chan) :=
  match backlogs (store g) !! backlog, motds (store g) !! text with
  | Some c, Some t => Some (own s <| connection := c |> <| announced := t |> <| motd_held := motd_alive text g |>)
  | _, _ => None
  end.

Definition save (backlog text : Z) (i : nat) s l g : Group chan :=
  let kept := l <| connection := connection (own s) |> <| announced := announced (own s) |>
                <| motd_held := motd_held (own s) |> in
  let g := put_shard i (with_own (fun _ => kept) s) g in
  mk_group (parent g) (shards g)
    (mk_store (<[backlog := connection l]> (backlogs (store g))) (<[text := announced l]> (motds (store g)))
       (next_handle (store g))).

(** [None]: there is no such listener. *)
Definition turn {A} (i : nat) (backlog text : Shard chan -> Z) (f : Listener chan -> A * Listener chan) g : option (A * Group chan) :=
  match shard_at i g with
  | Some s =>
      match load (backlog s) (text s) s g with
      | Some l => let '(a, l) := f l in Some (a, save (backlog s) (text s) i s l g)
      | None => None
      end
  | None => None
  end.

(** A listener as its receiving task sees it. *)
Definition member (i : nat) g : option (Listener chan) :=
  match shard_at i g with
  | Some s => load (connection_sender s) (motd_receiver s) s g
  | None => None
  end.

(** ** Construction *)

(** [from_udp_socket]: two channels of its own. *)
Definition from_udp_socket (random : Z) st : Shard chan * Store chan :=
  let handle := next_handle st in
  (mk_shard (Server.from_udp_socket random) handle handle handle handle,
   mk_store (<[handle := channel 128]> (backlogs st)) (<[handle := []]> (motds st)) (handle + 1)).

(** [from_std], the socket being bound. *)
Definition from_std (b : Binding) (random : Z) st : Result (Shard chan * Store chan) :=
  if bool_decide (b = NoAsync) then Err SetRaknetRawSocketError else Ok (from_udp_socket random st).

Definition empty_store : Store chan := mk_store ∅ ∅ 0.

(** A listener on its own. *)
Definition alone (b : Binding) (random : Z) : Result (Group chan) :=
  bound ← from_std b random empty_store; Ok (mk_group bound.1 [] bound.2).

(** [bind] asks for no [SO_REUSEPORT] and tolerates a receive buffer that stays small. *)
Definition bind (b : Binding) (random : Z) : Result (Group chan) :=
  if bool_decide (b = NoSocket \/ b = NoAddress) then Err BindAddressError else alone b random.

Definition bind_with_receive_buffer_size (size : Z) (b : Binding) (random : Z) : Result (Group chan) :=
  if 2 ^ 31 - 1 <? size then Err SocketError
  else if bool_decide (b = NoSocket \/ b = NoAddress) then Err BindAddressError
  else if bool_decide (b = NoBuffer) then Err SocketError
  else alone b random.

Definition bind_with_maximum_mtu (maximum : Z) (b : Binding) (random : Z) : Result (Group chan) :=
  if negb ((61 <=? maximum) && (maximum <=? RAKNET_MAX_MTU)) then Err PacketSizeExceedMTU
  else
    g ← bind b random;
    Ok (mk_group (with_own (fun l => l <| maximum_mtu := maximum |>) (parent g)) (shards g) (store g)).

(** The loop of [bind_with_socket_shards]: a shard keeps the receiver of its own channel. *)
Fixpoint bind_shards (bindings : list (Binding * Z)) (listener : Shard chan) st : Result (list (Shard chan) * Store chan) :=
  match bindings with
  | [] => Ok ([], st)
  | (b, random) :: bindings =>
      _ ← bind_socket b;
      bound ← from_std b random st;
      let shard := bound.1 in
      let shard := mk_shard (own shard <| guid := guid (own listener) |>) (connection_sender listener)
                     (connection_receiver shard) (motd_sender listener) (motd_receiver listener) in
      rest ← bind_shards bindings listener bound.2;
      Ok (shard :: rest.1, rest.2)
  end.

(** [bind_with_socket_shards]: a socket for every element of [bindings], with the GUID its
    constructor draws; there is at least one. *)
Definition bind_with_socket_shards (bindings : list (Binding * Z)) : Result (Group chan) :=
  match bindings with
  | [] => Err SocketError
  | [(b, random)] => bind b random
  | (b, random) :: rest =>
      if 64 <? zlen bindings then Err SocketError
      else
        _ ← bind_socket b;
        bound ← from_std b random empty_store;
        let listener := bound.1 in
        _ ← (if bool_decide (b = NoLocal) then Err SocketError else Ok tt);
        rest ← bind_shards rest listener bound.2;
        Ok (mk_group listener rest.1 rest.2)
  end.

(** The builders panic ([None]) once the listener listens. *)
Definition unless_listening (f : Group chan -> Group chan) g : option (Group chan) :=
  if listened (own (parent g)) then None else Some (f g).

(** A new channel, whose sender goes to every shard and to the parent, and its receiver to
    the parent, which drops the old one. *)
Definition with_accept_backlog (backlog : Z) : Group chan -> option (Group chan) :=
  unless_listening (fun g =>
    let sender := next_handle (store g) in
    let hand_over (shard : Shard chan) := mk_shard (own shard) sender (connection_receiver shard) (motd_sender shard) (motd_receiver shard) in
    let self := parent g in
    mk_group (mk_shard (own self) sender sender (motd_sender self) (motd_receiver self)) (map hand_over (shards g))
      (mk_store (<[sender := channel backlog]> (alter drop_receiver (connection_receiver self) (backlogs (store g))))
         (motds (store g)) (sender + 1))).

Definition on_all (f : Listener chan -> Listener chan) g : Group chan :=
  mk_group (with_own f (parent g)) (map (with_own f) (shards g)) (store g).

Definition with_idle_maintenance (enabled : bool) : Group chan -> option (Group chan) :=
  unless_listening (on_all (fun l => l <| idle_maintenance := enabled |>)).

Definition with_receive_batching (enabled : bool) : Group chan -> option (Group chan) :=
  unless_listening (on_all (fun l => l <| receive_batching := enabled |>)).

(** ** Listening, and what the application calls *)

(** [listen_single]; the port is that of the group's address, the MOTD goes to the watch
    channel through the listener's sender. *)
Definition listen_member (port : Z) (i : nat) g : Group chan :=
  match turn i connection_sender motd_sender (fun l => (tt, Server.listen port l)) g with
  | Some (_, g) => g
  | None => g
  end.

(** [shard.motd = self.motd.clone()] *)
Definition adopt_motd (text : list Z) : Shard chan -> Shard chan := with_own (fun l => l <| motd := text |>).

Definition listen (port : Z) g : Group chan :=
  if close_notifier (own (parent g)) || listened (own (parent g)) then g
  else
    let g := mk_group (parent g) (map (adopt_motd (motd (own (parent g)))) (shards g)) (store g) in
    let g := listen_member port 0 g in
    foldl (fun g k =>
             listen_member port (S k)
               (mk_group (parent g) (alter (adopt_motd (motd (own (parent g)))) k (shards g)) (store g)))
      g (seq 0 (length (shards g))).

Definition accept (take_close : bool) g : option (Result Accepted) * Group chan :=
  default (None, g) (turn 0 connection_receiver motd_receiver (Server.accept take_close) g).

Definition set_full_motd (text : list Z) g : Group chan :=
  from_option snd g (turn 0 connection_sender motd_sender (fun l => (tt, Server.set_full_motd text l)) g).

Definition get_motd g : list Z := motd (own (parent g)).

Definition get_peer_raknet_version (addr : SocketAddr) g : Z :=
  Server.get_peer_raknet_version (map own (shards g)) addr (own (parent g)).

(** [close_single] of the members from [i] on; [addresses] is what their collecting tasks
    receive before they end. *)
Fixpoint close_members (addresses : nat -> list SocketAddr) (i count : nat) g : list (SocketAddr * list Z) * Group chan :=
  match count with
  | O => ([], g)
  | S count =>
      let '(sent, g) := default ([], g) (turn i connection_sender motd_receiver (close_listener (addresses i)) g) in
      let '(sent', g) := close_members addresses (S i) count g in
      (sent ++ sent', g)
  end.

(** [close]: the whole group is signalled before any socket is released. *)
Definition signal (l : Listener chan) : Listener chan := l <| close_notifier := true |>.

Definition close (addresses : nat -> list SocketAddr) g : list (SocketAddr * list Z) * Group chan :=
  close_members addresses 0 (S (length (shards g))) (on_all signal g).

(** ** Histories

    A turn of the tasks of member [i], or a call of the application, which reaches the
    parent: [accept] through its receiver, a new MOTD through its sender. *)

Definition owner (i : nat) (e : event) : nat :=
  match e with Accept _ | SetMotd _ => O | _ => i end.

Definition backlog_handle (e : event) : Shard chan -> Z :=
  match e with Accept _ => connection_receiver | _ => connection_sender end.

Definition motd_handle (e : event) : Shard chan -> Z :=
  match e with SetMotd _ => motd_sender | _ => motd_receiver end.

Definition step (i : nat) (e : event) g : output * Group chan :=
  default (Sends [], g) (turn (owner i e) (backlog_handle e) (motd_handle e) (Server.step e) g).

Fixpoint run (events : list (nat * event)) g : list output * Group chan :=
  match events with
  | [] => ([], g)
  | (i, e) :: events =>
      let '(out, g) := step i e g in
      let '(outs, g) := run events g in
      (out :: outs, g)
  end.

(** The sockets that wait for [accept]. *)
Definition waiting g : list Accepted :=
  match backlogs (store g) !! connection_receiver (parent g) with Some c => queued (view c) | None => [] end.

(** A turn that changes nothing leaves the group as it is; such is an [accept] that keeps
    waiting. *)
Lemma save_back backlog text i s g l :
  shard_at i g = Some s -> load backlog text s g = Some l -> save backlog text i s l g = g.
Proof.
  intros Hs. unfold load, save. destruct (backlogs (store g) !! backlog) as [c|] eqn:Ec; [|done].
  destruct (motds (store g) !! text) as [t|] eqn:Et; [|done]. intros [= <-]. cbn.
  rewrite insert_id by (by destruct i). rewrite insert_id by (by destruct i).
  assert (forall x : Listener chan, x <| connection := c |> <| announced := t |> <| motd_held := motd_alive text g |>
    <| connection := connection x |> <| announced := announced x |> <| motd_held := motd_held x |> = x) as E by (by intros []).
  unfold with_own. rewrite E. clear E.
  assert (put_shard i (mk_shard (own s) (connection_sender s) (connection_receiver s) (motd_sender s) (motd_receiver s)) g = g) as ->.
  { destruct s, g as [p ss st], i as [|k]; simpl in *; [by injection Hs as ->|]. by rewrite list_insert_id. }
  by destruct g as [p ss []].
Qed.

Lemma accept_waits take_close g g' : accept take_close g = (None, g') -> g' = g.
Proof.
  unfold accept, turn. cbn [shard_at].
  destruct (load (connection_receiver (parent g)) (motd_receiver (parent g)) (parent g) g) as [l|] eqn:El; [|by intros [= <-]].
  unfold Server.accept. destruct (negb (listened l)); [done|]. destruct (close_notifier l && take_close); [done|].
  pose proof (try_recv_none _ (connection l)) as Hn. destruct (try_recv (connection l)) as [[socket|] c]; [done|].
  simpl in Hn. rewrite (Hn eq_refl). destruct (close_notifier l); [done|]. simpl. intros [= <-].
  assert (l <| connection := connection l |> = l) as -> by (by destruct l). by apply save_back.
Qed.

(** ** Sharing *)

Record shares g : Prop := {
  sh_receiver : connection_receiver (parent g) = connection_sender (parent g);
  sh_handles : forall i s, shard_at i g = Some s ->
    connection_sender s = connection_sender (parent g) /\
    motd_sender s = motd_sender (parent g) /\ motd_receiver s = motd_sender (parent g);
  sh_backlog : is_Some (backlogs (store g) !! connection_sender (parent g));
  sh_motd : is_Some (motds (store g) !! motd_sender (parent g));
}.

(** A listener over the contents of the shared channels. *)
Definition placed (c : chan Accepted) (t : list Z) l : Listener chan :=
  l <| connection := c |> <| announced := t |> <| motd_held := true |>.

(** What a member sees of another's turn. *)
Definition join p l : Listener chan := l <| connection := connection p |> <| announced := announced p |>.

Lemma alive g : motd_alive (motd_sender (parent g)) g = true.
Proof. unfold motd_alive. simpl. by rewrite Z.eqb_refl. Qed.

Lemma load_shared g s c t :
  backlogs (store g) !! connection_sender (parent g) = Some c -> motds (store g) !! motd_sender (parent g) = Some t ->
  load (connection_sender (parent g)) (motd_sender (parent g)) s g = Some (placed c t (own s)).
Proof. intros Hc Ht. unfold load. by rewrite Hc, Ht, alive. Qed.

Lemma shared_members g :
  shares g -> exists c t,
    backlogs (store g) !! connection_sender (parent g) = Some c /\ motds (store g) !! motd_sender (parent g) = Some t /\
    forall i, member i g = (fun s => placed c t (own s)) <$> shard_at i g.
Proof.
  intros [_ Hh [c Hc] [t Ht]]. exists c, t. do 2 (split; [done|]). intros i. unfold member.
  destruct (shard_at i g) as [s|] eqn:Es; [|done]. destruct (Hh i s Es) as (-> & _ & ->). by apply load_shared.
Qed.

Lemma shard_at_some i g : is_Some (shard_at i g) <-> (i < S (length (shards g)))%nat.
Proof. destruct i as [|k]; simpl; [split; [lia|by eexists]|]. rewrite lookup_lt_is_Some. lia. Qed.

Lemma member_some i g : shares g -> is_Some (member i g) <-> (i < S (length (shards g)))%nat.
Proof.
  intros Hg. destruct (shared_members g Hg) as (c & t & _ & _ & ->). by rewrite fmap_is_Some, shard_at_some.
Qed.

Lemma shard_at_put i j s g :
  is_Some (shard_at i g) -> shard_at j (put_shard i s g) = if decide (i = j) then Some s else shard_at j g.
Proof.
  intros Hi. destruct i as [|k], j as [|m]; simpl in *; try done. apply lookup_lt_is_Some in Hi.
  destruct (decide (S k = S m)) as [[= <-]|Hne]; [by rewrite list_lookup_insert_eq|].
  rewrite list_lookup_insert_ne by congruence. done.
Qed.

(** A turn of a member, the channels being shared. *)
Definition update (i : nat) l g : Group chan :=
  match shard_at i g with
  | Some s => save (connection_sender (parent g)) (motd_sender (parent g)) i s l g
  | None => g
  end.

Lemma turn_shared {A} i (backlog text : Shard chan -> Z) (f : Listener chan -> A * Listener chan) g l :
  shares g -> member i g = Some l ->
  (forall s, shard_at i g = Some s -> backlog s = connection_sender (parent g) /\ text s = motd_sender (parent g)) ->
  turn i backlog text f g = Some ((f l).1, update i (f l).2 g).
Proof.
  intros Hg Hi Hh. unfold turn, update. destruct (shared_members g Hg) as (c & t & Hc & Ht & Hm). rewrite Hm in Hi.
  destruct (shard_at i g) as [s|]; [|done]. injection Hi as <-. destruct (Hh s eq_refl) as [-> ->].
  rewrite (load_shared g s c t Hc Ht). by destruct (f _).
Qed.

Lemma update_shards i l g j :
  shard_at j (update i l g) =
    if decide (i = j)
    then with_own (fun k => l <| connection := connection k |> <| announced := announced k |> <| motd_held := motd_held k |>) <$> shard_at i g
    else shard_at j g.
Proof.
  unfold update. destruct (shard_at i g) as [s|] eqn:Es; [|by case_decide; subst].
  change (shard_at j (save ?b ?t i s l g)) with (shard_at j (put_shard i (with_own (fun k => l <| connection := connection k |>
    <| announced := announced k |> <| motd_held := motd_held k |>) s) g)). by rewrite shard_at_put by (by rewrite Es).
Qed.

Lemma update_parent i l g :
  connection_sender (parent (update i l g)) = connection_sender (parent g) /\
  connection_receiver (parent (update i l g)) = connection_receiver (parent g) /\
  motd_sender (parent (update i l g)) = motd_sender (parent g) /\
  guid (own (parent (update i l g))) = (match i with O => guid l | S _ => guid (own (parent g)) end) /\
  motd (own (parent (update i l g))) = match i with O => motd l | S _ => motd (own (parent g)) end.
Proof. unfold update. destruct i as [|k]; simpl; [done|]. by destruct (shards g !! k). Qed.

Lemma update_length i l g : length (shards (update i l g)) = length (shards g).
Proof. unfold update. destruct i as [|k]; simpl; [done|]. destruct (shards g !! k); [|done]. simpl. apply length_insert. Qed.

Lemma update_store i l g :
  is_Some (shard_at i g) ->
  backlogs (store (update i l g)) !! connection_sender (parent g) = Some (connection l) /\
  motds (store (update i l g)) !! motd_sender (parent g) = Some (announced l).
Proof. intros [s Hs]. unfold update. rewrite Hs. simpl. by rewrite !lookup_insert_eq. Qed.

Lemma update_shares i l g : shares g -> is_Some (shard_at i g) -> shares (update i l g).
Proof.
  intros [Hr Hh _ _] Hi. destruct (update_parent i l g) as (E1 & E2 & E3 & _). destruct (update_store i l g Hi) as [Hc Ht].
  split; rewrite ?E1, ?E2, ?E3; [done| |by eexists..].
  intros j s. rewrite update_shards. case_decide as Hd; [|apply Hh].
  intros (x & Hx & ->)%fmap_Some. exact (Hh i x Hx).
Qed.

Lemma member_update i l g j :
  shares g -> is_Some (member i g) -> motd_held l = true ->
  member j (update i l g) = if decide (i = j) then Some l else join l <$> member j g.
Proof.
  intros Hg Hi Hl. pose proof (proj2 (shard_at_some i g) (proj1 (member_some i g Hg) Hi)) as Hs.
  destruct (shared_members _ (update_shares i l g Hg Hs)) as (c & t & Hc & Ht & ->).
  destruct (update_parent i l g) as (E1 & _ & E3 & _). rewrite E1, (proj1 (update_store i l g Hs)) in Hc.
  rewrite E3, (proj2 (update_store i l g Hs)) in Ht. simplify_eq. rewrite update_shards.
  destruct (shared_members g Hg) as (c & t & _ & _ & ->). case_decide.
  - destruct Hs as [s ->]. simpl. f_equal. destruct l. simpl in Hl. by subst.
  - by destruct (shard_at j g).
Qed.

Lemma members_connection i j l x g :
  shares g -> member i g = Some l -> member j g = Some x -> connection l = connection x /\ announced l = announced x.
Proof.
  intros Hg. destruct (shared_members g Hg) as (c & t & _ & _ & Hm). rewrite !Hm.
  by intros (? & _ & ->)%fmap_Some (? & _ & ->)%fmap_Some.
Qed.

(** What waits is in every member's view. *)
Lemma waiting_member i l g : shares g -> member i g = Some l -> waiting g = queued (view (connection l)).
Proof.
  intros Hg. destruct (shared_members g Hg) as (c & t & Hc & _ & Hm). rewrite Hm. intros (s & _ & ->)%fmap_Some.
  unfold waiting. by rewrite (sh_receiver _ Hg), Hc.
Qed.

(** Changes of the members' own parts. *)
Lemma refit (F : nat -> Listener chan -> Listener chan) g g' :
  shares g -> store g' = store g -> (forall i, shard_at i g' = with_own (F i) <$> shard_at i g) ->
  (forall i l c t, F i (placed c t l) = placed c t (F i l)) ->
  shares g' /\ forall i, member i g' = F i <$> member i g.
Proof.
  intros Hg Es Hs HF. assert (Some (parent g') = with_own (F 0%nat) <$> Some (parent g)) as Ep by exact (Hs 0%nat).
  injection Ep as Ep. destruct Hg as [Hr Hh Hc Ht].
  assert (shares g') as Hg'.
  { split; rewrite ?Es, ?Ep; [done| |done..]. intros i s Hi. rewrite Hs in Hi. apply fmap_Some in Hi as (x & Hx & ->).
    exact (Hh i x Hx). }
  split; [done|]. intros i. destruct (shared_members g' Hg') as (c & t & Hc1 & Ht1 & ->).
  destruct (shared_members g (Build_shares g Hr Hh Hc Ht)) as (c2 & t2 & Hc2 & Ht2 & ->).
  rewrite Es, Ep in Hc1, Ht1. simpl in Hc1, Ht1. simplify_eq. rewrite Hs.
  destruct (shard_at i g) as [s|]; [|done]. simpl. f_equal. symmetry. apply HF.
Qed.

Lemma on_all_members f g :
  shares g -> (forall l c t, f (placed c t l) = placed c t (f l)) ->
  shares (on_all f g) /\ forall i, member i (on_all f g) = f <$> member i g.
Proof.
  intros Hg Hf. apply (refit (fun _ => f) g); [done|done| |done]. intros [|k]; [done|]. simpl. apply list_lookup_fmap.
Qed.
End Group.

(** ** Invariant *)

Section Invariant.
Context `{Mpsc chan}.
Implicit Types (g : Group chan) (l p : Listener chan) (e : event) (socket : Accepted).

(** The kernel sends the datagrams of an address to one socket of the group. *)
Context (route : SocketAddr -> nat).

Definition from_member (i : nat) (sockets : list Accepted) : list Accepted :=
  filter (fun socket => route (peer_addr socket) = i) sockets.

Record member_inv (backlog : Z) (offered : list Accepted) (identity : Z) (i : nat) l : Prop := {
  mi_listener : listener_inv backlog l;
  mi_listened : listened l = true;
  mi_open : socket_open l = true;
  mi_signal : close_notifier l = false;
  mi_guid : guid l = identity;
  mi_next : 0 <= next_peer l;
  mi_offered : map peer (from_member i offered) = seqZ 0 (next_peer l);
  mi_wf : Forall (offered_wf l) (from_member i offered);
  mi_sessions : forall addr s, sessions l !! addr = Some s -> route addr = i;
}.

Record group_inv (backlog : Z) (accepted : list Accepted) g : Prop := {
  gv_shares : shares g;
  gv_members : forall i l, member i g = Some l ->
    member_inv backlog (accepted ++ waiting g) (guid (own (parent g))) i l;
  gv_routes : forall socket, socket ∈ accepted ++ waiting g -> is_Some (member (route (peer_addr socket)) g);
}.

(** What the others share after a turn. *)
Lemma join_inv backlog offered offered' identity i l x :
  member_inv backlog offered identity i l -> listener_inv backlog x ->
  from_member i offered' = from_member i offered -> member_inv backlog offered' identity i (join x l).
Proof.
  intros [Hl H1 H2 H3 H4 H5 H6 H7 H8] Hx E. destruct Hl as [L P C Ha S F V N [O M] R K B], Hx as [L' P' C' Ha' S' F' V' N' [O' M'] R' K' B'].
  by split; rewrite ?E.
Qed.

(** A session is created for the sender of the turn's datagram. *)
Lemma step_sessions backlog e l addr s :
  listener_inv backlog l -> sessions (Server.step e l).2 !! addr = Some s ->
  is_Some (sessions l !! addr) \/ sender_of e = Some addr.
Proof.
  intros Hi. destruct e as [timestamp now sent buf a| |now| | |a| |text|take_close|id|id|id]; cbn [Server.step];
    try (by eauto); try (apply receive_elim; [by eauto|intros ? ? _ [= _ <-]; by eauto|intros ? _ [= _ <-]; by eauto]).
  - pose proof (on_datagram_effect backlog timestamp now sent buf a l Hi) as He. unfold receive.
    destruct (receiving l); [|by eauto]. destruct (on_datagram timestamp now sent buf a l) as [f l']. cbn [fst snd] in He.
    replace (sessions _) with (sessions l') by (by destruct f).
    destruct He as [pkts x [Es _] _|req s0 bs x [Es _] _ _ _ _ _|req bs x socket p _ _ _ _ _ _ _ _ _ Es _ _ _
      |x s0 _ _ Es _ _ _|x s0 p _ _ _ Es _ _]; rewrite Es; eauto.
    + intros [[-> _]|[_ ?]]%lookup_insert_Some; eauto.
    + intros [_ ?]%lookup_delete_Some; eauto.
    + case_if; [|by eauto]. intros [_ ?]%lookup_delete_Some; eauto.
  - apply receive_elim; [by eauto|done|]. intros ? _ [= <-]. by eauto.
  - unfold collect. repeat case_match; simplify_eq; simpl; try (by eauto). intros [_ ?]%lookup_delete_Some; eauto.
  - unfold on_collect_channel_ended. case_if; [|by eauto]. simpl. by rewrite lookup_empty.
  - unfold Server.accept. repeat case_match; simplify_eq; simpl; by eauto.
Qed.

Lemma from_member_all i sockets :
  (forall socket, socket ∈ sockets -> route (peer_addr socket) = i) -> from_member i sockets = sockets.
Proof.
  induction sockets as [|x l IH]; intros Hx; [done|]. unfold from_member in *.
  rewrite filter_cons_True by (apply Hx, list_elem_of_here). f_equal. apply IH. intros y Hy. apply Hx. by apply list_elem_of_further.
Qed.

Lemma from_member_none i sockets :
  (forall socket, socket ∈ sockets -> route (peer_addr socket) <> i) -> from_member i sockets = [].
Proof. apply filter_none. Qed.

Lemma from_member_app i xs ys : from_member i (xs ++ ys) = from_member i xs ++ from_member i ys.
Proof. apply list.filter_app. Qed.

(** A turn on the shared channels, whichever handles it takes. *)
Lemma step_shared i e g l :
  shares g -> member (owner i e) g = Some l ->
  step i e g = ((Server.step e l).1, update (owner i e) (Server.step e l).2 g).
Proof.
  intros Hg Hi. unfold step. rewrite (turn_shared _ _ _ _ g l Hg Hi); [done|].
  intros s Hs. destruct (sh_handles _ Hg _ _ Hs) as (H1 & H2 & H3).
  destruct e; simpl in *; try done. simplify_eq. by rewrite (sh_receiver _ Hg).
Qed.

Lemma step_idle i e g : shares g -> member (owner i e) g = None -> step i e g = (Sends [], g).
Proof.
  intros Hg Hi. unfold step, turn. destruct (shared_members g Hg) as (c & t & _ & _ & Hm). rewrite Hm in Hi.
  by apply fmap_None in Hi as ->.
Qed.

(** The parent's field after a turn. *)
Lemma update_identity i l l' g :
  member i g = Some l -> shares g -> guid l' = guid l -> guid (own (parent (update i l' g))) = guid (own (parent g)).
Proof.
  intros Hi Hg E. destruct (update_parent i l' g) as (_ & _ & _ & -> & _). destruct i; [|done].
  destruct (shared_members g Hg) as (c & t & _ & _ & Hm). rewrite Hm in Hi. injection Hi as <-. exact E.
Qed.

Lemma waiting_update i l g : shares g -> is_Some (member i g) -> waiting (update i l g) = queued (view (connection l)).
Proof.
  intros Hg Hi%(member_some i g Hg). apply shard_at_some in Hi. unfold waiting.
  destruct (update_parent i l g) as (_ & -> & _). by rewrite (sh_receiver _ Hg), (proj1 (update_store i l g Hi)).
Qed.

(** A turn of a member. *)
Lemma step_group backlog accepted i e g :
  group_inv backlog accepted g -> (forall addr, sender_of e = Some addr -> route addr = i) ->
  group_inv backlog (accepted ++ accepted_sockets [(step i e g).1]) (step i e g).2.
Proof.
  intros [Hg Hm Hr] Hroute. set (k := owner i e).
  assert (forall addr, sender_of e = Some addr -> route addr = k) as Hk by (intros addr Ha; rewrite (Hroute addr Ha); unfold k; by destruct e).
  destruct (member k g) as [l|] eqn:Ek; [|by rewrite step_idle, app_nil_r].
  rewrite (step_shared i e g l Hg Ek). fold k. clearbody k. clear Hroute. pose proof (Hm k l Ek) as [Hl H1 H2 H3 H4 H5 H6 H7 H8].
  destruct (listener_step_inv backlog e l Hl) as [_ Hl']. destruct (listener_step_open e l) as [O1 O2].
  pose proof (listener_step_settings e l) as Eset. injection Eset as Eg _. pose proof (listener_step_signal e l) as Esig.
  pose proof (step_sessions backlog e l) as Hses.
  destruct (listener_step_offers backlog e l Hl) as (new & En & Eq & Ep & Hall & Hmono).
  destruct (Server.step e l) as [out l']. cbn [fst snd] in *.
  unfold backlog_view in Eq. rewrite <- (waiting_member k l g Hg Ek) in Eq.
  rewrite <- (waiting_update k l' g Hg ltac:(by eexists)) in Eq.
  pose proof (proj2 (li_open _ _ Hl')) as Hheld.
  assert (forall socket, socket ∈ new -> route (peer_addr socket) = k) as Hnew.
  { rewrite list.Forall_forall in Hall. intros socket Hin. by apply Hk, Hall. }
  split.
  - apply update_shares; [done|]. by apply shard_at_some, (member_some k g Hg).
  - intros j x Hj. rewrite (update_identity k l l' g Ek Hg Eg), <- app_assoc, Eq, app_assoc.
    rewrite member_update in Hj by (by rewrite ?Ek). destruct (decide (k = j)) as [<-|Hne].
    + injection Hj as <-. pose proof (from_member_all k new Hnew) as Ef.
      split; try congruence; [lia|..]; rewrite ?(from_member_app k (accepted ++ _)), ?Ef.
      * rewrite map_app, H6, Ep, En, seqZ_app by lia. done.
      * apply Forall_app. split; [by eapply Forall_impl|]. eapply Forall_impl; [|exact Hall]. by intros socket [].
      * intros addr s Hs'. destruct (Hses addr s Hl Hs') as [[s0 Hs0]|Ha]; [by apply (H8 addr s0)|by apply Hk].
    + apply fmap_Some in Hj as (y & Hy & ->). apply (join_inv _ _ _ _ _ _ _ (Hm j y Hy) Hl').
      rewrite from_member_app, (from_member_none j new), app_nil_r; [done|].
      intros socket Hin. by rewrite (Hnew socket Hin).
  - intros socket. rewrite <- app_assoc, Eq, app_assoc. intros [Hin|Hin]%elem_of_app;
      rewrite member_update by (by rewrite ?Ek); destruct (decide _) as [|Hne]; eauto.
    + destruct (Hr socket Hin) as [x Hx]. rewrite Hx. by eauto.
    + by rewrite (Hnew socket Hin) in Hne.
Qed.

Lemma run_group backlog accepted events g :
  group_inv backlog accepted g -> Forall (fun x => forall addr, sender_of x.2 = Some addr -> route addr = x.1) events ->
  group_inv backlog (accepted ++ accepted_sockets (run events g).1) (run events g).2.
Proof.
  revert accepted g. induction events as [|[i e] events IH]; intros accepted g Hg; cbn [run].
  { intros _. by rewrite app_nil_r. }
  intros [He Hes]%list.Forall_cons. pose proof (step_group backlog accepted i e g Hg He) as Hg'.
  destruct (step i e g) as [out g1]. pose proof (IH _ g1 Hg' Hes) as Hr. destruct (run events g1) as [outs g2].
  cbn [fst snd] in *. by rewrite <- app_assoc, <- accepted_sockets_app in Hr.
Qed.

(** *** The receiving tasks *)

Lemma step_receiving backlog accepted i e g j x' :
  group_inv backlog accepted g -> member j (step i e g).2 = Some x' ->
  exists x, member j g = Some x /\ receiving x' = receiving x && negb (bool_decide ((j, ReceiveFails) = (i, e))).
Proof.
  intros [Hg Hm _] Hj. destruct (member (owner i e) g) as [l|] eqn:Ek.
  2: { rewrite step_idle in Hj by done. exists x'. split; [done|]. rewrite bool_decide_eq_false_2; [by rewrite andb_true_r|].
       intros [= <- <-]. simpl in *. congruence. }
  rewrite (step_shared i e g l Hg Ek) in Hj. destruct (Hm _ l Ek) as [Hl _ _ Hs _ _ _ _ _].
  pose proof (proj2 (li_open _ _ (proj2 (listener_step_inv backlog e l Hl)))) as Hheld.
  destruct (listener_step_receiving backlog e l Hl Hs) as [Er _]. destruct (Server.step e l) as [out l']. cbn [fst snd] in *.
  rewrite member_update in Hj by (by rewrite ?Ek). destruct (decide (owner i e = j)) as [<-|Hne].
  - injection Hj as <-. exists l. split; [done|]. rewrite Er. f_equal. f_equal. apply bool_decide_ext.
    split; [by intros ->|by intros [= _ ->]].
  - apply fmap_Some in Hj as (y & Hy & ->). exists y. split; [done|]. rewrite bool_decide_eq_false_2; [by rewrite andb_true_r|].
    intros [= -> <-]. by apply Hne.
Qed.

Lemma run_receiving backlog accepted events g j x' :
  group_inv backlog accepted g -> Forall (fun x => forall addr, sender_of x.2 = Some addr -> route addr = x.1) events ->
  member j (run events g).2 = Some x' ->
  exists x, member j g = Some x /\ receiving x' = receiving x && negb (bool_decide ((j, ReceiveFails) ∈ events)).
Proof.
  revert accepted g. induction events as [|[i e] events IH]; intros accepted g Hg; cbn [run].
  { intros _ Hj. exists x'. rewrite bool_decide_eq_false_2, andb_true_r by set_solver. done. }
  intros [He Hes]%list.Forall_cons. pose proof (step_group backlog accepted i e g Hg He) as Hg'.
  pose proof (fun x => step_receiving backlog accepted i e g j x Hg) as Hstep.
  destruct (step i e g) as [out g1]. specialize (IH _ g1 Hg' Hes). destruct (run events g1) as [outs g2]. cbn [fst snd] in *.
  intros Hj. destruct (IH Hj) as (y & Hy & ->). destruct (Hstep y Hy) as (x & Hx & ->). exists x. split; [done|].
  rewrite <- andb_assoc, <- negb_orb, <- bool_decide_or. do 2 f_equal. apply bool_decide_ext. rewrite elem_of_cons. tauto.
Qed.

(** *** The MOTD *)

(** What pings are answered with is what the application reads back. *)
Definition motd_agrees g : Prop := forall i l, member i g = Some l -> announced l = get_motd g.

Lemma parent_motd g p : shares g -> member 0 g = Some p -> motd p = get_motd g.
Proof. intros Hg. destruct (shared_members g Hg) as (c & t & _ & _ & ->). by intros [= <-]. Qed.

Lemma update_agrees i l l' g :
  shares g -> member i g = Some l -> motd_held l' = true -> motd_agrees g ->
  (texts l' = texts l \/ i = 0%nat /\ motd l' = announced l') -> motd_agrees (update i l' g).
Proof.
  intros Hg Hi Hh Ha Ht j x. rewrite member_update by (by rewrite ?Hi). unfold get_motd.
  destruct (update_parent i l' g) as (_ & _ & _ & _ & ->).
  assert (announced l' = match i with O => motd l' | S _ => motd (own (parent g)) end) as E.
  { destruct Ht as [[= E1 E2]|[-> ->]]; [|done]. rewrite E2, (Ha i l Hi). destruct i; [|done].
    by rewrite E1, (parent_motd g l Hg Hi). }
  case_decide; [by intros [= <-]|]. by intros (y & Hy & ->)%fmap_Some.
Qed.

Lemma step_agrees backlog accepted i e g :
  group_inv backlog accepted g -> motd_agrees g -> motd_agrees (step i e g).2.
Proof.
  intros [Hg Hm _] Ha. destruct (member (owner i e) g) as [l|] eqn:Ek; [|by rewrite step_idle].
  rewrite (step_shared i e g l Hg Ek). apply (update_agrees _ l); try done.
  - exact (proj2 (li_open _ _ (proj2 (listener_step_inv backlog e l (mi_listener _ _ _ _ _ (Hm _ l Ek)))))).
  - pose proof (listener_step_texts e l) as Et. by destruct e; auto.
Qed.

Lemma run_agrees backlog accepted events g :
  group_inv backlog accepted g -> Forall (fun x => forall addr, sender_of x.2 = Some addr -> route addr = x.1) events ->
  motd_agrees g -> motd_agrees (run events g).2.
Proof.
  revert accepted g. induction events as [|[i e] events IH]; intros accepted g Hg; cbn [run]; [done|].
  intros [He Hes]%list.Forall_cons Ha. pose proof (step_group backlog accepted i e g Hg He) as Hg'.
  apply (step_agrees backlog accepted i e g Hg) in Ha. destruct (step i e g) as [out g1]. specialize (IH _ g1 Hg' Hes Ha).
  by destruct (run events g1).
Qed.

(** *** The start *)

(** A member that has done nothing yet. *)
Record pristine (listening : bool) (identity : Z) l : Prop := {
  pr_listened : listened l = listening;
  pr_receiving : receiving l = listening;
  pr_open : socket_open l = true;
  pr_signal : close_notifier l = false;
  pr_guid : guid l = identity;
  pr_tables : sessions l = ∅ /\ version_map l = ∅ /\ pending_versions l = ∅ /\ peers l = ∅;
  pr_next : next_peer l = 0;
  pr_cache : dispatch_cache l = SessionDispatchCache.default;
}.

Lemma pristine_join b n p l : pristine b n l -> pristine b n (join p l).
Proof. by intros []. Qed.

Lemma pristine_placed b n c t l : pristine b n l <-> pristine b n (placed c t l).
Proof. by split; intros []. Qed.

Lemma pristine_new n : pristine false n (Server.from_udp_socket n : Listener chan).
Proof. by split. Qed.

Lemma listen_pristine port n l :
  pristine false n l -> pristine true n (Server.listen port l) /\ connection (Server.listen port l) = connection l /\
    motd_held (Server.listen port l) = motd_held l.
Proof.
  intros [H1 H2 H3 H4 H5 H6 H7 H8]. unfold Server.listen. rewrite H1, H3, H4. simpl.
  by destruct (motd l).
Qed.

Lemma listen_texts port n l :
  pristine false n l ->
  match motd l with
  | [] => motd (Server.listen port l) = announced (Server.listen port l) /\ motd (Server.listen port l) <> []
  | _ => texts (Server.listen port l) = texts l
  end.
Proof. intros [H1 H2 H3 H4 H5 H6 H7 H8]. unfold Server.listen, texts. rewrite H1, H3, H4. simpl. destruct (motd l) eqn:E; simpl; by rewrite ?E. Qed.

(** The first [k] members of a group listen; the parent sets the MOTD when it does. *)
Record prepared (backlog : Z) (k : nat) g : Prop := {
  pp_shares : shares g;
  pp_motd : if bool_decide (k = 0)%nat then get_motd g = [] else get_motd g <> [] /\ motd_agrees g;
  pp_members : forall i l, member i g = Some l ->
    view (connection l) = Channel.fresh backlog /\ pristine (bool_decide (i < k)%nat) (guid (own (parent g))) l;
}.

(** The loop of [bind_with_socket_shards] hands the parent's handles to every shard, and
    leaves the parent's channels alone. *)
Lemma bind_shards_shared bindings n (listener : Shard chan) st r :
  pristine false n (own listener) -> bind_shards bindings listener st = Ok r ->
  Forall (fun s => connection_sender s = connection_sender listener /\ motd_sender s = motd_sender listener /\
    motd_receiver s = motd_receiver listener /\ pristine false n (own s)) r.1 /\
  forall h, h < next_handle st -> backlogs r.2 !! h = backlogs st !! h /\ motds r.2 !! h = motds st !! h.
Proof.
  intros Hp. revert st r. induction bindings as [|[b random] bindings IH]; intros st r; simpl.
  { intros [= <-]. split; [by apply Forall_nil_2|done]. }
  destruct (bind_socket b); [|done]. unfold from_std. simpl. case_bool_decide; [done|]. simpl.
  match goal with |- context [bind_shards bindings listener ?x] => specialize (IH x);
    destruct (bind_shards bindings listener x) as [rest|]; [|done] end.
  intros [= <-]. destruct (IH rest eq_refl) as [H1 H2]. simpl in *. split.
  - apply Forall_cons_2; [|done]. split_and!; try done. split; try done. apply Hp.
  - intros h Hh. rewrite !(proj1 (H2 h ltac:(lia))), !(proj2 (H2 h ltac:(lia))).
    by rewrite !lookup_insert_ne by lia.
Qed.

Lemma alone_prepared b random g : alone b random = Ok g -> prepared 128 0 g.
Proof.
  unfold alone, from_std. case_bool_decide; [done|]. intros [= <-].
  assert (shares (mk_group (from_udp_socket random (empty_store : Store chan)).1 []
    (from_udp_socket random empty_store).2)) as Hg.
  { split; simpl; [done| |by rewrite lookup_insert_eq; eexists..]. intros [|i] s; simpl; [by intros [= <-]|done]. }
  split; [done|done|]. intros i l Hi. destruct (shared_members _ Hg) as (c & t & Hc & _ & Hm). rewrite Hm in Hi.
  simpl in Hc. rewrite lookup_insert_eq in Hc. injection Hc as <-.
  destruct i as [|i]; simpl in Hi; [|done]. injection Hi as <-. split; [apply channel_view|].
  apply pristine_placed, pristine_new.
Qed.

Lemma bound_prepared bindings g : bind_with_socket_shards bindings = Ok g -> prepared 128 0 g.
Proof.
  destruct bindings as [|[b random] [|x rest]]; [done|..]; unfold bind_with_socket_shards.
  { unfold bind. case_bool_decide; [done|]. apply alone_prepared. }
  case_if; [done|]. destruct (bind_socket b); [|done]. unfold from_std at 1. cbn [mbind result_bind].
  destruct (bool_decide (b = NoAsync)); cbn [mbind result_bind]; [done|].
  destruct (bool_decide (b = NoLocal)); cbn [mbind result_bind]; [done|].
  set (listener := (from_udp_socket random empty_store).1). set (st := (from_udp_socket random empty_store).2).
  destruct (bind_shards (x :: rest) listener st) as [r|] eqn:E; [|done]. intros [= <-].
  destruct (bind_shards_shared (x :: rest) random listener st r (pristine_new random) E) as [Hs Hst].
  destruct (Hst 0) as [Hb Ht]; [done|]. unfold st in Hb, Ht. simpl in Hb, Ht. rewrite ?lookup_insert_eq in Hb, Ht.
  rewrite list.Forall_forall in Hs.
  assert (forall i s, shard_at i (mk_group listener r.1 r.2) = Some s -> connection_sender s = 0 /\ motd_sender s = 0 /\
    motd_receiver s = 0 /\ pristine false random (own s)) as Hat.
  { intros [|i] s; simpl; [intros [= <-]; by split_and!|]. intros Hi%list_elem_of_lookup_2. exact (Hs s Hi). }
  assert (shares (mk_group listener r.1 r.2)) as Hg.
  { split; simpl; [done| |rewrite Hb; by eexists|rewrite Ht; by eexists]. intros i s Hi. by destruct (Hat i s Hi) as (? & ? & ? & _). }
  split; [done|done|]. intros i l Hi. destruct (shared_members _ Hg) as (c & t & Hc & _ & Hm). rewrite Hm in Hi.
  simpl in Hc. rewrite Hb in Hc. injection Hc as <-. apply fmap_Some in Hi as (s & Hi & ->).
  split; [apply channel_view|]. apply pristine_placed. by destruct (Hat i s Hi) as (_ & _ & _ & Hp).
Qed.

(** A new backlog reaches every member. *)
Lemma backlog_prepared backlog n g g' :
  with_accept_backlog n g = Some g' -> prepared backlog 0 g -> prepared n 0 g'.
Proof.
  unfold with_accept_backlog, unless_listening. case_if; [done|]. intros [= <-] [Hg Htext Hp].
  set (g' := mk_group _ _ _). set (h := next_handle (store g)).
  assert (forall i s, shard_at i g' = Some s -> exists x, shard_at i g = Some x /\ own s = own x /\
    connection_sender s = h /\ motd_sender s = motd_sender x /\ motd_receiver s = motd_receiver x) as Hat.
  { intros [|i] s; simpl; [intros [= <-]; by eexists|]. rewrite list_lookup_fmap.
    intros (x & Hx & ->)%fmap_Some. by exists x. }
  assert (shares g') as Hg'.
  { split; simpl; [done| |rewrite lookup_insert_eq; by eexists|apply Hg]. intros i s Hi.
    destruct (Hat i s Hi) as (x & Hx & _ & -> & -> & ->). split; [done|]. by apply (sh_handles _ Hg i). }
  split; [done|done|]. intros i l Hi. destruct (shared_members _ Hg') as (c & t & Hc & _ & Hm). rewrite Hm in Hi.
  simpl in Hc. rewrite lookup_insert_eq in Hc. injection Hc as <-. apply fmap_Some in Hi as (s & Hi & ->).
  destruct (Hat i s Hi) as (x & Hx & -> & _). split; [apply channel_view|]. apply pristine_placed.
  destruct (shared_members _ Hg) as (c & t' & _ & _ & Hm'). specialize (Hm' i). rewrite Hx in Hm'.
  destruct (Hp i _ Hm') as [_ Hl]. by apply pristine_placed in Hl.
Qed.

(** Settings of the members' own parts. *)
Lemma refit_prepared backlog k F g g' :
  prepared backlog k g -> store g' = store g -> (forall i, shard_at i g' = with_own (F i) <$> shard_at i g) ->
  (forall i l c t, F i (placed c t l) = placed c t (F i l)) ->
  (forall i b n l, pristine b n l -> pristine b n (F i l)) -> (forall l, motd (F 0%nat l) = motd l) -> prepared backlog k g'.
Proof.
  intros [Hg Htext Hp] Es Hs HF HP Hmotd. destruct (refit F g g' Hg Es Hs HF) as [Hg' Hm].
  assert (guid (own (parent g')) = guid (own (parent g))) as Eg.
  { pose proof (Hs 0%nat) as Ep. injection Ep as ->. simpl.
    destruct (shared_members g Hg) as (c & t & _ & _ & Hm0). destruct (Hp 0%nat _ (Hm0 0%nat)) as [_ H0].
    apply pristine_placed in H0. by rewrite (pr_guid _ _ _ (HP 0%nat _ _ _ H0)). }
  assert (get_motd g' = get_motd g) as Et by (pose proof (Hs 0%nat) as Ep; injection Ep as Ep; unfold get_motd; rewrite Ep; apply Hmotd).
  split; [done| |].
  { unfold motd_agrees. rewrite Et. case_bool_decide; [done|]. destruct Htext as [Hne Ha]. split; [done|].
    intros i l'. rewrite Hm. intros (l & Hl & ->)%fmap_Some. rewrite <- (Ha i l Hl). destruct (shared_members g Hg) as (c & t & _ & _ & Hm0).
    rewrite Hm0 in Hl. apply fmap_Some in Hl as (s & _ & ->). by rewrite HF. }
  intros i l'. rewrite Hm. intros (l & Hl & ->)%fmap_Some. rewrite Eg. destruct (Hp i l Hl) as [Hc Hpl].
  split; [|by apply HP]. destruct (shared_members g Hg) as (c & t & _ & _ & Hm0). rewrite Hm0 in Hl.
  apply fmap_Some in Hl as (s & _ & ->). rewrite HF. exact Hc.
Qed.

Lemma on_all_prepared backlog k f g :
  prepared backlog k g -> (forall l c t, f (placed c t l) = placed c t (f l)) ->
  (forall b n l, pristine b n l -> pristine b n (f l)) -> (forall l, motd (f l) = motd l) -> prepared backlog k (on_all f g).
Proof.
  intros Hp Hf HP Hmotd. apply (refit_prepared backlog k (fun _ => f) g); try done. intros [|i]; [done|]. apply list_lookup_fmap.
Qed.

Lemma idle_prepared backlog enabled g g' :
  with_idle_maintenance enabled g = Some g' -> prepared backlog 0 g -> prepared backlog 0 g'.
Proof.
  unfold with_idle_maintenance, unless_listening. case_if; [done|]. intros [= <-] Hp.
  apply on_all_prepared; [done..| |done]. by intros b n l [].
Qed.

Lemma batching_prepared backlog enabled g g' :
  with_receive_batching enabled g = Some g' -> prepared backlog 0 g -> prepared backlog 0 g'.
Proof.
  unfold with_receive_batching, unless_listening. case_if; [done|]. intros [= <-] Hp.
  apply on_all_prepared; [done..| |done]. by intros b n l [].
Qed.

Lemma listen_member_prepared backlog port k g :
  prepared backlog k g -> (k < S (length (shards g)))%nat -> (forall l, member k g = Some l -> motd l = get_motd g) ->
  prepared backlog (S k) (listen_member port k g) /\ length (shards (listen_member port k g)) = length (shards g).
Proof.
  intros [Hg Htext Hp] [l Hk]%(member_some k g Hg) Hown. unfold listen_member.
  rewrite (turn_shared _ _ _ _ g l Hg Hk) by (intros s Hs; destruct (sh_handles _ Hg _ _ Hs) as (? & ? & ?); done).
  cbn [fst snd]. split; [|apply update_length]. destruct (Hp k l Hk) as [Hc Hl].
  rewrite bool_decide_eq_false_2 in Hl by lia. destruct (listen_pristine port _ _ Hl) as (Hl' & Ec & Eh).
  assert (motd_held l = true) as Hheld.
  { destruct (shared_members g Hg) as (c & t & _ & _ & Hm). rewrite Hm in Hk. by apply fmap_Some in Hk as (s & _ & ->). }
  split; [apply update_shares; [done|]; apply shard_at_some, (member_some k g Hg); by eexists| |].
  { specialize (Hown l Hk). pose proof (listen_texts port _ l Hl) as Htx. rewrite (bool_decide_eq_false_2 (S k = 0)%nat) by lia.
    case_bool_decide as H0.
    - subst k. rewrite Hown, Htext in Htx. destruct Htx as [E Hne].
      assert (get_motd (update 0 (Server.listen port l) g) = motd (Server.listen port l)) as Et by done. split; [congruence|].
      intros j x. rewrite Et, member_update by (rewrite ?Hk; congruence || by eexists).
      case_decide; [by intros [= <-]|]. by intros (y & _ & ->)%fmap_Some.
    - destruct Htext as [Hne Ha]. rewrite Hown in Htx. destruct (get_motd g) as [|b text] eqn:Eg; [done|]. rewrite <- Eg in *.
      assert (get_motd (update k (Server.listen port l) g) = get_motd g) as ->.
      { unfold get_motd. destruct (update_parent k (Server.listen port l) g) as (_ & _ & _ & _ & ->). by destruct k. }
      split; [done|]. apply (update_agrees k l); [done|done|congruence|done|by left]. }
  rewrite (update_identity k l) by (done || by rewrite (pr_guid _ _ _ Hl'), (pr_guid _ _ _ Hl)). intros i x.
  rewrite member_update by (rewrite ?Hk; congruence || by eexists). destruct (decide (k = i)) as [<-|Hne].
  - intros [= <-]. rewrite Ec. by rewrite bool_decide_eq_true_2 by lia.
  - intros (y & Hy & ->)%fmap_Some. destruct (Hp i y Hy) as [_ Hy']. split; [simpl; by rewrite Ec|].
    apply pristine_join. by rewrite (bool_decide_ext (i < S k)%nat (i < k)%nat) by lia.
Qed.

(** The group listens: every member does, with the parent's text in its own field. *)
Lemma listen_prepared backlog port g :
  prepared backlog 0 g -> prepared backlog (S (length (shards g))) (listen port g) /\
  length (shards (listen port g)) = length (shards g).
Proof.
  intros Hp. pose proof Hp as [Hg Htext H0]. unfold listen. destruct (shared_members g Hg) as (c & t & _ & _ & Hm).
  destruct (H0 0%nat _ (Hm 0%nat)) as [_ Hl]. apply pristine_placed in Hl. destruct Hl as [Hl _ _ Hs _ _ _ _].
  rewrite bool_decide_eq_false_2 in Hl by lia. rewrite Hl, Hs. simpl orb. cbv iota. cbv zeta.
  set (g1 := mk_group (parent g) _ (store g)).
  assert (prepared backlog 0 g1) as Hp1.
  { apply (refit_prepared backlog 0 (fun i l => match i with O => l | S _ => l <| motd := motd (own (parent g)) |> end) g _ Hp); try done.
    - intros [|i]; simpl; [by destruct (parent g)|]. apply list_lookup_fmap.
    - by intros [|i] l c' t'.
    - intros [|i] b n l; [done|]. by intros []. }
  assert (length (shards g1) = length (shards g)) as El1 by apply length_map.
  destruct (listen_member_prepared backlog port 0 g1 Hp1 ltac:(lia) (fun l => parent_motd g1 l (pp_shares _ _ _ Hp1))) as [Hp2 El2]. rewrite El1 in El2.
  set (g2 := listen_member port 0 g1) in *. clearbody g2. clear g1 Hp1 El1 Hp H0 Hm Hl Hs Hg Htext c t.
  assert (forall n k g', prepared backlog (S k) g' -> length (shards g') = length (shards g) -> (k + n <= length (shards g))%nat ->
    let g'' := foldl (fun g k => listen_member port (S k)
      (mk_group (parent g) (alter (adopt_motd (motd (own (parent g)))) k (shards g)) (store g))) g' (seq k n) in
    prepared backlog (S (k + n)) g'' /\ length (shards g'') = length (shards g)) as Hfold; [|rewrite El2; by apply (Hfold (length (shards g)) 0%nat g2)].
  clear g2 Hp2 El2. induction n as [|n IH]; intros k g' Hp' El Hle; simpl; [by rewrite Nat.add_0_r|].
  rewrite <- Nat.add_succ_comm. set (g1 := mk_group (parent g') _ (store g')).
  assert (length (shards g1) = length (shards g)) as El1 by (rewrite <- El; apply length_alter).
  assert (prepared backlog (S k) g1) as Hp1.
  { apply (refit_prepared backlog (S k) (fun i l => if decide (i = S k) then l <| motd := motd (own (parent g')) |> else l) g' _ Hp'); try done.
    - intros [|i]; simpl; [by destruct (parent g')|]. destruct (decide (S i = S k)) as [[= ->]|Hne].
      + by rewrite list_lookup_alter_eq.
      + rewrite list_lookup_alter_ne by congruence. by destruct (shards g' !! i) as [[]|].
    - intros i l c t. by case_decide.
    - intros i b m l Hl. case_decide; [by destruct Hl|done]. }
  destruct (listen_member_prepared backlog port (S k) g1 Hp1 ltac:(lia)) as [Hp2 El2].
  { intros l Hl. destruct (shared_members _ (pp_shares _ _ _ Hp1)) as (c & t & _ & _ & Hm). rewrite Hm in Hl. simpl in Hl.
    rewrite list_lookup_alter_eq in Hl. by apply fmap_Some in Hl as (s & (y & _ & ->)%fmap_Some & ->). }
  apply IH; [exact Hp2|congruence|lia].
Qed.

(** A group as the constructors leave it, listening. *)
Definition starts (backlog : Z) (g : Group chan) : Prop :=
  exists bindings idle batching port g0 g1 g2 g3,
    bind_with_socket_shards bindings = Ok g0 /\ with_accept_backlog backlog g0 = Some g1 /\
    with_idle_maintenance idle g1 = Some g2 /\ with_receive_batching batching g2 = Some g3 /\ g = listen port g3.

Lemma pristine_inv backlog n i l :
  0 <= backlog -> pristine true n l -> motd_held l = true -> view (connection l) = Channel.fresh backlog ->
  member_inv backlog [] n i l.
Proof.
  intros Hb [H1 Hr H2 H3 H4 (T1 & T2 & T3 & T4) H6 H7] Hh Hv. split; try done; [|by rewrite H6|by rewrite H6|by rewrite T1].
  constructor; rewrite ?H7, ?T1, ?T2, ?T3, ?T4, ?Hv; try done.
  - intros k e [[=] _]%lookup_replicate.
  - intros k e [[=] _]%lookup_replicate.
  - intros k e [[=] _]%lookup_replicate.
  - intros id [p Hp]. by rewrite lookup_empty in Hp.
Qed.

Lemma starts_inv backlog g :
  0 < backlog -> starts backlog g ->
  group_inv backlog [] g /\ motd_agrees g /\ forall i l, member i g = Some l -> receiving l = true.
Proof.
  intros Hb (bindings & idle & batching & port & g0 & g1 & g2 & g3 & H0 & H1 & H2 & H3 & ->).
  apply bound_prepared in H0. apply (backlog_prepared _ _ _ _ H1) in H0. apply (idle_prepared _ _ _ _ H2) in H0.
  apply (batching_prepared _ _ _ _ H3) in H0. destruct (listen_prepared backlog port g3 H0) as [[Hg [_ Ht] Hp] El].
  set (g := listen port g3) in *.
  assert (forall i l, member i g = Some l -> view (connection l) = Channel.fresh backlog /\
    pristine true (guid (own (parent g))) l /\ motd_held l = true) as Hall.
  { intros i l Hi. destruct (Hp i l Hi) as [Hc Hl]. rewrite bool_decide_eq_true_2 in Hl.
    - split; [done|]. split; [done|]. destruct (shared_members g Hg) as (c & t & _ & _ & Hm). rewrite Hm in Hi.
      by apply fmap_Some in Hi as (s & _ & ->).
    - rewrite <- El. by apply (member_some i g Hg); rewrite Hi. }
  assert (waiting g = []) as Ew.
  { destruct (proj2 (member_some 0 g Hg)) as [p Hpar]; [lia|]. rewrite (waiting_member 0 p g Hg Hpar).
    by rewrite (proj1 (Hall _ _ Hpar)). }
  split; [split; [done| |]|split; [exact Ht|]].
  - intros i l Hi. rewrite Ew. destruct (Hall i l Hi) as (Hc & Hl & Hh). by apply pristine_inv; [lia|..].
  - rewrite Ew. simpl. intros socket Hin. by apply not_elem_of_nil in Hin.
  - intros i l Hi. by destruct (Hall i l Hi) as (_ & [] & _).
Qed.

Definition routed (events : list (nat * event)) : Prop :=
  Forall (fun x => forall addr, sender_of x.2 = Some addr -> route addr = x.1) events.

(** *** Closing *)

(** Closing a member leaves what the group shares, and the signal. *)
Definition kept l : chan Accepted * list Z * bool * bool := (connection l, announced l, motd_held l, close_notifier l).

Lemma collect_remaining_kept addresses l : kept (collect_remaining addresses l).2 = kept l.
Proof.
  revert l. induction addresses as [|a addresses IH]; intros l; simpl; [done|].
  case_if; [done|]. case_bool_decide; [|apply IH].
  match goal with |- context [collect_remaining addresses ?x] => specialize (IH x);
    destruct (collect_remaining addresses x) end. exact IH.
Qed.

Lemma close_listener_kept addresses l :
  close_notifier l = true -> kept (close_listener addresses l).2 = kept l.
Proof.
  intros Hl. unfold close_listener. destruct (negb (socket_open l)); [done|].
  assert (kept (l <| close_notifier := true |>) = kept l) as E by (unfold kept; simpl; by rewrite Hl).
  destruct (listened _); [|exact E]. unfold collect_all. cbv zeta.
  match goal with |- context [collect_remaining addresses ?x] =>
    pose proof (collect_remaining_kept addresses x) as E1; destruct (collect_remaining addresses x) as [sent s1] end.
  cbn [fst snd] in *. etrans; [exact E1|]. rewrite <- E. clear. by induction (map_to_list _) as [|[a s] open IH].
Qed.

(** A turn that leaves what is shared leaves the other members. *)
Lemma update_others i l l' g j x :
  shares g -> member i g = Some l -> kept l' = kept l -> member j g = Some x ->
  member j (update i l' g) = Some (if decide (i = j) then l' else x).
Proof.
  intros Hg Hi [= E1 E2 E3 _] Hj. destruct (members_connection i j l x g Hg Hi Hj) as [Ec Et].
  assert (motd_held l = true) as Hh.
  { destruct (shared_members g Hg) as (c & t & _ & _ & Hm). rewrite Hm in Hi. by apply fmap_Some in Hi as (s & _ & ->). }
  rewrite member_update by (rewrite ?Hi; congruence || by eexists). destruct (decide (i = j)); [done|].
  rewrite Hj. simpl. f_equal. unfold join. rewrite E1, E2, Ec, Et. by destruct x.
Qed.

Lemma close_turn addresses i l g :
  shares g -> member i g = Some l ->
  turn i connection_sender motd_receiver (close_listener addresses) g
    = Some ((close_listener addresses l).1, update i (close_listener addresses l).2 g).
Proof.
  intros Hg Hi. apply turn_shared; [done..|]. intros s Hs. destruct (sh_handles _ Hg _ _ Hs) as (? & ? & ?). done.
Qed.

Lemma close_members_each addresses i count g :
  shares g -> (i + count = S (length (shards g)))%nat -> (forall j l, member j g = Some l -> close_notifier l = true) ->
  let '(sent, g') := close_members addresses i count g in
  shares g' /\ length (shards g') = length (shards g) /\
  forall j l, member j g = Some l ->
    member j g' = Some (if bool_decide (i <= j)%nat then (close_listener (addresses j) l).2 else l) /\
    ((i <= j)%nat -> forall x, x ∈ (close_listener (addresses j) l).1 -> x ∈ sent).
Proof.
  revert i g. induction count as [|count IH]; intros i g Hg Hn Hsig; cbn [close_members].
  { split; [done|]. split; [done|]. intros j l Hj. assert (is_Some (member j g)) as Hlt%(member_some j g Hg) by eauto.
    rewrite bool_decide_eq_false_2 by lia. split; [done|lia]. }
  destruct (proj2 (member_some i g Hg)) as [l Hi]; [lia|]. rewrite (close_turn _ i l g Hg Hi). cbn [default from_option id].
  pose proof (close_listener_kept (addresses i) l (Hsig i l Hi)) as Ek.
  destruct (close_listener (addresses i) l) as [sent l'] eqn:Ec. cbn [fst snd] in *.
  pose proof (update_others i l l' g) as Ho. specialize (IH (S i) (update i l' g)). rewrite update_length in IH.
  assert (shares (update i l' g)) as Hg1 by (apply update_shares; [done|]; apply shard_at_some; lia).
  destruct (close_members addresses (S i) count (update i l' g)) as [sent' g'].
  destruct IH as (H1 & H2 & H3); [done|lia| |].
  { intros j x Hj. assert (is_Some (member j g)) as [y Hy].
    { apply (member_some j g Hg). rewrite <- (update_length i l' g). apply (member_some j _ Hg1). by eexists. }
    rewrite (Ho j y Hg Hi Ek Hy) in Hj. injection Hj as <-. case_decide; [|by apply (Hsig j)].
    injection Ek as _ _ _ ->. by apply (Hsig i). }
  split; [done|]. split; [done|]. intros j x Hj. destruct (H3 j _ (Ho j x Hg Hi Ek Hj)) as [H4 H5].
  destruct (decide (i = j)) as [<-|Hne].
  - simplify_eq. rewrite H4, Ec, bool_decide_eq_false_2, bool_decide_eq_true_2 by lia. split; [done|].
    intros _ y Hy. apply elem_of_app. by left.
  - rewrite H4. split; [by rewrite (bool_decide_ext (S i <= j)%nat (i <= j)%nat) by lia|].
    intros Hle y Hy. apply elem_of_app. right. apply H5; [lia|done].
Qed.

(** What closing does to every member. *)
Lemma close_each backlog addresses g :
  shares g ->
  (forall i l, member i g = Some l -> listener_inv backlog l /\ socket_open l = true /\ listened l = true) ->
  let out := close addresses g in
  shares out.2 /\ length (shards out.2) = length (shards g) /\
  forall i l, member i g = Some l -> exists l', member i out.2 = Some l' /\
    (forall addr s, sessions l !! addr = Some s ->
       (addr, [PacketID.to_u8 PacketID.Disconnect]) ∈ out.1 /\
       exists x, peers l' !! Server.close s = Some x /\ remote x = addr /\ closed x = true) /\
    sessions l' = ∅ /\ version_map l' = ∅ /\ close_notifier l' = true /\ socket_open l' = false /\ listened l' = false.
Proof.
  intros Hg Hall. unfold close. destruct (on_all_members signal g Hg) as [Hg1 Hm1]; [done|].
  set (g1 := on_all signal g) in *. assert (length (shards g1) = length (shards g)) as El by apply length_map. rewrite <- El.
  pose proof (close_members_each addresses 0 (S (length (shards g1))) g1 Hg1 eq_refl) as Hc.
  destruct (close_members addresses 0 _ g1) as [sent g']. cbn [fst snd] in *. destruct Hc as (H1 & H2 & H3).
  { intros j l. rewrite Hm1. by intros (x & _ & ->)%fmap_Some. }
  split; [done|]. split; [done|]. intros i l Hi. destruct (Hall i l Hi) as (Hl & Ho & Hli).
  destruct (H3 i (signal l)) as [H4 H5]; [by rewrite Hm1, Hi|]. rewrite bool_decide_eq_true_2 in H4 by lia.
  eexists. split; [exact H4|]. assert (listener_inv backlog (signal l)) as Hl' by (by destruct Hl).
  destruct (close_listener_ends backlog (addresses i) (signal l) Hl' Ho Hli) as (E1 & E2 & E3 & E4 & E5).
  pose proof (close_listener_kept (addresses i) (signal l) eq_refl) as Ek. injection Ek as _ _ _ Ek.
  split; [|by rewrite Ek]. intros addr s Hs. destruct (E1 addr s Hs) as [Hin Hx]. split; [|done].
  apply H5; [lia|done].
Qed.

(** Members that released their sockets have nothing more to send. *)
Lemma close_released addresses i count g :
  shares g -> (forall j l, member j g = Some l -> socket_open l = false) -> (close_members addresses i count g).1 = [].
Proof.
  revert i g. induction count as [|count IH]; intros i g Hg Hs; cbn [close_members]; [done|].
  destruct (member i g) as [l|] eqn:Hi.
  - rewrite (close_turn _ i l g Hg Hi). cbn [default from_option id].
    assert (close_listener (addresses i) l = ([], l)) as -> by (unfold close_listener; by rewrite (Hs i l Hi)).
    cbn [fst snd].
    assert (shares (update i l g) /\ forall j x, member j (update i l g) = Some x -> socket_open x = false) as [H1 H2].
    { assert (is_Some (shard_at i g)) as Hat by (apply shard_at_some, (member_some i g Hg); by eexists).
      pose proof (update_shares i l g Hg Hat) as Hg1. split; [done|]. intros j x Hj.
      assert (is_Some (member j g)) as [y Hy].
      { apply (member_some j g Hg). rewrite <- (update_length i l g). apply (member_some j _ Hg1). by eexists. }
      rewrite (update_others i l l g j y Hg Hi eq_refl Hy) in Hj. injection Hj as <-. case_decide; [by apply (Hs i)|by apply (Hs j)]. }
    specialize (IH (S i) _ H1 H2). by destruct (close_members addresses (S i) count (update i l g)).
  - unfold turn. destruct (shared_members g Hg) as (c & t & _ & _ & Hm). rewrite Hm in Hi. apply fmap_None in Hi as ->.
    cbn [default from_option id]. specialize (IH (S i) g Hg Hs). by destruct (close_members addresses (S i) count g).
Qed.

Lemma close_again addresses g :
  shares g -> (forall i l, member i g = Some l -> socket_open l = false) -> (close addresses g).1 = [].
Proof.
  intros Hg Hs. unfold close. destruct (on_all_members signal g Hg) as [Hg1 Hm]; [done|].
  apply close_released; [done|]. intros j l. rewrite Hm. intros (x & Hx & ->)%fmap_Some. exact (Hs j x Hx).
Qed.

(** C16: a group of listeners is one listener. However its sockets' tasks and the application
    take turns, where the kernel hands the datagrams of an address to one socket: the members
    reach the same two channels through their handles, so that every socket that [accept] has
    returned or that waits for it is one of the member its peer's datagrams go to, those of a
    member are the connections it created, each once and in order, the backlog is kept, no
    address has sessions at two members, and all members answer a ping alike, with the text
    that [get_motd] returns. The receiving task of a member ends if the operating system
    fails a receive on its own socket, and then only. *)
Theorem group_serves_as_one backlog start events :
  0 < backlog -> starts backlog start -> routed events ->
  let g := (run events start).2 in
  let offered := accepted_sockets (run events start).1 ++ waiting g in
  zlen (waiting g) <= backlog /\
  (forall socket, socket ∈ offered -> is_Some (member (route (peer_addr socket)) g)) /\
  forall i l, member i g = Some l ->
    map peer (from_member i offered) = seqZ 0 (next_peer l) /\
    Forall (offered_wf l) (from_member i offered) /\
    (forall addr s, sessions l !! addr = Some s -> route addr = i) /\
    (receiving l = true <-> (i, ReceiveFails) ∉ events) /\
    announced l = get_motd g /\
    (forall timestamp buf addr j x, member j g = Some x -> (on_ping timestamp buf addr l).1 = (on_ping timestamp buf addr x).1).
Proof.
  intros Hb Hs Hr g offered. destruct (starts_inv backlog start Hb Hs) as (Hi & Ht & Hrec). apply (run_agrees backlog [] events start Hi Hr) in Ht.
  pose proof (fun i l => run_receiving backlog [] events start i l Hi Hr) as Hrun.
  destruct (run_group backlog [] events start Hi Hr) as [Hg Hm Ho]. fold g in Hg, Hm, Ho, Hrun, Ht. rewrite app_nil_l in *.
  split.
  { destruct (proj2 (member_some 0 g Hg)) as [p Hp]; [lia|]. rewrite (waiting_member 0 p g Hg Hp).
    apply (li_backlog _ _ (mi_listener _ _ _ _ _ (Hm 0%nat p Hp))). }
  split; [done|]. intros i l Hl. destruct (Hm i l Hl) as [_ _ _ _ Hgu _ H1 H2 H3]. do 3 (split; [done|]). split.
  - destruct (Hrun i l Hl) as (x & Hx & ->). rewrite (Hrec i x Hx). case_bool_decide; naive_solver.
  - split; [by apply (Ht i)|]. intros timestamp buf addr j x Hx. destruct (Hm j x Hx) as [_ _ _ _ Hgx _ _ _ _].
    unfold on_ping. rewrite Hgu, Hgx, (proj2 (members_connection i j l x g Hg Hl Hx)).
    unfold or_continue. by repeat case_match.
Qed.

(** C17: a group closes together. Closing the listener, whatever happened before, tells every
    address that has a session at any member that it is disconnected, closes its connection,
    and leaves every member signalled, without sessions and with its socket released; [accept]
    then fails, [listen] does nothing, and closing again sends nothing. *)
Theorem group_closes_together backlog start events addresses addresses' port :
  0 < backlog -> starts backlog start -> routed events ->
  let g := (run events start).2 in
  let out := close addresses g in
  (forall i l addr s, member i g = Some l -> sessions l !! addr = Some s ->
     (addr, [PacketID.to_u8 PacketID.Disconnect]) ∈ out.1 /\
     exists l' x, member i out.2 = Some l' /\ peers l' !! Server.close s = Some x /\ remote x = addr /\ closed x = true) /\
  (forall i, is_Some (member i g) -> exists l', member i out.2 = Some l' /\
     sessions l' = ∅ /\ version_map l' = ∅ /\ close_notifier l' = true /\ socket_open l' = false) /\
  (forall take_close, (accept take_close out.2).1 = Some (Err NotListen)) /\
  listen port out.2 = out.2 /\ (close addresses' out.2).1 = [].
Proof.
  intros Hb Hs Hr g out. destruct (starts_inv backlog start Hb Hs) as [Hi _].
  destruct (run_group backlog [] events start Hi Hr) as [Hg Hm _]. fold g in Hg, Hm.
  assert (forall i l, member i g = Some l -> listener_inv backlog l /\ socket_open l = true /\ listened l = true) as Hall
    by (intros i l Hl; by destruct (Hm i l Hl)). clear Hm.
  destruct (close_each backlog addresses g Hg Hall) as (Hg' & Hlen & He). fold out in Hg', Hlen, He.
  destruct (proj2 (member_some 0 g Hg)) as [p Hp]; [lia|]. destruct (He 0%nat p Hp) as (p' & Hp' & _ & _ & _ & Hsig & _ & Hli).
  split_and!.
  - intros i l addr s Hl Hsx. destruct (He i l Hl) as (l' & Hl' & H1 & _). destruct (H1 addr s Hsx) as (Hin & x & Hx).
    split; [done|]. by exists l', x.
  - intros i [l Hl]. destruct (He i l Hl) as (l' & Hl' & _ & H2). exists l'. tauto.
  - intros tc. unfold accept. rewrite (turn_shared _ _ _ _ _ p' Hg' Hp').
    + unfold Server.accept. by rewrite Hli.
    + intros s [= <-]. destruct (sh_handles _ Hg' 0%nat _ eq_refl) as (_ & _ & ->). by rewrite (sh_receiver _ Hg').
  - destruct (shared_members _ Hg') as (c & t & _ & _ & Hm). rewrite Hm in Hp'. injection Hp' as <-.
    unfold listen. simpl in Hsig. by rewrite Hsig.
  - apply close_again; [done|]. intros i l' Hl'. assert (is_Some (member i out.2)) as Hlt%(member_some _ _ Hg') by eauto.
    rewrite Hlen in Hlt. apply (member_some i g Hg) in Hlt as [l Hl]. destruct (He i l Hl) as (l2 & Hl2 & _ & _ & _ & _ & Ho & _).
    by simplify_eq.
Qed.
End Invariant.

(** ** The theorems at work

    Two sockets on one address; the datagrams of every peer go to the second one, which
    negotiates with a client, and the application accepts it from the first. Then the
    operating system fails a receive on the first, whose receiving task ends. *)

Definition sample_group : Group Channel :=
  match bind_with_socket_shards [(Bound, 42); (Bound, 43)] with
  | Ok g =>
      match (with_accept_backlog 8 g ≫= with_idle_maintenance false) ≫= with_receive_batching true with
      | Some g => listen 19132 g
      | None => g
      end
  | Err _ => mk_group (from_udp_socket 0 empty_store).1 [] empty_store
  end.

Lemma sample_group_starts : starts 8 sample_group.
Proof. exists [(Bound, 42); (Bound, 43)], false, true, 19132. repeat eexists. Qed.

Definition sample_turns : list (nat * event) := map (pair 1%nat) sample_negotiation ++ [(0%nat, ReceiveFails)].

Lemma sample_turns_routed : routed (fun _ => 1%nat) sample_turns.
Proof.
  apply Forall_app. split; [|by apply Forall_cons_2; [|by apply Forall_nil_2]].
  apply list.Forall_forall. by intros x (e & -> & _)%list_elem_of_fmap addr _.
Qed.

Lemma sample_members :
  next_peer <$> member 1 (run sample_turns sample_group).2 = Some 1 /\
  next_peer <$> member 0 (run sample_turns sample_group).2 = Some 0.
Proof. split; vm_compute; reflexivity. Qed.

Lemma sample_failure : (0%nat, ReceiveFails) ∈ sample_turns /\ (1%nat, ReceiveFails) ∉ sample_turns.
Proof. split; apply (bool_decide_unpack _); vm_compute; exact I. Qed.

Lemma group_serves_as_one_witness :
  let g := (run sample_turns sample_group).2 in
  let offered := accepted_sockets (run sample_turns sample_group).1 ++ waiting g in
  map peer (from_member (fun _ => 1%nat) 1 offered) = [0] /\ map peer_addr offered = [sample_client] /\
  exists p l, member 0 g = Some p /\ member 1 g = Some l /\ receiving p = false /\ receiving l = true.
Proof.
  destruct (group_serves_as_one (fun _ => 1%nat) 8 sample_group sample_turns ltac:(lia) sample_group_starts sample_turns_routed)
    as (_ & _ & Hm). cbv zeta.
  destruct sample_members as [(l & El & E1)%fmap_Some (p & Ep & _)%fmap_Some].
  destruct (Hm 1%nat l El) as (E & _ & _ & Hl & _). destruct (Hm 0%nat p Ep) as (_ & _ & _ & Hp & _). clear Hm.
  split; [rewrite E, <- E1; reflexivity|split; [vm_compute; reflexivity|]]. exists p, l.
  split; [exact Ep|]. split; [exact El|]. split.
  - apply not_true_iff_false. rewrite Hp. intros Hn. exact (Hn (proj1 sample_failure)).
  - apply Hl. exact (proj2 sample_failure).
Defined.

Lemma sample_session : is_Some (member 1 (run (take 2 sample_turns) sample_group).2 ≫= fun l => sessions l !! sample_client).
Proof. apply is_Some_alt. vm_compute. exact I. Qed.

Lemma group_closes_together_witness :
  let out := close (fun _ => []) (run (take 2 sample_turns) sample_group).2 in
  (sample_client, [PacketID.to_u8 PacketID.Disconnect]) ∈ out.1 /\ (close (fun _ => []) out.2).1 = [].
Proof.
  assert (routed (fun _ => 1%nat) (take 2 sample_turns)) as Hr by (apply Forall_take, sample_turns_routed).
  destruct (group_closes_together (fun _ => 1%nat) 8 sample_group (take 2 sample_turns) (fun _ => []) (fun _ => []) 19132
    ltac:(lia) sample_group_starts Hr) as (Hs & _ & _ & _ & Hc).
  split; [|exact Hc].
  destruct sample_session as [s (l & El & Es)%bind_Some].
  exact (proj1 (Hs 1%nat l sample_client s El Es)).
Defined.
