(* ===== verification/Connect.v ===== *)
(** * Connecting

    [connect_with_version_and_mtu] and [ping] of [src/src/socket.rs]: the client's side of
    the offline negotiation, and its agreement with the listener.

    What the network does is a list of rounds, one for each iteration of a loop that sends a
    request and waits for an answer. *)

From S2P Require Import Prelude Errors Datatype Packet PacketCodec Runtime Server ServerInv.

(** An iteration: the request is not sent; or it is, and nothing comes within the timeout,
    or the receive fails, or a datagram comes. *)
Inductive round : Type :=
  | SendFails
  | Silence
  | ReceiveFails
  | Receives (buf : list Z) (source : SocketAddr).

(** [loop { send; receive; ... continue / break / return }]: [react] is [None] on [continue].
    The requests sent, and how the loop ends with the rounds left, unless they run out. *)
Fixpoint await {A} (request : list Z) (react : list Z -> SocketAddr -> option (Result A))
    (rounds : list round) : list (list Z) * option (Result A * list round) :=
  match rounds with
  | [] => ([], None)
  | SendFails :: rounds => await request react rounds
  | Silence :: rounds | ReceiveFails :: rounds =>
      let '(sent, outcome) := await request react rounds in (request :: sent, outcome)
  | Receives buf source :: rounds =>
      match react buf source with
      | Some r => ([request], Some (r, rounds))
      | None => let '(sent, outcome) := await request react rounds in (request :: sent, outcome)
      end
  end.

(** The answers to the first request. *)
Definition on_reply_1 (addr : SocketAddr) (buf : list Z) (source : SocketAddr) : option (Result (list Z)) :=
  match buf with
  | [] => None
  | id :: _ =>
      if negb (bool_decide (source = addr)) then None
      else if negb (id =? PacketID.to_u8 PacketID.OpenConnectionReply1) then
        if id =? PacketID.to_u8 PacketID.IncompatibleProtocolVersion
        then Some (Err NotSupportVersion)
        else None
      else Some (Ok buf)
  end.

(** The answers to the second request: [mtu_size] is the MTU of the first reply. *)
Definition on_reply_2 (addr : SocketAddr) (mtu_size : Z) (buf : list Z) (source : SocketAddr)
    : option (Result Z) :=
  match buf with
  | [] => None
  | id :: _ =>
      if negb (bool_decide (source = addr)) then None
      else if id =? PacketID.to_u8 PacketID.OpenConnectionReply1 then None
      else if match PacketID.from id with
              | Ok PacketID.AlreadyConnected | Ok PacketID.Disconnect => true
              | _ => false
              end
      then Some (Err ConnectionClosed)
      else if negb (id =? PacketID.to_u8 PacketID.OpenConnectionReply2) then None
      else match read_packet_connection_open_reply_2 buf with
           | Err _ => Some (Err PacketParseError)
           | Ok reply2 =>
               if negb ((61 <=? rep2_mtu reply2) && (rep2_mtu reply2 <=? mtu_size))
               then Some (Err IncorrectReply)
               else Some (Ok (rep2_mtu reply2))
           end
  end.

(** [rand::random::<u64>() | (1_u64 << 63)] *)
Definition client_guid (random : Z) : Z := Z.lor random (2 ^ 63).

(** The second phase. *)
Definition negotiate_2 (addr : SocketAddr) (guid mtu_size : Z) (rounds : list round)
    : list (list Z) * option (Result Z) :=
  match write_packet_connection_open_request_2 (mk_OpenConnectionRequest2 addr mtu_size guid) with
  | Err e => ([], Some (Err e))
  | Ok buf => let '(sent, outcome) := await buf (on_reply_2 addr mtu_size) rounds in (sent, fst <$> outcome)
  end.

(** The negotiation: the requests sent, and the MTU or the error, [None] while it lasts. *)
Definition negotiate (addr : SocketAddr) (raknet_version requested_mtu random : Z) (rounds : list round)
    : list (list Z) * option (Result Z) :=
  if negb ((61 <=? requested_mtu) && (requested_mtu <=? RAKNET_MAX_MTU))
  then ([], Some (Err PacketSizeExceedMTU))
  else
    match write_packet_connection_open_request_1 (mk_OpenConnectionRequest1 raknet_version requested_mtu) with
    | Err e => ([], Some (Err e))
    | Ok buf =>
        let '(sent, outcome) := await buf (on_reply_1 addr) rounds in
        match outcome with
        | None => (sent, None)
        | Some (Err e, _) => (sent, Some (Err e))
        | Some (Ok reply1_buf, rounds) =>
            match read_packet_connection_open_reply_1 reply1_buf with
            | Err _ => (sent, Some (Err PacketParseError))
            | Ok reply1 =>
                if negb ((61 <=? rep1_mtu_size reply1) && (rep1_mtu_size reply1 <=? requested_mtu))
                then (sent, Some (Err IncorrectReply))
                else
                  let '(sent', outcome) := negotiate_2 addr (client_guid random) (rep1_mtu_size reply1) rounds in
                  (sent ++ sent', outcome)
            end
        end
    end.

(** [ping]: the round trips until a pong is read; the latency reported is the difference
    between the time in the pong and the time the ping was sent (in [i64], which wraps),
    [times] giving the latter for each round. *)
Fixpoint ping (times : list Z) (rounds : list round) : option (Result (Z * list Z)) :=
  match times, rounds with
  | _, SendFails :: _ => Some (Err SocketError)
  | _ :: times, Silence :: rounds => ping times rounds
  | _, ReceiveFails :: _ => Some (Err SocketError)
  | time :: times, Receives buf _ :: rounds =>
      match read_packet_pong (take 1024 (buf ++ repeat 0 1024)) with
      | Ok p => Some (Ok (signed 64 (upong_time p - time), upong_motd p))
      | Err _ => ping times rounds
      end
  | _, _ => None
  end.

(** ** Agreement with the listener *)

Lemma await_outcome {A} request react rounds (r : Result A) rest :
  (await request react rounds).2 = Some (r, rest) ->
  exists before buf source, rounds = before ++ Receives buf source :: rest /\ react buf source = Some r.
Proof.
  induction rounds as [|[| | |buf source] rounds IH]; simpl; [done|..].
  - intros Ha. destruct (IH Ha) as (before & b & s & -> & Hr). by exists (SendFails :: before), b, s.
  - destruct (await request react rounds) as [sent o]. intros Ha.
    destruct (IH Ha) as (before & b & s & -> & Hr). by exists (Silence :: before), b, s.
  - destruct (await request react rounds) as [sent o]. intros Ha.
    destruct (IH Ha) as (before & b & s & -> & Hr). by exists (ReceiveFails :: before), b, s.
  - destruct (react buf source) as [r'|] eqn:Er.
    + intros [= -> ->]. by exists [], buf, source.
    + destruct (await request react rounds) as [sent o]. intros Ha.
      destruct (IH Ha) as (before & b & s & -> & Hr). by exists (Receives buf source :: before), b, s.
Qed.

(** A successful negotiation ended with two replies. *)
Lemma negotiate_ok addr version requested random rounds mtu :
  (negotiate addr version requested random rounds).2 = Some (Ok mtu) ->
  61 <= requested <= RAKNET_MAX_MTU /\
  exists buf1 buf2 reply1 reply2,
    Receives buf1 addr ∈ rounds /\ read_packet_connection_open_reply_1 buf1 = Ok reply1 /\
    rep1_mtu_size reply1 <= requested /\
    Receives buf2 addr ∈ rounds /\ head buf2 = Some (PacketID.to_u8 PacketID.OpenConnectionReply2) /\
    read_packet_connection_open_reply_2 buf2 = Ok reply2 /\ rep2_mtu reply2 = mtu /\
    61 <= mtu <= rep1_mtu_size reply1.
Proof.
  unfold negotiate. case_if; [discriminate|]. b2p.
  destruct (write_packet_connection_open_request_1 _) as [buf|]; [|discriminate].
  destruct (await buf (on_reply_1 addr) rounds) as [sent o] eqn:E1.
  destruct o as [[[buf1|] rest]|]; [|discriminate..].
  destruct (await_outcome buf (on_reply_1 addr) rounds (Ok buf1) rest) as (bf1 & b1 & s1 & -> & Hr1);
    [by rewrite E1|].
  unfold on_reply_1 in Hr1. destruct b1 as [|id1 b1]; [discriminate|].
  case_bool_decide as Hs1; simpl in Hr1; [|discriminate]. subst s1. case_if_in Hr1; [case_if_in Hr1; discriminate|].
  injection Hr1 as <-.
  destruct (read_packet_connection_open_reply_1 _) as [reply1|] eqn:Er1; [|discriminate].
  case_if; [discriminate|]. b2p. unfold negotiate_2.
  destruct (write_packet_connection_open_request_2 _) as [buf2|]; [|discriminate].
  destruct (await buf2 (on_reply_2 addr (rep1_mtu_size reply1)) rest) as [sent' o] eqn:E2.
  destruct o as [[r rest2]|]; [|discriminate]. intros [= ->].
  destruct (await_outcome buf2 (on_reply_2 addr (rep1_mtu_size reply1)) rest (Ok mtu) rest2)
    as (bf2 & b2 & s2 & -> & Hr2); [by rewrite E2|].
  unfold on_reply_2 in Hr2. destruct b2 as [|id2 b2]; [discriminate|].
  case_bool_decide as Hs2; simpl in Hr2; [|discriminate]. subst s2.
  case_if_in Hr2; [discriminate|]. case_if_in Hr2; [discriminate|]. case_if_in Hr2; [discriminate|].
  destruct (read_packet_connection_open_reply_2 _) as [reply2|] eqn:Er2; [|discriminate].
  case_if_in Hr2; [discriminate|]. injection Hr2 as <-. b2p.
  split; [lia|]. exists (id1 :: b1), (id2 :: b2), reply1, reply2. subst id2.
  split; [set_solver|]. split; [done|]. split; [lia|]. split; [set_solver|]. split_and!; try done; lia.
Qed.

(** The listener answered some datagram of [client] with [bs], in the history [events]. *)
Definition answered `{Mpsc chan} (start : Listener chan) (events : list event) (client : SocketAddr)
    (bs : list Z) : Prop :=
  exists before timestamp now sent d after pkts,
    events = before ++ Datagram timestamp now sent d client :: after /\
    (step (Datagram timestamp now sent d client) (run before start).2).1 = Sends pkts /\ (client, bs) ∈ pkts.

(** The datagrams of [client] in the history are requests of this connection attempt. *)
Definition own_requests (events : list event) (client server : SocketAddr) (version requested guid : Z) : Prop :=
  forall timestamp now sent d, Datagram timestamp now sent d client ∈ events ->
    write_packet_connection_open_request_1 (mk_OpenConnectionRequest1 version requested) = Ok d \/
    exists mtu, in_range 16 mtu /\
      write_packet_connection_open_request_2 (mk_OpenConnectionRequest2 server mtu guid) = Ok d.

Lemma client_guid_range random : in_range 64 random -> in_range 64 (client_guid random).
Proof.
  unfold in_range, client_guid. intros Hr. split; [apply Z.lor_nonneg; lia|].
  apply Z.log2_lt_cancel. rewrite Z.log2_lor by lia.
  destruct (decide (random = 0)) as [->|]; [simpl; lia|].
  assert (Z.log2 random < 64) by (apply Z.log2_lt_pow2; lia).
  change (Z.log2 (2 ^ 63)) with 63. change (Z.log2 (2 ^ 64)) with 64. lia.
Qed.

(** A reply of the listener, read by the client. *)
Lemma reply_2_read guid addr mtu bs :
  in_range 64 guid -> SocketAddr_wf addr -> in_range 16 mtu ->
  write_packet_connection_open_reply_2 (mk_OpenConnectionReply2 guid addr mtu 0) = Ok bs ->
  read_packet_connection_open_reply_2 bs = Ok (mk_OpenConnectionReply2 guid (wire_address addr) mtu 0).
Proof.
  intros Hg Ha Hm Hw. destruct (codec_open_connection_reply_2 (mk_OpenConnectionReply2 guid addr mtu 0))
    as (bs' & Hw' & _ & Hr); [done|].
  rewrite Hw in Hw'. by injection Hw' as <-.
Qed.

(** The requests of the client, read by the listener. *)
Lemma request_2_read addr mtu guid bs :
  SocketAddr_wf addr -> in_range 16 mtu -> in_range 64 guid ->
  write_packet_connection_open_request_2 (mk_OpenConnectionRequest2 addr mtu guid) = Ok bs ->
  head bs = Some 0x07 /\
  read_packet_connection_open_request_2 bs = Ok (mk_OpenConnectionRequest2 (wire_address addr) mtu guid).
Proof.
  intros Ha Hm Hg Hw. destruct (codec_open_connection_request_2 (mk_OpenConnectionRequest2 addr mtu guid))
    as (bs' & Hw' & Hh & Hr); [done|].
  rewrite Hw in Hw'. by injection Hw' as <-.
Qed.

Lemma request_1_read version mtu bs :
  in_range 8 version -> 46 <= mtu < 2 ^ 16 ->
  write_packet_connection_open_request_1 (mk_OpenConnectionRequest1 version mtu) = Ok bs ->
  head bs = Some 0x05 /\
  read_packet_connection_open_request_1 bs = Ok (mk_OpenConnectionRequest1 version mtu).
Proof.
  intros Hv Hm Hw. destruct (codec_open_connection_request_1 (mk_OpenConnectionRequest1 version mtu))
    as (bs' & Hw' & Hh & Hr); [done|].
  rewrite Hw in Hw'. by injection Hw' as <-.
Qed.

(** C13: client and listener agree on the negotiation. Let a client at [client] negotiate with
    a listener at [server] over a network that loses, delays, repeats and reorders datagrams
    in any way, while other peers do what they want: all that is assumed is that what comes
    from the listener's address was sent by the listener, and what the listener gets from the
    client's address was sent by this attempt. When the negotiation succeeds with an MTU, the
    listener had at some moment a session for the client's address, with the client's GUID and
    this very MTU, which exceeds neither the client's request nor the listener's maximum. *)
Theorem negotiation_agrees `{Mpsc chan} guid maximum backlog idle local_port events
    client server version requested random rounds mtu :
  0 <= backlog -> in_range 16 maximum -> in_range 64 guid -> in_range 64 random -> in_range 8 version ->
  SocketAddr_wf client -> SocketAddr_wf server ->
  let start := started guid maximum backlog idle local_port : Listener chan in
  (forall buf, Receives buf server ∈ rounds -> answered start events client buf) ->
  own_requests events client server version requested (client_guid random) ->
  (negotiate server version requested random rounds).2 = Some (Ok mtu) ->
  61 <= mtu <= Z.min requested maximum /\
  exists before after s, events = before ++ after /\
    sessions (run before start).2 !! client = Some s /\
    session_guid s = client_guid random /\ session_mtu s = mtu.
Proof.
  intros Hb Hmax Hg Hrnd Hv Hc Hs start Hnet Hown Hok.
  apply negotiate_ok in Hok as (Hreq & buf1 & buf2 & reply1 & reply2 & _ & _ & Hm1 & Hin & Hid & Hread & <- & Hm2).
  destruct (Hnet _ Hin) as (before & t & n & snt & d & after & pkts & -> & Hout & Hpk).
  pose proof (listener_reached_inv guid maximum backlog idle local_port before Hb) as Hi. fold start in Hi.
  pose proof (listener_run_settings before start) as Hset. unfold start in Hset at 2.
  rewrite started_settings in Hset. injection Hset as Hgu Hmx.
  destruct (reply_2_backed backlog t n snt d client (run before start).2 pkts client buf2 Hi Hout Hpk Hid)
    as (_ & req & s & Hhd & Hrq & Hses & Hsg & Hmtu & Hw).
  unfold reply_2 in Hw. rewrite Hgu in Hw. rewrite Hmx in Hmtu.
  rewrite (reply_2_read guid client (session_mtu s) buf2) in Hread by (done || unfold in_range in *; lia).
  injection Hread as <-. cbn [rep2_mtu] in *. split; [lia|].
  exists (before ++ [Datagram t n snt d client]), after, s. split; [by rewrite <- app_assoc|]. split.
  - rewrite listener_run_app. cbn [snd run]. revert Hses.
    by destruct (step (Datagram t n snt d client) (run before start).2).
  - split; [|done]. rewrite Hsg.
    destruct (Hown t n snt d ltac:(set_solver)) as [Hd|(m & Hm & Hd)].
    + unfold RAKNET_MAX_MTU in *. apply request_1_read in Hd as [Hd _]; [|done|lia].
      rewrite Hd in Hhd. discriminate.
    + apply request_2_read in Hd as [_ Hd]; [|done|done|by apply client_guid_range].
      rewrite Hd in Hrq. by injection Hrq as <-.
Qed.

Lemma reply_1_read guid mtu bs :
  in_range 64 guid -> in_range 16 mtu ->
  write_packet_connection_open_reply_1 (mk_OpenConnectionReply1 guid 0 mtu) = Ok bs ->
  head bs = Some 0x06 /\ read_packet_connection_open_reply_1 bs = Ok (mk_OpenConnectionReply1 guid 0 mtu).
Proof.
  intros Hg Hm Hw. destruct (codec_open_connection_reply_1 (mk_OpenConnectionReply1 guid 0 mtu))
    as (bs' & Hw' & Hh & Hr); [done|]. rewrite Hw in Hw'. by injection Hw' as <-.
Qed.

Lemma reply_1_writes guid mtu :
  exists bs, write_packet_connection_open_reply_1 (mk_OpenConnectionReply1 guid 0 mtu) = Ok bs.
Proof. eexists. reflexivity. Qed.

Lemma reply_2_writes guid addr mtu :
  in_range 64 guid -> SocketAddr_wf addr -> in_range 16 mtu ->
  exists bs, write_packet_connection_open_reply_2 (mk_OpenConnectionReply2 guid addr mtu 0) = Ok bs /\
    head bs = Some 0x08.
Proof.
  intros Hg Ha Hm. destruct (codec_open_connection_reply_2 (mk_OpenConnectionReply2 guid addr mtu 0))
    as (bs & Hw & Hh & _); [done|]. eauto.
Qed.

(** The listener's answer to a first request it can take. *)
Lemma request_1_answered `{Mpsc chan} timestamp now sent buf client version requested (self : Listener chan) :
  receiving self = true -> head buf = Some 0x05 ->
  read_packet_connection_open_request_1 buf = Ok (mk_OpenConnectionRequest1 version requested) ->
  version ∈ RAKNET_PROTOCOL_VERSION_LIST -> Z.of_nat (size (pending_versions self)) < 4096 ->
  exists bs,
    write_packet_connection_open_reply_1
      (mk_OpenConnectionReply1 (guid self) 0 (Z.min requested (maximum_mtu self))) = Ok bs /\
    step (Datagram timestamp now sent buf client) self =
      (Sends [(client, bs)],
       self <| pending_versions := <[client := (version, now)]> (pending_versions self) |>).
Proof.
  intros Hrc Hhd Hr Hver Hp. destruct (reply_1_writes (guid self) (Z.min requested (maximum_mtu self))) as [bs Hbs].
  exists bs. split; [done|]. destruct buf as [|id buf]; [done|]. injection Hhd as ->.
  cbn [step]. unfold receive. rewrite Hrc. unfold on_datagram. cbn [PacketID.from PacketID.try_from Z.leb Z.compare andb or_continue].
  unfold on_open_connection_request_1, or_continue. rewrite Hr. cbn [req1_protocol_version req1_mtu_size].
  rewrite bool_decide_eq_true_2 by done. cbn [negb].
  replace (4096 <=? Z.of_nat (size (pending_versions self))) with false by blia. cbn [andb]. cbv zeta.
  change (guid (self <| pending_versions := _ |>)) with (guid self).
  change (maximum_mtu (self <| pending_versions := _ |>)) with (maximum_mtu self). by rewrite Hbs.
Qed.

(** The listener's answer to a second request when the backlog has room. *)
Lemma request_2_answered `{Mpsc chan} timestamp now buf client req (self : Listener chan) :
  receiving self = true -> in_range 64 (guid self) -> SocketAddr_wf client -> in_range 16 (req2_mtu req) ->
  head buf = Some 0x07 -> read_packet_connection_open_request_2 buf = Ok req ->
  61 <= req2_mtu req <= maximum_mtu self -> sessions self !! client = None ->
  receiver_closed (view (connection self)) = false -> Channel.full (view (connection self)) = false ->
  exists bs,
    reply_2 self client (req2_mtu req) = Ok bs /\ head bs = Some 0x08 /\
    (step (Datagram timestamp now true buf client) self).1 = Sends [(client, bs)] /\
    sessions (step (Datagram timestamp now true buf client) self).2 !! client =
      Some (mk_session (next_peer self) (next_peer self) (req2_guid req) (req2_mtu req)).
Proof.
  intros Hrc Hg Hc Hm Hhd Hr Hmtu Hs Hop Hroom.
  destruct (reply_2_writes (guid self) client (req2_mtu req) Hg Hc Hm) as (bs & Hbs & Hb8).
  exists bs. split; [done|]. split; [done|]. destruct buf as [|id buf]; [done|]. injection Hhd as ->.
  cbn [step]. unfold receive. rewrite Hrc. unfold on_datagram. cbn [PacketID.from PacketID.try_from Z.leb Z.compare andb or_continue].
  unfold on_open_connection_request_2, or_continue. rewrite Hr. cbv zeta.
  change (maximum_mtu (self <| dispatch_cache := _ |>)) with (maximum_mtu self).
  change (sessions (self <| dispatch_cache := _ |>)) with (sessions self).
  change (connection (self <| dispatch_cache := _ |>)) with (connection self).
  replace ((61 <=? req2_mtu req) && (req2_mtu req <=? maximum_mtu self)) with true by (symmetry; lia).
  cbn [negb]. rewrite Hs. pose proof (try_reserve_result (connection self)) as Ht.
  unfold Channel.try_reserve in Ht. rewrite Hop, Hroom in Ht. cbn [fst] in Ht.
  destruct (try_reserve (connection self)) as [o c]. cbn [fst] in Ht. subst o. cbv zeta.
  change (guid (self <| dispatch_cache := _ |> <| connection := _ |>)) with (guid self). rewrite Hbs.
  cbn [fst snd]. split; [done|]. unfold create_session, new_socket. simpl. by rewrite lookup_insert_eq.
Qed.

(** C29: a negotiation that nothing disturbs succeeds. From any state of the listener in which
    its receiving task runs (no receive has failed), the client has no session, the backlog
    has room and fewer than 4096 negotiations are pending, and for a protocol version the
    listener supports: the client's first request is answered, the answer makes it send its
    second request, that one is answered too, and the client ends with the smaller of the MTU
    it asked for and the listener's maximum, which is also the MTU of the session the listener
    has then created under the client's GUID. *)
Theorem negotiation_completes `{Mpsc chan} guid maximum backlog idle local_port events
    client server version requested random t1 t2 n1 n2 sent :
  0 <= backlog -> 61 <= maximum < 2 ^ 16 -> in_range 64 guid -> in_range 64 random ->
  61 <= requested <= RAKNET_MAX_MTU -> version ∈ RAKNET_PROTOCOL_VERSION_LIST ->
  SocketAddr_wf client -> SocketAddr_wf server ->
  let self := (run events (started guid maximum backlog idle local_port : Listener chan)).2 in
  receiving self = true -> sessions self !! client = None -> Channel.full (view (connection self)) = false ->
  Z.of_nat (size (pending_versions self)) < 4096 ->
  exists request1 reply1 self1 request2 reply2,
    step (Datagram t1 n1 sent request1 client) self = (Sends [(client, reply1)], self1) /\
    (step (Datagram t2 n2 true request2 client) self1).1 = Sends [(client, reply2)] /\
    negotiate server version requested random [Receives reply1 server; Receives reply2 server]
      = ([request1; request2], Some (Ok (Z.min requested maximum))) /\
    exists s, sessions (step (Datagram t2 n2 true request2 client) self1).2 !! client = Some s /\
      session_guid s = client_guid random /\ session_mtu s = Z.min requested maximum.
Proof.
  intros Hb Hmax Hg Hrnd Hreq Hver Hc Hsv self Hrun Hs Hroom Hpend. unfold RAKNET_MAX_MTU in Hreq.
  pose proof (listener_reached_inv guid maximum backlog idle local_port events Hb) as Hi. fold self in Hi.
  pose proof (listener_run_settings events (started guid maximum backlog idle local_port)) as Hset.
  fold self in Hset. rewrite started_settings in Hset. injection Hset as Hgu Hmx.
  set (mtu := Z.min requested maximum).
  assert (61 <= mtu < 2 ^ 16) as Hmtu by (unfold mtu; lia).
  assert (in_range 16 mtu) as Hm16 by (unfold in_range; lia).
  assert (in_range 8 version) as Hv8.
  { unfold RAKNET_PROTOCOL_VERSION_LIST in Hver. unfold in_range. set_solver by lia. }
  pose proof (client_guid_range random Hrnd) as Hcg.
  destruct (codec_open_connection_request_1 (mk_OpenConnectionRequest1 version requested))
    as (q1 & Hw1 & Hh1 & Hr1); [simpl; split; [done|lia]|].
  destruct (codec_open_connection_request_2 (mk_OpenConnectionRequest2 server mtu (client_guid random)))
    as (q2 & Hw2 & Hh2 & Hr2); [done|]. cbn [req2_address req2_mtu req2_guid] in Hr2.
  destruct (request_1_answered t1 n1 sent q1 client version requested self Hrun Hh1 Hr1 Hver Hpend) as (p1 & Hp1 & Hst1).
  rewrite Hgu, Hmx in Hp1. fold mtu in Hp1.
  set (self1 := self <| pending_versions := <[client := (version, n1)]> (pending_versions self) |>) in *.
  assert (in_range 64 (Server.guid self1)) as Hg1 by (change (in_range 64 (Server.guid self)); by rewrite Hgu).
  destruct (request_2_answered t2 n2 q2 client
    (mk_OpenConnectionRequest2 (wire_address server) mtu (client_guid random)) self1 Hrun Hg1 Hc Hm16 Hh2 Hr2)
    as (p2 & Hp2 & Hh8 & Hst2 & Hses); [|done|apply (proj1 (li_open _ _ Hi))|done|].
  { change (maximum_mtu self1) with (maximum_mtu self). rewrite Hmx. unfold mtu. simpl. lia. }
  unfold reply_2 in Hp2. cbn [req2_mtu] in Hp2.
  change (Server.guid self1) with (Server.guid self) in Hp2. rewrite Hgu in Hp2.
  exists q1, p1, self1, q2, p2.
  split; [done|]. split; [done|]. split; [|by eexists].
  apply reply_1_read in Hp1 as [Hi1 Hd1]; [|done..]. apply reply_2_read in Hp2; [|done..].
  unfold negotiate. replace ((61 <=? requested) && (requested <=? RAKNET_MAX_MTU)) with true
    by (unfold RAKNET_MAX_MTU; lia). cbn [negb]. rewrite Hw1.
  destruct p1 as [|i1 p1]; [done|]. injection Hi1 as ->. cbn [await]. unfold on_reply_1 at 1.
  rewrite bool_decide_eq_true_2 by done. cbn [negb Z.eqb PacketID.to_u8 Pos.eqb]. rewrite Hd1.
  cbn [rep1_mtu_size].
  replace ((61 <=? mtu) && (mtu <=? requested)) with true by (unfold mtu; lia). cbn [negb].
  unfold negotiate_2. rewrite Hw2. destruct p2 as [|i2 p2]; [done|]. injection Hh8 as ->.
  cbn [await]. unfold on_reply_2 at 1. rewrite bool_decide_eq_true_2 by done.
  cbn [negb Z.eqb PacketID.to_u8 Pos.eqb PacketID.from PacketID.try_from Z.leb Z.compare andb].
  rewrite Hp2. cbn [rep2_mtu]. replace ((61 <=? mtu) && (mtu <=? mtu)) with true by lia. done.
Qed.

(** ** Ping

    The pong carries the listener's clock, not an echo of the ping: the latency a ping
    reports is the difference between two clocks, read when the ping was sent and when it
    was answered, and does not depend on when the answer arrives. *)

Lemma pong_read_padded p bs rest :
  Message_wf (MUnconnectedPong p) -> write_packet_pong p = Ok bs -> zlen (bs ++ rest) < 2 ^ 64 ->
  read_packet_pong (bs ++ rest) = Ok p.
Proof.
  destruct p as [t g text]. simpl. intros (Ht & Hg & Hu & Hl) Hw Hlen.
  pose (bytes := [0x1c] ++ to_bytes 8 Big t ++ to_bytes 8 Big g ++ magic ++ to_bytes 2 Big (zlen text) ++ text).
  assert (reads (_ ← RaknetReader.read_u8; time ← RaknetReader.read_i64 Big; guid ← RaknetReader.read_u64 Big;
    _ ← Packet.read_magic; motd ← RaknetReader.read_string; mret (mk_PacketUnconnectedPong time guid motd))
    bytes (mk_PacketUnconnectedPong t g text)) as Hr.
  { unfold bytes. eapply reads_bind; [by apply reads_u8|]. wire_reads.
    eapply reads_bind_last; [by apply reads_string|]. apply reads_ret. }
  assert (bs = bytes) as ->.
  { cut (write_packet_pong (mk_PacketUnconnectedPong t g text) = Ok bytes); [congruence|].
    apply run_writes. unfold bytes. repeat (eapply writes_bind; [solve [eauto with wire]|]).
    by apply writes_string. }
  by apply (run_reads _ bytes rest).
Qed.

Lemma ping_reports_clock_difference `{Mpsc chan} timestamp buf addr (self : Listener chan) bs time times rounds source :
  Message_wf (MUnconnectedPong (mk_PacketUnconnectedPong timestamp (guid self) (announced self))) ->
  on_ping timestamp buf addr self = (Continue [(addr, bs)], self) -> zlen bs <= 1024 ->
  ping (time :: times) (Receives bs source :: rounds) = Some (Ok (signed 64 (timestamp - time), announced self)).
Proof.
  intros Hwf Hp Hlen. unfold on_ping, or_continue in Hp. destruct (read_packet_ping buf); [|discriminate].
  destruct (write_packet_pong _) as [bs'|] eqn:Hw; [|discriminate]. injection Hp as ->.
  cbn [ping]. rewrite take_app_ge by lia.
  rewrite (pong_read_padded _ _ _ Hwf Hw) by (rewrite length_app, length_take, repeat_length; lia). done.
Qed.

(** ** The theorems at work *)

Definition sample_server : SocketAddr := V4 (mk_ipv4 127 0 0 1) 19132.

Definition sample_packets : list (list Z) :=
  [bytes_or_none (write_packet_connection_open_request_1 (mk_OpenConnectionRequest1 11 1492));
   bytes_or_none (write_packet_connection_open_request_2
     (mk_OpenConnectionRequest2 sample_server 1400 (client_guid 5)))].

(** The second request is lost once and arrives twice. *)
Definition sample_attempt : list event :=
  match sample_packets with
  | [request1; request2] =>
      [Datagram 5 0 true request1 sample_client; Datagram 6 1 true request2 sample_client;
       Datagram 7 2 true request2 sample_client]
  | _ => []
  end.

Definition sample_replies : list (list Z) :=
  concat (map (fun out => match out with Sends l => map snd l | _ => [] end)
    (run sample_attempt sample_listener).1).

Definition sample_rounds : list round :=
  match sample_replies with
  | [reply1; _; reply2] => [Silence; Receives reply1 sample_server; SendFails; Receives reply2 sample_server]
  | _ => []
  end.

Lemma sample_wf : SocketAddr_wf sample_client /\ SocketAddr_wf sample_server.
Proof. split; (split; [repeat constructor; done|done]). Qed.

Lemma sample_answered buf :
  Receives buf sample_server ∈ sample_rounds -> answered sample_listener sample_attempt sample_client buf.
Proof.
  assert (exists r1 r2 r3 q1 q2,
    sample_replies = [r1; r2; r3] /\ sample_packets = [q1; q2] /\
    (run sample_attempt sample_listener).1 =
      [Sends [(sample_client, r1)]; Sends [(sample_client, r2)]; Sends [(sample_client, r3)]])
    as (r1 & r2 & r3 & q1 & q2 & Hr & Hq & Hrun) by (vm_compute; do 5 eexists; done).
  unfold sample_rounds, sample_attempt in *. rewrite Hq in *. rewrite Hr.
  intros Hin. assert (buf = r1 \/ buf = r3) as Hb.
  { rewrite !elem_of_cons in Hin. destruct Hin as [Hin|[Hin|[Hin|[Hin|Hin]]]];
      [discriminate|injection Hin; auto|discriminate|injection Hin; auto|by apply elem_of_nil in Hin]. }
  pose proof (listener_run_app [Datagram 5 0 true q1 sample_client; Datagram 6 1 true q2 sample_client]
    [Datagram 7 2 true q2 sample_client] sample_listener) as Happ.
  destruct Hb as [->| ->].
  - exists [], 5, 0, true, q1, [Datagram 6 1 true q2 sample_client; Datagram 7 2 true q2 sample_client],
      [(sample_client, r1)]. split; [done|]. split; [|apply list_elem_of_here].
    cbn [run snd]. cbn [run] in Hrun. destruct (step _ sample_listener) as [o s1].
    destruct (step _ s1) as [o2 s2]. destruct (step _ s2) as [o3 s3]. by injection Hrun as <- _ _.
  - exists [Datagram 5 0 true q1 sample_client; Datagram 6 1 true q2 sample_client], 7, 2, true, q2, [],
      [(sample_client, r3)]. split; [done|]. split; [|apply list_elem_of_here].
    cbn [run]. cbn [run] in Hrun. destruct (step _ sample_listener) as [o s1].
    destruct (step _ s1) as [o2 s2]. cbn [snd]. destruct (step _ s2) as [o3 s3]. by injection Hrun as _ _ <-.
Qed.

Lemma sample_own_requests :
  own_requests sample_attempt sample_client sample_server 11 1492 (client_guid 5).
Proof.
  intros t n b d Hin. unfold sample_attempt in Hin.
  assert (exists q1 q2, sample_packets = [q1; q2] /\
    write_packet_connection_open_request_1 (mk_OpenConnectionRequest1 11 1492) = Ok q1 /\
    write_packet_connection_open_request_2 (mk_OpenConnectionRequest2 sample_server 1400 (client_guid 5)) = Ok q2)
    as (q1 & q2 & Hq & H1 & H2) by (vm_compute; do 2 eexists; done).
  rewrite Hq in Hin. assert (d = q1 \/ d = q2) as [->| ->] by set_solver; [by left|].
  right. by exists 1400.
Qed.

Lemma negotiation_agrees_witness :
  exists before after s, sample_attempt = before ++ after /\
    sessions (run before sample_listener).2 !! sample_client = Some s /\ session_mtu s = 1400.
Proof.
  destruct sample_wf as [Hc Hs].
  assert ((negotiate sample_server 11 1492 5 sample_rounds).2 = Some (Ok 1400)) as Hok
    by (vm_compute; reflexivity).
  destruct (negotiation_agrees 42 1400 8 false 19132 sample_attempt sample_client sample_server 11 1492 5
    sample_rounds 1400 ltac:(lia) ltac:(unfold in_range; lia) ltac:(unfold in_range; lia)
    ltac:(unfold in_range; lia) ltac:(unfold in_range; lia) Hc Hs sample_answered
    sample_own_requests Hok) as (_ & before & after & s & He & Hse & _ & Hm).
  exists before, after, s. split; [exact He|]. split; [exact Hse|exact Hm].
Defined.

Lemma negotiation_completes_witness :
  exists request1 reply1 request2 reply2,
    negotiate sample_server 11 1492 5 [Receives reply1 sample_server; Receives reply2 sample_server]
      = ([request1; request2], Some (Ok 1400)).
Proof.
  destruct sample_wf as [Hc Hs].
  destruct (negotiation_completes (chan := Channel) 42 1400 8 false 19132 [] sample_client sample_server 11 1492 5
    0 1 0 1 true ltac:(lia) ltac:(lia) ltac:(done) ltac:(done) ltac:(unfold RAKNET_MAX_MTU; lia)
    ltac:(set_solver) Hc Hs ltac:(reflexivity) ltac:(reflexivity) ltac:(reflexivity) ltac:(done))
    as (request1 & reply1 & self1 & request2 & reply2 & _ & _ & Hn & _).
  exists request1, reply1, request2, reply2. exact Hn.
Defined.
