(* ===== verification/Socket.v ===== *)
(** * A connection

    [src/src/socket.rs]: the two tasks of a [RaknetSocket], and how frames reach the wire.
    [start_receiver] decodes the datagrams of the peer, feeds the receive queue, answers
    control packets and hands messages to the application; [start_tick] retransmits, asks
    for missing datagrams and closes a silent connection.

    The state shared by the tasks and the local variables of each are one record. A turn is
    one iteration of a task's loop; the clocks, the answers of the datagram input and the
    choices of [select!] are its arguments. What is handed to the UDP socket is appended to
    [wire]; a datagram the operating system refuses, or the simulated loss drops, is lost
    like one the network loses. *)

From S2P Require Import Prelude Errors Sequence Datatype Packet PacketCodec Frame FrameCodec Fragment AckSet RecvQ SendOptions SendQ Sending Runtime Udp.

Definition MAINTENANCE_IDLE_MILLIS : Z := 500.
Definition RECEIVE_TIMEOUT : Z := 60000.

(** ** Maintenance

    The handshake between the tasks and the timer of [start_tick]. [Notify] keeps at most
    one permit: [wakeup]. *)

Record Maintenance := mk_maintenance {
  wakeup : bool;
  idle : bool;
  enabled : bool;
  deadline : Z;
  deadline_driven : bool;
  wake_at : Z;
}.

#[export] Instance set_wakeup : Setter wakeup := fun g r =>
  mk_maintenance (g (wakeup r)) (idle r) (enabled r) (deadline r) (deadline_driven r)
    (wake_at r).
#[export] Instance set_idle : Setter idle := fun g r =>
  mk_maintenance (wakeup r) (g (idle r)) (enabled r) (deadline r) (deadline_driven r)
    (wake_at r).
#[export] Instance set_enabled : Setter enabled := fun g r =>
  mk_maintenance (wakeup r) (idle r) (g (enabled r)) (deadline r) (deadline_driven r)
    (wake_at r).
#[export] Instance set_deadline : Setter deadline := fun g r =>
  mk_maintenance (wakeup r) (idle r) (enabled r) (g (deadline r)) (deadline_driven r)
    (wake_at r).
#[export] Instance set_deadline_driven : Setter deadline_driven := fun g r =>
  mk_maintenance (wakeup r) (idle r) (enabled r) (deadline r) (g (deadline_driven r))
    (wake_at r).
#[export] Instance set_wake_at : Setter wake_at := fun g r =>
  mk_maintenance (wakeup r) (idle r) (enabled r) (deadline r) (deadline_driven r)
    (g (wake_at r)).

Definition default_maintenance : Maintenance := mk_maintenance false false false I64_MAX false I64_MAX.

Definition notify_one (self : Maintenance) : Maintenance := self <| wakeup := true |>.

(** [idle.swap(false)], and a wake-up if it was set. *)
Definition leave_idle (self : Maintenance) : Maintenance :=
  if idle self then notify_one (self <| idle := false |>) else self.

(** [Maintenance::publish] (feature [recovery-policy]). *)
Definition publish `{!Features} (queue : SendQ) (wake : bool) (self : Maintenance) : Maintenance :=
  if negb recovery_policy then self
  else if negb (deadline_driven self) then self
  else
    let new := SendQ.recovery_deadline queue in
    let self := self <| deadline := new |> in
    if wake && (new <? wake_at self) then notify_one self else self.

(** ** Transmission *)

(** The batched system call of Linux, by its answers; [None] where there is none, or where
    simulated loss asks for separate sends. *)
Abbreviation Batching := (option (nat -> IoResult nat)).

(** [send_frame]: header and payload form one datagram. *)
Definition send_frame (frame : FrameSetPacket) : Result (list Z) := frame_datagram frame.

(** The frames that follow under the same sequence number. *)
Fixpoint take_group (sequence : Z) (frames : list FrameSetPacket) : list FrameSetPacket * list FrameSetPacket :=
  match frames with
  | frame :: rest =>
      if sequence_number frame =? sequence
      then let '(group, rest) := take_group sequence rest in (frame :: group, rest)
      else ([], frames)
  | [] => ([], [])
  end.

(** [serialize_group_into] on a cleared buffer. *)
Definition serialize_group (frames : list FrameSetPacket) : Result (list Z) :=
  match serialize_group_into frames [] with (Ok _, wire) => Ok wire | (Err e, _) => Err e end.

(** [while start < frames.len()]: every iteration takes at least one frame. *)
Fixpoint send_groups (fuel : nat) (frames : list FrameSetPacket) : Transmission :=
  match fuel, frames with
  | S fuel, frame :: frames =>
      let '(group, rest) := take_group (sequence_number frame) frames in
      match serialize_group (frame :: group) with
      | Err e => ([], Err e)
      | Ok datagram => let '(sent, r) := send_groups fuel rest in (datagram :: sent, r)
      end
  | _, _ => ([], Ok tt)
  end.

(** The error of a batched transmission is only logged. *)
Definition transmit_frames (batched : Batching) (out : OutgoingFrames) : Transmission :=
  let frames := frames out in
  if zlen frames <=? 1 then send_each send_frame frames
  else if coalesced out then send_groups (length frames) frames
  else match batched with
       | Some sendmmsg => ((send_frames (length frames) sendmmsg frames).1, Ok tt)
       | None => send_each serialize frames
       end.

(** [transmit_replies]; [bulk_sender] says whether the sending task exists. *)
Definition transmit_replies (batched : Batching) (out : OutgoingFrames) (bulk_sender : bool) : Transmission * bool :=
  if coalesced out then (transmit_frames batched out, bulk_sender)
  else if negb bulk_sender && (zlen (frames out) <=? 8) && forallb (fun f => negb (is_fragment f)) (frames out)
  then (transmit_frames batched out, bulk_sender)
  else (send_each serialize (frames out), true).

(** [transmit_maintenance_frames] (feature [recovery-policy]), or the loop the tick has
    without the feature: a frame that cannot be encoded is skipped. *)
Definition send_singly (frames : list FrameSetPacket) : list (list Z) :=
  omap (fun frame => match send_frame frame with Ok datagram => Some datagram | Err _ => None end) frames.

Definition transmit_maintenance_frames `{!Features} (batched : Batching) (out : OutgoingFrames) : list (list Z) :=
  if recovery_policy && coalesced out then (transmit_frames batched out).1
  else send_singly (frames out).

(** ** The connection *)

Record Connection (chan : Type -> Type) := mk_connection {
  recvq : RecvQ;
  sendq : SendQ;
  user_data : chan (list Z);
  closed : bool;
  last_heartbeat_time : Z;
  handshake_complete : Z;
  maintenance : Maintenance;
  (* the receiving task *)
  pending_data : list (list Z);
  pending_bytes : Z;
  received_since_ack : Z;
  ready_frames : list FrameSetPacket;
  acks : list range;
  blocked : bool;
  receiving : bool;
  bulk_sender : bool;
  (* the ticking task *)
  ticking : bool;
  tick_idle : bool;
  (* the UDP socket *)
  wire : list (list Z);
}.
Arguments mk_connection {_}.
Arguments recvq {_} _.
Arguments sendq {_} _.
Arguments user_data {_} _.
Arguments closed {_} _.
Arguments last_heartbeat_time {_} _.
Arguments handshake_complete {_} _.
Arguments maintenance {_} _.
Arguments pending_data {_} _.
Arguments pending_bytes {_} _.
Arguments received_since_ack {_} _.
Arguments ready_frames {_} _.
Arguments acks {_} _.
Arguments blocked {_} _.
Arguments receiving {_} _.
Arguments bulk_sender {_} _.
Arguments ticking {_} _.
Arguments tick_idle {_} _.
Arguments wire {_} _.

#[export] Instance set_recvq {chan} : Setter (@recvq chan) := fun g r =>
  mk_connection (g (recvq r)) (sendq r) (user_data r) (closed r) (last_heartbeat_time r)
    (handshake_complete r) (maintenance r) (pending_data r) (pending_bytes r)
    (received_since_ack r) (ready_frames r) (acks r) (blocked r) (receiving r) (bulk_sender r)
    (ticking r) (tick_idle r) (wire r).
#[export] Instance set_sendq {chan} : Setter (@sendq chan) := fun g r =>
  mk_connection (recvq r) (g (sendq r)) (user_data r) (closed r) (last_heartbeat_time r)
    (handshake_complete r) (maintenance r) (pending_data r) (pending_bytes r)
    (received_since_ack r) (ready_frames r) (acks r) (blocked r) (receiving r) (bulk_sender r)
    (ticking r) (tick_idle r) (wire r).
#[export] Instance set_user_data {chan} : Setter (@user_data chan) := fun g r =>
  mk_connection (recvq r) (sendq r) (g (user_data r)) (closed r) (last_heartbeat_time r)
    (handshake_complete r) (maintenance r) (pending_data r) (pending_bytes r)
    (received_since_ack r) (ready_frames r) (acks r) (blocked r) (receiving r) (bulk_sender r)
    (ticking r) (tick_idle r) (wire r).
#[export] Instance set_closed {chan} : Setter (@closed chan) := fun g r =>
  mk_connection (recvq r) (sendq r) (user_data r) (g (closed r)) (last_heartbeat_time r)
    (handshake_complete r) (maintenance r) (pending_data r) (pending_bytes r)
    (received_since_ack r) (ready_frames r) (acks r) (blocked r) (receiving r) (bulk_sender r)
    (ticking r) (tick_idle r) (wire r).
#[export] Instance set_last_heartbeat_time {chan} : Setter (@last_heartbeat_time chan) := fun g r =>
  mk_connection (recvq r) (sendq r) (user_data r) (closed r) (g (last_heartbeat_time r))
    (handshake_complete r) (maintenance r) (pending_data r) (pending_bytes r)
    (received_since_ack r) (ready_frames r) (acks r) (blocked r) (receiving r) (bulk_sender r)
    (ticking r) (tick_idle r) (wire r).
#[export] Instance set_handshake_complete {chan} : Setter (@handshake_complete chan) := fun g r =>
  mk_connection (recvq r) (sendq r) (user_data r) (closed r) (last_heartbeat_time r)
    (g (handshake_complete r)) (maintenance r) (pending_data r) (pending_bytes r)
    (received_since_ack r) (ready_frames r) (acks r) (blocked r) (receiving r) (bulk_sender r)
    (ticking r) (tick_idle r) (wire r).
#[export] Instance set_maintenance {chan} : Setter (@maintenance chan) := fun g r =>
  mk_connection (recvq r) (sendq r) (user_data r) (closed r) (last_heartbeat_time r)
    (handshake_complete r) (g (maintenance r)) (pending_data r) (pending_bytes r)
    (received_since_ack r) (ready_frames r) (acks r) (blocked r) (receiving r) (bulk_sender r)
    (ticking r) (tick_idle r) (wire r).
#[export] Instance set_pending_data {chan} : Setter (@pending_data chan) := fun g r =>
  mk_connection (recvq r) (sendq r) (user_data r) (closed r) (last_heartbeat_time r)
    (handshake_complete r) (maintenance r) (g (pending_data r)) (pending_bytes r)
    (received_since_ack r) (ready_frames r) (acks r) (blocked r) (receiving r) (bulk_sender r)
    (ticking r) (tick_idle r) (wire r).
#[export] Instance set_pending_bytes {chan} : Setter (@pending_bytes chan) := fun g r =>
  mk_connection (recvq r) (sendq r) (user_data r) (closed r) (last_heartbeat_time r)
    (handshake_complete r) (maintenance r) (pending_data r) (g (pending_bytes r))
    (received_since_ack r) (ready_frames r) (acks r) (blocked r) (receiving r) (bulk_sender r)
    (ticking r) (tick_idle r) (wire r).
#[export] Instance set_received_since_ack {chan} : Setter (@received_since_ack chan) := fun g r =>
  mk_connection (recvq r) (sendq r) (user_data r) (closed r) (last_heartbeat_time r)
    (handshake_complete r) (maintenance r) (pending_data r) (pending_bytes r)
    (g (received_since_ack r)) (ready_frames r) (acks r) (blocked r) (receiving r)
    (bulk_sender r) (ticking r) (tick_idle r) (wire r).
#[export] Instance set_ready_frames {chan} : Setter (@ready_frames chan) := fun g r =>
  mk_connection (recvq r) (sendq r) (user_data r) (closed r) (last_heartbeat_time r)
    (handshake_complete r) (maintenance r) (pending_data r) (pending_bytes r)
    (received_since_ack r) (g (ready_frames r)) (acks r) (blocked r) (receiving r)
    (bulk_sender r) (ticking r) (tick_idle r) (wire r).
#[export] Instance set_acks {chan} : Setter (@acks chan) := fun g r =>
  mk_connection (recvq r) (sendq r) (user_data r) (closed r) (last_heartbeat_time r)
    (handshake_complete r) (maintenance r) (pending_data r) (pending_bytes r)
    (received_since_ack r) (ready_frames r) (g (acks r)) (blocked r) (receiving r)
    (bulk_sender r) (ticking r) (tick_idle r) (wire r).
#[export] Instance set_blocked {chan} : Setter (@blocked chan) := fun g r =>
  mk_connection (recvq r) (sendq r) (user_data r) (closed r) (last_heartbeat_time r)
    (handshake_complete r) (maintenance r) (pending_data r) (pending_bytes r)
    (received_since_ack r) (ready_frames r) (acks r) (g (blocked r)) (receiving r)
    (bulk_sender r) (ticking r) (tick_idle r) (wire r).
#[export] Instance set_receiving {chan} : Setter (@receiving chan) := fun g r =>
  mk_connection (recvq r) (sendq r) (user_data r) (closed r) (last_heartbeat_time r)
    (handshake_complete r) (maintenance r) (pending_data r) (pending_bytes r)
    (received_since_ack r) (ready_frames r) (acks r) (blocked r) (g (receiving r))
    (bulk_sender r) (ticking r) (tick_idle r) (wire r).
#[export] Instance set_bulk_sender {chan} : Setter (@bulk_sender chan) := fun g r =>
  mk_connection (recvq r) (sendq r) (user_data r) (closed r) (last_heartbeat_time r)
    (handshake_complete r) (maintenance r) (pending_data r) (pending_bytes r)
    (received_since_ack r) (ready_frames r) (acks r) (blocked r) (receiving r)
    (g (bulk_sender r)) (ticking r) (tick_idle r) (wire r).
#[export] Instance set_ticking {chan} : Setter (@ticking chan) := fun g r =>
  mk_connection (recvq r) (sendq r) (user_data r) (closed r) (last_heartbeat_time r)
    (handshake_complete r) (maintenance r) (pending_data r) (pending_bytes r)
    (received_since_ack r) (ready_frames r) (acks r) (blocked r) (receiving r) (bulk_sender r)
    (g (ticking r)) (tick_idle r) (wire r).
#[export] Instance set_tick_idle {chan} : Setter (@tick_idle chan) := fun g r =>
  mk_connection (recvq r) (sendq r) (user_data r) (closed r) (last_heartbeat_time r)
    (handshake_complete r) (maintenance r) (pending_data r) (pending_bytes r)
    (received_since_ack r) (ready_frames r) (acks r) (blocked r) (receiving r) (bulk_sender r)
    (ticking r) (g (tick_idle r)) (wire r).
#[export] Instance set_wire {chan} : Setter (@wire chan) := fun g r =>
  mk_connection (recvq r) (sendq r) (user_data r) (closed r) (last_heartbeat_time r)
    (handshake_complete r) (maintenance r) (pending_data r) (pending_bytes r)
    (received_since_ack r) (ready_frames r) (acks r) (blocked r) (receiving r) (bulk_sender r)
    (ticking r) (tick_idle r) (g (wire r)).

(** ** Control packets *)

Inductive ControlAction : Set := Continue | HandshakeComplete | Disconnect.

#[export] Instance ControlAction_eq_dec : EqDecision ControlAction.
Proof. solve_decision. Defined.

(** How [handle] ends: it returns, or it waits for room in the application's channel. *)
Inductive Handled : Type :=
  | Returns (r : Result ControlAction)
  | Waits.

(** The readings of the clocks in a turn, in order: [monotonic_millis] and
    [cur_timestamp_millis]; what the datagram input answers to [should_flush_ack] at the top
    of the loop and after a frame set; the branch [select!] takes when several are ready; and
    the target: whether the input owns its datagrams and whether sends are batched. *)
Record Turn := mk_turn {
  clock : nat -> Z;
  wall : nat -> Z;
  drained_before : bool;
  drained_after : bool;
  take_close : nat -> bool;
  owned_input : bool;
  batched_sends : Batching;
}.

Section Tasks.
Context {feat : Features} {usort : UnstableSort} `{Mpsc chan}.
Context (peer_addr local_addr : SocketAddr).
Implicit Types (self : Connection chan) (t : Turn).

(** A step on the send queue inside [handle]. *)
Definition with_sendq {A} (m : SE SendQ A) self : Result A * Connection chan :=
  let '(r, q) := m (sendq self) in (r, self <| sendq := q |>).

(** [RaknetSocket::handle]; [w] numbers the clock readings of this call. *)
Definition handle t (w : nat) (frame : FrameSetPacket) self : Handled * Connection chan :=
  let buf := FramePayload.deref (data frame) in
  match buf with
  | [] => (Returns (Err PacketHeaderError), self)
  | packet_id :: _ =>
      match PacketID.from packet_id with
      | Err e => (Returns (Err e), self)
      | Ok PacketID.ConnectionRequest =>
          let '(r, self) := with_sendq (
            packet ← lift (read_packet_connection_request buf);
            let reply := mk_ConnectionRequestAccepted peer_addr 0 (creq_time packet) (wall t w) in
            buf ← lift (write_packet_connection_request_accepted reply);
            SendQ.insert Reliability.ReliableOrdered buf) self in
          (Returns (_ ← r; Ok Continue), self)
      | Ok PacketID.ConnectionRequestAccepted =>
          let '(r, self) := with_sendq (
            packet ← lift (read_packet_connection_request_accepted buf);
            let reply := mk_NewIncomingConnection local_addr (acc_request_timestamp packet) (wall t w) in
            buf ← lift (write_packet_new_incomming_connection reply);
            _ ← SendQ.insert Reliability.ReliableOrdered buf;
            let ping := mk_ConnectedPing (wall t (S w)) in
            buf ← lift (write_packet_connected_ping ping);
            SendQ.insert Reliability.Unreliable buf) self in
          (Returns (_ ← r; Ok HandshakeComplete), self)
      | Ok PacketID.NewIncomingConnection =>
          (Returns (_ ← read_packet_new_incomming_connection buf; Ok HandshakeComplete), self)
      | Ok PacketID.ConnectedPing =>
          let '(r, self) := with_sendq (
            packet ← lift (read_packet_connected_ping buf);
            let reply := mk_ConnectedPong (ping_client_timestamp packet) (wall t w) in
            buf ← lift (write_packet_connected_pong reply);
            SendQ.insert Reliability.Unreliable buf) self in
          (Returns (_ ← r; Ok Continue), self)
      | Ok PacketID.ConnectedPong => (Returns (Ok Continue), self)
      | Ok PacketID.Disconnect => (Returns (Ok Disconnect), self)
      | Ok _ =>
          match try_send (FramePayload.into_vec (data frame)) (user_data self) with
          | (Sent, c) => (Returns (Ok Continue), self <| user_data := c |>)
          | (Closed, c) => (Returns (Ok Disconnect), self <| user_data := c |>)
          | (Full, _) => (Waits, self)
          end
      end
  end.

(** ** The receiving task *)

Definition push_wire (datagrams : list (list Z)) self : Connection chan :=
  self <| wire := wire self ++ datagrams |>.

Definition close_connection self : Connection chan := self <| closed := true |>.

Definition end_receiver self : Connection chan := self <| receiving := false |>.

(** [send_ack_ranges]; an encoding error is logged. *)
Definition send_ack_ranges (sequences : list range) self : Connection chan :=
  match sequences with
  | [] => self
  | _ => match write_control_ranges_into PacketID.Ack sequences [] with
         | (Ok _, packet) => push_wire [packet] self
         | (Err _, _) => self
         end
  end.

(** The acknowledgements due at the top of the loop. *)
Definition flush_acks t self : Connection chan :=
  if negb (received_since_ack self =? 0) && (drained_before t || (32 <=? received_since_ack self)) then
    let '(ranges, q) := take_acks (recvq self) in
    send_ack_ranges ranges (self <| recvq := q |> <| acks := ranges |>) <| received_since_ack := 0 |>
  else self.

(** [sendq.flush], then [maintenance.publish(.., wake)] under the same lock. *)
Definition flush_sendq (now : Z) (wake : bool) self : OutgoingFrames * Connection chan :=
  let '(frames, q) := SendQ.flush now (sendq self) in
  (frames, self <| sendq := q |> <| maintenance := publish q wake (maintenance self) |>).

(** An acknowledgement or a loss report: [update] is [ack_ranges] or [nack_ranges]. With
    [recovery-policy] the clock is read again before the flush. *)
Definition on_feedback t (update : Z -> SendQ -> SendQ) self : Connection chan :=
  let now := clock t 1 in
  let self := self <| sendq := update now (sendq self) |> in
  let now := if recovery_policy then clock t 2 else now in
  let '(frames, self) := flush_sendq now true self in
  let '((datagrams, _), bulk) := transmit_replies (batched_sends t) frames (bulk_sender self) in
  push_wire datagrams (self <| bulk_sender := bulk |>).

(** How the loop over the ready frames goes on: next frame, or stopped by [break], or
    suspended inside [handle]. *)
Inductive Progress : Type := Next | Stopped (should_close : bool) | Suspended.

(** A game packet goes to the application, or waits its turn behind earlier ones. *)
Definition deliver_game (message : list Z) self : Progress * Connection chan :=
  let queue self := self <| pending_bytes := pending_bytes self + zlen message |>
                         <| pending_data := pending_data self ++ [message] |> in
  match pending_data self with
  | [] => match try_send message (user_data self) with
          | (Sent, c) => (Next, self <| user_data := c |>)
          | (Full, c) => (Next, queue (self <| user_data := c |>))
          | (Closed, c) => (Stopped true, close_connection (self <| user_data := c |>))
          end
  | _ => (Next, queue self)
  end.

(** After [handle]: the replies are sent before the handshake is announced. *)
Definition after_handle t (k : nat) (r : Result ControlAction) self : Progress * Connection chan :=
  match r with
  | Ok Disconnect => (Stopped true, close_connection self)
  | Err _ => (Next, self)
  | Ok action =>
      let '(out, self) := flush_sendq (clock t k) true self in
      let self := match frames out with
                  | [] => self
                  | _ => self <| maintenance := leave_idle (maintenance self) |>
                  end in
      let '(datagrams, r) := transmit_frames (batched_sends t) out in
      let self := push_wire datagrams self in
      match r with
      | Err e =>
          if bool_decide (e = SocketError)
          then (Next, if bool_decide (action = HandshakeComplete)
                      then self <| handshake_complete := handshake_complete self + 1 |> else self)
          else (Stopped true, close_connection self)
      | Ok _ =>
          (Next, if bool_decide (action = HandshakeComplete)
                 then self <| handshake_complete := handshake_complete self + 1 |> else self)
      end
  end.

(** The body of the loop over [ready_frames], for the [k]-th of them. *)
Definition on_ready t (k : nat) (frame : FrameSetPacket) self : Progress * Connection chan :=
  if bool_decide (head (FramePayload.deref (data frame)) = Some (PacketID.to_u8 PacketID.Game))
  then deliver_game (FramePayload.into_vec (data frame)) self
  else if closed self && take_close t k then (Stopped false, self)
  else match handle t (2 * k) frame self with
       | (Waits, self) => (Suspended, self)
       | (Returns r, self) => after_handle t k r self
       end.

(** [for frame in ready_frames.drain(..)], the acknowledgements after it, and the end of the
    task on [should_close]. A suspended loop leaves the frame it handles and those after it. *)
Fixpoint process_ready t (k : nat) (frames : list FrameSetPacket) self : Connection chan :=
  let finish (should_close : bool) self :=
    let self := send_ack_ranges (acks self) (self <| ready_frames := [] |> <| blocked := false |>) in
    if should_close then end_receiver self else self in
  match frames with
  | [] => finish false self
  | frame :: rest =>
      match on_ready t k frame self with
      | (Next, self) => process_ready t (S k) rest self
      | (Stopped should_close, self) => finish should_close self
      | (Suspended, self) => self <| ready_frames := frames |> <| blocked := true |>
      end
  end.

(** [DatagramInput::decode_into]: a channel hands its datagram over. *)
Definition decode_input (owned : bool) (buf : list Z) : Result (list FrameSetPacket) :=
  if owned then FrameVec.decode_owned_into buf else FrameVec.decode_into buf.

(** A frame set: decoded, inserted frame by frame, acknowledged or not yet, delivered. *)
Definition on_frame_set t (buf : list Z) self : Connection chan :=
  if (1024 * 1024 <=? pending_bytes self) || (4096 <=? zlen (pending_data self)) then self
  else match decode_input (owned_input t) buf with
  | Err _ => self
  | Ok decoded_frames =>
      let self := if received_since_ack self =? 0 then self <| received_since_ack := 1 |> else self in
      let arrivals := imap (fun i frame => (clock t (1 + i), frame)) decoded_frames in
      let '(invalid, ready, q) := receive arrivals [] (recvq self) in
      let self := self <| recvq := q |> in
      let self :=
        if drained_after t || (32 <=? received_since_ack self) then
          let '(ranges, q) := take_acks (recvq self) in
          self <| received_since_ack := 0 |> <| recvq := q |> <| acks := ranges |>
        else self <| acks := [] |> in
      let self := if needs_maintenance (recvq self)
                  then self <| maintenance := leave_idle (maintenance self) |> else self in
      if invalid : bool then end_receiver (close_connection self)
      else process_ready t (1 + length decoded_frames) ready self
  end.

(** A datagram [buf] of the peer. *)
Definition on_packet t (buf : list Z) self : Connection chan :=
  match buf with
  | [] => self
  | packet_id :: _ =>
      let self := if negb (received_since_ack self =? 0)
                  then self <| received_since_ack := received_since_ack self + 1 |> else self in
      let self := self <| last_heartbeat_time := clock t 0 |> in
      match PacketID.from packet_id with
      | Err _ => self
      | Ok PacketID.Disconnect => end_receiver (close_connection self)
      | Ok PacketID.Ack =>
          match read_packet_ack buf with
          | Ok ack => on_feedback t (fun now => SendQ.ack_ranges (ack_sequences ack) now) self
          | Err _ => self
          end
      | Ok PacketID.Nack =>
          match read_packet_nack buf with
          | Ok nack => on_feedback t (fun now => SendQ.nack_ranges (nack_sequences nack) now) self
          | Err _ => self
          end
      | Ok PacketID.FrameSetPacketBegin => on_frame_set t buf self
      | Ok _ => self
      end
  end.

(** What the datagram input has ready: a datagram, its end or an error, or nothing. *)
Inductive Input : Type := Datagram (buf : list Z) | Ended | Nothing.

Definition on_input t (input : Input) self : Connection chan :=
  match input with
  | Datagram buf => on_packet t buf self
  | Ended => end_receiver (close_connection self)
  | Nothing => self
  end.

(** An iteration of [start_receiver]'s loop. With messages pending, [select!] is biased: the
    close signal, then the application's channel, then the input. *)
Definition receiver_turn t (input : Input) self : Connection chan :=
  if negb (receiving self) then self
  else if blocked self then process_ready t 0 (ready_frames self) self
  else
    let self := flush_acks t self in
    match pending_data self with
    | [] => if closed self && take_close t 0 then end_receiver self else on_input t input self
    | message :: rest =>
        if closed self then end_receiver self
        else match try_reserve (user_data self) with
        | (Closed, c) => end_receiver (close_connection (self <| user_data := c |>))
        | (Sent, c) =>
            self <| pending_data := rest |>
                 <| pending_bytes := usize_sub (pending_bytes self) (zlen message) |>
                 <| user_data := permit_send message c |>
        | (Full, c) => on_input t input (self <| user_data := c |>)
        end
    end.

(** ** The ticking task *)

(** The delay before the next wake-up, and the timer it arms. The deadline is read twice
    around arming; [deadline'] is what the second reading finds. *)
Definition tick_delay (now deadline' : Z) self : Z * Connection chan :=
  let delay := if tick_idle self then Z.max 1 (RECEIVE_TIMEOUT - (now - last_heartbeat_time self))
               else SendQ.DEFAULT_TIMEOUT_MILLS in
  if recovery_policy && deadline_driven (maintenance self) then
    let delay := Z.min delay (Z.max 1 (sat_i64 (deadline (maintenance self) - now))) in
    let delay := Z.min delay (Z.max 1 (sat_i64 (deadline' - now))) in
    (delay, self <| maintenance := maintenance self <| wake_at := sat_i64 (now + delay) |> |>)
  else (delay, self).

(** [for _ in 0..10]: the peer is told. *)
Definition disconnect_datagrams : list (list Z) := repeat [PacketID.to_u8 PacketID.Disconnect] 10.

Definition end_ticker self : Connection chan := self <| ticking := false |>.

(** The loss reports of a tick. *)
Definition send_nacks self : Connection chan :=
  let '(nacks, q) := take_nacks (recvq self) in
  let self := self <| recvq := q |> in
  match nacks with
  | [] => self
  | _ => match write_control_ranges_into PacketID.Nack nacks [] with
         | (Ok _, packet) => push_wire [packet] self
         | (Err _, _) => self
         end
  end.

(** An iteration of [start_tick]'s loop after its wait; [clock] is read for quietness (0),
    fragment expiry (1), the flush (2) and the timeout (3). *)
Definition tick_turn t self : Connection chan :=
  if negb (ticking self) then self
  else
    let quiet := enabled (maintenance self)
                 && (MAINTENANCE_IDLE_MILLIS <=? clock t 0 - last_heartbeat_time self) in
    let self := if quiet then self <| maintenance := maintenance self <| idle := true |> |> else self in
    if fragments_expired (clock t 1) (recvq self) then end_ticker (close_connection self)
    else
      let self := send_nacks self in
      let receive_idle := negb (needs_maintenance (recvq self)) in
      let '(out, self) := flush_sendq (clock t 2) false self in
      let send_idle := SendQ.is_empty (sendq self) in
      let now_idle := quiet && receive_idle && send_idle in
      let self := self <| tick_idle := now_idle |> in
      let self := if now_idle then self
                  else self <| maintenance := maintenance self <| idle := false |> |> in
      let self := push_wire (transmit_maintenance_frames (batched_sends t) out) self in
      if RECEIVE_TIMEOUT <? clock t 3 - last_heartbeat_time self
      then end_ticker (close_connection self)
      else if closed self then end_ticker (push_wire disconnect_datagrams self)
      else self.

(** ** The methods of [RaknetSocket] *)

(** [RaknetSocket::from], and the state [connect] starts from. *)
Definition new_connection (mtu now : Z) : Connection chan :=
  mk_connection new_recvq (SendQ.new mtu) (channel 100) false now 0 default_maintenance
    [] 0 0 [] [] false true false true false [].

(** The end of [connect_with_version_and_mtu]: the request of the connected handshake is
    queued and flushed at once. *)
Definition connected_socket (guid mtu now timestamp flushed : Z) (batched : Batching) : Result (Connection chan) :=
  buf ← write_packet_connection_request (mk_ConnectionRequest guid timestamp 0x00);
  let self := new_connection mtu now in
  match SendQ.insert Reliability.ReliableOrdered buf (sendq self) with
  | (Err e, _) => Err e
  | (Ok _, q) =>
      let '(out, self) := flush_sendq flushed true (self <| sendq := q |>) in
      let '(datagrams, r) := transmit_frames batched out in
      match r with
      | Err e => if bool_decide (e = SocketError) then Ok (push_wire datagrams self) else Err e
      | Ok _ => Ok (push_wire datagrams self)
      end
  end.

(** [close]: a disconnect is queued for the ticker, once. *)
Definition close self : Result unit * Connection chan :=
  if closed self then (Ok tt, self)
  else
    let '(r, self) := with_sendq (SendQ.insert Reliability.Reliable [PacketID.to_u8 PacketID.Disconnect]) self in
    match r with
    | Ok _ => (Ok tt, close_connection self)
    | Err e => (Err e, self)
    end.

(** [recv], when a message is there or none will come; [None] keeps waiting. *)
Definition recv self : option (Result (list Z)) * Connection chan :=
  match try_recv (user_data self) with
  | (Some message, c) => (Some (Ok message), self <| user_data := c |>)
  | (None, c) =>
      ((if receiving self then None
        else Some (Err (if closed self then ConnectionClosed else SocketError))),
       self <| user_data := c |>)
  end.

(** [while output.len() < limit.min(64)]: the messages already available. *)
Fixpoint recv_available (count : nat) self : list (list Z) * Connection chan :=
  match count with
  | O => ([], self)
  | S count =>
      match try_recv (user_data self) with
      | (Some message, c) =>
          let '(messages, self) := recv_available count (self <| user_data := c |>) in
          (message :: messages, self)
      | (None, c) => ([], self <| user_data := c |>)
      end
  end.

(** [recv_batch_map] with the identity. *)
Definition recv_batch (limit : Z) self : option (Result (list (list Z))) * Connection chan :=
  if limit =? 0 then (Some (Ok []), self)
  else match recv self with
  | (Some (Ok first), self) =>
      let '(messages, self) := recv_available (Z.to_nat (Z.min limit 64) - 1) self in
      (Some (Ok (first :: messages)), self)
  | (Some (Err e), self) => (Some (Err e), self)
  | (None, self) => (None, self)
  end.

Definition set_idle_maintenance (enabled' : bool) self : Connection chan :=
  let m := maintenance self <| enabled := enabled' |> in
  self <| maintenance := if enabled' then m else notify_one m |>.

(** [set_recovery_options] (feature [recovery-policy]). *)
Definition set_recovery_options (options : RecoveryOptions) (now : Z) self : Result unit * Connection chan :=
  if closed self then (Err ConnectionClosed, self)
  else
    let q := SendQ.set_recovery_options options now (sendq self) in
    let deadlines := SendOptions.deadline_driven options
                     || match tail_probe_min_delay options with Some _ => true | None => false end in
    let m := maintenance self <| deadline_driven := deadlines |> in
    let m := if deadlines then m else m <| deadline := I64_MAX |> in
    (Ok tt, self <| sendq := q |> <| maintenance := notify_one (publish q true m) |>).

(** [set_send_options] (feature [send-policy]). *)
Definition set_send_options (options : SendOptions) self : Result unit * Connection chan :=
  if closed self then (Err ConnectionClosed, self)
  else match with_sendq (_ ← SendQ.set_send_options options;
                        modify SendQ.register_capacity_notifier) self with
  | (Err e, self) => (Err e, self)
  | (Ok _, self) =>
      (Ok tt, self <| maintenance := notify_one (maintenance self <| idle := false |>) |>)
  end.

(** Whether the handshake lets the caller go on: [wait_for_handshake]. *)
Definition wait_for_handshake self : option (Result unit) :=
  if closed self then Some (Err ConnectionClosed)
  else if handshake_complete self =? 0 then None else Some (Ok tt).

(** The frames a locked section returned, on their way. The socket is gone once both tasks
    and its owner have dropped it: [udp] says whether it is there. *)
Definition transmit_sent (udp : bool) (batched : Batching) (out : OutgoingFrames) self : Result unit * Connection chan :=
  let self := self <| maintenance := publish (sendq self) true (maintenance self) |> in
  let self := self <| maintenance := leave_idle (maintenance self) |> in
  if negb udp then (Err ConnectionClosed, self)
  else let '(datagrams, r) := transmit_frames batched out in (r, push_wire datagrams self).

(** [send_payload]; [None] when it waits for the handshake or for capacity. *)
Definition send_payload (buf : list Z) (r : Reliability) (order_channel : Z) (owned udp : bool) (batched : Batching)
    (now : Z) self : option (Result unit) * Connection chan :=
  match buf with
  | [] => (Some (Err PacketHeaderError), self)
  | id :: _ =>
      if negb (id =? 0xfe) then (Some (Err PacketHeaderError), self)
      else match wait_for_handshake self with
      | Some (Err e) => (Some (Err e), self)
      | None => (None, self)
      | Some (Ok _) =>
          match with_sendq (send_payload_locked r buf order_channel owned now) self with
          | (Err e, self) => (Some (Err e), self)
          | (Ok None, self) => (None, self)
          | (Ok (Some out), self) =>
              let '(r, self) := transmit_sent udp batched out self in (Some r, self)
          end
      end
  end.

(** Whether two neighbours of a batch fit one datagram. *)
Fixpoint neighbours_fit (mtu : Z) (lengths : list Z) : bool :=
  match lengths with
  | a :: ((b :: _) as rest) =>
      ((a <=? sat_usize (mtu - 60)) && (b <=? sat_usize (mtu - 60))
       && (sat_usize (sat_usize (a + b) + 24) <=? sat_usize (mtu - 28)))
      || neighbours_fit mtu rest
  | _ => false
  end.

(** The checks of [send_batch_payload] on a batch of two or more, before anything is
    queued: whether its messages are to share datagrams. *)
Definition batch_check (queue : SendQ) (messages : list (list Z)) (r : Reliability) : Result bool :=
  let lengths := map (fun m => zlen m) messages in
  if anyb (fun m => negb (bool_decide (head m = Some 0xfe))) messages then Err PacketHeaderError
  else if send_policy && match SendQ.send_options queue with Some _ => true | None => false end
  then SendQ.batch_can_coalesce queue r lengths
  else
    _ ← SendQ.has_batch_capacity queue r lengths;
    let ordered := bool_decide (r = Reliability.ReliableOrdered) in
    if negb ordered && anyb (fun length => sat_usize (SendQ.mtu queue - 60) <? length) lengths
    then Err PacketSizeExceedMTU
    else Ok (SendQ.allows_coalescing queue && ordered && neighbours_fit (SendQ.mtu queue) lengths).

(** How a batch goes out. *)
Inductive BatchPlan : Type :=
  | NothingToSend
  | Individually
  | Together
  | Rejected (e : RaknetError).

Definition batch_plan (queue : SendQ) (borrowed owned : list (list Z)) (r : Reliability) : BatchPlan :=
  match borrowed ++ owned with
  | [] => NothingToSend
  | [_] => Individually
  | messages =>
      match batch_check queue messages r with
      | Err e => Rejected e
      | Ok can_coalesce => if can_coalesce : bool then Together else Individually
      end
  end.

(** The last part of [send_batch_payload]: a batch whose messages share datagrams. *)
Definition send_together (borrowed owned : list (list Z)) (r : Reliability) (order_channel : Z)
    (udp : bool) (batched : Batching) (now : Z) self : option (Result unit) * Connection chan :=
  match wait_for_handshake self with
  | Some (Err e) => (Some (Err e), self)
  | None => (None, self)
  | Some (Ok _) =>
      match with_sendq (send_batch_locked borrowed owned r order_channel now) self with
      | (Err e, self) => (Some (Err e), self)
      | (Ok None, self) => (None, self)
      | (Ok (Some out), self) =>
          let '(r, self) := transmit_sent udp batched out self in (Some r, self)
      end
  end.

(** [flush]: [None] while reliable frames are unacknowledged. *)
Definition flush self : option (Result unit) :=
  if closed self then Some (Err ConnectionClosed)
  else if SendQ.is_empty (sendq self) then Some (Ok tt) else None.
End Tasks.
