(* ===== verification/Loss.v ===== *)
(** * Simulated loss

    [set_loss_rate] of [src/src/socket.rs] makes a connection drop a part of what it sends.
    [Socket] has the datagrams the code hands over; here each of them goes through [sendto] or
    [send_frame] to the operating system, with the random numbers drawn and what the system
    answers. *)

From S2P Require Import Prelude Errors Sequence Frame FrameCodec RecvQ SendOptions SendQ Runtime Udp Socket.
Import SendQ.

(** The two atomics of a connection. *)
Record Loss := mk_loss { enable_loss : bool; loss_rate : Z }.

Definition default_loss : Loss := mk_loss false 0.

Definition set_loss_rate (stage : Z) (self : Loss) : Loss := mk_loss true stage.

(** Random numbers drawn, calls of [send_to] made, datagrams the system took. *)
Record Link := mk_link { rolls : nat; calls : nat; sent : list (list Z) }.

Section Link.
Context (roll : nat -> Z) (takes : nat -> bool).
Implicit Types (loss : Loss) (link : Link) (frames : list FrameSetPacket).

(** The system takes the datagram or reports an error, which is logged. *)
Definition put (buf : list Z) link : Link :=
  mk_link (rolls link) (S (calls link)) (if takes (calls link) then sent link ++ [buf] else sent link).

(** [rng.gen_range(0..10) < loss_rate.min(10)] *)
Definition drops loss link : bool * Link :=
  (roll (rolls link) <? Z.min (loss_rate loss) 10, mk_link (S (rolls link)) (calls link) (sent link)).

Definition sendto loss (buf : list Z) link : IoResult Z * Link :=
  if enable_loss loss then
    let '(lost, link) := drops loss link in
    if lost : bool then (inl 0, link)
    else (inl (if takes (calls link) then zlen buf else 0), put buf link)
  else (inl (if takes (calls link) then zlen buf else 0), put buf link).

(** [.map(|_| ()).map_err(|_| RaknetError::SocketError)] *)
Definition socket_result (r : IoResult Z) : Result unit :=
  match r with inl _ => Ok tt | inr _ => Err SocketError end.

(** A payload of up to 128 bytes is copied behind its header; a longer one is sent with it as
    two slices of one datagram. *)
Definition send_frame_to loss (frame : FrameSetPacket) link : Result unit * Link :=
  match encode_header frame with
  | Err e => (Err e, link)
  | Ok header =>
      let packet := header ++ FramePayload.deref (data frame) in
      if FramePayload.len (data frame) <=? 128 then
        let '(r, link) := sendto loss packet link in (socket_result r, link)
      else if enable_loss loss then
        let '(lost, link) := drops loss link in
        (Ok tt, if lost : bool then link else put packet link)
      else (Ok tt, put packet link)
  end.

(** A datagram that has been encoded, or the error of the encoder. *)
Definition send_encoded loss (encoded : Result (list Z)) link : Result unit * Link :=
  match encoded with
  | Err e => (Err e, link)
  | Ok packet => let '(r, link) := sendto loss packet link in (socket_result r, link)
  end.

(** [for frame in &frames { send(frame)?; }] *)
Fixpoint each (send : FrameSetPacket -> Link -> Result unit * Link) frames link : Result unit * Link :=
  match frames with
  | [] => (Ok tt, link)
  | frame :: frames =>
      match send frame link with
      | (Err e, link) => (Err e, link)
      | (Ok _, link) => each send frames link
      end
  end.

Fixpoint groups_to (fuel : nat) loss frames link : Result unit * Link :=
  match fuel, frames with
  | S fuel, frame :: frames =>
      let '(group, rest) := take_group (Frame.sequence_number frame) frames in
      match send_encoded loss (serialize_group (frame :: group)) link with
      | (Err e, link) => (Err e, link)
      | (Ok _, link) => groups_to fuel loss rest link
      end
  | _, _ => (Ok tt, link)
  end.

Definition transmit_frames_to (batched : Batching) loss (out : OutgoingFrames) link : Result unit * Link :=
  let frames := frames out in
  if zlen frames <=? 1 then each (send_frame_to loss) frames link
  else if coalesced out then groups_to (length frames) loss frames link
  else match batched with
       | Some sendmmsg =>
           if negb (enable_loss loss)
           then (Ok tt, mk_link (rolls link) (calls link) (sent link ++ (send_frames (length frames) sendmmsg frames).1))
           else each (fun frame => send_encoded loss (serialize frame)) frames link
       | None => each (fun frame => send_encoded loss (serialize frame)) frames link
       end.

(** ** What gets through *)

(** [passes loss ds link link']: of the datagrams [ds] the system took some, in order; all of
    them without loss, none with the full rate. *)
Definition passes loss (ds : list (list Z)) link link' : Prop :=
  exists kept, sent link' = sent link ++ kept /\ kept `sublist_of` ds /\
    (enable_loss loss = false \/ loss_rate loss <= 0 -> (forall n, takes n = true) -> kept = ds) /\
    (enable_loss loss = true -> 10 <= loss_rate loss -> kept = []).

Lemma passes_nil loss link : passes loss [] link link.
Proof. exists []. by rewrite app_nil_r. Qed.

Lemma passes_app loss ds1 ds2 link1 link2 link3 :
  passes loss ds1 link1 link2 -> passes loss ds2 link2 link3 -> passes loss (ds1 ++ ds2) link1 link3.
Proof.
  intros (k1 & E1 & S1 & A1 & N1) (k2 & E2 & S2 & A2 & N2). exists (k1 ++ k2).
  split; [by rewrite E2, E1, <- app_assoc|]. split; [by apply sublist_app|]. split.
  - intros Hl Ht. by rewrite A1, A2.
  - intros He Hr. by rewrite N1, N2.
Qed.

Lemma put_passes loss buf link : enable_loss loss = false \/ loss_rate loss < 10 -> passes loss [buf] link (put buf link).
Proof.
  intros Hl. unfold put. exists (if takes (calls link) then [buf] else []). simpl.
  destruct (takes (calls link)) eqn:Et; rewrite ?app_nil_r; (split; [done|]).
  - split; [done|]. split; [done|]. intros He Hr. destruct Hl as [?|?]; [congruence|lia].
  - split; [apply sublist_nil_l|]. split; [|done]. intros _ Ht. by rewrite Ht in Et.
Qed.

Context (Hroll : forall n, 0 <= roll n < 10).

Lemma drops_passes loss buf link :
  enable_loss loss = true ->
  let '(lost, link') := drops loss link in passes loss [buf] link (if lost : bool then link' else put buf link').
Proof.
  intros He. unfold drops. pose proof (Hroll (rolls link)) as Hr. destruct (_ <? _) eqn:E; b2p.
  - exists []. simpl. rewrite app_nil_r. split; [done|]. split; [apply sublist_nil_l|]. split; [|done].
    intros [?|?]; [congruence|lia].
  - destruct (put_passes loss buf (mk_link (S (rolls link)) (calls link) (sent link))) as (kept & Hk); [right; lia|].
    by exists kept.
Qed.

Lemma sendto_passes loss buf link :
  let '(r, link') := sendto loss buf link in socket_result r = Ok tt /\ passes loss [buf] link link'.
Proof.
  unfold sendto. destruct (enable_loss loss) eqn:He; [|split; [done|by apply put_passes; left]].
  pose proof (drops_passes loss buf link He) as H. destruct (drops loss link) as [lost link']. by destruct lost.
Qed.

Lemma send_encoded_passes loss encoded link :
  let '(r, link') := send_encoded loss encoded link in
  match encoded with
  | Ok packet => r = Ok tt /\ passes loss [packet] link link'
  | Err e => r = Err e /\ link' = link
  end.
Proof.
  unfold send_encoded. destruct encoded as [packet|e]; [|done]. pose proof (sendto_passes loss packet link) as H.
  by destruct (sendto loss packet link).
Qed.

Lemma send_frame_passes loss frame link :
  let '(r, link') := send_frame_to loss frame link in
  match send_frame frame with
  | Ok packet => r = Ok tt /\ passes loss [packet] link link'
  | Err e => r = Err e /\ link' = link
  end.
Proof.
  unfold send_frame_to, send_frame, frame_datagram. destruct (encode_header frame) as [header|e]; simpl; [|done].
  set (packet := header ++ _). case_if.
  - pose proof (sendto_passes loss packet link) as H. by destruct (sendto loss packet link).
  - destruct (enable_loss loss) eqn:He; [|split; [done|by apply put_passes; left]].
    pose proof (drops_passes loss packet link He) as H. split; [done|exact H].
Qed.

Lemma each_passes loss send encode frames link :
  (forall frame link, let '(r, link') := send frame link in
     match encode frame with
     | Ok packet => r = Ok tt /\ passes loss [packet] link link'
     | Err e => r = Err e /\ link' = link
     end) ->
  let '(ds, r) := send_each encode frames in
  let '(r', link') := each send frames link in r' = r /\ passes loss ds link link'.
Proof.
  intros Hs. revert link. induction frames as [|frame frames IH]; intros link; cbn [send_each each]; [split; [done|apply passes_nil]|].
  specialize (Hs frame link). destruct (send frame link) as [r1 link1]. destruct (encode frame) as [packet|e].
  - destruct Hs as [-> Hp]. specialize (IH link1). destruct (send_each encode frames) as [ds r], (each send frames link1) as [r' link'].
    destruct IH as [-> Hp']. split; [done|]. by apply (passes_app _ [packet] ds link link1).
  - destruct Hs as [-> ->]. split; [done|apply passes_nil].
Qed.

Lemma groups_passes fuel loss frames link :
  let '(ds, r) := send_groups fuel frames in
  let '(r', link') := groups_to fuel loss frames link in r' = r /\ passes loss ds link link'.
Proof.
  revert frames link. induction fuel as [|fuel IH]; intros frames link; [split; [done|apply passes_nil]|].
  destruct frames as [|frame frames]; [split; [done|apply passes_nil]|]. cbn [send_groups groups_to].
  destruct (take_group _ frames) as [group rest].
  pose proof (send_encoded_passes loss (serialize_group (frame :: group)) link) as Hs.
  destruct (send_encoded _ _ link) as [r1 link1]. destruct (serialize_group (frame :: group)) as [packet|e].
  - destruct Hs as [-> Hp]. specialize (IH rest link1). destruct (send_groups fuel rest) as [ds r], (groups_to fuel loss rest link1) as [r' link'].
    destruct IH as [-> Hp']. split; [done|]. by apply (passes_app _ [packet] ds link link1).
  - destruct Hs as [-> ->]. split; [done|apply passes_nil].
Qed.

(** C37: simulated loss only loses. Whatever the loss rate, the random numbers and the
    answers of the operating system, a transmission returns what it returns without them,
    and the system takes datagrams of that transmission, in order and each once: all of them
    without loss or with the rate 0 if it reports no error, none with the rate 10. The
    batched path, which would bypass the loss, is only taken without it. *)
Theorem simulated_loss_only_drops batched loss out link :
  let '(ds, r) := transmit_frames (if enable_loss loss then None else batched) out in
  let '(r', link') := transmit_frames_to batched loss out link in
  r' = r /\ exists kept, sent link' = sent link ++ kept /\ kept `sublist_of` ds /\
    (enable_loss loss = false \/ loss_rate loss <= 0 -> (forall n, takes n = true) -> kept = ds) /\
    (enable_loss loss = true -> 10 <= loss_rate loss -> kept = []).
Proof.
  change (let '(ds, r) := transmit_frames (if enable_loss loss then None else batched) out in
    let '(r', link') := transmit_frames_to batched loss out link in r' = r /\ passes loss ds link link').
  unfold transmit_frames, transmit_frames_to. case_if; [apply each_passes, send_frame_passes|].
  case_if; [apply groups_passes|].
  pose proof (each_passes loss (fun frame => send_encoded loss (serialize frame)) serialize (frames out) link
    (fun frame link => send_encoded_passes loss (serialize frame) link)) as He.
  destruct batched as [sendmmsg|]; [|by destruct (enable_loss loss)].
  destruct (enable_loss loss) eqn:El; [exact He|]. split; [done|].
  eexists. split; [reflexivity|]. split; [done|]. split; [done|congruence].
Qed.
End Link.

(** ** The theorem at work *)

Definition sample_out : OutgoingFrames :=
  mk_outgoing (map (fun n => from_payload Reliability.Reliable (FramePayload.Owned [0xfe; n]) <| Frame.sequence_number := n |>) [0; 1; 2]) false.

(** The digits of a random number, and a system that takes everything. *)
Definition sample_roll (n : nat) : Z := nth n [3; 7; 1; 9] 0.

Lemma sample_roll_range n : 0 <= sample_roll n < 10.
Proof. do 5 (destruct n as [|n]; [vm_compute; by split|]). unfold sample_roll. simpl. destruct n; lia. Qed.

(** At the rate 2 the third datagram is lost. *)
Lemma simulated_loss_only_drops_witness :
  let '(ds, r) := transmit_frames None sample_out in
  let '(r', link') := transmit_frames_to sample_roll (fun _ => true) None (set_loss_rate 2 default_loss) sample_out (mk_link 0 0 []) in
  r' = r /\ length ds = 3%nat /\ sent link' = take 2 ds /\ rolls link' = 3%nat.
Proof.
  pose proof (simulated_loss_only_drops sample_roll (fun _ => true) sample_roll_range None (set_loss_rate 2 default_loss)
    sample_out (mk_link 0 0 [])) as H.
  cbn [enable_loss set_loss_rate] in H.
  assert (rolls (transmit_frames_to sample_roll (fun _ => true) None (set_loss_rate 2 default_loss) sample_out (mk_link 0 0 [])).2 = 3%nat)
    as Hr by (vm_compute; reflexivity).
  assert (sent (transmit_frames_to sample_roll (fun _ => true) None (set_loss_rate 2 default_loss) sample_out (mk_link 0 0 [])).2
    = take 2 (transmit_frames None sample_out).1) as Hs by (vm_compute; reflexivity).
  assert (length (transmit_frames None sample_out).1 = 3%nat) as Hl by (vm_compute; reflexivity).
  destruct (transmit_frames None sample_out) as [ds r], (transmit_frames_to _ _ _ _ _ _) as [r' link'].
  destruct H as [-> _]. by split_and!.
Defined.
