(* ===== verification/Bulk.v ===== *)
(** * The task that sends bulk replies

    When acknowledgements release many frames, [transmit_replies] of [src/src/socket.rs] hands
    their datagrams to a task of the connection through a channel of ten, so that the
    receiving task goes on reading; with the channel full it waits. [Socket.transmit_replies]
    says what is handed over; here is how it gets to the socket. *)

From S2P Require Import Prelude Errors Frame FrameCodec SendOptions SendQ Runtime Udp Socket Loss.

(** [unsent]: the frames the suspended receiving task still has to hand over, with the loss
    it read for them. [passed]: the datagrams the task has given to [sendto]. *)
Record Bulk (chan : Type -> Type) := mk_bulk {
  channel_of : chan (list Z * Loss)%type;
  unsent : list FrameSetPacket;
  unsent_loss : Loss;
  running : bool;
  stopping : bool;
  passed : list (list Z);
  link : Link;
}.
Arguments mk_bulk {_} _ _ _ _ _ _ _.
Arguments channel_of {_} _.
Arguments unsent {_} _.
Arguments unsent_loss {_} _.
Arguments running {_} _.
Arguments stopping {_} _.
Arguments passed {_} _.
Arguments link {_} _.

Inductive event : Type :=
  | Replies (frames : list FrameSetPacket) (loss : Loss)
  | Offer
  | TaskTurn
  | CloseSignal
  | TaskStops.

Section Steps.
Context `{Mpsc chan} (roll : nat -> Z) (takes : nat -> bool).
Implicit Types (self : Bulk chan) (e : event).

(** The task is spawned by the first delegation. *)
Definition start : Bulk chan := mk_bulk (channel 10) [] default_loss true false [] (mk_link 0 0 []).

(** [sender.send((frame.serialize()?, enable_loss, loss_rate)).await]: the loop ends with the
    first frame that cannot be encoded, or when the task is gone. *)
Definition offer self : Bulk chan :=
  match unsent self with
  | [] => self
  | frame :: rest =>
      match serialize frame with
      | Err _ => mk_bulk (channel_of self) [] (unsent_loss self) (running self) (stopping self) (passed self) (link self)
      | Ok datagram =>
          match try_send (datagram, unsent_loss self) (channel_of self) with
          | (Sent, c) => mk_bulk c rest (unsent_loss self) (running self) (stopping self) (passed self) (link self)
          | (Full, c) => mk_bulk c (frame :: rest) (unsent_loss self) (running self) (stopping self) (passed self) (link self)
          | (Closed, c) => mk_bulk c [] (unsent_loss self) (running self) (stopping self) (passed self) (link self)
          end
      end
  end.

(** An iteration of the task's loop; [sendto] reports no error, so it goes on. *)
Definition task_turn self : Bulk chan :=
  if negb (running self) then self
  else match try_recv (channel_of self) with
  | (Some (datagram, loss), c) =>
      let '(r, l) := sendto roll takes loss datagram (link self) in
      let self := mk_bulk c (unsent self) (unsent_loss self) true (stopping self) (passed self ++ [datagram]) l in
      match r with
      | inl _ => self
      | inr _ => mk_bulk (drop_receiver c) (unsent self) (unsent_loss self) false (stopping self) (passed self) l
      end
  | (None, c) => mk_bulk c (unsent self) (unsent_loss self) true (stopping self) (passed self) (link self)
  end.

Definition step e self : Bulk chan :=
  match e with
  | Replies frames loss =>
      match unsent self with
      | [] => mk_bulk (channel_of self) frames loss (running self) (stopping self) (passed self) (link self)
      | _ => self
      end
  | Offer => offer self
  | TaskTurn => task_turn self
  | CloseSignal => mk_bulk (channel_of self) (unsent self) (unsent_loss self) (running self) true (passed self) (link self)
  | TaskStops =>
      if running self && stopping self
      then mk_bulk (drop_receiver (channel_of self)) (unsent self) (unsent_loss self) false true (passed self) (link self)
      else self
  end.

(** The datagrams that [Socket.transmit_replies] announces for the replies taken up. *)
Fixpoint announced (events : list event) self : list (list Z) :=
  match events with
  | [] => []
  | e :: events =>
      match e, unsent self with Replies frames _, [] => (send_each serialize frames).1 | _, _ => [] end
      ++ announced events (step e self)
  end.

Definition run (events : list event) self : Bulk chan := foldl (fun self e => step e self) self events.

(** ** What the task passes on *)

Definition waiting self : list (list Z) :=
  map fst (queued (view (channel_of self))) ++ (send_each serialize (unsent self)).1.

(** [total]: what was announced so far. *)
Record bulk_inv (total : list (list Z)) self : Prop := {
  bi_running : running self = true -> passed self ++ waiting self = total /\ receiver_closed (view (channel_of self)) = false;
  bi_stopped : running self = false -> passed self `prefix_of` total /\ receiver_closed (view (channel_of self)) = true;
  bi_stopping : running self = false -> stopping self = true;
  bi_sent : sent (link self) `sublist_of` passed self;
  bi_capacity : capacity (view (channel_of self)) = 10 /\ reserved (view (channel_of self)) = 0 /\
    zlen (queued (view (channel_of self))) <= 10;
}.

Lemma sendto_ok loss buf l :
  exists n, (sendto roll takes loss buf l).1 = inl n /\
    exists kept, sent (sendto roll takes loss buf l).2 = sent l ++ kept /\ kept `sublist_of` [buf].
Proof.
  unfold sendto, drops, put.
  assert (forall b : bool, exists kept, (if b then sent l ++ [buf] else sent l) = sent l ++ kept /\ kept `sublist_of` [buf]) as Hk.
  { intros []; [by exists [buf]|]. exists []. rewrite app_nil_r. split; [done|apply sublist_nil_l]. }
  destruct (enable_loss loss); [destruct (_ <? _)|]; simpl; (eexists; split; [reflexivity|]); [|apply Hk|apply Hk].
  exists []. rewrite app_nil_r. split; [done|apply sublist_nil_l].
Qed.

Lemma bulk_start_inv : bulk_inv [] start.
Proof. split; unfold waiting; simpl; rewrite ?channel_view; done. Qed.

(** Handing over moves a datagram from the frames to the channel, or waits. *)
Lemma offer_inv total self : bulk_inv total self -> bulk_inv total (offer self).
Proof.
  intros Hi. pose proof Hi as [Hr Hs Hst Hsent (Hcap & Hres & Hlen)]. unfold offer.
  destruct (unsent self) as [|frame rest] eqn:Eu; [done|]. unfold waiting in Hr. rewrite Eu in Hr. cbn [send_each] in Hr.
  destruct (serialize frame) as [datagram|e] eqn:Ese.
  2: { split; simpl; try done. }
  pose proof (try_send_result (datagram, unsent_loss self) (channel_of self)) as Hres1.
  pose proof (try_send_state (datagram, unsent_loss self) (channel_of self)) as Hst1.
  destruct (try_send _ (channel_of self)) as [o c]. simpl in Hres1, Hst1. unfold Channel.try_send in *.
  destruct (receiver_closed (view (channel_of self))) eqn:Ec; simpl in *.
  { subst o. destruct (running self) eqn:Er; [by destruct (Hr eq_refl)|]. split; simpl; rewrite ?Hst1; try done. by rewrite Ec. }
  destruct (running self) eqn:Er; [|by destruct (Hs eq_refl)]. destruct (Hr eq_refl) as [Ht _].
  destruct (send_each serialize rest) as [ds r] eqn:Eds. simpl in Ht.
  unfold Channel.full in *. destruct (capacity _ <=? _) eqn:Ef; simpl in *; subst o.
  - split; simpl; rewrite ?Hst1; try done. intros _. unfold waiting. simpl. rewrite Hst1, Ese, Eds, Ec. done.
  - split; simpl; rewrite ?Hst1; simpl; try done.
    + intros _. unfold waiting. simpl. rewrite Hst1, Eds. simpl. split; [|done]. rewrite map_app, <- app_assoc. exact Ht.
    + split_and!; [done|done|]. b2p. rewrite length_app. simpl. lia.
Qed.

Lemma task_turn_inv total self : bulk_inv total self -> bulk_inv total (task_turn self).
Proof.
  intros Hi. pose proof Hi as [Hr Hs Hst Hsent (Hcap & Hres & Hlen)]. unfold task_turn.
  destruct (running self) eqn:Er; [cbn [negb]|done]. destruct (Hr eq_refl) as [Ht Ec].
  pose proof (try_recv_result (channel_of self)) as Hres1. pose proof (try_recv_state (channel_of self)) as Hst1.
  destruct (try_recv (channel_of self)) as [o c]. simpl in Hres1, Hst1. unfold Channel.try_recv, waiting in *.
  destruct (queued (view (channel_of self))) as [|[datagram loss] l] eqn:Eq; simpl in *; subst o.
  - split; simpl; rewrite ?Hst1; try done. intros _. unfold waiting. simpl. by rewrite Hst1, Eq. by rewrite Eq.
  - destruct (sendto_ok loss datagram (link self)) as (n & E1 & kept & E2 & Hk).
    destruct (sendto roll takes loss datagram (link self)) as [r l']. simpl in E1, E2. subst r.
    split; simpl; rewrite ?Hst1; simpl; try done.
    + intros _. unfold waiting. simpl. rewrite Hst1. simpl. split; [|done]. by rewrite <- app_assoc.
    + rewrite E2. by apply sublist_app.
    + split_and!; [done|done|]. simpl in Hlen. lia.
Qed.

Lemma stop_inv total self : bulk_inv total self -> bulk_inv total (step TaskStops self).
Proof.
  intros Hi. pose proof Hi as [Hr Hs Hst Hsent (Hcap & Hres & Hlen)]. simpl. case_if; [|done].
  apply andb_true_iff in Heqb as [Er Es]. destruct (Hr Er) as [Ht _].
  split; simpl; rewrite ?drop_receiver_view; simpl; try done. intros _. split; [|done]. rewrite <- Ht. by exists (waiting self).
Qed.

Lemma step_inv total e self :
  bulk_inv total self ->
  bulk_inv (total ++ match e, unsent self with Replies frames _, [] => (send_each serialize frames).1 | _, _ => [] end) (step e self).
Proof.
  intros Hi. destruct e as [frames loss| | | |]; [|rewrite app_nil_r..].
  - simpl. destruct (unsent self) as [|f l] eqn:Eu; [|by rewrite app_nil_r].
    destruct Hi as [Hr Hs Hst Hsent Hcap]. split; simpl; try done.
    + intros Er. destruct (Hr Er) as [Ht Ec]. split; [|done]. rewrite <- Ht. unfold waiting. simpl. rewrite Eu. simpl.
      by rewrite app_nil_r, app_assoc.
    + intros Er. destruct (Hs Er) as [Hp Ec]. split; [|done]. by apply prefix_app_r.
  - by apply offer_inv.
  - by apply task_turn_inv.
  - destruct Hi as [Hr Hs Hst Hsent Hcap]. by split.
  - by apply stop_inv.
Qed.

Lemma bulk_run_inv events total self : bulk_inv total self -> bulk_inv (total ++ announced events self) (run events self).
Proof.
  revert total self. induction events as [|e events IH]; intros total self Hi; cbn [announced]; [by rewrite app_nil_r|].
  rewrite app_assoc. apply (IH _ (step e self)). by apply step_inv.
Qed.

(** With a slot free, the next frame is handed over. *)
Lemma offer_proceeds self :
  receiver_closed (view (channel_of self)) = false -> Channel.full (view (channel_of self)) = false ->
  unsent self <> [] -> (length (unsent (offer self)) < length (unsent self))%nat.
Proof.
  intros Hc Hf Hu. unfold offer. destruct (unsent self) as [|frame rest]; [done|]. destruct (serialize frame) as [d|e]; [|simpl; lia].
  pose proof (try_send_result (d, unsent_loss self) (channel_of self)) as Hres. unfold Channel.try_send in Hres.
  rewrite Hc, Hf in Hres. destruct (try_send _ (channel_of self)) as [o c]. simpl in Hres. subst o. simpl. lia.
Qed.

Lemma task_turn_frees total self :
  bulk_inv total self -> running self = true -> queued (view (channel_of self)) <> [] ->
  receiver_closed (view (channel_of (task_turn self))) = false /\ Channel.full (view (channel_of (task_turn self))) = false /\
  unsent (task_turn self) = unsent self.
Proof.
  intros [Hr _ _ _ (Hcap & Hres & Hlen)] Er Hq. destruct (Hr Er) as [_ Ec]. unfold task_turn. rewrite Er. cbn [negb].
  pose proof (try_recv_result (channel_of self)) as Hres1. pose proof (try_recv_state (channel_of self)) as Hst1.
  destruct (try_recv (channel_of self)) as [o c]. simpl in Hres1, Hst1. unfold Channel.try_recv in *.
  destruct (queued (view (channel_of self))) as [|[datagram loss] l] eqn:Eq; [done|]. simpl in *. subst o.
  destruct (sendto_ok loss datagram (link self)) as (n & E1 & _).
  destruct (sendto roll takes loss datagram (link self)) as [r l']. simpl in E1. subst r. simpl. rewrite Hst1. simpl.
  split; [done|]. split; [|done]. unfold Channel.full. simpl. rewrite Hcap, Hres. apply Z.leb_gt. lia.
Qed.

(** C36: bulk replies leave in order. Whatever the replies taken up, the turns of the task
    and the moment it stops: at most ten datagrams wait in the channel; the datagrams the
    task has passed on are a prefix of those [transmit_replies] announced, and the system took
    some of them in order; while the connection is open the rest is all in the channel or
    with the receiving task, and when that one waits for room, a turn of the task and another
    attempt hand its next datagram over. *)
Theorem bulk_replies_leave_in_order events :
  let self := run events start in
  let total := announced events start in
  zlen (queued (view (channel_of self))) <= 10 /\
  passed self `prefix_of` total /\ sent (link self) `sublist_of` passed self /\
  (stopping self = false -> running self = true) /\
  (running self = true -> passed self ++ waiting self = total) /\
  (running self = true -> queued (view (channel_of self)) <> [] ->
   unsent self <> [] -> (length (unsent (offer (task_turn self))) < length (unsent self))%nat).
Proof.
  pose proof (bulk_run_inv events [] start bulk_start_inv) as Hi. cbv zeta. simpl in Hi. pose proof Hi as [Hr Hs Hst Hsent (Hcap & Hres & Hlen)].
  set (self := run events start) in *. set (total := announced events start) in *.
  split; [done|]. split; [|split; [done|]; split; [|split; [by apply Hr|]]].
  - destruct (running self); [destruct (Hr eq_refl) as [<- _]; by exists (waiting self)|by apply Hs].
  - intros Hns. destruct (running self); [done|]. rewrite Hst in Hns; done.
  - intros Er Hq Hu. destruct (task_turn_frees total self Hi Er Hq) as (Hc & Hf & Eu).
    rewrite <- Eu in Hu |- *. by apply offer_proceeds.
Qed.
End Steps.

(** ** The theorem at work *)

Definition sample_frames : list FrameSetPacket :=
  map (fun n => from_payload Reliability.Reliable (FramePayload.Owned [0xfe; Z.of_nat n])) (seq 0 12).

(** Twelve replies: the receiving task waits with two, then the task has a turn. *)
Definition sample_events : list event := Replies sample_frames default_loss :: replicate 11 Offer ++ [TaskTurn; Offer].

Example bulk_waits_for_room :
  let self := @run Channel _ (fun _ => 0) (fun _ => true) sample_events start in
  (length (queued (channel_of self)), length (unsent self), length (sent (link self))) = (10, 1, 1)%nat.
Proof. vm_compute. reflexivity. Qed.
