(* ===== verification/Handshake.v ===== *)
(** * The connected handshake of the client

    When [ConnectionRequestAccepted] arrives, [handle] of [src/src/socket.rs] queues two
    packets, a [NewIncomingConnection] and a [ConnectedPing], and completes the handshake. It
    does so on every path but the shortest ones that can be negotiated. *)

From S2P Require Import Prelude Errors Sequence Datatype Packet PacketCodec Frame FrameCodec Fragment AckSet RecvQ SendOptions SendQ SendQInv SendQInsert SendQFlow SendQRun SendQProgress Runtime Udp Socket.

Section Handshake.
Context {feat : Features} `{Mpsc chan}.
Context (peer_addr local_addr : SocketAddr).
Implicit Types (self : Connection chan) (t : Turn).

Lemma new_incoming_written p :
  SocketAddr_wf (nic_server_address p) ->
  exists bs, write_packet_new_incomming_connection p = Ok bs /\ 1 <= zlen bs <= 400.
Proof.
  intros Ha. assert (SocketAddr_wf (V4 (mk_ipv4 0 0 0 0) 0)) as Hi by (simpl; repeat constructor; done).
  pose proof (internal_length _ Hi) as Hl. eexists. split.
  - apply run_writes. repeat (eapply writes_bind; [solve [eauto using writes_internal_addresses with wire]|]). eauto with wire.
  - apply address_bytes_bounds in Ha. rewrite !length_app, !to_bytes_length. simpl length in *. lia.
Qed.

Lemma ping_written p : exists bs, write_packet_connected_ping p = Ok bs /\ zlen bs = 9.
Proof.
  eexists. split; [apply run_writes; eapply writes_bind; [solve [eauto with wire]|]; eauto with wire|].
  by rewrite length_app, !to_bytes_length.
Qed.

(** Any reliable ordered message of this size is accepted on a queue with room. *)
Lemma small_accepted q len :
  negotiated_mtu (SendQ.mtu q) -> 1 <= len <= 400 -> SendQ.buffered_bytes q <= 2 ^ 20 ->
  accepts q Reliability.ReliableOrdered len /\ reserved_bytes q Reliability.ReliableOrdered len <= 2 ^ 17.
Proof.
  intros Hm Hl Hb. unfold negotiated_mtu in Hm.
  assert (1 <= frames_needed q Reliability.ReliableOrdered len <= 400) as Hf.
  { unfold frames_needed. case_if; [|lia]. b2p.
    destruct (div_ceil_bounds len (SendQ.mtu q - 60)) as [B1 B2]; [lia|lia|]. nia. }
  unfold accepts, reserved_bytes, MAX_FRAGMENTS, SendQ.MAX_BUFFERED_BYTES, SendQ.FRAME_BUDGET.
  split_and!; try lia. by left.
Qed.

(** C35: the handshake of a client completes exactly on paths of at least 69 bytes. On a
    connection whose send queue has room, a [ConnectionRequestAccepted] that parses
    completes the handshake if the negotiated MTU is at least 69; on the shorter ones that
    [connect_with_version_and_mtu] and the listener accept, 61 to 68, the ping does not fit
    a datagram, [handle] fails, and the handshake is not completed. *)
Theorem handshake_needs_69_bytes t w frame packet self :
  SocketAddr_wf local_addr -> sendq_inv (sendq self) -> negotiated_mtu (SendQ.mtu (sendq self)) ->
  SendQ.buffered_bytes (sendq self) <= 2 ^ 20 ->
  head (FramePayload.deref (data frame)) = Some (PacketID.to_u8 PacketID.ConnectionRequestAccepted) ->
  read_packet_connection_request_accepted (FramePayload.deref (data frame)) = Ok packet ->
  (handle peer_addr local_addr t w frame self).1 =
    Returns (if 69 <=? SendQ.mtu (sendq self) then Ok HandshakeComplete else Err PacketSizeExceedMTU).
Proof.
  intros Ha Hq Hm Hb Hid Hp. unfold handle. destruct (FramePayload.deref (data frame)) as [|id bytes]; [done|].
  injection Hid as ->.
  change (PacketID.from 16) with (Ok (E := RaknetError) PacketID.ConnectionRequestAccepted).
  cbv beta iota. rewrite Hp. unfold with_sendq. cbn [fst].
  destruct (new_incoming_written (mk_NewIncomingConnection local_addr (acc_request_timestamp packet) (wall t w)) Ha) as (b1 & E1 & L1).
  destruct (ping_written (mk_ConnectedPing (wall t (S w)))) as (b2 & E2 & L2).
  match goal with |- context [?m (sendq self)] =>
    enough (exists q2, m (sendq self) = (if 69 <=? SendQ.mtu (sendq self) then Ok tt else Err PacketSizeExceedMTU, q2)) as [q2 E]
    end; [rewrite E; by destruct (69 <=? SendQ.mtu (sendq self))|].
  erewrite SE_bind_ok by reflexivity. rewrite E1. erewrite SE_bind_ok by reflexivity.
  destruct (small_accepted (sendq self) (zlen b1) Hm L1 Hb) as [Hacc Hres].
  pose proof (inv_bytes _ _ Hq) as [Hbytes _].
  destruct (insert_payload_cases Reliability.ReliableOrdered b1 0 false (sendq self) Hbytes) as [[Hn _]|(_ & q1 & Ei & _)]; [done|].
  change (SendQ.insert Reliability.ReliableOrdered b1) with (SendQ.insert_payload Reliability.ReliableOrdered b1 0 false).
  erewrite SE_bind_ok by exact Ei. rewrite E2. erewrite SE_bind_ok by reflexivity.
  assert (in_range 16 (SendQ.mtu (sendq self))) as Hm16 by (unfold in_range, negotiated_mtu in *; lia).
  destruct (insert_adds _ _ _ _ _ _ Hq Hm16 Ei) as (_ & _ & _ & _ & _ & Eb).
  pose proof (insert_payload_inv Reliability.ReliableOrdered b1 0 false _ Hq Hm16) as Hq1. rewrite Ei in Hq1. simpl in Hq1.
  pose proof (insert_payload_mtu Reliability.ReliableOrdered b1 0 false _ Hq) as Em. rewrite Ei in Em. simpl in Em.
  pose proof (inv_bytes _ _ Hq1) as [Hbytes1 _].
  change (SendQ.insert Reliability.Unreliable b2) with (SendQ.insert_payload Reliability.Unreliable b2 0 false).
  assert (accepts q1 Reliability.Unreliable (zlen b2) <-> 69 <= SendQ.mtu (sendq self)) as Hiff.
  { unfold accepts, frames_needed, MAX_FRAGMENTS, SendQ.MAX_BUFFERED_BYTES, SendQ.FRAME_BUDGET. rewrite Em, L2, Eb.
    unfold negotiated_mtu in Hm. simpl. split; [intros (_ & [?|?] & _); [done|lia]|intros; split_and!; try lia; right; lia]. }
  destruct (insert_payload_cases Reliability.Unreliable b2 0 false q1 Hbytes1) as [(Hn & ->)|(Hy & q2 & -> & _)]; eexists.
  - rewrite Hiff in Hn. by rewrite (proj2 (Z.leb_gt _ _)) by lia.
  - apply Hiff in Hy. by rewrite (proj2 (Z.leb_le _ _)) by lia.
Qed.
End Handshake.

(** ** The theorem at work *)

(** What a server at port 19132 answers. *)
Definition sample_accepted : FrameSetPacket :=
  from_payload Reliability.ReliableOrdered (FramePayload.Owned
    match write_packet_connection_request_accepted (mk_ConnectionRequestAccepted (V4 (mk_ipv4 127 0 0 1) 19132) 0 5 6) with
    | Ok bytes => bytes
    | Err _ => []
    end).

Definition sample_moment : Turn := mk_turn (fun _ => 20) (fun _ => 0) true true (fun _ => false) true None.

Definition client_handles (mtu : Z) : Handled :=
  (@handle {| recovery_policy := true; send_policy := true |} Channel _ (V4 (mk_ipv4 127 0 0 1) 19132) (V4 (mk_ipv4 127 0 0 1) 8)
     sample_moment 0 sample_accepted (new_connection mtu 0)).1.

Lemma handshake_needs_69_bytes_witness :
  client_handles 69 = Returns (Ok HandshakeComplete) /\ client_handles 68 = Returns (Err PacketSizeExceedMTU).
Proof.
  assert (forall mtu, negotiated_mtu mtu -> client_handles mtu =
    Returns (if 69 <=? mtu then Ok HandshakeComplete else Err PacketSizeExceedMTU)) as H.
  { intros mtu Hm. unfold client_handles.
    rewrite (@handshake_needs_69_bytes {| recovery_policy := true; send_policy := true |} Channel _ (V4 (mk_ipv4 127 0 0 1) 19132)
      (V4 (mk_ipv4 127 0 0 1) 8) sample_moment 0 sample_accepted (mk_ConnectionRequestAccepted (V4 (mk_ipv4 127 0 0 1) 19132) 0 5 6)).
    - reflexivity.
    - simpl. repeat constructor; done.
    - apply new_inv.
    - exact Hm.
    - simpl. lia.
    - vm_compute. reflexivity.
    - vm_compute. reflexivity. }
  split; [rewrite (H 69)|rewrite (H 68)]; try reflexivity; unfold negotiated_mtu; lia.
Defined.
