(* ===== verification/Ticker.v ===== *)
(** * The sleeping ticker

    With idle maintenance the ticking task of [src/src/socket.rs] sleeps up to a minute when
    the connection was quiet and both queues were empty. Senders and the receiving task wake
    it through [Maintenance]: a flag that the ticker sets before it looks at the queues, and a
    [Notify] with one permit. Here every atomic operation and every critical section is a
    step, and the steps of the ticker, of senders, of the receiving task and of the option
    setters interleave in any order. *)

From S2P Require Import Prelude Errors Sequence Datatype Packet Frame FrameCodec Fragment AckSet RecvQ SendOptions SendQ SendQInv SendQInsert SendQFlow SendQRun SendQWire SendQSched Sending SendQWait SendQProgress Runtime Udp Socket.
Import SendQ.

(** ** Steps *)

(** Where the ticker is: in [select!] (with [idle] the variable of its loop), woken, with the
    flag set if [quiet], after its look at the receive queue, after its flush, and after it
    has cleared the flag if it is not idle. *)
Inductive Phase : Type :=
  | Sleeping (idle : bool)
  | Awake
  | Armed (quiet : bool)
  | Looked (quiet receive_idle : bool)
  | Flushed (quiet receive_idle send_idle : bool)
  | Decided (idle : bool)
  | Finished.

(** [owed]: tasks that released the lock on the send queue and are about to swap the flag;
    [notifying]: tasks that cleared the flag and are about to call [notify_one]; [replied]:
    the receiving task is between [handle] and its flush; [closers]: calls about to close. *)
Record World := mk_world {
  outgoing : SendQ;
  incoming : RecvQ;
  signals : Maintenance;
  shut : bool;
  ticker : Phase;
  owed : nat;
  notifying : nat;
  replied : bool;
  closers : nat;
}.

#[export] Instance set_outgoing : Setter outgoing := fun g r =>
  mk_world (g (outgoing r)) (incoming r) (signals r) (shut r) (ticker r) (owed r) (notifying r) (replied r) (closers r).
#[export] Instance set_incoming : Setter incoming := fun g r =>
  mk_world (outgoing r) (g (incoming r)) (signals r) (shut r) (ticker r) (owed r) (notifying r) (replied r) (closers r).
#[export] Instance set_signals : Setter signals := fun g r =>
  mk_world (outgoing r) (incoming r) (g (signals r)) (shut r) (ticker r) (owed r) (notifying r) (replied r) (closers r).
#[export] Instance set_shut : Setter shut := fun g r =>
  mk_world (outgoing r) (incoming r) (signals r) (g (shut r)) (ticker r) (owed r) (notifying r) (replied r) (closers r).
#[export] Instance set_ticker : Setter ticker := fun g r =>
  mk_world (outgoing r) (incoming r) (signals r) (shut r) (g (ticker r)) (owed r) (notifying r) (replied r) (closers r).
#[export] Instance set_owed : Setter owed := fun g r =>
  mk_world (outgoing r) (incoming r) (signals r) (shut r) (ticker r) (g (owed r)) (notifying r) (replied r) (closers r).
#[export] Instance set_notifying : Setter notifying := fun g r =>
  mk_world (outgoing r) (incoming r) (signals r) (shut r) (ticker r) (owed r) (g (notifying r)) (replied r) (closers r).
#[export] Instance set_replied : Setter replied := fun g r =>
  mk_world (outgoing r) (incoming r) (signals r) (shut r) (ticker r) (owed r) (notifying r) (g (replied r)) (closers r).
#[export] Instance set_closers : Setter closers := fun g r =>
  mk_world (outgoing r) (incoming r) (signals r) (shut r) (ticker r) (owed r) (notifying r) (replied r) (g (closers r)).

(** What ends the wait of the ticker. *)
Inductive Cause : Type := Elapsed | Notified | Closing.

Inductive event : Type :=
  (* the ticker *)
  | Wake (cause : Cause)
  | Arm (silent : bool)
  | Look (now : Z)
  | TickFlush (now : Z)
  | Decide
  | Rest (expired : bool)
  (* callers *)
  | SendSection (r : Reliability) (buf : list Z) (order_channel : Z) (owned : bool) (now : Z)
  | BatchSection (borrowed owned : list (list Z)) (order_channel now : Z)
  | SetIdle (enabled : bool)
  | SetOptions (opts : SendOptions)
  | SetRecovery (opts : RecoveryOptions) (now : Z)
  | CloseSection
  | DropSocket
  (* the receiving task *)
  | Acked (ranges : list (Z * Z)) (now flushed : Z)
  | Nacked (ranges : list (Z * Z)) (now flushed : Z)
  | TakeAcks
  | FrameSet (arrivals : list (Z * FrameSetPacket)) (drained : bool)
  | Reply (packets : list (Reliability * list Z))
  | FlushReplies (now : Z)
  (* any of them, later *)
  | Swap
  | Notify
  | Shut.

Section Steps.
Context {feat : Features} {usort : UnstableSort}.
Implicit Types (w : World) (e : event) (q : SendQ).

(** [idle.swap(false)]; the caller notifies if the flag was set. *)
Definition swap_idle w : World :=
  if idle (signals w)
  then w <| signals := signals w <| idle := false |> |> <| notifying := S (notifying w) |>
  else w.

(** A section that ends with a flush: [publish(.., true)] under the same lock. *)
Definition after_flush q w : World :=
  w <| outgoing := q |> <| signals := publish q true (signals w) |>.

(** The critical section of a send, by its result. *)
Definition after_send (outcome : Result (option OutgoingFrames) * SendQ) w : World :=
  match outcome with
  | (Ok (Some _), q) => after_flush q w <| owed := S (owed w) |>
  | (_, q) => w <| outgoing := q |>
  end.

Definition tick_step e w : World :=
  match e, ticker w with
  | Wake Elapsed, Sleeping _ => w <| ticker := Awake |>
  | Wake Notified, Sleeping idle =>
      if wakeup (signals w) && (recovery_policy || idle)
      then w <| ticker := Awake |> <| signals := signals w <| wakeup := false |> |> else w
  | Wake Closing, Sleeping _ => if shut w then w <| ticker := Awake |> else w
  | Arm silent, Awake =>
      let quiet := enabled (signals w) && silent in
      let w := w <| ticker := Armed quiet |> in
      if quiet then w <| signals := signals w <| idle := true |> |> else w
  | Look now, Armed quiet =>
      if fragments_expired now (incoming w) then w <| shut := true |> <| ticker := Finished |>
      else let q := (take_nacks (incoming w)).2 in
           w <| incoming := q |> <| ticker := Looked quiet (negb (needs_maintenance q)) |>
  | TickFlush now, Looked quiet receive_idle =>
      let q := (SendQ.flush now (outgoing w)).2 in
      w <| outgoing := q |> <| signals := publish q false (signals w) |>
        <| ticker := Flushed quiet receive_idle (is_empty q) |>
  | Decide, Flushed quiet receive_idle send_idle =>
      let now_idle := quiet && receive_idle && send_idle in
      let w := w <| ticker := Decided now_idle |> in
      if now_idle then w else w <| signals := signals w <| idle := false |> |>
  | Rest expired, Decided idle =>
      if expired : bool then w <| shut := true |> <| ticker := Finished |>
      else if shut w then w <| ticker := Finished |>
      else w <| ticker := Sleeping idle |>
  | _, _ => w
  end.

(** A frame set, under the lock on the receive queue. *)
Definition frame_set_section (arrivals : list (Z * FrameSetPacket)) (drained : bool) w : World :=
  let '(invalid, _, q) := receive arrivals [] (incoming w) in
  let q := if drained then (take_acks q).2 else q in
  let w := w <| incoming := q |> in
  let w := if needs_maintenance q then swap_idle w else w in
  if invalid : bool then w <| closers := S (closers w) |> else w.

(** The flush after [handle]; the flag is swapped if there is anything to send. *)
Definition flush_replies (now : Z) w : World :=
  let '(out, q) := SendQ.flush now (outgoing w) in
  let w := after_flush q w <| replied := false |> in
  match frames out with [] => w | _ => w <| owed := S (owed w) |> end.

(** The insertions of [handle]; only without an error does a flush follow. *)
Definition reply_section (packets : list (Reliability * list Z)) w : World :=
  let '(r, q) := insert_replies packets (outgoing w) in
  w <| outgoing := q |> <| replied := is_ok r |>.

(** The receiving task does one thing at a time: nothing else until it flushed its replies. *)
Definition receiver_step e w : World :=
  match e, replied w with
  | Acked ranges now flushed, false =>
      after_flush (SendQ.flush flushed (ack_ranges ranges now (outgoing w))).2 w
  | Nacked ranges now flushed, false =>
      after_flush (SendQ.flush flushed (nack_ranges ranges now (outgoing w))).2 w
  | TakeAcks, false => w <| incoming := (take_acks (incoming w)).2 |>
  | FrameSet arrivals drained, false => frame_set_section arrivals drained w
  | Reply packets, false => reply_section packets w
  | FlushReplies now, true => flush_replies now w
  | _, _ => w
  end.

(** *** The methods of the connection *)

Definition set_idle_maintenance (on : bool) w : World :=
  let m := signals w <| enabled := on |> in
  w <| signals := if on then m else notify_one m |>.

Definition set_send_options (opts : SendOptions) w : World :=
  if shut w then w
  else match SendQ.set_send_options opts (outgoing w) with
       | (Err _, q) => w <| outgoing := q |>
       | (Ok _, q) =>
           w <| outgoing := register_capacity_notifier q |>
             <| signals := signals w <| idle := false |> |> <| notifying := S (notifying w) |>
       end.

Definition set_recovery_options (opts : RecoveryOptions) (now : Z) w : World :=
  if shut w then w
  else
    let q := SendQ.set_recovery_options opts now (outgoing w) in
    let deadlines := SendOptions.deadline_driven opts
                     || match tail_probe_min_delay opts with Some _ => true | None => false end in
    let m := signals w <| Socket.deadline_driven := deadlines |> in
    let m := if deadlines then m else m <| deadline := I64_MAX |> in
    w <| outgoing := q |> <| signals := notify_one (publish q true m) |>.

(** [close] up to the moment it closes. *)
Definition close_section w : World :=
  if shut w then w
  else match SendQ.insert Reliability.Reliable [PacketID.to_u8 PacketID.Disconnect] (outgoing w) with
       | (Err _, q) => w <| outgoing := q |>
       | (Ok _, q) => w <| outgoing := q |> <| closers := S (closers w) |>
       end.

Definition step e w : World :=
  match e with
  | SendSection r buf order_channel owned now =>
      after_send (send_payload_locked r buf order_channel owned now (outgoing w)) w
  | BatchSection borrowed owned order_channel now =>
      after_send (send_batch_locked borrowed owned Reliability.ReliableOrdered order_channel now (outgoing w)) w
  | SetIdle on => set_idle_maintenance on w
  | SetOptions opts => if send_policy then set_send_options opts w else w
  | SetRecovery opts now => if recovery_policy then set_recovery_options opts now w else w
  | CloseSection => close_section w
  | DropSocket => w <| shut := true |>
  | Swap =>
      match owed w with O => w | S owed' => swap_idle (w <| owed := owed' |>) end
  | Notify =>
      match notifying w with
      | O => w
      | S notifying' => w <| notifying := notifying' |> <| signals := notify_one (signals w) |>
      end
  | Shut =>
      match closers w with O => w | S closers' => w <| closers := closers' |> <| shut := true |> end
  | Acked _ _ _ | Nacked _ _ _ | TakeAcks | FrameSet _ _ | Reply _ | FlushReplies _ => receiver_step e w
  | _ => tick_step e w
  end.

(** A connection whose ticker has just been spawned. *)
Definition start (mtu : Z) : World :=
  mk_world (SendQ.new mtu) new_recvq default_maintenance false (Sleeping false) 0 0 false 0.

Definition run (mtu : Z) (events : list event) : World := foldl (fun w e => step e w) (start mtu) events.
End Steps.

(** ** The invariant *)

Section Waking.
Context {feat : Features} {usort : UnstableSort}.
Context (m : Z) (Hm : negotiated_mtu m).
Implicit Types (w : World) (e : event) (q : SendQ).

(** The send queue between sections. *)
Record healthy q : Prop := {
  hl_wire : wire_inv q;
  hl_options : valid_options q;
  hl_mtu : mtu q = m;
}.

(** The flag is up, or someone who took it down has notified or will. *)
Definition flagged w : Prop := idle (signals w) = true \/ wakeup (signals w) = true \/ (0 < notifying w)%nat.

Definition told w : Prop := wakeup (signals w) = true \/ (0 < notifying w)%nat.

(** A task on its way to wake the ticker, because of what it put into the send queue. *)
Definition promised w : Prop :=
  told w \/ (0 < owed w)%nat \/ (replied w = true /\ sent_packet (outgoing w) = []) \/ shut w = true \/ (0 < closers w)%nat.

Definition receive_told w : Prop := needs_maintenance (incoming w) = true -> told w.
Definition send_told w : Prop := holdings (outgoing w) <> [] -> promised w.

(** What the ticker relies on in each phase, having set the flag and seen a queue empty. *)
Definition alert (p : Phase) : bool :=
  match p with
  | Armed quiet | Looked quiet _ | Flushed quiet _ _ => quiet
  | Decided idle | Sleeping idle => idle
  | Awake | Finished => false
  end.

Definition saw_receive (p : Phase) : bool :=
  match p with
  | Looked quiet receive_idle | Flushed quiet receive_idle _ => quiet && receive_idle
  | Decided idle | Sleeping idle => idle
  | _ => false
  end.

Definition saw_send (p : Phase) : bool :=
  match p with
  | Flushed quiet _ send_idle => quiet && send_idle
  | Decided idle | Sleeping idle => idle
  | _ => false
  end.

Record tick_inv w : Prop := {
  tk_healthy : healthy (outgoing w);
  tk_flagged : alert (ticker w) = true -> flagged w;
  tk_receive : saw_receive (ticker w) = true -> receive_told w;
  tk_send : saw_send (ticker w) = true -> send_told w;
}.

Lemma saw_receive_alert p : saw_receive p = true -> alert p = true.
Proof. destruct p; simpl; try done; by destruct quiet. Qed.

Lemma saw_send_alert p : saw_send p = true -> alert p = true.
Proof. destruct p; simpl; try done; by destruct quiet. Qed.

(** What a step of another task may do while the ticker relies on the flag. *)
Record mild w w' : Prop := {
  mild_ticker : ticker w' = ticker w;
  mild_healthy : healthy (outgoing w');
  mild_flagged : flagged w -> flagged w';
  mild_receive : flagged w -> receive_told w -> receive_told w';
  mild_send : flagged w -> send_told w -> send_told w';
}.

Lemma mild_inv w w' : mild w w' -> tick_inv w -> tick_inv w'.
Proof.
  intros [Et Hh Hf Hr Hs] [_ Gf Gr Gs]. split; [done|..]; rewrite Et; intros H.
  - auto.
  - apply Hr; [apply Gf, saw_receive_alert, H|auto].
  - apply Hs; [apply Gf, saw_send_alert, H|auto].
Qed.

(** Steps that only tell more. *)
Record louder w w' : Prop := {
  ld_idle : idle (signals w) = true -> flagged w';
  ld_told : told w -> told w';
  ld_owed : (owed w <= owed w')%nat \/ told w';
  ld_shut : shut w = true -> shut w' = true;
  ld_closers : (0 < closers w)%nat -> shut w' = true \/ (0 < closers w')%nat;
}.

Lemma told_flagged w : told w -> flagged w.
Proof. unfold told, flagged. tauto. Qed.

Lemma louder_flagged w w' : louder w w' -> flagged w -> flagged w'.
Proof. intros [Hi Ht _ _ _] [H|H]; [by apply Hi|]. apply told_flagged, Ht, H. Qed.

(** The promises of other tasks are kept; that of the receiving task has to be shown. *)
Lemma louder_promised w w' :
  louder w w' -> (replied w = true /\ sent_packet (outgoing w) = [] -> promised w') -> promised w -> promised w'.
Proof.
  intros [_ Ht Ho Hs Hc] Hr [H|[H|[H|[H|H]]]]; unfold promised.
  - left. auto.
  - destruct Ho as [Ho|Ho]; [right; left; lia|by left].
  - by apply Hr.
  - do 3 right. left. auto.
  - do 3 right. destruct (Hc H) as [?|?]; [by left|by right].
Qed.

Lemma mild_section w w' :
  ticker w' = ticker w -> incoming w' = incoming w -> healthy (outgoing w') -> louder w w' ->
  (holdings (outgoing w') <> [] -> send_told w -> promised w') -> mild w w'.
Proof.
  intros Et Ei Hh Hl Hs. split; [done|done|by apply louder_flagged| |].
  - intros _ Hr. unfold receive_told. rewrite Ei. intros Hn. by apply (ld_told _ _ Hl), Hr.
  - intros _ H Hn. by apply Hs.
Qed.

(** *** The send queue *)

Lemma handled_healthy (x : SendQRun.event) q :
  healthy q -> channels_ok x -> valid_event x -> healthy (SendQRun.handle x q).
Proof.
  intros [Hw Hv Em] Hc He. assert (path_mtu (mtu q)) by (rewrite Em; unfold path_mtu, negotiated_mtu in *; lia).
  split; [by apply handle_wire|apply handle_valid; [apply Hw|done|done]|].
  destruct (handle_inv x q) as [_ Em']; [rewrite Em; unfold in_range, negotiated_mtu in *; lia|apply Hw|congruence].
Qed.

Lemma insert_healthy r buf channel owned :
  in_range 8 channel -> preserves healthy (insert_payload r buf channel owned).
Proof. intros Hc q Hq. by apply (handled_healthy (Insert r buf channel owned) q). Qed.

Lemma flush_healthy now q : healthy q -> healthy (SendQ.flush now q).2.
Proof. intros Hq. by apply (handled_healthy (Flush now) q). Qed.

Lemma flush_empty now q : sendq_inv q -> holdings q = [] -> holdings (SendQ.flush now q).2 = [].
Proof.
  intros Hq He. destruct (flush_sends now q Hq) as [_ _ _ (gone & Hh & _)]. rewrite He in Hh.
  by apply Permutation_nil in Hh as [_ ->]%app_eq_nil.
Qed.

Lemma ack_ranges_empty ranges now q : sendq_inv q -> holdings q = [] -> holdings (ack_ranges ranges now q) = [].
Proof.
  intros Hq He. destruct (acks_holdings ranges q (ack_ranges ranges now q)) as (gone & _ & Hh & _); [apply ack_ranges_acks|].
  rewrite He in Hh. by apply Permutation_nil in Hh as [_ ->]%app_eq_nil.
Qed.

Lemma keeps_empty q q' : keeps q q' -> holdings q = [] -> holdings q' = [].
Proof. intros Hk He. apply keeps_holdings in Hk. rewrite He in Hk. by apply Permutation_nil_r. Qed.

(** *** Signals *)

Lemma publish_idle q wake (sg : Maintenance) : idle (publish q wake sg) = idle sg.
Proof. unfold publish. by repeat case_if. Qed.

Lemma publish_wakeup q wake (sg : Maintenance) : wakeup sg = true -> wakeup (publish q wake sg) = true.
Proof. unfold publish. by repeat case_if. Qed.

Lemma publish_quiet q (sg : Maintenance) : wakeup (publish q false sg) = wakeup sg.
Proof. unfold publish. by repeat case_if. Qed.

Lemma after_flush_louder q w : louder w (after_flush q w).
Proof.
  split; try done; try (by left); try (by right).
  - unfold flagged. simpl. rewrite publish_idle. by left.
  - intros [H|H]; [left; by apply publish_wakeup|by right].
Qed.

Lemma same_signals_louder w w' :
  signals w' = signals w -> notifying w' = notifying w -> (owed w <= owed w')%nat -> shut w' = shut w ->
  (closers w <= closers w')%nat -> louder w w'.
Proof.
  intros E1 E2 E3 E4 E5. split; unfold flagged, told; rewrite ?E1, ?E2, ?E4; try done; try (by left). right. lia.
Qed.

(** *** The steps of the other tasks *)

Lemma swap_idle_louder w : louder w (swap_idle w).
Proof.
  unfold swap_idle. case_if; [|by apply same_signals_louder].
  split; try done; try (by left); try (by right); unfold flagged, told; simpl; try (right; right; lia).
  intros [H1|H1]; [by left|right; lia].
Qed.

(** The flag was up, or the ticker has been told. *)
Lemma swap_idle_told w : flagged w -> told (swap_idle w).
Proof. unfold flagged, told, swap_idle. intros [H|H]; [rewrite H; right; simpl; lia|]. case_if; [right; simpl; lia|done]. Qed.

(** A step that leaves the send queue and the receiving task alone. *)
Lemma mild_same w w' :
  ticker w' = ticker w -> incoming w' = incoming w -> outgoing w' = outgoing w -> replied w' = replied w ->
  healthy (outgoing w) -> louder w w' -> mild w w'.
Proof.
  intros Et Ei Eo Er Hh Hl. apply mild_section; [done|done|by rewrite Eo|done|].
  rewrite Eo. intros Hn Hs. apply (louder_promised w); [done| |by apply Hs].
  intros H. right. right. left. by rewrite Er, Eo.
Qed.

Lemma send_step_mild (outcome : Result (option OutgoingFrames) * SendQ) w :
  healthy (outgoing w) -> healthy outcome.2 ->
  match outcome.1 with Ok (Some _) => True | _ => outcome.2 = outgoing w end ->
  mild w (after_send outcome w).
Proof.
  destruct outcome as [r q]. simpl. intros Hw Hh Hsame. destruct r as [[out|]|err].
  - apply mild_section; [done|done|done| |].
    + destruct (after_flush_louder q w) as [H1 H2 H3 H4 H5]. split; try done. left. simpl. lia.
    + intros _ _. right. left. simpl. lia.
  - subst q. apply mild_same; try done. by apply same_signals_louder.
  - subst q. apply mild_same; try done. by apply same_signals_louder.
Qed.

Lemma send_payload_healthy r buf channel owned now :
  in_range 8 channel -> preserves healthy (send_payload_locked r buf channel owned now).
Proof.
  intros Hc. unfold send_payload_locked. apply preserves_bind; [auto with preserves|]. intros q0.
  apply preserves_bind; [auto with preserves|]. intros [|]; [|auto with preserves].
  apply preserves_bind; [destruct owned; by apply insert_healthy|]. intros _ q Hq. unfold flush_frames.
  pose proof (flush_healthy now q Hq) as Hf. by destruct (SendQ.flush now q).
Qed.

Lemma insert_messages_healthy r messages channel owned :
  in_range 8 channel -> preserves healthy (insert_messages r messages channel owned).
Proof.
  intros Hc. induction messages as [|message messages IH]; cbn [insert_messages]; [auto with preserves|].
  apply preserves_bind; [by apply insert_healthy|done].
Qed.

Lemma send_batch_healthy borrowed owned r channel now :
  in_range 8 channel -> preserves healthy (send_batch_locked borrowed owned r channel now).
Proof.
  intros Hc. unfold send_batch_locked. apply preserves_bind; [auto with preserves|]. intros q0.
  apply preserves_bind; [auto with preserves|]. intros [|]; [|auto with preserves].
  apply preserves_bind.
  { case_if; [apply preserves_modify|auto with preserves]. intros q Hq. by apply (handled_healthy EnableCoalescing q). }
  intros _. do 2 (apply preserves_bind; [by apply insert_messages_healthy|]; intros _). intros q Hq. unfold flush_frames.
  pose proof (flush_healthy now q Hq) as Hf. by destruct (SendQ.flush now q).
Qed.

Lemma send_section_mild r buf channel owned now w :
  in_range 8 channel -> healthy (outgoing w) -> mild w (step (SendSection r buf channel owned now) w).
Proof.
  intros Hc Hh. apply send_step_mild; [done|by apply send_payload_healthy|].
  pose proof (send_payload_waits r buf channel owned now (outgoing w)) as Hn.
  pose proof (send_payload_refused r buf channel owned now (outgoing w)) as He.
  destruct (send_payload_locked r buf channel owned now (outgoing w)) as [[[out|]|err] q']; [done|by apply Hn|].
  apply (He err); [apply Hh|done].
Qed.

Lemma batch_section_mild borrowed owned channel now w :
  in_range 8 channel -> healthy (outgoing w) -> mild w (step (BatchSection borrowed owned channel now) w).
Proof.
  intros Hc Hh. apply send_step_mild; [done|by apply send_batch_healthy|].
  pose proof (send_batch_cases borrowed owned channel now (outgoing w)) as H. cbv zeta in H.
  destruct (has_batch_capacity (outgoing w) _ _) as [[|]|err].
  - destruct H as (q1 & fss & _ & _ & _ & ->); [apply Hh| |apply Hh|done].
    rewrite (hl_mtu _ Hh). unfold in_range, negotiated_mtu in *. lia.
  - rewrite H; [done|apply Hh| |apply Hh]. rewrite (hl_mtu _ Hh). unfold in_range, negotiated_mtu in *. lia.
  - rewrite H; [done|apply Hh| |apply Hh]. rewrite (hl_mtu _ Hh). unfold in_range, negotiated_mtu in *. lia.
Qed.

Lemma set_send_options_healthy opts q :
  send_policy = true -> SendOptions.valid opts -> healthy q -> healthy (SendQ.set_send_options opts q).2.
Proof.
  intros Hp Ho Hq. pose proof (handled_healthy (SetSendOptions opts) q Hq I Ho) as H. simpl in H. by rewrite Hp in H.
Qed.

Lemma register_healthy q : healthy q -> healthy (register_capacity_notifier q).
Proof.
  intros [Hw Hv Em]. destruct (register_inv q (wire_accounted _ Hw)) as (_ & _ & Em').
  split; [by apply register_wire| |congruence]. apply (same_options_valid q); [|done].
  unfold register_capacity_notifier. intros s'. destruct (scheduler q) as [s|] eqn:Es; [|rewrite Es; done].
  destruct (capacity_notifier s); [rewrite Es; eauto|]. intros [= <-]. eauto.
Qed.

Lemma set_options_mild opts w :
  SendOptions.valid opts -> healthy (outgoing w) -> mild w (step (SetOptions opts) w).
Proof.
  intros Ho Hh. cbn [step]. destruct send_policy eqn:E; [|by apply mild_same; try done; apply same_signals_louder].
  unfold set_send_options. destruct (shut w) eqn:Es; [by apply mild_same; try done; apply same_signals_louder|].
  pose proof (set_send_options_healthy opts _ E Ho Hh) as Hq.
  assert (forall err q, SendQ.set_send_options opts (outgoing w) = (Err err, q) -> q = outgoing w) as Herr.
  { intros err q. unfold SendQ.set_send_options. case_if; [by intros [= <- <-]|]. by destruct (scheduler _). }
  destruct (SendQ.set_send_options opts (outgoing w)) as [[?|?] q].
  - apply mild_section; [done|done|by apply register_healthy| |intros _ _; left; right; simpl; lia].
    split; try done; unfold flagged, told; simpl; try (by right; right; lia); try (by right; lia); try (by left); by right.
  - rewrite (Herr _ _ eq_refl). apply mild_same; try done. by apply same_signals_louder.
Qed.

Lemma set_recovery_mild opts now w : healthy (outgoing w) -> mild w (step (SetRecovery opts now) w).
Proof.
  intros Hh. cbn [step]. destruct recovery_policy; [|by apply mild_same; try done; apply same_signals_louder].
  unfold set_recovery_options. destruct (shut w) eqn:Es; [by apply mild_same; try done; apply same_signals_louder|].
  apply mild_section; [done|done| | |intros _ _; by left; left].
  - by apply (handled_healthy (SetRecoveryOptions opts now) (outgoing w)).
  - split; try done; unfold flagged, told; simpl; try (by right; left); try (by left). by right.
Qed.

Lemma set_idle_mild on w : healthy (outgoing w) -> mild w (step (SetIdle on) w).
Proof.
  intros Hh. apply mild_same; try done. split; unfold flagged, told; simpl; destruct on; simpl; try (by left); try (by right); auto.
Qed.

Lemma close_section_mild w : healthy (outgoing w) -> mild w (step CloseSection w).
Proof.
  intros Hh. cbn [step]. unfold close_section. destruct (shut w) eqn:Es; [by apply mild_same; try done; apply same_signals_louder|].
  set (buf := [PacketID.to_u8 PacketID.Disconnect]).
  pose proof (insert_healthy Reliability.Reliable buf 0 false ltac:(unfold in_range; lia) _ Hh) as Hq.
  pose proof (inv_bytes _ _ (wire_accounted _ (hl_wire _ Hh))) as [Hb _].
  change (SendQ.insert Reliability.Reliable buf) with (insert_payload Reliability.Reliable buf 0 false).
  destruct (insert_payload_cases Reliability.Reliable buf 0 false _ Hb) as [(_ & E)|(_ & q & E & _)]; rewrite E in *.
  - apply mild_same; try done. by apply same_signals_louder.
  - apply mild_section; [done|done|done|apply same_signals_louder; simpl; try done; lia|].
    intros _ _. do 4 right. simpl. lia.
Qed.

Lemma drop_mild w : healthy (outgoing w) -> mild w (step DropSocket w).
Proof. intros Hh. apply mild_same; try done. split; try done; [by left|by left|by left]. Qed.

Lemma later_mild e w : e = Swap \/ e = Notify \/ e = Shut -> healthy (outgoing w) -> mild w (step e w).
Proof.
  intros He Hh. destruct He as [->|[->| ->]]; cbn [step].
  - destruct (owed w) as [|n] eqn:Eo; [by apply mild_same; try done; apply same_signals_louder|].
    set (w1 := w <| owed := n |>). split; [unfold swap_idle; by case_if|unfold swap_idle; by case_if|..].
    + intros Hf. apply told_flagged. by apply swap_idle_told.
    + intros Hf Hr Hn. apply (swap_idle_told w1). exact Hf.
    + intros Hf _ _. left. apply (swap_idle_told w1). exact Hf.
  - destruct (notifying w) as [|n]; [by apply mild_same; try done; apply same_signals_louder|].
    apply mild_same; try done. split; unfold flagged, told; simpl; try (by right; left); try (by left); [done|by right].
  - destruct (closers w) as [|n]; [by apply mild_same; try done; apply same_signals_louder|].
    apply mild_same; try done. split; try done; by left.
Qed.

(** *** The receiving task *)

(** A section with a flush, whatever it did before: it made nothing of nothing. *)
Lemma feedback_mild q now w :
  replied w = false -> healthy q -> (holdings (outgoing w) = [] -> holdings q = []) ->
  mild w (after_flush (SendQ.flush now q).2 w).
Proof.
  intros Hr Hq He. apply mild_section; [done|done|by apply flush_healthy|apply after_flush_louder|].
  intros Hn Hs. apply (louder_promised w); [apply after_flush_louder|intros [? _]; congruence|].
  apply Hs. intros H. apply Hn. simpl. apply flush_empty; [apply Hq|auto].
Qed.

Lemma take_acks_maintenance (rq : RecvQ) : needs_maintenance (take_acks rq).2 = needs_maintenance rq.
Proof. unfold take_acks. unfold take_ack_into, needs_maintenance. done. Qed.

Lemma incoming_mild (rq : RecvQ) w :
  healthy (outgoing w) -> needs_maintenance rq = needs_maintenance (incoming w) -> mild w (w <| incoming := rq |>).
Proof.
  intros Hh E. split; try done. intros _ Hr. unfold receive_told. simpl. by rewrite E.
Qed.

Lemma frame_set_mild arrivals drained w :
  replied w = false -> healthy (outgoing w) -> mild w (step (FrameSet arrivals drained) w).
Proof.
  intros Hr Hh. cbn [step receiver_step]. rewrite Hr. unfold frame_set_section. destruct (receive arrivals [] (incoming w)) as [[invalid ready] q0].
  set (q := if drained then _ else q0). clearbody q. cbv zeta.
  set (w1 := w <| incoming := q |>). set (w2 := if needs_maintenance q then swap_idle w1 else w1).
  assert (louder w w2) as Hl.
  { unfold w2. case_if; [|by apply same_signals_louder]. destruct (swap_idle_louder w1) as [? ? ? ? ?]. by split. }
  assert (ticker w2 = ticker w /\ outgoing w2 = outgoing w /\ replied w2 = replied w /\ incoming w2 = q) as (E1 & E2 & E3 & E4)
    by (unfold w2, swap_idle; by repeat case_if).
  assert (flagged w -> needs_maintenance q = true -> told w2) as Ht.
  { intros Hf Hn. unfold w2. rewrite Hn. by apply (swap_idle_told w1). }
  clearbody w2. clear w1.
  assert (mild w w2) as [M1 M2 M3 M4 M5].
  { split; [done|by rewrite E2|by apply louder_flagged| |].
    - intros Hf _. unfold receive_told. rewrite E4. by apply Ht.
    - intros _ Hs. unfold send_told. rewrite E2. intros Hn. apply (louder_promised w); [done| |by apply Hs].
      intros [? _]. congruence. }
  destruct invalid; [|by split]. split; try done. intros Hf Hs Hn.
  apply (louder_promised w2); [apply same_signals_louder; simpl; try done; lia| |by apply M5].
  intros H. right. right. left. exact H.
Qed.

Lemma insert_flight r buf channel owned q :
  sendq_inv q -> sent_packet q = [] -> sent_packet (insert_payload r buf channel owned q).2 = [].
Proof.
  intros Hq Hs. pose proof (inv_bytes _ _ Hq) as [Hb _].
  destruct (insert_payload_cases r buf channel owned q Hb) as [(_ & ->)|(_ & q' & -> & Hk)]; [done|].
  pose proof (keeps_in_flight _ _ Hk) as E.
  assert (sent_packet (if bool_decide (r = Reliability.ReliableOrdered) && (mtu q - 60 <? zlen buf)
    then admit_fragments buf owned channel q else admit_whole (whole_frame r buf channel owned q) q) = []) as E'.
  { case_if; [done|]. unfold admit_whole, push_unreliable. case_if; [done|]. case_if; [|done]. by destruct (scheduler q). }
  cbn [snd]. simpl in E. rewrite E' in E. simpl in E. destruct (sent_packet q'); [done|simpl in E; lia].
Qed.

(** A reply that is refused leaves the queue alone, unless it is the second of two. *)
Definition whole_reply (packets : list (Reliability * list Z)) q : Prop :=
  (insert_replies packets q).1 = Ok tt \/ (length packets <= 1)%nat.

Lemma insert_replies_sections packets q :
  healthy q -> healthy (insert_replies packets q).2 /\
  (sent_packet q = [] -> sent_packet (insert_replies packets q).2 = []).
Proof.
  revert q. induction packets as [|[r buf] packets IH]; intros q Hq; cbn [insert_replies]; [done|].
  pose proof (insert_healthy r buf 0 false ltac:(unfold in_range; lia) q Hq) as H1.
  pose proof (insert_flight r buf 0 false q (wire_accounted _ (hl_wire _ Hq))) as H2.
  change (SendQ.insert r buf) with (insert_payload r buf 0 false). unfold mbind, SE_bind.
  destruct (insert_payload r buf 0 false q) as [[[]|err] q1]; simpl in *; [|done].
  destruct (IH q1 H1) as [H3 H4]. split; [done|auto].
Qed.

Lemma refused_reply packets q :
  sendq_inv q -> whole_reply packets q -> (insert_replies packets q).1 <> Ok tt -> (insert_replies packets q).2 = q.
Proof.
  intros Hq [H|H] Hn; [done|]. destruct packets as [|[r buf] [|]]; [done| |simpl in H; lia]. cbn [insert_replies] in *.
  pose proof (inv_bytes _ _ Hq) as [Hb _].
  change (SendQ.insert r buf) with (insert_payload r buf 0 false) in *. unfold mbind, SE_bind in *.
  by destruct (insert_payload_cases r buf 0 false q Hb) as [(_ & ->)|(_ & q1 & E & _)]; [|rewrite E in *].
Qed.

Lemma reply_mild packets w :
  replied w = false -> whole_reply packets (outgoing w) -> healthy (outgoing w) -> mild w (step (Reply packets) w).
Proof.
  intros Hr Hc Hh. cbn [step receiver_step]. rewrite Hr. unfold reply_section.
  destruct (insert_replies_sections packets (outgoing w) Hh) as [H1 H2].
  pose proof (refused_reply packets (outgoing w) (wire_accounted _ (hl_wire _ Hh)) Hc) as H3.
  destruct (insert_replies packets (outgoing w)) as [[[]|err] q]; simpl in *.
  - apply mild_section; [done|done|done|by apply same_signals_louder|]. simpl. intros Hn Hs.
    destruct (holdings (outgoing w)) as [|f l] eqn:Eh.
    + right. right. left. split; [done|]. simpl. apply H2. unfold holdings in Eh.
      apply app_eq_nil in Eh as [_ [Ef _]%app_eq_nil]. by apply map_eq_nil in Ef.
    + apply (louder_promised w); [by apply same_signals_louder|intros [? _]; congruence|]. apply Hs. by rewrite Eh.
  - rewrite H3 by done. apply mild_same; try done. by apply same_signals_louder.
Qed.

Lemma flush_replies_mild now w : replied w = true -> healthy (outgoing w) -> mild w (step (FlushReplies now) w).
Proof.
  intros Hr Hh. cbn [step receiver_step]. rewrite Hr. unfold flush_replies. pose proof (flush_healthy now _ Hh) as Hq.
  pose proof (idle_empty now (outgoing w) (hl_wire _ Hh) (hl_options _ Hh)) as Hi. rewrite (hl_mtu _ Hh) in Hi. specialize (Hi Hm).
  pose proof (flush_empty now (outgoing w) (wire_accounted _ (hl_wire _ Hh))) as He.
  destruct (SendQ.flush now (outgoing w)) as [out q]. cbn [fst snd] in *.
  pose proof (after_flush_louder q w) as [L1 L2 L3 L4 L5]. destruct (frames out) as [|f l].
  - apply mild_section; [done|done|done|by split|]. intros Hn Hs.
    apply (louder_promised w); [by split| |apply Hs; intros H; apply Hn; simpl; auto].
    intros [_ H]. exfalso. apply Hn. simpl. auto.
  - apply mild_section; [done|done|done| |intros _ _; right; left; simpl; lia]. split; try done. left. simpl. lia.
Qed.

(** *** The ticker *)

Lemma phase_inv w' :
  healthy (outgoing w') -> alert (ticker w') = false -> saw_receive (ticker w') = false -> saw_send (ticker w') = false ->
  tick_inv w'.
Proof. intros Hh Ha Hr Hs. split; [done|by rewrite Ha|by rewrite Hr|by rewrite Hs]. Qed.

Lemma tick_step_inv e w : tick_inv w -> tick_inv (tick_step e w).
Proof.
  intros Hi. pose proof Hi as [Hh Hf Hr Hs]. unfold tick_step.
  destruct e as [[| |]|silent|now|now| |expired| | | | | | | | | | | | | | | |]; try done;
    destruct (ticker w) as [idle0| |quiet|quiet ri|quiet ri si|idle0|] eqn:Et; try done.
  - case_if; [by apply phase_inv|done].
  - case_if; [by apply phase_inv|done].
  - cbv zeta. case_if; [split; try done; by left|by apply phase_inv].
  - case_if; [by apply phase_inv|]. split; try done. unfold receive_told.
    intros [_ Hn%negb_true_iff]%andb_true_iff. intros Hn'. change (needs_maintenance (take_nacks (incoming w)).2 = true) in Hn'. congruence.
  - split; simpl in *; [by apply flush_healthy|..].
    + unfold flagged in *. simpl. rewrite publish_idle, publish_quiet. exact Hf.
    + unfold receive_told, told in *. simpl. rewrite publish_quiet. exact Hr.
    + intros [_ He]%andb_true_iff Hn. simpl in Hn. apply is_empty_holdings in He; [done|].
      apply (flush_healthy now _ Hh).
  - cbv zeta. destruct quiet; [|by apply phase_inv]. destruct ri; [|by apply phase_inv].
    destruct si; [|by apply phase_inv]. by split.
  - case_if; [by apply phase_inv|]. case_if; [by apply phase_inv|]. by split.
Qed.

(** What the theorem asks of a history: channels are bytes, options come from the builders,
    and no reply of the handshake is refused half way. *)
Definition calm e w : Prop :=
  match e with
  | SendSection _ _ order_channel _ _ | BatchSection _ _ order_channel _ => in_range 8 order_channel
  | SetOptions opts => SendOptions.valid opts
  | Reply packets => whole_reply packets (outgoing w)
  | _ => True
  end.

Fixpoint calm_run (events : list event) w : Prop :=
  match events with
  | [] => True
  | e :: events => calm e w /\ calm_run events (step e w)
  end.

Lemma receiver_step_inv e w : calm e w -> tick_inv w -> tick_inv (receiver_step e w).
Proof.
  intros Hc Hi. pose proof (tk_healthy _ Hi) as Hh. unfold receiver_step.
  destruct e; try done; destruct (replied w) eqn:Er; try done; simpl in Hc.
  - apply (mild_inv w); [|done]. apply feedback_mild; [done|by apply (handled_healthy (AckRanges ranges now) _ Hh)|].
    apply ack_ranges_empty, Hh.
  - apply (mild_inv w); [|done]. apply feedback_mild; [done|by apply (handled_healthy (NackRanges ranges now) _ Hh)|].
    apply keeps_empty, nack_ranges_keeps.
  - apply (mild_inv w); [|done]. apply incoming_mild; [done|apply take_acks_maintenance].
  - pose proof (frame_set_mild arrivals drained w Er Hh) as H. cbn [step receiver_step] in H. rewrite Er in H.
    by apply (mild_inv w).
  - pose proof (reply_mild _ w Er Hc Hh) as H. cbn [step receiver_step] in H. rewrite Er in H. by apply (mild_inv w).
  - pose proof (flush_replies_mild now w Er Hh) as H. cbn [step receiver_step] in H. rewrite Er in H. by apply (mild_inv w).
Qed.

Lemma step_tick_inv e w : calm e w -> tick_inv w -> tick_inv (step e w).
Proof.
  intros Hc Hi. pose proof (tk_healthy _ Hi) as Hh.
  destruct e; try (by apply tick_step_inv); try (by apply receiver_step_inv); apply (mild_inv w); try done; simpl in Hc.
  - by apply send_section_mild.
  - by apply batch_section_mild.
  - by apply set_idle_mild.
  - by apply set_options_mild.
  - by apply set_recovery_mild.
  - by apply close_section_mild.
  - by apply drop_mild.
  - apply later_mild; [by left|done].
  - apply later_mild; [by right; left|done].
  - apply later_mild; [by right; right|done].
Qed.

Lemma start_inv : tick_inv (start m).
Proof. split; try done. split; [apply new_wire|done|done]. Qed.

Lemma run_tick_inv events : calm_run events (start m) -> tick_inv (run m events).
Proof.
  unfold run. pose proof start_inv as Hi. revert Hi. generalize (start m) as w.
  induction events as [|e events IH]; intros w Hi Hc; [done|]. destruct Hc as [He Hc]. simpl.
  apply IH; [by apply step_tick_inv|done].
Qed.

(** C10: a sleeping ticker is woken. Let idle maintenance put the ticker to sleep for up to a
    minute, and let its steps interleave in any way with those of senders, of the receiving
    task, of the setters and of [close]. If it sleeps while a frame waits in the send queue
    or is unacknowledged, or while the receive queue has a loss to report or a fragment that
    may expire, then it holds a permit or some task in the middle of a call is on its way to
    wake it; and once every such task has finished, the wait of the ticker ends at once. *)
Theorem idle_ticker_is_woken events :
  calm_run events (start m) ->
  let w := run m events in
  ticker w = Sleeping true ->
  is_empty (outgoing w) = false \/ needs_maintenance (incoming w) = true ->
  (wakeup (signals w) = true \/ shut w = true \/
   (0 < notifying w)%nat \/ (0 < owed w)%nat \/ replied w = true \/ (0 < closers w)%nat) /\
  (notifying w = 0%nat -> owed w = 0%nat -> replied w = false -> closers w = 0%nat ->
   exists cause, cause <> Elapsed /\ ticker (run m (events ++ [Wake cause])) = Awake).
Proof.
  intros Hc w Ht Hwork. destruct (run_tick_inv events Hc) as [Hh _ Hr Hs]. fold w in Hh, Hr, Hs. rewrite Ht in *.
  specialize (Hr eq_refl). specialize (Hs eq_refl).
  assert (promised w) as Hp.
  { destruct Hwork as [He|Hn]; [|left; by apply Hr]. apply Hs. intros H.
    rewrite (proj2 (is_empty_iff _ (wire_accounted _ (hl_wire _ Hh))) H) in He. done. }
  split; [unfold promised, told in Hp; tauto|]. intros Hn Ho Hrp Hcl.
  assert (wakeup (signals w) = true \/ shut w = true) as [Hw|Hw].
  { destruct Hp as [[?|?]|[?|[[? _]|[?|?]]]]; try lia; try congruence; tauto. }
  - exists Notified. split; [done|]. unfold run. rewrite foldl_app. fold (run m events). fold w. simpl.
    unfold tick_step. by rewrite Ht, Hw, orb_true_r.
  - exists Closing. split; [done|]. unfold run. rewrite foldl_app. fold (run m events). fold w. simpl.
    unfold tick_step. by rewrite Ht, Hw.
Qed.
End Waking.

(** ** The theorem at work *)

(** After a quiet second the ticker falls asleep; a message is sent, and its sender has left
    the lock and not yet reached the flag. *)
Definition sample_history : list event :=
  [SetIdle true; Wake Elapsed; Arm true; Look 1000; TickFlush 1000; Decide; Rest false;
   SendSection Reliability.Reliable [254; 1] 0 false 1010].

Lemma idle_ticker_is_woken_witness :
  let w := @run all_features merge_sort_flight 1400 (sample_history ++ [Swap; Notify]) in
  ticker w = Sleeping true /\ @is_empty all_features (outgoing w) = false /\
  exists cause, cause <> Elapsed /\
    ticker (@run all_features merge_sort_flight 1400 ((sample_history ++ [Swap; Notify]) ++ [Wake cause])) = Awake.
Proof.
  destruct (@idle_ticker_is_woken all_features merge_sort_flight 1400) with (events := sample_history ++ [Swap; Notify]) as [_ H].
  - unfold negotiated_mtu. lia.
  - vm_compute. repeat split; discriminate.
  - vm_compute. reflexivity.
  - left. vm_compute. reflexivity.
  - split; [vm_compute; reflexivity|]. split; [vm_compute; reflexivity|]. apply H; vm_compute; reflexivity.
Defined.

(** Before the flag is reached the ticker sleeps on, with the message in flight. *)
Example sender_on_its_way :
  let w := @run all_features merge_sort_flight 1400 sample_history in
  (ticker w, @is_empty all_features (outgoing w), owed w, wakeup (signals w)) = (Sleeping true, false, 1%nat, false).
Proof. vm_compute. reflexivity. Qed.
