(* ===== verification/Deadline.v ===== *)
(** * The timer of the ticker

    With [recovery-policy] the ticking task of [src/src/socket.rs] sleeps no longer than until
    the next retransmission is due. The deadline is published by whoever flushed the send
    queue, in an atomic of [Maintenance]; the ticker announces in another one when it will
    wake, so that a publisher wakes it only if need be. The two are read and written by
    atomic operations outside any common lock, each a step of its own here, in any order.

    Stores can be kept in the buffer of the processor that makes them, as [Release] stores
    followed by [Acquire] loads of another location allow: [buffering] says whether they are. *)

From S2P Require Import Prelude Errors Sequence Frame FrameCodec Fragment RecvQ SendOptions SendQ Runtime Udp Socket.

(** ** Steps *)

(** Where the ticker is between two waits, with the clock it read and the delay so far:
    outside; after its first reading of the deadline; after announcing when it will wake;
    after its second reading; asleep. *)
Inductive Phase : Type :=
  | Away
  | Computed (now delay : Z)
  | Announced (now delay : Z)
  | Rechecked (now delay : Z)
  | Asleep (now delay : Z).

(** [publishing]: the deadline its holder of the queue's lock has stored, before it compares.
    [ticker_buffer] and [publisher_buffer]: stores not yet in memory, oldest first. *)
Record Timer := mk_timer {
  deadline : Z;
  wake_at : Z;
  permit : bool;
  phase : Phase;
  publishing : option Z;
  ticker_buffer : list Z;
  publisher_buffer : list Z;
}.

#[export] Instance set_deadline : Setter deadline := fun g r =>
  mk_timer (g (deadline r)) (wake_at r) (permit r) (phase r) (publishing r) (ticker_buffer r) (publisher_buffer r).
#[export] Instance set_wake_at : Setter wake_at := fun g r =>
  mk_timer (deadline r) (g (wake_at r)) (permit r) (phase r) (publishing r) (ticker_buffer r) (publisher_buffer r).
#[export] Instance set_permit : Setter permit := fun g r =>
  mk_timer (deadline r) (wake_at r) (g (permit r)) (phase r) (publishing r) (ticker_buffer r) (publisher_buffer r).
#[export] Instance set_phase : Setter phase := fun g r =>
  mk_timer (deadline r) (wake_at r) (permit r) (g (phase r)) (publishing r) (ticker_buffer r) (publisher_buffer r).
#[export] Instance set_publishing : Setter publishing := fun g r =>
  mk_timer (deadline r) (wake_at r) (permit r) (phase r) (g (publishing r)) (ticker_buffer r) (publisher_buffer r).
#[export] Instance set_ticker_buffer : Setter ticker_buffer := fun g r =>
  mk_timer (deadline r) (wake_at r) (permit r) (phase r) (publishing r) (g (ticker_buffer r)) (publisher_buffer r).
#[export] Instance set_publisher_buffer : Setter publisher_buffer := fun g r =>
  mk_timer (deadline r) (wake_at r) (permit r) (phase r) (publishing r) (ticker_buffer r) (g (publisher_buffer r)).

Inductive event : Type :=
  (* the ticker *)
  | Compute (now delay : Z)
  | Announce
  | Recheck
  | Reannounce
  | Wake (notified : bool)
  | TickPublish (deadline' : Z)
  (* a task that holds the lock on the send queue *)
  | Publish (deadline' : Z)
  | Compare
  (* the processors *)
  | DrainTicker
  | DrainPublisher.

Section Steps.
Context (buffering : bool).
Implicit Types (self : Timer) (e : event).

(** [deadline.saturating_sub(now).max(1)], and the shorter of the two delays. *)
Definition shorten (now deadline' delay : Z) : Z := Z.min delay (Z.max 1 (sat_i64 (deadline' - now))).

Definition store_wake_at (v : Z) self : Timer :=
  if buffering then self <| ticker_buffer := ticker_buffer self ++ [v] |> else self <| wake_at := v |>.

Definition store_deadline (v : Z) self : Timer :=
  if buffering then self <| publisher_buffer := publisher_buffer self ++ [v] |> else self <| deadline := v |>.

(** The last of the stores of a buffer reaches memory last. *)
Definition drain_ticker self : Timer :=
  self <| wake_at := default (wake_at self) (list.last (ticker_buffer self)) |> <| ticker_buffer := [] |>.

Definition drain_publisher self : Timer :=
  self <| deadline := default (deadline self) (list.last (publisher_buffer self)) |> <| publisher_buffer := [] |>.

(** The loop of [start_tick] up to [select!], and [Maintenance::publish]. Locks empty the
    buffers of who takes or releases them: the ticker takes the queue's lock in every turn,
    publishers hold it from before the store until after the comparison. *)
Definition step e self : Timer :=
  match e, phase self, publishing self with
  | Compute now delay, Away, _ => self <| phase := Computed now (shorten now (deadline self) delay) |>
  | Announce, Computed now delay, _ =>
      store_wake_at (sat_i64 (now + delay)) self <| phase := Announced now delay |>
  | Recheck, Announced now delay, _ => self <| phase := Rechecked now (shorten now (deadline self) delay) |>
  | Reannounce, Rechecked now delay, _ =>
      store_wake_at (sat_i64 (now + delay)) self <| phase := Asleep now delay |>
  | Wake true, Asleep _ _, _ => if permit self then self <| permit := false |> <| phase := Away |> else self
  | Wake false, Asleep _ _, _ => self <| phase := Away |>
  | TickPublish deadline', Away, None => drain_ticker self <| deadline := deadline' |>
  | Publish deadline', _, None => store_deadline deadline' self <| publishing := Some deadline' |>
  | Compare, _, Some deadline' =>
      let self := if deadline' <? wake_at self then self <| permit := true |> else self in
      drain_publisher self <| publishing := None |>
  | DrainTicker, _, _ => drain_ticker self
  | DrainPublisher, _, _ => drain_publisher self
  | _, _, _ => self
  end.

Definition start : Timer := mk_timer I64_MAX I64_MAX false Away None [] [].

Definition run (events : list event) : Timer := foldl (fun self e => step e self) start events.
End Steps.

(** ** With stores visible at once *)

Section Covered.
Implicit Types (self : Timer) (e : event).

(** Clocks and deadlines as the program has them: milliseconds since its start, and times at
    most the largest [i64]; delays are at most the receive timeout. *)
Definition event_ok e : Prop :=
  match e with
  | Compute now delay => 0 <= now <= 2 ^ 62 /\ 1 <= delay <= RECEIVE_TIMEOUT
  | TickPublish d | Publish d => - 2 ^ 63 <= d <= I64_MAX
  | _ => True
  end.

Definition armed_ok (now delay : Z) : Prop := 0 <= now <= 2 ^ 62 /\ 1 <= delay <= RECEIVE_TIMEOUT.

(** The wait ends when the deadline is due, or a millisecond on when it already is; or the
    ticker has been notified; or the publisher of this deadline has yet to compare. *)
Definition covered (now delay : Z) self : Prop :=
  now + delay <= Z.max (deadline self) (now + 1) \/ permit self = true \/ publishing self = Some (deadline self).

Record timer_inv self : Prop := {
  ti_publishing : forall d, publishing self = Some d -> deadline self = d;
  ti_buffers : ticker_buffer self = [] /\ publisher_buffer self = [];
  ti_deadline : - 2 ^ 63 <= deadline self <= I64_MAX;
  ti_phase : match phase self with
    | Away => True
    | Computed now delay => armed_ok now delay
    | Announced now delay => armed_ok now delay /\ wake_at self = now + delay
    | Rechecked now delay => armed_ok now delay /\ now + delay <= wake_at self /\ covered now delay self
    | Asleep now delay => armed_ok now delay /\ wake_at self = now + delay /\ covered now delay self
    end;
}.

Lemma announced_value now delay : armed_ok now delay -> sat_i64 (now + delay) = now + delay.
Proof. unfold armed_ok, RECEIVE_TIMEOUT, sat_i64, I64_MAX, I64_MIN. lia. Qed.

Lemma shorten_ok now d delay :
  armed_ok now delay -> - 2 ^ 63 <= d <= I64_MAX ->
  armed_ok now (shorten now d delay) /\ shorten now d delay <= delay /\ now + shorten now d delay <= Z.max d (now + 1).
Proof. unfold armed_ok, shorten, sat_i64, I64_MAX, I64_MIN. intros. lia. Qed.

(** A comparison settles what a publisher had left open. *)
Lemma compare_covered now delay d self :
  publishing self = Some d -> deadline self = d -> now + delay <= wake_at self -> covered now delay self ->
  covered now delay ((if d <? wake_at self then self <| permit := true |> else self) <| publishing := None |>).
Proof.
  intros Hp Hd Hw [Hc|[Hc|Hc]]; unfold covered; destruct (d <? wake_at self) eqn:E; simpl; try (by left); try (by right; left).
  left. b2p. lia.
Qed.

Lemma drained self : timer_inv self -> drain_ticker self = self /\ drain_publisher self = self.
Proof.
  intros [_ [Hb1 Hb2] _ _]. unfold drain_ticker, drain_publisher. rewrite Hb1, Hb2. destruct self. simpl in *. by subst.
Qed.

Lemma compare_inv d self :
  timer_inv self -> publishing self = Some d ->
  timer_inv ((if d <? wake_at self then self <| permit := true |> else self) <| publishing := None |>).
Proof.
  intros [Hp Hb Hd Hph] Ep. pose proof (Hp _ Ep) as Ed.
  set (s1 := if d <? wake_at self then self <| permit := true |> else self).
  assert (phase s1 = phase self /\ wake_at s1 = wake_at self /\ deadline s1 = deadline self /\
    ticker_buffer s1 = ticker_buffer self /\ publisher_buffer s1 = publisher_buffer self) as (E1 & E2 & E3 & E4 & E5)
    by (unfold s1; by case_if).
  split; simpl; [done|by rewrite E4, E5|by rewrite E3|]. rewrite E1, E2. destruct (phase self) as [|n dl|n dl|n dl|n dl]; try done.
  - destruct Hph as (Ha & Hw & Hc). split; [done|]. split; [done|]. by apply compare_covered.
  - destruct Hph as (Ha & Hw & Hc). split; [done|]. split; [done|]. apply compare_covered; [done|done|lia|done].
Qed.

Lemma publish_inv d self :
  - 2 ^ 63 <= d <= I64_MAX -> timer_inv self -> timer_inv (self <| deadline := d |> <| publishing := Some d |>).
Proof.
  intros Hr [Hp Hb Hd Hph]. split; simpl; [by intros ? [= <-]|done|done|].
  destruct (phase self); try done; destruct Hph as (Ha & Hw & Hc); (split; [done|]; split; [done|]; by right; right).
Qed.

Lemma step_timer e self : event_ok e -> timer_inv self -> timer_inv (step false e self).
Proof.
  intros He Hi. destruct (drained self Hi) as [Edt Edp]. pose proof Hi as [Hp Hb Hd Hph]. unfold step.
  destruct e as [now delay| | | |b|d|d| | |]; rewrite ?Edt; try exact Hi.
  - destruct (phase self); try exact Hi. split; try done. simpl. by apply shorten_ok.
  - destruct (phase self) as [|n dl|n dl|n dl|n dl]; try exact Hi. split; try done. simpl. by rewrite announced_value.
  - destruct (phase self) as [|n dl|n dl|n dl|n dl]; try exact Hi. destruct Hph as [Ha Hw].
    destruct (shorten_ok n (deadline self) dl Ha Hd) as (Ha' & Hle & Hc). split; try done. simpl.
    split; [done|]. split; [lia|by left].
  - destruct (phase self) as [|n dl|n dl|n dl|n dl]; try exact Hi. destruct Hph as (Ha & Hw & Hc). split; try done. simpl.
    split; [done|]. by rewrite announced_value.
  - destruct b, (phase self) as [|n dl|n dl|n dl|n dl]; try exact Hi; [case_if; [|exact Hi]|]; by split.
  - destruct (phase self) as [|n dl|n dl|n dl|n dl] eqn:Eph; try exact Hi. destruct (publishing self) eqn:Ep; [exact Hi|].
    split; try done; simpl; [by rewrite Ep|by rewrite Eph].
  - destruct (publishing self) eqn:Ep; [destruct (phase self); exact Hi|].
    pose proof (publish_inv d self He Hi) as H. destruct (phase self); exact H.
  - destruct (publishing self) as [d|] eqn:Ep; [|destruct (phase self); exact Hi].
    pose proof (compare_inv d self Hi Ep) as H.
    assert (drain_publisher (if d <? wake_at self then self <| permit := true |> else self) =
      if d <? wake_at self then self <| permit := true |> else self) as Ed.
    { case_if; [|done]. unfold drain_publisher. destruct Hb as [_ Hb]. simpl. rewrite Hb. destruct self. simpl in *. by subst. }
    destruct (phase self); cbv zeta; rewrite Ed; exact H.
  - destruct (phase self); rewrite Edp; exact Hi.
Qed.

Lemma run_timer events : Forall event_ok events -> timer_inv (run false events).
Proof.
  unfold run. assert (timer_inv start) as Hi by (split; try done; unfold I64_MAX; simpl; lia). revert Hi. generalize start.
  induction events as [|e events IH]; intros self Hi Hev; [done|]. apply list.Forall_cons in Hev as [He Hev]. simpl.
  apply IH; [by apply step_timer|done].
Qed.

(** C11: the timer of the ticker covers the published deadline. With stores visible at once,
    however the ticker's arming interleaves with publishers: while the ticker waits, it will
    wake when it announced, no later than the deadline, or a millisecond after it armed if
    that was due already; or else it has been notified, or the publisher of that deadline has
    still to compare it, and its comparison then notifies. *)
Theorem armed_timer_covers_deadline events now delay :
  Forall event_ok events ->
  let self := run false events in
  phase self = Asleep now delay ->
  wake_at self = now + delay /\ 1 <= delay <= RECEIVE_TIMEOUT /\
  (publishing self = None -> permit self = false -> now + delay <= Z.max (deadline self) (now + 1)) /\
  (forall d, publishing self = Some d -> d < now + delay -> permit (run false (events ++ [Compare])) = true).
Proof.
  intros Hev self Hph. destruct (run_timer events Hev) as [Hp [_ Hb] _ Hi]. fold self in Hp, Hb, Hi. rewrite Hph in Hi.
  destruct Hi as ((Hn & Hdl) & Hw & Hc). split; [done|]. split; [done|]. split.
  - intros Hnp Hnt. destruct Hc as [?|[?|?]]; [done|congruence..].
  - intros d Ed Hlt. unfold run. rewrite foldl_app. fold (run false events). fold self. cbn [foldl]. unfold step. rewrite ?Hph, Ed.
    unfold drain_publisher. simpl. rewrite (proj2 (Z.ltb_lt _ _)) by lia. done.
Qed.
End Covered.

(** ** The theorem at work *)

(** A deadline is published while the ticker arms: it finds it at its second reading. *)
Definition sample_history : list event :=
  [Compute 1000 50; Announce; Publish 1010; Recheck; Reannounce].

Lemma armed_timer_covers_deadline_witness :
  let self := run false sample_history in
  phase self = Asleep 1000 10 /\ wake_at self = 1010 /\ deadline self = 1010.
Proof.
  destruct (armed_timer_covers_deadline sample_history 1000 10) as (Hw & _).
  - repeat (apply Forall_cons_2; [cbn; unfold RECEIVE_TIMEOUT, I64_MAX; try lia; exact I|]). apply Forall_nil_2.
  - vm_compute. reflexivity.
  - split; [vm_compute; reflexivity|]. split; [exact Hw|vm_compute; reflexivity].
Defined.

(** With store buffers both sides can miss each other. The ticker woke at 50 and arms again at
    1000; its announcement is still in its buffer when it reads the deadline again, and the
    new deadline is still in the publisher's buffer, who finds the previous announcement
    earlier than its deadline. The ticker sleeps until 1050 with a deadline of 1010 and no
    permit. The loads and stores of the code, [Release] and [Acquire], allow it. *)
Definition buffered_history : list event :=
  [Compute 0 50; Announce; Recheck; Reannounce; DrainTicker; Wake false;
   Compute 1000 50; Announce; Publish 1010; Recheck; Reannounce; Compare; DrainTicker].

Example buffered_stores_miss_the_deadline :
  run true buffered_history = mk_timer 1010 1050 false (Asleep 1000 50) None [] [].
Proof. vm_compute. reflexivity. Qed.

(** The same steps with stores visible at once: the ticker sleeps until 1010. *)
Example visible_stores_meet_the_deadline :
  phase (run false buffered_history) = Asleep 1000 10.
Proof. vm_compute. reflexivity. Qed.
