(* ===== verification/SocketRun.v ===== *)
(** * Histories of a connection

    The turns of the two tasks of [Socket] and the calls of the application, in any order,
    on one connection: what the application receives, and when the peer is answered. *)

From S2P Require Import Prelude Errors Sequence Datatype Packet PacketCodec Frame FrameCodec Fragment AckSet RecvQ SendOptions SendQ Sending Runtime Udp Socket.

(** What happens on a connection whose [RaknetSocket] the application holds. *)
Inductive event : Type :=
  | Receiver (t : Turn) (input : Input)
  | Ticker (t : Turn)
  | Recv
  | Send (buf : list Z) (r : Reliability) (order_channel : Z) (owned udp : bool) (batched : Batching) (now : Z)
  | SendTogether (borrowed owned : list (list Z)) (r : Reliability) (order_channel : Z) (udp : bool) (batched : Batching) (now : Z)
  | Close
  | SetIdleMaintenance (enabled : bool)
  | SetRecoveryOptions (options : RecoveryOptions) (now : Z)
  | SetSendOptions (options : SendOptions).

Section Histories.
Context {feat : Features} {usort : UnstableSort} `{Mpsc chan}.
Context (peer_addr local_addr : SocketAddr).
Implicit Types (self : Connection chan) (t : Turn) (e : event).

Abbreviation receiver_turn := (receiver_turn peer_addr local_addr).

(** The messages the application takes, and the connection after the event. *)
Definition step e self : list (list Z) * Connection chan :=
  match e with
  | Receiver t input => ([], receiver_turn t input self)
  | Ticker t => ([], tick_turn t self)
  | Recv => match recv self with
            | (Some (Ok message), self) => ([message], self)
            | (_, self) => ([], self)
            end
  | Send buf r order_channel owned udp batched now =>
      ([], (send_payload buf r order_channel owned udp batched now self).2)
  | SendTogether borrowed owned r order_channel udp batched now =>
      ([], (send_together borrowed owned r order_channel udp batched now self).2)
  | Close => ([], (close self).2)
  | SetIdleMaintenance enabled => ([], set_idle_maintenance enabled self)
  | SetRecoveryOptions options now =>
      ([], if recovery_policy then (set_recovery_options options now self).2 else self)
  | SetSendOptions options =>
      ([], if send_policy then (set_send_options options self).2 else self)
  end.

(** ** What the receive queue releases *)

(** The frames a datagram releases from the receive queue. *)
Definition released_by_packet t (buf : list Z) self : list FrameSetPacket :=
  match buf with
  | [] => []
  | packet_id :: _ =>
      match PacketID.from packet_id with
      | Ok PacketID.FrameSetPacketBegin =>
          if (1024 * 1024 <=? pending_bytes self) || (4096 <=? zlen (pending_data self)) then []
          else match decode_input (owned_input t) buf with
          | Err _ => []
          | Ok frames =>
              let '(invalid, ready, _) :=
                receive (imap (fun i frame => (clock t (1 + i), frame)) frames) [] (recvq self) in
              if invalid : bool then [] else ready
          end
      | _ => []
      end
  end.

Definition released_by_input t (input : Input) self : list FrameSetPacket :=
  match input with Datagram buf => released_by_packet t buf self | _ => [] end.

(** The frames an event releases. *)
Definition released e self : list FrameSetPacket :=
  match e with
  | Receiver t input =>
      if negb (receiving self) || blocked self then []
      else
        let self := flush_acks t self in
        match pending_data self with
        | [] => if closed self && take_close t 0 then [] else released_by_input t input self
        | _ =>
            if closed self then []
            else match try_reserve (user_data self) with
                 | (Full, _) => released_by_input t input self
                 | _ => []
                 end
        end
  | _ => []
  end.

(** Messages received, frames released, final state. *)
Fixpoint run (events : list event) self : list (list Z) * list FrameSetPacket * Connection chan :=
  match events with
  | [] => ([], [], self)
  | e :: events =>
      let frames := released e self in
      let '(messages, self) := step e self in
      let '(messages', frames', self) := run events self in
      (messages ++ messages', frames ++ frames', self)
  end.

(** ** Messages in order *)

Definition payload (f : FrameSetPacket) : list Z := FramePayload.into_vec (data f).

Definition is_game (message : list Z) : Prop := head message = Some (PacketID.to_u8 PacketID.Game).

#[local] Instance is_game_dec message : Decision (is_game message).
Proof. unfold is_game. apply _. Defined.

(** The game packets of a list, in order. *)
Definition games (l : list (list Z)) : list (list Z) := filter is_game l.

(** What is on its way to the application: in its channel, pending behind it, and ready
    behind a suspended delivery. *)
Definition stream self : list (list Z) :=
  queued (view (user_data self)) ++ pending_data self ++ map payload (ready_frames self).

Lemma into_vec_deref p : FramePayload.into_vec p = FramePayload.deref p.
Proof. by destruct p. Qed.

Lemma games_app l k : games (l ++ k) = games l ++ games k.
Proof. apply list.filter_app. Qed.

Lemma games_drop l x k : ~ is_game x -> games (l ++ x :: k) = games (l ++ k).
Proof. intros Hx. rewrite !games_app. unfold games at 2. by rewrite filter_cons_False. Qed.

(** The messages handed over and not yet taken. *)
Definition messages self : list (list Z) := queued (view (user_data self)) ++ pending_data self.

Definition channel_open self : Prop := receiver_closed (view (user_data self)) = false.

Lemma stream_messages self : stream self = messages self ++ map payload (ready_frames self).
Proof. unfold stream, messages. by rewrite app_assoc. Qed.

(** *** Operations that carry no messages *)

Record carries self self' : Prop := {
  carries_user : user_data self' = user_data self;
  carries_pending : pending_data self' = pending_data self;
  carries_bytes : pending_bytes self' = pending_bytes self;
  carries_ready : ready_frames self' = ready_frames self;
  carries_blocked : blocked self' = blocked self;
  carries_closed : closed self = true -> closed self' = true;
}.

#[export] Instance carries_preorder : PreOrder carries.
Proof.
  split; [by intros self; split|]. intros a b c [] []. split; try congruence. auto.
Qed.

Ltac carries_fields := split; (reflexivity || (simpl; auto)).

Lemma carries_stream self self' : carries self self' -> stream self' = stream self.
Proof. intros [Hu Hp _ Hr _ _]. unfold stream. by rewrite Hu, Hp, Hr. Qed.

Lemma push_wire_carries datagrams self : carries self (push_wire datagrams self).
Proof. carries_fields. Qed.

Lemma send_ack_ranges_carries ranges self : carries self (send_ack_ranges ranges self).
Proof. unfold send_ack_ranges. repeat case_match; carries_fields. Qed.

Lemma flush_acks_carries t self : carries self (flush_acks t self).
Proof.
  unfold flush_acks. case_if; [|reflexivity]. destruct (take_acks (recvq self)) as [ranges q].
  set (s1 := self <| recvq := q |> <| acks := ranges |>). transitivity s1; [carries_fields|].
  transitivity (send_ack_ranges ranges s1); [apply send_ack_ranges_carries|carries_fields].
Qed.

Lemma flush_sendq_carries now wake self : carries self (flush_sendq now wake self).2.
Proof. unfold flush_sendq. destruct (SendQ.flush now (sendq self)). carries_fields. Qed.

Lemma with_sendq_carries {A} (m : SE SendQ A) self : carries self (with_sendq m self).2.
Proof. unfold with_sendq. destruct (m (sendq self)). carries_fields. Qed.

Lemma on_feedback_carries t update self : carries self (on_feedback t update self).
Proof.
  unfold on_feedback. set (s1 := self <| sendq := _ |>).
  pose proof (flush_sendq_carries (if recovery_policy then clock t 2 else clock t 1) true s1) as Hf.
  destruct (flush_sendq _ true s1) as [out s2]. destruct (transmit_replies _ _ _) as [[d r] bulk].
  transitivity s1; [carries_fields|]. transitivity s2; [exact Hf|carries_fields].
Qed.

Lemma transmit_sent_carries udp batched out self : carries self (transmit_sent udp batched out self).2.
Proof.
  unfold transmit_sent. case_if; [carries_fields|]. destruct (transmit_frames batched out). carries_fields.
Qed.

Lemma send_payload_carries buf r order_channel owned udp batched now self :
  carries self (send_payload buf r order_channel owned udp batched now self).2.
Proof.
  unfold send_payload. destruct buf as [|id buf]; [reflexivity|]. case_if; [reflexivity|].
  destruct (wait_for_handshake self) as [[]|]; [|reflexivity..].
  pose proof (with_sendq_carries (send_payload_locked r (id :: buf) order_channel owned now) self) as Hw.
  destruct (with_sendq _ self) as [[[out|]|] s1]; [|exact Hw..].
  pose proof (transmit_sent_carries udp batched out s1) as Ht. destruct (transmit_sent udp batched out s1).
  by transitivity s1.
Qed.

Lemma send_together_carries borrowed owned r order_channel udp batched now self :
  carries self (send_together borrowed owned r order_channel udp batched now self).2.
Proof.
  unfold send_together. destruct (wait_for_handshake self) as [[]|]; [|reflexivity..].
  pose proof (with_sendq_carries (send_batch_locked borrowed owned r order_channel now) self) as Hw.
  destruct (with_sendq _ self) as [[[out|]|] s1]; [|exact Hw..].
  pose proof (transmit_sent_carries udp batched out s1) as Ht. destruct (transmit_sent udp batched out s1).
  by transitivity s1.
Qed.

Lemma close_carries self : carries self (close self).2.
Proof.
  unfold close. case_if; [reflexivity|].
  pose proof (with_sendq_carries (SendQ.insert Reliability.Reliable [PacketID.to_u8 PacketID.Disconnect]) self) as Hw.
  destruct (with_sendq _ self) as [[] s1]; [|exact Hw]. transitivity s1; [exact Hw|carries_fields].
Qed.

Lemma send_nacks_carries self : carries self (send_nacks self).
Proof.
  unfold send_nacks. destruct (take_nacks (recvq self)) as [nacks q]. repeat case_match; carries_fields.
Qed.

Lemma tick_turn_carries t self : carries self (tick_turn t self).
Proof.
  unfold tick_turn. case_if; [reflexivity|]. set (quiet := enabled _ && _).
  set (s1 := if quiet then _ else self). assert (carries self s1) as H1 by (unfold s1; case_if; carries_fields).
  etransitivity; [exact H1|]. clearbody s1. case_if; [carries_fields|].
  etransitivity; [apply send_nacks_carries|]. set (s2 := send_nacks s1). clearbody s2.
  pose proof (flush_sendq_carries (clock t 2) false s2) as Hf. destruct (flush_sendq _ false s2) as [out s3].
  etransitivity; [exact Hf|]. clear. set (now_idle := _ && _ && _).
  set (s4 := if now_idle then _ else _). assert (carries s3 s4) as H4 by (unfold s4; case_if; carries_fields).
  etransitivity; [exact H4|]. clearbody s4. repeat case_if; carries_fields.
Qed.

Lemma carries_messages self self' : carries self self' -> messages self' = messages self.
Proof. intros [Hu Hp _ _ _ _]. unfold messages. by rewrite Hu, Hp. Qed.

Lemma carries_open self self' : carries self self' -> channel_open self -> channel_open self'.
Proof. intros [Hu _ _ _ _ _]. unfold channel_open. by rewrite Hu. Qed.

(** *** Handing a frame over *)

Lemma try_send_open (x : list Z) (c : chan (list Z)) :
  receiver_closed (view c) = false ->
  receiver_closed (view (try_send x c).2) = false /\
  match (try_send x c).1 with
  | Sent => view (try_send x c).2 = Channel.push x (view c)
  | Full => view (try_send x c).2 = view c
  | Closed => False
  end.
Proof.
  intros Ho. rewrite try_send_state, try_send_result. unfold Channel.try_send. rewrite Ho. by case_if.
Qed.

Lemma deliver_game_spec message self :
  channel_open self ->
  (deliver_game message self).1 = Next /\ channel_open (deliver_game message self).2 /\
  messages (deliver_game message self).2 = messages self ++ [message] /\
  (closed self = true -> closed (deliver_game message self).2 = true).
Proof.
  intros Ho. unfold deliver_game, messages, channel_open. destruct (pending_data self) as [|m pend] eqn:Ep.
  - destruct (try_send_open message _ Ho) as [Ho' Hv].
    destruct (try_send message (user_data self)) as [[] c]; simpl in *; [| |done];
      rewrite Hv, ?Ep, ?app_nil_r; simpl; split_and!; auto; by rewrite ?Hv in Ho'.
  - simpl. split_and!; try done. by rewrite <- app_assoc.
Qed.

(** A frame whose payload is not a game packet. *)
Lemma handle_spec t w f self :
  channel_open self -> ~ is_game (payload f) ->
  match handle peer_addr local_addr t w f self with
  | (Waits, self') => self' = self
  | (Returns _, self') => channel_open self' /\ games (messages self') = games (messages self) /\
      (closed self = true -> closed self' = true)
  end.
Proof.
  intros Ho Hg. unfold handle. destruct (FramePayload.deref (data f)) as [|id buf]; [by split_and!|].
  assert (forall A (m : SE SendQ A), channel_open (with_sendq m self).2 /\
    games (messages (with_sendq m self).2) = games (messages self) /\
    (closed self = true -> closed (with_sendq m self).2 = true)) as Hw.
  { intros A m. pose proof (with_sendq_carries m self) as Hc.
    split_and!; [by apply (carries_open self)|by rewrite (carries_messages self)|apply Hc]. }
  destruct (PacketID.from id) as [[]|]; try (by split_and!);
    try (match goal with |- context [with_sendq ?m self] => specialize (Hw _ m); by destruct (with_sendq m self) end);
    (destruct (try_send_open (FramePayload.into_vec (data f)) _ Ho) as [Ho' Hv];
     destruct (try_send (FramePayload.into_vec (data f)) (user_data self)) as [[] c]; simpl in *; [|done|done];
     unfold messages, channel_open; simpl; split_and!; try done;
     rewrite Hv; simpl; rewrite <- app_assoc; simpl; by apply games_drop).
Qed.

Lemma after_handle_carries t k r self : carries self (after_handle t k r self).2.
Proof.
  assert (forall action, r = Ok action -> carries self (
    let '(out, self) := flush_sendq (clock t k) true self in
    let self := match frames out with
                | [] => self
                | _ => self <| maintenance := leave_idle (maintenance self) |>
                end in
    let '(datagrams, r) := transmit_frames (batched_sends t) out in
    push_wire datagrams self)) as Hc.
  { intros action _. pose proof (flush_sendq_carries (clock t k) true self) as Hf.
    destruct (flush_sendq (clock t k) true self) as [out s1]. transitivity s1; [exact Hf|].
    destruct (transmit_frames (batched_sends t) out). destruct (frames out); carries_fields. }
  unfold after_handle. destruct r as [[]|]; [| |carries_fields|reflexivity];
    specialize (Hc _ eq_refl); destruct (flush_sendq (clock t k) true self) as [out s1];
    destruct (transmit_frames (batched_sends t) out) as [d [|e]]; simpl in Hc;
    repeat case_bool_decide; try discriminate; (etransitivity; [exact Hc|]; carries_fields).
Qed.

Lemma after_handle_stops t k r self b :
  (after_handle t k r self).1 = Stopped b -> closed (after_handle t k r self).2 = true.
Proof.
  unfold after_handle. destruct r as [[]|]; try done;
    destruct (flush_sendq (clock t k) true self) as [out s1];
    destruct (transmit_frames (batched_sends t) out) as [d [|e]]; simpl; try done; by case_bool_decide.
Qed.

Lemma after_handle_returns t k r self : (after_handle t k r self).1 <> Suspended.
Proof.
  unfold after_handle. destruct r as [[]|]; try done;
    destruct (flush_sendq (clock t k) true self) as [out s1];
    destruct (transmit_frames (batched_sends t) out) as [d [|e]]; simpl; try done; by case_bool_decide.
Qed.

Lemma on_ready_spec t k f self :
  channel_open self ->
  channel_open (on_ready peer_addr local_addr t k f self).2 /\
  (closed self = true -> closed (on_ready peer_addr local_addr t k f self).2 = true) /\
  match on_ready peer_addr local_addr t k f self with
  | (Next, self') => games (messages self') = games (messages self) ++ games [payload f]
  | (Stopped _, self') => games (messages self') = games (messages self) /\ closed self' = true
  | (Suspended, self') => self' = self
  end.
Proof.
  intros Ho. unfold on_ready. case_bool_decide as Hg.
  - destruct (deliver_game_spec (FramePayload.into_vec (data f)) self Ho) as (Hn & Ho' & Hm & Hc).
    destruct (deliver_game _ self) as [p s1]. simpl in *. subst p. split_and!; try done.
    by rewrite Hm, games_app.
  - assert (~ is_game (payload f)) as Hng by (unfold is_game, payload; by rewrite into_vec_deref).
    case_if; [b2p; by split_and!|]. pose proof (handle_spec t (2 * k) f self Ho Hng) as Hh.
    destruct (handle peer_addr local_addr t (2 * k) f self) as [[r|] s1]; [|subst s1; by split_and!].
    destruct Hh as (Ho1 & Hm1 & Hc1). pose proof (after_handle_carries t k r s1) as Hc2.
    pose proof (after_handle_stops t k r s1) as Hs. pose proof (after_handle_returns t k r s1) as Hr.
    destruct (after_handle t k r s1) as [pr s2]. simpl in *.
    split; [by apply (carries_open s1)|]. split; [intros Hx; by apply Hc2, Hc1|].
    pose proof (carries_messages s1 s2 Hc2) as Hm2. destruct pr; [| |done].
    + rewrite Hm2, Hm1. unfold games at 3. by rewrite filter_cons_False, app_nil_r.
    + rewrite Hm2, Hm1. split; [done|]. by apply (Hs should_close).
Qed.

(** *** A turn of the receiving task *)

(** The channel is open, and frames are left over only by a suspended loop. *)
Definition connection_ok self : Prop :=
  channel_open self /\ (blocked self = false -> ready_frames self = []).

(** [hands before after]: of the messages [before], [after] are still on their way after the
    given ones were taken: in order, without duplicates, and all of them while it is open. *)
Definition hands (before given : list (list Z)) self self' : Prop :=
  connection_ok self' /\ (closed self = true -> closed self' = true) /\
  games given ++ games (stream self') `sublist_of` games before /\
  (closed self' = false -> games given ++ games (stream self') = games before).

Lemma hands_eq before given self self' :
  connection_ok self' -> (closed self = true -> closed self' = true) ->
  games given ++ games (stream self') = games before -> hands before given self self'.
Proof. intros Hok Hc E. split_and!; try done. by rewrite E. Qed.

Lemma hands_carries before self self1 self' :
  carries self self1 -> hands before [] self1 self' -> hands before [] self self'.
Proof. intros Hc (Hok & Hm & Hs & He). split_and!; try done. intros Hx. by apply Hm, Hc. Qed.

Lemma carries_ok self self' : carries self self' -> connection_ok self -> connection_ok self'.
Proof.
  intros Hc [Ho Hr]. split; [by apply (carries_open self)|].
  destruct Hc as [_ _ _ Hrf Hb _]. by rewrite Hrf, Hb.
Qed.

Lemma carries_hands self self' : carries self self' -> connection_ok self -> hands (stream self) [] self self'.
Proof.
  intros Hc Hok. apply hands_eq; [by apply (carries_ok self)|apply Hc|]. by rewrite (carries_stream self).
Qed.

(** The end of the loop: leftovers are dropped, acknowledgements sent. *)
Lemma finish_hands before (should_close : bool) self :
  channel_open self -> games (messages self) `sublist_of` games before ->
  (closed self = false -> games (messages self) = games before) ->
  let self' := send_ack_ranges (acks self) (self <| ready_frames := [] |> <| blocked := false |>) in
  hands before [] self (if should_close then end_receiver self' else self').
Proof.
  intros Ho Hs He self'. set (s0 := self <| ready_frames := [] |> <| blocked := false |>) in *.
  assert (carries s0 (if should_close : bool then end_receiver self' else self')) as Hc.
  { transitivity self'; [apply send_ack_ranges_carries|]. destruct should_close; carries_fields. }
  assert (stream s0 = messages self) as Est by (rewrite stream_messages; simpl; apply app_nil_r).
  assert (closed (if should_close then end_receiver self' else self') = closed self) as Ecl.
  { unfold self', send_ack_ranges. destruct should_close; repeat case_match; done. }
  split_and!.
  - apply (carries_ok s0); [done|]. by split.
  - by rewrite Ecl.
  - rewrite (carries_stream s0 _ Hc), Est. done.
  - rewrite Ecl, (carries_stream s0 _ Hc), Est. done.
Qed.

Lemma process_ready_hands t k frames self :
  channel_open self ->
  hands (messages self ++ map payload frames) [] self (process_ready peer_addr local_addr t k frames self).
Proof.
  revert k self. induction frames as [|f frames IH]; intros k self Ho; cbn [process_ready].
  { apply (finish_hands _ false); [done|..]; by rewrite app_nil_r. }
  destruct (on_ready_spec t k f self Ho) as (Ho1 & Hc1 & Hsp).
  destruct (on_ready peer_addr local_addr t k f self) as [[|b|] s1]; cbn [snd] in *.
  - destruct (IH (S k) s1 Ho1) as (Hok & Hc2 & Hs & He). cbn [map].
    assert (games (messages s1 ++ map payload frames)
      = games (messages self ++ payload f :: map payload frames)) as E.
    { rewrite !games_app, Hsp. change (payload f :: map payload frames) with ([payload f] ++ map payload frames).
      by rewrite games_app, <- app_assoc. }
    rewrite E in Hs, He. split_and!; try done. auto.
  - destruct Hsp as [Hm Hcl]. destruct (finish_hands (messages self ++ map payload (f :: frames)) b s1 Ho1)
      as (Hok & Hc2 & Hs & He).
    + rewrite Hm, games_app. by apply sublist_inserts_r.
    + congruence.
    + split_and!; try done. auto.
  - subst s1. apply hands_eq; [by split|by simpl|]. rewrite stream_messages. done.
Qed.

Lemma on_frame_set_hands t buf self :
  connection_ok self -> blocked self = false ->
  hands (stream self ++ map payload (
      if (1024 * 1024 <=? pending_bytes self) || (4096 <=? zlen (pending_data self)) then []
      else match decode_input (owned_input t) buf with
      | Err _ => []
      | Ok frames =>
          let '(invalid, ready, _) :=
            receive (imap (fun i frame => (clock t (1 + i), frame)) frames) [] (recvq self) in
          if invalid : bool then [] else ready
      end)) [] self (on_frame_set peer_addr local_addr t buf self).
Proof.
  intros [Ho Hr] Hb. specialize (Hr Hb). unfold on_frame_set.
  case_if; [simpl; rewrite app_nil_r; by apply hands_eq|].
  destruct (decode_input (owned_input t) buf) as [fs|]; [|simpl; rewrite app_nil_r; by apply hands_eq].
  cbv zeta. set (s1 := if received_since_ack self =? 0 then _ else self).
  assert (carries self s1) as H1 by (unfold s1; case_if; carries_fields).
  assert (recvq s1 = recvq self) as -> by (unfold s1; by case_if).
  destruct (receive _ [] (recvq self)) as [[invalid ready] q].
  set (s2 := if drained_after t || _ then _ else _).
  assert (carries s1 s2) as H2.
  { unfold s2. simpl. case_if; [|carries_fields]. destruct (take_acks _). carries_fields. }
  set (s3 := if needs_maintenance (recvq s2) then _ else s2).
  assert (carries s2 s3) as H3 by (unfold s3; case_if; carries_fields).
  assert (carries self s3) as H4 by (transitivity s1; [done|]; by transitivity s2).
  clearbody s1 s2 s3. destruct invalid.
  - simpl. rewrite app_nil_r. apply carries_hands; [|by split]. transitivity s3; [done|carries_fields].
  - apply (hands_carries _ _ s3 _ H4). rewrite <- (carries_stream _ _ H4), stream_messages.
    rewrite (carries_ready _ _ H4), Hr. simpl. rewrite app_nil_r.
    apply process_ready_hands. by apply (carries_open self).
Qed.

Lemma on_packet_hands t buf self :
  connection_ok self -> blocked self = false ->
  hands (stream self ++ map payload (released_by_packet t buf self)) [] self
    (on_packet peer_addr local_addr t buf self).
Proof.
  intros Hok Hb. unfold on_packet, released_by_packet.
  destruct buf as [|id buf]; [simpl; rewrite app_nil_r; by apply hands_eq|].
  set (s1 := if negb (received_since_ack self =? 0) then _ else self).
  set (s2 := s1 <| last_heartbeat_time := _ |>).
  assert (carries self s2) as H2 by (unfold s2, s1; case_if; carries_fields).
  assert (recvq s2 = recvq self) as Hq by (unfold s2, s1; by case_if).
  pose proof (carries_ok _ _ H2 Hok) as Hok2. clearbody s2. clear s1.
  assert (forall s3, carries s2 s3 -> hands (stream self ++ map payload []) [] self s3) as Hsame.
  { intros s3 H3. simpl. rewrite app_nil_r. apply carries_hands; [by transitivity s2|done]. }
  destruct (PacketID.from id) as [[]|]; try (apply Hsame; reflexivity).
  - apply Hsame. carries_fields.
  - apply (hands_carries _ _ s2 _ H2). rewrite <- (carries_stream _ _ H2), <- (carries_bytes _ _ H2),
      <- (carries_pending _ _ H2), <- Hq. apply on_frame_set_hands; [done|].
    by rewrite (carries_blocked _ _ H2).
  - destruct (read_packet_nack _); apply Hsame; [apply on_feedback_carries|reflexivity].
  - destruct (read_packet_ack _); apply Hsame; [apply on_feedback_carries|reflexivity].
Qed.

Lemma on_input_hands t input self :
  connection_ok self -> blocked self = false ->
  hands (stream self ++ map payload (released_by_input t input self))
    [] self (on_input peer_addr local_addr t input self).
Proof.
  intros Hok Hb. destruct input as [buf| |]; simpl; [by apply on_packet_hands|..]; rewrite app_nil_r;
    apply carries_hands; first [done|carries_fields].
Qed.

Lemma receiver_turn_hands t input self :
  connection_ok self ->
  hands (stream self ++ map payload (released (Receiver t input) self)) [] self (receiver_turn t input self).
Proof.
  intros Hok.
  assert (forall s1, carries self s1 -> hands (stream self ++ map payload []) [] self s1) as Hsame.
  { intros s1 H1. simpl. rewrite app_nil_r. by apply carries_hands. }
  unfold receiver_turn, released. destruct (negb (receiving self)); [by apply Hsame|]. cbn [orb].
  destruct (blocked self) eqn:Hb.
  { simpl. rewrite app_nil_r, stream_messages. apply process_ready_hands, Hok. }
  pose proof (flush_acks_carries t self) as H1. set (s1 := flush_acks t self) in *. cbv zeta.
  pose proof (carries_ok _ _ H1 Hok) as Hok1.
  assert (blocked s1 = false) as Hb1 by (by rewrite (carries_blocked _ _ H1)). clearbody s1.
  destruct (pending_data s1) as [|message rest] eqn:Ep.
  - case_if; [apply Hsame; transitivity s1; [done|carries_fields]|].
    apply (hands_carries _ _ s1 _ H1). rewrite <- (carries_stream _ _ H1). by apply on_input_hands.
  - case_if; [apply Hsame; transitivity s1; [done|carries_fields]|].
    pose proof (reserve_send message (user_data s1)) as Hs. pose proof (reserve_refused (user_data s1)) as Hf.
    pose proof (try_reserve_result (user_data s1)) as Hres. unfold Channel.try_reserve in Hres.
    destruct Hok1 as [Ho1 Hr1]. rewrite Ho1 in Hres.
    destruct (try_reserve (user_data s1)) as [o c]. cbn [fst snd] in *.
    destruct o; [| |by case_if_in Hres; discriminate].
    + destruct (Hs eq_refl) as (Hv & _). simpl. rewrite app_nil_r.
      apply hands_eq.
      * split; [unfold channel_open; simpl; by rewrite Hv|done].
      * intros Hx. simpl. by apply H1.
      * rewrite <- (carries_stream _ _ H1). unfold stream. simpl. rewrite Hv, Ep. simpl. by rewrite <- app_assoc.
    + assert (view c = view (user_data s1)) as Hv by (by apply Hf).
      set (s2 := s1 <| user_data := c |>).
      assert (stream s2 = stream self) as Est
        by (rewrite <- (carries_stream _ _ H1); unfold stream; simpl; by rewrite Hv).
      assert (connection_ok s2) as Hok2 by (split; [unfold channel_open; simpl; by rewrite Hv|done]).
      pose proof (on_input_hands t input s2 Hok2 Hb1) as (Hk & Hc & Hsub & He). rewrite Est in *.
      change (released_by_input t input s2) with (released_by_input t input s1) in *.
      split_and!; try done. intros Hx. apply Hc. simpl. by apply H1.
Qed.

Lemma recv_hands self :
  connection_ok self -> hands (stream self) (step Recv self).1 self (step Recv self).2.
Proof.
  intros Hok. simpl. unfold recv. pose proof (try_recv_result (user_data self)) as Hr.
  pose proof (try_recv_state (user_data self)) as Hs. pose proof Hok as [Ho _]. unfold channel_open in Ho.
  destruct (try_recv (user_data self)) as [o c]. simpl in Hr, Hs. unfold Channel.try_recv in Hr, Hs.
  destruct (queued (view (user_data self))) as [|m l] eqn:Eq; simpl in Hr, Hs; subst o.
  - assert (hands (stream self) [] self (self <| user_data := c |>)) as Hh.
    { apply hands_eq; [|done|unfold stream; simpl; by rewrite Hs].
      split; [unfold channel_open; simpl; by rewrite Hs|apply Hok]. }
    destruct (receiving self); [exact Hh|]. by destruct (closed self).
  - apply hands_eq; [|done|].
    + split; [unfold channel_open; simpl; by rewrite Hs|apply Hok].
    + unfold stream. simpl. rewrite Hs, Eq. simpl.
      change (m :: l ++ ?x) with ([m] ++ (l ++ x)). by rewrite (games_app [m]).
Qed.

Lemma connection_step_hands e self :
  connection_ok self ->
  hands (stream self ++ map payload (released e self)) (step e self).1 self (step e self).2.
Proof.
  intros Hok. destruct e as [t input|t| |? ? ? ? ? ? ?|? ? ? ? ? ? ?| |en|? ?|?].
  { by apply receiver_turn_hands. }
  2: { simpl. rewrite app_nil_r. by apply recv_hands. }
  all: simpl; rewrite app_nil_r; apply carries_hands; [|exact Hok].
  - apply tick_turn_carries.
  - apply send_payload_carries.
  - apply send_together_carries.
  - apply close_carries.
  - unfold set_idle_maintenance. carries_fields.
  - destruct recovery_policy; [|reflexivity]. unfold set_recovery_options.
    destruct (closed self) eqn:Ec; [reflexivity|]. carries_fields.
  - destruct send_policy; [|reflexivity]. unfold set_send_options.
    destruct (closed self) eqn:Ec; [reflexivity|].
    match goal with |- context [with_sendq ?m self] => pose proof (with_sendq_carries m self) as Hw;
      destruct (with_sendq m self) as [[] s1] end; [|exact Hw].
    transitivity s1; [exact Hw|carries_fields].
Qed.

(** What the application has received and what is on its way to it. *)
Lemma run_stream self events :
  connection_ok self -> games (stream self) = [] ->
  let out := run events self in
  games out.1.1 ++ games (stream out.2) `sublist_of` games (map payload out.1.2) /\
  (closed out.2 = false -> games out.1.1 ++ games (stream out.2) = games (map payload out.1.2)).
Proof.
  intros Hok Hst. cbv zeta.
  enough (hands (stream self ++ map payload (run events self).1.2) (run events self).1.1 self (run events self).2)
    as (_ & _ & Hs & He) by (rewrite games_app, Hst in Hs, He; done).
  clear Hst. revert self Hok. induction events as [|e events IH]; intros self Hok.
  { simpl. rewrite app_nil_r. by apply hands_eq. }
  cbn [run]. destruct (connection_step_hands e self Hok) as (Hok1 & Hc1 & Hs1 & He1).
  destruct (step e self) as [given s1]. cbn [fst snd] in *. destruct (IH s1 Hok1) as (Hok2 & Hc2 & Hs2 & He2).
  destruct (run events s1) as [[given' fs'] s2]. cbn [fst snd] in *.
  rewrite map_app, app_assoc. split_and!; [done|auto|..].
  - rewrite games_app, (games_app _ (map payload fs')), <- app_assoc.
    etransitivity; [apply sublist_app; [reflexivity|exact Hs2]|].
    rewrite games_app, app_assoc. by apply sublist_app.
  - intros Hcl. rewrite games_app, (games_app _ (map payload fs')), <- app_assoc, He2 by done.
    rewrite games_app, app_assoc, He1; [done|]. destruct (closed s1); [|done]. rewrite Hc2 in Hcl; done.
Qed.

Lemma new_connection_stream mtu now :
  connection_ok (new_connection mtu now) /\ games (stream (new_connection mtu now)) = [].
Proof.
  unfold connection_ok, channel_open, stream, new_connection. simpl. by rewrite channel_view.
Qed.

(** C5: messages reach the application in order. On a connection the application holds,
    whatever datagrams, timeouts, acknowledgements and calls happen in whatever order: the
    game packets the application has received, followed by those on their way to it, are
    game packets the receive queue released, in the order it released them and each once;
    and while the connection is open none is missing. Back-pressure of the application's
    channel, which sends messages through two queues, never reorders or drops one. *)
Theorem messages_reach_application_in_order mtu now events :
  let out := run events (new_connection mtu now) in
  games out.1.1 ++ games (stream out.2) `sublist_of` games (map payload out.1.2) /\
  (closed out.2 = false -> games out.1.1 ++ games (stream out.2) = games (map payload out.1.2)).
Proof. apply run_stream; apply new_connection_stream. Qed.
End Histories.

(** ** A batch across a tick

    The crate built with [send-policy] alone. The send options allow 2048 bytes a flush, so
    a batch of thirty messages leaves in two flushes; the second is the ticker's. *)

Definition send_policy_only : Features := {| recovery_policy := false; send_policy := true |}.
Definition both_policies : Features := {| recovery_policy := true; send_policy := true |}.

Definition sample_message : list Z := 0xfe :: repeat 1 99.

Definition sample_turn : Turn := mk_turn (fun _ => 20) (fun _ => 0) true true (fun _ => false) true None.

Section Sample.
Context {feat : Features}.
#[local] Existing Instance merge_sort_flight.

(** A connection after its handshake, with a batch of thirty messages sent. *)
Definition sample_batch : Connection Channel :=
  let self := new_connection 1400 0 <| handshake_complete := 1 |> in
  let self := (set_send_options (SendOptions.mk 64 SendOptions.MAX_BYTES (256 * 1024) (64 * 1024) 2048) self).2 in
  (send_together (repeat sample_message 30) [] Reliability.ReliableOrdered 0 true None 10 self).2.

Definition sample_tick : Connection Channel := tick_turn sample_turn sample_batch.

(** The sequence numbers of the frames of every datagram. *)
Definition numbers (datagrams : list (list Z)) : list (list Z) :=
  map (fun d => match FrameVec.decode_into d with Ok frames => map sequence_number frames | Err _ => [] end) datagrams.

(** The frames in flight under number 3. *)
Definition numbered_3 (queue : SendQ) : list SendQ.Sent :=
  filter (fun p => sequence_number (SendQ.frame p) = 3) (SendQ.sent_packet queue).
End Sample.

(** Without [recovery-policy], the tick sends the eight frames numbered 3 as eight
    datagrams; an acknowledgement of number 3, which the peer sends when any of them
    arrives, makes the queue forget all eight. With it they are one datagram. *)
Lemma tick_splits_coalesced_datagram :
  take 3 (numbers (wire (@sample_tick send_policy_only))) = [repeat 0 8; repeat 1 8; [2]] /\
  take 8 (drop 3 (numbers (wire (@sample_tick send_policy_only)))) = repeat [3] 8 /\
  (let acked := @SendQ.ack_ranges send_policy_only [(3, 3)] 30 (sendq (@sample_tick send_policy_only)) in
   length (numbered_3 acked) = 0%nat /\ length (numbered_3 (sendq (@sample_tick send_policy_only))) = 8%nat) /\
  head (drop 3 (numbers (wire (@sample_tick both_policies)))) = Some (repeat 3 8).
Proof. vm_compute. done. Qed.

(** Two ordered game packets arrive in the wrong order; the application takes both. *)
Definition sample_frame (n : Z) : FrameSetPacket :=
  from_payload Reliability.ReliableOrdered (FramePayload.Owned [0xfe; n])
    <| sequence_number := n |> <| reliable_frame_index := n |> <| ordered_frame_index := n |>.

Definition sample_conversation : list event :=
  map (fun n => Receiver sample_turn (Datagram match serialize (sample_frame n) with Ok bytes => bytes | Err _ => [] end)) [1; 0]
  ++ [Recv; Recv].

Lemma messages_reach_application_in_order_witness :
  let out := @run both_policies merge_sort_flight Channel _ (V4 (mk_ipv4 127 0 0 1) 7) (V4 (mk_ipv4 127 0 0 1) 8)
    sample_conversation (new_connection 1400 0) in
  games out.1.1 ++ games (stream out.2) = games (map payload out.1.2) /\
  out.1.1 = [[0xfe; 0]; [0xfe; 1]].
Proof.
  destruct (@messages_reach_application_in_order both_policies merge_sort_flight Channel _
    (V4 (mk_ipv4 127 0 0 1) 7) (V4 (mk_ipv4 127 0 0 1) 8) 1400 0 sample_conversation) as [_ He].
  split; [apply He|]; vm_compute; reflexivity.
Defined.
