(* ===== verification/SocketAcks.v ===== *)
(** * Acknowledgements of a connection

    Which datagrams of the peer a connection acknowledges, and when: the ACK packets among
    the datagrams it hands to the UDP socket, over the histories of [SocketRun]. *)

From S2P Require Import Prelude Errors Sequence Datatype Packet PacketCodec Frame FrameCodec Fragment AckSet RecvQ SendOptions SendQ Sending Runtime Udp Socket SocketRun.

(** ** ACK packets on the wire *)

Definition is_ack (datagram : list Z) : Prop := head datagram = Some (PacketID.to_u8 PacketID.Ack).

(** The sequence numbers that a peer reads from the ACK packets of a transmission. *)
Definition acknowledged (wire : list (list Z)) (x : Z) : Prop :=
  exists d ack, d ∈ wire /\ is_ack d /\ read_packet_ack d = Ok ack /\ in_ranges (ack_sequences ack) x.

Definition no_acks (datagrams : list (list Z)) : Prop := Forall (fun d => ~ is_ack d) datagrams.

Lemma acknowledged_app w w' x : acknowledged (w ++ w') x <-> acknowledged w x \/ acknowledged w' x.
Proof. unfold acknowledged. setoid_rewrite elem_of_app. naive_solver. Qed.

Lemma acknowledged_no_acks ds x : no_acks ds -> ~ acknowledged ds x.
Proof. intros Hn (d & ack & Hd & Ha & _). by eapply (list.Forall_forall _ _) in Hn; [apply Hn|]. Qed.

Lemma acknowledged_control l x :
  zlen l < 2 ^ 16 -> Forall range_wf l ->
  acknowledged [control_bytes PacketID.Ack l] x <-> in_ranges l x.
Proof.
  intros Hl Hw. pose proof (reads_control PacketID.Ack l mk_Ack Hl Hw) as Hr. split.
  - intros (d & ack & ->%list_elem_of_singleton & _ & Ha & Hx).
    unfold read_packet_ack in Ha. rewrite Hr in Ha. by injection Ha as <-.
  - intros Hx. exists (control_bytes PacketID.Ack l), (mk_Ack (zlen l) l).
    split_and!; [by apply list_elem_of_singleton|done|exact Hr|done].
Qed.

Lemma in_ranges_wf l :
  ranges_wf l -> (forall x, in_ranges l x -> in_range 24 x) -> Forall range_wf l.
Proof.
  intros Hw Hx. apply list.Forall_forall. intros r Hr. pose proof (proj1 (list.Forall_forall _ _) Hw r Hr) as Hle. cbn beta in Hle.
  assert (in_range 24 r.1) by (apply Hx; exists r; split; [done|lia]).
  assert (in_range 24 r.2) by (apply Hx; exists r; split; [done|lia]).
  unfold range_wf, in_range in *. lia.
Qed.

(** ** What else is transmitted *)

Lemma header_no_ack f r rest : ~ is_ack (header_bytes f r ++ rest).
Proof. unfold is_ack, header_bytes, id_byte. simpl. by case_if. Qed.

Lemma encode_header_no_ack f header rest : encode_header f = Ok header -> ~ is_ack (header ++ rest).
Proof.
  intros He. destruct (validate f) as [[]|] eqn:E; [|unfold encode_header in He; by rewrite E in He].
  destruct (proj1 (validate_inv f) E) as [r Hv]. rewrite (encode_header_ok f r Hv) in He.
  injection He as <-. apply header_no_ack.
Qed.

Lemma frame_datagram_no_ack f d : frame_datagram f = Ok d -> ~ is_ack d.
Proof.
  unfold frame_datagram. destruct (encode_header f) as [header|] eqn:E; [|discriminate]. intros [= <-].
  by eapply encode_header_no_ack.
Qed.

Lemma send_each_no_acks encode fs :
  (forall f d, encode f = Ok d -> ~ is_ack d) -> no_acks (send_each encode fs).1.
Proof.
  intros He. induction fs as [|f fs IH]; simpl; [constructor|]. destruct (encode f) eqn:E; [|constructor].
  destruct (send_each encode fs). constructor; [by eapply He|done].
Qed.

Lemma serialize_no_acks fs : no_acks (send_each serialize fs).1.
Proof. apply send_each_no_acks. intros f d. rewrite <- frame_datagram_serialize. apply frame_datagram_no_ack. Qed.

Lemma frame_datagrams_no_acks fs : no_acks (send_each frame_datagram fs).1.
Proof. apply send_each_no_acks, frame_datagram_no_ack. Qed.

Lemma send_frames_no_acks fuel sendmmsg fs : no_acks (send_frames fuel sendmmsg fs).1.
Proof.
  revert sendmmsg fs. induction fuel as [|fuel IH]; intros sendmmsg fs; simpl; [constructor|].
  destruct fs as [|f fs]; [constructor|]. unfold send_ready.
  pose proof (frame_datagrams_no_acks (take BATCH (f :: fs))) as Hn.
  destruct (send_each frame_datagram _) as [ds []]; [|constructor].
  destruct (sendmmsg 0%nat) as [[|k]|]; [constructor| |constructor].
  specialize (IH (fun n => sendmmsg (S n)) (drop (S k) (f :: fs))).
  destruct (send_frames fuel _ _) as [sent r]. apply Forall_app. split; [by apply Forall_take|done].
Qed.

Lemma serialize_group_loop_appends index first fs buf :
  exists e, (serialize_group_loop index first fs buf).2 = buf ++ e.
Proof.
  revert index buf. induction fs as [|f fs IH]; intros index buf; cbn [serialize_group_loop].
  { exists []. by rewrite app_nil_r. }
  unfold fail_if. destruct (negb _); [by exists []; rewrite app_nil_r|]. erewrite SE_bind_ok by reflexivity.
  destruct (encode_header f) as [h|]; [|by exists []; rewrite app_nil_r].
  do 3 (erewrite SE_bind_ok by reflexivity).
  match goal with |- context [serialize_group_loop _ _ _ ?b] => destruct (IH (S index) b) as [e ->] end.
  eexists. by rewrite <- !app_assoc.
Qed.

Lemma serialize_group_no_ack f fs d : serialize_group (f :: fs) = Ok d -> ~ is_ack d.
Proof.
  unfold serialize_group, serialize_group_into. do 2 (erewrite SE_bind_ok by reflexivity).
  cbn [serialize_group_loop]. rewrite Z.eqb_refl. erewrite SE_bind_ok by reflexivity.
  destruct (encode_header f) as [h|] eqn:E; [|discriminate]. do 3 (erewrite SE_bind_ok by reflexivity).
  match goal with |- context [serialize_group_loop ?i ?x ?l ?b] =>
    destruct (serialize_group_loop_appends i x l b) as [e He]; destruct (serialize_group_loop i x l b) as [[] w] end;
    [|discriminate].
  intros [= <-]. simpl in He. subst w. simpl. rewrite <- app_assoc. by eapply encode_header_no_ack.
Qed.

Lemma send_groups_no_acks fuel fs : no_acks (send_groups fuel fs).1.
Proof.
  revert fs. induction fuel as [|fuel IH]; intros fs; simpl; [constructor|]. destruct fs as [|f fs]; [constructor|].
  destruct (take_group (sequence_number f) fs) as [group rest].
  destruct (serialize_group (f :: group)) eqn:E; [|constructor].
  specialize (IH rest). destruct (send_groups fuel rest). constructor; [by eapply serialize_group_no_ack|done].
Qed.

Lemma transmit_frames_no_acks batched out : no_acks (transmit_frames batched out).1.
Proof.
  unfold transmit_frames. case_if; [apply frame_datagrams_no_acks|].
  destruct (coalesced out); [apply send_groups_no_acks|].
  destruct batched; [apply send_frames_no_acks|apply serialize_no_acks].
Qed.

Lemma transmit_replies_no_acks batched out bulk : no_acks (transmit_replies batched out bulk).1.1.
Proof.
  unfold transmit_replies. repeat case_if; [apply transmit_frames_no_acks..|apply serialize_no_acks].
Qed.

Lemma send_singly_no_acks fs : no_acks (send_singly fs).
Proof.
  induction fs as [|f fs IH]; [constructor|]. unfold send_singly. cbn [omap list_omap].
  destruct (send_frame f) eqn:E; [|exact IH]. constructor; [by eapply frame_datagram_no_ack|exact IH].
Qed.

Lemma transmit_maintenance_no_acks `{!Features} batched out : no_acks (transmit_maintenance_frames batched out).
Proof. unfold transmit_maintenance_frames. case_if; [apply transmit_frames_no_acks|apply send_singly_no_acks]. Qed.

Lemma nack_no_ack l : ~ is_ack (control_bytes PacketID.Nack l).
Proof. done. Qed.

(** ** The receive queue *)

Abbreviation acks_of q := (ack (sequence_number_ackset q)).

Lemma insert_ack_length s l :
  (length l <= length (insert_ack s l) <= S (length l))%nat /\
  (in_ranges l s -> length (insert_ack s l) = length l).
Proof.
  induction l as [|[a b] l [IH1 IH2]]; cbn [insert_ack].
  { split; [simpl; lia|]. by intros ?%in_ranges_nil. }
  repeat case_if; simpl; (split; [lia|]); try done.
  rewrite in_ranges_cons. cbn [fst snd] in *. intros [?|Hin]; [exfalso; blia|by rewrite IH2].
Qed.

Lemma drain_ordered_ackset fuel c q : sequence_number_ackset (drain_ordered fuel c q) = sequence_number_ackset q.
Proof.
  revert q. induction fuel as [|fuel IH]; intros q; simpl; [done|]. case_if; [done|].
  destruct (ordered_packets q !! _); [|done]. by rewrite IH.
Qed.

Lemma insert_complete_ackset e f q : sequence_number_ackset (insert_complete e f q).2 = sequence_number_ackset q.
Proof. unfold insert_complete. repeat case_if; try done. simpl. by rewrite drain_ordered_ackset. Qed.

Lemma insert_ordered_ackset now f q : sequence_number_ackset (insert_ordered now f q).2 = sequence_number_ackset q.
Proof.
  unfold insert_ordered. erewrite SE_bind_ok by reflexivity. case_if; [done|]. case_if; [done|].
  destruct (is_fragment f).
  - destruct (FragmentQ.insert_and_take_completed now f (fragment_queue q)) as [[[m|]|] q1] eqn:E;
      unfold mbind, SE_bind; rewrite E; [|done..]. by rewrite insert_complete_ackset.
  - erewrite SE_bind_ok by reflexivity. apply insert_complete_ackset.
Qed.

Lemma insert_sequenced_ackset f q : sequence_number_ackset (insert_sequenced f q) = sequence_number_ackset q.
Proof. unfold insert_sequenced. destruct (ChannelIndexes.get_mut _ _). by case_if. Qed.

(** Whatever becomes of a frame, its datagram is tracked. *)
Lemma insert_tracks now f q r :
  reliability f = Ok r ->
  sequence_number_ackset (RecvQ.insert now f q).2 = insert_ackset (sequence_number f) (sequence_number_ackset q).
Proof.
  intros Hr. unfold RecvQ.insert. rewrite Hr. erewrite SE_bind_ok by reflexivity.
  unfold modify at 1. erewrite SE_bind_ok by reflexivity. rewrite (is_reliable_ok f r Hr).
  erewrite SE_bind_ok by reflexivity. set (q1 := q <| sequence_number_ackset := _ |>).
  change (insert_ackset _ _) with (sequence_number_ackset q1). clearbody q1.
  match goal with |- sequence_number_ackset ((?m ≫= ?k) q1).2 = _ => set (check := m); set (go := k) end.
  assert (sequence_number_ackset (check q1).2 = sequence_number_ackset q1) as H2.
  { unfold check. case_if; [|done]. by destruct (ReliableWindow.accept _ _). }
  assert (forall fresh q2, sequence_number_ackset (go fresh q2).2 = sequence_number_ackset q2) as H3.
  { intros fresh q2. unfold go. destruct (negb fresh); [done|].
    destruct r; unfold modify; try done; simpl; by rewrite ?insert_sequenced_ackset, ?insert_ordered_ackset. }
  unfold mbind, SE_bind. destruct (check q1) as [[fresh|] q2]; simpl in *; [by rewrite H3, H2|by rewrite H2].
Qed.

Lemma insert_acks now f q r :
  reliability f = Ok r -> acks_of (RecvQ.insert now f q).2 = insert_ack (sequence_number f) (acks_of q).
Proof. intros Hr. rewrite (insert_tracks now f q r Hr). by rewrite insert_ackset_eq. Qed.

Lemma flush_into_acks fs q : acks_of (flush_into fs q).2 = acks_of q.
Proof. unfold flush_into. by case_if. Qed.

(** The frames of a datagram numbered [s]. *)
Lemma receive_acks s arrivals ready q :
  in_range 24 s -> ranges_wf (acks_of q) -> in_ranges (acks_of q) s ->
  Forall (fun a => sequence_number a.2 = s /\ is_ok (reliability a.2)) arrivals ->
  let l := acks_of (receive arrivals ready q).2 in
  ranges_wf l /\ length l = length (acks_of q) /\ forall x, in_ranges l x <-> in_ranges (acks_of q) x.
Proof.
  intros Hs Hw Hin Ha. revert ready q Hw Hin. induction Ha as [|[now f] arrivals [Hf Hr] _ IH]; intros ready q Hw Hin; [done|].
  cbn [receive]. simpl in Hf, Hr. destruct (reliability f) as [r|] eqn:Er; [|done].
  pose proof (insert_acks now f q r Er) as Hi. rewrite Hf in Hi.
  destruct (insert_ack_spec s (acks_of q) Hw Hs) as [Hw' Hx]. rewrite <- Hi in Hw', Hx.
  pose proof (proj2 (insert_ack_length s (acks_of q)) Hin) as Hl. rewrite <- Hi in Hl.
  destruct (RecvQ.insert now f q) as [[] q1]; simpl in Hi, Hw', Hx, Hl |- *.
  - pose proof (flush_into_acks ready q1) as Hfl. destruct (flush_into ready q1) as [ready' q2]. simpl in Hfl.
    rewrite <- Hfl in Hw', Hx, Hl. destruct (IH ready' q2) as (I1 & I2 & I3); [done|apply Hx; tauto|].
    split_and!; [done|congruence|]. intros x. rewrite I3, Hx. naive_solver.
  - split_and!; [done|done|]. intros x. rewrite Hx. naive_solver.
Qed.

Lemma receive_first_acks s now f arrivals ready q :
  in_range 24 s -> ranges_wf (acks_of q) ->
  Forall (fun a => sequence_number a.2 = s /\ is_ok (reliability a.2)) ((now, f) :: arrivals) ->
  let l := acks_of (receive ((now, f) :: arrivals) ready q).2 in
  ranges_wf l /\ (length l <= S (length (acks_of q)))%nat /\ forall x, in_ranges l x <-> in_ranges (acks_of q) x \/ x = s.
Proof.
  intros Hs Hw Ha. inversion Ha as [|? ? [Hf Hr] Ha']; subst. cbn [receive]. simpl in Hr.
  destruct (reliability f) as [r|] eqn:Er; [|done]. pose proof (insert_acks now f q r Er) as Hi.
  simpl in Hs. destruct (insert_ack_spec _ (acks_of q) Hw Hs) as [Hw' Hx]. rewrite <- Hi in Hw', Hx.
  pose proof (proj1 (insert_ack_length (sequence_number f) (acks_of q))) as Hl. rewrite <- Hi in Hl.
  destruct (RecvQ.insert now f q) as [[] q1]; simpl in Hi, Hw', Hx, Hl |- *; [|split_and!; [done|lia|done]].
  pose proof (flush_into_acks ready q1) as Hfl. destruct (flush_into ready q1) as [ready' q2]. simpl in Hfl.
  rewrite <- Hfl in Hw', Hx, Hl.
  destruct (receive_acks (sequence_number f) arrivals ready' q2 Hs Hw' ltac:(apply Hx; by right) Ha') as (I1 & I2 & I3).
  split_and!; [done|lia|]. intros x. by rewrite I3.
Qed.

(** What the decoder returns: frames of one datagram. *)
Lemma decode_input_frames owned buf fs :
  Forall (in_range 8) buf -> zlen buf < 2 ^ 64 -> decode_input owned buf = Ok fs ->
  exists s f rest, fs = f :: rest /\ in_range 24 s /\
    Forall (fun f => sequence_number f = s /\ is_ok (reliability f)) fs.
Proof.
  intros Hb Hl Hd. assert (FrameVec.decode_into buf = Ok fs) as Hd'.
  { unfold decode_input in Hd. destruct owned; [|done]. by rewrite decode_owned_into_eq in Hd. }
  destruct (decode_into_inv buf fs Hb Hd') as (id & s & f & rest & -> & _ & Hall & _).
  exists s, f, rest. split; [done|]. inversion Hall as [|? ? (Hwf & Hs & _) _]. subst.
  split; [apply Hwf|]. eapply list.Forall_impl; [exact Hall|]. intros g (Hg & Hgs & _). split; [done|].
  destruct (wf_validated _ _ Hg) as [Hr _ _ _]. by rewrite Hr.
Qed.

(** ** The connection *)

Section Acks.
Context {feat : Features} {usort : UnstableSort} `{Mpsc chan}.
Context (peer_addr local_addr : SocketAddr).
Implicit Types (self : Connection chan) (t : Turn) (e : event) (x : Z).

(** *** Operations that acknowledge nothing *)

(** Everything of the receive queue but the datagrams to acknowledge and to report. *)
Definition core (q : RecvQ) : RecvQ := q <| sequence_number_ackset := sequence_number_ackset new_recvq |>.

Record quiet self self' : Prop := {
  quiet_core : core (recvq self') = core (recvq self);
  quiet_acks_of : acks_of (recvq self') = acks_of (recvq self);
  quiet_acks : acks self' = acks self;
  quiet_count : received_since_ack self' = received_since_ack self;
  quiet_blocked : blocked self' = blocked self;
  quiet_receiving : receiving self' = true -> receiving self = true;
  quiet_wire : exists ds, wire self' = wire self ++ ds /\ no_acks ds;
}.

#[local] Instance quiet_preorder : PreOrder quiet.
Proof.
  split.
  - intros self. split; try done. exists []. split; [by rewrite app_nil_r|constructor].
  - intros a b c [H0 H1 H2 H3 H4 H5 (d1 & E1 & N1)] [G0 G1 G2 G3 G4 G5 (d2 & E2 & N2)]. split; try congruence; [auto|].
    exists (d1 ++ d2). rewrite E2, E1, <- app_assoc. split; [done|by apply Forall_app].
Qed.

Ltac quiet_fields :=
  split; first [reflexivity | by simpl; auto | exists []; split; [rewrite app_nil_r; reflexivity|constructor]].

Lemma push_wire_quiet ds self : no_acks ds -> quiet self (push_wire ds self).
Proof. intros Hn. split; try done. by exists ds. Qed.

Lemma flush_sendq_quiet now wake self : quiet self (flush_sendq now wake self).2.
Proof. unfold flush_sendq. destruct (SendQ.flush now (sendq self)). quiet_fields. Qed.

Lemma with_sendq_quiet {A} (m : SE SendQ A) self : quiet self (with_sendq m self).2.
Proof. unfold with_sendq. destruct (m (sendq self)). quiet_fields. Qed.

Lemma on_feedback_quiet t update self : quiet self (on_feedback t update self).
Proof.
  unfold on_feedback. set (s1 := self <| sendq := _ |>).
  pose proof (flush_sendq_quiet (if recovery_policy then clock t 2 else clock t 1) true s1) as Hf.
  destruct (flush_sendq _ true s1) as [out s2]. pose proof (transmit_replies_no_acks (batched_sends t) out (bulk_sender s2)) as Hn.
  destruct (transmit_replies _ _ _) as [[d r] bulk]. transitivity s1; [quiet_fields|]. transitivity s2; [exact Hf|].
  transitivity (s2 <| bulk_sender := bulk |>); [quiet_fields|by apply push_wire_quiet].
Qed.

Lemma transmit_sent_quiet udp batched out self : quiet self (transmit_sent udp batched out self).2.
Proof.
  unfold transmit_sent. case_if; [quiet_fields|].
  pose proof (transmit_frames_no_acks batched out) as Hn. destruct (transmit_frames batched out) as [ds r].
  etransitivity; [|by apply push_wire_quiet]. quiet_fields.
Qed.

Lemma send_payload_quiet buf r order_channel owned udp batched now self :
  quiet self (send_payload buf r order_channel owned udp batched now self).2.
Proof.
  unfold send_payload. destruct buf as [|id buf]; [reflexivity|]. case_if; [reflexivity|].
  destruct (wait_for_handshake self) as [[]|]; [|reflexivity..].
  pose proof (with_sendq_quiet (send_payload_locked r (id :: buf) order_channel owned now) self) as Hw.
  destruct (with_sendq _ self) as [[[out|]|] s1]; [|exact Hw..].
  pose proof (transmit_sent_quiet udp batched out s1) as Ht. destruct (transmit_sent udp batched out s1).
  by transitivity s1.
Qed.

Lemma send_together_quiet borrowed owned r order_channel udp batched now self :
  quiet self (send_together borrowed owned r order_channel udp batched now self).2.
Proof.
  unfold send_together. destruct (wait_for_handshake self) as [[]|]; [|reflexivity..].
  pose proof (with_sendq_quiet (send_batch_locked borrowed owned r order_channel now) self) as Hw.
  destruct (with_sendq _ self) as [[[out|]|] s1]; [|exact Hw..].
  pose proof (transmit_sent_quiet udp batched out s1) as Ht. destruct (transmit_sent udp batched out s1).
  by transitivity s1.
Qed.

Lemma close_quiet self : quiet self (close self).2.
Proof.
  unfold close. case_if; [reflexivity|].
  pose proof (with_sendq_quiet (SendQ.insert Reliability.Reliable [PacketID.to_u8 PacketID.Disconnect]) self) as Hw.
  destruct (with_sendq _ self) as [[] s1]; [|exact Hw]. transitivity s1; [exact Hw|quiet_fields].
Qed.

Lemma write_control_bytes kind l bs : write_control_ranges_into kind l [] = (Ok tt, bs) -> bs = control_bytes kind l.
Proof.
  destruct (decide (zlen l < 2 ^ 16)) as [Hl|Hl].
  - rewrite write_control_ranges_into_ok by done. by intros [= <-].
  - unfold write_control_ranges_into, fail_if. rewrite (proj2 (Z.leb_le _ _)) by lia. discriminate.
Qed.

Lemma send_nacks_quiet self : quiet self (send_nacks self).
Proof.
  unfold send_nacks, take_nacks. simpl. destruct (nack _) as [|r l]; [quiet_fields|].
  destruct (write_control_ranges_into _ _ _) as [[[]|] bs] eqn:E; [|quiet_fields].
  apply write_control_bytes in E as ->. etransitivity; [|apply push_wire_quiet; constructor; [apply nack_no_ack|constructor]].
  quiet_fields.
Qed.

Lemma disconnect_no_acks : no_acks disconnect_datagrams.
Proof. by repeat constructor. Qed.

Lemma tick_turn_quiet t self : quiet self (tick_turn t self).
Proof.
  unfold tick_turn. case_if; [reflexivity|]. set (quiet' := enabled _ && _).
  set (s1 := if quiet' then _ else self). assert (quiet self s1) as H1 by (unfold s1; case_if; quiet_fields).
  etransitivity; [exact H1|]. clearbody s1. case_if; [quiet_fields|].
  etransitivity; [apply send_nacks_quiet|]. set (s2 := send_nacks s1). clearbody s2.
  pose proof (flush_sendq_quiet (clock t 2) false s2) as Hf. destruct (flush_sendq _ false s2) as [out s3].
  etransitivity; [exact Hf|]. clear. set (now_idle := _ && _ && _).
  set (s4 := if now_idle then _ else _). assert (quiet s3 s4) as H4 by (unfold s4; case_if; quiet_fields).
  etransitivity; [exact H4|]. clearbody s4.
  set (s5 := push_wire _ s4). assert (quiet s4 s5) as H5 by (apply push_wire_quiet, transmit_maintenance_no_acks).
  etransitivity; [exact H5|]. clearbody s5. repeat case_if; [quiet_fields| |reflexivity].
  etransitivity; [apply (push_wire_quiet disconnect_datagrams), disconnect_no_acks|quiet_fields].
Qed.

Lemma deliver_game_quiet message self : quiet self (deliver_game message self).2.
Proof.
  unfold deliver_game. destruct (pending_data self); [|quiet_fields].
  destruct (try_send message (user_data self)) as [[] c]; quiet_fields.
Qed.

Lemma handle_quiet t w f self : quiet self (handle peer_addr local_addr t w f self).2.
Proof.
  unfold handle. destruct (FramePayload.deref (data f)) as [|id bytes]; [reflexivity|].
  destruct (PacketID.from id) as [[]|]; try reflexivity;
    try (match goal with |- context [with_sendq ?m self] => pose proof (with_sendq_quiet m self) as Hw;
      destruct (with_sendq m self) end; exact Hw);
    destruct (try_send _ (user_data self)) as [[] c]; first [reflexivity|quiet_fields].
Qed.

Lemma after_handle_quiet t k r self : quiet self (after_handle t k r self).2.
Proof.
  unfold after_handle. destruct r as [action|]; [|reflexivity].
  assert (forall s out, quiet s (push_wire (transmit_frames (batched_sends t) out).1
    match frames out with [] => s | _ => s <| maintenance := leave_idle (maintenance s) |> end)) as Hpush.
  { intros s out. etransitivity; [|apply push_wire_quiet, transmit_frames_no_acks]. destruct (frames out); quiet_fields. }
  destruct action; [| |quiet_fields];
    (pose proof (flush_sendq_quiet (clock t k) true self) as Hf; destruct (flush_sendq _ true self) as [out s1];
     specialize (Hpush s1 out); destruct (transmit_frames _ out) as [ds r]; simpl in Hpush;
     set (s2 := push_wire ds _) in *; clearbody s2;
     transitivity s1; [exact Hf|]; transitivity s2; [exact Hpush|];
     destruct r as [|e]; simpl; [quiet_fields|]; case_if; simpl; quiet_fields).
Qed.

Lemma on_ready_quiet t k f self : quiet self (on_ready peer_addr local_addr t k f self).2.
Proof.
  unfold on_ready. case_if; [apply deliver_game_quiet|]. case_if; [reflexivity|].
  pose proof (handle_quiet t (2 * k) f self) as Hh. destruct (handle _ _ t _ f self) as [[r|] s1]; [|exact Hh].
  etransitivity; [exact Hh|apply after_handle_quiet].
Qed.

(** *** Coverage *)

(** [x] is acknowledged, or it is in a list that is on its way into an ACK packet. *)
Definition covered self x : Prop :=
  acknowledged (wire self) x \/ in_ranges (acks_of (recvq self)) x \/
  (blocked self = true /\ in_ranges (acks self) x).

(** [received] are the numbers of the frame sets taken in so far. *)
Record acks_inv (received : list Z) self : Prop := {
  ai_range : forall x, x ∈ received -> in_range 24 x;
  ai_wf : ranges_wf (acks_of (recvq self));
  ai_count : 0 <= received_since_ack self <= 32;
  ai_length : zlen (acks_of (recvq self)) <= received_since_ack self;
  ai_blocked : blocked self = true -> ranges_wf (acks self) /\ zlen (acks self) <= 33;
  ai_sound : forall x, covered self x -> x ∈ received;
  ai_complete : receiving self = true -> forall x, x ∈ received -> covered self x;
}.

Lemma quiet_covered self self' x : quiet self self' -> covered self' x <-> covered self x.
Proof.
  intros [_ H1 H2 _ H4 _ (ds & E & Hn)]. unfold covered. rewrite H1, H2, H4, E, acknowledged_app.
  pose proof (acknowledged_no_acks ds x Hn). tauto.
Qed.

Lemma quiet_inv received self self' : quiet self self' -> acks_inv received self -> acks_inv received self'.
Proof.
  intros Hq [Hr Hw Hc Hl Hb Hs Hco]. pose proof (quiet_covered self self') as Hcov.
  pose proof Hq as [_ H1 H2 H3 H4 H5 _]. split; rewrite ?H1, ?H2, ?H3, ?H4; try done.
  - intros x Hx. apply Hs. by apply Hcov.
  - intros Hrec x Hx. apply Hcov; [done|]. auto.
Qed.

Lemma inv_ranges received self :
  acks_inv received self -> Forall range_wf (acks_of (recvq self)) /\ (blocked self = true -> Forall range_wf (acks self)).
Proof.
  intros [Hr Hw Hc Hl Hb Hs _]. split; [|intros Hbl].
  - apply in_ranges_wf; [done|]. intros x Hx. apply Hr, Hs. unfold covered. tauto.
  - apply in_ranges_wf; [by apply Hb|]. intros x Hx. apply Hr, Hs. unfold covered. tauto.
Qed.

(** Sending a list of ranges acknowledges exactly them. *)
Lemma send_ack_ranges_wire l self :
  zlen l < 2 ^ 16 -> Forall range_wf l ->
  exists ds, send_ack_ranges l self = push_wire ds self /\ forall x, acknowledged ds x <-> in_ranges l x.
Proof.
  intros Hl Hw. unfold send_ack_ranges. destruct l as [|r l].
  - exists []. split; [unfold push_wire; rewrite app_nil_r; by destruct self|].
    intros x. split; [by intros (d & ? & ?%not_elem_of_nil & _)|by intros ?%in_ranges_nil].
  - rewrite write_control_ranges_into_ok by done. eexists. split; [done|].
    intros x. by apply acknowledged_control.
Qed.

(** *** The receiving task *)

Lemma flush_acks_inv received t self :
  acks_inv received self -> blocked self = false ->
  acks_inv received (flush_acks t self) /\ received_since_ack (flush_acks t self) <= 31 /\
  blocked (flush_acks t self) = false /\
  (drained_before t = true -> acks_of (recvq (flush_acks t self)) = []).
Proof.
  intros Hi Hb. destruct (inv_ranges _ _ Hi) as [Hrw _]. pose proof Hi as [Hr Hw Hc Hl _ Hs Hco]. unfold flush_acks.
  destruct (negb (received_since_ack self =? 0) && _) eqn:E.
  - unfold take_acks. simpl.
    set (s1 := self <| recvq := _ |> <| acks := _ |>).
    destruct (send_ack_ranges_wire (acks_of (recvq self)) s1) as (ds & -> & Hx); [lia|done|].
    split; [|done]. assert (forall x, covered (push_wire ds s1 <| received_since_ack := 0 |>) x <-> covered self x) as Hcov.
    { intros x. unfold covered. simpl. rewrite Hb, acknowledged_app, Hx. pose proof (in_ranges_nil x). naive_solver. }
    split; simpl; [done|constructor|lia|lia|congruence|..].
    + intros x Hcx. apply Hs, Hcov, Hcx.
    + intros Hrec x Hxr. apply Hcov. auto.
  - split; [done|]. assert (received_since_ack self = 0 \/ received_since_ack self <= 31 /\ drained_before t = false) as Hcase.
    { apply andb_false_iff in E as [E|E]; [left; by apply negb_false_iff, Z.eqb_eq in E|right].
      apply orb_false_iff in E as [E1 E2]. split; [blia|done]. }
    split_and!; [lia|done|]. intros Hd. destruct Hcase as [Hz|[_ ?]]; [|congruence].
    apply nil_length_inv. lia.
Qed.

(** The loop over the ready frames, entered with [acks] to send after it. *)
Lemma process_ready_inv received t k fs self :
  acks_inv received (self <| blocked := true |>) ->
  acks_inv received (process_ready peer_addr local_addr t k fs self).
Proof.
  assert (forall should_close self, acks_inv received (self <| blocked := true |>) ->
    acks_inv received (let s1 := send_ack_ranges (acks self) (self <| ready_frames := [] |> <| blocked := false |>) in
      if should_close : bool then end_receiver s1 else s1)) as Hfinish.
  { intros should_close s Hi. destruct (inv_ranges _ _ Hi) as [_ Hrw]. destruct Hi as [Hr Hw Hc Hl Hbl Hs Hco].
    destruct (Hbl eq_refl) as [_ Hlen]. simpl in Hlen, Hrw. cbv zeta.
    destruct (send_ack_ranges_wire (acks s) (s <| ready_frames := [] |> <| blocked := false |>)) as (ds & -> & Hx);
      [lia|by apply Hrw|].
    assert (forall x, covered (push_wire ds (s <| ready_frames := [] |> <| blocked := false |>)) x
                      <-> covered (s <| blocked := true |>) x) as Hcov.
    { intros x. unfold covered. simpl. rewrite acknowledged_app, Hx. naive_solver. }
    destruct should_close; split; simpl in *; try done; first [by intros x Hcx; apply Hs, Hcov|by intros Hrec x Hxr; apply Hcov; auto]. }
  revert k self. induction fs as [|f fs IH]; intros k self Hi; cbn [process_ready]; [by apply (Hfinish false)|].
  pose proof (on_ready_quiet t k f self) as Hq. destruct (on_ready _ _ t k f self) as [p s1]. simpl in Hq.
  assert (quiet (self <| blocked := true |>) (s1 <| blocked := true |>)) as Hq' by (by destruct Hq).
  apply (quiet_inv _ _ _ Hq') in Hi. destruct p; [by apply IH|by apply Hfinish|].
  eapply quiet_inv; [|exact Hi]. split; try done. exists []. split; [by rewrite app_nil_r|constructor].
Qed.

(** The number of the frame set in a datagram, if it is taken in. *)
Definition frame_set t (buf : list Z) self : list Z :=
  if (1024 * 1024 <=? pending_bytes self) || (4096 <=? zlen (pending_data self)) then []
  else match decode_input (owned_input t) buf with
       | Ok decoded => map sequence_number (take 1 decoded)
       | Err _ => []
       end.

(** The queue after the frames of a frame set: [l] is what it has to acknowledge. *)
Lemma on_frame_set_inv received t buf self :
  Forall (in_range 8) buf -> zlen buf < 2 ^ 64 -> acks_inv received self -> blocked self = false ->
  zlen (acks_of (recvq self)) + (if received_since_ack self =? 0 then 0 else 1) <= received_since_ack self ->
  acks_inv (received ++ frame_set t buf self) (on_frame_set peer_addr local_addr t buf self).
Proof.
  intros Hbuf Hlen Hi Hb Hcount. unfold on_frame_set, frame_set. case_if; [by rewrite app_nil_r|].
  destruct (decode_input (owned_input t) buf) as [fs|] eqn:Ed; [|by rewrite app_nil_r].
  destruct (decode_input_frames _ _ _ Hbuf Hlen Ed) as (s & f & rest & -> & Hs24 & Hall). cbn [map take].
  destruct Hi as [Hr Hw Hc Hl _ Hs Hco]. assert (sequence_number f = s) as <- by (inversion Hall as [|? ? [? _] _]; done).
  set (s1 := if received_since_ack self =? 0 then _ else self).
  assert (recvq s1 = recvq self /\ wire s1 = wire self /\ receiving s1 = receiving self /\ blocked s1 = false /\
    1 <= received_since_ack s1 <= 32 /\ zlen (acks_of (recvq self)) + 1 <= received_since_ack s1) as (E1 & E2 & E3 & E4 & E5 & E6).
  { unfold s1. case_if; simpl; (split_and!; try done; blia). }
  clearbody s1. cbn [imap]. rewrite E1.
  pose proof (receive_first_acks (sequence_number f) (clock t (1 + 0)) f
    (imap ((fun i frame => (clock t (1 + i), frame)) ∘ S) rest) [] (recvq self) Hs24 Hw) as Hrec.
  destruct (receive _ [] (recvq self)) as [[invalid ready] q]. cbn [snd] in Hrec.
  destruct Hrec as (Hw' & Hlen' & Hx).
  { apply list.Forall_forall. intros [now g] Hin. apply elem_of_cons in Hin as [[= -> ->]|Hin].
    - by apply (proj1 (list.Forall_forall _ _) Hall), list_elem_of_here.
    - apply elem_of_lookup_imap_1 in Hin as (i & y & [= -> ->] & Hy).
      by apply (proj1 (list.Forall_forall _ _) Hall), list_elem_of_further, (list_elem_of_lookup_2 _ i). }
  set (s2 := if drained_after t || _ then _ else _).
  assert (acks_inv (received ++ [sequence_number f]) (s2 <| blocked := true |>)
          /\ blocked s2 = false) as [H2 H2b].
  { assert (forall x, acknowledged (wire self) x \/ in_ranges (acks_of q) x <-> covered self x \/ x = sequence_number f) as Hcov.
    { intros x. unfold covered. rewrite Hb, Hx. naive_solver. }
    assert (forall x, x ∈ received ++ [sequence_number f] -> in_range 24 x) as Hr'.
    { intros x [Hin|Hin%list_elem_of_singleton]%elem_of_app; [by apply Hr|by subst]. }
    assert (forall x, acknowledged (wire self) x \/ in_ranges (acks_of q) x -> x ∈ received ++ [sequence_number f]) as Hsound.
    { intros x Hin. apply elem_of_app. rewrite list_elem_of_singleton. apply Hcov in Hin as [Hin| ->]; [left; by apply Hs|by right]. }
    assert (receiving self = true -> forall x, x ∈ received ++ [sequence_number f] ->
      acknowledged (wire self) x \/ in_ranges (acks_of q) x) as Hcomp.
    { intros Hrc x Hin. apply Hcov. apply elem_of_app in Hin as [Hin|Hin%list_elem_of_singleton]; [left; by apply Hco|by right]. }
    clear Hcov Hx Hs Hco. unfold s2. simpl. split; [|by case_if]. destruct (drained_after t || _) eqn:Ed2.
    - split; simpl; [done|constructor|lia|lia|intros _; split; [done|lia]|..]; rewrite ?E3; unfold covered; simpl; rewrite ?E2.
      + intros x [?|[?%in_ranges_nil|[_ ?]]]; [|done|]; apply Hsound; tauto.
      + intros Hrc x Hin. destruct (Hcomp Hrc x Hin); tauto.
    - apply orb_false_iff in Ed2 as [_ Ed2]. split; simpl; [done|done|blia|lia|intros _; split; [constructor|simpl; lia]|..]; rewrite ?E3; unfold covered; simpl; rewrite ?E2.
      + intros x [?|[?|[_ ?%in_ranges_nil]]]; [| |done]; apply Hsound; tauto.
      + intros Hrc x Hin. destruct (Hcomp Hrc x Hin); tauto. }
  clearbody s2. set (s3 := if needs_maintenance (recvq s2) then _ else s2).
  assert (quiet (s2 <| blocked := true |>) (s3 <| blocked := true |>) /\ blocked s3 = false) as [H3 H3b]
    by (unfold s3; case_if; (split; [quiet_fields|done])).
  apply (quiet_inv _ _ _ H3) in H2. clearbody s3. clear H3. destruct invalid; [|by apply process_ready_inv].
  destruct H2 as [G1 G2 G3 G4 G5 G6 G7]. split; simpl; try done; try congruence.
  intros x Hcx. apply G6. unfold covered in *. simpl in *. destruct Hcx as [?|[?|[? _]]]; [tauto|tauto|congruence].
Qed.

(** The number of the frame set a datagram brings. *)
Definition frame_set_of_packet t (buf : list Z) self : list Z :=
  match buf with
  | [] => []
  | packet_id :: _ =>
      match PacketID.from packet_id with
      | Ok PacketID.FrameSetPacketBegin => frame_set t buf self
      | _ => []
      end
  end.

Lemma on_packet_inv received t buf self :
  Forall (in_range 8) buf -> zlen buf < 2 ^ 64 -> acks_inv received self -> blocked self = false ->
  received_since_ack self <= 31 ->
  acks_inv (received ++ frame_set_of_packet t buf self) (on_packet peer_addr local_addr t buf self).
Proof.
  intros Hbuf Hlen Hi Hb Hc. unfold on_packet, frame_set_of_packet.
  destruct buf as [|id buf]; [by rewrite app_nil_r|].
  set (s1 := if negb (received_since_ack self =? 0) then _ else self).
  set (s2 := s1 <| last_heartbeat_time := _ |>).
  assert (acks_inv received s2 /\ frame_set t (id :: buf) s2 = frame_set t (id :: buf) self /\ blocked s2 = false /\
    zlen (acks_of (recvq s2)) + (if received_since_ack s2 =? 0 then 0 else 1) <= received_since_ack s2)
    as (H2 & <- & Hb2 & Hc2).
  { destruct Hi as [G1 G2 G3 G4 G5 G6 G7].
    assert (recvq s2 = recvq self /\ acks s2 = acks self /\ blocked s2 = blocked self /\ receiving s2 = receiving self /\
      wire s2 = wire self /\ pending_data s2 = pending_data self /\ pending_bytes s2 = pending_bytes self /\
      received_since_ack s2 = (if received_since_ack self =? 0 then 0 else received_since_ack self + 1))
      as (E1 & E2 & E3 & E4 & E5 & E6 & E7 & E8).
    { unfold s2, s1. destruct (received_since_ack self =? 0) eqn:E; simpl; split_and!; try done. blia. }
    assert (zlen (acks_of (recvq self)) = 0 \/ received_since_ack self <> 0) as Hz by lia. clearbody s2.
    split_and!.
    - split; unfold covered; rewrite ?E1, ?E2, ?E3, ?E4, ?E5, ?E8; try done; case_if; blia.
    - unfold frame_set. by rewrite E6, E7.
    - congruence.
    - rewrite E1, E8. destruct (received_since_ack self =? 0) eqn:E; simpl; [blia|]. case_if; blia. }
  clearbody s2. clear s1 Hi Hb Hc.
  assert (forall s3, quiet s2 s3 -> acks_inv (received ++ []) s3) as Hsame
    by (intros s3 H3; rewrite app_nil_r; by apply (quiet_inv _ _ _ H3)).
  destruct (PacketID.from id) as [[]|]; try (apply Hsame; reflexivity).
  - apply Hsame. quiet_fields.
  - by apply on_frame_set_inv.
  - destruct (read_packet_nack _); apply Hsame; [apply on_feedback_quiet|reflexivity].
  - destruct (read_packet_ack _); apply Hsame; [apply on_feedback_quiet|reflexivity].
Qed.

(** The numbers of the frame sets an event takes in. *)
Definition received_by e self : list Z :=
  match e with
  | Receiver t (Datagram buf) =>
      if negb (receiving self) || blocked self then []
      else
        let self := flush_acks t self in
        match pending_data self with
        | [] => if closed self && take_close t 0 then [] else frame_set_of_packet t buf self
        | _ =>
            if closed self then []
            else match try_reserve (user_data self) with
                 | (Full, _) => frame_set_of_packet t buf self
                 | _ => []
                 end
        end
  | _ => []
  end.

(** Datagrams are bytes. *)
Definition event_ok e : Prop :=
  match e with
  | Receiver _ (Datagram buf) => Forall (in_range 8) buf /\ zlen buf < 2 ^ 64
  | _ => True
  end.

Lemma on_input_inv received t input self :
  event_ok (Receiver t input) -> acks_inv received self -> blocked self = false -> received_since_ack self <= 31 ->
  acks_inv (received ++ match input with Datagram buf => frame_set_of_packet t buf self | _ => [] end)
    (on_input peer_addr local_addr t input self).
Proof.
  intros He Hi Hb Hc. destruct input as [buf| |]; simpl.
  - destruct He. by apply on_packet_inv.
  - rewrite app_nil_r. eapply quiet_inv; [|exact Hi]. quiet_fields.
  - by rewrite app_nil_r.
Qed.

Lemma receiver_turn_inv received t input self :
  event_ok (Receiver t input) -> acks_inv received self ->
  acks_inv (received ++ received_by (Receiver t input) self) (receiver_turn peer_addr local_addr t input self).
Proof.
  intros He Hi.
  assert (received_by (Receiver t input) self =
    if negb (receiving self) || blocked self then []
    else let s1 := flush_acks t self in
      let got := match input with Datagram buf => frame_set_of_packet t buf s1 | _ => [] end in
      match pending_data s1 with
      | [] => if closed s1 && take_close t 0 then [] else got
      | _ => if closed s1 then []
             else match try_reserve (user_data s1) with (Full, _) => got | _ => [] end
      end) as ->.
  { simpl. destruct input; try done; cbv zeta; repeat case_match; done. }
  unfold receiver_turn. destruct (negb (receiving self)); [by rewrite app_nil_r|]. cbn [orb].
  destruct (blocked self) eqn:Hb.
  { rewrite app_nil_r. apply process_ready_inv. eapply quiet_inv; [|exact Hi]. quiet_fields. }
  destruct (flush_acks_inv _ t _ Hi Hb) as (Hi1 & Hc1 & Hb1 & _). set (s1 := flush_acks t self) in *. cbv zeta.
  assert (forall s2, quiet s1 s2 -> acks_inv (received ++ []) s2) as Hsame
    by (intros s2 H2; rewrite app_nil_r; by apply (quiet_inv _ _ _ H2)).
  clearbody s1. destruct (pending_data s1) as [|m rest].
  - case_if; [apply Hsame; quiet_fields|by apply on_input_inv].
  - destruct (closed s1); [apply Hsame; quiet_fields|].
    destruct (try_reserve (user_data s1)) as [[] c]; [apply Hsame; quiet_fields| |apply Hsame; quiet_fields].
    assert (quiet s1 (s1 <| user_data := c |>)) as Hq by quiet_fields.
    replace (match input with Datagram buf => frame_set_of_packet t buf s1 | _ => [] end)
      with (match input with Datagram buf => frame_set_of_packet t buf (s1 <| user_data := c |>) | _ => [] end) by (by destruct input).
    apply on_input_inv; [done|by apply (quiet_inv _ _ _ Hq)|done|done].
Qed.

Lemma recv_quiet self : quiet self (recv self).2.
Proof. unfold recv. destruct (try_recv (user_data self)) as [[] c]; quiet_fields. Qed.

Lemma step_acks_inv received e self :
  event_ok e -> acks_inv received self ->
  acks_inv (received ++ received_by e self) (step peer_addr local_addr e self).2.
Proof.
  intros He Hi. destruct e as [t input|t| |? ? ? ? ? ? ?|? ? ? ? ? ? ?| |en|? ?|?]; [by apply receiver_turn_inv|..];
    simpl; rewrite app_nil_r; (eapply quiet_inv; [|exact Hi]).
  - apply tick_turn_quiet.
  - pose proof (recv_quiet self) as Hq. by destruct (recv self) as [[[]|] s1].
  - apply send_payload_quiet.
  - apply send_together_quiet.
  - apply close_quiet.
  - unfold set_idle_maintenance. quiet_fields.
  - destruct recovery_policy; [|reflexivity]. unfold set_recovery_options.
    destruct (closed self) eqn:Ec; [reflexivity|]. quiet_fields.
  - destruct send_policy; [|reflexivity]. unfold set_send_options. destruct (closed self) eqn:Ec; [reflexivity|].
    match goal with |- context [with_sendq ?m self] => pose proof (with_sendq_quiet m self) as Hw;
      destruct (with_sendq m self) as [[] s1] end; [|exact Hw].
    transitivity s1; [exact Hw|quiet_fields].
Qed.

(** The numbers of the frame sets a history takes in, in order. *)
Fixpoint received_in (events : list event) self : list Z :=
  match events with
  | [] => []
  | e :: events => received_by e self ++ received_in events (step peer_addr local_addr e self).2
  end.

Lemma run_acks_inv received events self :
  Forall event_ok events -> acks_inv received self ->
  acks_inv (received ++ received_in events self) (run peer_addr local_addr events self).2.
Proof.
  intros He. revert received self. induction He as [|e events He _ IH]; intros received self Hi; [by rewrite app_nil_r|].
  cbn [run received_in]. apply (step_acks_inv _ e) in Hi; [|done]. rewrite app_assoc.
  destruct (step _ _ e self) as [given s1]. cbn [snd] in *. specialize (IH _ _ Hi).
  by destruct (run _ _ events s1) as [[given' fs'] s2].
Qed.

(** C6: acknowledgements are sound and prompt. Whatever happens on a connection, in whatever
    order: the ACK packets it has sent name only frame sets that it took in; and as long as
    its receiving task runs and is not held up by the application, when its loop finds no
    further datagram ready it sends, before it waits, what it takes for every frame set taken
    in so far to be acknowledged. It never owes the peer more than 32 of them. *)
Theorem acknowledgements_sound_and_prompt mtu now events :
  Forall event_ok events ->
  let self := (run peer_addr local_addr events (new_connection mtu now)).2 in
  let received := received_in events (new_connection mtu now) in
  (forall x, acknowledged (wire self) x -> x ∈ received) /\
  (forall t, receiving self = true -> blocked self = false -> drained_before t = true ->
     forall x, x ∈ received -> acknowledged (wire (flush_acks t self)) x) /\
  zlen (acks_of (recvq self)) <= 32.
Proof.
  intros He self received.
  assert (acks_inv [] (new_connection mtu now : Connection chan)) as H0.
  { split; simpl; [by intros x ?%not_elem_of_nil|constructor|lia|lia|done| |by intros _ x ?%not_elem_of_nil].
    unfold covered. simpl.
    intros x [(d & ? & ?%not_elem_of_nil & _)|[?%in_ranges_nil|[? _]]]; done. }
  pose proof (run_acks_inv [] events _ He H0) as Hi. fold self received in Hi. cbn [app] in Hi.
  split_and!.
  - intros x Hx. apply (ai_sound _ _ Hi). by left.
  - intros t Hrec Hb Hd x Hx. destruct (flush_acks_inv _ t _ Hi Hb) as (Hi1 & _ & Hb1 & Hnil).
    assert (receiving (flush_acks t self) = true) as Hrec1.
    { unfold flush_acks. case_if; [|done]. unfold take_acks, send_ack_ranges. simpl. by repeat case_match. }
    destruct (ai_complete _ _ Hi1 Hrec1 x Hx) as [?|[Hin|[? _]]]; [done| |congruence].
    rewrite Hnil in Hin by done. by apply in_ranges_nil in Hin.
  - pose proof (ai_count _ _ Hi). pose proof (ai_length _ _ Hi). lia.
Qed.
End Acks.

(** ** The theorem at work *)

Lemma acknowledgements_sound_and_prompt_witness :
  let self := (@run both_policies merge_sort_flight Channel _ (V4 (mk_ipv4 127 0 0 1) 7) (V4 (mk_ipv4 127 0 0 1) 8)
    sample_conversation (new_connection 1400 0)).2 in
  wire self <> [] /\ forall x, x ∈ [1; 0] -> acknowledged (wire (flush_acks sample_turn self)) x.
Proof.
  destruct (@acknowledgements_sound_and_prompt both_policies merge_sort_flight Channel _ (V4 (mk_ipv4 127 0 0 1) 7)
    (V4 (mk_ipv4 127 0 0 1) 8) 1400 0 sample_conversation) as (_ & Hp & _).
  - change sample_conversation with
      [Receiver sample_turn (Datagram [132; 1; 0; 0; 96; 0; 16; 1; 0; 0; 1; 0; 0; 0; 254; 1]);
       Receiver sample_turn (Datagram [132; 0; 0; 0; 96; 0; 16; 0; 0; 0; 0; 0; 0; 0; 254; 0]); Recv; Recv].
    repeat (apply Forall_cons_2; [first [exact I|split; [|done]; repeat (apply Forall_cons_2; [unfold in_range; lia|]); apply Forall_nil_2]|]).
    apply Forall_nil_2.
  - split; [vm_compute; discriminate|]. intros x Hx. apply Hp; [vm_compute; reflexivity..|].
    assert (@received_in both_policies merge_sort_flight Channel _ (V4 (mk_ipv4 127 0 0 1) 7) (V4 (mk_ipv4 127 0 0 1) 8)
      sample_conversation (new_connection 1400 0) = [1; 0]) as E by (vm_compute; reflexivity).
    rewrite E. exact Hx.
Defined.
