(* ===== verification/SocketWire.v ===== *)
(** * What a connection puts on the wire

    Every datagram that a connection hands to the UDP socket, over the histories of
    [SocketRun], is one that the receiving task of a peer understands; and the frames of a
    flush arrive at the peer's decoder as they left the send queue. *)

From S2P Require Import Prelude Errors Sequence Datatype Packet PacketCodec Frame FrameCodec Fragment AckSet RecvQ SendOptions SendQ SendQInv SendQInsert SendQFlow SendQRun SendQWire Sending Runtime Udp Socket SocketRun SocketAcks.

(** ** Datagrams a peer understands *)

(** The arms of [on_packet] that do something, and whether their parser accepts. *)
Definition understood (d : list Z) : bool :=
  match d with
  | [] => false
  | packet_id :: _ =>
      match PacketID.from packet_id with
      | Ok PacketID.Disconnect => true
      | Ok PacketID.Ack => is_ok (read_packet_ack d)
      | Ok PacketID.Nack => is_ok (read_packet_nack d)
      | Ok PacketID.FrameSetPacketBegin => is_ok (FrameVec.decode_into d)
      | _ => false
      end
  end.

(** Understood, and a frame alone in its datagram fits a path of [m] bytes. *)
Record legible (m : Z) (d : list Z) : Prop := {
  legible_understood : understood d = true;
  legible_fits : forall f, FrameVec.decode_into d = Ok [f] -> zlen d <= m - 28;
}.

(** What the peer's decoder makes of a list of datagrams, together. *)
Definition delivers (ds : list (list Z)) (fs : list FrameSetPacket) : Prop :=
  exists groups, concat groups = fs /\
    Forall2 (fun d g => FrameVec.decode_into d = Ok (map (fun f => on_wire f (rel_of f)) g)) ds groups.

Lemma datagram_understood first group :
  group_wf (Frame.sequence_number first) (first :: group) -> zlen group < 2 ^ 48 ->
  understood (datagram_bytes first (first :: group)) = true.
Proof.
  intros Hg Hl. unfold understood. pose proof (decode_into_ok first group Hg Hl) as Hd.
  assert (exists rest, datagram_bytes first (first :: group) = id_byte first :: rest) as [rest E]
    by (by eexists).
  rewrite E in *. assert (PacketID.from (id_byte first) = Ok PacketID.FrameSetPacketBegin) as ->
    by (unfold id_byte; by case_if). by rewrite Hd.
Qed.

(** A group of sendable frames under one number. *)
Lemma datagram_legible m first group :
  Forall (sendable m) (first :: group) ->
  Forall (fun f => Frame.sequence_number f = Frame.sequence_number first) group -> zlen group < 2 ^ 48 ->
  serialize_group (first :: group) = Ok (datagram_bytes first (first :: group)) /\
  legible m (datagram_bytes first (first :: group)) /\
  FrameVec.decode_into (datagram_bytes first (first :: group))
    = Ok (map (fun f => on_wire f (rel_of f)) (first :: group)).
Proof.
  intros Hs Hn Hl. assert (group_wf (Frame.sequence_number first) (first :: group)) as Hg.
  { apply list.Forall_forall. intros f Hf. split; [by apply (proj1 (list.Forall_forall _ _) Hs)|].
    apply elem_of_cons in Hf as [->|Hf]; [done|]. by apply (proj1 (list.Forall_forall _ _) Hn). }
  split; [unfold serialize_group; by rewrite serialize_group_into_ok|].
  pose proof (decode_into_ok first group Hg Hl) as Hd. split; [|done]. split; [by apply datagram_understood|].
  intros f. rewrite Hd. intros [= _ Hnil]. destruct group; [|done].
  apply list.Forall_cons in Hs as [[_ Hfit] _]. unfold datagram_bytes. cbn [map concat].
  rewrite app_nil_r, !length_app, to_bytes_length. pose proof (frame_bytes_length first (rel_of first)).
  cbn [length]. lia.
Qed.

Lemma frame_datagram_group f r : validated f r -> rel_of f = r ->
  frame_datagram f = Ok (datagram_bytes f [f]).
Proof.
  intros Hv Er. unfold frame_datagram. rewrite (encode_header_ok f r Hv). simpl. f_equal.
  unfold datagram_bytes, header_bytes, frame_bytes. simpl. by rewrite Er, app_nil_r.
Qed.

(** ** Transmissions *)

Section Transmissions.
Context (m : Z).
Implicit Types (f : FrameSetPacket) (fs : list FrameSetPacket).

Lemma frame_datagram_legible f :
  sendable m f -> frame_datagram f = Ok (datagram_bytes f [f]) /\ legible m (datagram_bytes f [f]) /\
    FrameVec.decode_into (datagram_bytes f [f]) = Ok [on_wire f (rel_of f)].
Proof.
  intros Hs. destruct (datagram_legible m f []) as (_ & Hl & Hd); [by constructor|by constructor|done|].
  split; [|done]. apply (frame_datagram_group f (rel_of f)); [apply Hs|done].
Qed.

(** Frame by frame: every frame is encoded. *)
Lemma send_each_legible fs :
  Forall (sendable m) fs ->
  let '(ds, r) := send_each frame_datagram fs in r = Ok tt /\ Forall (legible m) ds /\ delivers ds fs.
Proof.
  induction 1 as [|f fs Hf _ IH]; cbn [send_each].
  { split; [done|]. split; [constructor|]. exists []. by split. }
  destruct (frame_datagram_legible f Hf) as (-> & Hl & Hd). destruct (send_each frame_datagram fs) as [ds r].
  destruct IH as (-> & Hds & groups & <- & Hg). split; [done|]. split; [by constructor|].
  exists ([f] :: groups). split; [done|]. by constructor.
Qed.

Lemma send_each_serialize fs : send_each serialize fs = send_each frame_datagram fs.
Proof. apply send_each_ext. intros f. by rewrite frame_datagram_serialize. Qed.

Lemma take_group_spec s fs :
  let '(g, rest) := take_group s fs in fs = g ++ rest /\ Forall (fun f => Frame.sequence_number f = s) g.
Proof.
  induction fs as [|f fs IH]; simpl; [by split|]. case_if; [|by split]. destruct (take_group s fs) as [g rest].
  destruct IH as [-> Hg]. split; [done|]. constructor; [blia|done].
Qed.

Lemma send_groups_legible fuel fs :
  (length fs <= fuel)%nat -> zlen fs < 2 ^ 48 -> Forall (sendable m) fs ->
  let '(ds, r) := send_groups fuel fs in r = Ok tt /\ Forall (legible m) ds /\ delivers ds fs.
Proof.
  revert fs. induction fuel as [|fuel IH]; intros fs Hf Hl Hs.
  { destruct fs; [|simpl in Hf; lia]. split; [done|]. split; [constructor|]. exists []. by split. }
  destruct fs as [|f fs]; cbn [send_groups]; [split; [done|]; split; [constructor|]; by exists []|].
  pose proof (take_group_spec (Frame.sequence_number f) fs) as Hg.
  destruct (take_group (Frame.sequence_number f) fs) as [g rest]. destruct Hg as [-> Hg].
  rewrite app_comm_cons in Hs. apply Forall_app in Hs as [Hs1 Hs2].
  simpl in Hf, Hl. rewrite length_app in Hf, Hl.
  destruct (datagram_legible m f g Hs1 Hg) as (-> & Hleg & Hd); [lia|].
  specialize (IH rest ltac:(lia) ltac:(lia) Hs2). destruct (send_groups fuel rest) as [ds r].
  destruct IH as (-> & Hds & groups & <- & Hgs). split; [done|]. split; [by constructor|].
  exists ((f :: g) :: groups). split; [done|]. by constructor.
Qed.

Lemma send_frames_legible fuel sendmmsg fs :
  Forall (sendable m) fs -> Forall (legible m) (send_frames fuel sendmmsg fs).1.
Proof.
  revert sendmmsg fs. induction fuel as [|fuel IH]; intros sendmmsg fs Hs; simpl; [constructor|].
  destruct fs as [|f fs]; [constructor|]. unfold send_ready.
  pose proof (send_each_legible (take BATCH (f :: fs)) (Forall_take _ _ _ Hs)) as Hn.
  destruct (send_each frame_datagram _) as [ds r]. destruct Hn as (-> & Hn & _).
  destruct (sendmmsg 0%nat) as [[|k]|]; [constructor| |constructor].
  specialize (IH (fun n => sendmmsg (S n)) (drop (S k) (f :: fs)) (Forall_drop _ _ _ Hs)).
  destruct (send_frames fuel _ _) as [sent r]. apply Forall_app. split; [by apply Forall_take|done].
Qed.

Lemma transmit_frames_legible batched out :
  Forall (sendable m) (frames out) -> zlen (frames out) < 2 ^ 48 ->
  (transmit_frames batched out).2 = Ok tt /\ Forall (legible m) (transmit_frames batched out).1.
Proof.
  intros Hs Hl. unfold transmit_frames. rewrite send_each_serialize. change send_frame with frame_datagram.
  pose proof (send_each_legible _ Hs) as He.
  case_if; [by destruct (send_each frame_datagram (frames out)) as [ds r]; destruct He as (-> & ? & _)|].
  destruct (coalesced out).
  { pose proof (send_groups_legible _ _ (le_n _) Hl Hs) as Hg.
    by destruct (send_groups (length (frames out)) (frames out)) as [ds r]; destruct Hg as (-> & ? & _). }
  destruct batched as [sendmmsg|]; [split; [done|by apply send_frames_legible]|].
  by destruct (send_each frame_datagram (frames out)) as [ds r]; destruct He as (-> & ? & _).
Qed.

Lemma transmit_replies_legible batched out bulk :
  Forall (sendable m) (frames out) -> zlen (frames out) < 2 ^ 48 ->
  Forall (legible m) (transmit_replies batched out bulk).1.1.
Proof.
  intros Hs Hl. unfold transmit_replies. repeat case_if; [by apply transmit_frames_legible..|].
  rewrite send_each_serialize. pose proof (send_each_legible _ Hs) as He.
  destruct (send_each frame_datagram (frames out)) as [ds r]. by destruct He as (_ & ? & _).
Qed.

Lemma transmit_maintenance_legible `{!Features} batched out :
  Forall (sendable m) (frames out) -> zlen (frames out) < 2 ^ 48 ->
  Forall (legible m) (transmit_maintenance_frames batched out).
Proof.
  intros Hs Hl. unfold transmit_maintenance_frames. case_if; [by apply transmit_frames_legible|].
  unfold send_singly. clear Hl. induction Hs as [|f fs Hf _ IH]; [constructor|]. cbn [omap list_omap].
  change (send_frame f) with (frame_datagram f). destruct (frame_datagram_legible f Hf) as (-> & Hleg & _).
  by constructor.
Qed.

Lemma disconnect_legible : Forall (legible m) disconnect_datagrams.
Proof. unfold disconnect_datagrams. repeat constructor; intros f; vm_compute; discriminate. Qed.

Lemma control_legible kind l :
  kind = PacketID.Ack \/ kind = PacketID.Nack -> zlen l < 2 ^ 16 -> Forall range_wf l ->
  legible m (control_bytes kind l).
Proof.
  intros Hk Hl Hw. split.
  - destruct Hk as [-> | ->]; unfold understood, control_bytes.
    + pose proof (reads_control PacketID.Ack l mk_Ack Hl Hw) as Hr. simpl. unfold read_packet_ack.
      unfold control_bytes in Hr. simpl in Hr. by rewrite Hr.
    + pose proof (reads_control PacketID.Nack l mk_Nack Hl Hw) as Hr. simpl. unfold read_packet_nack.
      unfold control_bytes in Hr. simpl in Hr. by rewrite Hr.
  - intros f. unfold FrameVec.decode_into, FrameVec.decode. set (bs := control_bytes kind l).
    assert (bs = [PacketID.to_u8 kind] ++ drop 1 bs /\ zlen bs < 2 ^ 64) as [E Hbs].
    { split; [done|]. pose proof (records_length l). unfold bs, control_bytes.
      rewrite !length_app, to_bytes_length. simpl. lia. }
    clearbody bs.
    assert (in_range 8 (PacketID.to_u8 kind) /\
      negb ((128 <=? PacketID.to_u8 kind) && (PacketID.to_u8 kind <=? 141)) = true) as [Hr Hn]
      by (destruct Hk as [-> | ->]; (split; [unfold in_range; simpl; lia|done])).
    assert (RaknetReader.read_u8 (RaknetReader.new bs)
      = (Ok (PacketID.to_u8 kind), RaknetReader.mk (drop 1 bs) (0 + zlen [PacketID.to_u8 kind]))) as Hread.
    { unfold RaknetReader.new. rewrite E at 1. apply reads_u8; [done|lia|]. rewrite <- E. lia. }
    erewrite SE_bind_ok by exact Hread. rewrite Hn. discriminate.
Qed.
End Transmissions.

(** ** The ranges a connection reports *)

Record ackset_ok (a : ACKSet) : Prop := {
  ok_ack : Forall range_wf (ack a);
  ok_nack : Forall range_wf (nack a);
  ok_expected : in_range 24 (next_expected a);
}.

Lemma retain_nack_wf s l sp :
  Forall range_wf l -> Forall range_wf (option_list sp) ->
  Forall range_wf (retain_nack s l sp).1 /\ Forall range_wf (option_list (retain_nack s l sp).2).
Proof.
  intros Hl. revert sp. induction Hl as [|[a b] l [Ha Hb] Hl IH]; intros sp Hsp; cbn [retain_nack]; [done|].
  cbn [fst snd] in *.
  assert (forall lo hi sp', 0 <= lo <= hi /\ hi < 2 ^ 24 -> Forall range_wf (option_list sp') ->
    let '(kept, split) := retain_nack s l sp' in
    Forall range_wf ((lo, hi) :: kept) /\ Forall range_wf (option_list split)) as Hcons.
  { intros lo hi sp' Hr Hs. specialize (IH sp' Hs). destruct (retain_nack s l sp'). destruct IH.
    split; [by constructor|done]. }
  destruct ((s <? a) || (b <? s)) eqn:E1; [|destruct (a =? b) eqn:E2; [by apply IH|destruct (s =? a) eqn:E3;
    [|destruct (s =? b) eqn:E4]]].
  - specialize (Hcons a b sp ltac:(lia) Hsp). by destruct (retain_nack s l sp).
  - specialize (Hcons (a + 1) b sp ltac:(blia) Hsp). by destruct (retain_nack s l sp).
  - specialize (Hcons a (b - 1) sp ltac:(blia) Hsp). by destruct (retain_nack s l sp).
  - specialize (Hcons a (s - 1) (Some (s + 1, b)) ltac:(blia)).
    destruct (retain_nack s l (Some (s + 1, b))). apply Hcons. repeat constructor; simpl; blia.
Qed.

Lemma gap_ranges_wf e s : in_range 24 e -> in_range 24 s -> Forall range_wf (gap_ranges e s).
Proof.
  unfold in_range. intros He Hs. unfold gap_ranges, MASK. repeat case_if; repeat constructor; simpl; blia.
Qed.

Lemma insert_ack_wf s l : in_range 24 s -> Forall range_wf l -> Forall range_wf (insert_ack s l).
Proof.
  unfold in_range. intros Hs. induction 1 as [|[a b] l [Ha Hb] Hl IH]; cbn [insert_ack].
  { repeat constructor; simpl; lia. }
  cbn [fst snd] in *. repeat case_if; constructor; try done; split; simpl; blia.
Qed.

Lemma insert_ackset_ok s a : in_range 24 s -> ackset_ok a -> ackset_ok (insert_ackset s a).
Proof.
  intros Hs [H1 H2 H3]. rewrite insert_ackset_eq. split; simpl.
  - by apply insert_ack_wf.
  - unfold nack_after. pose proof (retain_nack_wf s (nack a) None H2 ltac:(constructor)) as Hr.
    destruct (retain_nack s (nack a) None) as [kept sp]. destruct Hr. simpl in *.
    apply Forall_app. split; [by apply Forall_app|]. case_if; [by apply gap_ranges_wf|constructor].
  - case_if; [apply next_in_range|done].
Qed.

Abbreviation tracked q := (sequence_number_ackset q).

Lemma insert_tracked_ok now f q :
  in_range 24 (Frame.sequence_number f) -> ackset_ok (tracked q) -> ackset_ok (tracked (RecvQ.insert now f q).2).
Proof.
  intros Hf Hq. destruct (reliability f) as [r|e] eqn:E.
  - rewrite (insert_tracks now f q r E). by apply insert_ackset_ok.
  - unfold RecvQ.insert. rewrite E. done.
Qed.

Lemma receive_tracked_ok arrivals ready q :
  Forall (fun a => in_range 24 (Frame.sequence_number a.2)) arrivals -> ackset_ok (tracked q) ->
  ackset_ok (tracked (receive arrivals ready q).2).
Proof.
  intros Ha. revert ready q. induction Ha as [|[now f] arrivals Hf _ IH]; intros ready q Hq; [done|].
  cbn [receive]. pose proof (insert_tracked_ok now f q Hf Hq) as Hi. destruct (RecvQ.insert now f q) as [[] q1]; [|done].
  destruct (flush_into ready q1) as [ready' q2] eqn:Ef. apply IH. unfold flush_into in Ef.
  revert Ef. case_if; intros [= <- <-]; exact Hi.
Qed.

(** ** The connection *)

Section Connections.
Context {feat : Features} {usort : UnstableSort} `{Mpsc chan}.
Context (peer_addr local_addr : SocketAddr).
Context (m : Z) (Hpath : path_mtu m).
Implicit Types (self : Connection chan) (t : Turn) (e : event) (q : SendQ).

(** *** The send queue under its lock *)

Definition queue_ok q : Prop := wire_inv q /\ SendQ.mtu q = m.

Definition output_ok (out : OutgoingFrames) : Prop :=
  Forall (sendable m) (frames out) /\ zlen (frames out) < 2 ^ 48.

(** A critical section that may return frames to transmit. *)
Definition locked_ok (section : SE SendQ (option OutgoingFrames)) : Prop :=
  forall q, queue_ok q -> queue_ok (section q).2 /\
    forall out, (section q).1 = Ok (Some out) -> output_ok out.

Lemma insert_queue_ok r buf channel owned :
  in_range 8 channel -> preserves queue_ok (SendQ.insert_payload r buf channel owned).
Proof.
  intros Hc q [Hw Em]. split; [apply insert_payload_wire; [done|done|by rewrite Em]|].
  by rewrite insert_payload_mtu by apply Hw.
Qed.

Lemma flush_queue_ok now q :
  queue_ok q -> queue_ok (SendQ.flush now q).2 /\ output_ok (SendQ.flush now q).1.
Proof.
  intros [Hw Em]. destruct (flush_wire now q Hw) as [Hw' Hs].
  pose proof (sends_mtu _ _ _ _ (flush_sends now q (wire_accounted _ Hw))) as Em'.
  split; [split; [done|congruence]|]. rewrite Em in Hs. split; [done|]. apply flush_length, Hw.
Qed.

Lemma locked_bind {A} (x : SE SendQ A) (k : A -> SE SendQ (option OutgoingFrames)) :
  preserves queue_ok x -> (forall a, locked_ok (k a)) -> locked_ok (x ≫= k).
Proof.
  intros Hx Hk q Hq. specialize (Hx q Hq). unfold mbind, SE_bind.
  destruct (x q) as [[a|e] q1]; [by apply Hk|done].
Qed.

Lemma locked_none : locked_ok (mret None).
Proof. by intros q Hq. Qed.

Lemma locked_flush now : locked_ok (flush_frames now).
Proof.
  intros q Hq. unfold flush_frames. destruct (flush_queue_ok now q Hq) as [Hq' Ho].
  destruct (SendQ.flush now q). split; [done|]. by intros out [= <-].
Qed.

Lemma send_payload_locked_ok r buf channel owned now :
  in_range 8 channel -> locked_ok (send_payload_locked r buf channel owned now).
Proof.
  intros Hc. unfold send_payload_locked.
  apply locked_bind; [auto with preserves|]. intros q. apply locked_bind; [auto with preserves|]. intros capacity.
  destruct capacity; [|apply locked_none]. apply locked_bind; [|intros _; apply locked_flush].
  destruct owned; by apply insert_queue_ok.
Qed.

Lemma insert_messages_wire_ok r messages channel owned :
  in_range 8 channel -> preserves queue_ok (insert_messages r messages channel owned).
Proof.
  intros Hc. induction messages as [|message messages IH]; cbn [insert_messages]; [auto with preserves|].
  apply preserves_bind; [by apply insert_queue_ok|done].
Qed.

Lemma send_batch_locked_ok borrowed owned r channel now :
  in_range 8 channel -> locked_ok (send_batch_locked borrowed owned r channel now).
Proof.
  intros Hc. unfold send_batch_locked.
  apply locked_bind; [auto with preserves|]. intros q. apply locked_bind; [auto with preserves|]. intros capacity.
  destruct capacity; [|apply locked_none]. apply locked_bind.
  { case_if; [apply preserves_modify|auto with preserves]. intros q' [? ?]. split; [by apply enable_coalescing_wire|done]. }
  intros _. do 2 (apply locked_bind; [by apply insert_messages_wire_ok|]; intros _). apply locked_flush.
Qed.

(** *** The invariant *)

Record wire_ok self : Prop := {
  wo_queue : queue_ok (sendq self);
  wo_tracked : ackset_ok (tracked (recvq self));
  wo_acks : Forall range_wf (acks self);
  wo_wire : Forall (legible m) (wire self);
}.

(** A change of other fields. *)
Ltac same := match goal with H : wire_ok _ |- wire_ok _ => destruct H; split; (assumption || done) end.

Lemma push_wire_ok ds self : Forall (legible m) ds -> wire_ok self -> wire_ok (push_wire ds self).
Proof. intros Hd []. split; try done. by apply Forall_app. Qed.

Lemma with_sendq_ok {A} (x : SE SendQ A) self :
  preserves queue_ok x -> wire_ok self -> wire_ok (with_sendq x self).2.
Proof.
  intros Hx [Hq ? ? ?]. unfold with_sendq. specialize (Hx _ Hq). destruct (x (sendq self)). by split.
Qed.

Lemma flush_sendq_ok now wake self :
  wire_ok self -> wire_ok (flush_sendq now wake self).2 /\ output_ok (flush_sendq now wake self).1.
Proof.
  intros [Hq ? ? ?]. unfold flush_sendq. destruct (flush_queue_ok now _ Hq) as [Hq' Ho].
  destruct (SendQ.flush now (sendq self)). split; [by split|done].
Qed.

Lemma control_pushed_ok kind l self :
  kind = PacketID.Ack \/ kind = PacketID.Nack -> Forall range_wf l -> wire_ok self ->
  wire_ok match write_control_ranges_into kind l [] with
          | (Ok _, packet) => push_wire [packet] self
          | (Err _, _) => self
          end.
Proof.
  intros Hk Hl Hs. destruct (decide (zlen l < 2 ^ 16)) as [Hn|Hn].
  - rewrite write_control_ranges_into_ok by done. apply push_wire_ok; [|done].
    constructor; [by apply control_legible|constructor].
  - unfold write_control_ranges_into, fail_if. by rewrite (proj2 (Z.leb_le _ _)) by lia.
Qed.

Lemma send_ack_ranges_ok l self : Forall range_wf l -> wire_ok self -> wire_ok (send_ack_ranges l self).
Proof. intros Hl Hs. unfold send_ack_ranges. destruct l; [done|]. apply control_pushed_ok; auto. Qed.

Lemma flush_acks_ok t self : wire_ok self -> wire_ok (flush_acks t self).
Proof.
  intros Hs. unfold flush_acks. case_if; [|done]. unfold take_acks. simpl.
  pose proof Hs as [Hq [Ha Hn He] Hac Hw].
  set (s1 := self <| recvq := _ |> <| acks := _ |>).
  assert (wire_ok (send_ack_ranges (ack (tracked (recvq self))) s1)) as H1.
  { apply send_ack_ranges_ok; [done|]. by split. }
  same.
Qed.

Lemma send_nacks_ok self : wire_ok self -> wire_ok (send_nacks self).
Proof.
  intros Hs. unfold send_nacks, take_nacks. simpl. pose proof Hs as [Hq [Ha Hn He] Hac Hw].
  set (s1 := self <| recvq := _ |>). assert (wire_ok s1) as H1 by by split.
  clearbody s1. destruct (nack (tracked (recvq self))) as [|r l]; [done|]. apply control_pushed_ok; auto.
Qed.

Lemma on_feedback_ok t update self :
  (forall now q, queue_ok q -> queue_ok (update now q)) -> wire_ok self -> wire_ok (on_feedback t update self).
Proof.
  intros Hu Hs. unfold on_feedback. set (s1 := self <| sendq := _ |>).
  assert (wire_ok s1) as H1 by (destruct Hs; split; try done; by apply Hu). clearbody s1.
  destruct (flush_sendq_ok (if recovery_policy then clock t 2 else clock t 1) true s1 H1) as [H2 [Ho Hl]].
  destruct (flush_sendq _ true s1) as [out s2]. simpl in *.
  pose proof (transmit_replies_legible m (batched_sends t) out (bulk_sender s2) Ho Hl) as Hd.
  destruct (transmit_replies _ _ _) as [[d r] bulk]. apply push_wire_ok; [done|]. same.
Qed.

Lemma transmit_sent_ok udp batched out self :
  output_ok out -> wire_ok self -> wire_ok (transmit_sent udp batched out self).2.
Proof.
  intros [Ho Hl] Hs. unfold transmit_sent. set (s1 := self <| maintenance := _ |> <| maintenance := _ |>).
  assert (wire_ok s1) as H1 by same. clearbody s1. case_if; [done|].
  destruct (transmit_frames_legible m batched out Ho Hl) as [_ Hd]. destruct (transmit_frames batched out).
  by apply push_wire_ok.
Qed.

(** A locked section whose frames are transmitted. *)
Lemma locked_sent_ok section udp batched self :
  locked_ok section -> wire_ok self ->
  wire_ok match with_sendq section self with
          | (Err e, self) => (Some (Err e), self)
          | (Ok None, self) => (None, self)
          | (Ok (Some out), self) => let '(r, self) := transmit_sent udp batched out self in (Some r, self)
          end.2.
Proof.
  intros Hl Hs. destruct (Hl _ (wo_queue _ Hs)) as [Hq Ho]. unfold with_sendq.
  assert (wire_ok (self <| sendq := (section (sendq self)).2 |>)) as H1 by (destruct Hs; by split).
  destruct (section (sendq self)) as [[[out|]|e] q]; [|done..]. simpl in *.
  pose proof (transmit_sent_ok udp batched out _ (Ho out eq_refl) H1) as H2.
  by destruct (transmit_sent udp batched out _).
Qed.

Lemma send_payload_ok buf r channel owned udp batched now self :
  in_range 8 channel -> wire_ok self -> wire_ok (send_payload buf r channel owned udp batched now self).2.
Proof.
  intros Hc Hs. unfold send_payload. destruct buf as [|id buf]; [done|]. case_if; [done|].
  destruct (wait_for_handshake self) as [[]|]; [|done..]. apply locked_sent_ok; [by apply send_payload_locked_ok|done].
Qed.

Lemma send_together_ok borrowed owned r channel udp batched now self :
  in_range 8 channel -> wire_ok self -> wire_ok (send_together borrowed owned r channel udp batched now self).2.
Proof.
  intros Hc Hs. unfold send_together. destruct (wait_for_handshake self) as [[]|]; [|done..].
  apply locked_sent_ok; [by apply send_batch_locked_ok|done].
Qed.

Lemma close_ok self : wire_ok self -> wire_ok (close self).2.
Proof.
  intros Hs. unfold close. case_if; [done|].
  assert (preserves queue_ok (SendQ.insert Reliability.Reliable [PacketID.to_u8 PacketID.Disconnect])) as Hp
    by (apply insert_queue_ok; unfold in_range; lia).
  apply (with_sendq_ok _ self Hp) in Hs. destruct (with_sendq _ self) as [[] s1]; [|done]. simpl in *. same.
Qed.

(** *** The tasks *)

Lemma tick_turn_ok t self : wire_ok self -> wire_ok (tick_turn t self).
Proof.
  intros Hs. unfold tick_turn. case_if; [done|]. set (quiet' := enabled _ && _).
  set (s1 := if quiet' then _ else self). assert (wire_ok s1) as H1 by (unfold s1; case_if; same).
  clearbody s1. clear Hs. case_if; [same|]. apply send_nacks_ok in H1. set (s2 := send_nacks s1) in *. clearbody s2.
  destruct (flush_sendq_ok (clock t 2) false s2 H1) as [H3 [Ho Hl]]. destruct (flush_sendq _ false s2) as [out s3].
  simpl in H3, Ho, Hl. clear H1. set (now_idle := _ && _ && _). set (s4 := if now_idle then _ else _).
  assert (wire_ok s4) as H4 by (unfold s4; case_if; same). clearbody s4. clear H3.
  pose proof (transmit_maintenance_legible m (batched_sends t) out Ho Hl) as Hd.
  set (s5 := push_wire _ s4). assert (wire_ok s5) as H5 by (by apply push_wire_ok). clearbody s5. clear H4.
  repeat case_if; [same| |done].
  pose proof (push_wire_ok disconnect_datagrams s5 (disconnect_legible m) H5) as H6. clear H5. same.
Qed.

Lemma deliver_game_ok message self : wire_ok self -> wire_ok (deliver_game message self).2.
Proof.
  intros Hs. unfold deliver_game. destruct (pending_data self); [|same].
  destruct (try_send message (user_data self)) as [[] c]; same.
Qed.

Lemma handle_ok t w f self : wire_ok self -> wire_ok (handle peer_addr local_addr t w f self).2.
Proof.
  intros Hs.
  assert (forall r buf, preserves queue_ok (SendQ.insert r buf)) as Hi
    by (intros r buf; apply insert_queue_ok; unfold in_range; lia).
  unfold handle. destruct (FramePayload.deref (data f)) as [|id bytes]; [done|].
  destruct (PacketID.from id) as [[]|]; try done;
    try (match goal with |- context [with_sendq ?x self] =>
      assert (preserves queue_ok x) as Hx by (repeat first [apply Hi | apply preserves_bind; [solve [auto with preserves]|intros ?]]);
      apply (with_sendq_ok x self Hx) in Hs; destruct (with_sendq x self) end; exact Hs);
    destruct (try_send _ (user_data self)) as [[] c]; first [done|same].
Qed.

Lemma after_handle_ok t k r self : wire_ok self -> wire_ok (after_handle t k r self).2.
Proof.
  intros Hs. unfold after_handle. destruct r as [action|]; [|done].
  destruct (flush_sendq_ok (clock t k) true self Hs) as [H1 [Ho Hl]].
  destruct (transmit_frames_legible m (batched_sends t) (flush_sendq (clock t k) true self).1 Ho Hl) as [_ Hd].
  destruct action; [| |same];
    (destruct (flush_sendq _ true self) as [out s1]; simpl in H1, Ho, Hl, Hd; clear Hs;
     destruct (transmit_frames _ out) as [ds r]; simpl in Hd;
     set (s2 := match frames out with [] => s1 | _ => _ end);
     assert (wire_ok s2) as H2 by (unfold s2; destruct (frames out); same);
     apply (push_wire_ok ds) in H2; [|done]; set (s3 := push_wire ds s2) in *; clearbody s3; clear H1 s2;
     destruct r as [|e]; simpl; [same|case_if; simpl; same]).
Qed.

Lemma on_ready_ok t k f self : wire_ok self -> wire_ok (on_ready peer_addr local_addr t k f self).2.
Proof.
  intros Hs. unfold on_ready. case_if; [by apply deliver_game_ok|]. case_if; [done|].
  pose proof (handle_ok t (2 * k) f self Hs) as Hh. destruct (handle _ _ t _ f self) as [[r|] s1]; [|done].
  by apply after_handle_ok.
Qed.

Lemma process_ready_ok t k fs self : wire_ok self -> wire_ok (process_ready peer_addr local_addr t k fs self).
Proof.
  assert (forall (should_close : bool) self, wire_ok self ->
    wire_ok (let s1 := send_ack_ranges (acks self) (self <| ready_frames := [] |> <| blocked := false |>) in
      if should_close then end_receiver s1 else s1)) as Hfinish.
  { intros should_close s Hs. cbv zeta. pose proof (wo_acks _ Hs) as Ha.
    set (s1 := s <| ready_frames := _ |> <| blocked := _ |>). assert (wire_ok s1) as H1 by same.
    pose proof (send_ack_ranges_ok (acks s) s1 Ha H1) as H2. clear Hs H1. case_if; [same|done]. }
  revert k self. induction fs as [|f fs IH]; intros k self Hs; cbn [process_ready]; [by apply (Hfinish false)|].
  pose proof (on_ready_ok t k f self Hs) as H1. destruct (on_ready _ _ t k f self) as [p s1]. simpl in H1. clear Hs.
  destruct p; [by apply IH|by apply Hfinish|same].
Qed.

Lemma on_frame_set_ok t buf self :
  Forall (in_range 8) buf -> zlen buf < 2 ^ 64 -> wire_ok self ->
  wire_ok (on_frame_set peer_addr local_addr t buf self).
Proof.
  intros Hbuf Hlen Hs. unfold on_frame_set. case_if; [done|].
  destruct (decode_input (owned_input t) buf) as [fs|] eqn:Ed; [|done].
  destruct (decode_input_frames _ _ _ Hbuf Hlen Ed) as (s & f & rest & _ & Hs24 & Hall).
  set (s1 := if received_since_ack self =? 0 then _ else self).
  assert (wire_ok s1) as H1 by (unfold s1; case_if; same). clearbody s1. clear Hs.
  assert (Forall (fun a => in_range 24 (Frame.sequence_number a.2))
    (imap (fun i frame => (clock t (1 + i), frame)) fs)) as Har.
  { apply list.Forall_forall. intros [now g] Hin. apply elem_of_lookup_imap_1 in Hin as (i & y & [= -> ->] & Hy).
    simpl. destruct (proj1 (list.Forall_forall _ _) Hall y (list_elem_of_lookup_2 _ _ _ Hy)) as [-> _]. done. }
  pose proof (receive_tracked_ok _ [] (recvq s1) Har (wo_tracked _ H1)) as Htr.
  destruct (receive _ [] (recvq s1)) as [[invalid ready] q]. simpl in Htr.
  set (s2 := s1 <| recvq := q |>). assert (wire_ok s2) as H2 by (destruct H1; by split). clearbody s2. clear H1.
  set (s3 := if drained_after t || _ then _ else _).
  assert (wire_ok s3) as H3.
  { unfold s3. pose proof H2 as [? [? ? ?] ? ?]. case_if; simpl; by split. }
  clearbody s3. clear H2. set (s4 := if needs_maintenance (recvq s3) then _ else s3).
  assert (wire_ok s4) as H4 by (unfold s4; case_if; same). clearbody s4. clear H3.
  destruct invalid; [same|by apply process_ready_ok].
Qed.

Lemma on_packet_ok t buf self :
  Forall (in_range 8) buf -> zlen buf < 2 ^ 64 -> wire_ok self ->
  wire_ok (on_packet peer_addr local_addr t buf self).
Proof.
  intros Hbuf Hlen Hs. unfold on_packet. destruct buf as [|id buf]; [done|].
  set (s1 := if negb (received_since_ack self =? 0) then _ else self).
  assert (wire_ok s1) as H1 by (unfold s1; case_if; same). clearbody s1. clear Hs.
  set (s2 := s1 <| last_heartbeat_time := _ |>). assert (wire_ok s2) as H2 by same. clearbody s2. clear H1.
  destruct (PacketID.from id) as [[]|]; try done.
  - same.
  - by apply on_frame_set_ok.
  - destruct (read_packet_nack _); [|done]. apply on_feedback_ok; [|done].
    intros now q [Hw Em]. split; [by apply nack_ranges_wire|]. by rewrite (keeps_mtu _ _ (nack_ranges_keeps _ _ _)).
  - destruct (read_packet_ack _); [|done]. apply on_feedback_ok; [|done].
    intros now q [Hw Em]. split; [by apply ack_ranges_wire|]. by rewrite ack_ranges_mtu.
Qed.

(** Datagrams are bytes, and so is the channel a caller names. *)
Definition call_ok e : Prop :=
  event_ok e /\
  match e with
  | Send _ _ channel _ _ _ _ | SendTogether _ _ _ channel _ _ _ => in_range 8 channel
  | _ => True
  end.

Lemma on_input_ok t input self :
  event_ok (Receiver t input) -> wire_ok self -> wire_ok (on_input peer_addr local_addr t input self).
Proof. intros He Hs. destruct input; simpl; [destruct He; by apply on_packet_ok|same|done]. Qed.

Lemma receiver_turn_ok t input self :
  event_ok (Receiver t input) -> wire_ok self -> wire_ok (receiver_turn peer_addr local_addr t input self).
Proof.
  intros He Hs. unfold receiver_turn. case_if; [done|]. case_if; [by apply process_ready_ok|].
  apply (flush_acks_ok t) in Hs. set (s1 := flush_acks t self) in *. clearbody s1. cbv zeta.
  destruct (pending_data s1) as [|message rest].
  - case_if; [same|by apply on_input_ok].
  - case_if; [same|]. destruct (try_reserve (user_data s1)) as [[] c]; [same| |same].
    apply on_input_ok; [done|same].
Qed.

Lemma step_ok e self : call_ok e -> wire_ok self -> wire_ok (step peer_addr local_addr e self).2.
Proof.
  intros [He Hc] Hs. destruct e as [t input|t| |? ? ? ? ? ? ?|? ? ? ? ? ? ?| |en|opts now|opts]; cbn [step snd].
  - by apply receiver_turn_ok.
  - by apply tick_turn_ok.
  - unfold recv. destruct (try_recv (user_data self)) as [[] c]; simpl; [same|]. repeat case_match; same.
  - by apply send_payload_ok.
  - by apply send_together_ok.
  - by apply close_ok.
  - unfold set_idle_maintenance. same.
  - destruct recovery_policy; [|done]. unfold set_recovery_options. case_if; [done|]. cbn [snd].
    destruct Hs as [[Hw Em] ? ? ?]. split; try done. split; [by apply set_recovery_options_wire|done].
  - destruct send_policy eqn:Ep; [|done]. unfold set_send_options. case_if; [done|].
    assert (preserves queue_ok (_ ← SendQ.set_send_options opts; modify SendQ.register_capacity_notifier)) as Hp.
    { apply preserves_bind; [|intros _; apply preserves_modify]; intros q [Hw Em].
      - split; [by apply set_send_options_wire|].
        destruct (set_send_options_inv opts q Ep (wire_accounted _ Hw)) as (_ & _ & ->). done.
      - split; [by apply register_wire|]. by destruct (register_inv q (wire_accounted _ Hw)) as (_ & _ & ->). }
    apply (with_sendq_ok _ self Hp) in Hs. destruct (with_sendq _ self) as [[] s1]; [|done]. simpl in *. same.
Qed.

Lemma run_ok events self :
  Forall call_ok events -> wire_ok self -> wire_ok (run peer_addr local_addr events self).2.
Proof.
  intros He. revert self. induction He as [|e events He _ IH]; intros self Hs; [done|].
  cbn [run]. apply (step_ok e) in Hs; [|done]. destruct (step _ _ e self) as [given s1]. simpl in Hs.
  specialize (IH s1 Hs). by destruct (run _ _ events s1) as [[given' fs'] s2].
Qed.

Lemma new_connection_ok now : wire_ok (new_connection m now).
Proof.
  split; [split; [apply new_wire|done]|split; [constructor|constructor|unfold in_range; simpl; lia]|constructor|constructor].
Qed.

Lemma connected_socket_ok guid now timestamp flushed batched self :
  connected_socket guid m now timestamp flushed batched = Ok self -> wire_ok self.
Proof.
  unfold connected_socket. destruct (write_packet_connection_request _) as [buf|]; [|discriminate]. simpl.
  pose proof (insert_queue_ok Reliability.ReliableOrdered buf 0 false) as Hi.
  specialize (Hi ltac:(unfold in_range; lia) _ (wo_queue _ (new_connection_ok now))).
  change (SendQ.insert Reliability.ReliableOrdered buf) with (SendQ.insert_payload Reliability.ReliableOrdered buf 0 false).
  simpl in Hi. destruct (SendQ.insert_payload _ buf 0 false _) as [[] q]; [|discriminate]. simpl in Hi.
  set (s1 := new_connection m now <| sendq := q |>).
  assert (wire_ok s1) as H1 by (destruct (new_connection_ok now); by split). clearbody s1.
  destruct (flush_sendq_ok flushed true s1 H1) as [H2 [Ho Hl]]. destruct (flush_sendq flushed true s1) as [out s2].
  simpl in *. destruct (transmit_frames_legible m batched out Ho Hl) as [Hr Hd].
  destruct (transmit_frames batched out) as [ds r]. simpl in *. subst r. intros [= <-]. by apply push_wire_ok.
Qed.

(** A connection as the listener hands it out, or as [connect] returns it. *)
Definition starts self : Prop :=
  (exists now, self = new_connection m now) \/
  (exists guid now timestamp flushed batched, connected_socket guid m now timestamp flushed batched = Ok self).

Lemma starts_ok self : starts self -> wire_ok self.
Proof.
  intros [[now ->]|(guid & now & timestamp & flushed & batched & Hc)]; [apply new_connection_ok|].
  by eapply connected_socket_ok.
Qed.
End Connections.

Section Theorems.
Context {feat : Features} {usort : UnstableSort} `{Mpsc chan}.
Context (peer_addr local_addr : SocketAddr).

(** Whatever happens on a connection, every datagram it hands to the socket is legible. *)
Lemma run_legible mtu (start : Connection chan) events :
  path_mtu mtu -> starts mtu start -> Forall call_ok events ->
  Forall (legible mtu) (wire (run peer_addr local_addr events start).2).
Proof.
  intros Hm Hst He. by destruct (run_ok peer_addr local_addr mtu Hm events start He (starts_ok mtu Hm start Hst)).
Qed.

(** The operating system takes at least one datagram of each batch, and no more than there are. *)
Definition sends_ok (batched : Batching) : Prop :=
  match batched with
  | Some sendmmsg => forall n, exists k, sendmmsg n = inl (S k) /\ (S k <= BATCH)%nat
  | None => True
  end.

(** Frames that can be sent are all encoded, on every path, and decode to themselves. *)
Lemma transmit_delivers mtu batched (out : OutgoingFrames) :
  Forall (sendable mtu) (frames out) -> zlen (frames out) < 2 ^ 48 -> sends_ok batched ->
  exists ds, transmit_frames batched out = (ds, Ok tt) /\ delivers ds (frames out).
Proof.
  intros Ho Hl Hb. pose proof (send_each_legible mtu (frames out) Ho) as Hs.
  destruct (send_each frame_datagram (frames out)) as [ds r] eqn:E. destruct Hs as (-> & _ & Hd).
  unfold transmit_frames. rewrite send_each_serialize. change send_frame with frame_datagram. rewrite E.
  case_if; [by exists ds|]. destruct (coalesced out).
  { pose proof (send_groups_legible mtu _ _ (le_n _) Hl Ho) as Hg.
    destruct (send_groups (length (frames out)) (frames out)) as [ds' r]. destruct Hg as (-> & _ & Hd'). by exists ds'. }
  destruct batched as [sendmmsg|]; [|by exists ds]. exists ds.
  destruct (send_frames_sequential (length (frames out)) sendmmsg (frames out)) as [_ Hall]; [done| |].
  { intros n k Hk. destruct (Hb n) as (k' & Hk' & ?). rewrite Hk in Hk'. injection Hk' as ->. done. }
  rewrite Hall; [by rewrite E|intros n; destruct (Hb n) as (k & ? & _); by exists k|by rewrite E].
Qed.

(** C23: what is flushed is what the peer decodes. After any history of the send queue, the
    frames that a flush returns are all encoded, whichever of the transmission paths takes
    them (one by one, packed, or batched), and the peer's decoder gets out of the datagrams,
    in order, exactly those frames: their payloads, and the fields their modes carry. *)
Theorem flushed_frames_decode mtu events now batched :
  path_mtu mtu -> Forall channels_ok events -> sends_ok batched ->
  let out := (SendQ.flush now (SendQRun.run mtu events)).1 in
  exists ds, transmit_frames batched out = (ds, Ok tt) /\ delivers ds (frames out).
Proof.
  intros Hm He Hb out. destruct (run_wire mtu events Hm He) as [Hw Em].
  destruct (flush_queue_ok mtu now _ (conj Hw Em)) as [_ [Ho Hl]]. by apply (transmit_delivers mtu).
Qed.
End Theorems.

(** ** The theorems at work *)

Lemma flushed_frames_decode_witness :
  let out := (@SendQ.flush both_policies merge_sort_flight 0
    (@SendQRun.run both_policies merge_sort_flight 100 [Insert Reliability.ReliableOrdered sample_buf 3 true])).1 in
  length (frames out) = 2%nat /\
  exists ds, transmit_frames (Some (fun _ => inl 1%nat)) out = (ds, Ok tt) /\ delivers ds (frames out).
Proof.
  split; [vm_compute; reflexivity|].
  apply (@flushed_frames_decode both_policies merge_sort_flight 100 [Insert Reliability.ReliableOrdered sample_buf 3 true] 0
    (Some (fun _ => inl 1%nat))).
  - unfold path_mtu. lia.
  - apply Forall_cons_2; [simpl; unfold in_range; lia|apply Forall_nil_2].
  - intros n. exists 0%nat. split; [reflexivity|unfold BATCH; lia].
Defined.
