(* ===== verification/Api.v ===== *)
(** * The methods of a connection

    The futures of [RaknetSocket] in [src/src/socket.rs]: [send], [send_bytes], [send_batch]
    and their variants, suspended where the code awaits (the handshake, room in the queue,
    the UDP socket) and dropped at any of these points, and the receiving methods. [Socket]
    has the same calls without suspension. *)

From S2P Require Import Prelude Errors Sequence Datatype Packet PacketCodec Frame FrameCodec Fragment AckSet RecvQ SendOptions SendQ Sending Runtime Udp Server Connect Socket SocketRun.

(** ** Sending *)

(** A section that queues a message, or a batch whose messages share datagrams. *)
Inductive Job : Type :=
  | One (buf : list Z) (r : Reliability) (order_channel : Z) (owned : bool)
  | Many (borrowed owned : list (list Z)) (r : Reliability) (order_channel : Z).

Definition messages_of (j : Job) : list (list Z) :=
  match j with One buf _ _ _ => [buf] | Many borrowed owned _ _ => borrowed ++ owned end.

(** A call: not begun, before the section of its first job, in [transmit_frames] after it,
    or over. *)
Inductive SendFuture : Type :=
  | Plan (borrowed owned : list (list Z)) (r : Reliability) (order_channel : Z)
  | Queue (jobs : list Job)
  | Transmit (out : OutgoingFrames) (rest : list Job)
  | Done (r : Result unit).

Definition send_with_order_channel (buf : list Z) (r : Reliability) (order_channel : Z) : SendFuture :=
  Queue [One buf r order_channel false].

Definition send (buf : list Z) (r : Reliability) : SendFuture := send_with_order_channel buf r 0.

Definition send_bytes_with_order_channel (data : list Z) (r : Reliability) (order_channel : Z) : SendFuture :=
  Queue [One data r order_channel true].

Definition send_bytes (data : list Z) (r : Reliability) : SendFuture := send_bytes_with_order_channel data r 0.

Definition send_batch_with_order_channel (messages : list (list Z)) (r : Reliability) (order_channel : Z) : SendFuture :=
  Plan messages [] r order_channel.

Definition send_batch (messages : list (list Z)) (r : Reliability) : SendFuture :=
  send_batch_with_order_channel messages r 0.

Definition send_bytes_batch_with_order_channel (messages : list (list Z)) (r : Reliability) (order_channel : Z) : SendFuture :=
  Plan [] messages r order_channel.

Definition send_bytes_batch (messages : list (list Z)) (r : Reliability) : SendFuture :=
  send_bytes_batch_with_order_channel messages r 0.

(** What a step of a call finds: whether the UDP socket is there, how it sends, the clock. *)
Record Moment := mk_moment { udp : bool; batching : Batching; now : Z }.

Section Sending.
Context {feat : Features} {usort : UnstableSort} `{Mpsc chan}.
Implicit Types (self : Connection chan) (m : Moment) (j : Job).

(** What follows a section before the first [await]. *)
Definition published self : Connection chan :=
  self <| maintenance := leave_idle (publish (sendq self) true (maintenance self)) |>.

(** The section of a job: [None] when it waits for the handshake or for capacity. *)
Definition section (locked : SE SendQ (option OutgoingFrames)) self : option (Result OutgoingFrames) * Connection chan :=
  match wait_for_handshake self with
  | Some (Err e) => (Some (Err e), self)
  | None => (None, self)
  | Some (Ok _) =>
      match with_sendq locked self with
      | (Err e, self) => (Some (Err e), self)
      | (Ok None, self) => (None, self)
      | (Ok (Some out), self) => (Some (Ok out), published self)
      end
  end.

(** [send_payload], and the end of [send_batch_payload], up to [transmit_frames]. *)
Definition queue_job (now : Z) j self : option (Result OutgoingFrames) * Connection chan :=
  match j with
  | One buf r order_channel owned =>
      match buf with
      | [] => (Some (Err PacketHeaderError), self)
      | id :: _ =>
          if negb (id =? 0xfe) then (Some (Err PacketHeaderError), self)
          else section (send_payload_locked r buf order_channel owned now) self
      end
  | Many borrowed owned r order_channel => section (send_batch_locked borrowed owned r order_channel now) self
  end.

Definition transmit m (out : OutgoingFrames) self : Result unit * Connection chan :=
  if negb (udp m) then (Err ConnectionClosed, self)
  else let '(datagrams, r) := transmit_frames (batching m) out in (r, push_wire datagrams self).

(** The loops of [send_batch_payload] over the messages that go out individually. *)
Definition individually (borrowed owned : list (list Z)) (r : Reliability) (order_channel : Z) : list Job :=
  map (fun message => One message r order_channel false) borrowed
  ++ map (fun message => One message r order_channel true) owned.

(** [send_batch_payload] up to its first message. *)
Definition plan (borrowed owned : list (list Z)) (r : Reliability) (order_channel : Z) self : SendFuture :=
  match batch_plan (sendq self) borrowed owned r with
  | NothingToSend => Done (Ok tt)
  | Individually => Queue (individually borrowed owned r order_channel)
  | Together => Queue [Many borrowed owned r order_channel]
  | Rejected e => Done (Err e)
  end.

(** The next step of a call. *)
Definition poll m (call : SendFuture) self : SendFuture * Connection chan :=
  match call with
  | Plan borrowed owned r order_channel => (plan borrowed owned r order_channel self, self)
  | Queue [] => (Done (Ok tt), self)
  | Queue (j :: rest) =>
      match queue_job (now m) j self with
      | (None, self) => (call, self)
      | (Some (Err e), self) => (Done (Err e), self)
      | (Some (Ok out), self) => (Transmit out rest, self)
      end
  | Transmit out rest =>
      match transmit m out self with
      | (Err e, self) => (Done (Err e), self)
      | (Ok _, self) => (match rest with [] => Done (Ok tt) | _ => Queue rest end, self)
      end
  | Done r => (Done r, self)
  end.

Definition outcome (call : SendFuture) : option (Result unit) :=
  match call with Done r => Some r | _ => None end.

(** ** Receiving *)

Definition recv_bytes self : option (Result (list Z)) * Connection chan := Socket.recv self.

Definition recv_bytes_batch (limit : Z) self : option (Result (list (list Z))) * Connection chan := Socket.recv_batch limit self.

(** ** Connecting *)

(** What the network and the clocks give an attempt to connect: the rounds so far, the time
    the socket is created, the time in the connection request and the time of its flush. *)
Record Attempt := mk_attempt { rounds : list round; created : Z; requested : Z; flushed : Z; sending_by : Batching }.

(** [connect_with_version_and_mtu]: in its two rounds of requests, then waiting for the
    connected handshake of the socket it has made, which is the state. *)
Inductive ConnectFuture : Type := Negotiating | Handshaking | Connected (r : Result unit).

Definition connect_poll (addr : SocketAddr) (raknet_version mtu random : Z) (p : Attempt) (call : ConnectFuture)
    (socket : option (Connection chan)) : ConnectFuture * option (Connection chan) :=
  match call with
  | Negotiating =>
      match (negotiate addr raknet_version mtu random (rounds p)).2 with
      | None => (Negotiating, socket)
      | Some (Err e) => (Connected (Err e), socket)
      | Some (Ok mtu_size) =>
          match connected_socket (client_guid random) mtu_size (created p) (requested p) (flushed p) (sending_by p) with
          | Err e => (Connected (Err e), socket)
          | Ok self => (Handshaking, Some self)
          end
      end
  | Handshaking =>
      match socket ≫= wait_for_handshake with
      | None => (Handshaking, socket)
      | Some r => (Connected r, socket)
      end
  | Connected r => (Connected r, socket)
  end.

Definition connect_with_version (addr : SocketAddr) (raknet_version : Z) :=
  connect_poll addr raknet_version RAKNET_CLIENT_MTU.

Definition connect (addr : SocketAddr) := connect_with_version addr RAKNET_PROTOCOL_VERSION.

(** ** Calls among other events *)

Inductive act : Type := Other (e : event) | Step (m : Moment).

Context (peer_addr local_addr : SocketAddr).

Fixpoint drive (acts : list act) (call : SendFuture) self : SendFuture * Connection chan :=
  match acts with
  | [] => (call, self)
  | Other e :: acts => drive acts call (step peer_addr local_addr e self).2
  | Step m :: acts => let '(call, self) := poll m call self in drive acts call self
  end.

(** [takes acts jobs self self']: the other events of [acts], and in between the sections of
    [jobs], in order and each once, and transmissions lead from [self] to [self']. *)
Inductive takes : list act -> list Job -> Connection chan -> Connection chan -> Prop :=
  | takes_nil self : takes [] [] self self
  | takes_other e acts jobs self self' :
      takes acts jobs (step peer_addr local_addr e self).2 self' -> takes (Other e :: acts) jobs self self'
  | takes_waits m acts jobs self self' : takes acts jobs self self' -> takes (Step m :: acts) jobs self self'
  | takes_queues m j out acts jobs self self1 self' :
      queue_job (now m) j self = (Some (Ok out), self1) -> takes acts jobs self1 self' ->
      takes (Step m :: acts) (j :: jobs) self self'
  | takes_transmits m out acts jobs self self' :
      takes acts jobs (transmit m out self).2 self' -> takes (Step m :: acts) jobs self self'.
End Sending.

(** ** What calls take effect *)

Section Effects.
Context {feat : Features} {usort : UnstableSort} `{Mpsc chan}.
Context (peer_addr local_addr : SocketAddr).
Implicit Types (self : Connection chan) (m : Moment) (j : Job) (jobs : list Job).

Abbreviation drive := (drive peer_addr local_addr).
Abbreviation takes := (takes peer_addr local_addr).

(** A section that waits changes nothing. *)
Lemma section_waits locked self self' :
  (forall q q', locked q = (Ok None, q') -> q' = q) -> section locked self = (None, self') -> self' = self.
Proof.
  intros Hl. unfold section. destruct (wait_for_handshake self) as [[]|]; [|done|by intros [= <-]].
  unfold with_sendq. destruct (locked (sendq self)) as [[[out|]|e] q] eqn:E; [done| |done].
  intros [= <-]. rewrite (Hl _ _ E). by destruct self.
Qed.

Lemma job_waits now j self self' : queue_job now j self = (None, self') -> self' = self.
Proof.
  destruct j as [buf r ch owned|borrowed owned r ch]; simpl.
  - destruct buf as [|id buf]; [done|]. destruct (negb (id =? 0xfe)); [done|]. apply section_waits. intros q q' E.
    pose proof (send_payload_waits r (id :: buf) ch owned now q) as Hw. rewrite E in Hw. by apply Hw.
  - apply section_waits. intros q q' E.
    pose proof (send_batch_waits borrowed owned r ch now q) as Hw. rewrite E in Hw. by apply Hw.
Qed.

(** The calls of [Socket] are these, polled until they return or wait. *)
Lemma send_payload_polls buf r ch owned m self :
  Socket.send_payload buf r ch owned (udp m) (batching m) (now m) self =
  match queue_job (now m) (One buf r ch owned) self with
  | (Some (Ok out), self) => let '(r, self) := transmit m out self in (Some r, self)
  | (Some (Err e), self) => (Some (Err e), self)
  | (None, self) => (None, self)
  end.
Proof.
  unfold send_payload, queue_job, section. destruct buf as [|id buf]; [done|]. destruct (negb (id =? 0xfe)); [done|].
  destruct (wait_for_handshake self) as [[]|]; [|done..].
  destruct (with_sendq _ self) as [[[out|]|e] s]; [|done..].
  unfold transmit_sent, transmit. destruct (negb (udp m)); [done|]. by destruct (transmit_frames (batching m) out).
Qed.

(** No message overtakes the handshake. *)
Lemma queued_after_handshake now j self out self' :
  queue_job now j self = (Some (Ok out), self') -> closed self = false /\ handshake_complete self <> 0.
Proof.
  assert (forall locked, section locked self = (Some (Ok out), self') -> closed self = false /\ handshake_complete self <> 0) as Hs.
  { intros locked. unfold section, wait_for_handshake. destruct (closed self); [done|].
    destruct (handshake_complete self =? 0) eqn:E; [done|]. intros _. split; [done|]. by apply Z.eqb_neq. }
  destruct j as [buf r ch owned|borrowed owned r ch]; simpl; [|by apply Hs].
  destruct buf as [|id buf]; [done|]. destruct (negb (id =? 0xfe)); [done|by apply Hs].
Qed.

(** The jobs a call that has begun and not failed still has to queue. *)
Definition remaining (call : SendFuture) : option (list Job) :=
  match call with
  | Queue jobs => Some jobs
  | Transmit _ rest => Some rest
  | Done (Ok _) => Some []
  | _ => None
  end.

Lemma drive_failed acts e self : (drive acts (Done (Err e)) self).1 = Done (Err e).
Proof. revert self. induction acts as [|[e'|m] acts IH]; intros self; simpl; auto. Qed.

Lemma drive_takes acts call jobs self :
  remaining call = Some jobs -> (forall e, (drive acts call self).1 <> Done (Err e)) ->
  exists took rest, jobs = took ++ rest /\ takes acts took self (drive acts call self).2 /\
    ((drive acts call self).1 = Done (Ok tt) -> rest = []).
Proof.
  revert call jobs self. induction acts as [|[e|m] acts IH]; intros call jobs self Hr He; cbn [Api.drive] in *.
  - exists [], jobs. split; [done|]. split; [constructor|]. simpl. intros ->. by injection Hr as <-.
  - destruct (IH call jobs _ Hr He) as (took & rest & -> & Ht & Hd). exists took, rest. split; [done|]. split; [by constructor|done].
  - destruct call as [borrowed owned r ch|[|j js]|out js|[u|err]]; cbn [poll remaining] in *; try done; injection Hr as <-.
    + destruct (IH (Done (Ok tt)) [] self eq_refl He) as (took & rest & E & Ht & Hd).
      exists took, rest. split; [done|]. split; [by constructor|done].
    + destruct (queue_job (now m) j self) as [[[out|err]|] self1] eqn:E.
      * destruct (IH (Transmit out js) js self1 eq_refl He) as (took & rest & -> & Ht & Hd).
        exists (j :: took), rest. split; [done|]. split; [by eapply takes_queues|done].
      * by destruct (He err); rewrite drive_failed.
      * apply job_waits in E as ->. destruct (IH (Queue (j :: js)) (j :: js) self eq_refl He) as (took & rest & E & Ht & Hd).
        exists took, rest. split; [done|]. split; [by constructor|done].
    + pose proof (takes_transmits peer_addr local_addr m out acts) as Htr.
      destruct (transmit m out self) as [[u|err] self1] eqn:E; [|by destruct (He err); rewrite drive_failed].
      destruct (IH (match js with [] => Done (Ok tt) | _ => Queue js end) js self1) as (took & rest & -> & Ht & Hd);
        [by destruct js|done|].
      exists took, rest. split; [done|]. split; [|done]. apply Htr. by rewrite E.
    + destruct (IH (Done (Ok u)) [] self eq_refl He) as (took & rest & E & Ht & Hd).
      exists took, rest. split; [done|]. split; [by constructor|done].
Qed.

(** The messages a call is given. *)
Definition given (call : SendFuture) : list (list Z) :=
  match call with
  | Plan borrowed owned _ _ => borrowed ++ owned
  | Queue jobs => concat (map messages_of jobs)
  | _ => []
  end.

Definition begins (call : SendFuture) : Prop := match call with Plan _ _ _ _ | Queue _ => True | _ => False end.

Lemma individually_messages borrowed owned r ch :
  concat (map messages_of (individually borrowed owned r ch)) = borrowed ++ owned.
Proof.
  assert (forall l : list (list Z), concat (map (fun x => [x]) l) = l) as Hs
    by (induction l as [|x l IH]; [done|]; simpl; by rewrite IH).
  unfold individually. rewrite map_app, concat_app, !map_map. simpl. by rewrite !Hs.
Qed.

(** The plan keeps the messages. *)
Lemma plan_messages borrowed owned r ch self :
  (forall e, plan borrowed owned r ch self <> Done (Err e)) ->
  exists jobs, remaining (plan borrowed owned r ch self) = Some jobs /\ concat (map messages_of jobs) = borrowed ++ owned.
Proof.
  unfold plan, batch_plan. destruct (borrowed ++ owned) as [|a [|b l]] eqn:E.
  - by exists [].
  - intros _. eexists. split; [done|]. by rewrite individually_messages.
  - destruct (batch_check (sendq self) (a :: b :: l) r) as [[]|e]; intros He.
    + eexists. split; [done|]. simpl. by rewrite app_nil_r.
    + eexists. split; [done|]. by rewrite individually_messages.
    + by destruct (He e).
Qed.

Lemma prefix_messages took rest :
  concat (map messages_of took) `prefix_of` concat (map messages_of (took ++ rest)).
Proof. rewrite map_app, concat_app. by eexists. Qed.

(** What a call that has not failed has queued by any time: a prefix of its messages. *)
Lemma drive_given acts call self :
  begins call -> (forall e, (drive acts call self).1 <> Done (Err e)) ->
  exists took, takes acts took self (drive acts call self).2 /\
    concat (map messages_of took) `prefix_of` given call /\
    ((drive acts call self).1 = Done (Ok tt) -> concat (map messages_of took) = given call).
Proof.
  destruct call as [borrowed owned r ch|jobs| |]; try done; intros _ He; simpl.
  - revert self He. induction acts as [|[e|m] acts IH]; intros self He; cbn [Api.drive] in *.
    + exists []. split; [constructor|]. split; [by eexists|done].
    + destruct (IH _ He) as (took & Ht & Hp). exists took. split; [by constructor|done].
    + cbn [poll] in *. destruct (plan_messages borrowed owned r ch self) as (jobs & Hj & Em).
      { intros e E. rewrite E in He. by destruct (He e); rewrite drive_failed. }
      destruct (drive_takes acts _ jobs self Hj He) as (took & rest & -> & Ht & Hd). rewrite <- Em.
      exists took. split; [by constructor|]. split; [apply prefix_messages|]. intros E. by rewrite (Hd E), app_nil_r.
  - destruct (drive_takes acts (Queue jobs) jobs self eq_refl He) as (took & rest & -> & Ht & Hd).
    exists took. split; [done|]. split; [apply prefix_messages|]. intros E. by rewrite (Hd E), app_nil_r.
Qed.
End Effects.
