(* ===== verification/Blocking.v ===== *)
(** * The blocking interface

    [src/src/blocking.rs]: synchronous adapters that drive the futures of the asynchronous
    interface on a shared Tokio runtime, with or without a deadline, and refuse to block
    inside a runtime. A future is polled by [block_on]; between its polls the background
    tasks go on; a deadline that elapses drops it. *)

From Stdlib Require Import String.
From S2P Require Import Prelude Errors Sequence Datatype Packet PacketCodec Frame FrameCodec Fragment AckSet RecvQ SendOptions SendQ Sending Runtime Udp Server ServerInv Shards Connect Socket SocketRun Api.

(** ** Errors *)

(** [io] stands for [std::io::Error]. *)
Inductive Error (io : Type) : Type :=
  | Raknet (e : RaknetError)
  | Runtime (e : io)
  | AsyncContext
  | Timeout.
Arguments Raknet {_} e.
Arguments Runtime {_} e.
Arguments AsyncContext {_}.
Arguments Timeout {_}.

Section Errors.
Context {io : Type} (display : io -> string).

Definition fmt (e : Error io) : string :=
  match e with
  | Raknet e => Errors.fmt e
  | Runtime e => "failed to create Tokio runtime: " ++ display e
  | AsyncContext => "blocking RakNet operations cannot run inside a Tokio runtime"
  | Timeout => "blocking RakNet operation timed out"
  end.

Definition source (e : Error io) : option (RaknetError + io) :=
  match e with Raknet e => Some (inl e) | Runtime e => Some (inr e) | _ => None end.

Definition from {A} (r : Result A) : result (Error io) A :=
  match r with Ok a => Ok a | Err e => Err (Raknet e) end.
End Errors.

(** ** The runtime *)

(** The [Arc] that clones, sockets and listeners share, by its identity. *)
Record RaknetRuntime := mk_runtime { owner : nat }.

(** Whether the caller is inside a Tokio runtime. *)
Definition check_context {io} (in_context : bool) : result (Error io) unit :=
  if in_context then Err AsyncContext else Ok tt.

(** [with_worker_threads]; [built] is what the builder returns. *)
Definition with_worker_threads {io} (in_context : bool) (built : io + nat) : result (Error io) RaknetRuntime :=
  _ ← check_context in_context;
  match built with inl e => Err (Runtime e) | inr owner => Ok (mk_runtime owner) end.

(** A future over the state [S]: its own state, a step of it with what the step observes,
    and its output once it is ready. *)
Record Future (S P A : Type) := mk_future {
  fstate : Type;
  initial : fstate;
  fpoll : P -> fstate -> S -> fstate * S;
  output : fstate -> option (Result A);
}.
Arguments mk_future {_ _ _} _ _ _ _.
Arguments fstate {_ _ _} _.
Arguments initial {_ _ _} _.
Arguments fpoll {_ _ _} _ _ _ _.
Arguments output {_ _ _} _ _.

(** What happens while a thread blocks: the others act, the future is polled, or its
    deadline elapses. *)
Inductive Turn (S P : Type) : Type := Others (f : S -> S) | Polled (p : P) | Elapsed.
Arguments Others {_ _} f.
Arguments Polled {_ _} p.
Arguments Elapsed {_ _}.

Section Run.
Context {io S P A : Type}.
Implicit Types (f : Future S P A) (s : S) (turns : list (Turn S P)).

(** [block_on], of [tokio::time::timeout] when [timed]; [None] when the call still blocks. *)
Fixpoint block_on (timed : bool) f (st : fstate f) turns s : option (result (Error io) A) * S :=
  match turns with
  | [] => (None, s)
  | Others g :: turns => block_on timed f st turns (g s)
  | Polled p :: turns =>
      let '(st, s) := fpoll f p st s in
      match output f st with
      | Some r => (Some (from r), s)
      | None => block_on timed f st turns s
      end
  | Elapsed :: turns => if timed then (Some (Err Timeout), s) else block_on timed f st turns s
  end.

Definition run_with (timed in_context : bool) f turns s : option (result (Error io) A) * S :=
  match check_context in_context with
  | Err e => (Some (Err e), s)
  | Ok _ => block_on timed f (initial f) turns s
  end.

Definition run (in_context : bool) f turns s : option (result (Error io) A) * S := run_with false in_context f turns s.

Definition run_timeout (in_context : bool) f turns s : option (result (Error io) A) * S := run_with true in_context f turns s.
End Run.

(** A call that is one step: [None] keeps waiting. *)
Definition when_ready {S P A} (op : P -> S -> option (Result A) * S) : Future S P A :=
  mk_future (option (Result A)) None
    (fun p st s => match st with None => op p s | Some r => (Some r, s) end) (fun st => st).

Definition at_once {S P A} (op : P -> S -> Result A * S) : Future S P A :=
  when_ready (fun p s => let '(r, s) := op p s in (Some r, s)).

(** ** Connections *)

(** A socket or listener of the asynchronous interface, with the runtime it keeps alive. *)
Record Adapter (I : Type) := mk_adapter { inner : I; runtime : RaknetRuntime }.
Arguments mk_adapter {_} _ _.
Arguments inner {_} _.
Arguments runtime {_} _.

Section Runtime.
Context {feat : Features} {usort : UnstableSort} `{Mpsc chan} {io : Type}.
Context (in_context : bool) (self : RaknetRuntime).

(** The end of [connect], [bind], [accept] and their variants. *)
Definition adopt {S I J} (f : I -> S -> J) (outcome : option (result (Error io) I) * S)
    : option (result (Error io) (Adapter J)) * S :=
  (match outcome.1 with
   | None => None
   | Some (Err e) => Some (Err e)
   | Some (Ok i) => Some (Ok (mk_adapter (f i outcome.2) self))
   end, outcome.2).

(** The attempt to connect; the socket it makes is the state. *)
Definition connecting (step : Attempt -> ConnectFuture -> option (Connection chan) -> ConnectFuture * option (Connection chan))
    : Future (option (Connection chan)) Attempt unit :=
  mk_future ConnectFuture Negotiating step (fun call => match call with Connected r => Some r | _ => None end).

Definition connect addr random turns socket :=
  adopt (fun _ socket => socket) (run in_context (connecting (Api.connect addr random)) turns socket).
Definition connect_timeout addr random turns socket :=
  adopt (fun _ socket => socket) (run_timeout in_context (connecting (Api.connect addr random)) turns socket).
Definition connect_with_version addr version random turns socket :=
  adopt (fun _ socket => socket) (run in_context (connecting (Api.connect_with_version addr version random)) turns socket).
Definition connect_with_version_and_mtu addr version mtu random turns socket :=
  adopt (fun _ socket => socket) (run in_context (connecting (connect_poll addr version mtu random)) turns socket).

(** The constructors of listeners return at once; what the operating system answers and the
    GUID drawn are what they observe. *)
Definition constructing {P J} (make : P -> Result J) : Future unit P J := at_once (fun p s => (make p, s)).

Definition bind turns := adopt (fun (g : Group chan) _ => g)
  (run in_context (constructing (fun '(b, random) => Shards.bind b random)) turns tt).
Definition bind_with_maximum_mtu mtu turns := adopt (fun (g : Group chan) _ => g)
  (run in_context (constructing (fun '(b, random) => Shards.bind_with_maximum_mtu mtu b random)) turns tt).
Definition bind_with_receive_buffer_size size turns := adopt (fun (g : Group chan) _ => g)
  (run in_context (constructing (fun '(b, random) => Shards.bind_with_receive_buffer_size size b random)) turns tt).
Definition bind_with_socket_shards turns := adopt (fun (g : Group chan) _ => g)
  (run in_context (constructing Shards.bind_with_socket_shards) turns tt).
Definition from_std turns := adopt (fun (g : Group chan) _ => g)
  (run in_context (constructing (fun '(b, random) => Shards.alone b random)) turns tt).

Definition ping_timeout turns :=
  run_timeout (io := io) in_context (when_ready (fun '(times, rounds) s => (ping times rounds, s))) turns tt.
End Runtime.

Section Socket.
Context {feat : Features} {usort : UnstableSort} `{Mpsc chan} {io : Type}.
Context (in_context : bool).
Implicit Types (self : Connection chan).

(** The future of a sending method. *)
Definition sending (call : SendFuture) : Future (Connection chan) Moment unit := mk_future SendFuture call poll outcome.

Abbreviation run := (Blocking.run (io := io) in_context).
Abbreviation run_timeout := (Blocking.run_timeout (io := io) in_context).

Definition send buf r := run (sending (Api.send buf r)).
Definition send_timeout buf r := run_timeout (sending (Api.send buf r)).
Definition send_with_order_channel buf r channel := run (sending (Api.send_with_order_channel buf r channel)).
Definition send_bytes data r := run (sending (Api.send_bytes data r)).
Definition send_bytes_timeout data r := run_timeout (sending (Api.send_bytes data r)).
Definition send_bytes_with_order_channel data r channel := run (sending (Api.send_bytes_with_order_channel data r channel)).
Definition send_batch messages r := run (sending (Api.send_batch messages r)).
Definition send_batch_timeout messages r := run_timeout (sending (Api.send_batch messages r)).
Definition send_batch_with_order_channel messages r channel :=
  run (sending (Api.send_batch_with_order_channel messages r channel)).
Definition send_bytes_batch messages r := run (sending (Api.send_bytes_batch messages r)).
Definition send_bytes_batch_with_order_channel messages r channel :=
  run (sending (Api.send_bytes_batch_with_order_channel messages r channel)).

Definition receiving_one : Future (Connection chan) unit (list Z) := when_ready (fun _ => Socket.recv).
Definition recv := run receiving_one.
Definition recv_timeout := run_timeout receiving_one.
Definition recv_bytes := run (when_ready (fun _ : unit => Api.recv_bytes (chan := chan))).
Definition recv_bytes_timeout := run_timeout (when_ready (fun _ : unit => Api.recv_bytes (chan := chan))).

Definition receiving_batch (limit : Z) : Future (Connection chan) unit (list (list Z)) :=
  when_ready (fun _ => Socket.recv_batch limit).
Definition recv_batch limit := run (receiving_batch limit).
Definition recv_batch_timeout limit := run_timeout (receiving_batch limit).
Definition recv_bytes_batch limit := run (when_ready (fun _ : unit => Api.recv_bytes_batch (chan := chan) limit)).

Definition flushing : Future (Connection chan) unit unit := when_ready (fun _ self => (Socket.flush self, self)).
Definition flush := run flushing.
Definition flush_timeout := run_timeout flushing.
Definition close := run (at_once (fun _ : unit => Socket.close (chan := chan))).

Definition set_send_options options := run (at_once (fun _ : unit => Socket.set_send_options (chan := chan) options)).
Definition send_options := run (at_once (fun (_ : unit) (self : Connection chan) => (Ok (SendQ.send_options (sendq self)), self))).
Definition set_recovery_options options := run (at_once (fun now => Socket.set_recovery_options (chan := chan) options now)).
Definition recovery_options := run (at_once (fun (_ : unit) (self : Connection chan) =>
  (Ok (SendQ.recovery_options (sendq self)), self))).
End Socket.

(** ** Listeners *)

Section Listener.
Context `{Mpsc chan} {io : Type} (in_context : bool).
Implicit Types (g : Group chan) (self : Adapter (Group chan)).

Abbreviation run := (Blocking.run (io := io) in_context).
Abbreviation run_timeout := (Blocking.run_timeout (io := io) in_context).

(** The builders, which panic on a listener that listens. *)
Definition with_inner (f : Group chan -> option (Group chan)) self : option (Adapter (Group chan)) :=
  (fun g => mk_adapter g (runtime self)) <$> f (inner self).
Definition with_accept_backlog backlog := with_inner (Shards.with_accept_backlog backlog).
Definition with_idle_maintenance enabled := with_inner (Shards.with_idle_maintenance enabled).
Definition with_receive_batching enabled := with_inner (Shards.with_receive_batching enabled).

Definition listen := run (at_once (fun port (g : Group chan) => (Ok tt, Shards.listen port g))).

Definition accepting : Future (Group chan) bool Accepted :=
  when_ready (fun take_close g => Shards.accept take_close g).
Definition accept (self : RaknetRuntime) turns g := adopt self (fun socket _ => socket) (run accepting turns g).
Definition accept_timeout (self : RaknetRuntime) turns g := adopt self (fun socket _ => socket) (run_timeout accepting turns g).

Definition close_group := run (at_once (fun addresses (g : Group chan) => (Ok tt, (Shards.close addresses g).2))).

Definition set_full_motd motd := run (at_once (fun (_ : unit) (g : Group chan) =>
  (Ok tt, Shards.set_full_motd motd g))).
Definition get_motd := run (at_once (fun (_ : unit) (g : Group chan) => (Ok (Shards.get_motd g), g))).
Definition get_peer_raknet_version peer := run (at_once (fun (_ : unit) (g : Group chan) =>
  (Ok (Shards.get_peer_raknet_version peer g), g))).
End Listener.

(** ** What a deadline cancels *)

Section Deadlines.
Context {io S P A : Type}.
Implicit Types (f : Future S P A) (s : S) (turns : list (Turn S P)).

(** What the others did until the deadline. *)
Fixpoint meanwhile turns s : S :=
  match turns with
  | [] => s
  | Others g :: turns => meanwhile turns (g s)
  | Polled _ :: turns => meanwhile turns s
  | Elapsed :: _ => s
  end.

(** A future that waits changes nothing. *)
Definition patient f : Prop :=
  forall p st s, output f (fpoll f p st s).1 = None -> (fpoll f p st s).2 = s.

Lemma timed_out f st turns s s' :
  patient f -> block_on (io := io) true f st turns s = (Some (Err Timeout), s') -> s' = meanwhile turns s.
Proof.
  intros Hf. revert st s. induction turns as [|[g|p|] turns IH]; intros st s; simpl; [done|apply IH| |by intros [= <-]].
  pose proof (Hf p st s) as Hp. destruct (fpoll f p st s) as [st' s1]. simpl in Hp.
  destruct (output f st') as [[]|]; simpl; [done|done|]. rewrite (Hp eq_refl). apply IH.
Qed.

Lemma when_ready_patient (op : P -> S -> option (Result A) * S) :
  (forall p s s', op p s = (None, s') -> s' = s) -> patient (when_ready op).
Proof.
  intros Hop p [r|] s; simpl; [done|]. intros E. specialize (Hop p s). destruct (op p s) as [r s']. simpl in E. subst r.
  by apply Hop.
Qed.
End Deadlines.

Section Theorems.
Context {feat : Features} {usort : UnstableSort} `{Mpsc chan} {io : Type}.
Context (peer_addr local_addr : SocketAddr).
Implicit Types (self : Connection chan).

Lemma recv_patient : patient (receiving_one (chan := chan)).
Proof.
  apply when_ready_patient. intros _ self self'. unfold Socket.recv. pose proof (try_recv_none _ (user_data self)) as Hn.
  destruct (try_recv (user_data self)) as [[message|] c]; [done|]. simpl in Hn. rewrite (Hn eq_refl).
  destruct (receiving self); [|done]. intros [= <-]. by destruct self.
Qed.

Lemma recv_batch_patient limit : patient (receiving_batch (chan := chan) limit).
Proof.
  apply when_ready_patient. intros _ self self'. unfold Socket.recv_batch. destruct (limit =? 0); [done|].
  pose proof (recv_patient tt None self) as Hr. simpl in Hr. destruct (Socket.recv self) as [[[first|e]|] s]; simpl in Hr.
  - by destruct (recv_available _ s).
  - done.
  - intros [= <-]. by apply Hr.
Qed.

Lemma flush_patient : patient (flushing (chan := chan)).
Proof. apply when_ready_patient. by intros _ self self' [= _ <-]. Qed.

Lemma accept_patient : patient (accepting (chan := chan)).
Proof.
  apply when_ready_patient. exact Shards.accept_waits.
Qed.

(** The turns of a sending call. *)
Inductive happening : Type := Act (a : act) | Deadline.

Definition turn_of (h : happening) : Turn (Connection chan) Moment :=
  match h with
  | Act (Other e) => Others (fun self => (step peer_addr local_addr e self).2)
  | Act (Step m) => Polled m
  | Deadline => Elapsed
  end.

Definition acts_of : list happening -> list act :=
  omap (fun h => match h with Act a => Some a | Deadline => None end).

(** A blocking send is its call, driven up to some turn. *)
Lemma block_on_drives timed (call st : SendFuture) hs self :
  outcome st = None ->
  exists n, let '(r, self') := block_on (io := io) timed (sending call) st (map turn_of hs) self in
    let '(st', self1) := drive peer_addr local_addr (acts_of (take n hs)) st self in
    self1 = self' /\ match r with Some (Ok _) => st' = Done (Ok tt) | Some (Err (Raknet e)) => st' = Done (Err e) | _ => outcome st' = None end.
Proof.
  revert st self. induction hs as [|[[e|m]|] hs IH]; intros st self Hst.
  - by exists 0%nat.
  - destruct (IH st (step peer_addr local_addr e self).2 Hst) as [n Hn]. by exists (S n).
  - cbn [map turn_of block_on]. change (fpoll (sending call) m st self) with (poll m st self).
    destruct (poll m st self) as [st1 self1] eqn:E.
    change (output (sending call) st1) with (outcome st1). destruct (outcome st1) as [r|] eqn:Eo.
    + exists 1%nat. cbn [take acts_of omap list_omap drive]. rewrite E. cbn [drive]. destruct st1; [done..|]. injection Eo as ->.
      destruct r as [[]|]; done.
    + destruct (IH st1 self1 Eo) as [n Hn]. exists (S n). simpl. by rewrite E.
  - destruct timed.
    + by exists 0%nat.
    + destruct (IH st self Hst) as [n Hn]. by exists (S n).
Qed.

(** C8: a deadline cancels the wait and nothing else. A blocking call inside a runtime is
    refused before anything happens. Of a sending call, whatever the tasks and other callers
    do between its steps, what it has queued when it returns [Ok], times out or still blocks
    is a prefix of its messages, section by section, in order and once each, and all of them
    if it returned [Ok]: a message is queued whole or not at all, and a timeout withdraws
    nothing. A call of [recv], [recv_batch], [flush] or [accept] that times out leaves what
    the others made of the connection: it takes no message and no connection. *)
Theorem deadlines_cancel_only_the_wait :
  (forall timed call hs self, run_with (io := io) timed true (sending call) (map turn_of hs) self
     = (Some (Err AsyncContext), self)) /\
  (forall timed call hs self, begins call ->
     let '(r, self') := run_with (io := io) timed false (sending call) (map turn_of hs) self in
     r = Some (Ok tt) \/ r = Some (Err Timeout) \/ r = None ->
     exists n took, takes peer_addr local_addr (acts_of (take n hs)) took self self' /\
       concat (map messages_of took) `prefix_of` given call /\
       (r = Some (Ok tt) -> concat (map messages_of took) = given call)) /\
  (forall turns self self', recv_timeout (io := io) false turns self = (Some (Err Timeout), self') -> self' = meanwhile turns self) /\
  (forall limit turns self self', recv_batch_timeout (io := io) false limit turns self = (Some (Err Timeout), self') ->
     self' = meanwhile turns self) /\
  (forall turns self self', flush_timeout (io := io) false turns self = (Some (Err Timeout), self') -> self' = meanwhile turns self) /\
  (forall runtime turns (g g' : Group chan), accept_timeout (io := io) false runtime turns g = (Some (Err Timeout), g') ->
     g' = meanwhile turns g).
Proof.
  split_and!.
  - done.
  - intros timed call hs self Hb. unfold run_with. cbn [check_context].
    assert (outcome call = None) as Ho by (by destruct call).
    destruct (block_on_drives timed call call hs self Ho) as [n Hn].
    change (initial (sending call)) with call.
    destruct (block_on timed (sending call) call (map turn_of hs) self) as [r self'].
    pose proof (drive_given peer_addr local_addr (acts_of (take n hs)) call self Hb) as Hd.
    destruct (drive peer_addr local_addr (acts_of (take n hs)) call self) as [st self1]. destruct Hn as [-> Hr]. intros Hcase.
    destruct Hd as (took & Ht & Hp & Hok).
    { intros e. simpl. intros ->. destruct Hcase as [->|[->| ->]]; done. }
    exists n, took. split; [done|]. split; [done|]. intros ->. by apply Hok.
  - intros turns self self'. apply timed_out, recv_patient.
  - intros limit turns self self'. apply timed_out, recv_batch_patient.
  - intros turns self self'. apply timed_out, flush_patient.
  - intros runtime turns g g'. unfold accept_timeout, adopt.
    destruct (run_timeout false accepting turns g) as [[[a|e]|] g1] eqn:E; [done| |done]. intros [= -> <-].
    by apply (timed_out _ _ _ _ _ accept_patient E).
Qed.
End Theorems.

(** A batch is queued, its flush is polled, the ticker runs, and the deadline elapses. *)
Definition sample_wait : list (Turn (Connection Channel) unit) :=
  [Polled tt; Others (tick_turn (feat := both_policies) (usort := merge_sort_flight) sample_turn); Polled tt; Elapsed].

Lemma pair_timeout {io S A} (x : option (result (Error io) A) * S) :
  x.1 = Some (Err Timeout) -> x = (Some (Err Timeout), x.2).
Proof. destruct x as [r s]. by intros [= ->]. Qed.

Lemma deadlines_cancel_only_the_wait_witness :
  let self := @sample_batch both_policies in
  let out := @flush_timeout both_policies Channel unit false sample_wait self in
  out.1 = Some (Err Timeout) /\ out.2 = meanwhile sample_wait self.
Proof.
  destruct (@deadlines_cancel_only_the_wait both_policies merge_sort_flight Channel _ unit (V4 (mk_ipv4 127 0 0 1) 7)
    (V4 (mk_ipv4 127 0 0 1) 8)) as (_ & _ & _ & _ & Hf & _).
  assert ((@flush_timeout both_policies Channel unit false sample_wait (@sample_batch both_policies)).1 = Some (Err Timeout)) as E
    by (vm_compute; reflexivity).
  exact (conj E (Hf _ _ _ (pair_timeout _ E))).
Defined.
