(* ===== verification/EndToEnd.v ===== *)
(** * From one application to the other

    The send queue of one end, the encoders, a network that loses, repeats and reorders
    datagrams, the decoder and the receive queue of the other end, composed. *)

From S2P Require Import Prelude SocketRun Errors Sequence Frame FrameCodec Fragment AckSet RecvQ Log Delivery SendOptions SendQ SendQInv SendQInsert SendQFlow SendQRun SendQWire SendLog Runtime Udp Socket SocketWire.
Import SendQ ReliableWindow.

Section EndToEnd.
Context {feat : Features} {usort : UnstableSort}.
Implicit Types (f g : FrameSetPacket) (net : list (Z * list Z)) (L : list Log.Message).

(** The datagrams that the flushes of a history put on the wire. *)
Definition on_the_wire (batched : Batching) (mtu : Z) (events : list event) : list (list Z) :=
  concat (map (fun out => (transmit_frames batched out).1) (flushed mtu events)).

(** The frames of the datagrams that arrive, each with the time it is handled at. *)
Definition decoded net : list (Z * FrameSetPacket) :=
  concat (map (fun '(now, d) => match FrameVec.decode_into d with Ok fs => map (pair now) fs | Err _ => [] end) net).

(** [ns] are the positions in the log of the reliable frames that arrive. *)
Definition labels L (arrivals : list (Z * FrameSetPacket)) (ns : list nat) : Prop :=
  Forall2 (fun a R => exists g, log_frames L !! R = Some g /\ copy a.2 g)
    (filter (fun a => rel_b (rel_of a.2) = true) arrivals) ns.

(** ** What arrives *)

Lemma elem_of_concat {A} (x : A) (ls : list (list A)) : x ∈ concat ls <-> exists l, x ∈ l /\ l ∈ ls.
Proof. rewrite list_elem_of_In, in_concat. setoid_rewrite list_elem_of_In. naive_solver. Qed.

Lemma on_wire_mode f r : rel_of (on_wire f r) = rel_of f /\ is_fragment (on_wire f r) = is_fragment f.
Proof. done. Qed.

Lemma on_wire_wf f : frame_wf f (rel_of f) -> frame_wf (on_wire f (rel_of f)) (rel_of (on_wire f (rel_of f))).
Proof.
  destruct (on_wire_mode f (rel_of f)) as [-> Ef]. intros [[V1 V2 V3 V4] H1 H2 H3 H4 H5 H6 H7 H8 H9].
  unfold in_range in *. split; simpl; unfold in_range; try done; try (case_if; [done|lia]).
  split; simpl; try done. rewrite Ef. intros E. rewrite E. by apply V4.
Qed.

(** A frame of the queue arrives as a copy of its part of the log. *)
Lemma on_wire_copy f : rel_b (rel_of f) = true -> reliability f = Ok (rel_of f) -> copy (on_wire f (rel_of f)) (body f).
Proof.
  intros Hr Hok. split; simpl; try done.
  - by rewrite Hr.
  - change (reliability (body f)) with (reliability f). rewrite Hok. intros [= ->]. done.
  - change (is_fragment (body f)) with (is_fragment f). by intros ->.
Qed.

Section History.
Context (batched : Batching) (mtu : Z) (events : list event).
Context (Hm : path_mtu mtu) (Hev : Forall channels_ok events) (Hb : sends_ok batched).

(** Every frame of a datagram on the wire is well formed; the reliable ones are copies. *)
Lemma wire_frames d fs f :
  d ∈ on_the_wire batched mtu events -> FrameVec.decode_into d = Ok fs -> f ∈ fs ->
  frame_wf f (rel_of f) /\
  (rel_b (rel_of f) = true -> exists R g, log_frames (sent_log mtu events) !! R = Some g /\ copy f g).
Proof.
  intros Hd Ed Hin. apply elem_of_concat in Hd as (ds & Hd & Hds). apply list_elem_of_fmap in Hds as (out & -> & Hout).
  destruct (run_log mtu events Hm Hev) as [_ Hrun]. destruct (Hrun out Hout) as [Hlen Hfs].
  destruct (transmit_delivers mtu batched out) as (ds & Et & groups & Hg & Hdec); [|done|done|].
  { apply list.Forall_forall. intros x Hx. by apply Hfs. }
  rewrite Et in Hd. simpl in Hd. apply list_elem_of_lookup in Hd as [i Hi].
  destruct (Forall2_lookup_l _ _ _ _ _ Hdec Hi) as (group & Hgi & Ed'). rewrite Ed in Ed'. injection Ed' as ->.
  apply list_elem_of_fmap in Hin as (x & -> & Hx).
  assert (x ∈ frames out) as Hfo.
  { rewrite <- Hg. apply elem_of_concat. exists group. split; [done|]. by apply (list_elem_of_lookup_2 _ i). }
  destruct (Hfs x Hfo) as [[Hwf _] Hlog]. split; [by apply on_wire_wf|].
  destruct (on_wire_mode x (rel_of x)) as [-> _]. intros Hr.
  pose proof (val_reliability _ _ (wf_validated _ _ Hwf)) as Hok.
  destruct (list_elem_of_lookup_1 _ _ (Hlog ltac:(unfold relb; by rewrite (is_reliable_ok _ _ Hok)))) as [R HR].
  exists R, (body x). split; [done|by apply on_wire_copy].
Qed.

Lemma decoded_frames net a :
  Forall (fun a => a.2 ∈ on_the_wire batched mtu events) net -> a ∈ decoded net ->
  frame_wf a.2 (rel_of a.2) /\
  (rel_b (rel_of a.2) = true -> exists R g, log_frames (sent_log mtu events) !! R = Some g /\ copy a.2 g).
Proof.
  intros Hnet (fs & Hin & Hfs)%elem_of_concat. apply list_elem_of_fmap in Hfs as ([now d] & -> & Hd).
  rewrite list.Forall_forall in Hnet. apply Hnet in Hd. destruct (FrameVec.decode_into d) as [fs|] eqn:E; [|by apply not_elem_of_nil in Hin].
  apply list_elem_of_fmap in Hin as (f & -> & Hf). by apply (wire_frames d fs).
Qed.

(** So the arrivals are traffic of the log. *)
Lemma network_traffic net ns :
  Forall (fun a => a.2 ∈ on_the_wire batched mtu events) net ->
  labels (sent_log mtu events) (decoded net) ns -> traffic (sent_log mtu events) (decoded net) ns.
Proof.
  intros Hnet. pose proof (decoded_frames net) as Hd.
  assert (forall a, a ∈ decoded net -> frame_wf a.2 (rel_of a.2)) as Hwf by (intros a Ha; by apply Hd).
  clear Hd Hnet. unfold labels. revert ns. induction (decoded net) as [|[now f] arrivals IH]; intros ns Hl.
  { apply Forall2_nil_inv_l in Hl as ->. constructor. }
  assert (frame_wf f (rel_of f)) as Hf by (apply (Hwf (now, f)), list_elem_of_here).
  assert (forall a, a ∈ arrivals -> frame_wf a.2 (rel_of a.2)) as Hrest
    by (intros a Ha; apply Hwf; by apply list_elem_of_further).
  rewrite filter_cons in Hl. destruct (decide _) as [Hr|Hr]; simpl in Hr.
  - apply Forall2_cons_inv_l in Hl as (R & ns' & (g & HR & Hc) & Hl & ->).
    apply (traffic_reliable _ now f g R); [done..|by apply IH].
  - apply traffic_unreliable; [done|by apply not_true_iff_false|by apply IH].
Qed.

(** The positions exist, whatever arrives. *)
Lemma labels_exist net :
  Forall (fun a => a.2 ∈ on_the_wire batched mtu events) net ->
  exists ns, labels (sent_log mtu events) (decoded net) ns.
Proof.
  intros Hnet. assert (forall a, a ∈ filter (fun a : Z * FrameSetPacket => rel_b (rel_of a.2) = true) (decoded net) ->
    exists R g, log_frames (sent_log mtu events) !! R = Some g /\ copy a.2 g) as H.
  { intros a [Hr Ha]%list_elem_of_filter. by apply (decoded_frames net a Hnet Ha). }
  unfold labels. induction (filter _ _) as [|a l IH]; [exists []; constructor|].
  destruct (H a) as (R & HR); [apply list_elem_of_here|].
  destruct IH as [ns Hns]; [intros b Hb'; apply H; by apply list_elem_of_further|].
  exists (R :: ns). by constructor.
Qed.
End History.

(** ** Histories shorter than half the serial space *)

Definition within (N : Z) (s : spec) : Prop := 0 <= base s <= N /\ forall n, n ∈ ahead s -> n < N.

Lemma spec_advance_within N fuel s : within N s -> within N (spec_advance fuel s).
Proof.
  revert s. induction fuel as [|fuel IH]; intros s [Hb Ha]; simpl; [done|].
  case_bool_decide as Hin; [|done]. apply IH. split; simpl; [specialize (Ha _ Hin); lia|].
  intros n [? _]%elem_of_difference. by apply Ha.
Qed.

Lemma spec_accept_within N n s : within N s -> 0 <= n < N -> within N (spec_accept s n).2.
Proof.
  intros [Hb Ha] Hn. unfold spec_accept. case_bool_decide; [done|]. destruct (_ <=? n); [done|].
  destruct (n =? base s) eqn:E; simpl.
  - b2p. apply spec_advance_within. split; simpl; [lia|done].
  - split; simpl; [done|]. intros m [->%elem_of_singleton|?]%elem_of_union; [lia|by apply Ha].
Qed.

Lemma short_history (N : Z) s ns :
  N <= HALF -> within N s -> Forall (fun n => 0 <= n < N) ns -> in_horizon s ns.
Proof.
  intros HN. revert s. induction ns as [|n ns IH]; intros s Hs; [done|].
  intros [Hn Hns]%list.Forall_cons. split; [destruct Hs; lia|]. apply IH; [|done]. by apply spec_accept_within.
Qed.

Lemma short_log L arrivals ns :
  zlen (log_frames L) <= HALF -> labels L arrivals ns -> in_horizon spec_default (map Z.of_nat ns).
Proof.
  intros HL Hl. apply (short_history (zlen (log_frames L))); [done|split; simpl; [lia|set_solver]|].
  apply list.Forall_forall. intros n (R & -> & HR)%list_elem_of_fmap.
  apply list_elem_of_lookup in HR as [i Hi].
  destruct (Forall2_lookup_r _ _ _ _ _ Hl Hi) as (a & _ & g & Hg%lookup_lt_Some & _). lia.
Qed.

(** C1: messages arrive in order, once, and whole. Take any history of a send queue
    (insertions, acknowledgements, losses reported, flushes, timers), the datagrams that its
    flushes put on the wire by any of the transmission paths, and a network that hands any of
    them to the peer, any number of times, in any order and at any times. Where fewer than
    [2^23] frames were numbered, or where no arrival is [2^23] indexes from the first one
    missing, what the peer's application gets on every ordered channel is a prefix of the
    payloads the sender's application was accepted on it; and if every frame has arrived and
    the receive queue has refused none, all of them. *)
Theorem ordered_messages_arrive mtu events batched net ns :
  path_mtu mtu -> Forall channels_ok events -> sends_ok batched ->
  Forall (fun a => a.2 ∈ on_the_wire batched mtu events) net ->
  labels (sent_log mtu events) (decoded net) ns ->
  zlen (log_frames (sent_log mtu events)) <= HALF \/ in_horizon spec_default (map Z.of_nat ns) ->
  let '(invalid, out, _) := receive (decoded net) [] new_recvq in
  forall c,
    let got := map (fun f => FramePayload.deref (data f)) (delivered c out) in
    got `prefix_of` sent_on mtu c events /\
    (invalid = false -> (forall R, (R < length (log_frames (sent_log mtu events)))%nat -> R ∈ ns) ->
     got = sent_on mtu c events).
Proof.
  intros Hm He Hb Hnet Hl Hh.
  assert (in_horizon spec_default (map Z.of_nat ns)) as Hh' by (destruct Hh; [by eapply short_log|done]).
  destruct (run_log mtu events Hm He) as [[HL _ _ _] _].
  pose proof (receive_log _ HL (decoded net) ns (network_traffic batched mtu events Hm He Hb net ns Hnet Hl) Hh') as H.
  destruct (receive (decoded net) [] new_recvq) as [[invalid out] q]. intros c. destruct (H c) as [[rest Er] Hall].
  split; [by exists rest|]. intros Hv Ha. specialize (Hall Hv Ha). unfold sent_on. rewrite Er.
  apply (f_equal length) in Er. rewrite length_app, !length_map in Er. unfold progress in Hall.
  destruct rest; [by rewrite app_nil_r|simpl in Er; lia].
Qed.
End EndToEnd.

(** ** The theorem at work *)

(** A message in two fragments and a small one after it; what is flushed arrives backwards,
    and the first datagram twice. *)
Definition sample_history : list event :=
  [Insert Reliability.ReliableOrdered sample_buf 3 true; Insert Reliability.ReliableOrdered [1; 2; 3] 3 false; Flush 10].

Definition sample_arrivals : list (Z * list Z) :=
  let ds := @on_the_wire both_policies merge_sort_flight None 100 sample_history in
  map (pair 20) (reverse ds ++ take 1 ds).

Ltac evaluate x := let v := eval vm_compute in x in replace x with v by (vm_compute; reflexivity).

Lemma rearranged (ds : list (list Z)) : Forall (fun d => d ∈ ds) (reverse ds ++ take 1 ds).
Proof.
  apply list.Forall_forall. intros d [Hd|Hd]%elem_of_app.
  - by rewrite elem_of_reverse in Hd.
  - apply elem_of_take in Hd as (i & Hi & _). by apply list_elem_of_lookup_2 in Hi.
Qed.

Lemma ordered_messages_arrive_witness :
  let '(invalid, out, _) := receive (decoded sample_arrivals) [] new_recvq in
  invalid = false /\ map (fun f => FramePayload.deref (data f)) (delivered 3 out) = [sample_buf; [1; 2; 3]].
Proof.
  pose proof (@ordered_messages_arrive both_policies merge_sort_flight 100 sample_history None sample_arrivals [2; 1; 0; 0]%nat) as H.
  assert ((receive (decoded sample_arrivals) [] new_recvq).1.1 = false) as Hv by (vm_compute; reflexivity).
  destruct (receive (decoded sample_arrivals) [] new_recvq) as [[invalid out] q]. split; [exact Hv|].
  assert (@sent_on both_policies merge_sort_flight 100 3 sample_history = [sample_buf; [1; 2; 3]]) as <- by (vm_compute; reflexivity).
  apply H; [unfold path_mtu; lia| |done| | |left; vm_compute; discriminate|exact Hv|].
  - repeat (apply Forall_cons_2; [simpl; unfold in_range; (lia || done)|]). apply Forall_nil_2.
  - apply Forall_map. apply rearranged.
  - unfold labels. evaluate (log_frames (@sent_log both_policies merge_sort_flight 100 sample_history)).
    match goal with |- Forall2 _ ?l _ => evaluate l end.
    repeat (apply Forall2_cons_2; [eexists; split; [reflexivity|by split]|]). apply Forall2_nil_2.
  - evaluate (log_frames (@sent_log both_policies merge_sort_flight 100 sample_history)). simpl. intros R HR.
    rewrite !elem_of_cons. lia.
Defined.
