(* ===== verification/Conversation.v ===== *)
(** * From one application to the other, through a connection

    [EndToEnd] with a whole connection of [Socket] at the receiving end: its receiving task
    under back-pressure, its ticker, the calls of its application and the packets of its own
    conversation, in any order. *)

From S2P Require Import Prelude Errors Sequence Datatype Packet PacketCodec Frame FrameCodec Fragment AckSet RecvQ Log Delivery SendOptions SendQ SendQInv SendQInsert SendQFlow SendQRun SendQWire SendLog Sending Runtime Udp Socket SocketRun SocketAcks SocketWire EndToEnd.
Import ReliableWindow.

Section Conversation.
Context {feat : Features} {usort : UnstableSort} `{Mpsc chan}.
Context (peer_addr local_addr : SocketAddr).
Implicit Types (self : Connection chan) (t : Turn) (q : RecvQ) (e : event).

(** ** What leaves the receive queue alone *)

Record steady self self' : Prop := {
  sd_core : core (recvq self') = core (recvq self);
  sd_receiving : receiving self' = true -> receiving self = true;
}.

#[local] Instance steady_preorder : PreOrder steady.
Proof. split; [by intros self|]. intros s1 s2 s3 [E1 R1] [E2 R2]. split; [by rewrite E2|auto]. Qed.

Ltac steady_fields := split; first [reflexivity | done | by simpl; auto].

Lemma quiet_steady self self' : quiet self self' -> steady self self'.
Proof. by intros []. Qed.

Lemma send_ack_ranges_steady ranges self : steady self (send_ack_ranges ranges self).
Proof. unfold send_ack_ranges. repeat case_match; steady_fields. Qed.

Lemma flush_acks_steady t self : steady self (flush_acks t self).
Proof.
  unfold flush_acks. case_if; [|reflexivity]. unfold take_acks. destruct (take_ack_into _) as [ranges a].
  set (s1 := self <| recvq := _ |> <| acks := ranges |>). transitivity s1; [steady_fields|].
  transitivity (send_ack_ranges ranges s1); [apply send_ack_ranges_steady|steady_fields].
Qed.

Lemma process_ready_steady t k frames self : steady self (process_ready peer_addr local_addr t k frames self).
Proof.
  assert (forall (b : bool) s, steady s (let s1 := send_ack_ranges (acks s) (s <| ready_frames := [] |> <| blocked := false |>) in
    if b then end_receiver s1 else s1)) as Hfin.
  { intros b s. cbv zeta. set (s0 := s <| ready_frames := [] |> <| blocked := false |>).
    transitivity s0; [steady_fields|]. transitivity (send_ack_ranges (acks s) s0); [apply send_ack_ranges_steady|].
    destruct b; [steady_fields|reflexivity]. }
  revert k self. induction frames as [|f frames IH]; intros k self; cbn [process_ready]; [by apply (Hfin false)|].
  pose proof (quiet_steady _ _ (on_ready_quiet peer_addr local_addr t k f self)) as Hq.
  destruct (on_ready peer_addr local_addr t k f self) as [[|b|] s1]; simpl in Hq; (transitivity s1; [done|]);
    [apply IH|apply (Hfin b)|steady_fields].
Qed.

(** ** What the queue has released *)

Section Log.
Context (L : list Log.Message) (HL : log_wf L) (Hshort : zlen (log_frames L) <= HALF).

(** What was released continues the channels of the log, and the queue of a task that still
    receives is where the log and the releases say. *)
Record conversed (out : list FrameSetPacket) self : Prop := {
  cv_released : consecutive (content L) out;
  cv_queue : receiving self = true -> exists s, delivery_inv L s (progress out) (recvq self) /\
    ready_ordered (recvq self) = [] /\ within (zlen (log_frames L)) s;
}.

Lemma core_delivery s k q : delivery_inv L s k q <-> delivery_inv L s k (core q).
Proof. split; intros [[? ? ? ? ? ? ? ?] ? ? ? ? ?]; by split. Qed.

Lemma steady_conversed out self self' : steady self self' -> conversed out self -> conversed out self'.
Proof.
  intros [Ec Er] [Hc Hq]. split; [done|]. intros Hr. destruct (Hq (Er Hr)) as (s & Hd & Hre & Hw). exists s.
  split; [apply core_delivery; rewrite Ec; by apply (proj1 (core_delivery _ _ _))|]. split; [|done].
  change (ready_ordered (recvq self')) with (ready_ordered (core (recvq self'))). by rewrite Ec.
Qed.

Lemma spec_run_within N s ns : within N s -> Forall (fun n => 0 <= n < N) ns -> within N (spec_run s ns).2.
Proof.
  revert s. induction ns as [|n ns IH]; intros s Hs; [done|]. intros [Hn Hns]%list.Forall_cons. simpl.
  pose proof (spec_accept_within N n s Hs Hn) as Ha. destruct (spec_accept s n) as [r s1].
  specialize (IH s1 Ha Hns). by destruct (spec_run s1 ns).
Qed.

Lemma traffic_positions arrivals ns :
  traffic L arrivals ns -> Forall (fun n => 0 <= n < zlen (log_frames L)) (map Z.of_nat ns).
Proof.
  induction 1 as [| |now f g R arrivals ns Hwf HR]; [by apply Forall_nil_2|done|].
  apply Forall_cons_2; [|done]. apply lookup_lt_Some in HR. lia.
Qed.

(** [receive] over what one datagram carries, released onto what was released before. *)
Lemma receive_onto arrivals out q :
  let '(invalid, ready, q1) := receive arrivals [] q in
  receive arrivals out q = (invalid, out ++ ready, q1).
Proof.
  assert (forall base out q, let '(invalid, ready, q1) := receive arrivals out q in
    receive arrivals (base ++ out) q = (invalid, base ++ ready, q1)) as Hgen.
  { induction arrivals as [|[now f] arrivals IH]; intros base out0 q0; cbn [receive]; [done|].
    destruct (insert now f q0) as [[[]|e] q1]; [|done].
    assert (flush_into (base ++ out0) q1 = (base ++ (flush_into out0 q1).1, (flush_into out0 q1).2)) as ->
      by (unfold flush_into; case_if; simpl; by rewrite ?app_assoc).
    destruct (flush_into out0 q1) as [out1 q2]. apply IH. }
  specialize (Hgen out [] q). destruct (receive arrivals [] q) as [[invalid ready] q1]. by rewrite app_nil_r in Hgen.
Qed.

Lemma receive_ready arrivals out q :
  ready_ordered q = [] -> let '(invalid, _, q1) := receive arrivals out q in invalid = false -> ready_ordered q1 = [].
Proof.
  revert out q. induction arrivals as [|[now f] arrivals IH]; intros out q Hq; cbn [receive]; [done|].
  destruct (insert now f q) as [[[]|e] q1]; [|done].
  assert (ready_ordered (flush_into out q1).2 = []) as Hf by (unfold flush_into; by case_if).
  destruct (flush_into out q1) as [out1 q2]. by apply IH.
Qed.

Lemma receive_conversed arrivals ns out s q :
  traffic L arrivals ns -> consecutive (content L) out -> delivery_inv L s (progress out) q -> ready_ordered q = [] ->
  within (zlen (log_frames L)) s ->
  let '(invalid, ready, q1) := receive arrivals [] q in
  consecutive (content L) (out ++ ready) /\
  (invalid = false -> exists s', delivery_inv L s' (progress (out ++ ready)) q1 /\ ready_ordered q1 = [] /\
     within (zlen (log_frames L)) s').
Proof.
  intros Ht Hc Hd Hr Hw. pose proof (traffic_positions _ _ Ht) as Hp.
  pose proof (receive_delivery L HL arrivals ns s out q Hd Hr Hc Ht (short_history _ _ _ Hshort Hw Hp)) as H1.
  pose proof (receive_onto arrivals out q) as Eo. pose proof (receive_ready arrivals [] q Hr) as Hre.
  destruct (receive arrivals [] q) as [[invalid ready] q1]. rewrite Eo in H1. destruct H1 as [H1 H2].
  split; [done|]. intros Hv. eexists. split; [apply H2, Hv|]. split; [by apply Hre|]. by apply spec_run_within.
Qed.

(** ** Datagrams of the log *)

Definition of_log (f : FrameSetPacket) : Prop :=
  frame_wf f (rel_of f) /\ (rel_b (rel_of f) = true -> exists R g, log_frames L !! R = Some g /\ copy f g).

(** Whatever frame set the datagram decodes to, by either decoder, is of the log. *)
Definition genuine (buf : list Z) : Prop :=
  forall id, head buf = Some id -> PacketID.from id = Ok PacketID.FrameSetPacketBegin ->
  forall owned fs, decode_input owned buf = Ok fs -> Forall of_log fs.

Definition genuine_event e : Prop :=
  match e with Receiver _ (Datagram buf) => genuine buf | _ => True end.

Lemma traffic_of_log (times : nat -> Z) fs :
  Forall of_log fs -> exists ns, traffic L (imap (fun i f => (times i, f)) fs) ns.
Proof.
  intros Hfs. revert times. induction Hfs as [|f fs [Hwf Hc] _ IH]; intros times; [exists []; constructor|].
  destruct (IH (times ∘ S)) as [ns Hns]. rewrite imap_cons. destruct (rel_b (rel_of f)) eqn:Hr.
  - destruct (Hc eq_refl) as (R & g & HR & Hg). exists (R :: ns). by apply (traffic_reliable _ _ _ g).
  - exists ns. by apply traffic_unreliable.
Qed.

(** ** A turn of the receiving task *)

Lemma ended_conversed out self : consecutive (content L) out -> receiving self = false -> conversed out self.
Proof. intros Hc Hr. split; [done|]. by rewrite Hr. Qed.

Lemma take_acks_core q : core (take_acks q).2 = core q.
Proof. unfold take_acks. by destruct (take_ack_into _). Qed.

Lemma on_frame_set_conversed t buf id out self :
  genuine (id :: buf) -> PacketID.from id = Ok PacketID.FrameSetPacketBegin -> receiving self = true -> conversed out self ->
  conversed (out ++ released_by_packet t (id :: buf) self) (on_frame_set peer_addr local_addr t (id :: buf) self).
Proof.
  intros Hg Hid Hrc Hcv. unfold released_by_packet, on_frame_set. rewrite Hid.
  case_if; [by rewrite app_nil_r|]. destruct (decode_input _ _) as [fs|] eqn:Ed; [|by rewrite app_nil_r].
  cbv zeta. set (s1 := if received_since_ack self =? 0 then _ else self).
  assert (recvq s1 = recvq self) as -> by (unfold s1; by case_if).
  destruct (traffic_of_log (fun i => clock t (1 + i)) fs (Hg id eq_refl Hid _ _ Ed)) as [ns Ht].
  destruct Hcv as [Hc Hq]. destruct (Hq Hrc) as (s & Hd & Hre & Hw).
  pose proof (receive_conversed _ ns out s (recvq self) Ht Hc Hd Hre Hw) as H1.
  destruct (receive _ [] (recvq self)) as [[invalid ready] q1]. destruct H1 as [H1 H2].
  destruct invalid; [rewrite app_nil_r; by apply ended_conversed|].
  apply (steady_conversed _ (s1 <| recvq := q1 |>)).
  - etransitivity; [|apply process_ready_steady]. set (s2 := if drained_after t || _ then _ else _).
    transitivity s2; [|case_if; [steady_fields|reflexivity]]. unfold s2. case_if; [|steady_fields].
    pose proof (take_acks_core (recvq (s1 <| recvq := q1 |>))) as Ea. destruct (take_acks _) as [rs q2]. by split.
  - split; [done|]. intros _. by apply H2.
Qed.

Lemma on_packet_conversed t buf out self :
  genuine buf -> receiving self = true -> conversed out self ->
  conversed (out ++ released_by_packet t buf self) (on_packet peer_addr local_addr t buf self).
Proof.
  intros Hg Hrc Hcv. destruct buf as [|id buf]; [by rewrite app_nil_r|].
  unfold on_packet. set (s1 := if negb (received_since_ack self =? 0) then _ else self).
  set (s2 := s1 <| last_heartbeat_time := _ |>).
  assert (steady self s2) as Hs by (unfold s2, s1; case_if; steady_fields).
  assert (receiving s2 = true) as Hrc2 by (unfold s2, s1; by case_if).
  assert (released_by_packet t (id :: buf) self = released_by_packet t (id :: buf) s2) as ->
    by (unfold s2, s1; by case_if).
  pose proof (steady_conversed _ _ _ Hs Hcv) as Hcv2. clearbody s2. clear s1.
  destruct (PacketID.from id) as [[]|] eqn:Hid; try (unfold released_by_packet; rewrite Hid, app_nil_r).
  all: try done.
  - apply (steady_conversed _ s2); [steady_fields|done].
  - by apply on_frame_set_conversed.
  - destruct (read_packet_nack _); [|done]. eapply steady_conversed; [apply quiet_steady, on_feedback_quiet|done].
  - destruct (read_packet_ack _); [|done]. eapply steady_conversed; [apply quiet_steady, on_feedback_quiet|done].
Qed.

Lemma on_input_conversed t input out self :
  genuine_event (Receiver t input) -> receiving self = true -> conversed out self ->
  conversed (out ++ released_by_input t input self) (on_input peer_addr local_addr t input self).
Proof.
  intros Hg Hrc Hcv. destruct input as [buf| |]; simpl; [by apply on_packet_conversed|rewrite app_nil_r..]; [|done].
  apply (steady_conversed _ self); [steady_fields|done].
Qed.

Lemma flush_acks_receiving t self : receiving (flush_acks t self) = receiving self.
Proof. unfold flush_acks, take_acks, send_ack_ranges. repeat (case_match || case_if); done. Qed.

Lemma receiver_turn_conversed t input out self :
  genuine_event (Receiver t input) -> conversed out self ->
  conversed (out ++ released (Receiver t input) self) (receiver_turn peer_addr local_addr t input self).
Proof.
  intros Hg Hcv. unfold released, receiver_turn.
  destruct (receiving self) eqn:Hrc; cbn [negb orb]; [|by rewrite app_nil_r].
  destruct (blocked self); [rewrite app_nil_r; eapply steady_conversed; [apply process_ready_steady|done]|].
  pose proof (steady_conversed _ _ _ (flush_acks_steady t self) Hcv) as Hcv1.
  assert (receiving (flush_acks t self) = true) as Hrc1 by (by rewrite flush_acks_receiving).
  cbv zeta. set (s1 := flush_acks t self) in *. clearbody s1.
  destruct (pending_data s1) as [|message rest].
  { case_if; [rewrite app_nil_r; apply (steady_conversed _ s1); [steady_fields|done]|by apply on_input_conversed]. }
  case_if; [rewrite app_nil_r; apply (steady_conversed _ s1); [steady_fields|done]|].
  destruct (try_reserve (user_data s1)) as [[] c].
  1,3: rewrite app_nil_r; apply (steady_conversed _ s1); [steady_fields|done].
  change (released_by_input t input s1) with (released_by_input t input (s1 <| user_data := c |>)).
  apply on_input_conversed; [done|done|]. apply (steady_conversed _ s1); [steady_fields|done].
Qed.

(** ** Histories *)

Lemma step_conversed e out self :
  genuine_event e -> conversed out self -> conversed (out ++ released e self) (step peer_addr local_addr e self).2.
Proof.
  intros Hg Hcv. destruct e as [t input|t| |? ? ? ? ? ? ?|? ? ? ? ? ? ?| |en|? ?|?];
    [by apply receiver_turn_conversed|..]; simpl; rewrite app_nil_r; apply (steady_conversed _ self); try done.
  - apply quiet_steady, tick_turn_quiet.
  - pose proof (recv_quiet self) as Hq. apply quiet_steady in Hq. by destruct (recv self) as [[[]|] s1].
  - apply quiet_steady, send_payload_quiet.
  - apply quiet_steady, send_together_quiet.
  - apply quiet_steady, close_quiet.
  - destruct recovery_policy; [|reflexivity]. unfold set_recovery_options. case_if; [reflexivity|steady_fields].
  - destruct send_policy; [|reflexivity]. unfold set_send_options. case_if; [reflexivity|].
    match goal with |- context [with_sendq ?m self] => pose proof (quiet_steady _ _ (with_sendq_quiet m self)) as Hw;
      destruct (with_sendq m self) as [[] s1] end; [|exact Hw].
    transitivity s1; [exact Hw|steady_fields].
Qed.

Lemma run_conversed events out self :
  Forall genuine_event events -> conversed out self ->
  conversed (out ++ (SocketRun.run peer_addr local_addr events self).1.2) (SocketRun.run peer_addr local_addr events self).2.
Proof.
  intros Hev. revert out self. induction Hev as [|e events He _ IH]; intros out self Hcv; [by rewrite app_nil_r|].
  cbn [SocketRun.run]. pose proof (step_conversed e out self He Hcv) as H1.
  destruct (step peer_addr local_addr e self) as [given s1]. cbn [snd] in H1. specialize (IH _ _ H1).
  destruct (SocketRun.run peer_addr local_addr events s1) as [[given' fs] s2]. simpl in *. by rewrite app_assoc.
Qed.

Lemma new_conversed mtu now : conversed [] (new_connection mtu now).
Proof.
  split; [by intros c|]. intros _. exists spec_default. split; [by apply new_delivery|]. split; [done|].
  split; simpl; [lia|set_solver].
Qed.
End Log.

(** ** From one application to the other *)

(** The datagrams of the peer: bytes, at most as long as memory, and of the frame sets only
    the ones that were put on the wire. Anything else may arrive beside them. *)
Definition from_wire (wire : list (list Z)) e : Prop :=
  match e with
  | Receiver _ (Datagram buf) =>
      Forall (in_range 8) buf /\ zlen buf < 2 ^ 64 /\
      (forall id, head buf = Some id -> PacketID.from id = Ok PacketID.FrameSetPacketBegin -> buf ∈ wire)
  | _ => True
  end.

Lemma decode_input_eq owned buf :
  Forall (in_range 8) buf -> zlen buf < 2 ^ 64 -> decode_input owned buf = FrameVec.decode_into buf.
Proof. intros Hb Hl. destruct owned; [by apply FrameCodec.decode_owned_into_eq|done]. Qed.

Lemma wire_genuine batched mtu events e :
  path_mtu mtu -> Forall channels_ok events -> sends_ok batched ->
  from_wire (on_the_wire batched mtu events) e -> genuine_event (sent_log mtu events) e.
Proof.
  intros Hm He Hb Hw. destruct e as [t [buf| |]| | | | | | | |]; try done. destruct Hw as (Hby & Hl & Hin).
  intros id Hid Hp owned fs Hd. rewrite decode_input_eq in Hd by done. apply list.Forall_forall. intros f Hf.
  by apply (wire_frames batched mtu events Hm He Hb buf fs f (Hin id Hid Hp)).
Qed.

(** From one application to the other. A send queue lives any history of fewer than
    [2^23] numbered frames; its peer is a whole connection, with its receiving task under the
    back-pressure of the application, its ticker, calls of its application to receive, send,
    close and configure, acknowledgements and packets of every other kind, in any order. Of
    the frame sets the network hands it any of those on the wire, any number of times, in any
    order. Then what the application has received, followed by what is on its way to it, are
    game packets released by the receive queue, in that order and each once, with none missing
    while the connection is open; and what was released on every ordered channel is a prefix
    of what the sender's application was accepted on it. *)
Theorem application_receives_what_was_sent mtu sent batched mtu_peer now events :
  path_mtu mtu -> Forall channels_ok sent -> sends_ok batched ->
  zlen (log_frames (sent_log mtu sent)) <= HALF ->
  Forall (from_wire (on_the_wire batched mtu sent)) events ->
  let out := SocketRun.run peer_addr local_addr events (new_connection mtu_peer now) in
  let got := games out.1.1 ++ games (stream out.2) in
  got `sublist_of` games (map payload out.1.2) /\
  (closed out.2 = false -> got = games (map payload out.1.2)) /\
  (forall c, map payload (delivered c out.1.2) `prefix_of` sent_on mtu c sent).
Proof.
  intros Hm Hs Hb Hshort Hev. destruct (run_log mtu sent Hm Hs) as [[HL _ _ _] _]. cbv zeta.
  destruct (new_connection_stream mtu_peer now) as [Hok Hst].
  destruct (run_stream peer_addr local_addr _ events Hok Hst) as [Hsub Heq]. split; [done|]. split; [done|].
  destruct (run_conversed (sent_log mtu sent) HL Hshort events [] (new_connection mtu_peer now)) as [Hcons _].
  { eapply Forall_impl; [|exact Hev]. intros e. by apply wire_genuine. }
  { by apply new_conversed. }
  intros c. destruct (consecutive_prefix _ c _ Hcons) as [rest Er]. exists rest. unfold sent_on. rewrite Er. f_equal.
  apply map_ext. intros f. unfold payload. by destruct (data f).
Qed.
End Conversation.

(** ** The theorem at work *)

(** A game packet in two fragments and a small one, arriving backwards and the first datagram
    twice, at a connection whose application then asks for both. *)
Definition sample_packets : list (list Z) := [0xfe :: repeat 7 99; [0xfe; 1; 2]].

Definition sample_sent : list SendQRun.event :=
  map (fun buf => Insert Reliability.ReliableOrdered buf 3 true) sample_packets ++ [Flush 10].

Abbreviation sample_wire := (@on_the_wire both_policies merge_sort_flight None 100 sample_sent).

Definition sample_events : list event :=
  map (fun d => Receiver sample_turn (Datagram d)) (reverse sample_wire ++ take 1 sample_wire) ++ [Recv; Recv].

Abbreviation sample_outcome :=
  (@SocketRun.run both_policies merge_sort_flight Channel _ (V4 (mk_ipv4 127 0 0 1) 7) (V4 (mk_ipv4 127 0 0 1) 8)
    sample_events (new_connection 1400 0)).

Lemma sample_wire_bytes : Forall (fun d => Forall (in_range 8) d /\ zlen d < 2 ^ 64) sample_wire.
Proof.
  apply (bool_decide_eq_true_1 (Forall (fun d => Forall (fun b => 0 <= b < 2 ^ 8) d /\ zlen d < 2 ^ 64) sample_wire)).
  vm_compute. reflexivity.
Qed.

Lemma rearranged_from_wire t ds :
  Forall (fun d => Forall (in_range 8) d /\ zlen d < 2 ^ 64) ds ->
  Forall (from_wire ds) (map (fun d => Receiver t (Datagram d)) (reverse ds ++ take 1 ds)).
Proof.
  intros Hds. apply Forall_map. eapply Forall_impl; [|apply rearranged]. intros d Hw.
  destruct (proj1 (list.Forall_forall _ _) Hds d Hw). by split_and!.
Qed.

Lemma sample_events_from_wire : Forall (from_wire sample_wire) sample_events.
Proof.
  unfold sample_events. apply Forall_app_2; [apply rearranged_from_wire, sample_wire_bytes|].
  repeat (apply Forall_cons_2; [exact I|]). apply Forall_nil_2.
Qed.

Lemma application_receives_what_was_sent_witness :
  closed sample_outcome.2 = false /\ sample_outcome.1.1 = sample_packets /\
  games sample_outcome.1.1 ++ games (stream sample_outcome.2) = games (map payload sample_outcome.1.2) /\
  map payload (delivered 3 sample_outcome.1.2) `prefix_of` sample_packets.
Proof.
  assert (closed sample_outcome.2 = false) as Ho by (vm_compute; reflexivity).
  assert (@sent_on both_policies merge_sort_flight 100 3 sample_sent = sample_packets) as <- by (vm_compute; reflexivity).
  destruct (@application_receives_what_was_sent both_policies merge_sort_flight Channel _ (V4 (mk_ipv4 127 0 0 1) 7)
    (V4 (mk_ipv4 127 0 0 1) 8) 100 sample_sent None 1400 0 sample_events) as (_ & He & Hp).
  - unfold path_mtu. lia.
  - repeat (apply Forall_cons_2; [simpl; unfold in_range; (lia || done)|]). apply Forall_nil_2.
  - done.
  - vm_compute. discriminate.
  - exact sample_events_from_wire.
  - split; [exact Ho|]. split; [vm_compute; reflexivity|]. split; [exact (He Ho)|exact (Hp 3)].
Defined.
