(* ===== verification/Spoken.v ===== *)
(** * What a connection says

    The messages that the send queue of a connection of [Socket] accepts over a history of
    its turns and calls, as a log ([Log]): those of its application and those it answers the
    packets of the handshake with. Every reliable frame of every datagram that the connection
    puts on the wire is a frame of this log. *)

From S2P Require Import Prelude Errors Sequence Datatype Packet PacketCodec Frame FrameCodec Fragment AckSet RecvQ Log Delivery SendOptions SendQ SendQInv SendQInsert SendQFlow SendQRun SendQWire SendLog Sending Runtime Udp Socket SocketRun SocketAcks SocketWire EndToEnd Conversation.
Import SendQ.

(** ** The send queue *)

Section Queue.
Context {feat : Features} {usort : UnstableSort}.
Context (m : Z) (Hpath : path_mtu m).
Implicit Types (q : SendQ) (L : list Log.Message) (out : OutgoingFrames).

(** A queue that a connection keeps, and the log of what it accepted. *)
Record sound L q : Prop := {
  so_wire : wire_inv q;
  so_mtu : SendQ.mtu q = m;
  so_options : valid_options q;
  so_log : log_inv L q;
}.

(** What a flush returns: frames that can be sent, the reliable ones out of the log. *)
Record said L out : Prop := {
  sa_sendable : Forall (sendable m) (frames out);
  sa_length : zlen (frames out) < 2 ^ 48;
  sa_log : forall f, f ∈ frames out -> relb f = true -> body f ∈ log_frames L;
}.

Lemma mtu_16 : in_range 16 m.
Proof. unfold path_mtu, in_range in *. lia. Qed.

Lemma handle_sound e q L :
  channels_ok e -> valid_event e -> sound L q -> sound (L ++ log_event e q) (SendQRun.handle e q).
Proof.
  intros Hc He [Hw Em Ho Hl]. pose proof mtu_16.
  destruct (handle_inv e q) as [_ Em']; [by rewrite Em|apply Hw|]. rewrite <- Em in Hpath.
  split; [by apply handle_wire|congruence|apply handle_valid; [apply Hw|done|done]|].
  apply handle_log; [done|by rewrite Em|done].
Qed.

Lemma insert_sound r buf channel owned q L :
  in_range 8 channel -> sound L q ->
  sound (L ++ log_event (Insert r buf channel owned) q) (insert_payload r buf channel owned q).2.
Proof. intros Hc. by apply (handle_sound (Insert r buf channel owned)). Qed.

(** Events that accept nothing. *)
Lemma quiet_event_sound e q L :
  valid_event e -> channels_ok e -> log_event e q = [] -> sound L q -> sound L (SendQRun.handle e q).
Proof. intros He Hc El Hs. pose proof (handle_sound e q L Hc He Hs) as H. by rewrite El, app_nil_r in H. Qed.

Lemma register_sound q L : sound L q -> sound L (register_capacity_notifier q).
Proof.
  intros [Hw Em Ho [Hwf HR Hord Hh]]. destruct (register_inv q (wire_accounted _ Hw)) as (_ & Eh & Em').
  assert (forall s', scheduler (register_capacity_notifier q) = Some s' ->
    exists s, scheduler q = Some s /\ options s = options s') as Hopt.
  { unfold register_capacity_notifier. destruct (scheduler q) as [s|] eqn:Es; [|intros s' H; congruence].
    destruct (capacity_notifier s); intros s' H; [exists s'; by rewrite <- Es|]. injection H as <-. by exists s. }
  split; [by apply register_wire|congruence|by apply (same_options_valid q)|].
  assert (reliable_frame_index (register_capacity_notifier q) = reliable_frame_index q /\
    ordered_frame_indexes (register_capacity_notifier q) = ordered_frame_indexes q) as [E1 E2]
    by (unfold register_capacity_notifier; destruct (scheduler q) as [s|]; [by destruct (capacity_notifier s)|done]).
  split; [done|by rewrite E1|by rewrite E2|by rewrite Eh].
Qed.

Lemma flush_sound now q L :
  sound L q -> sound L (flush now q).2 /\ said L (flush now q).1.
Proof.
  intros Hs. split; [by apply (quiet_event_sound (Flush now))|]. destruct Hs as [Hw Em _ Hl].
  destruct (flush_wire now q Hw) as [_ Hsend]. rewrite Em in Hsend.
  split; [done|apply flush_length, Hw|]. intros f Hf Hr. apply (gi_holdings _ _ Hl); [|by rewrite relb_body].
  destruct (flush_sends now q (wire_accounted _ Hw)) as [_ _ (new & Hout & Hnew) _]. simpl in Hout. subst new.
  apply Hnew. by apply list_elem_of_fmap_2.
Qed.

Lemma new_sound : sound [] (SendQ.new m).
Proof. split; [apply new_wire|done|done|apply new_log]. Qed.
End Queue.

(** ** Sections that insert *)

Section Insertions.
Context {feat : Features} {usort : UnstableSort}.
Context (m : Z) (Hpath : path_mtu m).
Implicit Types (q : SendQ) (L : list Log.Message) (out : OutgoingFrames) (items : list (Reliability * list Z * Z * bool)).

(** Insertions up to the first that is refused, and what they add to the log. *)
Fixpoint insert_all items : SE SendQ unit :=
  match items with
  | [] => mret tt
  | (r, buf, channel, owned) :: items => _ ← insert_payload r buf channel owned; insert_all items
  end.

Fixpoint inserts_log items q : list Log.Message :=
  match items with
  | [] => []
  | (r, buf, channel, owned) :: items =>
      log_event (Insert r buf channel owned) q ++
      match insert_payload r buf channel owned q with
      | (Ok _, q) => inserts_log items q
      | (Err _, _) => []
      end
  end.

Definition item_ok (item : Reliability * list Z * Z * bool) : Prop := in_range 8 item.1.2.

Lemma insert_all_sound items q L :
  Forall item_ok items -> sound m L q -> sound m (L ++ inserts_log items q) (insert_all items q).2.
Proof.
  intros Hi. revert q L. induction Hi as [|[[[r buf] channel] owned] items Hc _ IH]; intros q L Hs; [by rewrite app_nil_r|].
  cbn [insert_all inserts_log]. pose proof (insert_sound m Hpath r buf channel owned q L Hc Hs) as H1. unfold mbind, SE_bind.
  destruct (insert_payload r buf channel owned q) as [[[]|e] q1]; [|by rewrite app_nil_r].
  specialize (IH q1 _ H1). by rewrite app_assoc.
Qed.

Lemma insert_all_app l1 l2 q : insert_all (l1 ++ l2) q = (_ ← insert_all l1; insert_all l2) q.
Proof.
  revert q. induction l1 as [|[[[r buf] channel] owned] l1 IH]; intros q; [done|]. cbn [app insert_all].
  unfold mbind, SE_bind in *. by destruct (insert_payload r buf channel owned q) as [[[]|e] q1].
Qed.

Definition items_of r channel owned (messages : list (list Z)) : list (Reliability * list Z * Z * bool) :=
  map (fun message => (r, message, channel, owned)) messages.

Lemma insert_messages_all r messages channel owned q :
  insert_messages r messages channel owned q = insert_all (items_of r channel owned messages) q.
Proof.
  revert q. induction messages as [|message messages IH]; intros q; [done|]. cbn [insert_messages items_of map insert_all].
  unfold mbind, SE_bind. by destruct (insert_payload r message channel owned q) as [[[]|e] q1].
Qed.

(** The insertions of a batch. *)
Definition batch_items (borrowed owned : list (list Z)) r channel : list (Reliability * list Z * Z * bool) :=
  items_of r channel false borrowed ++ items_of r channel true owned.

Lemma batch_items_ok borrowed owned r channel : in_range 8 channel -> Forall item_ok (batch_items borrowed owned r channel).
Proof. intros Hc. apply Forall_app. split; apply Forall_map; by apply list.Forall_forall. Qed.

(** *** The locked sections *)

Definition payload_log r buf channel owned q : list Log.Message :=
  match has_capacity q r (zlen buf) with
  | Ok true => inserts_log [(r, buf, channel, owned)] q
  | _ => []
  end.

(** The queue that the messages of a batch are inserted into. *)
Definition batch_queue r q : SendQ := if bool_decide (r = Reliability.ReliableOrdered) then enable_coalescing q else q.

Definition batch_log (borrowed owned : list (list Z)) r channel q : list Log.Message :=
  match has_batch_capacity q r (map (fun x => zlen x) (borrowed ++ owned)) with
  | Ok true => inserts_log (batch_items borrowed owned r channel) (batch_queue r q)
  | _ => []
  end.

(** Insertions, then a flush. *)
Definition insert_and_flush items (now : Z) : SE SendQ (option OutgoingFrames) :=
  _ ← insert_all items; flush_frames now.

Lemma payload_locked_all r buf channel owned now q :
  send_payload_locked r buf channel owned now q =
    match has_capacity q r (zlen buf) with
    | Ok true => insert_and_flush [(r, buf, channel, owned)] now q
    | Ok false => (Ok None, q)
    | Err e => (Err e, q)
    end.
Proof.
  unfold send_payload_locked. erewrite SE_bind_ok by reflexivity. destruct (has_capacity q r (zlen buf)) as [[]|e]; [|done..].
  erewrite SE_bind_ok by reflexivity. unfold insert_and_flush. cbn [insert_all].
  unfold insert_bytes, insert_with_order_channel, mbind, SE_bind. by destruct owned; destruct (insert_payload _ _ _ _ _) as [[[]|e] q1].
Qed.

Lemma batch_locked_all borrowed owned r channel now q :
  send_batch_locked borrowed owned r channel now q =
    match has_batch_capacity q r (map (fun x => zlen x) (borrowed ++ owned)) with
    | Ok true => insert_and_flush (batch_items borrowed owned r channel) now (batch_queue r q)
    | Ok false => (Ok None, q)
    | Err e => (Err e, q)
    end.
Proof.
  unfold send_batch_locked. erewrite SE_bind_ok by reflexivity.
  destruct (has_batch_capacity q r _) as [[]|e]; [|done..]. erewrite SE_bind_ok by reflexivity.
  unfold insert_and_flush, batch_items, batch_queue. unfold mbind, SE_bind at 1.
  assert ((if bool_decide (r = Reliability.ReliableOrdered) then modify enable_coalescing else mret tt : SE SendQ unit) q =
    (Ok tt, batch_queue r q)) as -> by (unfold batch_queue; by case_bool_decide).
  fold (batch_queue r q). unfold mbind, SE_bind. rewrite insert_all_app. unfold mbind, SE_bind. rewrite insert_messages_all.
  destruct (insert_all _ (batch_queue r q)) as [[[]|e] q1]; [|done]. by rewrite insert_messages_all.
Qed.

Lemma insert_and_flush_sound items now q L :
  Forall item_ok items -> sound m L q ->
  sound m (L ++ inserts_log items q) (insert_and_flush items now q).2 /\
  forall out, (insert_and_flush items now q).1 = Ok (Some out) -> said m (L ++ inserts_log items q) out.
Proof.
  intros Hi Hs. pose proof (insert_all_sound items q L Hi Hs) as H1. unfold insert_and_flush, mbind, SE_bind.
  destruct (insert_all items q) as [[[]|e] q1]; simpl in *; [|done].
  destruct (flush_sound m Hpath now q1 _ H1) as [H2 Ho]. unfold flush_frames. destruct (flush now q1) as [out q2].
  split; [done|]. by intros ? [= <-].
Qed.

(** A section that is sound, with what it adds to the log and the frames it returns. *)
Definition section_sound (section : SE SendQ (option OutgoingFrames)) (said_by : SendQ -> list Log.Message) : Prop :=
  forall q L, sound m L q -> sound m (L ++ said_by q) (section q).2 /\
    forall out, (section q).1 = Ok (Some out) -> said m (L ++ said_by q) out.

Lemma payload_locked_sound r buf channel owned now :
  in_range 8 channel -> section_sound (send_payload_locked r buf channel owned now) (payload_log r buf channel owned).
Proof.
  intros Hc q L Hs. rewrite payload_locked_all. unfold payload_log.
  destruct (has_capacity q r (zlen buf)) as [[]|e]; [|by rewrite app_nil_r..].
  apply insert_and_flush_sound; [by constructor|done].
Qed.

Lemma batch_locked_sound borrowed owned r channel now :
  in_range 8 channel -> section_sound (send_batch_locked borrowed owned r channel now) (batch_log borrowed owned r channel).
Proof.
  intros Hc q L Hs. rewrite batch_locked_all. unfold batch_log.
  destruct (has_batch_capacity q r _) as [[]|e]; [|by rewrite app_nil_r..].
  apply insert_and_flush_sound; [by apply batch_items_ok|]. unfold batch_queue. case_bool_decide; [|done].
  by apply (quiet_event_sound m Hpath EnableCoalescing).
Qed.
End Insertions.

(** ** Datagrams of frames *)

Section Datagrams.
Context (m : Z).
Implicit Types (f : FrameSetPacket) (fs : list FrameSetPacket) (d : list Z).

(** The datagram decodes to some of the frames. *)
Definition decodes_from fs d : Prop :=
  exists g, g ⊆ fs /\ FrameVec.decode_into d = Ok (map (fun f => on_wire f (rel_of f)) g).

Lemma from_mono fs fs' d : fs ⊆ fs' -> decodes_from fs d -> decodes_from fs' d.
Proof. intros H (g & Hg & Hd). exists g. split; [set_solver|done]. Qed.

Lemma delivers_from ds fs : delivers ds fs -> Forall (decodes_from fs) ds.
Proof.
  intros (groups & <- & Hd). apply list.Forall_forall. intros d [i Hi]%list_elem_of_lookup.
  destruct (Forall2_lookup_l _ _ _ _ _ Hd Hi) as (g & Hg & E). exists g. split; [|done].
  intros f Hf. apply elem_of_concat. exists g. split; [done|]. by apply (list_elem_of_lookup_2 _ i).
Qed.

Lemma singles_from fs : Forall (sendable m) fs -> Forall (decodes_from fs) (send_each frame_datagram fs).1.
Proof.
  intros Hs. pose proof (send_each_legible m fs Hs) as H. destruct (send_each frame_datagram fs) as [ds r].
  destruct H as (_ & _ & H). by apply delivers_from.
Qed.

Lemma subset_take n fs : take n fs ⊆ fs.
Proof. intros f (i & Hi & _)%elem_of_take. by apply list_elem_of_lookup_2 in Hi. Qed.

Lemma subset_drop n fs : drop n fs ⊆ fs.
Proof. intros f Hf. rewrite <- (take_drop n fs). apply elem_of_app. by right. Qed.

Lemma send_frames_from fuel sendmmsg fs :
  Forall (sendable m) fs -> Forall (decodes_from fs) (send_frames fuel sendmmsg fs).1.
Proof.
  revert sendmmsg fs. induction fuel as [|fuel IH]; intros sendmmsg fs Hs; simpl; [constructor|].
  destruct fs as [|f fs]; [constructor|]. unfold send_ready.
  pose proof (singles_from (take BATCH (f :: fs)) (Forall_take _ _ _ Hs)) as Hn.
  pose proof (send_each_legible m (take BATCH (f :: fs)) (Forall_take _ _ _ Hs)) as Hr.
  destruct (send_each frame_datagram _) as [ds r]. destruct Hr as (-> & _).
  destruct (sendmmsg 0%nat) as [[|k]|]; [constructor| |constructor].
  specialize (IH (fun n => sendmmsg (S n)) (drop (S k) (f :: fs)) (Forall_drop _ _ _ Hs)).
  destruct (send_frames fuel _ _) as [sent r]. apply Forall_app. split.
  - apply Forall_take. eapply Forall_impl; [|exact Hn]. intros d. apply from_mono, subset_take.
  - eapply Forall_impl; [|exact IH]. intros d. apply from_mono, subset_drop.
Qed.

(** Whichever way frames leave. *)
Lemma transmit_frames_from batched (out : OutgoingFrames) :
  Forall (sendable m) (frames out) -> zlen (frames out) < 2 ^ 48 ->
  Forall (decodes_from (frames out)) (transmit_frames batched out).1.
Proof.
  intros Hs Hl. unfold transmit_frames. rewrite send_each_serialize. change send_frame with frame_datagram.
  pose proof (singles_from _ Hs) as H1. case_if; [done|]. destruct (coalesced out).
  { pose proof (send_groups_legible m _ _ (le_n _) Hl Hs) as Hg.
    destruct (send_groups (length (frames out)) (frames out)) as [ds r]. destruct Hg as (_ & _ & Hg). by apply delivers_from. }
  destruct batched as [sendmmsg|]; [by apply send_frames_from|done].
Qed.

Lemma transmit_replies_from batched (out : OutgoingFrames) bulk :
  Forall (sendable m) (frames out) -> zlen (frames out) < 2 ^ 48 ->
  Forall (decodes_from (frames out)) (transmit_replies batched out bulk).1.1.
Proof.
  intros Hs Hl. unfold transmit_replies. repeat case_if; [by apply transmit_frames_from..|].
  rewrite send_each_serialize. by apply singles_from.
Qed.

Lemma transmit_maintenance_from `{!Features} batched (out : OutgoingFrames) :
  Forall (sendable m) (frames out) -> zlen (frames out) < 2 ^ 48 ->
  Forall (decodes_from (frames out)) (transmit_maintenance_frames batched out).
Proof.
  intros Hs Hl. unfold transmit_maintenance_frames. case_if; [by apply transmit_frames_from|].
  unfold send_singly. clear Hl. induction Hs as [|f fs Hf _ IH]; [constructor|]. cbn [omap list_omap].
  change (send_frame f) with (frame_datagram f). destruct (frame_datagram_legible m f Hf) as (-> & _ & Hd).
  constructor; [exists [f]; split; [set_solver|done]|]. eapply Forall_impl; [|exact IH]. intros d. apply from_mono. set_solver.
Qed.

(** Every frame of the datagram, if it is a frame set, is of the log. *)
Definition voiced (L : list Log.Message) d : Prop :=
  forall id, head d = Some id -> PacketID.from id = Ok PacketID.FrameSetPacketBegin ->
  forall fs, FrameVec.decode_into d = Ok fs -> Forall (of_log L) fs.

Lemma of_log_mono L M f : of_log L f -> of_log (L ++ M) f.
Proof.
  intros [Hw Hc]. split; [done|]. intros Hr. destruct (Hc Hr) as (R & g & HR & Hg). exists R, g. split; [|done].
  rewrite log_frames_app. by apply lookup_app_l_Some.
Qed.

Lemma voiced_mono L M d : voiced L d -> voiced (L ++ M) d.
Proof.
  intros Hv id Hid Hp fs Hd. eapply Forall_impl; [|exact (Hv id Hid Hp fs Hd)]. intros f. apply of_log_mono.
Qed.

(** A frame of the log, as it comes out of the decoder. *)
Lemma on_wire_of_log L f : sendable m f -> (relb f = true -> body f ∈ log_frames L) -> of_log L (on_wire f (rel_of f)).
Proof.
  intros [Hwf _] Hlog. split; [by apply on_wire_wf|].
  destruct (on_wire_mode f (rel_of f)) as [-> _]. intros Hr.
  pose proof (val_reliability _ _ (wf_validated _ _ Hwf)) as Hok.
  destruct (list_elem_of_lookup_1 _ _ (Hlog ltac:(unfold relb; by rewrite (is_reliable_ok _ _ Hok)))) as [R HR].
  exists R, (body f). split; [done|by apply on_wire_copy].
Qed.

Lemma carried_voiced L (out : OutgoingFrames) ds :
  said m L out -> Forall (decodes_from (frames out)) ds -> Forall (voiced L) ds.
Proof.
  intros [Hs _ Hlog] Hc. eapply Forall_impl; [|exact Hc]. intros d (g & Hg & Hd) id _ _ fs Hfs.
  rewrite Hd in Hfs. injection Hfs as <-. apply Forall_map, list.Forall_forall. intros f Hf. apply Hg in Hf.
  apply on_wire_of_log; [by apply (proj1 (list.Forall_forall _ _) Hs)|by apply Hlog].
Qed.

(** Packets of another kind. *)
Lemma control_voiced L kind bytes :
  kind <> PacketID.FrameSetPacketBegin -> PacketID.from (PacketID.to_u8 kind) = Ok kind -> voiced L (PacketID.to_u8 kind :: bytes).
Proof. intros Hk Hp id [= <-]. rewrite Hp. intros [= ?]. done. Qed.
End Datagrams.

(** ** The connection *)

Section Connections.
Context {feat : Features} {usort : UnstableSort} `{Mpsc chan}.
Context (peer_addr local_addr : SocketAddr).
Implicit Types (self : Connection chan) (t : Turn) (e : SocketRun.event) (L : list Log.Message).

(** *** The answers of the handshake *)

(** What [handle] answers a packet with. *)
Definition replies t (w : nat) (frame : FrameSetPacket) : list (Reliability * list Z * Z * bool) :=
  let reliably buf := (Reliability.ReliableOrdered, buf, 0, false) in
  let unreliably buf := (Reliability.Unreliable, buf, 0, false) in
  let buf := FramePayload.deref (data frame) in
  match buf with
  | [] => []
  | packet_id :: _ =>
      match PacketID.from packet_id with
      | Ok PacketID.ConnectionRequest =>
          match read_packet_connection_request buf with
          | Ok packet =>
              match write_packet_connection_request_accepted
                      (mk_ConnectionRequestAccepted peer_addr 0 (creq_time packet) (wall t w)) with
              | Ok buf => [reliably buf]
              | Err _ => []
              end
          | Err _ => []
          end
      | Ok PacketID.ConnectionRequestAccepted =>
          match read_packet_connection_request_accepted buf with
          | Ok packet =>
              match write_packet_new_incomming_connection
                      (mk_NewIncomingConnection local_addr (acc_request_timestamp packet) (wall t w)) with
              | Ok buf =>
                  reliably buf
                  :: match write_packet_connected_ping (mk_ConnectedPing (wall t (S w))) with
                     | Ok buf => [unreliably buf]
                     | Err _ => []
                     end
              | Err _ => []
              end
          | Err _ => []
          end
      | Ok PacketID.ConnectedPing =>
          match read_packet_connected_ping buf with
          | Ok packet =>
              match write_packet_connected_pong (mk_ConnectedPong (ping_client_timestamp packet) (wall t w)) with
              | Ok buf => [unreliably buf]
              | Err _ => []
              end
          | Err _ => []
          end
      | _ => []
      end
  end.

Lemma insert_last r buf q : (insert_all [(r, buf, 0, false)] q).2 = (SendQ.insert r buf q).2.
Proof.
  unfold insert_all, SendQ.insert, insert_with_order_channel, mbind, SE_bind. by destruct (insert_payload r buf 0 false q) as [[[]|e] q1].
Qed.

(** They are all that [handle] does to the queue. *)
Lemma handle_replies t w frame self :
  let self' := (handle peer_addr local_addr t w frame self).2 in
  sendq self' = (insert_all (replies t w frame) (sendq self)).2 /\ wire self' = wire self.
Proof.
  unfold handle, replies. destruct (FramePayload.deref (data frame)) as [|id bytes]; [done|].
  destruct (PacketID.from id) as [[]|]; try (split; [done|]; done);
    try (destruct (try_send _ (user_data self)) as [[] c]; done); unfold with_sendq.
  - destruct (read_packet_connected_ping _) as [p|]; [|done]. erewrite SE_bind_ok by reflexivity.
    destruct (write_packet_connected_pong _) as [b|]; [|done]. erewrite SE_bind_ok by reflexivity.
    rewrite insert_last. by destruct (SendQ.insert _ b (sendq self)).
  - destruct (read_packet_connection_request _) as [p|]; [|done]. erewrite SE_bind_ok by reflexivity.
    destruct (write_packet_connection_request_accepted _) as [b|]; [|done]. erewrite SE_bind_ok by reflexivity.
    rewrite insert_last. by destruct (SendQ.insert _ b (sendq self)).
  - destruct (read_packet_connection_request_accepted _) as [p|]; [|done]. erewrite SE_bind_ok by reflexivity.
    destruct (write_packet_new_incomming_connection _) as [b|]; [|done]. erewrite SE_bind_ok by reflexivity.
    cbn [insert_all]. change (SendQ.insert Reliability.ReliableOrdered b) with (insert_payload Reliability.ReliableOrdered b 0 false).
    unfold mbind, SE_bind. destruct (insert_payload _ b 0 false (sendq self)) as [[[]|e] q1]; [|done].
    destruct (write_packet_connected_ping _) as [b'|]; [|done]. rewrite insert_last. unfold lift.
    by destruct (SendQ.insert Reliability.Unreliable b' q1).
Qed.


(** *** The log of an event *)

(** What the answer to a frame that is ready adds. *)
Definition answered t (k : nat) (frame : FrameSetPacket) self : list Log.Message :=
  if bool_decide (head (FramePayload.deref (data frame)) = Some (PacketID.to_u8 PacketID.Game)) then []
  else if closed self && take_close t k then []
  else inserts_log (replies t (2 * k) frame) (sendq self).

Fixpoint ready_log t (k : nat) (frames : list FrameSetPacket) self : list Log.Message :=
  match frames with
  | [] => []
  | frame :: rest =>
      answered t k frame self ++
      match on_ready peer_addr local_addr t k frame self with
      | (Next, self) => ready_log t (S k) rest self
      | _ => []
      end
  end.

Definition frame_set_log t (buf : list Z) self : list Log.Message :=
  if (1024 * 1024 <=? pending_bytes self) || (4096 <=? zlen (pending_data self)) then []
  else match decode_input (owned_input t) buf with
  | Err _ => []
  | Ok decoded_frames =>
      let self := if received_since_ack self =? 0 then self <| received_since_ack := 1 |> else self in
      let arrivals := imap (fun i frame => (clock t (1 + i), frame)) decoded_frames in
      let '(invalid, ready, q) := receive arrivals [] (recvq self) in
      let self := self <| recvq := q |> in
      let self :=
        if drained_after t || (32 <=? received_since_ack self) then
          let '(ranges, q) := take_acks (recvq self) in
          self <| received_since_ack := 0 |> <| recvq := q |> <| acks := ranges |>
        else self <| acks := [] |> in
      let self := if needs_maintenance (recvq self)
                  then self <| maintenance := leave_idle (maintenance self) |> else self in
      if invalid : bool then [] else ready_log t (1 + length decoded_frames) ready self
  end.

Definition packet_log t (buf : list Z) self : list Log.Message :=
  match buf with
  | [] => []
  | packet_id :: _ =>
      let self := if negb (received_since_ack self =? 0)
                  then self <| received_since_ack := received_since_ack self + 1 |> else self in
      let self := self <| last_heartbeat_time := clock t 0 |> in
      match PacketID.from packet_id with
      | Ok PacketID.FrameSetPacketBegin => frame_set_log t buf self
      | _ => []
      end
  end.

Definition input_log t (input : Input) self : list Log.Message :=
  match input with Datagram buf => packet_log t buf self | _ => [] end.

Definition turn_log t (input : Input) self : list Log.Message :=
  if negb (receiving self) then []
  else if blocked self then ready_log t 0 (ready_frames self) self
  else
    let self := flush_acks t self in
    match pending_data self with
    | [] => if closed self && take_close t 0 then [] else input_log t input self
    | _ =>
        if closed self then []
        else match try_reserve (user_data self) with
        | (Full, c) => input_log t input (self <| user_data := c |>)
        | _ => []
        end
    end.

(** Whether a call of [send] or of a batch gets past its checks. *)
Definition may_send self : bool := match wait_for_handshake self with Some (Ok _) => true | _ => false end.

Definition event_log e self : list Log.Message :=
  match e with
  | Receiver t input => turn_log t input self
  | Send buf r order_channel owned _ _ _ =>
      if bool_decide (head buf = Some 0xfe) && may_send self then payload_log r buf order_channel owned (sendq self) else []
  | SendTogether borrowed owned r order_channel _ _ _ =>
      if may_send self then batch_log borrowed owned r order_channel (sendq self) else []
  | Close =>
      if closed self then []
      else log_event (Insert Reliability.Reliable [PacketID.to_u8 PacketID.Disconnect] 0 false) (sendq self)
  | _ => []
  end.

(** The log of a history. *)
Fixpoint spoken (events : list SocketRun.event) self : list Log.Message :=
  match events with
  | [] => []
  | e :: events => event_log e self ++ spoken events (step peer_addr local_addr e self).2
  end.

(** *** The invariant *)

Context (m : Z) (Hpath : path_mtu m).

Record speaks L self : Prop := {
  sk_queue : sound m L (sendq self);
  sk_wire : Forall (voiced L) (wire self);
}.

Lemma speaks_same L self self' : sendq self' = sendq self -> wire self' = wire self -> speaks L self -> speaks L self'.
Proof. intros E1 E2 [Hq Hw]. split; by rewrite ?E1, ?E2. Qed.

Ltac same := match goal with H : speaks _ _ |- speaks _ _ => refine (speaks_same _ _ _ _ _ H); reflexivity end.

Lemma push_wire_speaks ds L self : Forall (voiced L) ds -> speaks L self -> speaks L (push_wire ds self).
Proof. intros Hd [Hq Hw]. split; [done|by apply Forall_app]. Qed.

Lemma wire_grows L M ds : Forall (voiced L) ds -> Forall (voiced (L ++ M)) ds.
Proof. apply Forall_impl. intros d. apply voiced_mono. Qed.

Lemma flush_sendq_speaks now wake L self :
  speaks L self -> speaks L (flush_sendq now wake self).2 /\ said m L (flush_sendq now wake self).1.
Proof.
  intros [Hq Hw]. unfold flush_sendq. destruct (flush_sound m Hpath now _ _ Hq) as [Hq' Ho].
  destruct (SendQ.flush now (sendq self)). split; [by split|done].
Qed.

Lemma said_voiced L (out : OutgoingFrames) batched bulk : said m L out ->
  Forall (voiced L) (transmit_frames batched out).1 /\ Forall (voiced L) (transmit_replies batched out bulk).1.1 /\
  Forall (voiced L) (transmit_maintenance_frames batched out).
Proof.
  intros Hs. pose proof Hs as [H1 H2 _].
  split; [|split]; (eapply carried_voiced; [exact Hs|]).
  - by apply (transmit_frames_from m).
  - by apply (transmit_replies_from m).
  - by apply (transmit_maintenance_from m).
Qed.

Lemma control_pushed_speaks kind l L self :
  kind = PacketID.Ack \/ kind = PacketID.Nack -> speaks L self ->
  speaks L match write_control_ranges_into kind l [] with
           | (Ok _, packet) => push_wire [packet] self
           | (Err _, _) => self
           end.
Proof.
  intros Hk Hs. destruct (decide (zlen l < 2 ^ 16)) as [Hn|Hn].
  - rewrite write_control_ranges_into_ok by done. apply push_wire_speaks; [|done]. constructor; [|constructor].
    destruct Hk as [-> | ->]; by apply (control_voiced L).
  - unfold write_control_ranges_into, fail_if. by rewrite (proj2 (Z.leb_le _ _)) by lia.
Qed.

Lemma send_ack_ranges_speaks l L self : speaks L self -> speaks L (send_ack_ranges l self).
Proof. intros Hs. unfold send_ack_ranges. destruct l; [done|]. apply control_pushed_speaks; auto. Qed.

Lemma flush_acks_speaks t L self : speaks L self -> speaks L (flush_acks t self).
Proof.
  intros Hs. unfold flush_acks. case_if; [|done]. destruct (take_acks (recvq self)) as [ranges q].
  set (s1 := self <| recvq := _ |> <| acks := _ |>). assert (speaks L s1) as H1 by same.
  apply (send_ack_ranges_speaks ranges) in H1. clear Hs. same.
Qed.

Lemma send_nacks_speaks L self : speaks L self -> speaks L (send_nacks self).
Proof.
  intros Hs. unfold send_nacks. destruct (take_nacks (recvq self)) as [nacks q].
  set (s1 := self <| recvq := _ |>). assert (speaks L s1) as H1 by same. clear Hs.
  destruct nacks; [done|]. apply control_pushed_speaks; auto.
Qed.

Lemma on_feedback_speaks t update L self :
  (forall now q, sound m L q -> sound m L (update now q)) -> speaks L self -> speaks L (on_feedback t update self).
Proof.
  intros Hu [Hq Hw]. unfold on_feedback. set (s1 := self <| sendq := _ |>).
  assert (speaks L s1) as H1 by (split; [by apply Hu|done]). clearbody s1. clear Hq Hw.
  destruct (flush_sendq_speaks (if recovery_policy then clock t 2 else clock t 1) true L s1 H1) as [H2 Ho].
  destruct (flush_sendq _ true s1) as [out s2]. simpl in *.
  destruct (said_voiced L out (batched_sends t) (bulk_sender s2) Ho) as (_ & Hd & _).
  destruct (transmit_replies _ _ _) as [[d r] bulk]. apply push_wire_speaks; [done|]. clear H1. same.
Qed.

(** *** The tasks *)

Lemma deliver_game_speaks message L self : speaks L self -> speaks L (deliver_game message self).2.
Proof.
  intros Hs. unfold deliver_game. destruct (pending_data self); [|same].
  destruct (try_send message (user_data self)) as [[] c]; same.
Qed.

Lemma handle_speaks t w frame L self :
  speaks L self ->
  speaks (L ++ inserts_log (replies t w frame) (sendq self)) (handle peer_addr local_addr t w frame self).2.
Proof.
  intros [Hq Hw]. destruct (handle_replies t w frame self) as [E1 E2].
  split; [|rewrite E2; by apply wire_grows]. rewrite E1. apply (insert_all_sound m Hpath); [|done].
  unfold replies.
  repeat case_match; repeat (apply Forall_cons_2; [unfold item_ok, in_range; simpl; lia|]); apply Forall_nil_2.
Qed.

Lemma after_handle_speaks t k r L self : speaks L self -> speaks L (after_handle t k r self).2.
Proof.
  intros Hs. unfold after_handle. destruct r as [action|]; [|done].
  destruct (flush_sendq_speaks (clock t k) true L self Hs) as [H1 Ho].
  destruct (said_voiced L _ (batched_sends t) true Ho) as (Hd & _ & _).
  destruct action; [| |same];
    (destruct (flush_sendq _ true self) as [out s1]; simpl in H1, Hd; clear Hs Ho;
     destruct (transmit_frames _ out) as [ds r]; simpl in Hd;
     set (s2 := match frames out with [] => s1 | _ => _ end);
     assert (speaks L s2) as H2 by (unfold s2; destruct (frames out); same);
     apply (push_wire_speaks ds) in H2; [|done]; set (s3 := push_wire ds s2) in *; clearbody s3; clear H1 s2;
     destruct r as [|e]; simpl; [same|case_if; simpl; same]).
Qed.

Lemma on_ready_speaks t k f L self :
  speaks L self -> speaks (L ++ answered t k f self) (on_ready peer_addr local_addr t k f self).2.
Proof.
  intros Hs. unfold answered, on_ready. case_if; [rewrite app_nil_r; by apply deliver_game_speaks|].
  case_if; [by rewrite app_nil_r|]. pose proof (handle_speaks t (2 * k) f L self Hs) as Hh.
  destruct (handle _ _ t _ f self) as [[r|] s1]; [by apply after_handle_speaks|done].
Qed.

Lemma process_ready_speaks t k fs L self :
  speaks L self -> speaks (L ++ ready_log t k fs self) (process_ready peer_addr local_addr t k fs self).
Proof.
  assert (forall (should_close : bool) L self, speaks L self ->
    speaks L (let s1 := send_ack_ranges (acks self) (self <| ready_frames := [] |> <| blocked := false |>) in
      if should_close then end_receiver s1 else s1)) as Hfinish.
  { intros should_close L0 s Hs. cbv zeta.
    set (s1 := s <| ready_frames := _ |> <| blocked := _ |>). assert (speaks L0 s1) as H1 by same.
    pose proof (send_ack_ranges_speaks (acks s) L0 s1 H1) as H2. clear Hs H1. case_if; [same|done]. }
  revert k L self. induction fs as [|f fs IH]; intros k L self Hs; cbn [process_ready ready_log].
  { rewrite app_nil_r. by apply (Hfinish false). }
  pose proof (on_ready_speaks t k f L self Hs) as H1. destruct (on_ready _ _ t k f self) as [p s1]. simpl in H1. clear Hs.
  rewrite app_assoc. destruct p; [by apply IH|rewrite app_nil_r; by apply Hfinish|rewrite app_nil_r; same].
Qed.

Lemma on_frame_set_speaks t buf L self :
  speaks L self -> speaks (L ++ frame_set_log t buf self) (on_frame_set peer_addr local_addr t buf self).
Proof.
  intros Hs. unfold frame_set_log, on_frame_set. case_if; [by rewrite app_nil_r|].
  destruct (decode_input (owned_input t) buf) as [fs|]; [|by rewrite app_nil_r]. cbv zeta.
  set (s1 := if received_since_ack self =? 0 then _ else self).
  assert (speaks L s1) as H1 by (unfold s1; case_if; same). clearbody s1. clear Hs.
  destruct (receive _ [] (recvq s1)) as [[invalid ready] q].
  set (s2 := s1 <| recvq := q |>). assert (speaks L s2) as H2 by same. clearbody s2. clear H1.
  set (s3 := if drained_after t || _ then _ else _).
  assert (speaks L s3) as H3 by (unfold s3; case_if; [destruct (take_acks (recvq s2))|]; same). clearbody s3. clear H2.
  set (s4 := if needs_maintenance (recvq s3) then _ else s3).
  assert (speaks L s4) as H4 by (unfold s4; case_if; same). clearbody s4. clear H3.
  destruct invalid; [rewrite app_nil_r; same|by apply process_ready_speaks].
Qed.

Lemma on_packet_speaks t buf L self :
  speaks L self -> speaks (L ++ packet_log t buf self) (on_packet peer_addr local_addr t buf self).
Proof.
  intros Hs. unfold packet_log, on_packet. destruct buf as [|id buf]; [by rewrite app_nil_r|]. cbv zeta.
  set (s1 := if negb (received_since_ack self =? 0) then _ else self).
  assert (speaks L s1) as H1 by (unfold s1; case_if; same). clearbody s1. clear Hs.
  set (s2 := s1 <| last_heartbeat_time := _ |>). assert (speaks L s2) as H2 by same. clearbody s2. clear H1.
  destruct (PacketID.from id) as [[]|]; rewrite ?app_nil_r; try done; [same|by apply on_frame_set_speaks|..].
  - destruct (read_packet_nack _) as [nack|]; [|done]. apply on_feedback_speaks; [|done].
    intros now q Hq. by apply (quiet_event_sound m Hpath (NackRanges (nack_sequences nack) now)).
  - destruct (read_packet_ack _) as [ack|]; [|done]. apply on_feedback_speaks; [|done].
    intros now q Hq. by apply (quiet_event_sound m Hpath (AckRanges (ack_sequences ack) now)).
Qed.

Lemma on_input_speaks t input L self :
  speaks L self -> speaks (L ++ input_log t input self) (on_input peer_addr local_addr t input self).
Proof. intros Hs. destruct input; simpl; [by apply on_packet_speaks|rewrite app_nil_r; same|by rewrite app_nil_r]. Qed.

Lemma receiver_turn_speaks t input L self :
  speaks L self -> speaks (L ++ turn_log t input self) (receiver_turn peer_addr local_addr t input self).
Proof.
  intros Hs. unfold turn_log, receiver_turn. case_if; [by rewrite app_nil_r|].
  case_if; [by apply process_ready_speaks|]. apply (flush_acks_speaks t) in Hs. cbv zeta.
  set (s1 := flush_acks t self) in *. clearbody s1. destruct (pending_data s1) as [|message rest].
  - case_if; [rewrite app_nil_r; same|by apply on_input_speaks].
  - case_if; [rewrite app_nil_r; same|].
    destruct (try_reserve (user_data s1)) as [[] c]; [rewrite app_nil_r; same| |rewrite app_nil_r; same].
    apply on_input_speaks. same.
Qed.

Lemma tick_turn_speaks t L self : speaks L self -> speaks L (tick_turn t self).
Proof.
  intros Hs. unfold tick_turn. case_if; [done|]. set (quiet' := enabled _ && _).
  set (s1 := if quiet' then _ else self). assert (speaks L s1) as H1 by (unfold s1; case_if; same).
  clearbody s1. clear Hs. case_if; [same|]. apply send_nacks_speaks in H1. set (s2 := send_nacks s1) in *. clearbody s2.
  destruct (flush_sendq_speaks (clock t 2) false L s2 H1) as [H3 Ho].
  destruct (said_voiced L _ (batched_sends t) true Ho) as (_ & _ & Hd).
  destruct (flush_sendq _ false s2) as [out s3].
  simpl in H3, Hd. clear H1 Ho. set (now_idle := _ && _ && _). set (s4 := if now_idle then _ else _).
  assert (speaks L s4) as H4 by (unfold s4; case_if; same). clearbody s4. clear H3.
  set (s5 := push_wire _ s4). assert (speaks L s5) as H5 by (by apply push_wire_speaks). clearbody s5. clear H4.
  repeat case_if; [same| |done].
  assert (speaks L (push_wire disconnect_datagrams s5)) as H6.
  { apply push_wire_speaks; [|done]. unfold disconnect_datagrams. simpl repeat.
    repeat (apply Forall_cons_2; [by apply (control_voiced L PacketID.Disconnect)|]). apply Forall_nil_2. }
  clear H5. same.
Qed.

(** *** The calls *)

Lemma transmit_sent_speaks udp batched (out : OutgoingFrames) L self :
  said m L out -> speaks L self -> speaks L (transmit_sent udp batched out self).2.
Proof.
  intros Ho Hs. unfold transmit_sent. set (s1 := self <| maintenance := _ |> <| maintenance := _ |>).
  assert (speaks L s1) as H1 by same. clearbody s1. case_if; [done|].
  destruct (said_voiced L out batched true Ho) as (Hd & _ & _). destruct (transmit_frames batched out).
  by apply push_wire_speaks.
Qed.

Lemma section_speaks section said_by udp batched L self :
  section_sound m section said_by -> speaks L self ->
  speaks (L ++ said_by (sendq self))
    match with_sendq section self with
    | (Err e, self) => (Some (Err e), self)
    | (Ok None, self) => (None, self)
    | (Ok (Some out), self) => let '(r, self) := transmit_sent udp batched out self in (Some r, self)
    end.2.
Proof.
  intros Hsec [Hq Hw]. destruct (Hsec _ _ Hq) as [Hq' Ho]. unfold with_sendq.
  assert (speaks (L ++ said_by (sendq self)) (self <| sendq := (section (sendq self)).2 |>)) as H1
    by (split; [done|by apply wire_grows]).
  destruct (section (sendq self)) as [[[out|]|e] q]; [|done..]. simpl in *.
  pose proof (transmit_sent_speaks udp batched out _ _ (Ho out eq_refl) H1) as H2.
  by destruct (transmit_sent udp batched out _).
Qed.

(** Calls name a channel of a byte, and options are from the builders. *)
Definition call_valid e : Prop :=
  match e with
  | Send _ _ channel _ _ _ _ | SendTogether _ _ _ channel _ _ _ => in_range 8 channel
  | SetSendOptions opts => SendOptions.valid opts
  | _ => True
  end.

Lemma send_payload_speaks buf r channel owned udp batched now L self :
  in_range 8 channel -> speaks L self ->
  speaks (L ++ event_log (Send buf r channel owned udp batched now) self)
    (send_payload buf r channel owned udp batched now self).2.
Proof.
  intros Hc Hs. unfold event_log, send_payload, may_send. destruct buf as [|id buf]; [by rewrite app_nil_r|].
  destruct (id =? 0xfe) eqn:E; cbn [negb].
  2: { rewrite bool_decide_eq_false_2 by (intros [= ->]; done). by rewrite app_nil_r. }
  apply Z.eqb_eq in E as ->. rewrite bool_decide_eq_true_2 by done. cbn [andb].
  destruct (wait_for_handshake self) as [[]|]; [|by rewrite app_nil_r..].
  apply section_speaks; [by apply (payload_locked_sound m Hpath)|done].
Qed.

Lemma set_send_options_speaks opts L self :
  send_policy = true -> SendOptions.valid opts -> speaks L self -> speaks L (Socket.set_send_options opts self).2.
Proof.
  intros Ep Hv Hs. unfold Socket.set_send_options. case_if; [done|].
  match goal with |- context [with_sendq ?x self] => assert (sound m L (x (sendq self)).2) as Hq; [|
    unfold with_sendq; destruct (x (sendq self)) as [[r|e] q]; destruct Hs; by split] end.
  pose proof (quiet_event_sound m Hpath (SendQRun.SetSendOptions opts) _ _ Hv I eq_refl (sk_queue _ _ Hs)) as H1.
  simpl in H1. rewrite Ep in H1. unfold mbind, SE_bind. destruct (SendQ.set_send_options opts (sendq self)) as [[[]|e] q1]; [|done].
  simpl in *. by apply register_sound.
Qed.

Lemma step_speaks e L self :
  call_valid e -> speaks L self -> speaks (L ++ event_log e self) (step peer_addr local_addr e self).2.
Proof.
  intros Hc Hs. destruct e as [t input|t| |? ? ? ? ? ? ?|? ? ? ? ? ? ?| |en|opts now|opts]; cbn [step snd];
    [by apply receiver_turn_speaks| | |by apply send_payload_speaks| | |..].
  3: { unfold event_log, may_send, send_together. destruct (wait_for_handshake self) as [[]|]; [|by rewrite app_nil_r..].
       apply section_speaks; [by apply (batch_locked_sound m Hpath)|done]. }
  3: { unfold event_log, close. case_if; [by rewrite app_nil_r|]. destruct Hs as [Hq Hw]. unfold with_sendq.
       pose proof (insert_sound m Hpath Reliability.Reliable [PacketID.to_u8 PacketID.Disconnect] 0 false _ _
         ltac:(unfold in_range; lia) Hq) as Hq'.
       unfold SendQ.insert, insert_with_order_channel. apply (wire_grows _ (log_event (Insert Reliability.Reliable [PacketID.to_u8 PacketID.Disconnect] 0 false) (sendq self))) in Hw.
       destruct (insert_payload _ _ _ _ (sendq self)) as [[[]|err] q]; by split. }
  all: cbn [event_log]; rewrite app_nil_r.
  - by apply tick_turn_speaks.
  - unfold recv. destruct (try_recv (user_data self)) as [[] c]; simpl; [same|]. repeat case_match; same.
  - unfold set_idle_maintenance. same.
  - destruct recovery_policy; [|done]. unfold Socket.set_recovery_options. case_if; [done|]. cbn [snd]. destruct Hs as [Hq Hw].
    split; [by apply (quiet_event_sound m Hpath (SendQRun.SetRecoveryOptions opts now))|done].
  - destruct send_policy eqn:Ep; [|done]. by apply set_send_options_speaks.
Qed.

Lemma run_speaks events L self :
  Forall call_valid events -> speaks L self ->
  speaks (L ++ spoken events self) (SocketRun.run peer_addr local_addr events self).2.
Proof.
  intros He. revert L self. induction He as [|e events He _ IH]; intros L self Hs; [by rewrite app_nil_r|].
  cbn [SocketRun.run spoken]. apply (step_speaks e) in Hs; [|done].
  destruct (step _ _ e self) as [given s1]. simpl in Hs |- *. specialize (IH _ s1 Hs). rewrite app_assoc.
  by destruct (SocketRun.run _ _ events s1) as [[given' fs'] s2].
Qed.

(** *** The beginning *)

(** A connection as the listener hands it out, or as [connect] returns it. *)
Inductive Opening : Type :=
  | Offered (now : Z)
  | Connected (guid now timestamp flushed : Z) (batched : Batching).

Definition opened (o : Opening) : Result (Connection chan) :=
  match o with
  | Offered now => Ok (new_connection m now)
  | Connected guid now timestamp flushed batched => connected_socket guid m now timestamp flushed batched
  end.

(** A client has asked for the connection already. *)
Definition opening_log (o : Opening) : list Log.Message :=
  match o with
  | Offered _ => []
  | Connected guid _ timestamp _ _ =>
      match write_packet_connection_request (mk_ConnectionRequest guid timestamp 0x00) with
      | Ok buf => log_event (Insert Reliability.ReliableOrdered buf 0 false) (SendQ.new m)
      | Err _ => []
      end
  end.

(** Only the queue, the timer and the wire are not those of a new connection. *)
Definition fresh self : Prop :=
  exists now q mt w, self = new_connection m now <| sendq := q |> <| maintenance := mt |> <| wire := w |>.

Lemma opened_speaks o self : opened o = Ok self -> speaks (opening_log o) self /\ fresh self.
Proof.
  destruct o as [now|guid now timestamp flushed batched]; cbn [opened opening_log].
  { intros [= <-]. split; [split; [apply new_sound|constructor]|].
    by exists now, (SendQ.new m), default_maintenance, []. }
  unfold connected_socket. destruct (write_packet_connection_request _) as [buf|]; [|discriminate]. simpl mbind. cbv beta.
  change (SendQ.insert Reliability.ReliableOrdered buf) with (insert_payload Reliability.ReliableOrdered buf 0 false).
  pose proof (insert_sound m Hpath Reliability.ReliableOrdered buf 0 false _ _ ltac:(unfold in_range; lia) (new_sound m)) as Hi.
  change (sendq (new_connection m now)) with (SendQ.new m). rewrite app_nil_l in Hi. set (L := log_event _ _) in *.
  destruct (insert_payload _ buf 0 false (SendQ.new m)) as [[[]|] q]; [|discriminate]. simpl in Hi.
  assert (speaks L (new_connection m now <| sendq := q |>)) as H1 by (split; [exact Hi|constructor]).
  destruct (flush_sendq_speaks flushed true L _ H1) as [H2 Ho]. unfold flush_sendq in *.
  destruct (SendQ.flush flushed _) as [out q2]. simpl in H2, Ho.
  destruct (said_voiced L out batched true Ho) as (Hd & _ & _). destruct (transmit_frames batched out) as [ds r].
  pose proof (push_wire_speaks ds _ _ Hd H2) as H3.
  destruct r as [|err]; [|case_if]; intros [= <-]; (split; [exact H3|by exists now, q2, (publish q2 true default_maintenance), ds]).
Qed.

(** *** The messages of the application *)

Definition queued_by (section : SE SendQ (option OutgoingFrames)) self : bool :=
  match (section (sendq self)).1 with Ok (Some _) => true | _ => false end.

(** The ordered messages of a channel that a call queued. *)
Definition accepted (c : Z) e self : list (list Z) :=
  match e with
  | Send buf r order_channel owned _ _ now =>
      if bool_decide (r = Reliability.ReliableOrdered) && (order_channel =? c)
         && bool_decide (head buf = Some 0xfe) && may_send self
         && queued_by (send_payload_locked r buf order_channel owned now) self
      then [buf] else []
  | SendTogether borrowed owned r order_channel _ _ now =>
      if bool_decide (r = Reliability.ReliableOrdered) && (order_channel =? c) && may_send self
         && queued_by (send_batch_locked borrowed owned r order_channel now) self
      then borrowed ++ owned else []
  | _ => []
  end.

Fixpoint accepted_on (c : Z) (events : list SocketRun.event) self : list (list Z) :=
  match events with
  | [] => []
  | e :: events => accepted c e self ++ accepted_on c events (step peer_addr local_addr e self).2
  end.
End Connections.
