(* ===== verification/Dialogue.v ===== *)
(** * Two applications

    Two whole connections of [Socket], each with its application, and the network between
    them: what one application is accepted, against what is on its wire and what the other
    receives. *)

From S2P Require Import Prelude Errors Sequence Datatype Packet PacketCodec Frame FrameCodec Fragment AckSet RecvQ Log Delivery SendOptions SendQ SendQInv SendQInsert SendQFlow SendQRun SendQWire SendLog Sending Runtime Udp Socket SocketRun SocketAcks SocketWire EndToEnd Conversation Spoken.

(** ** The messages of a channel *)

Section Payloads.
Context {feat : Features} {usort : UnstableSort}.
Implicit Types (q : SendQ) (L : list Log.Message) (items : list (Reliability * list Z * Z * bool)) (c : Z).

Definition payloads c L : list (list Z) := map m_payload (on_channel c L).

Lemma payloads_app c L M : payloads c (L ++ M) = payloads c L ++ payloads c M.
Proof. unfold payloads. by rewrite on_channel_app, map_app. Qed.

Definition item_on c (item : Reliability * list Z * Z * bool) : bool :=
  bool_decide (item.1.1.1 = Reliability.ReliableOrdered) && (item.1.2 =? c).

Lemma insert_payloads c r buf channel owned q :
  payloads c (log_event (Insert r buf channel owned) q) =
    if item_on c (r, buf, channel, owned) && is_ok (SendQ.insert_payload r buf channel owned q).1 then [buf] else [].
Proof.
  unfold payloads, item_on. simpl. destruct (is_ok _); [rewrite !andb_true_r|by rewrite !andb_false_r].
  destruct (rel_b r) eqn:Er; [|rewrite bool_decide_eq_false_2 by (by intros ->); done].
  unfold on_channel. rewrite filter_cons, filter_nil. unfold ordered. simpl.
  destruct (decide _) as [[-> ->]|Hn]; [by rewrite bool_decide_eq_true_2, Z.eqb_refl|].
  case_bool_decide; [|done]. destruct (channel =? c) eqn:Ec; [|done]. apply Z.eqb_eq in Ec. exfalso. by apply Hn.
Qed.

(** Insertions that all succeed. *)
Lemma inserts_payloads c items q :
  (insert_all items q).1 = Ok tt ->
  payloads c (inserts_log items q) = map (fun item => item.1.1.2) (List.filter (item_on c) items).
Proof.
  revert q. induction items as [|[[[r buf] channel] owned] items IH]; intros q; [done|]. cbn [insert_all inserts_log List.filter].
  rewrite payloads_app, insert_payloads. unfold mbind, SE_bind.
  destruct (SendQ.insert_payload r buf channel owned q) as [[[]|e] q1]; [|done]. intros Hok. rewrite (IH q1 Hok), andb_true_r.
  by destruct (item_on c _).
Qed.

Lemma inserts_off c items q : Forall (fun item => item_on c item = false) items -> payloads c (inserts_log items q) = [].
Proof.
  intros Hi. revert q. induction Hi as [|[[[r buf] channel] owned] items Hoff _ IH]; intros q; [done|]. cbn [inserts_log].
  rewrite payloads_app, insert_payloads, Hoff. simpl. by destruct (SendQ.insert_payload _ _ _ _ _) as [[[]|e] q1].
Qed.

(** Packets of the connection itself. *)
Lemma inserts_silent c items q :
  Forall (fun item => ~ is_game item.1.1.2) items -> games (payloads c (inserts_log items q)) = [].
Proof.
  intros Hi. revert q. induction Hi as [|[[[r buf] channel] owned] items Hs _ IH]; intros q; [done|]. cbn [inserts_log].
  rewrite payloads_app, insert_payloads, games_app.
  assert (games (if item_on c (r, buf, channel, owned) && is_ok (SendQ.insert_payload r buf channel owned q).1 then [buf] else []) = []) as ->
    by (case_if; [unfold games; by rewrite filter_cons_False|done]).
  simpl. by destruct (SendQ.insert_payload _ _ _ _ _) as [[[]|e] q1].
Qed.

Lemma items_of_on c r channel owned messages :
  List.filter (item_on c) (items_of r channel owned messages) =
    if bool_decide (r = Reliability.ReliableOrdered) && (channel =? c) then items_of r channel owned messages else [].
Proof.
  induction messages as [|message messages IH]; [by case_if|]. cbn [items_of map List.filter].
  unfold item_on at 1. cbn [fst snd]. fold (items_of r channel owned messages). rewrite IH. by case_if.
Qed.

Lemma items_of_payloads r channel owned messages : map (fun item => item.1.1.2) (items_of r channel owned messages) = messages.
Proof. unfold items_of. rewrite map_map. apply map_id. Qed.

(** *** The sections of the calls *)

Lemma payload_log_on c r buf channel owned now q :
  payloads c (payload_log r buf channel owned q) =
    if bool_decide (r = Reliability.ReliableOrdered) && (channel =? c)
       && match (send_payload_locked r buf channel owned now q).1 with Ok (Some _) => true | _ => false end
    then [buf] else [].
Proof.
  rewrite payload_locked_all. unfold payload_log.
  destruct (SendQ.has_capacity q r (zlen buf)) as [[]|e]; [|by rewrite andb_false_r..].
  unfold insert_and_flush. cbn [insert_all inserts_log]. unfold mbind, SE_bind. rewrite payloads_app, insert_payloads.
  unfold item_on. cbn [fst snd]. unfold flush_frames.
  destruct (SendQ.insert_payload r buf channel owned q) as [[[]|e] q1]; simpl; [|by rewrite !andb_false_r].
  destruct (SendQ.flush now q1). simpl. rewrite !andb_true_r. by case_if.
Qed.

Lemma batch_log_on m c borrowed owned r channel now q L :
  path_mtu m -> sound m L q ->
  payloads c (batch_log borrowed owned r channel q) =
    if bool_decide (r = Reliability.ReliableOrdered) && (channel =? c)
       && match (send_batch_locked borrowed owned r channel now q).1 with Ok (Some _) => true | _ => false end
    then borrowed ++ owned else [].
Proof.
  intros Hm [Hw Em Ho _]. destruct (bool_decide _ && _) eqn:Eon; cbn [andb].
  2: { unfold batch_log. destruct (SendQ.has_batch_capacity q r _) as [[]|e]; [|done..]. apply inserts_off.
       apply Forall_app. split; apply Forall_map, list.Forall_forall; by intros. }
  pose proof Eon as [->%bool_decide_eq_true_1 _]%andb_true_iff.
  assert (in_range 16 (SendQ.mtu q)) as Hm16 by (rewrite Em; unfold path_mtu, in_range in *; lia).
  pose proof (send_batch_cases borrowed owned channel now q (wire_accounted _ Hw) Hm16 Ho) as Hcases. cbv zeta in Hcases.
  rewrite batch_locked_all in *. unfold batch_log.
  destruct (SendQ.has_batch_capacity q _ _) as [[]|e]; [|done..].
  destruct Hcases as (q1 & fss & _ & _ & _ & E). rewrite E. cbn [fst].
  rewrite inserts_payloads.
  - unfold batch_items. rewrite List.filter_app, !items_of_on, Eon, map_app. by rewrite !items_of_payloads.
  - unfold insert_and_flush, mbind, SE_bind in E. by destruct (insert_all _ _) as [[[]|e] q2].
Qed.
End Payloads.

(** ** What a connection says beside *)

Section Silent.
Context {feat : Features} {usort : UnstableSort} `{Mpsc chan}.
Context (peer_addr local_addr : SocketAddr).
Implicit Types (self : Connection chan) (t : Turn).

Ltac written := eexists; split;
  [apply run_writes;
   repeat (eapply writes_bind; [solve [eauto using writes_internal_addresses with wire]|]); eauto with wire
  |reflexivity].

(** What the packets of the connection begin with. *)
Lemma accepted_head p : exists bs, write_packet_connection_request_accepted p = Ok bs /\ head bs = Some 0x10.
Proof. written. Qed.

Lemma incoming_head p : exists bs, write_packet_new_incomming_connection p = Ok bs /\ head bs = Some 0x13.
Proof. written. Qed.

Lemma ping_head p : exists bs, write_packet_connected_ping p = Ok bs /\ head bs = Some 0x00.
Proof. written. Qed.

Lemma connected_pong_head p : exists bs, write_packet_connected_pong p = Ok bs /\ head bs = Some 0x03.
Proof. written. Qed.

Lemma request_head p : exists bs, write_packet_connection_request p = Ok bs /\ head bs = Some 0x09.
Proof. written. Qed.

Lemma not_game buf id : head buf = Some id -> id <> 0xfe -> ~ is_game buf.
Proof. unfold is_game. intros -> Hid [= ?]. by apply Hid. Qed.

Lemma replies_silent t w frame : Forall (fun item => ~ is_game item.1.1.2) (replies peer_addr local_addr t w frame).
Proof.
  unfold replies. destruct (FramePayload.deref (data frame)) as [|id bytes]; [constructor|].
  destruct (PacketID.from id) as [[]|]; try constructor.
  - destruct (read_packet_connected_ping _) as [p|]; [|constructor].
    destruct (connected_pong_head (mk_ConnectedPong (ping_client_timestamp p) (wall t w))) as (bs & -> & Hh).
    apply Forall_cons_2; [by eapply not_game|apply Forall_nil_2].
  - destruct (read_packet_connection_request _) as [p|]; [|constructor].
    destruct (accepted_head (mk_ConnectionRequestAccepted peer_addr 0 (creq_time p) (wall t w))) as (bs & -> & Hh).
    apply Forall_cons_2; [by eapply not_game|apply Forall_nil_2].
  - destruct (read_packet_connection_request_accepted _) as [p|]; [|constructor].
    destruct (incoming_head (mk_NewIncomingConnection local_addr (acc_request_timestamp p) (wall t w))) as (bs & -> & Hh).
    destruct (ping_head (mk_ConnectedPing (wall t (S w)))) as (bs' & -> & Hh').
    do 2 (apply Forall_cons_2; [by eapply not_game|]). apply Forall_nil_2.
Qed.

(** No turn of the receiving task says a game packet. *)
Definition silent (L : list Log.Message) : Prop := forall c, games (payloads c L) = [].

Lemma silent_app L M : silent L -> silent M -> silent (L ++ M).
Proof. intros HL HM c. by rewrite payloads_app, games_app, HL, HM. Qed.

Lemma answered_silent t k frame self : silent (answered peer_addr local_addr t k frame self).
Proof. intros c. unfold answered. do 2 (case_if; [done|]). apply inserts_silent, replies_silent. Qed.

Lemma ready_log_silent t k frames self : silent (ready_log peer_addr local_addr t k frames self).
Proof.
  revert k self. induction frames as [|frame frames IH]; intros k self; cbn [ready_log]; [by intros c|].
  apply silent_app; [apply answered_silent|]. destruct (on_ready _ _ t k frame self) as [[| |] s1]; [apply IH|by intros c..].
Qed.

Lemma frame_set_log_silent t buf self : silent (frame_set_log peer_addr local_addr t buf self).
Proof.
  unfold frame_set_log. case_if; [by intros c|]. destruct (decode_input _ _) as [fs|]; [|by intros c]. cbv zeta.
  destruct (receive _ [] _) as [[[] ready] q]; [by intros c|apply ready_log_silent].
Qed.

Lemma input_log_silent t input self : silent (input_log peer_addr local_addr t input self).
Proof.
  destruct input as [[|id buf]| |]; try by intros c. cbn [input_log packet_log]. cbv zeta.
  destruct (PacketID.from id) as [[]|]; try (by intros c). apply frame_set_log_silent.
Qed.

Lemma turn_log_silent t input self : silent (turn_log peer_addr local_addr t input self).
Proof.
  unfold turn_log. case_if; [by intros c|]. case_if; [apply ready_log_silent|]. cbv zeta.
  destruct (pending_data _) as [|message rest]; (case_if; [by intros c|]); [apply input_log_silent|].
  destruct (try_reserve _) as [[] q]; first [by intros c|apply input_log_silent].
Qed.

Lemma opening_log_silent m o : silent (opening_log m o).
Proof.
  destruct o as [now|guid now timestamp flushed batched]; [by intros c|]. cbn [opening_log].
  destruct (request_head (mk_ConnectionRequest guid timestamp 0x00)) as (bs & -> & Hh). intros c.
  rewrite insert_payloads. case_if; [|done]. unfold games. rewrite filter_cons_False; [done|]. by eapply not_game.
Qed.

(** ** What the application was accepted *)

Context (m : Z) (Hpath : path_mtu m).

Lemma event_log_accepted c e L self :
  speaks m L self ->
  games (payloads c (event_log peer_addr local_addr e self)) = games (accepted c e self).
Proof.
  intros [Hq _]. destruct e as [t input|t| |buf r channel owned udp batched now|borrowed owned r channel udp batched now| | | |];
    cbn [event_log accepted]; try done.
  - apply turn_log_silent.
  - unfold queued_by.
    destruct (bool_decide (head buf = _)), (may_send self); cbn [andb];
      rewrite ?andb_false_r, ?andb_true_r; try done. by rewrite (payload_log_on c r buf channel owned now).
  - unfold queued_by. destruct (may_send self); cbn [andb]; rewrite ?andb_false_r, ?andb_true_r; [|done].
    by rewrite (batch_log_on m c borrowed owned r channel now _ L Hpath Hq).
  - case_if; [done|]. rewrite insert_payloads. by case_if.
Qed.

Lemma spoken_accepted c events L self :
  Forall call_valid events -> speaks m L self ->
  games (payloads c (spoken peer_addr local_addr events self)) = games (accepted_on peer_addr local_addr c events self).
Proof.
  intros He. revert L self. induction He as [|e events He _ IH]; intros L self Hs; [done|]. cbn [spoken accepted_on].
  rewrite payloads_app, !games_app, (event_log_accepted c e L self Hs). f_equal.
  by apply (IH (L ++ event_log peer_addr local_addr e self)), step_speaks.
Qed.
End Silent.

(** ** From one application to the other *)

Section Dialogue.
Context {feat : Features} {usort : UnstableSort} `{Mpsc chan}.
Context (addr_a addr_b : SocketAddr).
Implicit Types (self : Connection chan) (e : SocketRun.event).

Lemma voiced_genuine L ds e : Forall (voiced L) ds -> from_wire ds e -> genuine_event L e.
Proof.
  intros Hds Hw. destruct e as [t [buf| |]| | | | | | | |]; try done. destruct Hw as (Hby & Hl & Hin).
  intros id Hid Hp owned fs Hd. rewrite decode_input_eq in Hd by done.
  by apply (proj1 (list.Forall_forall _ _) Hds buf (Hin id Hid Hp) id Hid Hp).
Qed.

Lemma fresh_conversed m L self : log_wf L -> zlen (log_frames L) <= HALF -> fresh m self -> conversed L [] self.
Proof.
  intros HL Hl (now & q & mt & w & ->). apply (steady_conversed L [] (new_connection m now)); [by split|by apply new_conversed].
Qed.

Lemma fresh_stream m self : fresh m self -> connection_ok self /\ games (stream self) = [].
Proof. intros (now & q & mt & w & ->). apply (new_connection_stream m now). Qed.

Lemma games_prefix l k : l `prefix_of` k -> games l `prefix_of` games k.
Proof. intros [r ->]. rewrite games_app. by exists (games r). Qed.

(** What a receiving queue has released is a prefix of the log on every channel, and all of it
    once its window expects the index after the last. *)
Lemma conversed_released L out self c :
  zlen (log_frames L) <= HALF -> conversed L out self ->
  map payload (delivered c out) `prefix_of` payloads c L /\
  (receiving self = true ->
   ReliableWindow.next_index (reliable_window (recvq self)) = serial (zlen (log_frames L)) ->
   map payload (delivered c out) = payloads c L).
Proof.
  intros Hshort [Hcons Hq]. destruct (consecutive_prefix _ c _ Hcons) as [rest Er]. fold (payloads c L) in Er.
  assert (map (fun f => FramePayload.deref (data f)) (delivered c out) = map payload (delivered c out)) as Ep
    by (apply map_ext; intros f; unfold payload; by destruct (data f)).
  rewrite Ep in Er. split; [by exists rest|]. intros Hr Hn. destruct (Hq Hr) as (s & Hi & _ & Hw & _).
  pose proof (ReliableWindow.rep_next _ _ (di_window _ _ _ _ Hi)) as Hb. rewrite Hn in Hb.
  assert (ReliableWindow.base s = zlen (log_frames L)) as Eb.
  { unfold serial, HALF in *. rewrite !Z.mod_small in Hb by lia. done. }
  pose proof (all_delivered L s out _ c Hi Hcons) as Hall. unfold payloads in *.
  assert (progress out c = zlen (on_channel c L)) as El by (apply Hall; intros R HR; left; lia).
  apply (f_equal length) in Er as Elen. rewrite length_app, !length_map in Elen. unfold progress in El.
  destruct rest; [by rewrite Er, app_nil_r|simpl in Elen; lia].
Qed.

(** C2: two applications. Two connections, each the listener's or a client's that has
    connected, live any histories: turns of their tasks, under the back-pressure of their
    applications, calls to send, to receive, to close and to configure, packets of every kind.
    Of the frame sets the network hands the second any that the first put on its wire, any
    number of times, in any order. While the first has numbered at most [2^23] reliable
    frames: what the second application has received, followed by what is on its way to it,
    are game packets its receive queue released, in that order, none missing while the
    connection is open; those released on every ordered channel are a prefix of the messages
    the first application was accepted on it; and they are all of them once the reliable index
    that the second expects next is the one that the first would number next. *)
Theorem applications_converse mtu_a open_a (start_a : Connection chan) events_a mtu_b open_b start_b events_b :
  path_mtu mtu_a -> opened mtu_a open_a = Ok start_a -> Forall call_valid events_a ->
  path_mtu mtu_b -> opened mtu_b open_b = Ok start_b ->
  zlen (log_frames (opening_log mtu_a open_a ++ spoken addr_b addr_a events_a start_a)) <= HALF ->
  let a := (SocketRun.run addr_b addr_a events_a start_a).2 in
  Forall (from_wire (wire a)) events_b ->
  let out := SocketRun.run addr_a addr_b events_b start_b in
  let got := games out.1.1 ++ games (stream out.2) in
  got `sublist_of` games (map payload out.1.2) /\
  (closed out.2 = false -> got = games (map payload out.1.2)) /\
  (forall c, let released := games (map payload (delivered c out.1.2)) in
     let sent := games (accepted_on addr_b addr_a c events_a start_a) in
     released `prefix_of` sent /\
     (receiving out.2 = true ->
      ReliableWindow.next_index (reliable_window (recvq out.2)) = SendQ.reliable_frame_index (sendq a) ->
      released = sent)).
Proof.
  intros Hm Ha Hev Hmb Hb Hshort a Hwire. cbv zeta.
  destruct (opened_speaks mtu_b Hmb open_b start_b Hb) as [_ Hfresh].
  destruct (fresh_stream mtu_b start_b Hfresh) as [Hok Hst].
  destruct (run_stream addr_a addr_b start_b events_b Hok Hst) as [Hsub Heq]. split; [done|]. split; [done|].
  destruct (opened_speaks mtu_a Hm open_a start_a Ha) as [Hsa _].
  pose proof (run_speaks addr_b addr_a mtu_a Hm events_a _ start_a Hev Hsa) as [[_ _ _ [HL Hnext _ _]] Hds].
  fold a in HL, Hnext, Hds. set (L := _ ++ _) in HL, Hnext, Hds, Hshort.
  pose proof (run_conversed addr_a addr_b L HL Hshort events_b [] start_b) as Hcv. rewrite app_nil_l in Hcv.
  intros c. destruct (conversed_released L _ _ c Hshort (Hcv ltac:(
    eapply Forall_impl; [|exact Hwire]; intros e; by apply voiced_genuine) ltac:(by apply (fresh_conversed mtu_b L)))) as [Hpre Hall].
  rewrite <- (spoken_accepted addr_b addr_a mtu_a Hm c events_a _ start_a Hev Hsa).
  assert (games (payloads c (spoken addr_b addr_a events_a start_a)) = games (payloads c L)) as ->
    by (unfold L; by rewrite payloads_app, games_app, (opening_log_silent mtu_a open_a c)).
  rewrite Hnext. split; [by apply games_prefix|]. intros Hr Hn. by rewrite (Hall Hr Hn).
Qed.
(** ** What is on the wire is faithful *)

(** The frames a peer gets out of a datagram. *)
Definition heard (d : list Z) : list FrameSetPacket :=
  match head d with
  | Some id =>
      match PacketID.from id, FrameVec.decode_into d with
      | Ok PacketID.FrameSetPacketBegin, Ok fs => fs
      | _, _ => []
      end
  | None => []
  end.

(** [f] is the [j]-th frame of the [i]-th message of [L], field by field. *)
Definition conveys L (i j : nat) f : Prop :=
  exists u g, L !! i = Some u /\ m_parts u !! j = Some g /\ copy f g /\ reliability f = Ok (m_mode u) /\
    reliable_frame_index f = serial (zlen (log_frames (take i L)) + Z.of_nat j) /\
    (m_mode u = Reliability.ReliableOrdered ->
       order_channel f = m_channel u /\ ordered_frame_index f = serial (zlen (on_channel (m_channel u) (take i L)))).

Lemma of_log_conveys L f :
  log_wf L -> of_log L f -> rel_b (rel_of f) = true -> exists i j, conveys L i j f.
Proof.
  intros HL [_ Hc] Hr. destruct (Hc Hr) as (R & g & HR & Hcp).
  destruct (log_frames_lookup L R g HR) as (i & u & j & Hi & Hj & ->). exists i, j, u, g.
  pose proof (lw_messages _ HL i u Hi) as Hu. pose proof (list_elem_of_lookup_2 _ _ _ Hj) as Hg.
  pose proof (mw_mode _ _ Hu g Hg) as Hm. destruct (copy_mode f g Hcp) as [Em _]. split_and!; try done; [congruence|..].
  - rewrite (cp_reliable _ _ Hcp), (lw_index _ HL _ _ HR). f_equal. lia.
  - intros Ho. destruct (mw_order _ _ Hu Ho g Hg) as [E1 E2].
    destruct (cp_ordered _ _ Hcp) as [-> ->]; [by rewrite Hm, Ho|done].
Qed.

Lemma heard_of_log L d : voiced L d -> Forall (of_log L) (heard d).
Proof.
  intros Hv. unfold heard. destruct (head d) as [id|] eqn:Eid; [|constructor].
  destruct (PacketID.from id) as [[]|] eqn:Ep; try constructor.
  destruct (FrameVec.decode_into d) as [fs|] eqn:Ed; [|constructor]. exact (Hv id Eid Ep fs Ed).
Qed.

(** C12: what leaves is legible and faithful. Whatever happens on a connection, the
    listener's or the client's, in whatever order: each datagram it hands to the UDP socket
    is one that the receiving task of a peer acts on: a frame set its decoder accepts, an ACK
    or NACK packet that parses, or a disconnect notification; a frame alone in its datagram
    fits the MTU with the headers of IP and UDP. And every reliable frame that the peer gets
    out of a frame set is a part of a message this connection was accepted or answers the
    handshake with: it has the message's mode, its reliable index is its position among all
    the frames of those messages, its channel and order index are those of the message, and
    its fragment fields and payload are those of the part, whatever their widths in the
    packet. The parts of a message make up its payload ([log_wf]). *)
Theorem wire_always_legible mtu open (start : Connection chan) events :
  path_mtu mtu -> opened mtu open = Ok start -> Forall call_ok events -> Forall call_valid events ->
  let self := (run addr_b addr_a events start).2 in
  let L := opening_log mtu open ++ spoken addr_b addr_a events start in
  log_wf L /\
  forall d, d ∈ wire self ->
    understood d = true /\ (forall f, FrameVec.decode_into d = Ok [f] -> zlen d <= mtu - 28) /\
    forall f, f ∈ heard d -> frame_wf f (rel_of f) /\ (rel_b (rel_of f) = true -> exists i j, conveys L i j f).
Proof.
  intros Hm Ho He Hv. cbv zeta.
  assert (starts mtu start) as Hst.
  { destruct open as [now|guid now timestamp flushed batched]; [injection Ho as <-; left; by exists now|].
    right. by exists guid, now, timestamp, flushed, batched. }
  pose proof (run_legible addr_b addr_a mtu start events Hm Hst He) as Hl.
  destruct (opened_speaks mtu Hm open start Ho) as [Hs _].
  destruct (run_speaks addr_b addr_a mtu Hm events _ start Hv Hs) as [[_ _ _ [HL _ _ _]] Hd].
  split; [exact HL|]. intros d Hin. destruct (proj1 (list.Forall_forall _ _) Hl d Hin) as [H1 H2]. do 2 (split; [done|]).
  pose proof (heard_of_log _ d (proj1 (list.Forall_forall _ _) Hd d Hin)) as Hh. intros f Hf.
  pose proof (proj1 (list.Forall_forall _ _) Hh f Hf) as Hof. split; [apply Hof|by apply of_log_conveys].
Qed.
End Dialogue.

(** ** The theorem at work *)

(** A client connects, completes the handshake with what the listener's connection answers
    its first datagram, and sends a game packet in fragments and a small one. Its datagrams
    reach the listener's connection backwards and the first of them once more; the application
    there asks for both messages. *)
Definition client_address : SocketAddr := V4 (mk_ipv4 127 0 0 1) 7.
Definition server_address : SocketAddr := V4 (mk_ipv4 127 0 0 1) 8.

Definition sample_opening : Opening := Connected 5 0 0 0 None.

Definition client_start : Connection Channel :=
  match @opened both_policies merge_sort_flight Channel _ 100 sample_opening with
  | Ok self => self
  | Err _ => new_connection 100 0
  end.

Definition receives (ds : list (list Z)) : list event := map (fun d => Receiver sample_turn (Datagram d)) ds.

Abbreviation connection_run local peer :=
  (@SocketRun.run both_policies merge_sort_flight Channel _ peer local) (only parsing).

(** The answer of the listener's connection. *)
Definition server_answers : list (list Z) :=
  wire (connection_run server_address client_address (receives (wire client_start)) (new_connection 100 0)).2.

Definition client_events : list event :=
  receives server_answers
  ++ map (fun buf => Send buf Reliability.ReliableOrdered 3 true true None 30) sample_packets.

Abbreviation client_wire := (wire (connection_run client_address server_address client_events client_start).2).

Definition server_events : list event := receives (reverse client_wire ++ take 1 client_wire) ++ [Recv; Recv].

Abbreviation dialogue := (connection_run server_address client_address server_events (new_connection 100 0)).

Lemma client_wire_bytes : Forall (fun d => Forall (in_range 8) d /\ zlen d < 2 ^ 64) client_wire.
Proof.
  apply (bool_decide_eq_true_1 (Forall (fun d => Forall (fun b => 0 <= b < 2 ^ 8) d /\ zlen d < 2 ^ 64) client_wire)).
  vm_compute. reflexivity.
Qed.

Lemma server_events_from_wire : Forall (from_wire client_wire) server_events.
Proof.
  unfold server_events, receives. apply Forall_app_2; [apply rearranged_from_wire, client_wire_bytes|].
  repeat (apply Forall_cons_2; [exact I|]). apply Forall_nil_2.
Qed.

Lemma client_calls_valid : Forall call_valid client_events.
Proof.
  unfold client_events, receives. apply Forall_app_2; apply Forall_map, list.Forall_forall; [done|].
  intros buf _. unfold call_valid, in_range. lia.
Qed.

Lemma applications_converse_witness :
  closed dialogue.2 = false /\ dialogue.1.1 = sample_packets /\
  games dialogue.1.1 ++ games (stream dialogue.2) = games (map payload dialogue.1.2) /\
  games (map payload (delivered 3 dialogue.1.2)) = sample_packets.
Proof.
  assert (closed dialogue.2 = false) as Ho by (vm_compute; reflexivity).
  assert (games (@accepted_on both_policies merge_sort_flight Channel _ server_address client_address 3 client_events client_start)
    = sample_packets) as <- by (vm_compute; reflexivity).
  destruct (@applications_converse both_policies merge_sort_flight Channel _ client_address server_address 100 sample_opening
    client_start client_events 100 (Offered 0) (new_connection 100 0) server_events) as (_ & He & Hp).
  - unfold path_mtu. lia.
  - vm_compute. reflexivity.
  - exact client_calls_valid.
  - unfold path_mtu. lia.
  - reflexivity.
  - vm_compute. discriminate.
  - exact server_events_from_wire.
  - split; [exact Ho|]. split; [vm_compute; reflexivity|]. split; [exact (He Ho)|].
    apply (Hp 3); vm_compute; reflexivity.
Defined.

Lemma client_calls_ok : Forall call_ok client_events.
Proof.
  assert (Forall (fun d => Forall (in_range 8) d /\ zlen d < 2 ^ 64) server_answers) as Hb.
  { apply (bool_decide_eq_true_1 (Forall (fun d => Forall (fun b => 0 <= b < 2 ^ 8) d /\ zlen d < 2 ^ 64) server_answers)).
    vm_compute. reflexivity. }
  unfold client_events, receives. apply Forall_app_2; apply Forall_map.
  - eapply Forall_impl; [|exact Hb]. intros d Hd. by split.
  - apply list.Forall_forall. intros buf _. split; [exact I|]. unfold in_range. lia.
Qed.

Lemma wire_always_legible_witness :
  length (concat (map heard client_wire)) = 9%nat /\
  forall d f, d ∈ client_wire -> f ∈ heard d -> rel_b (rel_of f) = true ->
    exists i j, conveys (@opening_log both_policies 100 sample_opening
      ++ @spoken both_policies merge_sort_flight Channel _ server_address client_address client_events client_start) i j f.
Proof.
  split; [vm_compute; reflexivity|]. intros d f Hd Hf.
  destruct (@wire_always_legible both_policies merge_sort_flight Channel _ client_address server_address 100 sample_opening
    client_start client_events) as [_ Hw].
  - unfold path_mtu. lia.
  - vm_compute. reflexivity.
  - exact client_calls_ok.
  - exact client_calls_valid.
  - destruct (Hw d) as (_ & _ & Hc); [exact Hd|]. exact (proj2 (Hc f Hf)).
Defined.
